(* ===== verification/_CoqProject ===== *)
-Q . S2P
Prelude.v
ArrayType.v
VoteSet.v
Peers.v
Core.v
Db.v
Storage.v
ConsDb.v
Consensus.v
ConsInv.v
ConsRound.v
ConsSteps.v
ConsSpec.v
ConsVotes.v
ConsProps.v
ConsChain.v
ConsServe.v
ConsLimits.v
ConsLive.v
Module.v
Ctrl.v
CtrlSpec.v
CtrlProps.v
Meta.v
NodeApp.v
NodeAppProps.v
NodeAppCache.v
Node.v
Network.v
NetInv.v
NetRun.v
NetProps.v
NetAccept.v
Sim.v
Replica.v
NodeTasks.v
ConsOps.v
AppApi.v
PeerAddr.v
ConsFinal.v
Rpc.v
Final.v
Join.v
Wake.v
RpcServer.v
Secret.v
Text.v
Names.v
Ui.v
UiProps.v
Pages.v
Shared.v
Proposals.v
Startup.v
Values.v
Runtime.v
Stream.v
