(* ===== verification/Prelude.v ===== *)
(** * BFTE: a verification library (root file)

    BFTE is a permissioned blockchain: a fixed set of peers agrees, round by round,
    on blocks of consensus items; the items are interpreted by modules; and one of
    the modules, the consensus control module, changes the set of peers.  This
    library models the consensus engine, the modules, the application layer and the
    node around them ([src/crates]) as executable functions, and proves what they
    guarantee, and where they do not.

    ** The parts and how they interact

    - A peer's vote, a notarized block, or a finality vote arrives as a message.
      One write transaction ([Db]) of the consensus handles it ([Consensus]):
      it checks signatures and contents ([Core]), updates the tables ([ConsDb]),
      ends the round when a quorum ([Peers]) has voted for its proposal or for
      its dummy block, and changes the watch channels when it commits.
    - A round that is final hands its block to the application layer
      ([NodeApp]), which processes the items in order, each in a transaction of
      the whole database: the module of the item ([Ctrl], [Meta], on their own
      tables through the interface of [Module]) answers with effects; new
      parameters go to the consensus; all modules see the effects; and the
      position in the block is stored.
    - A node ([Node]) runs the rounds: it spawns tasks that propose, vote and ask
      other peers, and hands the events they end with to the consensus.  It
      answers the requests of other nodes from its tables ([Rpc]), hands final
      blocks to the application ([AppApi]), keeps the addresses of the peers
      ([PeerAddr]), and creates or joins a consensus ([Join]) with keys from its
      secret ([Secret]); its owner starts it ([Startup]) and uses the web interface
      ([Ui], [Pages]).  [Network] is many nodes that run together, with any messages
      between them, and [Replica] two nodes that process the same blocks.

    ** Files and what they correspond to

    - [Prelude]: outcomes of Rust code (value, error, panic), checked and wrapping
      arithmetic, ordered iteration over maps ([entries], [range]); no source.
    - [ArrayType]: [util-array-type/src/lib.rs]; arrays of bytes as numbers.
    - [VoteSet]: [consensus/src/vote_set.rs]; the bitmap of peer indices.
    - [Peers]: [consensus-core/src/num_peers.rs], [peer_set.rs], [peer.rs].
    - [Core]: the other files of [consensus-core/src] ([block.rs],
      [consensus_params.rs], [signed.rs], [msg.rs], [bincode.rs], [ver.rs]) and
      [util-bincode].
    - [Db]: [db/src]; transactions and commit hooks, and the logic [wp] in which
      the transactions are reasoned about.  [Storage]: the same transactions when
      redb and the file system may fail, opening databases, and [error.rs].
    - [ConsDb]: [consensus/src/tables.rs], [consensus/src/consensus/ctx.rs].
    - [Consensus]: [consensus/src/consensus.rs] and the handlers and queries in
      [consensus/src/consensus/].
    - [ConsInv], [ConsRound], [ConsSteps], [ConsSpec]: the invariant of the
      database, the end of a round, the handlers, and the reachable states.
    - [ConsVotes]: which messages the stored votes and proposals come from;
      [ConsFinal]: the stored and the announced finality consensus, and that
      opening and initialising give no error.
    - [ConsOps]: the traits of [ctx.rs] as type classes, and the getters
      ([getters.rs]).
    - [ConsProps], [ConsChain], [ConsServe], [ConsLive], [ConsLimits]: the theorems.
    - [Module]: [module/src]; configurations, effects, tables of a module.
    - [Ctrl]: [modules/consensus-ctrl/src] and its effects; [CtrlSpec] is the
      specification [ctrl_step] and the proof that the handlers implement it;
      [CtrlProps] has the theorems.
    - [Meta]: [modules/meta/src] and its effects, with its theorems.
    - [NodeApp]: [node-app/src]; [NodeAppProps] and [NodeAppCache] have the
      theorems, and [ToyApp] a whole node that runs.
    - [Sim], [Replica]: no source; a relation between two runs of a transaction
      that differ in what is private, and what two nodes agree on that process the
      same blocks ([node-app/src/lib.rs], [process_citem.rs], both modules).
    - [Node]: [node/src/run_consensus.rs], [finality_vote_query_task.rs] and the
      proposals of [node-shared-modules/src]; the tasks of a round as data, what
      each ends with, and the loop that hands events to the consensus.
      [NodeTasks] has the theorems of one node.
    - [Network]: the steps of a network of nodes; [NetInv] is its invariant,
      [NetRun] runs networks, [NetProps] and [NetAccept] have the theorems.
      [Final] puts the network and the delivery together: what the applications of
      two nodes get.
    - [AppApi]: [node/src/app_api.rs], the delivery of final blocks, a machine
      whose steps see a changing consensus, with its theorems.
    - [PeerAddr]: [node/src/peer_address.rs], [connection_pool.rs],
      [util-db/src/random.rs], [node-core/src/address.rs], with its theorems.
    - [Rpc]: [node/src/rpc_server.rs], [node/src/rpc.rs]; the handlers that wait
      are machines too.  [RpcServer] is the server as a whole: ids, the handler of
      each request on a node that goes on meanwhile, and its contract.
    - [Wake]: the commit of [db/src/ctx.rs], its hooks one by one, and the loops of
      [rpc_server.rs] and [run_consensus.rs] that sleep on a channel: who is woken.
    - [Join]: [node/src/node.rs], [join.rs], [invite.rs], [invite/src/lib.rs]:
      creating, joining and opening a consensus, with its theorems.
    - [Secret]: [derive-secret/src/lib.rs], [node/src/derive_secret_ext.rs],
      [pass.rs], with its theorems.
    - [Text]: the texts of the web forms ([node-ui-axum/src/routes/module]) and the
      functions of the standard library on strings that they use, with the theorem
      on the forms of the meta module.
    - [Names]: the texts and encodings of keys, hashes, addresses and invites
      ([util-array-type/src/lib.rs], [consensus-core/src/peer.rs], [citem.rs],
      [invite/src/lib.rs], [node/src/peer_address.rs]).
    - [Ui]: [node-ui-axum/src] and [node/src/ui_api.rs]: the router, the handlers
      and the layers around them; [UiProps] has the theorems.  [Pages] has the
      pages, fragments and static files, element by element, and their theorem.
    - [Shared]: [node-shared-modules/src], the lock around the modules and what
      every part of a node does with it, with its theorems.
    - [Proposals]: [node-shared-modules/src] and the leader's task in
      [run_consensus.rs]: the wait for something to propose, as machines whose
      steps see what others write, with its theorems.
    - [Startup]: [bfte/src] and the start of a node in [node/src/node.rs]: the
      options, the commands, what they leave on the machine, with its theorems.
    - [Values]: small conversions and what is printed ([bincode.rs], [peer_set.rs],
      [peer.rs], [ver.rs], [module.rs], [derive-secret/src/lib.rs],
      [util-error/src/fmt.rs], [util-fmt-opt/src/lib.rs]).
    - [Runtime]: the loops around the rounds, the queries and the gossip
      ([run_consensus.rs], [finality_vote_query_task.rs], [peer_address.rs]), the start
      of the application ([app_api.rs], [node-app/src/lib.rs]) and the socket of
      the web interface ([node-ui-axum/src/lib.rs]).
    - [Stream]: the stream of status events
      ([node-ui-axum/src/routes/consensus_status.rs]) and the lock in its channel.

    Definitions have the names of the source, with a prefix where two parts of the
    source use one name ([app_process_citem], [meta_process_citem]).

    ** How the code is rendered

    - Integers and fixed-size arrays of bytes (rounds, hashes, keys, signatures)
      are numbers of [N] with the width written out where it matters: [ArrayType]
      shows that the order and the operations of the arrays are those of the
      numbers.  Tables are finite maps; iteration over a table is in the order of
      its keys.
    - A function that fails returns an [outcome]; [expect], [assert!], an index out
      of bounds and [panic!] are [Panic].  A [debug_assert!] is not run: the model
      is the release build.
    - A write transaction is a function of the tables and the hooks added so far;
      an error or a panic drops both.  Transactions run one at a time, with their
      hooks, which the lock of [Db] ensures; [Wake] has the states in between, which
      only readers see.  The storage works, except in [Storage].  A database error ends the process in
      [write_with_expect] and its variants, and so it does here ([Panic]).
    - A module's table handles close when they go out of scope; opening a table
      that is open is an error ([Module.mtx_with_table]).
    - Trait objects of modules are records of their methods ([NodeApp.DynModule]).
    - Concurrency: a function that waits returns what it waits for, or is a
      machine whose stages keep what it read so far; between two steps the
      consensus takes any of its own steps.  Messages, random numbers, the clock
      and the answers of other nodes are arguments.
    - In [Network] a message is anything, with one limit: a signature in it that
      is valid under the key of a correct node, over a block that is not a dummy,
      is one which that node made and stored.
    - [Crypto], [Bincode] and the [Codec]s stand for blake3, ed25519 and bincode;
      [CItemsCodec] for the encoding of a block's items, [Bao] for the verified
      stream of bytes, [SecretLibs] for HKDF and BIP 39, [HexLib] for hex digits,
      [DataEncoding] for the base encodings, [InviteCbor] for CBOR, [UiTexts] for
      the texts that the web forms read ([form_texts] is what the source has there),
      [DateTimes] for dates, [RwLock] for the locks of tokio ([RwLockLaws] and
      [WatchLockLaws] are what the documentation says of each).
      What the proofs need of them is in [CryptoLaws], [CodecLaws] and named
      hypotheses; nothing is assumed to be free of collisions: a theorem that
      needs it says that otherwise a collision of blake3 is known.  The modules
      [Toy], [ToyCtrl], [ToyMeta] and [ToyApp] are concrete instances, on which
      the hypotheses are shown to hold together.

    ** What the theorems show

    - The network: correct nodes that run their tasks never notarize different
      blocks in a round, with no assumption on what they sign, since that is
      proved ([correct_node_votes_once]); what they serve stays within the limit
      on messages; the proposal of a leader is accepted by every peer in its
      position; every peer is asked for its vote until it votes dummy; which
      tasks a round has.
    - Replicas: nodes that process the same blocks agree on everything they share,
      whatever their keys, clocks and private events; nodes that share a block
      share the chain below it.
    - Proposals: a leader whose modules want something voted on comes to propose
      it, however the modules are replaced meanwhile, unless transactions, a dummy
      round or scheduled parameters make it propose without; and the items of
      modules that it proposes were not read before the application had processed
      the final blocks.
    - Safety of the consensus: when two nodes notarize different blocks in a round,
      more than [max_faulty] peers have validly signed both, and the signatures are
      in the tables of the two nodes; every notarized block has the stored
      signatures of a quorum and its payload; proposals are never replaced; rounds
      never go back; notarized blocks form a chain as long as no block of a past
      round is taken in while the current one has a proposal, and there is one way
      only to break it ([chain_breaks_one_way], [late_block_breaks_chain]).
    - Progress and totality: which votes end a round, and that handling a message
      neither panics nor loops, under stated conditions; errors change nothing.
    - Service to other peers: an answer made from the tables is accepted by the
      checks of its receiver; the finality consensus has a quorum; the timeout of a
      round is bounded.
    - Data: headers, signatures and signing hashes; peer sets and vote sets
      implement finite sets; quorums intersect in a correct peer; arrays are
      numbers.
    - Control module: its handlers implement [ctrl_step]; peers and module
      configurations change only by the votes they need; processing is
      deterministic and total; a peer's own pending votes are proposed until they
      are processed.
    - Meta module: a value needs a quorum; approvals and the recheck crash.
    - Delivery: the application gets the final blocks in order and misses none,
      and the one case in which the delivery panics.  The applications of two nodes
      get the same blocks, leaders and items, as long as what was delivered is still
      held; and [final_blocks_diverge] runs a network of correct nodes, with late
      messages only, in which it is not, and the applications part for ever.
    - Interface of the database: what a transaction reads of its own writes, and
      what each getter answers in every reachable state, the parameters in force
      among it.
    - Storage: hooks run when a commit succeeds and only then, whatever the storage
      answers; a call that ends the process on errors returns only what is stored.
    - Queries and gossip: attempts that fail change nothing; a push tells only what
      is stored.
    - Requests: what the server answers to every request (which block, and that the
      signatures of a notarized block are a quorum), when it waits, fails or panics, and that it changes
      only addresses; a finality vote that is served is
      accepted.
    - Wake-ups: in every interleaving of commits, hooks and reads, a task whose answer
      has come ends; the two cases in which a handler sleeps on are exhibited
      ([late_block_not_announced], [end_of_round_missed]).
    - Addresses: the tables stay well-formed; nodes that got the same updates, in
      any order and number, hold the same addresses.
    - Joining: a node that joins with an invite gets the consensus of the inviter,
      and depends on nothing but the invite, whatever the inviter answers; the
      password and the secret.
    - Starting: [init] and then [run] reaches the tasks of a node with the consensus
      that was created; the printed secret is the node's; no command changes a
      consensus that exists.
    - Web interface: nobody changes anything without the password; which logins
      the first password lets in; what the pages offer is accepted; which values
      can be approved; every link and form of a page leads to its handler, with the
      fields that this handler needs.
    - The lock of the modules: one page can stop a node for good, and without it
      nothing can.
    - The status page: it settles on the current values, whatever is sent meanwhile,
      with two events for each message at most; and the lock of the channel that it
      borrows twice can stop a node for good.
    - Application layer: items are atomic; the copies in memory agree with the
      tables; a restart processes items again and can make nodes diverge.

    ** Fuel

    Two loops of the source have no structural measure.  The loop of
    [check_round_end] gets [check_round_end_fuel] steps, as many as there are
    rounds up to the highest notarized block, stored proposals and stored dummy
    votes, which bounds the rounds it can pass; [process_vote_total] and
    [process_notarized_total] show that the budget is never used up.  The search of
    a free module id gets one step more than there are modules, and
    [process_citem_total] shows that it finds one.

    The machines of [AppApi], [Rpc], [RpcServer] and [Proposals] and the rounds of
    [Node] have no fuel: they are steps, and the theorems speak of any run of them.
    Joining and gossip recur on lists of peers.

    ** Not modelled

    Left out because it is I/O or third-party code: the endpoint of a node, timers
    and back-off (a delay is any time), the printing and escaping of HTML, the
    parsing of the command line, logging, redb itself, and the encoders behind the
    texts (base32, CBOR, bincode).  What they answer is an argument or a parameter.
    Left out because there is nothing to compute: re-exports, the traits whose
    methods are modelled one by one ([IModule], [INodeAppApi], [INodeUiApi]), random
    values of array types, and functions that hand out a field.  The tests of the
    repository are not program.  A module set-up that fails ends the node; the tables
    it leaves are not tracked.  [Wake] and [Stream] have the wake-ups of the handlers,
    of the vote for the proposal and of the status page; those of the delivery and of
    the leader are in machines that look again at any time ([AppApi],
    [Proposals]). *)
From stdpp Require Export base tactics option numbers strings gmap sets sorting list.

(** ** Outcomes of Rust code

    A Rust function returns, returns an error of its own error type, or
    panics ([expect], [assert!], [panic!], an index out of bounds, an exhausted
    loop budget of this model).  The message of a panic is kept. *)
Inductive outcome (E A : Type) : Type :=
  | Ok (a : A)
  | Err (e : E)
  | Panic (why : string).
Global Arguments Ok {E A} a.
Global Arguments Err {E A} e.
Global Arguments Panic {E A} why.

Global Instance outcome_ret {E} : MRet (outcome E) := λ A a, Ok a.
Global Instance outcome_bind {E} : MBind (outcome E) := λ A B f o,
  match o with
  | Ok a => f a
  | Err e => Err e
  | Panic w => Panic w
  end.

Lemma bind_Ok {E A B} (m : outcome E A) (f : A → outcome E B) b :
  m ≫= f = Ok b ↔ ∃ a, m = Ok a ∧ f a = Ok b.
Proof. destruct m as [a|e|w]; simpl; naive_solver. Qed.

(** [map_err]: the error conversions ([context], [tx_into], [map]). *)
Definition map_err {E E' A} (f : E → E') (o : outcome E A) : outcome E' A :=
  match o with
  | Ok a => Ok a
  | Err e => Err (f e)
  | Panic w => Panic w
  end.

(** [Option::expect]. *)
Definition expect {E A} (msg : string) (o : option A) : outcome E A :=
  match o with
  | Some a => Ok a
  | None => Panic msg
  end.

(** [slice\[i\]] with the bounds check of Rust. *)
Definition index {E A} (l : list A) (i : nat) : outcome E A :=
  expect "index out of bounds" (l !! i).

(** [assert!]. *)
Definition rassert {E} (msg : string) (b : bool) : outcome E () :=
  if b then Ok () else Panic msg.

(** [if b { Err(e) }] *)
Definition fail_if {E} (b : bool) (e : E) : outcome E () :=
  if b then Err e else Ok ().

(** ** Machine integers

    Unsigned machine integers are [N]; the bound of each width is written out
    where an operation checks it or wraps around it. *)
Definition u8_max : N := 255.
Definition u16_max : N := 65535.
Definition u32_max : N := 4294967295.
Definition u64_max : N := 18446744073709551615.

(** [checked_add] and [checked_sub] of an unsigned type with maximum [mx]. *)
Definition checked_add (mx a b : N) : option N :=
  if decide (a + b ≤ mx)%N then Some (a + b)%N else None.
Definition checked_sub (a b : N) : option N :=
  if decide (b ≤ a)%N then Some (a - b)%N else None.
(** [wrapping_add]. *)
Definition wrapping_add (mx a b : N) : N := ((a + b) mod (mx + 1))%N.

Lemma checked_add_Some mx a b c :
  checked_add mx a b = Some c ↔ c = (a + b)%N ∧ (a + b ≤ mx)%N.
Proof. unfold checked_add. case_decide; split; [by intros [= <-]|by intros [-> _]|done|by intros [_ ?]]. Qed.

Lemma checked_sub_Some a b c :
  checked_sub a b = Some c ↔ c = (a - b)%N ∧ (b ≤ a)%N.
Proof. unfold checked_sub. case_decide; split; [by intros [= <-]|by intros [-> _]|done|by intros [_ ?]]. Qed.

(** ** Ordered tables

    A redb table is an ordered map.  The content is a [gmap]; the order of the
    keys (the derived [Ord] of the key type) shows in range queries, which
    list the entries in key order. *)
Class KeyOrd (K : Type) := {
  key_le : relation K;
  key_le_dec :: RelDecision key_le;
}.
Class KeyOrdLaws (K : Type) `{KeyOrd K} := {
  key_le_po :: PreOrder (@key_le K _);
  key_le_anti :: AntiSymm (=) (@key_le K _);
  key_le_total :: Total (@key_le K _);
}.
Global Hint Mode KeyOrd ! : typeclass_instances.

Global Instance N_key_ord : KeyOrd N := {| key_le := N.le |}.
Global Instance N_key_ord_laws : KeyOrdLaws N.
Proof. split; simpl; apply _. Qed.

(** Tuples are ordered lexicographically. *)
Definition pair_le (x y : N * N) : Prop :=
  (x.1 < y.1)%N ∨ (x.1 = y.1 ∧ (x.2 ≤ y.2)%N).
Global Instance pair_le_dec : RelDecision pair_le := λ x y,
  or_dec (N.lt_dec _ _) (and_dec (N.eq_dec _ _) (N.le_dec _ _)).
Global Instance pair_key_ord : KeyOrd (N * N) := {| key_le := pair_le |}.
Global Instance pair_key_ord_laws : KeyOrdLaws (N * N).
Proof.
  split; simpl; unfold pair_le.
  - split; [intros [a b]; simpl; lia|].
    intros [a b] [c d] [e f]; simpl; lia.
  - intros [a b] [c d]; simpl; intros. f_equal; lia.
  - intros [a b] [c d]; simpl. lia.
Qed.

(** The bounds of a range query: [lo..], [..hi], [..=hi], [lo..hi], [lo..=hi]. *)
Definition rg_from {K} `{KeyOrd K} (lo k : K) : bool := bool_decide (key_le lo k).
Definition rg_to {K} `{KeyOrd K} (hi k : K) : bool := negb (bool_decide (key_le hi k)).
Definition rg_to_incl {K} `{KeyOrd K} (hi k : K) : bool := bool_decide (key_le k hi).
Definition rg_excl {K} `{KeyOrd K} (lo hi k : K) : bool := rg_from lo k && rg_to hi k.
Definition rg_incl {K} `{KeyOrd K} (lo hi k : K) : bool := rg_from lo k && rg_to_incl hi k.

Lemma rg_from_N (lo k : N) : rg_from lo k = true ↔ (lo ≤ k)%N.
Proof. unfold rg_from. by rewrite bool_decide_eq_true. Qed.
Lemma rg_to_N (hi k : N) : rg_to hi k = true ↔ (k < hi)%N.
Proof. unfold rg_to. rewrite negb_true_iff, bool_decide_eq_false. simpl. lia. Qed.
Lemma rg_to_incl_N (hi k : N) : rg_to_incl hi k = true ↔ (k ≤ hi)%N.
Proof. unfold rg_to_incl. by rewrite bool_decide_eq_true. Qed.
Lemma rg_excl_pair (lo hi k : N * N) :
  rg_excl lo hi k = true ↔ pair_le lo k ∧ ¬ pair_le hi k.
Proof.
  unfold rg_excl, rg_from, rg_to.
  by rewrite andb_true_iff, negb_true_iff, bool_decide_eq_true, bool_decide_eq_false.
Qed.
Lemma rg_incl_pair (lo hi k : N * N) :
  rg_incl lo hi k = true ↔ pair_le lo k ∧ pair_le k hi.
Proof.
  unfold rg_incl, rg_from, rg_to_incl. by rewrite andb_true_iff, !bool_decide_eq_true.
Qed.

(** The entries of a table in key order, and [range] over the keys that
    satisfy a decidable bound. *)
Section Tables.
Context {K : Type} `{Countable K} `{HL : KeyOrdLaws K} {V : Type}.
Implicit Types (m : gmap K V) (P : K → bool) (k : K) (v : V).

Definition entry_le (x y : K * V) : Prop := key_le x.1 y.1.
Local Instance entry_le_dec : RelDecision entry_le.
Proof using HL. intros x y. unfold entry_le. apply _. Defined.

Definition entries m : list (K * V) := merge_sort entry_le (map_to_list m).
Definition range P m : list (K * V) := filter (λ kv, P kv.1 = true) (entries m).
(** [tbl.range(..).next()] and [tbl.range(..).next_back()] *)
Definition range_first P m : option (K * V) := head (range P m).
Definition range_last P m : option (K * V) := last (range P m).
(** [tbl.retain_in(range, f)]: inside the range only what [f] accepts stays. *)
Definition retain_in P (f : K → V → bool) m : gmap K V :=
  filter (λ kv, P kv.1 = true → f kv.1 kv.2 = true) m.

Local Instance entry_le_trans : Transitive entry_le.
Proof using HL. intros x y z. unfold entry_le. apply transitivity. Qed.
Local Instance entry_le_total : Total entry_le.
Proof using HL. intros x y. unfold entry_le. apply key_le_total. Qed.

Lemma entries_perm m : entries m ≡ₚ map_to_list m.
Proof. apply merge_sort_Permutation. Qed.

Lemma elem_of_range P m k v :
  (k, v) ∈ range P m ↔ m !! k = Some v ∧ P k = true.
Proof.
  unfold range. rewrite list_elem_of_filter, entries_perm, elem_of_map_to_list.
  simpl. tauto.
Qed.

Lemma range_sorted P m : StronglySorted entry_le (range P m).
Proof using HL.
  assert (StronglySorted entry_le (entries m)) as Hs
    by (apply StronglySorted_merge_sort; apply _).
  unfold range. induction Hs as [|x l Hs IH Hx]; simpl; [constructor|].
  rewrite filter_cons. case_decide; [|done].
  constructor; [done|]. apply Forall_forall. intros y [_ Hy]%list_elem_of_filter.
  by eapply Forall_forall in Hx.
Qed.

Lemma entries_keys_sorted m : StronglySorted key_le (entries m).*1.
Proof using HL.
  assert (StronglySorted entry_le (entries m)) as Hs
    by (apply StronglySorted_merge_sort; apply _).
  induction Hs as [|x l Hs IH Hx]; [constructor|]. constructor; [done|].
  apply Forall_fmap. exact Hx.
Qed.

Lemma range_NoDup P m : NoDup (range P m).*1.
Proof.
  unfold range. apply (sublist_NoDup _ (entries m).*1).
  - rewrite entries_perm. apply NoDup_fst_map_to_list.
  - apply fmap_sublist, sublist_filter.
Qed.

Lemma range_first_Some P m k v :
  range_first P m = Some (k, v) ↔
  m !! k = Some v ∧ P k = true ∧
  ∀ k' v', m !! k' = Some v' → P k' = true → key_le k k'.
Proof using HL.
  unfold range_first. split.
  - intros [l Hl]%head_Some. pose proof (range_sorted P m) as Hs. rewrite Hl in Hs.
    assert ((k, v) ∈ range P m) as [Hk HP]%elem_of_range by (rewrite Hl; left).
    split_and!; [done..|]. intros k' v' Hk' HP'.
    assert ((k', v') ∈ range P m) as Hin by by apply elem_of_range.
    rewrite Hl in Hin. apply elem_of_cons in Hin as [?|Hin]; [by simplify_eq|].
    apply StronglySorted_cons in Hs as [Hs _].
    eapply Forall_forall in Hs; [|done]. done.
  - intros (Hk & HP & Hmin).
    assert ((k, v) ∈ range P m) as Hin by by apply elem_of_range.
    destruct (range P m) as [|[k1 v1] l] eqn:Hl; [by apply not_elem_of_nil in Hin|].
    assert ((k1, v1) ∈ range P m) as [Hk1 HP1]%elem_of_range by (rewrite Hl; left).
    assert (k = k1) as ->; [|by simplify_eq/=]. apply (anti_symm key_le); [eauto|].
    pose proof (range_sorted P m) as Hs. rewrite Hl in Hs.
    apply StronglySorted_cons in Hs as [Hs _].
    apply elem_of_cons in Hin as [?|Hin]; [by simplify_eq|].
    eapply Forall_forall in Hs; [|done]. done.
Qed.

Lemma range_last_Some P m k v :
  range_last P m = Some (k, v) ↔
  m !! k = Some v ∧ P k = true ∧
  ∀ k' v', m !! k' = Some v' → P k' = true → key_le k' k.
Proof using HL.
  unfold range_last. split.
  - intros [l Hl]%last_Some. pose proof (range_sorted P m) as Hs. rewrite Hl in Hs.
    assert ((k, v) ∈ range P m) as [Hk HP]%elem_of_range
      by (rewrite Hl; apply elem_of_app; right; left).
    split_and!; [done..|]. intros k' v' Hk' HP'.
    assert ((k', v') ∈ range P m) as Hin by by apply elem_of_range.
    rewrite Hl, elem_of_app, list_elem_of_singleton in Hin.
    destruct Hin as [Hin|?]; [|by simplify_eq].
    by apply (StronglySorted_app_1_elem_of entry_le _ _ _ (k, v) Hs Hin),
      list_elem_of_singleton.
  - intros (Hk & HP & Hmax).
    assert ((k, v) ∈ range P m) as Hin by by apply elem_of_range.
    destruct (last (range P m)) as [[k1 v1]|] eqn:Hlast;
      [|by apply last_None in Hlast; rewrite Hlast in Hin; apply not_elem_of_nil in Hin].
    apply last_Some in Hlast as [l Hl].
    assert ((k1, v1) ∈ range P m) as [Hk1 HP1]%elem_of_range
      by (rewrite Hl; apply elem_of_app; right; left).
    assert (k = k1) as ->; [|by simplify_eq/=]. apply (anti_symm key_le); [|by eauto].
    pose proof (range_sorted P m) as Hs. rewrite Hl in Hs, Hin.
    rewrite elem_of_app, list_elem_of_singleton in Hin.
    destruct Hin as [Hin|?]; [|by simplify_eq].
    by apply (StronglySorted_app_1_elem_of entry_le _ _ _ (k1, v1) Hs Hin),
      list_elem_of_singleton.
Qed.

Lemma range_nil P m : range P m = [] ↔ ∀ k v, m !! k = Some v → P k = false.
Proof.
  split.
  - intros Hl k v Hk. destruct (P k) eqn:HP; [|done].
    assert ((k, v) ∈ range P m) as Hin by by apply elem_of_range.
    rewrite Hl in Hin. by apply not_elem_of_nil in Hin.
  - intros H1. destruct (range P m) as [|[k v] l] eqn:Hl; [done|].
    assert ((k, v) ∈ range P m) as [Hk HP]%elem_of_range by (rewrite Hl; left).
    by rewrite (H1 k v) in HP.
Qed.

Lemma range_first_None P m :
  range_first P m = None ↔ ∀ k v, m !! k = Some v → P k = false.
Proof. unfold range_first. rewrite head_None. apply range_nil. Qed.

Lemma range_last_None P m :
  range_last P m = None ↔ ∀ k v, m !! k = Some v → P k = false.
Proof. unfold range_last. rewrite last_None. apply range_nil. Qed.

Lemma retain_in_lookup P f m k v :
  retain_in P f m !! k = Some v ↔
  m !! k = Some v ∧ (P k = true → f k v = true).
Proof. unfold retain_in. by rewrite map_lookup_filter_Some. Qed.

(** Two tables that agree on the keys of a range have the same range. *)
Lemma range_ext P m1 m2 :
  (∀ k, P k = true → m1 !! k = m2 !! k) → range P m1 = range P m2.
Proof using HL.
  intros Hext. apply (StronglySorted_unique_strong entry_le).
  - intros [k1 v1] [k2 v2] H1 H2 Hle1 Hle2.
    assert (k1 = k2) as -> by by apply (anti_symm key_le).
    apply elem_of_range in H1 as [H1 HP], H2 as [H2 _].
    rewrite Hext in H1 by done. by simplify_eq.
  - apply range_sorted.
  - apply range_sorted.
  - apply NoDup_Permutation;
      [eapply NoDup_fmap_1, range_NoDup..|].
    intros [k v]. rewrite !elem_of_range.
    split; intros [? ?]; split; try done; [rewrite <-Hext|rewrite Hext]; done.
Qed.

(** A list of distinct keys of the range is no longer than the range. *)
Lemma range_length_ge P m (l : list K) :
  NoDup l → (∀ k, k ∈ l → P k = true ∧ is_Some (m !! k)) →
  length l ≤ length (range P m).
Proof.
  intros Hl Hin. rewrite <-(length_fmap fst (range P m)).
  apply submseteq_length, NoDup_submseteq; [done|].
  intros k [HP [v Hv]]%Hin. apply list_elem_of_fmap. exists (k, v).
  by rewrite elem_of_range.
Qed.
End Tables.
Global Arguments entries : simpl never.
Global Arguments range : simpl never.

(** ** Counting *)
Fixpoint count_if {A} (f : A → bool) (l : list A) : nat :=
  match l with
  | [] => 0
  | x :: l' => (if f x then S (count_if f l') else count_if f l')
  end.

Lemma count_if_filter {A} (f : A → bool) l : count_if f l = length (filter (λ x, f x = true) l).
Proof.
  induction l as [|x l IH]; [done|]. simpl. rewrite filter_cons.
  destruct (f x); simpl; by rewrite IH.
Qed.

Lemma count_if_app {A} (f : A → bool) l k : count_if f (l ++ k) = count_if f l + count_if f k.
Proof. induction l as [|x l IH]; [done|]. simpl. destruct (f x); rewrite IH; lia. Qed.

Lemma count_if_fmap {A B} (f : B → bool) (g : A → B) l :
  count_if f (g <$> l) = count_if (λ x, f (g x)) l.
Proof. induction l as [|x l IH]; [done|]. rewrite fmap_cons. cbn [count_if]. by rewrite IH. Qed.

Lemma count_if_ext {A} (f g : A → bool) l :
  (∀ x, x ∈ l → f x = g x) → count_if f l = count_if g l.
Proof.
  induction l as [|x l IH]; intros Hfg; [done|]. simpl.
  rewrite Hfg, IH; [done|intros; apply Hfg; by right|by left].
Qed.

Lemma count_if_le_length {A} (f : A → bool) l : count_if f l ≤ length l.
Proof. induction l as [|x l IH]; simpl; [done|]. destruct (f x); lia. Qed.
