(* ===== verification/ArrayType.v ===== *)
(** * Fixed-size big-endian numbers ([util-array-type/src/lib.rs])

    [array_type_fixed_size_define!] makes a newtype over [\[u8; n\]] that holds
    an unsigned number in big-endian order, so that the derived (lexicographic)
    [Ord] of the array is the order of the numbers; [BlockRound], [BlockSeq],
    [Timestamp], [PayloadLen], ... are such types.  This file models the array
    and its operations and shows that they are the operations of the bounded
    number it holds; the rest of the library uses the number. *)
From S2P Require Import Prelude.
Open Scope N_scope.

(** [<$t>::to_be_bytes]: [w] bytes, most significant first. *)
Fixpoint to_be_bytes (w : nat) (t : N) : list N :=
  match w with
  | O => []
  | S w' => (t / 256 ^ N.of_nat w') mod 256 :: to_be_bytes w' t
  end.

(** [<$t>::from_be_bytes]. *)
Definition from_be_bytes (bs : list N) : N :=
  fold_left (λ acc b, acc * 256 + b) bs 0.

(** [<$t>::MAX] of an unsigned type of [w] bytes. *)
Definition num_max (w : nat) : N := 256 ^ N.of_nat w - 1.

(** The derived [Ord] of a byte array. *)
Fixpoint lex_compare (xs ys : list N) : comparison :=
  match xs, ys with
  | [], [] => Eq
  | [], _ => Lt
  | _, [] => Gt
  | x :: xs', y :: ys' =>
      match x ?= y with Eq => lex_compare xs' ys' | c => c end
  end.

(** What the Rust type [\[u8; w\]] guarantees. *)
Definition array_wf (w : nat) (a : list N) : Prop :=
  length a = w ∧ Forall (λ b, b < 256) a.

Definition ZERO (w : nat) : list N := replicate w 0.
Definition MAX (w : nat) : list N := replicate w 255.
Definition from_number (w : nat) (t : N) : list N := to_be_bytes w t.
Definition to_number (a : list N) : N := from_be_bytes a.

Definition next (w : nat) (a : list N) : option (list N) :=
  from_number w <$> checked_add (num_max w) (to_number a) 1.
Definition next_expect (w : nat) (a : list N) : outcome Empty_set (list N) :=
  t ← expect "Can't run out of u64 rounds" (checked_add (num_max w) (to_number a) 1);
  Ok (from_number w t).
Definition next_wrapping (w : nat) (a : list N) : list N :=
  from_number w (wrapping_add (num_max w) (to_number a) 1).
Definition prev (w : nat) (a : list N) : option (list N) :=
  from_number w <$> checked_sub (to_number a) 1.
Definition add_checked (w : nat) (a : list N) (rhs : N) : option (list N) :=
  from_number w <$> checked_add (num_max w) (to_number a) rhs.

(** ** Numbers and their arrays *)

Lemma pow256_pos w : 0 < 256 ^ N.of_nat w.
Proof. apply N.neq_0_lt_0, N.pow_nonzero. lia. Qed.

Lemma pow256_S w : 256 ^ N.of_nat (S w) = 256 * 256 ^ N.of_nat w.
Proof. by rewrite Nat2N.inj_succ, N.pow_succ_r'. Qed.

Lemma from_be_bytes_acc bs acc :
  fold_left (λ acc b, acc * 256 + b) bs acc
  = acc * 256 ^ N.of_nat (length bs) + from_be_bytes bs.
Proof.
  revert acc. induction bs as [|b bs IH]; intros acc; [simpl; unfold from_be_bytes; simpl; lia|].
  unfold from_be_bytes. simpl length. rewrite pow256_S. simpl. rewrite !IH. nia.
Qed.

Lemma from_be_bytes_cons b bs :
  from_be_bytes (b :: bs) = b * 256 ^ N.of_nat (length bs) + from_be_bytes bs.
Proof. unfold from_be_bytes at 1. simpl. apply from_be_bytes_acc. Qed.

Lemma to_be_bytes_length w t : length (to_be_bytes w t) = w.
Proof. induction w; simpl; congruence. Qed.

Lemma to_be_bytes_wf w t : array_wf w (to_be_bytes w t).
Proof.
  split; [apply to_be_bytes_length|].
  induction w; simpl; constructor; [apply N.mod_lt; lia|done].
Qed.

Lemma from_to_mod w t : from_be_bytes (to_be_bytes w t) = t mod 256 ^ N.of_nat w.
Proof.
  induction w as [|w IH]; [by rewrite N.mod_1_r|].
  cbn [to_be_bytes].
  rewrite from_be_bytes_cons, to_be_bytes_length, IH, pow256_S.
  pose proof (pow256_pos w).
  rewrite (N.mul_comm 256), N.Div0.mod_mul_r. lia.
Qed.

Lemma from_be_bytes_lt a : Forall (λ b, b < 256) a → from_be_bytes a < 256 ^ N.of_nat (length a).
Proof.
  induction 1 as [|b a Hb Ha IH]; [done|].
  rewrite from_be_bytes_cons. cbn [length]. rewrite pow256_S. nia.
Qed.

Lemma to_be_bytes_high w k t :
  to_be_bytes w (k * 256 ^ N.of_nat w + t) = to_be_bytes w t.
Proof.
  revert k. induction w as [|w IH]; intros k; [done|]. cbn [to_be_bytes].
  rewrite pow256_S. pose proof (pow256_pos w).
  replace (k * (256 * 256 ^ N.of_nat w) + t) with ((k * 256) * 256 ^ N.of_nat w + t) by lia.
  f_equal; [|apply IH].
  rewrite N.div_add_l by lia. rewrite N.add_comm. by rewrite N.Div0.mod_add.
Qed.

Lemma to_from a : Forall (λ b, b < 256) a → to_be_bytes (length a) (from_be_bytes a) = a.
Proof.
  induction 1 as [|b a Hb Ha IH]; [done|].
  rewrite from_be_bytes_cons. cbn [length to_be_bytes].
  pose proof (from_be_bytes_lt a Ha). pose proof (pow256_pos (length a)).
  f_equal.
  - rewrite N.div_add_l, N.div_small, N.add_0_r by lia. by apply N.mod_small.
  - by rewrite to_be_bytes_high.
Qed.

Lemma to_number_lt w a : array_wf w a → to_number a < 256 ^ N.of_nat w.
Proof. intros [<- Ha]. by apply from_be_bytes_lt. Qed.

Lemma to_number_le w a : array_wf w a → to_number a ≤ num_max w.
Proof. intros H%to_number_lt. unfold num_max. lia. Qed.

Lemma to_from_number w t : t ≤ num_max w → to_number (from_number w t) = t.
Proof.
  intros Ht. unfold to_number, from_number. rewrite from_to_mod.
  apply N.mod_small. unfold num_max in Ht. pose proof (pow256_pos w). lia.
Qed.

Lemma from_to_number w a : array_wf w a → from_number w (to_number a) = a.
Proof. intros [<- Ha]. by apply to_from. Qed.

Lemma checked_to_number w a rhs :
  to_number <$> (from_number w <$> checked_add (num_max w) (to_number a) rhs)
  = checked_add (num_max w) (to_number a) rhs.
Proof.
  destruct (checked_add _ _ _) as [t|] eqn:Ht; [|done]. simpl.
  apply checked_add_Some in Ht as [-> Hle]. by rewrite to_from_number.
Qed.

(** The derived order of two arrays is the order of their numbers. *)
Lemma lex_compare_number w a b :
  array_wf w a → array_wf w b → lex_compare a b = (to_number a ?= to_number b).
Proof.
  intros [Hla Ha] [Hlb Hb]. subst w. unfold to_number.
  revert b Hb Hlb.
  induction Ha as [|x a Hx Ha IH]; intros [|y b] Hb Hlb; try done.
  apply Forall_cons in Hb as [Hy Hb]. cbn [length] in Hlb.
  cbn [lex_compare]. rewrite !from_be_bytes_cons.
  pose proof (from_be_bytes_lt a Ha) as Hla. pose proof (from_be_bytes_lt b Hb) as Hlb'.
  injection Hlb as Hlen. rewrite Hlen in *. symmetry.
  destruct (N.compare_spec x y) as [->|Hxy|Hxy].
  - rewrite (IH b) by done. by destruct (N.compare_spec (from_be_bytes a) (from_be_bytes b)) as [->|?|?];
      [apply N.compare_refl|apply N.compare_lt_iff|apply N.compare_gt_iff]; lia.
  - apply N.compare_lt_iff. nia.
  - apply N.compare_gt_iff. nia.
Qed.

(** [from_number] and [to_number] are inverse, and the derived order of
    two arrays is the order of the numbers they hold: range queries over keys
    stored as big-endian arrays list them in numeric order. *)
Theorem array_number_iso w a b :
  array_wf w a → array_wf w b →
  from_number w (to_number a) = a ∧
  lex_compare a b = (to_number a ?= to_number b) ∧
  (to_number a = to_number b → a = b).
Proof.
  intros Ha Hb. split_and!; [by apply from_to_number|by apply (lex_compare_number w)|].
  intros Heq. rewrite <-(from_to_number w a Ha), Heq. by apply from_to_number.
Qed.

Lemma array_number_iso_witness :
  lex_compare [1; 255] [2; 0] = Lt ∧ to_number [1; 255] = 511 ∧
  (from_number 2 (to_number [1; 255]) = [1; 255] ∧
   lex_compare [1; 255] [2; 0] = (to_number [1; 255] ?= to_number [2; 0]) ∧
   (to_number [1; 255] = to_number [2; 0] → [1; 255] = [2; 0])).
Proof.
  split; [reflexivity|]. split; [reflexivity|].
  apply (array_number_iso 2); (split; [reflexivity|]); repeat constructor.
Defined.

(** The operations on the array compute those of the number it holds. *)

(** [next], [prev] and [checked_add] give [None] exactly when the number of
    the width overflows or underflows, [next_wrapping] wraps to zero there,
    [next_expect] panics there; each result is again an array of the width. *)
Theorem array_ops_number w a rhs :
  array_wf w a →
  to_number <$> next w a = checked_add (num_max w) (to_number a) 1 ∧
  to_number <$> prev w a = checked_sub (to_number a) 1 ∧
  to_number <$> add_checked w a rhs = checked_add (num_max w) (to_number a) rhs ∧
  to_number (next_wrapping w a)
    = (if decide (to_number a = num_max w) then 0 else to_number a + 1) ∧
  next_expect w a
    = match next w a with Some b => Ok b | None => Panic "Can't run out of u64 rounds" end ∧
  (∀ b, next w a = Some b → array_wf w b ∧ lex_compare a b = Lt).
Proof.
  intros Ha. pose proof (to_number_le w a Ha) as Hle. pose proof (pow256_pos w) as Hpos.
  split_and!.
  - apply checked_to_number.
  - unfold prev. destruct (checked_sub _ _) as [t|] eqn:Ht; [|done]. simpl.
    apply checked_sub_Some in Ht as [-> Hge]. rewrite to_from_number; [done|lia].
  - apply checked_to_number.
  - unfold next_wrapping, wrapping_add. assert (num_max w + 1 ≠ 0) as Hnz by lia.
    rewrite to_from_number.
    + case_decide as Heq; [rewrite Heq; by apply N.Div0.mod_same|].
      apply N.mod_small. lia.
    + pose proof (N.mod_lt (to_number a + 1) (num_max w + 1) Hnz). lia.
  - unfold next_expect, next. by destruct (checked_add _ _ _).
  - intros b Hb. unfold next in Hb.
    destruct (checked_add _ _ _) as [t|] eqn:Ht; simplify_eq/=.
    apply checked_add_Some in Ht as [-> Hlt].
    pose proof (to_be_bytes_wf w (to_number a + 1)) as Hwf. split; [done|].
    rewrite (lex_compare_number w), to_from_number by done. apply N.compare_lt_iff. lia.
Qed.

Lemma array_ops_number_witness :
  next 2 [0; 255] = Some [1; 0] ∧ next_wrapping 2 [255; 255] = [0; 0] ∧
  prev 2 [0; 0] = None ∧
  to_number <$> next 2 [0; 255] = checked_add (num_max 2) (to_number [0; 255]) 1.
Proof.
  split; [reflexivity|]. split; [reflexivity|]. split; [reflexivity|].
  apply (array_ops_number 2 [0; 255] 7). split; [reflexivity|]. repeat constructor.
Defined.
