(* ===== verification/VoteSet.v ===== *)
(** * Sets of peer indices as 32-byte bitmaps ([consensus/src/vote_set.rs])

    The bits of a [VoteSet] are kept big-endian: peer [i] is bit [i mod 8] of
    byte [31 - i / 8].  [elements] is the abstract value, the set of the peer
    indices whose bit is set, and every operation is shown to be the set
    operation it stands for. *)
From S2P Require Import Prelude.
Open Scope N_scope.

Module VoteSet.

Abbreviation VoteSet := (list N).

Definition default : VoteSet := replicate 32 0.

(** What [\[u8; 32\]] guarantees. *)
Definition wf (s : VoteSet) : Prop := length s = 32%nat ∧ Forall (λ b, b < 256) s.

(** [31 - (bit >> 3)] *)
Definition byte_index (peer_idx : N) : nat := N.to_nat (31 - N.shiftr peer_idx 3).
Definition byte (s : VoteSet) (peer_idx : N) : N := s !!! byte_index peer_idx.
(** [*self.byte_mut(peer_idx) = v] *)
Definition byte_mut (s : VoteSet) (peer_idx v : N) : VoteSet :=
  <[byte_index peer_idx := v]> s.
Definition bit (peer_idx : N) : N := N.shiftl 1 (N.land peer_idx 7).
(** [!b] of a byte. *)
Definition lnot8 (b : N) : N := N.lxor b 255.

Definition bitor (s rhs : VoteSet) : VoteSet := zip_with N.lor s rhs.
Definition insert (s : VoteSet) (peer_idx : N) : VoteSet :=
  byte_mut s peer_idx (N.lor (byte s peer_idx) (bit peer_idx)).
Definition remove (s : VoteSet) (peer_idx : N) : VoteSet :=
  byte_mut s peer_idx (N.land (byte s peer_idx) (lnot8 (bit peer_idx))).
Definition contains (s : VoteSet) (peer_idx : N) : bool :=
  negb (N.land (byte s peer_idx) (bit peer_idx) =? 0).

(** [u8::count_ones] *)
Fixpoint pos_count_ones (p : positive) : N :=
  match p with
  | xH => 1
  | xO p' => pos_count_ones p'
  | xI p' => 1 + pos_count_ones p'
  end.
Definition count_ones (b : N) : N :=
  match b with N0 => 0 | Npos p => pos_count_ones p end.
Definition len (s : VoteSet) : N := fold_left (λ acc b, acc + count_ones b) s 0.
Definition is_empty (s : VoteSet) : bool := len s =? 0.

(** ** The set a bitmap stands for *)

Definition peer_idxs (n : nat) : list N := N.of_nat <$> seq 0 n.
Definition elements_list (s : VoteSet) : list N :=
  filter (λ i, contains s i = true) (peer_idxs 256).
Definition elements (s : VoteSet) : gset N := list_to_set (elements_list s).

Lemma bit_pow i : bit i = 2 ^ (i mod 8).
Proof.
  unfold bit. rewrite N.shiftl_1_l. f_equal. change 7 with (N.ones 3).
  by rewrite N.land_ones.
Qed.

Lemma land_pow2 b k : N.land b (2 ^ k) = if N.testbit b k then 2 ^ k else 0.
Proof.
  apply N.bits_inj. intros j. rewrite N.land_spec, N.pow2_bits_eqb.
  destruct (N.eqb_spec k j) as [->|Hne].
  - destruct (N.testbit b j) eqn:Hb; [by rewrite N.pow2_bits_true|by rewrite N.bits_0].
  - rewrite andb_false_r. destruct (N.testbit b k); [|by rewrite N.bits_0].
    by rewrite N.pow2_bits_false.
Qed.

Lemma contains_testbit s i : contains s i = N.testbit (byte s i) (i mod 8).
Proof.
  unfold contains. rewrite bit_pow, land_pow2.
  destruct (N.testbit _ _); [|done].
  destruct (N.eqb_spec (2 ^ (i mod 8)) 0) as [H|]; [|done].
  by apply N.pow_nonzero in H.
Qed.

Lemma byte_index_div i : byte_index i = N.to_nat (31 - i / 8).
Proof. unfold byte_index. by rewrite N.shiftr_div_pow2. Qed.

Lemma byte_index_lt i : (byte_index i < 32)%nat.
Proof. unfold byte_index. generalize (N.shiftr i 3). lia. Qed.

Lemma byte_index_eq i j :
  i < 256 → j < 256 → byte_index i = byte_index j → i mod 8 = j mod 8 → i = j.
Proof.
  rewrite !byte_index_div. intros Hi Hj Heq Hmod.
  pose proof (N.div_mod i 8). pose proof (N.div_mod j 8).
  assert (i / 8 < 32) by (apply N.Div0.div_lt_upper_bound; lia).
  assert (j / 8 < 32) by (apply N.Div0.div_lt_upper_bound; lia). lia.
Qed.

Lemma byte_byte_mut s i j v :
  wf s → byte (byte_mut s i v) j = if decide (byte_index i = byte_index j) then v else byte s j.
Proof.
  intros [Hlen _]. unfold byte, byte_mut. pose proof (byte_index_lt i).
  case_decide as Heq; [rewrite <-Heq; apply list_lookup_total_insert_eq; lia|].
  by apply list_lookup_total_insert_ne.
Qed.

Lemma byte_lt s i : wf s → byte s i < 256.
Proof.
  intros [Hlen Hs]. unfold byte. pose proof (byte_index_lt i).
  destruct (lookup_lt_is_Some_2 s (byte_index i)) as [b Hb]; [lia|].
  rewrite (list_lookup_total_correct _ _ _ Hb). by eapply Forall_lookup_1 in Hs.
Qed.

Lemma small_land a b : a < 256 → N.land a b < 256.
Proof.
  intros Ha. rewrite <-(N.mod_small a (2 ^ 8)) by done.
  rewrite <-N.land_ones, <-N.land_assoc, (N.land_comm (N.ones 8)), N.land_assoc, N.land_ones.
  by apply N.mod_lt.
Qed.

Lemma small_lor a b : a < 256 → b < 256 → N.lor a b < 256.
Proof.
  intros Ha Hb.
  rewrite <-(N.mod_small a (2 ^ 8)), <-(N.mod_small b (2 ^ 8)) by done.
  rewrite <-!N.land_ones, <-N.land_lor_distr_l, N.land_ones. by apply N.mod_lt.
Qed.

Lemma bit_lt i : bit i < 256.
Proof.
  rewrite bit_pow. change 256 with (2 ^ 8). apply N.pow_lt_mono_r; [lia|].
  assert (i mod 8 < 8) by by apply N.mod_lt. done.
Qed.

Lemma insert_wf s i : wf s → wf (insert s i).
Proof.
  intros Hs. pose proof (small_lor _ _ (byte_lt s i Hs) (bit_lt i)). destruct Hs as [Hlen Hs].
  split; unfold insert, byte_mut; [by rewrite length_insert|]. by apply Forall_insert.
Qed.

Lemma remove_wf s i : wf s → wf (remove s i).
Proof.
  intros Hs. pose proof (small_land _ (lnot8 (bit i)) (byte_lt s i Hs)). destruct Hs as [Hlen Hs].
  split; unfold remove, byte_mut; [by rewrite length_insert|]. by apply Forall_insert.
Qed.

Lemma bitor_wf s t : wf s → wf t → wf (bitor s t).
Proof.
  intros [Hs1 Hs2] [Ht1 Ht2]. split; unfold bitor; [rewrite length_zip_with; lia|].
  clear Hs1 Ht1. revert t Ht2. induction Hs2 as [|x s Hx Hs IH]; intros [|y t] Ht; simpl; try constructor.
  - apply Forall_cons in Ht as [? _]. by apply small_lor.
  - apply Forall_cons in Ht as [_ ?]. by apply IH.
Qed.

Lemma contains_insert s i j :
  wf s → i < 256 → j < 256 → contains (insert s i) j = bool_decide (i = j) || contains s j.
Proof.
  intros Hs Hi Hj. rewrite !contains_testbit. unfold insert.
  rewrite byte_byte_mut, bit_pow by done.
  case_decide as Heq.
  - rewrite N.lor_spec, N.pow2_bits_eqb. unfold byte. rewrite Heq.
    destruct (N.eqb_spec (i mod 8) (j mod 8)) as [Hm|Hm].
    + rewrite bool_decide_eq_true_2 by (by apply byte_index_eq). by rewrite orb_true_r.
    + rewrite bool_decide_eq_false_2 by (by intros ->). by rewrite orb_false_r.
  - rewrite bool_decide_eq_false_2; [done|]. by intros ->.
Qed.

Lemma contains_remove s i j :
  wf s → i < 256 → j < 256 →
  contains (remove s i) j = negb (bool_decide (i = j)) && contains s j.
Proof.
  intros Hs Hi Hj. rewrite !contains_testbit. unfold remove.
  rewrite byte_byte_mut, bit_pow by done.
  case_decide as Heq.
  - unfold lnot8. rewrite N.land_spec, N.lxor_spec, N.pow2_bits_eqb. unfold byte. rewrite Heq.
    assert (N.testbit 255 (j mod 8) = true) as ->.
    { change 255 with (N.ones 8). apply N.ones_spec_low. by apply N.mod_lt. }
    destruct (N.eqb_spec (i mod 8) (j mod 8)) as [Hm|Hm].
    + rewrite bool_decide_eq_true_2 by (by apply byte_index_eq). by rewrite andb_false_r.
    + rewrite bool_decide_eq_false_2 by (by intros ->). by rewrite andb_true_r.
  - rewrite bool_decide_eq_false_2; [done|]. by intros ->.
Qed.

Lemma contains_bitor s t i : wf s → wf t → contains (bitor s t) i = contains s i || contains t i.
Proof.
  intros [Hs _] [Ht _]. rewrite !contains_testbit, <-N.lor_spec. f_equal.
  unfold byte, bitor. pose proof (byte_index_lt i).
  destruct (lookup_lt_is_Some_2 s (byte_index i)) as [x Hx]; [lia|].
  destruct (lookup_lt_is_Some_2 t (byte_index i)) as [y Hy]; [lia|].
  apply list_lookup_total_correct in Hx as Hx'. apply list_lookup_total_correct in Hy as Hy'.
  rewrite Hx', Hy'. apply list_lookup_total_correct. rewrite lookup_zip_with, Hx. simpl. by rewrite Hy.
Qed.

Lemma contains_default i : contains default i = false.
Proof.
  rewrite contains_testbit. unfold byte, default. pose proof (byte_index_lt i).
  rewrite lookup_total_replicate_2 by done. apply N.bits_0.
Qed.

Lemma elem_of_peer_idxs n i : i ∈ peer_idxs n ↔ i < N.of_nat n.
Proof.
  unfold peer_idxs. rewrite list_elem_of_fmap. setoid_rewrite elem_of_seq. split.
  - intros (k & -> & ?). lia.
  - intros. exists (N.to_nat i). lia.
Qed.

Lemma NoDup_peer_idxs n : NoDup (peer_idxs n).
Proof. unfold peer_idxs. apply NoDup_fmap_2; [intros ???; lia|]. apply NoDup_seq. Qed.

Lemma elem_of_elements s i : i ∈ elements s ↔ i < 256 ∧ contains s i = true.
Proof.
  unfold elements, elements_list. rewrite elem_of_list_to_set, list_elem_of_filter, elem_of_peer_idxs.
  simpl. change (N.of_nat 256) with 256. tauto.
Qed.

(** *** [len] counts the set bits *)

Lemma peer_idxs_add n k : peer_idxs (n + k) = peer_idxs n ++ ((λ i, N.of_nat n + i) <$> peer_idxs k).
Proof.
  unfold peer_idxs. rewrite seq_app, fmap_app, <-list_fmap_compose. f_equal.
  rewrite Nat.add_0_l. replace n with (0 + n)%nat at 1 by lia. rewrite Nat.add_comm, <-fmap_add_seq.
  rewrite <-list_fmap_compose. apply list_fmap_ext. intros; simpl. lia.
Qed.

(** Bit [i] of a big-endian byte string. *)
Definition string_bit (l : list N) (i : N) : bool :=
  N.testbit (l !!! (length l - 1 - N.to_nat (i / 8))%nat) (i mod 8).

Lemma count_ones_spec b :
  b < 256 → count_ones b = N.of_nat (count_if (N.testbit b) (peer_idxs 8)).
Proof.
  intros Hb.
  assert (Forall (λ b, count_ones b = N.of_nat (count_if (N.testbit b) (peer_idxs 8)))
            (peer_idxs 256)) as Hall.
  { apply (bool_decide_unpack _). vm_compute. done. }
  rewrite Forall_forall in Hall. by apply Hall, elem_of_peer_idxs.
Qed.

Lemma count_string_bits l :
  Forall (λ b, b < 256) l →
  foldr (λ b acc, count_ones b + acc) 0 l
  = N.of_nat (count_if (string_bit l) (peer_idxs (8 * length l))).
Proof.
  induction 1 as [|b l Hb Hl IH]; [done|]. cbn [foldr length].
  rewrite IH, count_ones_spec by done.
  replace (8 * S (length l))%nat with (8 * length l + 8)%nat by lia.
  rewrite peer_idxs_add, count_if_app, count_if_fmap, Nat2N.inj_add, N.add_comm.
  f_equal; f_equal.
  - apply count_if_ext. intros i Hi%elem_of_peer_idxs. unfold string_bit. cbn [length].
    assert (i / 8 < N.of_nat (length l)) by (apply N.Div0.div_lt_upper_bound; lia).
    replace (S (length l) - 1 - N.to_nat (i / 8))%nat
      with (S (length l - 1 - N.to_nat (i / 8)))%nat by lia. done.
  - apply count_if_ext. intros i Hi%elem_of_peer_idxs. unfold string_bit. cbn [length].
    replace (N.of_nat (8 * length l) + i) with (i + N.of_nat (length l) * 8) by lia.
    rewrite N.div_add, N.Div0.mod_add by done.
    rewrite N.div_small, N.mod_small by done.
    by replace (S (length l) - 1 - N.to_nat (0 + N.of_nat (length l)))%nat with 0%nat by lia.
Qed.

Lemma contains_string_bit s i : length s = 32%nat → contains s i = string_bit s i.
Proof.
  intros Hs. rewrite contains_testbit. unfold byte, string_bit. rewrite Hs, byte_index_div.
  do 2 f_equal. lia.
Qed.

Lemma len_foldr s : len s = foldr (λ b acc, count_ones b + acc) 0 s.
Proof.
  unfold len. assert (∀ a, fold_left (λ acc b, acc + count_ones b) s a
    = a + foldr (λ b acc, count_ones b + acc) 0 s) as H; [|by rewrite H].
  induction s as [|b s IH]; intros a; simpl; [lia|]. rewrite IH. lia.
Qed.

Lemma len_size s : wf s → len s = N.of_nat (size (elements s)).
Proof.
  intros [Hs1 Hs2]. rewrite len_foldr, count_string_bits, Hs1 by done. f_equal.
  unfold elements, elements_list.
  rewrite size_list_to_set by (apply NoDup_filter, NoDup_peer_idxs).
  rewrite <-count_if_filter. apply count_if_ext. intros. by rewrite contains_string_bit.
Qed.

Lemma elements_len_le s : wf s → len s ≤ 256.
Proof.
  intros [Hs1 Hs2]. rewrite len_foldr, count_string_bits, Hs1 by done.
  pose proof (count_if_le_length (string_bit s) (peer_idxs (8 * 32))) as H.
  unfold peer_idxs in H at 2. rewrite length_fmap, length_seq in H. lia.
Qed.

Lemma default_wf : wf default.
Proof. split; [reflexivity|]. apply Forall_replicate. reflexivity. Qed.

End VoteSet.

Section Refinement.
Import VoteSet.

(** Every operation of a [VoteSet] is the operation of the finite set of
    peer indices it stands for: insertion, removal, membership, union, emptiness
    and the number of elements (the population count of the 32 bytes), and each
    keeps a 32-byte array. *)
Theorem vote_set_refines_set s t i :
  wf s → wf t → i < 256 →
  elements default = ∅ ∧
  (wf (insert s i) ∧ elements (insert s i) = {[i]} ∪ elements s) ∧
  (wf (remove s i) ∧ elements (remove s i) = elements s ∖ {[i]}) ∧
  (wf (bitor s t) ∧ elements (bitor s t) = elements s ∪ elements t) ∧
  (contains s i = bool_decide (i ∈ elements s)) ∧
  len s = N.of_nat (size (elements s)) ∧ len s ≤ 256 ∧
  is_empty s = bool_decide (elements s = ∅).
Proof.
  intros Hs Ht Hi. split_and!.
  - apply set_eq. intros j. rewrite elem_of_elements, contains_default. set_solver.
  - by apply insert_wf.
  - apply set_eq. intros j. rewrite elem_of_union, elem_of_singleton, !elem_of_elements.
    split.
    + intros [Hj Hc]. rewrite contains_insert, orb_true_iff, bool_decide_eq_true in Hc by done.
      naive_solver.
    + intros [->|[Hj Hc]]; (split; [done|]); rewrite contains_insert by done;
        [by rewrite bool_decide_eq_true_2|by rewrite Hc, orb_true_r].
  - by apply remove_wf.
  - apply set_eq. intros j. rewrite elem_of_difference, elem_of_singleton, !elem_of_elements.
    split.
    + intros [Hj Hc]. rewrite contains_remove, andb_true_iff, negb_true_iff, bool_decide_eq_false
        in Hc by done. naive_solver.
    + intros [[Hj Hc] Hne]. split; [done|]. rewrite contains_remove by done.
      rewrite bool_decide_eq_false_2 by congruence. done.
  - by apply bitor_wf.
  - apply set_eq. intros j. rewrite elem_of_union, !elem_of_elements, contains_bitor by done.
    rewrite orb_true_iff. naive_solver.
  - symmetry. destruct (contains s i) eqn:Hc.
    + apply bool_decide_eq_true_2. by apply elem_of_elements.
    + apply bool_decide_eq_false_2. intros [_ Hin]%elem_of_elements. congruence.
  - by apply len_size.
  - by apply elements_len_le.
  - unfold is_empty. rewrite len_size by done. symmetry.
    destruct (N.eqb_spec (N.of_nat (size (elements s))) 0) as [Hz|Hz].
    + apply bool_decide_eq_true_2. apply leibniz_equiv, size_empty_inv. lia.
    + apply bool_decide_eq_false_2. intros He. apply Hz. by rewrite He, size_empty.
Qed.

Lemma vote_set_refines_set_witness :
  len (insert (insert default 3) 255) = 2 ∧
  elements (insert default 9) = {[9]} ∪ elements default.
Proof.
  split; [vm_compute; reflexivity|].
  apply (vote_set_refines_set default default 9 default_wf default_wf). reflexivity.
Defined.

End Refinement.
