(* ===== verification/Peers.v ===== *)
(** * Peer counts, quorums and peer sets
      ([consensus-core/src/num_peers.rs], [peer_set.rs], [peer.rs])

    A peer's public key is the number its 32 bytes hold (see [ArrayType]: the
    order of the arrays is the order of the numbers).  A [PeerSet] is a sorted
    vector of keys searched by binary search.  [Quorum] states what the
    threshold is for: any two quorums of a set of peers share a peer that is
    not faulty. *)
From S2P Require Import Prelude.

Abbreviation PeerPubkey := N (only parsing).
Abbreviation PeerIdx := N (only parsing).

(** ** [NumPeers] *)
Module NumPeers.
(** [NumPeers(u8)] *)
Definition total (n : N) : N := n.
Definition max_faulty (n : N) : N := (total n - 1) / 3.
Definition threshold (n : N) : N := total n - max_faulty n.
Definition peer_idx_iter (n : N) : list PeerIdx := N.of_nat <$> seq 0 (N.to_nat n).

(** [ToNumPeers for \[T\]] *)
Definition to_num_peers {E T} (l : list T) : outcome E N :=
  if decide (N.of_nat (length l) ≤ u8_max)%N then Ok (N.of_nat (length l))
  else Panic "ToNumPeers used for Vec of size larger than u8".

Lemma total_split n : (1 ≤ n)%N → (3 * max_faulty n + 1 ≤ n)%N ∧ (n ≤ 3 * max_faulty n + 3)%N.
Proof.
  intros Hn. unfold max_faulty, total.
  pose proof (N.div_mod' (n - 1) 3) as Hd. pose proof (N.mod_lt (n - 1) 3 ltac:(done)) as Hm.
  revert Hd Hm. generalize ((n - 1) / 3)%N ((n - 1) `mod` 3)%N. lia.
Qed.

Lemma max_faulty_le n : (max_faulty n ≤ n)%N.
Proof. destruct (N.eq_dec n 0%N) as [->|Hn]; [done|].
  pose proof (total_split n ltac:(lia)). lia. Qed.

Lemma threshold_pos n : (1 ≤ n)%N → (1 ≤ threshold n)%N.
Proof. intros Hn. pose proof (total_split n Hn). unfold threshold, total. lia. Qed.

Lemma threshold_le n : (threshold n ≤ n)%N.
Proof. unfold threshold, total. lia. Qed.

Lemma to_num_peers_ok {E T} (l : list T) :
  length l ≤ 255 → to_num_peers (E:=E) l = Ok (N.of_nat (length l)).
Proof. intros Hl. unfold to_num_peers, u8_max. case_decide; [done|lia]. Qed.

Lemma to_num_peers_Ok {E T} (l : list T) n :
  to_num_peers (E:=E) l = Ok n → n = N.of_nat (length l) ∧ (n ≤ 255)%N.
Proof. unfold to_num_peers, u8_max. case_decide; naive_solver. Qed.

Lemma elem_of_peer_idx_iter n i : i ∈ peer_idx_iter n ↔ (i < n)%N.
Proof.
  unfold peer_idx_iter. rewrite list_elem_of_fmap. setoid_rewrite elem_of_seq. split.
  - intros (k & -> & ?). lia.
  - intros. exists (N.to_nat i). lia.
Qed.
End NumPeers.

(** ** Quorums *)
Section Quorum.
Context {P : Type} `{Countable P}.
Implicit Types (all q faulty : gset P).

Lemma quorum_overlap all q1 q2 :
  q1 ⊆ all → q2 ⊆ all → size q1 + size q2 ≤ size all + size (q1 ∩ q2).
Proof.
  intros H1 H2. pose proof (size_union_alt q1 q2).
  assert (size (q1 ∪ q2) ≤ size all) by (apply subseteq_size; set_solver).
  assert (size q2 = size (q1 ∩ q2) + size (q2 ∖ q1)); [|lia].
  rewrite <-size_union by set_solver. f_equal. apply set_eq. intros x.
  destruct (decide (x ∈ q1)); set_solver.
Qed.

(** Two quorums share more peers than may be faulty. *)
Lemma quorum_intersection all q1 q2 faulty n :
  n = N.of_nat (size all) → (1 ≤ n)%N →
  q1 ⊆ all → q2 ⊆ all →
  (NumPeers.threshold n ≤ N.of_nat (size q1))%N →
  (NumPeers.threshold n ≤ N.of_nat (size q2))%N →
  (N.of_nat (size faulty) ≤ NumPeers.max_faulty n)%N →
  ∃ p, p ∈ q1 ∧ p ∈ q2 ∧ p ∉ faulty.
Proof.
  intros -> Hn H1 H2 Hq1 Hq2 Hf.
  pose proof (NumPeers.total_split _ Hn). unfold NumPeers.threshold, NumPeers.total in *.
  pose proof (quorum_overlap all q1 q2 H1 H2).
  destruct (decide (q1 ∩ q2 ∖ faulty = ∅)) as [He|Hne].
  - assert (size (q1 ∩ q2) ≤ size faulty); [apply subseteq_size; set_solver|lia].
  - apply set_choose_L in Hne as [p Hp]. exists p. set_solver.
Qed.
End Quorum.

(** Safety and liveness of the threshold: for every set of 1 to 255 peers of
    which at most [max_faulty] are faulty, any two sets of [threshold] peers have
    a correct peer in common, and the correct peers alone reach the threshold. *)
Theorem threshold_quorum (all q1 q2 faulty : gset N) (n : N) :
  NumPeers.to_num_peers (E:=Empty_set) (elements all) = Ok n → (1 ≤ n)%N →
  q1 ⊆ all → q2 ⊆ all → faulty ⊆ all →
  (NumPeers.threshold n ≤ N.of_nat (size q1))%N →
  (NumPeers.threshold n ≤ N.of_nat (size q2))%N →
  (N.of_nat (size faulty) ≤ NumPeers.max_faulty n)%N →
  (∃ p, p ∈ q1 ∧ p ∈ q2 ∧ p ∉ faulty) ∧
  (NumPeers.threshold n ≤ N.of_nat (size (all ∖ faulty)))%N.
Proof.
  intros [Hn _]%NumPeers.to_num_peers_Ok H1 Hq1 Hq2 Hfa Ht1 Ht2 Hf. split.
  - by apply (quorum_intersection all q1 q2 faulty n).
  - change (length (elements all)) with (size all) in Hn.
    unfold NumPeers.threshold, NumPeers.total. rewrite size_difference by done. lia.
Qed.

Open Scope N_scope.
Lemma threshold_quorum_witness :
  ∃ p, p ∈ ({[0; 1; 2]} : gset N) ∧ p ∈ ({[1; 2; 3]} : gset N) ∧ p ∉ ({[2]} : gset N).
Proof.
  destruct (threshold_quorum {[0; 1; 2; 3]} {[0; 1; 2]} {[1; 2; 3]} {[2]} 4) as [H _];
    [reflexivity|lia|set_solver|set_solver|set_solver|apply (bool_decide_unpack _); vm_compute; exact I..|exact H].
Defined.

(** ** [PeerSet]: a sorted vector of public keys *)
Module PeerSet.
(** [Vec::sort_unstable]; for keys with a total order the result does not
    depend on the algorithm. *)
Definition sort_unstable (l : list PeerPubkey) : list PeerPubkey := merge_sort N.le l.

(** The loop of [slice::binary_search]: [size] elements from [base] on are
    left; [fuel] bounds the number of halvings. *)
Fixpoint search_loop (l : list PeerPubkey) (x : PeerPubkey) (fuel : nat) (size base : nat) : nat :=
  match fuel with
  | O => base
  | S fuel' =>
      if decide (size ≤ 1)%nat then base
      else
        let half := (size / 2)%nat in
        let mid := (base + half)%nat in
        search_loop l x fuel' (size - half)
          (match N.compare (l !!! mid) x with Gt => base | _ => mid end)
  end.
(** [slice::binary_search]: [inl] is [Ok(index)], [inr] is [Err(insertion point)]. *)
Definition binary_search (l : list PeerPubkey) (x : PeerPubkey) : nat + nat :=
  match l with
  | [] => inr 0%nat
  | _ =>
      let base := search_loop l x (length l) (length l) 0 in
      match N.compare (l !!! base) x with
      | Eq => inl base
      | Lt => inr (S base)
      | Gt => inr base
      end
  end.

(** [Vec::swap_remove]: the last element takes the place of the removed one. *)
Definition swap_remove (l : list PeerPubkey) (i : nat) : list PeerPubkey :=
  take (length l - 1) (<[i := List.last l 0]> l).

(** [PeerSet::new], [FromIterator], [From<Vec>], [From<\[_; N\]>] *)
Definition new : list PeerPubkey := [].
Definition from_iter (items : list PeerPubkey) : list PeerPubkey := sort_unstable items.

(** The result and the set afterwards. *)
Definition insert (s : list PeerPubkey) (peer_pubkey : PeerPubkey) : bool * list PeerPubkey :=
  match binary_search s peer_pubkey with
  | inl _ => (false, s)
  | inr _ => (true, sort_unstable (s ++ [peer_pubkey]))
  end.
Definition remove (s : list PeerPubkey) (peer_pubkey : PeerPubkey) : bool * list PeerPubkey :=
  match binary_search s peer_pubkey with
  | inl index => (true, sort_unstable (swap_remove s index))
  | inr _ => (false, s)
  end.

(** The invariant of the sets built by [new], [insert] and [remove]. *)
Definition wf (s : list PeerPubkey) : Prop := StronglySorted N.le s ∧ NoDup s.

Lemma sort_unstable_perm l : sort_unstable l ≡ₚ l.
Proof. apply merge_sort_Permutation. Qed.

Lemma sort_unstable_sorted l : StronglySorted N.le (sort_unstable l).
Proof. apply StronglySorted_merge_sort; apply _. Qed.

Lemma sort_wf l : NoDup l → wf (sort_unstable l).
Proof. split; [apply sort_unstable_sorted|]. by rewrite sort_unstable_perm. Qed.

Lemma sorted_lookup l i j x y :
  StronglySorted N.le l → l !! i = Some x → l !! j = Some y → (i ≤ j)%nat → x ≤ y.
Proof.
  intros Hs. revert i j. induction Hs as [|a l Hs IH Ha]; intros i j Hx Hy Hij; [done|].
  destruct i as [|i], j as [|j]; simplify_eq/=; [lia| |lia|].
  - rewrite Forall_forall in Ha. eapply Ha, list_elem_of_lookup_2, Hy.
  - eapply IH; [done..|lia].
Qed.
(** The loop invariant: an occurrence of [x] anywhere means one in the window. *)
Lemma search_loop_spec l x fuel size base :
  StronglySorted N.le l → (size ≤ S fuel)%nat → (1 ≤ size)%nat → (base + size ≤ length l)%nat →
  (∃ i, (base ≤ i < base + size)%nat ∧ l !! i = Some x) →
  (search_loop l x fuel size base < length l)%nat ∧
  l !! search_loop l x fuel size base = Some x.
Proof.
  intros Hs. revert size base. induction fuel as [|fuel IH]; intros size base Hf H1 Hlen [i [Hi Hx]].
  - simpl. assert (i = base) as -> by lia. split; [lia|done].
  - cbn [search_loop]. case_decide as Hsz.
    { assert (i = base) as -> by lia. split; [lia|done]. }
    assert (1 ≤ size / 2 ∧ size / 2 < size ∧ size / 2 + size / 2 ≤ size)%nat as (Hh1 & Hh2 & Hh3).
    { pose proof (Nat.div_mod_eq size 2). pose proof (Nat.mod_upper_bound size 2). lia. }
    revert Hh1 Hh2 Hh3. generalize (size / 2)%nat. intros half Hh1 Hh2 Hh3.
    destruct (lookup_lt_is_Some_2 l (base + half)%nat) as [y Hy]; [lia|].
    rewrite (list_lookup_total_correct _ _ _ Hy).
    apply IH; [lia|lia| |].
    + destruct (N.compare_spec y x); lia.
    + destruct (N.compare_spec y x) as [->|Hlt|Hgt].
      * exists (base + half)%nat. split; [lia|done].
      * exists i. split; [|done]. destruct (decide (base + half ≤ i)%nat) as [|Hn]; [lia|].
        assert (x ≤ y) by (eapply (sorted_lookup l i (base + half)); eauto; lia). lia.
      * exists i. split; [|done]. destruct (decide (i < base + half)%nat) as [|Hn]; [lia|].
        assert (y ≤ x) by (eapply (sorted_lookup l (base + half) i); eauto; lia). lia.
Qed.

Lemma search_loop_bound l x fuel size base :
  (1 ≤ size)%nat → (base + size ≤ length l)%nat →
  (search_loop l x fuel size base < length l)%nat.
Proof.
  revert size base. induction fuel as [|fuel IH]; intros size base H1 H2; cbn [search_loop]; [lia|].
  case_decide as Hsz; [lia|].
  assert (1 ≤ size / 2 ∧ size / 2 < size)%nat as [Hh1 Hh2].
  { pose proof (Nat.div_mod_eq size 2). pose proof (Nat.mod_upper_bound size 2). lia. }
  revert Hh1 Hh2. generalize (size / 2)%nat. intros half Hh1 Hh2.
  destruct (N.compare _ _); apply IH; lia.
Qed.

Lemma binary_search_inl l x i : binary_search l x = inl i → l !! i = Some x.
Proof.
  unfold binary_search. destruct l as [|a l]; [done|].
  pose proof (search_loop_bound (a :: l) x (length (a :: l)) (length (a :: l)) 0) as Hb.
  destruct (N.compare_spec ((a :: l) !!! search_loop (a :: l) x (length (a :: l)) (length (a :: l)) 0) x)
    as [Heq| |]; intros; simplify_eq.
  apply list_lookup_alt. split; [apply Hb; simpl; lia|done].
Qed.

(** Binary search of a sorted vector finds an occurrence when there is one. *)
Lemma binary_search_elem l x :
  StronglySorted N.le l → (∃ i, binary_search l x = inl i) ↔ x ∈ l.
Proof.
  intros Hs. split.
  - intros [i Hi]. by eapply list_elem_of_lookup_2, binary_search_inl.
  - intros [i Hi]%list_elem_of_lookup_1. unfold binary_search. destruct l as [|a l]; [done|].
    destruct (search_loop_spec (a :: l) x (length (a :: l)) (length (a :: l)) 0) as [_ Hl];
      [done|lia|simpl; lia|lia| |].
    + exists i. split; [|done]. apply lookup_lt_Some in Hi. lia.
    + rewrite (list_lookup_total_correct _ _ _ Hl), N.compare_refl. eauto.
Qed.

Lemma swap_remove_perm l i x : l !! i = Some x → swap_remove l i ++ [x] ≡ₚ l.
Proof.
  intros Hi. destruct l as [|z l' _] using rev_ind; [done|].
  unfold swap_remove. rewrite List.last_last, length_app. cbn [length].
  replace (length l' + 1 - 1)%nat with (length l') by lia.
  destruct (decide (i < length l')%nat) as [Hlt|Hge].
  - rewrite lookup_app_l in Hi by done. rewrite insert_app_l, take_app_length' by
      (done || by rewrite length_insert).
    rewrite insert_take_drop by done.
    rewrite <-(take_drop_middle l' i x) at 3 by done.
    rewrite <-!app_assoc. apply Permutation_app_head. simpl.
    rewrite (Permutation_app_comm (drop _ _) [z]), (Permutation_app_comm (drop _ _) [x]).
    simpl. apply Permutation_swap.
  - assert (i = length l') as ->.
    { apply lookup_lt_Some in Hi. rewrite length_app in Hi. simpl in Hi. lia. }
    rewrite list_lookup_middle in Hi by done. simplify_eq.
    rewrite list_insert_id by (by apply list_lookup_middle). by rewrite take_app_length.
Qed.

Lemma insert_spec s x :
  wf s →
  insert s x = (bool_decide (x ∉ s), if decide (x ∈ s) then s else sort_unstable (s ++ [x])).
Proof.
  intros [Hs _]. unfold insert. destruct (binary_search s x) as [i|i] eqn:Hb.
  - assert (x ∈ s) as Hin by (apply binary_search_elem; eauto).
    rewrite decide_True, bool_decide_eq_false_2 by auto. done.
  - assert (x ∉ s) as Hin.
    { intros [j Hj]%(binary_search_elem s x Hs). congruence. }
    by rewrite decide_False, bool_decide_eq_true_2 by auto.
Qed.

Lemma peer_insert_wf s x : wf s → wf (insert s x).2.
Proof.
  intros Hwf. rewrite insert_spec by done. simpl. case_decide as Hin; [done|].
  apply sort_wf, NoDup_app. destruct Hwf as [_ Hnd]. split_and!; [done| |apply NoDup_singleton].
  intros y Hy ->%list_elem_of_singleton. done.
Qed.

Lemma elem_of_insert s x y : wf s → y ∈ (insert s x).2 ↔ y = x ∨ y ∈ s.
Proof.
  intros Hwf. rewrite insert_spec by done. simpl. case_decide as Hin.
  - split; [tauto|]. by intros [->|].
  - rewrite sort_unstable_perm, elem_of_app, list_elem_of_singleton. tauto.
Qed.

Lemma peer_remove_wf s x : wf s → wf (remove s x).2.
Proof.
  intros Hwf. unfold remove. destruct (binary_search s x) as [i|i] eqn:Hb; [|done].
  apply sort_wf. destruct Hwf as [_ Hnd]. apply binary_search_inl, swap_remove_perm in Hb.
  revert Hb. generalize (swap_remove s i). intros r Hb.
  rewrite <-Hb in Hnd. by apply NoDup_app in Hnd as [? _].
Qed.

Lemma elem_of_remove s x y : wf s → y ∈ (remove s x).2 ↔ y ∈ s ∧ y ≠ x.
Proof.
  intros [Hs Hnd]. unfold remove. destruct (binary_search s x) as [i|i] eqn:Hb; simpl.
  - apply binary_search_inl, swap_remove_perm in Hb. rewrite sort_unstable_perm.
    revert Hb. generalize (swap_remove s i). intros r Hb.
    rewrite <-Hb, elem_of_app, list_elem_of_singleton.
    rewrite <-Hb in Hnd.
    apply NoDup_app in Hnd as (_ & Hnd & _).
    split; [|tauto]. intros Hy. split; [by left|]. intros ->.
    by eapply (Hnd x Hy), list_elem_of_singleton.
  - split; [|tauto]. intros Hy. split; [done|]. intros ->.
    apply (binary_search_elem s x Hs) in Hy as [j Hj]. congruence.
Qed.

Lemma remove_result s x : wf s → (remove s x).1 = bool_decide (x ∈ s).
Proof.
  intros [Hs Hnd]. unfold remove. destruct (binary_search s x) as [i|i] eqn:Hb; simpl; symmetry.
  - apply bool_decide_eq_true_2, binary_search_elem; eauto.
  - apply bool_decide_eq_false_2. intros [j Hj]%(binary_search_elem s x Hs). congruence.
Qed.
End PeerSet.

(** A [PeerSet] built from distinct keys is a sorted duplicate-free vector;
    [insert] and [remove] keep it one, are set insertion and set deletion, and
    report whether the set changed.  Two peer sets with the same members are
    the same vector, so every node computes the same peer indices. *)
Theorem peer_set_refines_set (s t : list PeerPubkey) (x : PeerPubkey) :
  PeerSet.wf s → PeerSet.wf t →
  (PeerSet.wf (PeerSet.insert s x).2 ∧
   list_to_set (C:=gset N) (PeerSet.insert s x).2 = {[x]} ∪ list_to_set s ∧
   (PeerSet.insert s x).1 = bool_decide (x ∉ s)) ∧
  (PeerSet.wf (PeerSet.remove s x).2 ∧
   list_to_set (C:=gset N) (PeerSet.remove s x).2 = list_to_set s ∖ {[x]} ∧
   (PeerSet.remove s x).1 = bool_decide (x ∈ s)) ∧
  (list_to_set (C:=gset N) s = list_to_set t → s = t) ∧
  (∀ items, NoDup items → PeerSet.wf (PeerSet.from_iter items)).
Proof.
  intros Hs Ht. split_and!.
  - by apply PeerSet.peer_insert_wf.
  - apply set_eq. intros y. rewrite elem_of_list_to_set, PeerSet.elem_of_insert by done. set_solver.
  - by rewrite PeerSet.insert_spec.
  - by apply PeerSet.peer_remove_wf.
  - apply set_eq. intros y. rewrite elem_of_list_to_set, PeerSet.elem_of_remove by done. set_solver.
  - by apply PeerSet.remove_result.
  - intros Heq. destruct Hs as [Hs Hnds], Ht as [Ht Hndt].
    apply (StronglySorted_unique N.le); [done..|].
    apply NoDup_Permutation; [done..|]. intros y.
    by rewrite <-!(elem_of_list_to_set (C:=gset N)), Heq.
  - apply PeerSet.sort_wf.
Qed.

Lemma peer_set_refines_set_witness :
  PeerSet.remove [2; 5; 9] 5 = (true, [2; 9]) ∧
  list_to_set (C:=gset N) (PeerSet.insert [2; 5; 9] 7).2 = {[7]} ∪ list_to_set [2; 5; 9].
Proof.
  split; [vm_compute; reflexivity|].
  assert (PeerSet.wf [2; 5; 9]) as Hwf.
  { split; [|apply (bool_decide_unpack _); vm_compute; exact I].
    repeat constructor; lia. }
  apply (peer_set_refines_set [2; 5; 9] [2; 5; 9] 7 Hwf Hwf).
Defined.
