(* ===== verification/Core.v ===== *)
(** * Core consensus data ([consensus-core/src])

    Block headers, consensus parameters, signatures and messages, with the
    functions that build and check them.

    Numbers of fixed width ([BlockRound], [BlockSeq], [Timestamp], ...), hashes,
    public keys and signatures are the number their big-endian bytes hold
    ([ArrayType]); a payload is its list of bytes.  blake3, ed25519 and the
    [bincode] encoders are libraries the source calls: they are the fields of
    the classes [Crypto] and [Bincode], and everything here is proved for any
    instance. *)
From S2P Require Import Prelude ArrayType Peers.
Open Scope N_scope.

(** ** Block headers and consensus parameters *)

Abbreviation BlockRound := N (only parsing).
Abbreviation BlockHash := N (only parsing).
Abbreviation Signature := N (only parsing).
Abbreviation Payload := (list N) (only parsing).

Definition BlockRound_MAX : BlockRound := u64_max.

(** [BlockRound::next], [next_expect], [prev], [half]. *)
Definition round_next (r : BlockRound) : option BlockRound := checked_add u64_max r 1.
Definition round_next_expect {E} (r : BlockRound) : outcome E BlockRound :=
  expect "Can't run out of u64 rounds" (round_next r).
Definition round_prev (r : BlockRound) : option BlockRound := checked_sub r 1.
Definition round_half (r : BlockRound) : BlockRound := r / 2.
(** [BlockSeq::next_wrapping] *)
Definition seq_next_wrapping (s : N) : N := wrapping_add u32_max s 1.

Module BlockHeader.
Record t := mk {
  header_version : N;
  padding : N;
  seq : N;
  round : BlockRound;
  timestamp : N;
  payload_len : N;
  consensus_params_len : N;
  prev_block_hash : BlockHash;
  consensus_params_hash : N;
  payload_hash : N;
}.
Global Instance t_eq_dec : EqDecision t.
Proof. solve_decision. Defined.
End BlockHeader.

Module ConsensusVersion.
Record t := mk { major : N; minor : N }.
Global Instance t_eq_dec : EqDecision t.
Proof. solve_decision. Defined.
End ConsensusVersion.

Module ConsensusParams.
Record t := mk {
  consensus_params_format_version : N;
  init_core_module_cons_version : ConsensusVersion.t;
  timestamp : N;
  schedule_round : BlockRound;
  apply_round : BlockRound;
  prev_mid_block : option (BlockRound * BlockHash);
  peers : list PeerPubkey;
}.
Global Instance t_eq_dec : EqDecision t.
Proof. solve_decision. Defined.
End ConsensusParams.

(** [FinalityVoteUpdate(pub BlockRound)] *)
Inductive FinalityVoteUpdate := MkFinalityVoteUpdate (round : BlockRound).
Definition finality_vote_round (u : FinalityVoteUpdate) : BlockRound :=
  match u with MkFinalityVoteUpdate r => r end.

(** [Signed] and [Notarized]; a [BTreeMap] is a [gmap] iterated in key order. *)
Record Signed (T : Type) := MkSigned { signed_inner : T; sig : Signature }.
Record Notarized (T : Type) := MkNotarized { notarized_inner : T; sigs : gmap PeerIdx Signature }.
Global Arguments MkSigned {T} _ _.
Global Arguments signed_inner {T} _.
Global Arguments sig {T} _.
Global Arguments MkNotarized {T} _ _.
Global Arguments notarized_inner {T} _.
Global Arguments sigs {T} _.
Global Instance Signed_eq_dec {T} `{EqDecision T} : EqDecision (Signed T).
Proof. solve_decision. Defined.

Abbreviation SignedVote := (Signed BlockHeader.t) (only parsing).

(** ** Messages ([msg.rs]) *)
Record WaitVoteRequest := MkWaitVoteRequest { wv_round : BlockRound; only_dummy : bool }.
Inductive WaitVoteResponse :=
  | Proposal (block : Signed BlockHeader.t) (payload : Payload)
  | Vote (block : Signed BlockHeader.t).
Definition resp_block (r : WaitVoteResponse) : Signed BlockHeader.t :=
  match r with Proposal block _ => block | Vote block => block end.
Definition is_proposal (r : WaitVoteResponse) : bool :=
  match r with Proposal _ _ => true | Vote _ => false end.
Record WaitNotarizedBlockRequest := MkWaitNotarizedBlockRequest {
  min_notarized_round : BlockRound;
  wn_cur_round : BlockRound;
}.
Record WaitNotarizedBlockResponse := MkWaitNotarizedBlockResponse {
  resp_notarized : Notarized BlockHeader.t;
  resp_payload : Payload;
}.
Record WaitFinalityVoteResponse := MkWaitFinalityVoteResponse {
  update : Signed FinalityVoteUpdate;
}.

(** ** The libraries the source calls *)
Class Crypto := {
  (** [blake3]: the 32-byte digest, as a number *)
  blake3 : list N → N;
  (** [VerifyingKey::from_bytes(..).is_ok()] *)
  verifying_key_ok : PeerPubkey → bool;
  (** [VerifyingKey::verify_strict(message, signature).is_ok()] *)
  verify_strict : PeerPubkey → list N → Signature → bool;
  (** [SigningKey::sign] and [SigningKey::verifying_key] *)
  ed25519_sign : N → list N → Signature;
  ed25519_pubkey : N → PeerPubkey;
}.
(** What the documentation of these libraries promises and theorems use. *)
Class CryptoLaws `{Crypto} := {
  blake3_size : ∀ m, blake3 m < 256 ^ 32;
  sign_verifies : ∀ sk m, verify_strict (ed25519_pubkey sk) m (ed25519_sign sk m) = true;
  pubkey_is_valid : ∀ sk, verifying_key_ok (ed25519_pubkey sk) = true;
}.

(** [bincode::encode] with [CONSENSUS_BINCODE_CONFIG], and
    [bincode::decode_from_slice]: the value and the number of bytes it took. *)
Class Bincode := {
  encode_block_round : BlockRound → list N;
  encode_block_header : BlockHeader.t → list N;
  encode_consensus_params : ConsensusParams.t → list N;
  encode_finality_vote : FinalityVoteUpdate → list N;
  decode_consensus_params : list N → option (ConsensusParams.t * nat);
}.

(** Two different messages with the same digest. *)
Definition blake3_collision `{Crypto} : Prop := ∃ m1 m2, m1 ≠ m2 ∧ blake3 m1 = blake3 m2.

(** ** Hashing and signing ([signed.rs]) *)
Class Hashable (T : Type) := encode : T → list N.
Class Signable (T : Type) `{Hashable T} := TAG : list N.
Global Hint Mode Hashable ! : typeclass_instances.

Global Instance block_round_hashable `{Bincode} : Hashable N := encode_block_round.
Global Instance block_header_hashable `{Bincode} : Hashable BlockHeader.t := encode_block_header.
Global Instance consensus_params_hashable `{Bincode} : Hashable ConsensusParams.t :=
  encode_consensus_params.
Global Instance finality_vote_hashable `{Bincode} : Hashable FinalityVoteUpdate :=
  encode_finality_vote.
(** [b"blhd"] and [b"furu"] *)
Global Instance block_header_signable `{Bincode} : Signable BlockHeader.t := [98; 108; 104; 100].
Global Instance finality_vote_signable `{Bincode} : Signable FinalityVoteUpdate := [102; 117; 114; 117].

(** [Hashable::hash] *)
Definition hash `{Crypto} {T} `{Hashable T} (x : T) : N := blake3 (encode x).

(** [blake3::Hash::as_bytes] *)
Definition hash_bytes (h : N) : list N := to_be_bytes 32 h.

(** [b"bfte"] *)
Definition bfte_tag : list N := [98; 102; 116; 101].
Definition sign_hash `{Crypto} {T} `{Signable T} (x : T) : N :=
  blake3 (bfte_tag ++ TAG ++ hash_bytes (hash x)).
Definition sign_with `{Crypto} {T} `{Signable T} (x : T) (seckey : N) : Signature :=
  ed25519_sign seckey (hash_bytes (sign_hash x)).

Inductive InvalidSignatureError := InvalidSignature.

Definition verify_hash_signature `{Crypto} (h : N) (pubkey : PeerPubkey) (s : Signature) :
    outcome InvalidSignatureError () :=
  _ ← rassert "At this point pubkeys must be valid" (verifying_key_ok pubkey);
  fail_if (negb (verify_strict pubkey (hash_bytes h) s)) InvalidSignature.
Definition verify_signature `{Crypto} {T} `{Signable T} (x : T) (pubkey : PeerPubkey) (s : Signature) :
    outcome InvalidSignatureError () :=
  verify_hash_signature (sign_hash x) pubkey s.

Definition new_sign `{Crypto} {T} `{Signable T} (inner : T) (seckey : N) : Signed T :=
  MkSigned inner (sign_with inner seckey).
Definition verify_sig_peer_idx `{Crypto} {T} `{Signable T} (x : Signed T) (peer_idx : PeerIdx)
    (peer_keys : list PeerPubkey) : outcome InvalidSignatureError () :=
  pk ← index peer_keys (N.to_nat peer_idx);
  verify_signature (signed_inner x) pk (sig x).
Definition verify_sig_peer_pubkey `{Crypto} {T} `{Signable T} (x : Signed T) (pk : PeerPubkey) :
    outcome InvalidSignatureError () :=
  verify_signature (signed_inner x) pk (sig x).

(** [Notarized::new]: the pairs are collected into a map. *)
Definition notarized_new {T} (inner : T) (l : list (PeerIdx * Signature)) : Notarized T :=
  MkNotarized inner (foldl (λ m kv, <[kv.1 := kv.2]> m) ∅ l).

(** ** Encoded payloads ([framed_payload_define!])

    A payload type is its bytes; its slice type encodes to those bytes without
    a length prefix, so the hash of a payload is blake3 of the bytes. *)
Definition payload_hash_of `{Crypto} (p : Payload) : N := blake3 p.
Definition payload_len_of {E} (p : Payload) : outcome E N :=
  if decide (N.of_nat (length p) ≤ u32_max) then Ok (N.of_nat (length p)) else Panic "Can't fail".

(** ** [ConsensusParams] *)
Section Params.
Context `{Crypto} `{Bincode}.
Import ConsensusParams.
Implicit Types (self : ConsensusParams.t).

Definition FORMAT_VERSION : N := 0.
Definition CONSENSUS_PARAMS_CORE_APPLY_DELAY_BASE : N := 32.

Definition num_peers {E} self : outcome E N := NumPeers.to_num_peers (peers self).

(** [BlockRound::leader_idx] *)
Definition block_round_leader_idx {E} (r : BlockRound) (n : N) : outcome E PeerIdx :=
  if decide (n = 0) then Panic "attempt to divide by zero" else Ok (hash r `mod` n).
Definition leader_idx {E} self (round : BlockRound) : outcome E PeerIdx :=
  n ← num_peers self;
  block_round_leader_idx round n.

Definition to_raw self : Payload := encode_consensus_params self.
Definition params_hash self : N := hash self.
Definition params_len {E} self : outcome E N := payload_len_of (to_raw self).
Definition hash_and_len {E} self : outcome E (N * N) :=
  let raw := to_raw self in
  len ← payload_len_of raw;
  Ok (payload_hash_of raw, len).

Inductive ConsensusParamsDecodeError :=
  | BincodeError
  | MismatchedFormatVersion (version : N).

(** [util_bincode::decode_whole]: the whole input must be consumed. *)
Definition decode_whole {T} (dec : list N → option (T * nat)) (src : list N) : option T :=
  match dec src with
  | Some (t, consumed) => if decide (consumed = length src) then Some t else None
  | None => None
  end.
Definition from_raw (raw : Payload) : outcome ConsensusParamsDecodeError ConsensusParams.t :=
  decoded ← match decode_whole decode_consensus_params raw with
            | Some p => Ok p
            | None => Err BincodeError
            end;
  _ ← fail_if (negb (consensus_params_format_version decoded =? 0))
        (MismatchedFormatVersion (consensus_params_format_version decoded));
  Ok decoded.

Definition consensus_params_schedulign_delay {E} self : outcome E N :=
  n ← NumPeers.to_num_peers (peers self);
  Ok (NumPeers.total n + CONSENSUS_PARAMS_CORE_APPLY_DELAY_BASE).
Definition make_change {E} self (schedule_round : BlockRound) (block_timestamp : N)
    (peer_set : list PeerPubkey) (prev_mid_block : option (BlockRound * BlockHash)) :
    outcome E ConsensusParams.t :=
  delay ← consensus_params_schedulign_delay self;
  apply_round ← expect "Can't ran out of u64 of rounds" (checked_add u64_max schedule_round delay);
  Ok {| consensus_params_format_version := consensus_params_format_version self;
        init_core_module_cons_version := init_core_module_cons_version self;
        ConsensusParams.timestamp := block_timestamp;
        ConsensusParams.schedule_round := schedule_round;
        ConsensusParams.apply_round := apply_round;
        ConsensusParams.prev_mid_block := prev_mid_block;
        ConsensusParams.peers := peer_set |}.

(** [u8::try_from(i).expect(..)] *)
Definition idx_of_nat {E} (i : nat) : outcome E PeerIdx :=
  if decide (N.of_nat i ≤ u8_max) then Ok (N.of_nat i) else Panic "Can't overflow".
Definition find_peer_idx {E} self (peer_pubkey : PeerPubkey) : outcome E (option PeerIdx) :=
  match list_find (λ p, p = peer_pubkey) (peers self) with
  | Some (i, _) => idx ← idx_of_nat i; Ok (Some idx)
  | None => Ok None
  end.
Definition iter_peers {E} self : outcome E (list (PeerIdx * PeerPubkey)) :=
  (fix go (i : nat) (l : list PeerPubkey) :=
     match l with
     | [] => Ok []
     | pk :: l' => idx ← idx_of_nat i; rest ← go (S i) l'; Ok ((idx, pk) :: rest)
     end) 0%nat (peers self).
End Params.

(** ** [BlockHeader] *)
Inductive VerifyWithContentError :=
  | PayloadHashMismatch
  | PayloadLenMismatch
  | ConsensusHashMismatch
  | UnknownVersion
  | ConsensusLenMismatch
  | ConsensusVersionMismatch.

Section Header.
Context `{Crypto} `{Bincode}.
Import BlockHeader.
Implicit Types (self : BlockHeader.t).

Definition new {E} (prev : option BlockHeader.t) (timestamp : N) (round : BlockRound)
    (consensus_params : ConsensusParams.t) (payload : Payload) : outcome E BlockHeader.t :=
  plen ← payload_len_of payload;
  clen ← params_len consensus_params;
  Ok {| header_version := 0;
        padding := 0;
        seq := match prev with Some p => seq_next_wrapping (seq p) | None => 0 end;
        BlockHeader.round := round;
        BlockHeader.timestamp := timestamp;
        payload_len := plen;
        consensus_params_len := clen;
        prev_block_hash := match prev with Some p => hash p | None => 0 end;
        consensus_params_hash := params_hash consensus_params;
        payload_hash := payload_hash_of payload |}.

Definition new_dummy {E} (round : BlockRound) (consensus_params : ConsensusParams.t) :
    outcome E BlockHeader.t :=
  hl ← hash_and_len consensus_params;
  Ok {| header_version := 0;
        padding := 0;
        seq := 0;
        BlockHeader.round := round;
        BlockHeader.timestamp := 0;
        payload_len := 0;
        consensus_params_len := hl.2;
        prev_block_hash := 0;
        consensus_params_hash := hl.1;
        payload_hash := 0 |}.

Definition is_dummy self : bool :=
  (seq self =? 0) && (prev_block_hash self =? 0) && (payload_hash self =? 0) &&
  (payload_len self =? 0).

Definition verify_with_content self (round_params_hash round_params_len : N) (payload : Payload) :
    outcome VerifyWithContentError () :=
  _ ← (if is_dummy self then
         plen ← payload_len_of payload;
         fail_if (negb (plen =? 0)) PayloadLenMismatch
       else
         _ ← fail_if (negb (payload_hash_of payload =? payload_hash self)) PayloadHashMismatch;
         plen ← payload_len_of payload;
         fail_if (negb (plen =? payload_len self)) PayloadLenMismatch);
  _ ← fail_if (negb (header_version self =? 0)) UnknownVersion;
  _ ← fail_if (negb (consensus_params_hash self =? round_params_hash)) ConsensusHashMismatch;
  fail_if (negb (consensus_params_len self =? round_params_len)) ConsensusLenMismatch.

Definition does_directly_extend self (prev_notarized_block : option BlockHeader.t) : bool :=
  match prev_notarized_block with
  | Some prev_block =>
      (seq_next_wrapping (seq prev_block) =? seq self) &&
      (round prev_block <? round self) &&
      (hash prev_block =? prev_block_hash self)
  | None => (seq self =? 0) && (prev_block_hash self =? 0)
  end.
End Header.

(** ** [Notarized::verify_sigs] *)
Inductive InvalidNotarizationError :=
  | NotEnoughSignatures
  | InvalidPeerSignature (peer_idx : PeerIdx).

Section Notarization.
Context `{Crypto} `{Bincode} {T : Type} `{Signable T}.

(** The loop over the signatures, in the order of the peer indices. *)
Fixpoint verify_each (h : N) (peer_keys : list PeerPubkey) (l : list (PeerIdx * Signature)) :
    outcome InvalidNotarizationError () :=
  match l with
  | [] => Ok ()
  | (peer_idx, s) :: l' =>
      pk ← index peer_keys (N.to_nat peer_idx);
      _ ← map_err (λ _, InvalidPeerSignature peer_idx) (verify_hash_signature h pk s);
      verify_each h peer_keys l'
  end.
Definition verify_sigs (self : Notarized T) (consensus_params : ConsensusParams.t) :
    outcome InvalidNotarizationError () :=
  n ← num_peers consensus_params;
  _ ← fail_if (N.of_nat (size (sigs self)) <? NumPeers.threshold n) NotEnoughSignatures;
  verify_each (sign_hash (notarized_inner self)) (ConsensusParams.peers consensus_params)
    (entries (sigs self)).
End Notarization.

(** ** Lemmas *)
Lemma fail_if_Ok {E} b (e : E) : fail_if b e = Ok () ↔ b = false.
Proof. by destruct b. Qed.

Section SignatureLemmas.
Context `{Crypto} `{Bincode}.

(** The signature [s] of the message hash [h] is valid for peer [i]. *)
Definition sig_ok (h : N) (peer_keys : list PeerPubkey) (i : PeerIdx) (s : Signature) : bool :=
  match peer_keys !! N.to_nat i with
  | Some pk => verifying_key_ok pk && verify_strict pk (hash_bytes h) s
  | None => false
  end.

Lemma verify_hash_signature_Ok h pk s :
  verify_hash_signature h pk s = Ok () ↔
  verifying_key_ok pk = true ∧ verify_strict pk (hash_bytes h) s = true.
Proof.
  unfold verify_hash_signature, rassert. destruct (verifying_key_ok pk); simpl; [|naive_solver].
  rewrite fail_if_Ok, negb_false_iff. tauto.
Qed.

Lemma verify_sig_peer_idx_Ok {T} `{Signable T} (x : Signed T) i keys :
  verify_sig_peer_idx x i keys = Ok () ↔ sig_ok (sign_hash (signed_inner x)) keys i (sig x) = true.
Proof.
  unfold verify_sig_peer_idx, index, sig_ok. destruct (keys !! N.to_nat i) as [pk|]; simpl; [|done].
  unfold verify_signature. rewrite verify_hash_signature_Ok, andb_true_iff. done.
Qed.

Lemma verify_sig_peer_idx_no_panic {T} `{Signable T} (x : Signed T) i keys w :
  (N.to_nat i < length keys)%nat → Forall (λ pk, verifying_key_ok pk = true) keys →
  verify_sig_peer_idx x i keys ≠ Panic w.
Proof.
  intros [pk Hpk]%lookup_lt_is_Some_2 Hv. unfold verify_sig_peer_idx, index. rewrite Hpk. simpl.
  unfold verify_signature, verify_hash_signature. rewrite Forall_lookup in Hv.
  rewrite (Hv _ _ Hpk). simpl. by destruct (verify_strict _ _ _).
Qed.

Lemma verify_each_Ok h keys l :
  verify_each h keys l = Ok () ↔ ∀ i s, (i, s) ∈ l → sig_ok h keys i s = true.
Proof.
  induction l as [|[i s] l IH]; simpl.
  { split; [|done]. intros _ i s Hin. by apply not_elem_of_nil in Hin. }
  unfold index. trans (sig_ok h keys i s = true ∧ verify_each h keys l = Ok ()).
  - unfold sig_ok. destruct (keys !! N.to_nat i) as [pk|]; simpl; [|naive_solver].
    pose proof (verify_hash_signature_Ok h pk s) as Hok.
    rewrite andb_true_iff, <-Hok. destruct (verify_hash_signature h pk s) as [[]|e|w]; naive_solver.
  - rewrite IH. setoid_rewrite elem_of_cons. naive_solver.
Qed.

(** The loop panics at the first signature that is not valid, when its index
    is out of the range of the keys. *)
Lemma verify_each_oob h keys l1 i s l2 :
  (∀ j t, (j, t) ∈ l1 → sig_ok h keys j t = true) → (length keys ≤ N.to_nat i)%nat →
  verify_each h keys (l1 ++ (i, s) :: l2) = Panic "index out of bounds".
Proof.
  intros Hl1 Hi. induction l1 as [|[j t] l1 IH]; simpl.
  - unfold index. by rewrite lookup_ge_None_2.
  - assert (sig_ok h keys j t = true) as Hj by (apply Hl1; left).
    unfold sig_ok in Hj. unfold index. destruct (keys !! N.to_nat j) as [pk|]; [|done]. simpl.
    apply andb_true_iff in Hj. apply verify_hash_signature_Ok in Hj. rewrite Hj. simpl.
    apply IH. intros j' t' Hin. apply Hl1. by right.
Qed.

Lemma verify_each_no_panic h keys l w :
  Forall (λ pk, verifying_key_ok pk = true) keys →
  (∀ i s, (i, s) ∈ l → (N.to_nat i < length keys)%nat) →
  verify_each h keys l ≠ Panic w.
Proof.
  intros Hv. induction l as [|[i s] l IH]; intros Hr; [done|]. simpl.
  assert (N.to_nat i < length keys)%nat as [pk Hpk]%lookup_lt_is_Some_2 by (apply (Hr i s); left).
  unfold index. rewrite Hpk. simpl. unfold verify_hash_signature.
  rewrite Forall_lookup in Hv. rewrite (Hv _ _ Hpk). simpl.
  destruct (verify_strict _ _ _); simpl; [|done]. apply IH. intros j t Hin. apply (Hr j t). by right.
Qed.

Lemma verify_sigs_Ok {T} `{Signable T} (self : Notarized T) p :
  verify_sigs self p = Ok () ↔
  (length (ConsensusParams.peers p) ≤ 255)%nat ∧
  (NumPeers.threshold (N.of_nat (length (ConsensusParams.peers p))) ≤ N.of_nat (size (sigs self)))%N ∧
  ∀ i s, sigs self !! i = Some s →
    sig_ok (sign_hash (notarized_inner self)) (ConsensusParams.peers p) i s = true.
Proof.
  unfold verify_sigs, num_peers, NumPeers.to_num_peers, u8_max.
  case_decide as Hn; simpl; [|split; [done|intros (? & _); lia]].
  trans ((NumPeers.threshold (N.of_nat (length (ConsensusParams.peers p))) ≤ N.of_nat (size (sigs self)))%N ∧
    verify_each (sign_hash (notarized_inner self)) (ConsensusParams.peers p) (entries (sigs self)) = Ok ()).
  - destruct (N.ltb_spec (N.of_nat (size (sigs self)))
      (NumPeers.threshold (N.of_nat (length (ConsensusParams.peers p))))); simpl; [|tauto].
    split; [done|]. intros [? _]. lia.
  - rewrite verify_each_Ok. setoid_rewrite entries_perm. setoid_rewrite elem_of_map_to_list.
    split; intros; naive_solver lia.
Qed.
End SignatureLemmas.

(** ** What the header functions promise each other *)
Section HeaderLemmas.
Context `{Crypto} `{Bincode}.

Lemma payload_len_of_ok {E} p : N.of_nat (length p) ≤ u32_max → payload_len_of (E:=E) p = Ok (N.of_nat (length p)).
Proof. intros. unfold payload_len_of. by rewrite decide_True. Qed.

Lemma payload_len_of_Ok {E} p n :
  payload_len_of (E:=E) p = Ok n ↔ n = N.of_nat (length p) ∧ N.of_nat (length p) ≤ u32_max.
Proof. unfold payload_len_of. case_decide; naive_solver. Qed.

Lemma hash_and_len_spec {E} p :
  hash_and_len (E:=E) p = (len ← params_len p; Ok (params_hash p, len)).
Proof. done. Qed.

Lemma is_dummy_true b :
  is_dummy b = true ↔
  BlockHeader.seq b = 0 ∧ BlockHeader.prev_block_hash b = 0 ∧
  BlockHeader.payload_hash b = 0 ∧ BlockHeader.payload_len b = 0.
Proof. unfold is_dummy. rewrite !andb_true_iff, !N.eqb_eq. tauto. Qed.

Lemma verify_with_content_Ok b ph pl payload :
  verify_with_content b ph pl payload = Ok () ↔
  N.of_nat (length payload) ≤ u32_max ∧
  (if is_dummy b then payload = [] else
     payload_hash_of payload = BlockHeader.payload_hash b ∧
     N.of_nat (length payload) = BlockHeader.payload_len b) ∧
  BlockHeader.header_version b = 0 ∧
  BlockHeader.consensus_params_hash b = ph ∧ BlockHeader.consensus_params_len b = pl.
Proof.
  unfold verify_with_content, payload_len_of.
  assert (∀ (o : outcome VerifyWithContentError ()) (P Q : Prop),
    (o = Ok () ↔ P) →
    ((_ ← o; _ ← fail_if (negb (BlockHeader.header_version b =? 0)) UnknownVersion;
      _ ← fail_if (negb (BlockHeader.consensus_params_hash b =? ph)) ConsensusHashMismatch;
      fail_if (negb (BlockHeader.consensus_params_len b =? pl)) ConsensusLenMismatch) = Ok () ↔
     P ∧ BlockHeader.header_version b = 0 ∧ BlockHeader.consensus_params_hash b = ph ∧
     BlockHeader.consensus_params_len b = pl)) as Hrest.
  { intros o P _ <-. rewrite <-!N.eqb_eq. destruct o as [[]| |]; simpl; [|naive_solver..].
    destruct (_ =? 0); simpl; [|naive_solver].
    destruct (BlockHeader.consensus_params_hash b =? ph); simpl; [|naive_solver].
    rewrite fail_if_Ok, negb_false_iff. tauto. }
  rewrite (Hrest _ (N.of_nat (length payload) ≤ u32_max ∧ (if is_dummy b then payload = [] else
     payload_hash_of payload = BlockHeader.payload_hash b ∧
     N.of_nat (length payload) = BlockHeader.payload_len b)) True); [tauto|].
  clear Hrest. destruct (is_dummy b).
  - case_decide; simpl; [|naive_solver]. rewrite fail_if_Ok, negb_false_iff, N.eqb_eq.
    destruct payload; simpl; split; naive_solver lia.
  - rewrite <-!N.eqb_eq. destruct (payload_hash_of payload =? _); simpl; [|naive_solver].
    case_decide; simpl; [|naive_solver]. rewrite fail_if_Ok, negb_false_iff. naive_solver.
Qed.

Lemma does_directly_extend_Some b p :
  does_directly_extend b (Some p) = true ↔
  BlockHeader.seq b = seq_next_wrapping (BlockHeader.seq p) ∧
  BlockHeader.round p < BlockHeader.round b ∧ BlockHeader.prev_block_hash b = hash p.
Proof. simpl. rewrite !andb_true_iff, !N.eqb_eq, N.ltb_lt. naive_solver. Qed.

Lemma does_directly_extend_None b :
  does_directly_extend b None = true ↔ BlockHeader.seq b = 0 ∧ BlockHeader.prev_block_hash b = 0.
Proof. simpl. by rewrite andb_true_iff, !N.eqb_eq. Qed.
End HeaderLemmas.

(** The checks of a header that [new] has just built. *)
Lemma new_header_checks `{Crypto} `{Bincode} {E} (prev : option BlockHeader.t) (ts round : N)
    (params : ConsensusParams.t) (payload : Payload) (b : BlockHeader.t) (clen : N) :
  new (E:=E) prev ts round params payload = Ok b → params_len (E:=E) params = Ok clen →
  (∀ p, prev = Some p → BlockHeader.round p < round) → blake3 [] ≠ 0 →
  BlockHeader.round b = round ∧ does_directly_extend b prev = true ∧ is_dummy b = false ∧
  verify_with_content b (params_hash params) clen payload = Ok ().
Proof.
  intros Hb Hl Hprev Hempty. unfold new in Hb. rewrite Hl in Hb.
  destruct (payload_len_of payload) as [plen| |] eqn:Hplen; [|done..]. simplify_eq/=.
  apply payload_len_of_Ok in Hplen as [-> Hle].
  match goal with |- _ ∧ does_directly_extend ?b _ = _ ∧ _ => set (hdr := b) end.
  assert (is_dummy hdr = false) as Hnd.
  { apply not_true_iff_false. rewrite is_dummy_true. simpl. intros (_ & _ & Hh & Hz).
    destruct payload; [done|simpl in Hz; lia]. }
  split_and!; [done| |done|by apply verify_with_content_Ok; rewrite Hnd].
  destruct prev as [p|]; [|by apply does_directly_extend_None].
  apply does_directly_extend_Some. simpl. auto.
Qed.

(** A header built by [BlockHeader::new] over a notarized block of an earlier
    round passes the checks a receiver makes: its content verifies against the
    payload and the parameters it was built from, and it directly extends that
    block.  It is mistaken for a dummy only when its empty payload hashes to
    zero; the dummy header of a round verifies with the empty payload. *)
Theorem new_header_verifies `{Crypto} `{Bincode} (prev : option BlockHeader.t) (ts round : N)
    (params : ConsensusParams.t) (payload : Payload) (b d : BlockHeader.t) (clen : N) :
  new (E:=Empty_set) prev ts round params payload = Ok b →
  new_dummy (E:=Empty_set) round params = Ok d →
  params_len (E:=Empty_set) params = Ok clen →
  (∀ p, prev = Some p → BlockHeader.round p < round) →
  blake3 [] ≠ 0 →
  does_directly_extend b prev = true ∧
  is_dummy b = false ∧
  verify_with_content b (params_hash params) clen payload = Ok () ∧
  is_dummy d = true ∧
  verify_with_content d (params_hash params) clen [] = Ok ().
Proof.
  intros Hb Hd Hl Hprev Hempty.
  destruct (new_header_checks _ _ _ _ _ _ _ Hb Hl Hprev Hempty) as (_ & ? & ? & ?). split_and!; try done.
  - unfold new_dummy in Hd. by destruct (hash_and_len params); simplify_eq/=.
  - unfold new_dummy in Hd. rewrite hash_and_len_spec, Hl in Hd. simplify_eq/=. by apply verify_with_content_Ok.
Qed.

(** [Notarized::verify_sigs] accepts exactly the blocks with at least
    [threshold] signatures all of which are valid signatures of the header by
    distinct peers of the round; it never accepts by skipping a signature.  With
    enough signatures, the first of them whose index is not an index of a peer
    of the round makes it panic instead of returning an error. *)
Theorem verify_sigs_spec `{Crypto} `{Bincode} (b : Notarized BlockHeader.t) (p : ConsensusParams.t) :
  (length (ConsensusParams.peers p) ≤ 255)%nat →
  let n := N.of_nat (length (ConsensusParams.peers p)) in
  let ok := sig_ok (sign_hash (notarized_inner b)) (ConsensusParams.peers p) in
  (verify_sigs b p = Ok () ↔
     NumPeers.threshold n ≤ N.of_nat (size (sigs b)) ∧ map_Forall (λ i s, ok i s = true) (sigs b)) ∧
  (N.of_nat (size (sigs b)) < NumPeers.threshold n → verify_sigs b p = Err NotEnoughSignatures) ∧
  (∀ l1 i s l2,
     NumPeers.threshold n ≤ N.of_nat (size (sigs b)) →
     entries (sigs b) = l1 ++ (i, s) :: l2 → (∀ j t, (j, t) ∈ l1 → ok j t = true) → n ≤ i →
     verify_sigs b p = Panic "index out of bounds").
Proof.
  intros Hlen n ok. split_and!.
  - rewrite verify_sigs_Ok. unfold map_Forall. tauto.
  - intros Hlt. unfold verify_sigs, num_peers. rewrite NumPeers.to_num_peers_ok by done. simpl.
    fold n. by rewrite (proj2 (N.ltb_lt _ _)) by done.
  - intros l1 i s l2 Hge He Hl1 Hi. unfold verify_sigs, num_peers.
    rewrite NumPeers.to_num_peers_ok by done. simpl. fold n.
    rewrite (proj2 (N.ltb_ge _ _)) by done. simpl. rewrite He.
    apply verify_each_oob; [done|]. unfold n in Hi. lia.
Qed.

(** A signature over a block header is not one over a finality vote: the
    messages that are signed differ in their tag, so equal signing hashes of two
    types with different tags are a collision of blake3. *)
Theorem sign_hash_domain_separation `{Crypto} `{Bincode} (b : BlockHeader.t) (u : FinalityVoteUpdate) :
  sign_hash b = sign_hash u → blake3_collision.
Proof.
  intros Heq. exists (bfte_tag ++ (TAG (T:=BlockHeader.t)) ++ hash_bytes (hash b)),
    (bfte_tag ++ (TAG (T:=FinalityVoteUpdate)) ++ hash_bytes (hash u)).
  split; [done|exact Heq].
Qed.

(** Two headers with the same signing hash are equal, up to a blake3 collision. *)
Lemma sign_hash_inj `{Crypto} `{CryptoLaws} `{Bincode} {T} `{Signable T} (x y : T) :
  (∀ a b : T, encode a = encode b → a = b) →
  sign_hash x = sign_hash y → x = y ∨ blake3_collision.
Proof.
  intros Hinj Heq. destruct (decide (encode x = encode y)) as [He|He]; [by left; apply Hinj|].
  right. destruct (N.eq_dec (hash x) (hash y)) as [Hh|Hh].
  { by exists (encode x), (encode y). }
  exists (bfte_tag ++ TAG ++ hash_bytes (hash x)), (bfte_tag ++ TAG ++ hash_bytes (hash y)).
  split; [|exact Heq]. intros Hb. apply Hh.
  apply app_inv_head, app_inv_head in Hb. unfold hash_bytes in Hb.
  assert (∀ z : T, hash z < 256 ^ 32) as Hlt by (intros z; apply blake3_size).
  pose proof (from_to_mod 32 (hash x)) as Hx. pose proof (from_to_mod 32 (hash y)) as Hy.
  rewrite Hb, Hy in Hx. rewrite !N.mod_small in Hx by apply Hlt. done.
Qed.

(** ** A concrete instance of the libraries, to evaluate the model with

    Digests and signatures are small numbers that are easy to compute: the
    model and its theorems hold for every instance, this one serves the
    witnesses. *)
Module Toy.
Fixpoint digest (acc : N) (m : list N) : N :=
  match m with [] => acc | x :: m' => digest ((acc * 31 + x + 1) mod 1000003) m' end.
Definition crypto : Crypto := {|
  blake3 := digest 7;
  verifying_key_ok := λ pk, negb (pk =? 0);
  verify_strict := λ pk m s, s =? digest (pk + 11) m;
  ed25519_sign := λ sk m, digest (sk + 1 + 11) m;
  ed25519_pubkey := λ sk, sk + 1;
|}.
Definition encode_version (v : ConsensusVersion.t) : list N :=
  [ConsensusVersion.major v; ConsensusVersion.minor v].
Definition encode_header (b : BlockHeader.t) : list N :=
  [BlockHeader.header_version b; BlockHeader.padding b; BlockHeader.seq b; BlockHeader.round b;
   BlockHeader.timestamp b; BlockHeader.payload_len b; BlockHeader.consensus_params_len b;
   BlockHeader.prev_block_hash b; BlockHeader.consensus_params_hash b; BlockHeader.payload_hash b].
Definition encode_params (p : ConsensusParams.t) : list N :=
  ConsensusParams.consensus_params_format_version p ::
  encode_version (ConsensusParams.init_core_module_cons_version p) ++
  [ConsensusParams.timestamp p; ConsensusParams.schedule_round p; ConsensusParams.apply_round p] ++
  match ConsensusParams.prev_mid_block p with Some (r, h) => [1; r; h] | None => [0; 0; 0] end ++
  ConsensusParams.peers p.
Definition decode_params (l : list N) : option (ConsensusParams.t * nat) :=
  match l with
  | format :: major :: minor :: timestamp :: schedule_round :: apply_round :: tag :: r :: h :: peers =>
      Some (ConsensusParams.mk format (ConsensusVersion.mk major minor) timestamp schedule_round apply_round
              (if tag =? 1 then Some (r, h) else None) peers, length l)
  | _ => None
  end.
Definition bincode : Bincode := {|
  encode_block_round := λ r, [r];
  encode_block_header := encode_header;
  encode_consensus_params := encode_params;
  encode_finality_vote := λ u, [finality_vote_round u];
  decode_consensus_params := decode_params;
|}.
Lemma encode_header_inj a b : encode_header a = encode_header b → a = b.
Proof. destruct a, b. intros [=]. by subst. Qed.
End Toy.

Section Witnesses.
Local Existing Instance Toy.crypto.
Local Existing Instance Toy.bincode.

Definition toy_params : ConsensusParams.t := {|
  ConsensusParams.consensus_params_format_version := 0;
  ConsensusParams.init_core_module_cons_version := ConsensusVersion.mk 0 0;
  ConsensusParams.timestamp := 0;
  ConsensusParams.schedule_round := 0;
  ConsensusParams.apply_round := 0;
  ConsensusParams.prev_mid_block := None;
  ConsensusParams.peers := [1; 2; 3; 4] |}.
(** Header of the payload [payload] in round [round], signed by [seckey]. *)
Definition toy_header (prev : option BlockHeader.t) (round : N) (payload : Payload) : BlockHeader.t :=
  match new (E:=Empty_set) prev 77 round toy_params payload with
  | Ok b => b
  | _ => BlockHeader.mk 0 0 0 0 0 0 0 0 0 0
  end.
Definition toy_dummy (round : N) : BlockHeader.t :=
  match new_dummy (E:=Empty_set) round toy_params with
  | Ok b => b
  | _ => BlockHeader.mk 0 0 0 0 0 0 0 0 0 0
  end.
Definition toy_notarized (b : BlockHeader.t) (seckeys : list N) : Notarized BlockHeader.t :=
  notarized_new b ((λ sk, (sk, sign_with b sk)) <$> seckeys).

Lemma new_header_verifies_witness :
  verify_with_content (toy_header (Some (toy_header None 3 [1])) 5 [8; 9]) (params_hash toy_params) 13 [8; 9] = Ok ().
Proof.
  pose proof (new_header_verifies (Some (toy_header None 3 [1])) 77 5 toy_params [8; 9]
    (toy_header (Some (toy_header None 3 [1])) 5 [8; 9]) (toy_dummy 5) 13
    eq_refl eq_refl eq_refl) as (_ & _ & H & _); [|discriminate|exact H].
  intros p [= <-]. reflexivity.
Defined.

Lemma verify_sigs_spec_witness :
  verify_sigs (toy_notarized (toy_header None 0 [1]) [0; 1; 3]) toy_params = Ok () ∧
  verify_sigs (toy_notarized (toy_header None 0 [1]) [0; 1; 3; 4]) toy_params = Panic "index out of bounds" ∧
  (verify_sigs (toy_notarized (toy_header None 0 [1]) [0; 1]) toy_params = Err NotEnoughSignatures).
Proof.
  split; [vm_compute; reflexivity|]. split; [vm_compute; reflexivity|].
  apply (verify_sigs_spec (toy_notarized (toy_header None 0 [1]) [0; 1]) toy_params).
  - simpl. lia.
  - vm_compute. reflexivity.
Defined.

Lemma sign_hash_domain_separation_witness :
  blake3_collision (H:={| blake3 := λ _, 0; verifying_key_ok := λ _, true;
    verify_strict := λ _ _ _, true; ed25519_sign := λ _ _, 0; ed25519_pubkey := λ _, 0 |}).
Proof.
  apply (sign_hash_domain_separation (toy_header None 0 [1]) (MkFinalityVoteUpdate 0)). reflexivity.
Defined.
End Witnesses.
