(* ===== verification/Db.v ===== *)
(** * Database transactions ([db/src])

    A write transaction runs a function on a private copy of the database and a
    list of commit hooks.  When the function succeeds the copy becomes the
    database and the hooks run, in the order they were added; when it fails or
    panics nothing is kept and no hook runs.  A single write transaction exists
    at a time, and [commit_hook_order_lock] is held from before the commit until
    the last hook has run, so a transaction and its hooks are one step.

    The storage itself works here; [Storage] has the same transactions when it
    fails, which the source turns into a panic of the process. *)
From S2P Require Import Prelude.

(** [WriteTransactionCtx]: the working copy of the database and [on_commit]. *)
Record TxState (D H : Type) := MkTx { tx_db : D; tx_hooks : list H }.
Global Arguments MkTx {D H} _ _.
Global Arguments tx_db {D H} _.
Global Arguments tx_hooks {D H} _.

(** [DbError] (only the errors the code can cause itself) and [DbTxError]. *)
Inductive DbError := TableAlreadyOpen | DbVersionTooHigh (db_ver code_ver : N) | Overflow.
Inductive DbTxError (E : Type) :=
  | DbErr (source : DbError)
  | TxError (source : E).
Global Arguments DbErr {E} _.
Global Arguments TxError {E} _.

(** [DbTxError::map] and [DbTxError::tx_into] (with the conversion [From<E>]) *)
Definition dbtx_error_map {E E2} (f : E → E2) (e : DbTxError E) : DbTxError E2 :=
  match e with
  | DbErr source => DbErr source
  | TxError source => TxError (f source)
  end.

(** [DbTxResult<T, E>] of a function of [&WriteTransactionCtx] and of
    [&ReadTransaction]. *)
Definition Tx (D H E A : Type) : Type := TxState D H → outcome (DbTxError E) (A * TxState D H).
Definition Rd (D E A : Type) : Type := D → outcome (DbTxError E) A.

Global Instance tx_ret {D H E} : MRet (Tx D H E) := λ A a s, Ok (a, s).
Global Instance tx_bind {D H E} : MBind (Tx D H E) := λ A B f m s,
  match m s with
  | Ok (a, s') => f a s'
  | Err e => Err e
  | Panic w => Panic w
  end.
Global Instance rd_ret {D E} : MRet (Rd D E) := λ A a d, Ok a.
Global Instance rd_bind {D E} : MBind (Rd D E) := λ A B f m d,
  match m d with
  | Ok a => f a d
  | Err e => Err e
  | Panic w => Panic w
  end.

Section Ops.
Context {D H E : Type}.

(** A query of the database. *)
Definition rd_get {A} (f : D → A) : Rd D E A := λ d, Ok (f d).
Definition rd_expect {A} (msg : string) (f : D → option A) : Rd D E A := λ d, expect msg (f d).
(** Code that does not touch the database. *)
Definition rd_lift {A} (o : outcome E A) : Rd D E A := λ _, map_err TxError o.

Definition tx_read {A} (m : Rd D E A) : Tx D H E A := λ s,
  match m (tx_db s) with
  | Ok a => Ok (a, s)
  | Err e => Err e
  | Panic w => Panic w
  end.
Definition tx_modify (f : D → D) : Tx D H E () := λ s, Ok ((), MkTx (f (tx_db s)) (tx_hooks s)).
Definition tx_lift {A} (o : outcome E A) : Tx D H E A := tx_read (rd_lift o).
Definition tx_fail {A} (e : E) : Tx D H E A := λ _, Err (TxError e).
Definition tx_panic {A} (w : string) : Tx D H E A := λ _, Panic w.
(** [WriteTransactionCtx::on_commit] *)
Definition on_commit (h : H) : Tx D H E () := λ s, Ok ((), MkTx (tx_db s) (tx_hooks s ++ [h])).
End Ops.

(** [map_err(|e| e.map(f))], [map_err(DbTxError::tx_into)] *)
Definition tx_into {D H E E2 A} (f : E → E2) (m : Tx D H E A) : Tx D H E2 A := λ s,
  map_err (dbtx_error_map f) (m s).

(** ** Running transactions *)
Section Run.
Context {D H W E A : Type} (run_hook : W → H → W).

(** [WriteTransactionCtx::commit]: the working copy becomes the database and the
    hooks run on the state they act on. *)
Definition commit (s : TxState D H) (w : W) : D * W :=
  (tx_db s, foldl run_hook w (tx_hooks s)).

(** [Database::write_with_inner_falliable]: the result, and the database and
    the state the hooks act on afterwards. *)
Definition write_with_inner_falliable (f : Tx D H E A) (dw : D * W) :
    outcome (DbTxError E) A * (D * W) :=
  match f (MkTx dw.1 []) with
  | Ok (a, s) => (Ok a, commit s dw.2)
  | Err e => (Err e, dw)
  | Panic w => (Panic w, dw)
  end.

(** [Database::write_with_expect_falliable]: a database error ends the process. *)
Definition write_with_expect_falliable (f : Tx D H E A) (dw : D * W) : outcome E A * (D * W) :=
  match write_with_inner_falliable f dw with
  | (Ok a, dw') => (Ok a, dw')
  | (Err (DbErr _), dw') => (Panic "Database error", dw')
  | (Err (TxError e), dw') => (Err e, dw')
  | (Panic w, dw') => (Panic w, dw')
  end.

(** [Database::read_with_inner_falliable], [read_with_expect_falliable] *)
Definition read_with_inner_falliable (f : Rd D E A) (d : D) : outcome (DbTxError E) A := f d.
Definition read_with_expect (f : Rd D E A) (d : D) : outcome E A :=
  match read_with_inner_falliable f d with
  | Ok a => Ok a
  | Err (TxError e) => Err e
  | Err (DbErr _) => Panic "Fatal database error"
  | Panic w => Panic w
  end.

Lemma rd_bind_Ok {B} (m : Rd D E A) (g : A → Rd D E B) d b :
  (m ≫= g) d = Ok b ↔ ∃ a, m d = Ok a ∧ g a d = Ok b.
Proof. unfold mbind, rd_bind. destruct (m d); naive_solver. Qed.

Lemma read_with_expect_Ok (f : Rd D E A) d a : read_with_expect f d = Ok a ↔ f d = Ok a.
Proof. unfold read_with_expect, read_with_inner_falliable. destruct (f d) as [|[]|]; naive_solver. Qed.

(** Whatever does not succeed leaves no trace. *)
Lemma write_rolls_back f dw o dw' :
  write_with_expect_falliable f dw = (o, dw') → (∀ a, o ≠ Ok a) → dw' = dw.
Proof.
  unfold write_with_expect_falliable, write_with_inner_falliable. destruct (f _) as [[a s]|[e|e]|w]; intros [= <- <-] Hn;
    [by destruct (Hn a)|done..].
Qed.
End Run.

(** ** Reasoning about transactions

    [wp np m Q s]: run in [s], [m] does not crash when [np] is set, and when
    it succeeds its result and the state it leaves satisfy [Q].  (An error is
    allowed: the transaction is then rolled back.) *)
Section Wp.
Context {D H : Type}.
Implicit Types (np : bool).

Definition wp {E A} np (m : Tx D H E A) (Q : A → TxState D H → Prop) (s : TxState D H) : Prop :=
  match m s with
  | Ok (a, s') => Q a s'
  | Err (TxError _) => True
  | Err (DbErr _) | Panic _ => np = false
  end.

(** A database error ends the process too, see [write_with_expect_falliable]. *)
Definition crashes {E A} (o : outcome (DbTxError E) A) : Prop :=
  match o with Err (DbErr _) | Panic _ => True | _ => False end.

Lemma wp_elim {E A} np (m : Tx D H E A) (Q : A → TxState D H → Prop) s a s' : wp np m Q s → m s = Ok (a, s') → Q a s'.
Proof. unfold wp. intros Hwp Hm. by rewrite Hm in Hwp. Qed.

Lemma wp_mono {E A} np (m : Tx D H E A) (Q Q' : A → TxState D H → Prop) s :
  wp np m Q s → (∀ a s', Q a s' → Q' a s') → wp np m Q' s.
Proof. unfold wp. destruct (m s) as [[a s']|[]|]; auto. Qed.

Lemma wp_conj {E A} np (m : Tx D H E A) (Q Q' : A → TxState D H → Prop) s :
  wp np m Q s → wp false m Q' s → wp np m (λ a s', Q a s' ∧ Q' a s') s.
Proof. unfold wp. destruct (m s) as [[a s']|[]|]; auto. Qed.

Lemma wp_eq {E A} (m : Tx D H E A) (Q : A → TxState D H → Prop) s :
  (∀ a s', m s = Ok (a, s') → Q a s') → wp false m Q s.
Proof. unfold wp. intros Hm. destruct (m s) as [[a s']|[]|]; auto. Qed.

Lemma wp_any {E A} (m : Tx D H E A) (Q : A → TxState D H → Prop) s : (∀ a s', Q a s') → wp false m Q s.
Proof. unfold wp. intros HQ. by destruct (m s) as [[a s']|[]|]. Qed.

Lemma wp_weaken {E A} np (m : Tx D H E A) (Q : A → TxState D H → Prop) s :
  wp true m Q s → wp np m Q s.
Proof. unfold wp. destruct (m s) as [[a s']|[]|]; try done; by intros [=]. Qed.

Lemma wp_ret {E A} np (a : A) (Q : A → TxState D H → Prop) s : Q a s → wp (E:=E) np (mret a) Q s.
Proof. done. Qed.

Lemma wp_bind {E A B} np (m : Tx D H E A) (f : A → Tx D H E B) (Q : B → TxState D H → Prop) s :
  wp np m (λ a s', wp np (f a) Q s') s → wp np (m ≫= f) Q s.
Proof. unfold wp, mbind, tx_bind. by destruct (m s) as [[a s']|[]|]. Qed.

Lemma wp_bind_inv {E A B} np (m : Tx D H E A) (f : A → Tx D H E B) (Q : B → TxState D H → Prop) s :
  wp np (m ≫= f) Q s → wp np m (λ a s', wp np (f a) Q s') s.
Proof. unfold wp, mbind, tx_bind. by destruct (m s) as [[a s']|[]|]. Qed.

Lemma wp_read {E A} np (m : Rd D E A) (Q : A → TxState D H → Prop) s :
  (∀ a, m (tx_db s) = Ok a → Q a s) → (np = true → ¬ crashes (m (tx_db s))) →
  wp np (tx_read m) Q s.
Proof.
  unfold wp, tx_read. intros Hok Hp.
  destruct (m (tx_db s)) as [a|[]|w] eqn:Hm; auto; (destruct np; [|done]); by destruct (Hp eq_refl).
Qed.

Lemma wp_get {E A} np (f : D → A) (Q : A → TxState D H → Prop) s :
  Q (f (tx_db s)) s → wp (E:=E) np (tx_read (rd_get f)) Q s.
Proof. done. Qed.

Lemma wp_lift {E A} np (o : outcome E A) (Q : A → TxState D H → Prop) s :
  (∀ a, o = Ok a → Q a s) → (np = true → ∀ w, o ≠ Panic w) → wp np (tx_lift o) Q s.
Proof.
  unfold wp, tx_lift, tx_read, rd_lift. intros Hok Hp. destruct o; simpl; auto.
  destruct np; [|done]. by destruct (Hp eq_refl why).
Qed.

Lemma wp_lift_map_err {E E' A} np (f : E' → E) (o : outcome E' A) (Q : A → TxState D H → Prop) s :
  (∀ a, o = Ok a → Q a s) → (np = true → ∀ w, o ≠ Panic w) → wp np (tx_lift (map_err f o)) Q s.
Proof.
  intros Hok Hp. apply wp_lift; destruct o; simpl; try done; [naive_solver|].
  intros Hnp w [= ->]. by apply (Hp Hnp w).
Qed.

Lemma wp_fail_if {E} np b (e : E) (Q : () → TxState D H → Prop) s :
  (b = false → Q () s) → wp np (tx_lift (fail_if b e)) Q s.
Proof. intros HQ. apply wp_lift; [|by destruct b]. intros [] Hb. apply HQ. by destruct b. Qed.

Lemma wp_fail {E A} np (e : E) (Q : A → TxState D H → Prop) s : wp np (tx_fail e) Q s.
Proof. done. Qed.

Lemma wp_panic {E A} np w (Q : A → TxState D H → Prop) s : np = false → wp (E:=E) np (tx_panic w) Q s.
Proof. done. Qed.

Lemma wp_modify {E} np (f : D → D) (Q : () → TxState D H → Prop) s :
  Q () (MkTx (f (tx_db s)) (tx_hooks s)) → wp (E:=E) np (tx_modify f) Q s.
Proof. done. Qed.

Lemma wp_on_commit {E} np h (Q : () → TxState D H → Prop) s :
  Q () (MkTx (tx_db s) (tx_hooks s ++ [h])) → wp (E:=E) np (on_commit h) Q s.
Proof. done. Qed.

Lemma wp_into {E E2 A} np (f : E → E2) (m : Tx D H E A) (Q : A → TxState D H → Prop) s :
  wp np m Q s → wp np (tx_into f m) Q s.
Proof. unfold wp, tx_into. by destruct (m s) as [[a s']|[]|]. Qed.

(** What a transaction keeps: the successful runs of [wp]. *)
Lemma wp_run {W E A} (run_hook : W → H → W) np (f : Tx D H E A) Q d w :
  wp np f Q (MkTx d []) →
  match write_with_expect_falliable run_hook f (d, w) with
  | (Ok a, (d', w')) => ∃ hooks, w' = foldl run_hook w hooks ∧ Q a (MkTx d' hooks)
  | (Err e, dw') => dw' = (d, w)
  | (Panic m, dw') => dw' = (d, w) ∧ np = false
  end.
Proof.
  unfold wp, write_with_expect_falliable, write_with_inner_falliable. simpl.
  destruct (f (MkTx d [])) as [[a [d' hooks]]|[e|e]|w']; simpl; try done. by eauto.
Qed.
End Wp.
Global Opaque wp.

Create HintDb wp discriminated.
(** One step of symbolic execution of a transaction. *)
Ltac wp_step :=
  lazymatch goal with
  | |- wp _ (mbind _ _) _ _ => apply wp_bind
  | |- wp _ (mret _) _ _ => apply wp_ret
  | |- wp _ (tx_fail _) _ _ => apply wp_fail
  | |- wp _ (tx_read (rd_get _)) _ _ => apply wp_get
  | |- wp _ (tx_modify _) _ _ => apply wp_modify
  | |- wp _ (on_commit _) _ _ => apply wp_on_commit
  | |- wp _ (tx_into _ _) _ _ => apply wp_into
  | |- wp _ (let _ := _ in _) _ _ => cbv zeta
  end.

(** ** Invariants of transactions

    [keeps P m]: a run of [m] that succeeds keeps [P] of the database.  The
    lemmas follow the structure of [m], and need nothing of its result. *)
Section Keeps.
Context {D H : Type}.

Definition keeps {E A} (P : D → Prop) (m : Tx D H E A) : Prop :=
  ∀ s, P (tx_db s) → wp false m (λ _ s', P (tx_db s')) s.

Implicit Types (P : D → Prop).

Lemma keeps_ret {E A} P (a : A) : keeps (E:=E) P (mret a).
Proof. by intros s Hs. Qed.
Lemma keeps_bind {E A B} P (m : Tx D H E A) (f : A → Tx D H E B) :
  keeps P m → (∀ a, keeps P (f a)) → keeps P (m ≫= f).
Proof. intros Hm Hf s Hs. apply wp_bind. eapply wp_mono; [by apply Hm|]. intros a s' Hs'. by apply Hf. Qed.
Lemma keeps_read {E A} P (m : Rd D E A) : keeps P (tx_read m).
Proof. intros s Hs. by apply wp_read. Qed.
Lemma keeps_lift {E A} P (o : outcome E A) : keeps P (tx_lift o).
Proof. apply keeps_read. Qed.
Lemma keeps_fail {E A} P (e : E) : keeps P (tx_fail (A:=A) e).
Proof. intros s _. apply wp_fail. Qed.
Lemma keeps_panic {E A} P w : keeps P (tx_panic (E:=E) (A:=A) w).
Proof. intros s _. by apply wp_panic. Qed.
Lemma keeps_on_commit {E} P h : keeps (E:=E) P (on_commit h).
Proof. intros s Hs. by apply wp_on_commit. Qed.
Lemma keeps_modify {E} P f : (∀ d, P d → P (f d)) → keeps (E:=E) P (tx_modify f).
Proof. intros Hf s Hs. apply wp_modify. by apply Hf. Qed.
Lemma keeps_into {E E2 A} P (f : E → E2) (m : Tx D H E A) : keeps P m → keeps P (tx_into f m).
Proof. intros Hm s Hs. apply wp_into. by apply Hm. Qed.
End Keeps.
Create HintDb keeps discriminated.
#[export] Hint Resolve keeps_ret keeps_read keeps_lift keeps_fail keeps_panic keeps_on_commit keeps_into : keeps.

(** Follow the structure of a transaction; what remains are the updates. *)
Ltac keeps_step :=
  match goal with
  | |- keeps _ (mbind _ _) => apply keeps_bind; [|intros]
  | |- keeps _ (let _ := _ in _) => cbv zeta
  | |- keeps _ (match ?x with _ => _ end) => destruct x
  | |- keeps _ _ => solve [auto with keeps]
  | |- keeps _ (tx_into _ _) => apply keeps_into
  | |- keeps _ (tx_modify _) => apply keeps_modify; try done
  end.

(** The hooks of a transaction: [adds R m] when a run of [m] that succeeds only
    adds hooks that satisfy [R]. *)
Section Adds.
Context {D H : Type}.

Definition adds {E A} (R : H → Prop) (m : Tx D H E A) : Prop :=
  ∀ s, Forall R (tx_hooks s) → wp false m (λ _ s', Forall R (tx_hooks s')) s.

Implicit Types (R : H → Prop).

Lemma adds_ret {E A} R (a : A) : adds (E:=E) R (mret a).
Proof. by intros s Hs. Qed.
Lemma adds_bind {E A B} R (m : Tx D H E A) (f : A → Tx D H E B) :
  adds R m → (∀ a, adds R (f a)) → adds R (m ≫= f).
Proof. intros Hm Hf s Hs. apply wp_bind. eapply wp_mono; [by apply Hm|]. intros a s' Hs'. by apply Hf. Qed.
Lemma adds_read {E A} R (m : Rd D E A) : adds R (tx_read m).
Proof. intros s Hs. by apply wp_read. Qed.
Lemma adds_lift {E A} R (o : outcome E A) : adds R (tx_lift o).
Proof. apply adds_read. Qed.
Lemma adds_fail {E A} R (e : E) : adds R (tx_fail (A:=A) e).
Proof. intros s _. apply wp_fail. Qed.
Lemma adds_panic {E A} R w : adds R (tx_panic (E:=E) (A:=A) w).
Proof. intros s _. by apply wp_panic. Qed.
Lemma adds_on_commit {E} R h : R h → adds (E:=E) R (on_commit h).
Proof. intros Hh s Hs. apply wp_on_commit, Forall_app_2; [done|by constructor]. Qed.
Lemma adds_modify {E} R f : adds (E:=E) R (tx_modify f).
Proof. intros s Hs. by apply wp_modify. Qed.
Lemma adds_into {E E2 A} R (f : E → E2) (m : Tx D H E A) : adds R m → adds R (tx_into f m).
Proof. intros Hm s Hs. apply wp_into. by apply Hm. Qed.
End Adds.
#[export] Hint Resolve adds_ret adds_read adds_lift adds_fail adds_panic adds_modify adds_into : keeps.

Ltac adds_step :=
  match goal with
  | |- adds _ (mbind _ _) => apply adds_bind; [|intros]
  | |- adds _ (let _ := _ in _) => cbv zeta
  | |- adds _ (match ?x with _ => _ end) => destruct x
  | |- adds _ _ => solve [auto with keeps]
  | |- adds _ (on_commit _) => apply adds_on_commit; try done
  end.

(** Hooks are never taken back: [tells h m] when [m] keeps the hook [h]. *)
Section Tells.
Context {D H : Type}.

Definition tells {E A} (h : H) (m : Tx D H E A) : Prop :=
  ∀ s, h ∈ tx_hooks s → wp false m (λ _ s', h ∈ tx_hooks s') s.

Implicit Types (h : H).

Lemma tells_ret {E A} h (a : A) : tells (E:=E) h (mret a).
Proof. by intros s Hs. Qed.
Lemma tells_bind {E A B} h (m : Tx D H E A) (f : A → Tx D H E B) :
  tells h m → (∀ a, tells h (f a)) → tells h (m ≫= f).
Proof. intros Hm Hf s Hs. apply wp_bind. eapply wp_mono; [by apply Hm|]. intros a s' Hs'. by apply Hf. Qed.
Lemma tells_read {E A} h (m : Rd D E A) : tells h (tx_read m).
Proof. intros s Hs. by apply wp_read. Qed.
Lemma tells_lift {E A} h (o : outcome E A) : tells h (tx_lift o).
Proof. apply tells_read. Qed.
Lemma tells_fail {E A} h (e : E) : tells h (tx_fail (A:=A) e).
Proof. intros s _. apply wp_fail. Qed.
Lemma tells_panic {E A} h w : tells h (tx_panic (E:=E) (A:=A) w).
Proof. intros s _. by apply wp_panic. Qed.
Lemma tells_on_commit {E} h h' : tells (E:=E) h (on_commit h').
Proof. intros s Hs. apply wp_on_commit, elem_of_app. by left. Qed.
Lemma tells_modify {E} h f : tells (E:=E) h (tx_modify f).
Proof. intros s Hs. by apply wp_modify. Qed.
Lemma tells_into {E E2 A} h (f : E → E2) (m : Tx D H E A) : tells h m → tells h (tx_into f m).
Proof. intros Hm s Hs. apply wp_into. by apply Hm. Qed.

(** A hook that is added, whatever was done before. *)
Lemma wp_bind_any {E A B} (m : Tx D H E A) (f : A → Tx D H E B) (Q : B → TxState D H → Prop) s :
  (∀ a s', wp false (f a) Q s') → wp false (m ≫= f) Q s.
Proof. intros Hf. by apply wp_bind, wp_any. Qed.
Lemma wp_told {E B} h (f : () → Tx D H E B) s :
  (∀ a, tells h (f a)) → wp false (on_commit h ≫= f) (λ _ s', h ∈ tx_hooks s') s.
Proof. intros Hf. apply wp_bind, wp_on_commit, Hf. apply elem_of_app. right. by apply list_elem_of_singleton. Qed.
End Tells.
#[export] Hint Resolve tells_ret tells_read tells_lift tells_fail tells_panic tells_on_commit tells_modify tells_into : keeps.

Ltac tells_step :=
  match goal with
  | |- tells _ (mbind _ _) => apply tells_bind; [|intros]
  | |- tells _ (let _ := _ in _) => cbv zeta
  | |- tells _ (match ?x with _ => _ end) => destruct x
  | |- tells _ _ => solve [auto with keeps]
  | |- tells _ (tx_into _ _) => apply tells_into
  end.

(** The steps of a transaction that are known to succeed. *)
Section Runs.
Context {D H : Type}.

Lemma tx_bind_run {E A B} (m : Tx D H E A) (f : A → Tx D H E B) s a s' :
  m s = Ok (a, s') → (m ≫= f) s = f a s'.
Proof. unfold mbind, tx_bind. by intros ->. Qed.
Lemma tx_read_run {E A B} (m : Rd D E A) (f : A → Tx D H E B) s a :
  m (tx_db s) = Ok a → (tx_read m ≫= f) s = f a s.
Proof. intros Hm. apply tx_bind_run. unfold tx_read. by rewrite Hm. Qed.
Lemma tx_lift_run {E A B} (o : outcome E A) (f : A → Tx D H E B) s a :
  o = Ok a → (tx_lift o ≫= f) s = f a s.
Proof. intros ->. by apply tx_bind_run. Qed.
Lemma tx_fail_if_run {E B} b (e : E) (f : () → Tx D H E B) s :
  b = false → (tx_lift (fail_if b e) ≫= f) s = f () s.
Proof. intros ->. by apply tx_lift_run. Qed.
End Runs.

(** Transactions that never return an error; they may still crash. *)
Section NoError.
Context {D H : Type}.

Definition no_error {E A} (m : Tx D H E A) : Prop := ∀ s e, m s ≠ Err e.

Lemma no_error_bind {E A B} (m : Tx D H E A) (f : A → Tx D H E B) :
  no_error m → (∀ a, no_error (f a)) → no_error (m ≫= f).
Proof.
  intros Hm Hf s e. unfold mbind, tx_bind. destruct (m s) as [[a s']|e'|w] eqn:Hs; [apply Hf|by destruct (Hm s e')|done].
Qed.
Lemma no_error_read {E A} (m : Rd D E A) : (∀ d e, m d ≠ Err e) → no_error (tx_read m).
Proof. intros Hm s e. unfold tx_read. destruct (m (tx_db s)) eqn:Hr; [done| |done]. by apply Hm in Hr. Qed.
Lemma no_error_get {E A} (f : D → A) : no_error (E:=E) (tx_read (rd_get f)).
Proof. by apply no_error_read. Qed.
Lemma no_error_lift {E A} (o : outcome E A) : (∀ e, o ≠ Err e) → no_error (tx_lift o).
Proof. intros Ho. apply no_error_read. intros d e. unfold rd_lift. destruct o as [|e'|]; cbn; [done| |done]. by destruct (Ho e'). Qed.
Lemma no_error_expect {E A} m (o : option A) : no_error (tx_lift (E:=E) (expect m o)).
Proof. apply no_error_lift. intros e. by destruct o. Qed.
Lemma no_error_index {E A} (l : list A) i : no_error (tx_lift (E:=E) (index l i)).
Proof. apply no_error_expect. Qed.
Lemma no_error_rassert {E} m b : no_error (tx_lift (E:=E) (rassert m b)).
Proof. apply no_error_lift. intros e. by destruct b. Qed.
Lemma no_error_ret {E A} (a : A) : no_error (E:=E) (mret a).
Proof. done. Qed.
Lemma no_error_panic {E A} w : no_error (tx_panic (E:=E) (A:=A) w).
Proof. done. Qed.
Lemma no_error_modify {E} f : no_error (E:=E) (tx_modify f).
Proof. done. Qed.
Lemma no_error_on_commit {E} h : no_error (E:=E) (on_commit h).
Proof. done. Qed.
End NoError.
#[export] Hint Resolve no_error_get no_error_expect no_error_index no_error_rassert no_error_ret no_error_panic no_error_modify
  no_error_on_commit : keeps.
Ltac no_error_step :=
  match goal with
  | |- no_error (mbind _ _) => apply no_error_bind; [|intros]
  | |- no_error (let _ := _ in _) => cbv zeta
  | |- no_error (match ?x with _ => _ end) => destruct x
  | |- no_error _ => solve [auto with keeps]
  end.
