(* ===== verification/Storage.v ===== *)
(** * Opening databases, and a storage that fails ([db/src/lib.rs], [db/src/error.rs])

    [Db] runs transactions on a storage that always works.  Here every call of
    redb and of the operating system may fail, and the errors are those of the
    source.  When nothing fails the transactions are those of [Db]; when something
    fails, a call returns an error without a hook having run. *)
From S2P Require Import Prelude Db.

(** [DbError]: the errors of the storage, and those of [Db.DbError]. *)
Inductive StorageError :=
  | SeDatabase
  | SeTransaction
  | SeJoin
  | SeCommit
  | SeIo
  | SeInvalidPath
  | SeOwn (e : DbError).
Abbreviation DbResult := (outcome StorageError).
(** [DbTxResult<T, E>] with these errors. *)
Inductive TxFailure (E : Type) :=
  | OfStorage (source : StorageError)
  | OfTx (source : E).
Arguments OfStorage {E} _.
Arguments OfTx {E} _.

(** [TryFrom<DbTxError<E>> for DbError] *)
Definition db_error_try_from {E} (value : TxFailure E) : outcome E StorageError :=
  match value with
  | OfStorage source => Ok source
  | OfTx source => Err source
  end.

(** ** Opening *)

(** What redb and the system answer: the directory above a path, whether it can
    be created, the database in a file (a new one when there is none; a panic in
    there is caught by the thread it runs in), and a database in memory. *)
Record System (Path D : Type) := MkSystem {
  parent : Path → option Path;
  create_dir_all : Path → bool;
  create : Path → outcome () D;
  create_in_memory : outcome () D;
}.
Arguments parent {Path D} _ _.
Arguments create_dir_all {Path D} _ _.
Arguments create {Path D} _ _.
Arguments create_in_memory {Path D} _.

Record Database (D : Type) := MkDatabase { inner : D; ephemeral : bool }.
Arguments MkDatabase {D} _ _.
Arguments inner {D} _.
Arguments ephemeral {D} _.

(** [spawn_blocking(..).await]: a panic of the closure is a [JoinError]. *)
Definition spawn_blocking {E A} (closure : outcome E A) : outcome () (outcome E A) :=
  match closure with
  | Panic _ => Err ()
  | o => Ok o
  end.
(** [context], for an error that carries only its kind. *)
Definition context {E A} (e : StorageError) (o : outcome E A) : DbResult A := map_err (λ _, e) o.

Section Open.
Context {Path D : Type} (sys : System Path D).

Definition open_inner (d : D) (ephemeral : bool) : DbResult (Database D) := Ok (MkDatabase d ephemeral).
Definition new_in_memory : DbResult (Database D) :=
  d ← context SeDatabase (create_in_memory sys);
  open_inner d true.
Definition open_file (path : Path) : DbResult (Database D) :=
  dir ← match parent sys path with Some dir => Ok dir | None => Err SeInvalidPath end;
  if create_dir_all sys dir then
    joined ← context SeJoin (spawn_blocking (create sys path));
    d ← context SeDatabase joined;
    open_inner d false
  else Err SeIo.
Definition is_ephemeral (db : Database D) : bool := ephemeral db.

(** Opening a database gives the database of the file, which is not ephemeral,
    or the error of the first step that fails; it never ends the process. *)
Theorem open_file_spec (path : Path) :
  match open_file path with
  | Ok db => is_ephemeral db = false ∧ create sys path = Ok (inner db) ∧
      ∃ dir, parent sys path = Some dir ∧ create_dir_all sys dir = true
  | Err SeInvalidPath => parent sys path = None
  | Err SeIo => ∃ dir, parent sys path = Some dir ∧ create_dir_all sys dir = false
  | Err SeJoin => ∃ why, create sys path = Panic why
  | Err SeDatabase => create sys path = Err ()
  | Err _ | Panic _ => False
  end.
Proof.
  unfold open_file. destruct (parent sys path) as [dir|] eqn:Hd; cbn; [|done].
  destruct (create_dir_all sys dir) eqn:Hc; cbn; [|eauto].
  destruct (create sys path) as [d|[]|why]; cbn; eauto.
Qed.
End Open.

(** ** Transactions *)

(** What redb answers while a transaction runs: whether it begins, and whether
    it commits; a commit that fails may have left the new tables or the old. *)
Record Answers := MkAnswers { begins : bool; commits : bool; written : bool }.
Definition works : Answers := MkAnswers true true true.

Section Transactions.
Context {D H W E A : Type} (run_hook : W → H → W) (ans : Answers).
Implicit Types (dw : D * W).

Definition own_error (e : DbTxError E) : TxFailure E :=
  match e with
  | DbErr source => OfStorage (SeOwn source)
  | TxError source => OfTx source
  end.

(** [read_with_inner_falliable], [read_with_expect_falliable] *)
Definition read_inner (f : Rd D E A) (d : D) : outcome (TxFailure E) A :=
  if begins ans then map_err own_error (f d) else Err (OfStorage SeTransaction).
Definition read_expect (f : Rd D E A) (d : D) : outcome E A :=
  match read_inner f d with
  | Ok a => Ok a
  | Err (OfTx e) => Err e
  | Err (OfStorage _) => Panic "Database error"
  | Panic w => Panic w
  end.

(** [write_with_inner_falliable]: the outcome, the stored tables, and the state
    the hooks act on. *)
Definition write_inner (f : Tx D H E A) dw : outcome (TxFailure E) A * (D * W) :=
  if begins ans then
    match f (MkTx dw.1 []) with
    | Ok (a, s) =>
        if commits ans then (Ok a, commit run_hook s dw.2)
        else (Err (OfStorage SeCommit), (if written ans then tx_db s else dw.1, dw.2))
    | Err e => (Err (own_error e), dw)
    | Panic w => (Panic w, dw)
    end
  else (Err (OfStorage SeTransaction), dw).
(** [write_with_expect_falliable] *)
Definition write_expect (f : Tx D H E A) dw : outcome E A * (D * W) :=
  match write_inner f dw with
  | (Ok a, dw') => (Ok a, dw')
  | (Err (OfTx e), dw') => (Err e, dw')
  | (Err (OfStorage _), dw') => (Panic "Database error", dw')
  | (Panic w, dw') => (Panic w, dw')
  end.

(** Hooks run when the transaction is stored and the call succeeds, and only
    then.  Whatever the storage answers, a write either succeeds, with the tables
    that its function left and its hooks run, in their order; or it fails without a
    hook having run, and then the tables are as before, unless it is the commit
    itself that failed. *)
Theorem hooks_only_after_commit (f : Tx D H E A) dw :
  match write_inner f dw with
  | (Ok a, (d', w')) => begins ans = true ∧ commits ans = true ∧
      ∃ s, f (MkTx dw.1 []) = Ok (a, s) ∧ d' = tx_db s ∧ w' = foldl run_hook dw.2 (tx_hooks s)
  | (Err e, (d', w')) => w' = dw.2 ∧ (d' = dw.1 ∨ e = OfStorage SeCommit ∧ ∃ a s, f (MkTx dw.1 []) = Ok (a, s) ∧ d' = tx_db s)
  | (Panic _, dw') => dw' = dw
  end.
Proof.
  destruct dw as [d w]. unfold write_inner. destruct (begins ans); [|by split; [|left]]. cbn.
  destruct (f (MkTx d [])) as [[a s]|e|why]; [|by split; [|left]|done].
  destruct (commits ans); cbn; [by split_and!; [..|exists s]|]. split; [done|].
  destruct (written ans); [right|by left]. split; [done|by exists a, s].
Qed.
(** A method that expects the storage to work ends the process when it does not,
    and passes on the errors of its function. *)
Theorem write_expect_spec (f : Tx D H E A) dw :
  match (write_expect f dw).1 with
  | Ok a => begins ans = true ∧ commits ans = true
  | Err e => begins ans = true ∧ f (MkTx dw.1 []) = Err (TxError e)
  | Panic _ => begins ans = false ∨ commits ans = false ∨ crashes (f (MkTx dw.1 []))
  end.
Proof.
  unfold write_expect, write_inner. destruct (begins ans); cbn; [|by left].
  destruct (f (MkTx dw.1 [])) as [[a s]|[source|source]|why]; cbn; [|by right; right|done|by right; right].
  destruct (commits ans); cbn; [done|by right; left].
Qed.
End Transactions.

(** [read_with], [write_with]: functions whose only errors are those of the
    database ([DbResult]), and [read_with_expect], [write_with_expect], where such an
    error ends the process. *)
Section Infallible.
Context {D H W A : Type} (run_hook : W → H → W) (ans : Answers).

Definition db_result {B} (o : outcome (TxFailure Empty_set) B) : outcome StorageError B :=
  map_err (λ e : TxFailure Empty_set, match db_error_try_from e with Ok source => source | Err e => match e : Empty_set with end | Panic _ => SeTransaction end) o.
Definition expect_db {B} (o : outcome StorageError B) : outcome Empty_set B :=
  match o with Ok a => Ok a | Err _ => Panic "Fatal database error" | Panic w => Panic w end.
Definition read_with (f : Rd D Empty_set A) (d : D) : outcome StorageError A := db_result (read_inner ans f d).
Definition write_with (f : Tx D H Empty_set A) (dw : D * W) : outcome StorageError A * (D * W) :=
  let '(o, dw') := write_inner run_hook ans f dw in (db_result o, dw').
Definition read_with_or_end (f : Rd D Empty_set A) (d : D) : outcome Empty_set A := expect_db (read_with f d).
Definition write_with_or_end (f : Tx D H Empty_set A) (dw : D * W) : outcome Empty_set A * (D * W) :=
  let '(o, dw') := write_with f dw in (expect_db o, dw').

(** A call that ends the process in place of an error succeeds only with the
    storage working: a write that returns is stored, and its hooks have run. *)
Theorem or_end_spec (f : Tx D H Empty_set A) (dw dw' : D * W) (a : A) :
  write_with_or_end f dw = (Ok a, dw') ↔
  begins ans = true ∧ commits ans = true ∧
  ∃ s, f (MkTx dw.1 []) = Ok (a, s) ∧ dw' = (tx_db s, foldl run_hook dw.2 (tx_hooks s)).
Proof.
  unfold write_with_or_end, write_with, write_inner. destruct (begins ans); [|naive_solver].
  destruct (f (MkTx dw.1 [])) as [[b s]|[e|[]]|why]; cbn; [|naive_solver..].
  destruct (commits ans); cbn; [|naive_solver]. split.
  - intros [= <- <-]. split_and!; [done..|]. by exists s.
  - intros (_ & _ & s' & [= <- <-] & ->). done.
Qed.
End Infallible.

(** With a storage that works the transactions are those of [Db]. *)
Theorem working_storage {D H W E A : Type} (run_hook : W → H → W) (f : Tx D H E A) (g : Rd D E A) (dw : D * W) :
  write_inner run_hook works f dw =
    (map_err own_error (write_with_inner_falliable run_hook f dw).1, (write_with_inner_falliable run_hook f dw).2) ∧
  write_expect run_hook works f dw = write_with_expect_falliable run_hook f dw ∧
  read_inner works g dw.1 = map_err own_error (read_with_inner_falliable g dw.1).
Proof.
  unfold write_inner, write_expect, write_inner, write_with_expect_falliable, write_with_inner_falliable,
    read_inner, read_with_inner_falliable. cbn.
  split_and!; [|by destruct (f _) as [[a s]|[]|why]|done]. by destruct (f _) as [[a s]|[]|why].
Qed.
