(* ===== verification/ConsDb.v ===== *)
(** * The consensus database ([consensus/src/tables.rs], [consensus/ctx.rs])

    The tables of the consensus and the queries and updates on them, the traits
    [ConsensusReadDbOps] and [ConsensusWriteDbOps].  A table of a single row,
    whose key is [()], is an option. *)
From S2P Require Import Prelude VoteSet Peers Core Db.

Record ConsDb := MkConsDb {
  cons_current_round : option BlockRound;
  cons_finality_consensus : option BlockRound;
  cons_finality_votes : gmap PeerPubkey BlockRound;
  cons_params_schedule : gmap BlockRound N;
  cons_params : gmap N ConsensusParams.t;
  cons_blocks_proposals : gmap BlockRound BlockHeader.t;
  cons_blocks_notarized : gmap BlockRound BlockHeader.t;
  cons_blocks_pinned : gmap BlockRound BlockHash;
  cons_blocks_payloads : gmap N Payload;
  cons_votes_block : gmap (BlockRound * PeerIdx) SignedVote;
  cons_votes_dummy : gmap (BlockRound * PeerIdx) Signature;
}.

Definition empty_db : ConsDb := MkConsDb None None ∅ ∅ ∅ ∅ ∅ ∅ ∅ ∅ ∅.

(** Writing one table. *)
Definition set_cons_current_round x (d : ConsDb) : ConsDb :=
  MkConsDb x (cons_finality_consensus d) (cons_finality_votes d) (cons_params_schedule d)
    (cons_params d) (cons_blocks_proposals d) (cons_blocks_notarized d) (cons_blocks_pinned d)
    (cons_blocks_payloads d) (cons_votes_block d) (cons_votes_dummy d).
Definition set_cons_finality_consensus x (d : ConsDb) : ConsDb :=
  MkConsDb (cons_current_round d) x (cons_finality_votes d) (cons_params_schedule d)
    (cons_params d) (cons_blocks_proposals d) (cons_blocks_notarized d) (cons_blocks_pinned d)
    (cons_blocks_payloads d) (cons_votes_block d) (cons_votes_dummy d).
Definition set_cons_finality_votes x (d : ConsDb) : ConsDb :=
  MkConsDb (cons_current_round d) (cons_finality_consensus d) x (cons_params_schedule d)
    (cons_params d) (cons_blocks_proposals d) (cons_blocks_notarized d) (cons_blocks_pinned d)
    (cons_blocks_payloads d) (cons_votes_block d) (cons_votes_dummy d).
Definition set_cons_params_schedule x (d : ConsDb) : ConsDb :=
  MkConsDb (cons_current_round d) (cons_finality_consensus d) (cons_finality_votes d) x
    (cons_params d) (cons_blocks_proposals d) (cons_blocks_notarized d) (cons_blocks_pinned d)
    (cons_blocks_payloads d) (cons_votes_block d) (cons_votes_dummy d).
Definition set_cons_params x (d : ConsDb) : ConsDb :=
  MkConsDb (cons_current_round d) (cons_finality_consensus d) (cons_finality_votes d)
    (cons_params_schedule d) x (cons_blocks_proposals d) (cons_blocks_notarized d)
    (cons_blocks_pinned d) (cons_blocks_payloads d) (cons_votes_block d) (cons_votes_dummy d).
Definition set_cons_blocks_proposals x (d : ConsDb) : ConsDb :=
  MkConsDb (cons_current_round d) (cons_finality_consensus d) (cons_finality_votes d)
    (cons_params_schedule d) (cons_params d) x (cons_blocks_notarized d)
    (cons_blocks_pinned d) (cons_blocks_payloads d) (cons_votes_block d) (cons_votes_dummy d).
Definition set_cons_blocks_notarized x (d : ConsDb) : ConsDb :=
  MkConsDb (cons_current_round d) (cons_finality_consensus d) (cons_finality_votes d)
    (cons_params_schedule d) (cons_params d) (cons_blocks_proposals d) x
    (cons_blocks_pinned d) (cons_blocks_payloads d) (cons_votes_block d) (cons_votes_dummy d).
Definition set_cons_blocks_pinned x (d : ConsDb) : ConsDb :=
  MkConsDb (cons_current_round d) (cons_finality_consensus d) (cons_finality_votes d)
    (cons_params_schedule d) (cons_params d) (cons_blocks_proposals d) (cons_blocks_notarized d)
    x (cons_blocks_payloads d) (cons_votes_block d) (cons_votes_dummy d).
Definition set_cons_blocks_payloads x (d : ConsDb) : ConsDb :=
  MkConsDb (cons_current_round d) (cons_finality_consensus d) (cons_finality_votes d)
    (cons_params_schedule d) (cons_params d) (cons_blocks_proposals d) (cons_blocks_notarized d)
    (cons_blocks_pinned d) x (cons_votes_block d) (cons_votes_dummy d).
Definition set_cons_votes_block x (d : ConsDb) : ConsDb :=
  MkConsDb (cons_current_round d) (cons_finality_consensus d) (cons_finality_votes d)
    (cons_params_schedule d) (cons_params d) (cons_blocks_proposals d) (cons_blocks_notarized d)
    (cons_blocks_pinned d) (cons_blocks_payloads d) x (cons_votes_dummy d).
Definition set_cons_votes_dummy x (d : ConsDb) : ConsDb :=
  MkConsDb (cons_current_round d) (cons_finality_consensus d) (cons_finality_votes d)
    (cons_params_schedule d) (cons_params d) (cons_blocks_proposals d) (cons_blocks_notarized d)
    (cons_blocks_pinned d) (cons_blocks_payloads d) (cons_votes_block d) x.

(** [PeerIdx::MIN], [PeerIdx::MAX] *)
Definition PeerIdx_MIN : PeerIdx := 0%N.
Definition PeerIdx_MAX : PeerIdx := 255%N.
(** The keys [&(round, PeerIdx::MIN)..=&(round, PeerIdx::MAX)] of a vote table. *)
Definition round_votes (round : BlockRound) : BlockRound * PeerIdx → bool :=
  rg_incl (round, PeerIdx_MIN) (round, PeerIdx_MAX).

Inductive InsertOutcome (T : Type) :=
  | Inserted
  | AlreadyPresent (t : T).
Global Arguments Inserted {T}.
Global Arguments AlreadyPresent {T} t.
Definition insert_outcome_map {T O} (f : T → O) (o : InsertOutcome T) : InsertOutcome O :=
  match o with Inserted => Inserted | AlreadyPresent t => AlreadyPresent (f t) end.

(** ** [ConsensusReadDbOps] *)
Section Read.
Context {E : Type}.
Implicit Types (round : BlockRound) (d : ConsDb).

Definition get_current_round : Rd ConsDb E BlockRound :=
  rd_get (λ d, default 0%N (cons_current_round d)).
Definition get_vote_dummy round (peer_idx : PeerIdx) : Rd ConsDb E (option Signature) :=
  rd_get (λ d, cons_votes_dummy d !! (round, peer_idx)).
Definition get_vote_block round (peer_idx : PeerIdx) : Rd ConsDb E (option SignedVote) :=
  rd_get (λ d, cons_votes_block d !! (round, peer_idx)).
Definition get_peers_with_proposal_votes round : Rd ConsDb E VoteSet.VoteSet :=
  rd_get (λ d, foldl (λ s kv, VoteSet.insert s kv.1.2) VoteSet.default
                 (range (round_votes round) (cons_votes_block d))).
Definition get_peers_with_dummy_votes round : Rd ConsDb E VoteSet.VoteSet :=
  rd_get (λ d, foldl (λ s kv, VoteSet.insert s kv.1.2) VoteSet.default
                 (range (round_votes round) (cons_votes_dummy d))).
Definition get_consensus_params_opt round : Rd ConsDb E (option ConsensusParams.t) :=
  h ← rd_get (λ d, range_last (rg_to_incl round) (cons_params_schedule d));
  match h with
  | None => mret None
  | Some (_, hash) =>
      params ← rd_expect "Must always have params for a given hash" (λ d, cons_params d !! hash);
      mret (Some params)
  end.
Definition get_consensus_params round : Rd ConsDb E ConsensusParams.t :=
  p ← get_consensus_params_opt round;
  rd_expect "Initialized consensus database must set consensus params for round 0" (λ _, p).
Definition has_pending_consensus_params_change round : Rd ConsDb E bool :=
  next ← rd_lift (round_next_expect round);
  rd_get (λ d, match range_first (rg_from next) (cons_params_schedule d) with
               | Some _ => true | None => false end).
Definition get_finality_consensus : Rd ConsDb E (option BlockRound) :=
  rd_get cons_finality_consensus.
Definition get_finality_vote (peer_pubkey : PeerPubkey) : Rd ConsDb E (option BlockRound) :=
  rd_get (λ d, cons_finality_votes d !! peer_pubkey).
Definition get_block_payload (payload_hash : N) : Rd ConsDb E (option Payload) :=
  rd_get (λ d, cons_blocks_payloads d !! payload_hash).
Definition get_proposal round : Rd ConsDb E (option BlockHeader.t) :=
  v ← rd_get (λ d, cons_blocks_proposals d !! round);
  match v with
  | Some v => _ ← rd_lift (rassert "assertion failed: v.round == round" (BlockHeader.round v =? round)%N);
              mret (Some v)
  | None => mret None
  end.
Definition has_notarized_non_dummy_block round : Rd ConsDb E bool :=
  rd_get (λ d, match cons_blocks_notarized d !! round with Some _ => true | None => false end).
Definition get_notarized_block round : Rd ConsDb E (option BlockHeader.t) :=
  rd_get (λ d, cons_blocks_notarized d !! round).
Definition get_pinned_block round : Rd ConsDb E (option BlockHash) :=
  rd_get (λ d, cons_blocks_pinned d !! round).
Definition prev_notarized round d : option BlockHeader.t :=
  snd <$> range_last (rg_to round) (cons_blocks_notarized d).
Definition get_prev_notarized_block round : Rd ConsDb E (option BlockHeader.t) :=
  rd_get (prev_notarized round).
Definition get_next_notarized_block round : Rd ConsDb E (option BlockHeader.t) :=
  rd_get (λ d, snd <$> range_first (rg_from round) (cons_blocks_notarized d)).
Definition num_votes_dummy round d : N :=
  N.of_nat (length (range (round_votes round) (cons_votes_dummy d))).
Definition get_num_votes_dummy round : Rd ConsDb E N := rd_get (num_votes_dummy round).
Definition num_votes_proposal round d : N :=
  N.of_nat (length (range (round_votes round) (cons_votes_block d))).
Definition get_num_votes_proposal round : Rd ConsDb E N := rd_get (num_votes_proposal round).
Definition get_votes_dummy round : Rd ConsDb E (list (PeerIdx * Signature)) :=
  rd_get (λ d, (λ kv, (kv.1.2, kv.2)) <$> range (round_votes round) (cons_votes_dummy d)).
Definition get_votes_proposal round : Rd ConsDb E (list (PeerIdx * Signature)) :=
  rd_get (λ d, (λ kv, (kv.1.2, sig kv.2)) <$> range (round_votes round) (cons_votes_block d)).
End Read.

(** ** [ConsensusWriteDbOps] *)
Section Write.
Context `{Crypto} `{Bincode} {Hk E : Type}.
Implicit Types (round : BlockRound).

(** Delete the block votes of a round that are for another block. *)
Definition retain_matching_votes round (block : BlockHeader.t) (d : ConsDb) : ConsDb :=
  set_cons_votes_block
    (retain_in (rg_excl (round, PeerIdx_MIN) (round, PeerIdx_MAX))
       (λ _ vote, bool_decide (signed_inner vote = block)) (cons_votes_block d)) d.

(** The schedule entry is replaced even when one is present; the parameters
    themselves are stored only when there was none. *)
Definition insert_consensus_params round (params : ConsensusParams.t) :
    Tx ConsDb Hk E (InsertOutcome N) :=
  let hash := params_hash params in
  existing ← tx_read (rd_get (λ d, cons_params_schedule d !! round));
  _ ← tx_modify (λ d, set_cons_params_schedule (<[round := hash]> (cons_params_schedule d)) d);
  match existing with
  | Some existing => mret (AlreadyPresent existing)
  | None =>
      _ ← tx_modify (λ d, set_cons_params (<[hash := params]> (cons_params d)) d);
      mret Inserted
  end.

Definition insert_block_proposal round (block : BlockHeader.t) (payload : Payload) :
    Tx ConsDb Hk E (InsertOutcome BlockHeader.t) :=
  _ ← tx_lift (rassert "assertion failed: block.round == round" (BlockHeader.round block =? round)%N);
  existing ← tx_read (rd_get (λ d, cons_blocks_proposals d !! round));
  match existing with
  | Some existing => mret (AlreadyPresent existing)
  | None =>
      _ ← tx_modify (λ d, set_cons_blocks_proposals (<[round := block]> (cons_blocks_proposals d)) d);
      _ ← tx_modify (λ d, set_cons_blocks_payloads
                            (<[BlockHeader.payload_hash block := payload]> (cons_blocks_payloads d)) d);
      _ ← tx_modify (retain_matching_votes round block);
      mret Inserted
  end.

Definition update_finality_consensus round : Tx ConsDb Hk E (option BlockRound) :=
  prev ← tx_read (rd_get cons_finality_consensus);
  _ ← tx_modify (set_cons_finality_consensus (Some round));
  mret prev.

Definition prune_dummy_votes round : Tx ConsDb Hk E () :=
  tx_modify (λ d, set_cons_votes_dummy
    (retain_in (rg_excl (0%N, PeerIdx_MIN) (round, PeerIdx_MIN)) (λ _ _, false) (cons_votes_dummy d)) d).

Definition update_finality_vote (peer_pubkey : PeerPubkey) round :
    Tx ConsDb Hk E (option BlockRound) :=
  prev ← tx_read (rd_get (λ d, cons_finality_votes d !! peer_pubkey));
  _ ← tx_modify (λ d, set_cons_finality_votes (<[peer_pubkey := round]> (cons_finality_votes d)) d);
  mret prev.

Definition insert_notarized_block round (block : BlockHeader.t) (payload : option Payload) :
    Tx ConsDb Hk E (InsertOutcome BlockHeader.t) :=
  _ ← tx_lift (rassert "assertion failed: block.round == round" (BlockHeader.round block =? round)%N);
  _ ← tx_lift (rassert "assertion failed: !block.is_dummy()" (negb (is_dummy block)));
  existing ← tx_read (rd_get (λ d, cons_blocks_notarized d !! round));
  match existing with
  | Some existing => mret (AlreadyPresent existing)
  | None =>
      _ ← tx_modify (λ d, set_cons_blocks_notarized (<[round := block]> (cons_blocks_notarized d)) d);
      _ ← match payload with
          | Some payload => tx_modify (λ d, set_cons_blocks_payloads
              (<[BlockHeader.payload_hash block := payload]> (cons_blocks_payloads d)) d)
          | None => mret ()
          end;
      _ ← tx_modify (retain_matching_votes round block);
      mret Inserted
  end.

Definition insert_pinned_block round (hash : BlockHash) : Tx ConsDb Hk E (InsertOutcome BlockHash) :=
  existing ← tx_read (rd_get (λ d, cons_blocks_pinned d !! round));
  _ ← tx_modify (λ d, set_cons_blocks_pinned (<[round := hash]> (cons_blocks_pinned d)) d);
  mret match existing with Some e => AlreadyPresent e | None => Inserted end.

Definition delete_notarized_block round : Tx ConsDb Hk E () :=
  tx_modify (λ d, set_cons_blocks_notarized (delete round (cons_blocks_notarized d)) d).

Definition insert_dummy_vote round (peer_idx : PeerIdx) (vote : Signature) :
    Tx ConsDb Hk E (InsertOutcome Signature) :=
  existing ← tx_read (rd_get (λ d, cons_votes_dummy d !! (round, peer_idx)));
  _ ← tx_modify (λ d, set_cons_votes_dummy (<[(round, peer_idx) := vote]> (cons_votes_dummy d)) d);
  mret match existing with Some e => AlreadyPresent e | None => Inserted end.

Definition insert_block_vote round (peer_idx : PeerIdx) (vote : SignedVote) :
    Tx ConsDb Hk E (InsertOutcome SignedVote) :=
  existing ← tx_read (rd_get (λ d, cons_votes_block d !! (round, peer_idx)));
  _ ← tx_modify (λ d, set_cons_votes_block (<[(round, peer_idx) := vote]> (cons_votes_block d)) d);
  mret match existing with Some e => AlreadyPresent e | None => Inserted end.

Definition set_current_round round : Tx ConsDb Hk E () :=
  tx_modify (set_cons_current_round (Some round)).
End Write.
