(* ===== verification/Consensus.v ===== *)
(** * The consensus engine ([consensus/src/consensus.rs] and the files below
      [consensus/src/consensus/])

    [Consensus] owns a database and a few watch channels.  Every message is
    handled by one write transaction ([process_vote_response_tx],
    [process_notarized_block_response_tx],
    [process_finality_vote_update_response_tx]); what the outside may observe
    changes through the commit hooks, which are data here ([Hook]).

    Opening a table creates it when it is missing, so [init_tables_tx], which
    opens tables and drops them, has no counterpart: all tables of [ConsDb]
    exist from the start. *)
From S2P Require Import Prelude Peers Core Db ConsDb.

(** ** State *)

(** The values of the watch channels.  A channel of [()] carries only the
    notification, counted here. *)
Record Watches := MkWatches {
  current_round_with_timeout : BlockRound * bool;
  finality_consensus : BlockRound;
  finality_self_vote : BlockRound;
  new_votes : N;
  new_proposal : N;
}.

(** The closures given to [on_commit]. *)
Inductive Hook :=
  | NewProposalHook
  | NewVotesHook
  | FinalityConsensusHook (finality_cons : BlockRound)
  | FinalitySelfVoteHook (finality_self_vote : BlockRound)
  | RoundTimeoutHook (cur_round : BlockRound) (cur_round_needs_a_timeout : bool).

Definition run_hook (w : Watches) (h : Hook) : Watches :=
  match h with
  | NewProposalHook =>
      MkWatches (current_round_with_timeout w) (finality_consensus w) (finality_self_vote w)
        (new_votes w) (new_proposal w + 1)
  | NewVotesHook =>
      MkWatches (current_round_with_timeout w) (finality_consensus w) (finality_self_vote w)
        (new_votes w + 1) (new_proposal w)
  | FinalityConsensusHook f =>
      MkWatches (current_round_with_timeout w) f (finality_self_vote w) (new_votes w) (new_proposal w)
  | FinalitySelfVoteHook f =>
      MkWatches (current_round_with_timeout w) (finality_consensus w) f (new_votes w) (new_proposal w)
  | RoundTimeoutHook cur_round needs =>
      (* If we already had a timeout set, we should never revert *)
      let value := current_round_with_timeout w in
      if bool_decide (value.1 = cur_round ∧ value.2 = true) then w
      else MkWatches (cur_round, needs) (finality_consensus w) (finality_self_vote w)
             (new_votes w) (new_proposal w)
  end.

Record Consensus := MkConsensus {
  db : ConsDb;
  our_peer_pubkey : option PeerPubkey;
  watches : Watches;
}.

(** ** Errors *)
Inductive RoundInvariantError := PinnedMismatch.

Inductive ProcessVoteError :=
  | InvalidRound (expected received : BlockRound)
  | PvInvalidSignature
  | ForkedProposal (peer_idx : PeerIdx) (existing : BlockHeader.t)
  | ForkedSignature (peer_idx : PeerIdx) (existing : Signature)
  | VoteForADifferentProposal
  | NotALeader
  | Dummy
  | InvalidContent (source : VerifyWithContentError)
  | PvRoundInvariant (source : RoundInvariantError)
  | DoesNotExtend (prev : option BlockHeader.t).

Inductive ProcessNotarizedBlockError :=
  | InvalidSignatures (source : InvalidNotarizationError)
  | WrongRoundDummy
  | WrongRoundBlock (required received : BlockRound)
  | WrongParent
  | PnRoundInvariant (source : RoundInvariantError)
  | InvalidNotarizedContent (source : VerifyWithContentError).
Definition is_fatal (e : ProcessNotarizedBlockError) : bool :=
  match e with InvalidNotarizedContent _ => true | _ => false end.

Inductive ProcessFirstUnnotarizedUpdateError :=
  | PfInvalidSignatures (source : InvalidSignatureError).

Inductive InitError := AlreadyInitialized.
Inductive OpenError := NotInitialized.

Abbreviation CTx := (Tx ConsDb Hook).

Section Handlers.
Context `{Crypto} `{Bincode}.
(** [self.our_peer_pubkey] *)
Variable our_peer_pubkey : option PeerPubkey.
Implicit Types (cur_round : BlockRound).

(** *** Finality votes ([handle_finality_vote.rs]) *)
Definition recalculate_finality_consensus_tx {E} cur_round : CTx E () :=
  cur_round_consensus_params ← tx_read (get_consensus_params cur_round);
  votes ← tx_read (rd_get (λ d,
    (λ pk, default 0%N (cons_finality_votes d !! pk)) <$> ConsensusParams.peers cur_round_consensus_params));
  let votes := PeerSet.sort_unstable votes in
  num_peers ← tx_lift (NumPeers.to_num_peers (ConsensusParams.peers cur_round_consensus_params));
  finality_cons ← tx_lift (index votes (N.to_nat (NumPeers.max_faulty num_peers)));
  prev ← update_finality_consensus finality_cons;
  let prev_finality_cons := default 0%N prev in
  (* Just ignore the new, backward consensus *)
  let finality_cons :=
    if (finality_cons <? prev_finality_cons)%N then prev_finality_cons else finality_cons in
  if decide (prev_finality_cons = finality_cons) then mret ()
  else
    _ ← prune_dummy_votes finality_cons;
    on_commit (FinalityConsensusHook finality_cons).

Definition update_peer_finality_vote_round {E} cur_round (peer_pubkey : PeerPubkey)
    (finality_vote : BlockRound) : CTx E () :=
  prev_finality_vote_round ← update_finality_vote peer_pubkey finality_vote;
  match prev_finality_vote_round with
  | Some prev =>
      (* Peer's finality vote went backwards, or nothing changed *)
      if (finality_vote <? prev)%N then mret ()
      else if (finality_vote =? prev)%N then mret ()
      else recalculate_finality_consensus_tx cur_round
  | None => recalculate_finality_consensus_tx cur_round
  end.

Definition process_finality_vote_update_response_tx (peer_pubkey : PeerPubkey)
    (resp : WaitFinalityVoteResponse) : CTx ProcessFirstUnnotarizedUpdateError () :=
  cur_round ← tx_read get_current_round;
  _ ← tx_lift (map_err PfInvalidSignatures (verify_sig_peer_pubkey (update resp) peer_pubkey));
  update_peer_finality_vote_round cur_round peer_pubkey
    (finality_vote_round (signed_inner (update resp))).

(** *** The end of a round ([finish_round.rs]) *)

(** What the loop of [check_round_end] has found when it ends: the round it
    stops in, the last round it found a notarized block for, and whether the
    round needs a timeout. *)
Definition RoundEnd : Type := BlockRound * option BlockRound * bool.

(** The body of the loop after the proposal did not end the round: the dummy
    votes end it, or the loop breaks.  [continue] is the next iteration. *)
Definition check_dummy_votes
    (continue : BlockRound → option BlockRound → CTx RoundInvariantError RoundEnd)
    cur_round (new_last_notarized_round : option BlockRound) (consensus_param : ConsensusParams.t)
    (needs_a_timeout : bool) : CTx RoundInvariantError RoundEnd :=
  num_votes_dummy ← tx_read (get_num_votes_dummy cur_round);
  n ← tx_lift (num_peers consensus_param);
  if (NumPeers.threshold n <=? num_votes_dummy)%N then
    next ← tx_lift (round_next_expect cur_round);
    continue next new_last_notarized_round
  else
    (* Seems that enough peers wants the round to go on *)
    let needs_a_timeout := needs_a_timeout || (NumPeers.max_faulty n <? num_votes_dummy)%N in
    leader_idx ← tx_lift (leader_idx consensus_param cur_round);
    leader_vote ← tx_read (get_vote_dummy cur_round leader_idx);
    let needs_a_timeout :=
      needs_a_timeout || match leader_vote with Some _ => true | None => false end in
    mret (cur_round, new_last_notarized_round, needs_a_timeout).

(** The block pin of the round that was just left. *)
Definition check_pinned cur_round_start cur_round : CTx RoundInvariantError () :=
  if decide (cur_round_start = cur_round) then mret ()
  else
    prev_round ← tx_lift (expect "Can't underflow" (round_prev cur_round));
    pinned ← tx_read (get_pinned_block prev_round);
    match pinned with
    | None => mret ()
    | Some pinned_hash =>
        b ← tx_read (get_notarized_block prev_round);
        if decide (Some pinned_hash = hash <$> b) then mret () else tx_fail PinnedMismatch
    end.

Fixpoint check_round_end_loop (fuel : nat) cur_round_start
    (highest_notarized_block : option BlockHeader.t) cur_round
    (new_last_notarized_round : option BlockRound) : CTx RoundInvariantError RoundEnd :=
  match fuel with
  | O => tx_panic "loop bound of the model"
  | S fuel =>
      let continue := check_round_end_loop fuel cur_round_start highest_notarized_block in
      _ ← check_pinned cur_round_start cur_round;
      if match highest_notarized_block with
         | Some highest => (cur_round <=? BlockHeader.round highest)%N
         | None => false
         end
      then
        next ← tx_lift (round_next_expect cur_round);
        continue next (Some cur_round)
      else
        consensus_param ← tx_read (get_consensus_params cur_round);
        n ← tx_lift (num_peers consensus_param);
        proposal ← tx_read (get_proposal cur_round);
        match proposal with
        | Some proposal =>
            num_votes_proposal ← tx_read (get_num_votes_proposal cur_round);
            if (NumPeers.threshold n <=? num_votes_proposal)%N then
              _ ← insert_notarized_block cur_round proposal None;
              next ← tx_lift (round_next_expect cur_round);
              continue next (Some cur_round)
            else
              check_dummy_votes continue cur_round new_last_notarized_round consensus_param true
        | None =>
            check_dummy_votes continue cur_round new_last_notarized_round consensus_param false
        end
  end.

(** A bound on the iterations: each but the last leaves a round that is not
    above the highest notarized block, or has a proposal, or a dummy vote. *)
Definition check_round_end_fuel cur_round (d : ConsDb) : nat :=
  S (match prev_notarized BlockRound_MAX d with
     | Some highest => N.to_nat (BlockHeader.round highest + 1 - cur_round)
     | None => 0
     end + size (cons_blocks_proposals d) + size (cons_votes_dummy d)).

Definition check_round_end cur_round_start : CTx RoundInvariantError () :=
  highest_notarized_block ← tx_read (get_prev_notarized_block BlockRound_MAX);
  fuel ← tx_read (rd_get (check_round_end_fuel cur_round_start));
  res ← check_round_end_loop fuel cur_round_start highest_notarized_block cur_round_start None;
  let '(cur_round, new_last_notarized_round, cur_round_needs_a_timeout) := res in
  _ ← (if decide (cur_round_start = cur_round) then mret () else set_current_round cur_round);
  _ ← match new_last_notarized_round with
      | None => mret ()
      | Some new_last_notarized_round =>
          finality_self_vote ← tx_lift (round_next_expect new_last_notarized_round);
          _ ← on_commit (FinalitySelfVoteHook finality_self_vote);
          match our_peer_pubkey with
          | None => mret ()
          | Some our_peer_pubkey =>
              update_peer_finality_vote_round cur_round our_peer_pubkey finality_self_vote
          end
      end;
  if bool_decide (cur_round ≠ cur_round_start) || cur_round_needs_a_timeout then
    on_commit (RoundTimeoutHook cur_round cur_round_needs_a_timeout)
  else mret ().

(** *** Votes and proposals ([handle_vote.rs]) *)
Definition notify_new_votes {E} : CTx E () := on_commit NewVotesHook.

(** The checks of a proposal and its insertion; [None] when it was there
    already, and there is nothing more to do. *)
Definition process_proposal cur_round (peer_idx : PeerIdx) (consensus_params : ConsensusParams.t)
    (consensus_params_hash consensus_params_len : N) (block : Signed BlockHeader.t) (payload : Payload) :
    CTx ProcessVoteError (option SignedVote) :=
  leader ← tx_lift (leader_idx consensus_params cur_round);
  _ ← tx_lift (fail_if (bool_decide (leader ≠ peer_idx)) NotALeader);
  _ ← tx_lift (fail_if (is_dummy (signed_inner block)) Dummy);
  _ ← tx_lift (map_err InvalidContent
        (verify_with_content (signed_inner block) consensus_params_hash consensus_params_len payload));
  prev_block ← tx_read (get_prev_notarized_block cur_round);
  _ ← tx_lift (fail_if (negb (does_directly_extend (signed_inner block) prev_block)) (DoesNotExtend prev_block));
  outcome ← insert_block_proposal cur_round (signed_inner block) payload;
  match outcome with
  | AlreadyPresent existing =>
      if decide (existing = signed_inner block) then mret None
      else tx_fail (ForkedProposal peer_idx existing)
  | Inserted =>
      _ ← on_commit NewProposalHook;
      mret (Some block)
  end.

Definition process_vote cur_round (peer_idx : PeerIdx) (consensus_params : ConsensusParams.t)
    (consensus_params_hash consensus_params_len : N) (vote : SignedVote) : CTx ProcessVoteError () :=
  _ ← tx_lift (map_err (λ _, PvInvalidSignature)
        (verify_sig_peer_idx vote peer_idx (ConsensusParams.peers consensus_params)));
  vote_insert_outcome ←
    (if is_dummy (signed_inner vote) then
       _ ← tx_lift (map_err InvalidContent
             (verify_with_content (signed_inner vote) consensus_params_hash consensus_params_len []));
       insert_dummy_vote cur_round peer_idx (sig vote)
     else
       proposal ← tx_read (get_proposal cur_round);
       _ ← tx_lift (fail_if match proposal with
                            | Some proposal => bool_decide (proposal ≠ signed_inner vote)
                            | None => false
                            end VoteForADifferentProposal);
       o ← insert_block_vote cur_round peer_idx vote;
       mret (insert_outcome_map sig o));
  _ ← notify_new_votes;
  match vote_insert_outcome with
  | AlreadyPresent existing =>
      if decide (existing = sig vote) then mret () else tx_fail (ForkedSignature peer_idx existing)
  | Inserted => tx_into PvRoundInvariant (check_round_end cur_round)
  end.

Definition process_vote_response_tx (peer_idx : PeerIdx) (resp : WaitVoteResponse) :
    CTx ProcessVoteError () :=
  cur_round ← tx_read get_current_round;
  let received := BlockHeader.round (signed_inner (resp_block resp)) in
  _ ← tx_lift (fail_if (bool_decide (received ≠ cur_round)) (InvalidRound cur_round received));
  consensus_params ← tx_read (get_consensus_params cur_round);
  let consensus_params_hash := params_hash consensus_params in
  consensus_params_len ← tx_lift (params_len consensus_params);
  vote ← match resp with
         | Vote block => mret (Some block)
         | Proposal block payload =>
             process_proposal cur_round peer_idx consensus_params consensus_params_hash
               consensus_params_len block payload
         end;
  match vote with
  | None => mret ()
  | Some vote =>
      process_vote cur_round peer_idx consensus_params consensus_params_hash consensus_params_len vote
  end.

(** *** Notarized blocks ([handle_notarized_block.rs]) *)
Fixpoint insert_block_votes {E} (round : BlockRound) (block : BlockHeader.t)
    (l : list (PeerIdx * Signature)) : CTx E () :=
  match l with
  | [] => mret ()
  | (peer_idx, s) :: l' =>
      _ ← insert_block_vote round peer_idx (MkSigned block s);
      insert_block_votes round block l'
  end.
Fixpoint insert_dummy_votes {E} (round : BlockRound) (l : list (PeerIdx * Signature)) : CTx E () :=
  match l with
  | [] => mret ()
  | (peer_idx, s) :: l' =>
      _ ← insert_dummy_vote round peer_idx s;
      insert_dummy_votes round l'
  end.

(** [Consensus::insert_notarized_block] *)
Definition cons_insert_notarized_block {E} (block : Notarized BlockHeader.t) (payload : Payload) :
    CTx E () :=
  let inner := notarized_inner block in
  _ ← insert_notarized_block (BlockHeader.round inner) inner (Some payload);
  _ ← insert_block_votes (BlockHeader.round inner) inner (entries (sigs block));
  notify_new_votes.

Definition process_notarized_block_response_tx (resp : WaitNotarizedBlockResponse) :
    CTx ProcessNotarizedBlockError () :=
  let block := resp_notarized resp in
  let inner := notarized_inner block in
  let payload := resp_payload resp in
  cur_round ← tx_read get_current_round;
  block_round_consensus_params ← tx_read (get_consensus_params (BlockHeader.round inner));
  let params_hash := params_hash block_round_consensus_params in
  params_len ← tx_lift (params_len block_round_consensus_params);
  _ ← tx_lift (map_err InvalidSignatures (verify_sigs block block_round_consensus_params));
  _ ← tx_lift (map_err InvalidNotarizedContent (verify_with_content inner params_hash params_len payload));
  if is_dummy inner then
    _ ← tx_lift (fail_if (bool_decide (BlockHeader.round inner ≠ cur_round)) WrongRoundDummy);
    _ ← insert_dummy_votes cur_round (entries (sigs block));
    _ ← notify_new_votes;
    tx_into PnRoundInvariant (check_round_end cur_round)
  else
    our_latest_notarized_block ← tx_read (get_prev_notarized_block cur_round);
    let block_round := BlockHeader.round inner in
    let continue : CTx ProcessNotarizedBlockError () :=
      _ ← (if does_directly_extend inner our_latest_notarized_block then
         cons_insert_notarized_block block payload
       else
         our_latest_notarized_block_round ← tx_lift (expect "Must have latest notarized"
           (BlockHeader.round <$> our_latest_notarized_block));
         our_second_latest_notarized ← tx_read (get_prev_notarized_block our_latest_notarized_block_round);
         _ ← tx_lift (fail_if (negb (does_directly_extend inner our_second_latest_notarized)) WrongParent);
         _ ← delete_notarized_block our_latest_notarized_block_round;
         cons_insert_notarized_block block payload);
      tx_into PnRoundInvariant (check_round_end cur_round) in
    match our_latest_notarized_block with
    | Some our_latest =>
        if decide (block_round = BlockHeader.round our_latest) then
          if decide (our_latest = inner) then mret ()
          else tx_panic "Consensus failure: Two different notarized blocks at the same height"
        else if (block_round <=? BlockHeader.round our_latest)%N then
          tx_fail (WrongRoundBlock (BlockHeader.round our_latest) block_round)
        else continue
    | None => continue
    end.
End Handlers.

(** ** The methods of [Consensus] *)
Section Methods.
Context `{Crypto} `{Bincode}.
Implicit Types (self : Consensus).

(** One write transaction on the database of [self]. *)
Definition write_tx {E A} self (f : CTx E A) : outcome E A * Consensus :=
  match write_with_expect_falliable run_hook f (db self, watches self) with
  | (o, (d, w)) => (o, MkConsensus d (our_peer_pubkey self) w)
  end.
(** One read transaction; reads have no error of their own. *)
Definition read_tx {A} self (f : Rd ConsDb Empty_set A) : outcome Empty_set A :=
  read_with_expect f (db self).

Definition process_vote_response self (peer_idx : PeerIdx) (resp : WaitVoteResponse) :
    outcome ProcessVoteError () * Consensus :=
  write_tx self (process_vote_response_tx (our_peer_pubkey self) peer_idx resp).
Definition process_notarized_block_response self (peer_idx : PeerIdx)
    (resp : WaitNotarizedBlockResponse) : outcome ProcessNotarizedBlockError () * Consensus :=
  write_tx self (process_notarized_block_response_tx (our_peer_pubkey self) resp).
Definition process_finality_vote_update_response self (peer_pubkey : PeerPubkey)
    (resp : WaitFinalityVoteResponse) : outcome ProcessFirstUnnotarizedUpdateError () * Consensus :=
  write_tx self (process_finality_vote_update_response_tx peer_pubkey resp).

(** *** Initialisation ([init.rs]) *)
Definition init_tx (params : ConsensusParams.t) (pinned : option (BlockRound * BlockHash)) :
    CTx InitError BlockRound :=
  o ← insert_consensus_params 0%N params;
  _ ← match o with
      | AlreadyPresent existing =>
          tx_lift (fail_if (bool_decide (existing ≠ params_hash params)) AlreadyInitialized)
      | Inserted => mret ()
      end;
  _ ← match pinned with
      | Some (round, hash) =>
          tx_modify (λ d, set_cons_blocks_pinned (<[round := hash]> (cons_blocks_pinned d)) d)
      | None => mret ()
      end;
  tx_read get_current_round.

Definition open_tx : CTx OpenError BlockRound :=
  p ← tx_read (get_consensus_params_opt 0%N);
  match p with
  | None => tx_fail NotInitialized
  | Some _ => tx_read get_current_round
  end.

(** The initial values of the watch channels. *)
Definition open_watches {E} (cur_round : BlockRound) (d : ConsDb) : outcome E Watches :=
  finality_self ← match prev_notarized cur_round d with
                  | Some h => round_next_expect (BlockHeader.round h)
                  | None => Ok 0%N
                  end;
  Ok (MkWatches (cur_round, false) (default 0%N (cons_finality_consensus d)) finality_self 0 0).

Definition open_internal_tx (our_peer_pubkey : option PeerPubkey) (cur_round finality_self : BlockRound) :
    CTx RoundInvariantError () :=
  _ ← match our_peer_pubkey with
      | Some peer_pubkey => update_peer_finality_vote_round cur_round peer_pubkey finality_self
      | None => mret ()
      end;
  check_round_end our_peer_pubkey cur_round.

Definition open_internal {E} (cur_round : BlockRound) (d : ConsDb) (our_peer_pubkey : option PeerPubkey) :
    outcome E Consensus :=
  w ← open_watches cur_round d;
  let s := MkConsensus d our_peer_pubkey w in
  match write_tx s (open_internal_tx our_peer_pubkey cur_round (finality_self_vote w)) with
  | (Ok _, s') => Ok s'
  | (Err _, _) => Panic "Database should be in consistent state when opening"
  | (Panic m, _) => Panic m
  end.

(** [Consensus::init], [Consensus::open] on a database [d]. *)
Definition init (params : ConsensusParams.t) (d : ConsDb) (our_peer_pubkey : option PeerPubkey)
    (pinned : option (BlockRound * BlockHash)) : outcome InitError Consensus :=
  match write_with_expect_falliable run_hook (init_tx params pinned) (d, MkWatches (0%N, false) 0 0 0 0) with
  | (Ok current_round, (d', _)) => open_internal current_round d' our_peer_pubkey
  | (Err e, _) => Err e
  | (Panic m, _) => Panic m
  end.
Definition open (d : ConsDb) (our_peer_pubkey : option PeerPubkey) : outcome OpenError Consensus :=
  match write_with_expect_falliable run_hook open_tx (d, MkWatches (0%N, false) 0 0 0 0) with
  | (Ok cur_round, (d', _)) => open_internal cur_round d' our_peer_pubkey
  | (Err e, _) => Err e
  | (Panic m, _) => Panic m
  end.

(** *** Queries ([getters.rs]) *)
Definition get_current_round_timeout self : outcome Empty_set N :=
  let finality := finality_consensus (watches self) in
  let cur_round := (current_round_with_timeout (watches self)).1 in
  params ← read_tx self (get_consensus_params cur_round);
  n ← num_peers params;
  let finality_lag := default 0%N
    (checked_sub cur_round (wrapping_add u64_max finality (NumPeers.total n))) in
  let multiplier := N.shiftl 1 (N.min finality_lag 32) in
  let base_timeout_millis := 200%N in
  Ok (base_timeout_millis * multiplier)%N.

(** [WaitNotarizedBlockRequest]: the first notarized block from
    [min_notarized_round] on, or the dummy block of [cur_round] when it is
    notarized. *)
Definition get_notarized_block_resp_rd (req : WaitNotarizedBlockRequest) :
    Rd ConsDb Empty_set (option WaitNotarizedBlockResponse) :=
  block ← rd_get (λ d, snd <$> range_first (rg_from (min_notarized_round req)) (cons_blocks_notarized d));
  match block with
  | Some block =>
      payload ← rd_expect "Must have payload for every notarized block"
        (λ d, cons_blocks_payloads d !! BlockHeader.payload_hash block);
      votes_block ← get_votes_proposal (BlockHeader.round block);
      mret (Some (MkWaitNotarizedBlockResponse (notarized_new block votes_block) payload))
  | None =>
      consensus_params ← get_consensus_params (wn_cur_round req);
      votes_dummy ← get_votes_dummy (wn_cur_round req);
      n ← rd_lift (num_peers consensus_params);
      if (NumPeers.threshold n <=? N.of_nat (length votes_dummy))%N then
        block ← rd_lift (new_dummy (wn_cur_round req) consensus_params);
        mret (Some (MkWaitNotarizedBlockResponse (notarized_new block votes_dummy) []))
      else mret None
  end.
Definition get_notarized_block_resp self (req : WaitNotarizedBlockRequest) :
    outcome Empty_set (option WaitNotarizedBlockResponse) :=
  read_tx self (get_notarized_block_resp_rd req).

Definition get_vote_rd (round : BlockRound) (round_consensus_params : ConsensusParams.t)
    (peer_idx : PeerIdx) : Rd ConsDb Empty_set (option WaitVoteResponse) :=
  (* dummy votes are more important, as they are more "final" *)
  dummy ← get_vote_dummy round peer_idx;
  match dummy with
  | Some s =>
      b ← rd_lift (new_dummy round round_consensus_params);
      mret (Some (Vote (MkSigned b s)))
  | None =>
      block ← get_vote_block round peer_idx;
      match block with
      | None => mret None
      | Some block =>
          n ← rd_lift (num_peers round_consensus_params);
          leader ← rd_lift (block_round_leader_idx round n);
          if decide (peer_idx = leader) then
            payload ← get_block_payload (BlockHeader.payload_hash (signed_inner block));
            match payload with
            | None => mret None
            | Some payload => mret (Some (Proposal block payload))
            end
          else mret (Some (Vote block))
      end
  end.
Definition get_vote self round round_consensus_params peer_idx : outcome Empty_set (option WaitVoteResponse) :=
  read_tx self (get_vote_rd round round_consensus_params peer_idx).

(** The last notarized block up to [round], when [round] is final. *)
Definition get_finalized_block self (round : BlockRound) : outcome Empty_set (option (Notarized BlockHeader.t)) :=
  if (finality_consensus (watches self) <=? round)%N then Ok None
  else
    match round_next round with
    | None => Ok None
    | Some round_next =>
        read_tx self
          (b ← get_prev_notarized_block round_next;
           match b with
           | None => mret None
           | Some block =>
               votes_block ← get_votes_proposal (BlockHeader.round block);
               mret (Some (notarized_new block votes_block))
           end)
    end.

Definition get_current_round_and_params self : outcome Empty_set (BlockRound * ConsensusParams.t) :=
  read_tx self
    (round ← get_current_round;
     consensus_params ← get_consensus_params round;
     mret (round, consensus_params)).
(** [get_consensus_params], [get_round_params], [get_init_params] *)
Definition get_round_params self (round : BlockRound) : outcome Empty_set ConsensusParams.t :=
  read_tx self (get_consensus_params round).
Definition get_init_params self : outcome Empty_set ConsensusParams.t :=
  read_tx self (get_consensus_params 0%N).

(** Schedule new parameters; [watch_round] is the round in
    [current_round_with_timeout_tx]. *)
Definition consensus_params_change_tx {E} (watch_round : BlockRound) (round : BlockRound)
    (block_timestamp : N) (new_peer_set : list PeerPubkey) : CTx E () :=
  current_params ← tx_read (get_consensus_params round);
  prev_mid_block ← tx_read (get_prev_notarized_block (round_half round));
  new_consensus_params ← tx_lift (make_change current_params round block_timestamp new_peer_set
    ((λ b, (BlockHeader.round b, hash b)) <$> prev_mid_block));
  _ ← tx_lift (rassert "assertion failed: current round < apply_round"
        (watch_round <? ConsensusParams.apply_round new_consensus_params)%N);
  _ ← insert_consensus_params (ConsensusParams.apply_round new_consensus_params) new_consensus_params;
  mret ().

(** One row of [get_consensus_history]. *)
Definition history_signatories (p : ConsensusParams.t) (votes : list (PeerIdx * Signature)) : list PeerPubkey :=
  omap (λ v, ConsensusParams.peers p !! N.to_nat v.1) votes.
Definition history_entry (round : BlockRound) :
    Rd ConsDb Empty_set (BlockRound * option BlockHeader.t * list PeerPubkey) :=
  block ← get_notarized_block round;
  match block with
  | Some block_header =>
      votes ← get_votes_proposal round;
      consensus_params ← get_consensus_params round;
      mret (round, Some block_header, history_signatories consensus_params votes)
  | None =>
      dummy_votes ← get_votes_dummy round;
      consensus_params ← get_consensus_params round;
      mret (round, None, history_signatories consensus_params dummy_votes)
  end.
Fixpoint history_entries (rounds : list BlockRound) :
    Rd ConsDb Empty_set (list (BlockRound * option BlockHeader.t * list PeerPubkey)) :=
  match rounds with
  | [] => mret []
  | round :: rounds' =>
      e ← history_entry round;
      rest ← history_entries rounds';
      mret (e :: rest)
  end.
Definition get_consensus_history self (limit : N) :
    outcome Empty_set (list (BlockRound * option BlockHeader.t * list PeerPubkey)) :=
  read_tx self
    (current_round ← get_current_round;
     let start_round := if (limit <=? current_round)%N then (current_round - limit + 1)%N else 0%N in
     history ← history_entries
       ((λ i, start_round + N.of_nat i)%N <$> seq 0 (N.to_nat (current_round + 1 - start_round)));
     mret (reverse history)).
End Methods.
