(* ===== verification/ConsInv.v ===== *)
(** * The invariant of the consensus database

    What the comments of [tables.rs] promise, as a predicate on the database,
    and the lemmas that every update of [ConsDb] keeps it.  [DbInv] speaks of
    each table on its own; [RoundBounds] and [votes_match] relate the tables to
    the round the node is in; [Rest] is the state between two transactions. *)
From S2P Require Import Prelude Peers Core Db ConsDb.

Section Inv.
Context `{Crypto} `{Bincode}.
Implicit Types (d : ConsDb) (b : BlockHeader.t) (p : ConsensusParams.t) (r c : N).

(** ** Parameters of a round *)
Definition params_at d r : option ConsensusParams.t :=
  match range_last (rg_to_incl r) (cons_params_schedule d) with
  | Some (_, h) => cons_params d !! h
  | None => None
  end.

(** Parameters the consensus can run with: 1 to 255 distinct valid keys in
    order, and an encoding whose length fits in the header field. *)
Record params_wf p : Prop := {
  pwf_min : (1 ≤ length (ConsensusParams.peers p))%nat;
  pwf_max : (length (ConsensusParams.peers p) ≤ 255)%nat;
  pwf_set : PeerSet.wf (ConsensusParams.peers p);
  pwf_keys : Forall (λ pk, verifying_key_ok pk = true) (ConsensusParams.peers p);
  pwf_len : (N.of_nat (length (to_raw p)) ≤ u32_max)%N;
}.
Definition npeers p : N := N.of_nat (length (ConsensusParams.peers p)).

(** ** What the tables hold *)

(** A block that passed [verify_with_content] in its round, whose payload is
    stored. *)
Definition block_ok d r b : Prop :=
  BlockHeader.round b = r ∧ is_dummy b = false ∧ BlockHeader.header_version b = 0%N ∧
  (∃ p, params_at d r = Some p ∧
     BlockHeader.consensus_params_hash b = params_hash p ∧
     BlockHeader.consensus_params_len b = N.of_nat (length (to_raw p))) ∧
  is_Some (cons_blocks_payloads d !! BlockHeader.payload_hash b) ∧
  (∃ payload, blake3 payload = BlockHeader.payload_hash b ∧
     N.of_nat (length payload) = BlockHeader.payload_len b).

(** A vote for a block of its round, validly signed by its peer. *)
Definition vote_ok d r (i : PeerIdx) (v : SignedVote) : Prop :=
  BlockHeader.round (signed_inner v) = r ∧ is_dummy (signed_inner v) = false ∧
  ∃ p, params_at d r = Some p ∧
    sig_ok (sign_hash (signed_inner v)) (ConsensusParams.peers p) i (sig v) = true.

(** A dummy vote is a valid signature by its peer of some dummy header of the
    round with the right parameters; which timestamp and padding it has is not
    checked, and not stored. *)
Definition dummy_ok d r (i : PeerIdx) (s : Signature) : Prop :=
  ∃ hdr p, BlockHeader.round hdr = r ∧ is_dummy hdr = true ∧
    params_at d r = Some p ∧ BlockHeader.consensus_params_hash hdr = params_hash p ∧
    sig_ok (sign_hash hdr) (ConsensusParams.peers p) i s = true.

(** A notarized block has [threshold] votes in [cons_votes_block], and all the
    votes of its round there are for it. *)
Definition quorum d r b : Prop :=
  (∃ p, params_at d r = Some p ∧ (NumPeers.threshold (npeers p) ≤ num_votes_proposal r d)%N) ∧
  ∀ i v, cons_votes_block d !! (r, i) = Some v → signed_inner v = b.

Record DbInv d : Prop := {
  inv_params0 : is_Some (cons_params_schedule d !! 0%N);
  inv_params : ∀ r h, cons_params_schedule d !! r = Some h →
    ∃ p, cons_params d !! h = Some p ∧ params_hash p = h ∧ params_wf p;
  inv_payloads : ∀ h payload, cons_blocks_payloads d !! h = Some payload →
    blake3 payload = h ∧ (N.of_nat (length payload) ≤ u32_max)%N;
  inv_proposals : ∀ r b, cons_blocks_proposals d !! r = Some b → block_ok d r b;
  inv_notarized : ∀ r b, cons_blocks_notarized d !! r = Some b → block_ok d r b ∧ quorum d r b;
  inv_votes : ∀ r i v, cons_votes_block d !! (r, i) = Some v → vote_ok d r i v;
  inv_dummy : ∀ r i s, cons_votes_dummy d !! (r, i) = Some s → dummy_ok d r i s;
}.

(** Proposals are for rounds below [bp], notarized blocks below [bn], votes
    below [bv]. *)
Record RoundBounds (bp bn bv : N) d : Prop := {
  rb_proposals : ∀ r b, cons_blocks_proposals d !! r = Some b → (r < bp)%N;
  rb_notarized : ∀ r b, cons_blocks_notarized d !! r = Some b → (r < bn)%N;
  rb_votes : ∀ r i v, cons_votes_block d !! (r, i) = Some v → (r < bv)%N;
  rb_dummy : ∀ r i s, cons_votes_dummy d !! (r, i) = Some s → (r < bv)%N;
}.

(** The votes of round [c] are for its proposal. *)
Definition votes_match c d : Prop := ∀ b i v,
  cons_blocks_proposals d !! c = Some b → cons_votes_block d !! (c, i) = Some v → signed_inner v = b.

Definition cur_round_of d : N := default 0%N (cons_current_round d).

(** The proposal of round [c] has the votes of a quorum. *)
Definition proposal_quorum c d b : Prop :=
  cons_blocks_proposals d !! c = Some b ∧
  ∃ p, params_at d c = Some p ∧ (NumPeers.threshold (npeers p) ≤ num_votes_proposal c d)%N.

(** The database between two transactions: all that is known is about rounds
    up to the current one, and the current one has no notarized block yet. *)
Record Rest d : Prop := {
  rest_inv : DbInv d;
  rest_bounds : RoundBounds (cur_round_of d + 1) (cur_round_of d) (cur_round_of d + 1) d;
  rest_match : votes_match (cur_round_of d) d;
}.

(** ** Parameters *)
Lemma get_consensus_params_Ok {E} r d p :
  get_consensus_params (E:=E) r d = Ok p ↔ params_at d r = Some p.
Proof.
  unfold get_consensus_params, get_consensus_params_opt, params_at, mbind, rd_bind, rd_get, rd_expect.
  destruct (range_last _ _) as [[k h]|]; simpl; [|naive_solver].
  destruct (cons_params d !! h); simpl; naive_solver.
Qed.

Lemma params_at_wf d r : DbInv d → ∃ p, params_at d r = Some p ∧ params_wf p.
Proof.
  intros Hinv. unfold params_at.
  destruct (range_last (rg_to_incl r) (cons_params_schedule d)) as [[k h]|] eqn:Hr.
  - apply range_last_Some in Hr as (Hk & _ & _).
    destruct (inv_params d Hinv k h Hk) as (p & -> & _ & Hp). eauto.
  - destruct (inv_params0 d Hinv) as [h Hh].
    pose proof (proj1 (range_last_None _ _) Hr 0%N h Hh) as Hf.
    assert (rg_to_incl r 0%N = true) by (apply rg_to_incl_N; lia). congruence.
Qed.

Lemma get_consensus_params_inv {E} d r :
  DbInv d → ∃ p, get_consensus_params (E:=E) r d = Ok p ∧ params_at d r = Some p ∧ params_wf p.
Proof.
  intros Hinv. destruct (params_at_wf d r Hinv) as (p & Hp & Hwf). exists p.
  by rewrite get_consensus_params_Ok.
Qed.

Lemma num_peers_wf {E} p : params_wf p → num_peers (E:=E) p = Ok (npeers p).
Proof. intros Hwf. apply NumPeers.to_num_peers_ok, pwf_max, Hwf. Qed.

Lemma params_len_wf {E} p : params_wf p → params_len (E:=E) p = Ok (N.of_nat (length (to_raw p))).
Proof. intros Hwf. apply payload_len_of_ok, pwf_len, Hwf. Qed.

Lemma npeers_pos p : params_wf p → (1 ≤ npeers p ≤ 255)%N.
Proof. intros [? ? _ _ _]. unfold npeers. lia. Qed.

Lemma leader_idx_wf {E} p r : params_wf p →
  ∃ i, leader_idx (E:=E) p r = Ok i ∧ (i < npeers p)%N.
Proof.
  intros Hwf. unfold leader_idx. rewrite num_peers_wf by done. simpl.
  pose proof (npeers_pos p Hwf). unfold block_round_leader_idx. case_decide; [lia|].
  eexists. split; [done|]. apply N.mod_lt. lia.
Qed.

Lemma sig_ok_lt h p i s : sig_ok h (ConsensusParams.peers p) i s = true → (i < npeers p)%N.
Proof.
  unfold sig_ok, npeers. destruct (ConsensusParams.peers p !! N.to_nat i) eqn:Hi; [|done].
  apply lookup_lt_Some in Hi. lia.
Qed.

(** ** Votes of a round *)
Lemma round_votes_spec r (k : N * N) : round_votes r k = true ↔ k.1 = r ∧ (k.2 ≤ 255)%N.
Proof.
  unfold round_votes. rewrite rg_incl_pair. unfold pair_le, PeerIdx_MIN, PeerIdx_MAX. simpl. lia.
Qed.

Lemma retain_range_spec r (k : N * N) :
  rg_excl (r, PeerIdx_MIN) (r, PeerIdx_MAX) k = true ↔ k.1 = r ∧ (k.2 < 255)%N.
Proof. rewrite rg_excl_pair. unfold pair_le, PeerIdx_MIN, PeerIdx_MAX. simpl. lia. Qed.

Lemma num_votes_dummy_0 r d :
  (∀ i s, cons_votes_dummy d !! (r, i) ≠ Some s) → num_votes_dummy r d = 0%N.
Proof.
  intros Hno. unfold num_votes_dummy.
  assert (range (round_votes r) (cons_votes_dummy d) = []) as ->; [|done].
  apply range_nil. intros [r' i] s Hs. apply not_true_is_false.
  intros [Hr _]%round_votes_spec. simpl in Hr. subst. by apply (Hno i s).
Qed.

Lemma num_votes_proposal_ext r d d' :
  (∀ i, cons_votes_block d !! (r, i) = cons_votes_block d' !! (r, i)) →
  num_votes_proposal r d = num_votes_proposal r d'.
Proof.
  intros Heq. unfold num_votes_proposal. do 2 f_equal. apply range_ext.
  intros [r' i] [Hr _]%round_votes_spec. simpl in Hr. by subst.
Qed.

(** ** Updates that keep the invariant *)

Lemma num_votes_proposal_mono r d d' :
  (∀ i, is_Some (cons_votes_block d !! (r, i)) → is_Some (cons_votes_block d' !! (r, i))) →
  (num_votes_proposal r d ≤ num_votes_proposal r d')%N.
Proof.
  intros Hsub. unfold num_votes_proposal.
  rewrite <-(length_fmap fst (range (round_votes r) (cons_votes_block d))).
  enough (length (range (round_votes r) (cons_votes_block d)).*1
            ≤ length (range (round_votes r) (cons_votes_block d')))%nat by lia.
  apply range_length_ge; [apply range_NoDup|].
  intros [r' i] ([k v] & Hk & Hin)%list_elem_of_fmap. simpl in Hk. subst k.
  apply elem_of_range in Hin as [Hv Hr]. split; [done|].
  apply round_votes_spec in Hr as [Hr _]. simpl in Hr. subst. apply Hsub. eauto.
Qed.

Lemma quorum_votes_ext d d' r b :
  params_at d' r = params_at d r →
  (∀ i, cons_votes_block d !! (r, i) = cons_votes_block d' !! (r, i)) →
  quorum d r b → quorum d' r b.
Proof.
  intros Hp Heq [(p & Hpar & Hq) Hall]. split.
  - exists p. rewrite Hp. split; [done|]. by rewrite <-(num_votes_proposal_ext r d d').
  - intros i v. rewrite <-Heq. apply Hall.
Qed.

Ltac inv_frame := let H := fresh in intros H; destruct H; constructor; assumption.

Lemma inv_set_current_round x d : DbInv d → DbInv (set_cons_current_round x d).
Proof. inv_frame. Qed.
Lemma inv_set_finality_consensus x d : DbInv d → DbInv (set_cons_finality_consensus x d).
Proof. inv_frame. Qed.
Lemma inv_set_finality_votes x d : DbInv d → DbInv (set_cons_finality_votes x d).
Proof. inv_frame. Qed.
Lemma inv_set_pinned x d : DbInv d → DbInv (set_cons_blocks_pinned x d).
Proof. inv_frame. Qed.

Lemma inv_delete_notarized r d :
  DbInv d → DbInv (set_cons_blocks_notarized (delete r (cons_blocks_notarized d)) d).
Proof.
  intros []. constructor; try assumption.
  simpl. intros r' b [_ Hb]%lookup_delete_Some. by apply inv_notarized0.
Qed.

Lemma inv_insert_notarized r b d :
  DbInv d → block_ok d r b → quorum d r b →
  DbInv (set_cons_blocks_notarized (<[r := b]> (cons_blocks_notarized d)) d).
Proof.
  intros [] Hb Hq. constructor; try assumption.
  simpl. intros r' b' [[<- <-]|[_ ?]]%lookup_insert_Some; [split; assumption|by apply inv_notarized0].
Qed.

Lemma inv_insert_proposal r b d :
  DbInv d → block_ok d r b →
  DbInv (set_cons_blocks_proposals (<[r := b]> (cons_blocks_proposals d)) d).
Proof.
  intros [] Hb. constructor; try assumption.
  simpl. intros r' b' [[<- <-]|[_ ?]]%lookup_insert_Some; [assumption|by apply inv_proposals0].
Qed.

Lemma block_ok_payload r b d h payload :
  block_ok d r b →
  block_ok (set_cons_blocks_payloads (<[h := payload]> (cons_blocks_payloads d)) d) r b.
Proof.
  intros (? & ? & ? & ? & Hp & ?). split_and!; try assumption. simpl.
  apply lookup_insert_is_Some. destruct (decide (h = BlockHeader.payload_hash b)); [by left|by right].
Qed.

Lemma inv_insert_payload h payload d :
  DbInv d → blake3 payload = h → (N.of_nat (length payload) ≤ u32_max)%N →
  DbInv (set_cons_blocks_payloads (<[h := payload]> (cons_blocks_payloads d)) d).
Proof.
  intros [] Hh Hl. constructor; try assumption.
  - simpl. intros h' payload' [[<- <-]|[_ ?]]%lookup_insert_Some; [done|by apply inv_payloads0].
  - intros r b Hb. by apply block_ok_payload, inv_proposals0.
  - intros r b Hb. destruct (inv_notarized0 r b Hb). split; [by apply block_ok_payload|done].
Qed.

Lemma inv_insert_vote r i v d :
  DbInv d → vote_ok d r i v →
  (∀ b, cons_blocks_notarized d !! r = Some b → signed_inner v = b) →
  DbInv (set_cons_votes_block (<[(r, i) := v]> (cons_votes_block d)) d).
Proof.
  intros [] Hv Hmatch. constructor; try assumption.
  - intros r' b Hb. destruct (inv_notarized0 r' b Hb) as [Hok [(p & Hp & Hq) Hall]].
    split; [done|]. split.
    + exists p. split; [done|]. etrans; [exact Hq|]. apply num_votes_proposal_mono. simpl.
      intros j Hj. apply lookup_insert_is_Some. destruct (decide ((r, i) = (r', j))); auto.
    + simpl. intros j w [[[= -> ->] <-]|[_ ?]]%lookup_insert_Some; eauto.
  - simpl. intros r' j w [[[= -> ->] <-]|[_ ?]]%lookup_insert_Some; [done|by apply inv_votes0].
Qed.

Lemma inv_insert_dummy r i s d :
  DbInv d → dummy_ok d r i s →
  DbInv (set_cons_votes_dummy (<[(r, i) := s]> (cons_votes_dummy d)) d).
Proof.
  intros [] Hv. constructor; try assumption.
  simpl. intros r' j w [[[= -> ->] <-]|[_ ?]]%lookup_insert_Some; [done|by apply inv_dummy0].
Qed.

Lemma inv_prune_dummy P f d :
  DbInv d → DbInv (set_cons_votes_dummy (retain_in P f (cons_votes_dummy d)) d).
Proof.
  intros []. constructor; try assumption.
  simpl. intros r j w [? _]%retain_in_lookup. by apply inv_dummy0.
Qed.

(** What [retain_matching_votes] leaves in its round: the votes for the block.
    (The end of its range, peer 255, is not a peer.) *)
Lemma retain_matching_lookup r b d r' i v :
  DbInv d →
  cons_votes_block (retain_matching_votes r b d) !! (r', i) = Some v ↔
  cons_votes_block d !! (r', i) = Some v ∧ (r' = r → signed_inner v = b).
Proof.
  intros Hinv. simpl. rewrite retain_in_lookup, retain_range_spec, bool_decide_eq_true. simpl.
  split; intros [Hv Hm]; (split; [done|]); [|tauto].
  intros ->. apply Hm. split; [done|].
  destruct (inv_votes d Hinv r i v Hv) as (_ & _ & p & Hp & Hi%sig_ok_lt).
  destruct (params_at_wf d r Hinv) as (p' & Hp' & Hwf). rewrite Hp in Hp'. injection Hp' as <-.
  pose proof (npeers_pos p Hwf). lia.
Qed.

Lemma inv_retain_matching r b d :
  DbInv d → (∀ b', cons_blocks_notarized d !! r = Some b' → b' = b) →
  DbInv (retain_matching_votes r b d).
Proof.
  intros Hinv Hn. pose proof (λ r' i v, retain_matching_lookup r b d r' i v Hinv) as Hret.
  destruct Hinv. constructor; try assumption.
  - intros r' b' Hb. destruct (inv_notarized0 r' b' Hb) as [Hok Hq]. split; [exact Hok|].
    apply (quorum_votes_ext d); [done| |done]. intros i. apply option_eq. intros v. rewrite Hret.
    split; [|tauto]. intros Hv. split; [done|]. intros ->. destruct Hq as [_ Hall].
    rewrite (Hn b' Hb) in Hall. eauto.
  - intros r' i v [Hv _]%Hret. by apply inv_votes0.
Qed.
End Inv.
Create HintDb consinv discriminated.
#[export] Hint Resolve inv_set_current_round inv_set_finality_consensus inv_set_finality_votes
  inv_set_pinned inv_delete_notarized inv_prune_dummy : consinv.
