(* ===== verification/ConsRound.v ===== *)
(** * How a round ends ([consensus/src/consensus/finish_round.rs])

    The behaviour of [check_round_end] on the databases it is called on: it
    always terminates, leaves a database at rest ([ConsInv.Rest]) in a round
    that is not earlier, and moves the round channel to the round it stores. *)
From S2P Require Import Prelude Peers Core Db ConsDb ConsInv Consensus.

Section Round.
Context `{Crypto} `{Bincode}.
Implicit Types (d : ConsDb) (c r : N) (b : BlockHeader.t).

(** ** The latest notarized block *)
Lemma prev_notarized_Some d r b :
  DbInv d →
  prev_notarized r d = Some b ↔
  cons_blocks_notarized d !! BlockHeader.round b = Some b ∧ (BlockHeader.round b < r)%N ∧
  ∀ r' b', cons_blocks_notarized d !! r' = Some b' → (r' < r)%N → (r' ≤ BlockHeader.round b)%N.
Proof.
  intros Hinv. unfold prev_notarized. rewrite fmap_Some. split.
  - intros ([k b'] & Hl & ->). simpl. apply range_last_Some in Hl as (Hk & HP & Hmax).
    destruct (inv_notarized d Hinv k b' Hk) as [(-> & _) _]. apply rg_to_N in HP.
    split_and!; [done|done|]. intros r' b'' Hr' Hlt. by apply (Hmax r' b'' Hr'), rg_to_N.
  - intros (Hb & Hlt & Hmax). exists (BlockHeader.round b, b). split; [|done].
    apply range_last_Some. split_and!; [done|by apply rg_to_N|].
    intros r' b' Hr' HP%rg_to_N. by eapply Hmax.
Qed.

Lemma prev_notarized_None d r :
  prev_notarized r d = None ↔ ∀ r' b, cons_blocks_notarized d !! r' = Some b → (r ≤ r')%N.
Proof.
  unfold prev_notarized. rewrite fmap_None, range_last_None.
  split; intros Hall r' b Hb; specialize (Hall r' b Hb).
  - apply N.le_ngt. intros Hlt%rg_to_N. congruence.
  - apply not_true_iff_false. rewrite rg_to_N. lia.
Qed.

(** ** Finality updates change only the finality tables and dummy votes *)
Definition FinFrame d d' : Prop := ∃ x y z,
  d' = set_cons_votes_dummy x (set_cons_finality_votes y (set_cons_finality_consensus z d)) ∧
  x ⊆ cons_votes_dummy d.

Lemma fin_frame_consensus z d : FinFrame d (set_cons_finality_consensus z d).
Proof. exists (cons_votes_dummy d), (cons_finality_votes d), z. by destruct d. Qed.

Lemma fin_frame_refl d : FinFrame d d.
Proof. exists (cons_votes_dummy d), (cons_finality_votes d), (cons_finality_consensus d). by destruct d. Qed.

Lemma fin_frame_inv d d' : FinFrame d d' → DbInv d → DbInv d'.
Proof.
  intros (x & y & z & -> & Hx) []. constructor; try assumption.
  intros r i s Hs. apply inv_dummy. by eapply lookup_weaken.
Qed.

Lemma fin_frame_bounds bp bn bv d d' : FinFrame d d' → RoundBounds bp bn bv d → RoundBounds bp bn bv d'.
Proof.
  intros (x & y & z & -> & Hx) []. constructor; try assumption.
  intros r i s Hs. eapply rb_dummy. by eapply lookup_weaken.
Qed.

Lemma fin_frame_match c d d' : FinFrame d d' → votes_match c d → votes_match c d'.
Proof. by intros (x & y & z & -> & Hx). Qed.

Lemma fin_frame_rest d d' : FinFrame d d' → Rest d → Rest d'.
Proof.
  intros Hf [Hi Hb Hm]. assert (cur_round_of d' = cur_round_of d) as Hc
    by by destruct Hf as (x & y & z & -> & _).
  constructor; rewrite ?Hc; eauto using fin_frame_inv, fin_frame_bounds, fin_frame_match.
Qed.

(** ** Hooks *)

(** The hooks take the round channel from round [c] to round [c']. *)
Definition moves c c' (hooks : list Hook) : Prop := ∀ w,
  (current_round_with_timeout w).1 = c →
  (current_round_with_timeout (foldl run_hook w hooks)).1 = c'.

(** Hooks that do not touch the round channel. *)
Definition keeps_round (h : Hook) : Prop :=
  match h with RoundTimeoutHook _ _ => False | _ => True end.

Lemma moves_nil c : moves c c [].
Proof. by intros w Hw. Qed.

Lemma moves_app c1 c2 c3 hs1 hs2 : moves c1 c2 hs1 → moves c2 c3 hs2 → moves c1 c3 (hs1 ++ hs2).
Proof. intros H1 H2 w Hw. rewrite foldl_app. by apply H2, H1. Qed.

Lemma moves_keeps c c' hs h : moves c c' hs → keeps_round h → moves c c' (hs ++ [h]).
Proof. intros Hm Hh. eapply moves_app; [done|]. intros w Hw. by destruct h. Qed.

Lemma moves_timeout c c' c'' hs needs : moves c c' hs → moves c c'' (hs ++ [RoundTimeoutHook c'' needs]).
Proof.
  intros Hm. eapply moves_app; [done|]. intros w Hw. simpl.
  case_bool_decide as Hd; [|done]. by destruct Hd.
Qed.

(** ** Finality votes *)
(** The finality votes of the peers, and the one that [threshold] of them have
    reached. *)
Definition finality_votes_of d p : list N :=
  (λ pk, default 0%N (cons_finality_votes d !! pk)) <$> ConsensusParams.peers p.
Definition prune_dummy (f : N) d : ConsDb :=
  set_cons_votes_dummy
    (retain_in (rg_excl (0%N, PeerIdx_MIN) (f, PeerIdx_MIN)) (λ _ _, false) (cons_votes_dummy d)) d.

Lemma wp_recalculate_value {E} np c s (Q : () → TxState ConsDb Hook → Prop) :
  DbInv (tx_db s) →
  (∀ p f, params_at (tx_db s) c = Some p → params_wf p →
     PeerSet.sort_unstable (finality_votes_of (tx_db s) p) !! N.to_nat (NumPeers.max_faulty (npeers p)) = Some f →
     let prev := default 0%N (cons_finality_consensus (tx_db s)) in
     let d1 := set_cons_finality_consensus (Some f) (tx_db s) in
     ((f ≤ prev)%N → Q () (MkTx d1 (tx_hooks s))) ∧
     ((prev < f)%N → Q () (MkTx (prune_dummy f d1) (tx_hooks s ++ [FinalityConsensusHook f])))) →
  wp (E:=E) np (recalculate_finality_consensus_tx c) Q s.
Proof.
  intros Hinv HQ. unfold recalculate_finality_consensus_tx.
  destruct (get_consensus_params_inv (E:=E) (tx_db s) c Hinv) as (p & Hget & Hp & Hwf).
  wp_step. apply wp_read; [|rewrite Hget; auto]. rewrite Hget. intros _ [= <-].
  wp_step. apply wp_get. cbv zeta. wp_step.
  rewrite NumPeers.to_num_peers_ok by apply pwf_max, Hwf.
  apply wp_lift; [|auto]. intros _ [= <-]. fold (npeers p). wp_step.
  fold (finality_votes_of (tx_db s) p). specialize (HQ p). set (votes := PeerSet.sort_unstable _) in *.
  assert (length votes = length (ConsensusParams.peers p)) as Hlen.
  { unfold votes. rewrite (Permutation_length (PeerSet.sort_unstable_perm _)). apply length_fmap. }
  pose proof (npeers_pos p Hwf) as [Hpos _].
  pose proof (NumPeers.total_split (npeers p) Hpos) as [Hf _].
  destruct (lookup_lt_is_Some_2 votes (N.to_nat (NumPeers.max_faulty (npeers p)))) as [f Hlook].
  { unfold npeers in *. lia. }
  destruct (HQ f Hp Hwf Hlook) as [Hle Hlt].
  unfold index. rewrite Hlook. apply wp_lift; [|auto]. intros _ [= <-].
  unfold update_finality_consensus. repeat wp_step. simpl.
  destruct (N.ltb_spec f (default 0%N (cons_finality_consensus (tx_db s)))).
  - rewrite decide_True by done. wp_step. apply Hle. lia.
  - case_decide; [wp_step; apply Hle; lia|]. unfold prune_dummy_votes. repeat wp_step. apply Hlt. lia.
Qed.

Lemma wp_recalculate {E} np c s (Q : () → TxState ConsDb Hook → Prop) :
  DbInv (tx_db s) →
  (∀ d' hs, FinFrame (tx_db s) d' → Forall keeps_round hs → Q () (MkTx d' (tx_hooks s ++ hs))) →
  wp (E:=E) np (recalculate_finality_consensus_tx c) Q s.
Proof.
  intros Hinv HQ. apply wp_recalculate_value; [done|]. intros p f _ _ _. split; intros _.
  - rewrite <-(app_nil_r (tx_hooks s)). apply HQ; [apply fin_frame_consensus|done].
  - apply HQ; [|by repeat constructor]. eexists _, (cons_finality_votes (tx_db s)), _.
    split; [reflexivity|]. apply map_filter_subseteq.
Qed.

Lemma wp_update_peer_finality {E} np c pk v s (Q : () → TxState ConsDb Hook → Prop) :
  DbInv (tx_db s) →
  (∀ d' hs, FinFrame (tx_db s) d' → Forall keeps_round hs → Q () (MkTx d' (tx_hooks s ++ hs))) →
  wp (E:=E) np (update_peer_finality_vote_round c pk v) Q s.
Proof.
  intros Hinv HQ. unfold update_peer_finality_vote_round, update_finality_vote. repeat wp_step. simpl.
  set (d1 := set_cons_finality_votes _ _).
  assert (∀ d', FinFrame d1 d' → FinFrame (tx_db s) d') as Hframe.
  { intros d' (x & y & z & -> & Hx). eexists x, y, z. by split. }
  assert (Q () (MkTx d1 (tx_hooks s))) as Hsame.
  { rewrite <-(app_nil_r (tx_hooks s)). apply HQ; [|done]. apply Hframe, fin_frame_refl. }
  assert (wp (E:=E) np (recalculate_finality_consensus_tx c) Q (MkTx d1 (tx_hooks s))) as Hrec.
  { apply wp_recalculate; [by apply inv_set_finality_votes|]. simpl. eauto. }
  destruct (cons_finality_votes (tx_db s) !! pk) as [prev|]; [|done].
  destruct (v <? prev)%N; [by apply wp_ret|]. destruct (v =? prev)%N; [by apply wp_ret|done].
Qed.

(** ** The loop *)
Lemma round_next_expect_ok {E} r : (r < u64_max)%N → round_next_expect (E:=E) r = Ok (r + 1)%N.
Proof. intros Hr. unfold round_next_expect, round_next, checked_add. rewrite decide_True by lia. done. Qed.

Lemma wp_next {E} np r s (Q : N → TxState ConsDb Hook → Prop) :
  ((r < u64_max)%N → Q (r + 1)%N s) → (np = true → (r < u64_max)%N) →
  wp (E:=E) np (tx_lift (round_next_expect r)) Q s.
Proof.
  intros HQ Hnp. destruct (decide (r < u64_max)%N) as [Hr|Hr].
  - rewrite round_next_expect_ok by done. apply wp_lift; [|auto]. intros _ [= <-]. auto.
  - apply wp_lift.
    + intros a. unfold round_next_expect, round_next, checked_add. rewrite decide_False by lia. done.
    + intros Hn. by apply Hnp in Hn.
Qed.

Lemma wp_get_params {E} np r s (Q : ConsensusParams.t → TxState ConsDb Hook → Prop) :
  DbInv (tx_db s) → (∀ p, params_at (tx_db s) r = Some p → params_wf p → Q p s) →
  wp (E:=E) np (tx_read (get_consensus_params r)) Q s.
Proof.
  intros Hinv HQ. destruct (get_consensus_params_inv (E:=E) (tx_db s) r Hinv) as (p & Hget & Hp & Hwf).
  apply wp_read; rewrite Hget; [|auto]. intros _ [= <-]. auto.
Qed.

Lemma wp_num_peers {E} np p s (Q : N → TxState ConsDb Hook → Prop) :
  params_wf p → Q (npeers p) s → wp (E:=E) np (tx_lift (num_peers p)) Q s.
Proof. intros Hwf HQ. rewrite num_peers_wf by done. apply wp_lift; [|auto]. by intros _ [= <-]. Qed.

Lemma wp_leader_idx {E} np p r s (Q : N → TxState ConsDb Hook → Prop) :
  params_wf p → (∀ i, leader_idx (E:=Empty_set) p r = Ok i → (i < npeers p)%N → Q i s) →
  wp (E:=E) np (tx_lift (leader_idx p r)) Q s.
Proof.
  intros Hwf HQ. unfold leader_idx in *. rewrite !num_peers_wf in * by done. simpl in *.
  unfold block_round_leader_idx in *. pose proof (npeers_pos p Hwf).
  rewrite !decide_False in * by lia. apply wp_lift; [|auto]. intros _ [= <-].
  apply HQ; [done|]. apply N.mod_lt. lia.
Qed.

Lemma wp_get_proposal {E} np r s (Q : option BlockHeader.t → TxState ConsDb Hook → Prop) :
  DbInv (tx_db s) → Q (cons_blocks_proposals (tx_db s) !! r) s →
  wp (E:=E) np (tx_read (get_proposal r)) Q s.
Proof.
  intros Hinv HQ.
  assert (get_proposal (E:=E) r (tx_db s) = Ok (cons_blocks_proposals (tx_db s) !! r)) as Hget.
  { unfold get_proposal, mbind, rd_bind, rd_get.
    destruct (cons_blocks_proposals (tx_db s) !! r) as [b|] eqn:Hb; [|done].
    destruct (inv_proposals _ Hinv r b Hb) as (-> & _). unfold rd_lift. by rewrite N.eqb_refl. }
  apply wp_read; rewrite Hget; [|auto]. by intros _ [= <-].
Qed.

Lemma wp_check_pinned np start cur s (Q : () → TxState ConsDb Hook → Prop) :
  (start ≤ cur)%N → Q () s → wp np (check_pinned start cur) Q s.
Proof.
  intros Hle HQ. unfold check_pinned. case_decide as Hs; [by wp_step|].
  wp_step. unfold round_prev, checked_sub. rewrite decide_True by lia.
  apply wp_lift; [|done]. intros r _. wp_step. unfold get_pinned_block. wp_step.
  destruct (cons_blocks_pinned (tx_db s) !! r); [|by wp_step].
  wp_step. unfold get_notarized_block. wp_step. by case_decide; wp_step.
Qed.

(** Below the highest notarized block the round just advances past it. *)
Lemma wp_loop_advance np k fuel start h cur last s (Q : RoundEnd → TxState ConsDb Hook → Prop) :
  (start ≤ cur)%N → (BlockHeader.round h < u64_max)%N →
  (cur + N.of_nat k = BlockHeader.round h)%N →
  wp np (check_round_end_loop fuel start (Some h) (BlockHeader.round h + 1) (Some (BlockHeader.round h))) Q s →
  wp np (check_round_end_loop (S k + fuel) start (Some h) cur last) Q s.
Proof.
  intros Hs Hh. revert cur last Hs. induction k as [|k IH]; intros cur last Hs Hk Hwp.
  - cbn [Nat.add check_round_end_loop]. cbv zeta. wp_step. apply wp_check_pinned; [done|].
    rewrite (proj2 (N.leb_le _ _)) by lia. wp_step. apply wp_next; [|lia]. intros _.
    by replace cur with (BlockHeader.round h) by lia.
  - change (S (S k) + fuel)%nat with (S (S k + fuel)).
    specialize (IH (cur + 1)%N (Some cur)). revert IH. generalize (S k + fuel)%nat. intros m IH.
    cbn [check_round_end_loop]. cbv zeta. wp_step. apply wp_check_pinned; [done|].
    rewrite (proj2 (N.leb_le _ _)) by lia. wp_step. apply wp_next; [|lia]. intros _.
    apply IH; [lia..|done].
Qed.

(** In a round above the highest notarized block with neither a proposal nor
    dummy votes the loop stops, and no timeout is needed. *)
Lemma wp_loop_stop np fuel start highest cur last s (Q : RoundEnd → TxState ConsDb Hook → Prop) :
  (start ≤ cur)%N → DbInv (tx_db s) →
  (∀ h, highest = Some h → (BlockHeader.round h < cur)%N) →
  cons_blocks_proposals (tx_db s) !! cur = None →
  (∀ i, cons_votes_dummy (tx_db s) !! (cur, i) = None) →
  Q (cur, last, false) s →
  wp np (check_round_end_loop (S fuel) start highest cur last) Q s.
Proof.
  intros Hs Hinv Hhi Hprop Hdummy HQ. cbn [check_round_end_loop]. cbv zeta.
  wp_step. apply wp_check_pinned; [done|].
  assert (match highest with
          | Some h => (cur <=? BlockHeader.round h)%N | None => false end = false) as ->.
  { destruct highest; [|done]. apply N.leb_gt. auto. }
  wp_step. apply wp_get_params; [done|]. intros p Hp Hwf.
  wp_step. apply wp_num_peers; [done|]. wp_step. apply wp_get_proposal; [done|]. rewrite Hprop.
  unfold check_dummy_votes. wp_step. unfold get_num_votes_dummy. wp_step.
  rewrite num_votes_dummy_0 by (intros i x; by rewrite Hdummy).
  wp_step. apply wp_num_peers; [done|].
  pose proof (npeers_pos p Hwf) as [Hpos _]. pose proof (NumPeers.threshold_pos _ Hpos).
  rewrite (proj2 (N.leb_gt _ _)) by lia.
  wp_step. apply wp_leader_idx; [done|]. intros i _ _. wp_step. unfold get_vote_dummy. wp_step.
  rewrite Hdummy. cbn [orb]. rewrite (proj2 (N.ltb_ge _ _)) by lia. by wp_step.
Qed.

(** ** What [check_round_end] starts from and what it computes *)

(** Either nothing was notarized from round [c] on, and the votes of round [c]
    are for its proposal; or a block has just been notarized for round [c] or
    a later one. *)
Definition RoundStart c d : Prop :=
  DbInv d ∧
  ((RoundBounds (c + 1) c (c + 1) d ∧ votes_match c d) ∨
   (∃ r b, (c ≤ r < u64_max)%N ∧ cons_blocks_notarized d !! r = Some b ∧
      RoundBounds (c + 1) (r + 1) (r + 1) d)).

Definition dummy_quorum c d : Prop :=
  ∃ p, params_at d c = Some p ∧ (NumPeers.threshold (npeers p) ≤ num_votes_dummy c d)%N.

(** The database after the proposal [b] of round [c] became notarized. *)
Definition notarize c b d : ConsDb :=
  retain_matching_votes c b (set_cons_blocks_notarized (<[c := b]> (cons_blocks_notarized d)) d).

Definition none_notarized_from c d : Prop :=
  ∀ r b, cons_blocks_notarized d !! r = Some b → (r < c)%N.

Inductive RoundResult c d : RoundEnd → ConsDb → Prop :=
  | RoundSkipped r b :
      (c ≤ r)%N → cons_blocks_notarized d !! r = Some b →
      (∀ r' b', cons_blocks_notarized d !! r' = Some b' → (r' ≤ r)%N) →
      RoundResult c d (r + 1, Some r, false)%N d
  | RoundBlock b :
      none_notarized_from c d → proposal_quorum c d b →
      RoundResult c d (c + 1, Some c, false)%N (notarize c b d)
  | RoundDummy :
      none_notarized_from c d → (∀ b, ¬ proposal_quorum c d b) → dummy_quorum c d →
      RoundResult c d (c + 1, None, false)%N d
  | RoundStays needs_a_timeout :
      none_notarized_from c d → (∀ b, ¬ proposal_quorum c d b) → ¬ dummy_quorum c d →
      RoundResult c d (c, None, needs_a_timeout) d.

Lemma notarize_inv c b d :
  DbInv d → votes_match c d → proposal_quorum c d b → DbInv (notarize c b d).
Proof.
  intros Hinv Hm [Hb (p & Hp & Hq)]. apply inv_retain_matching.
  - apply inv_insert_notarized; [done|by apply (inv_proposals d Hinv)|].
    split; [by exists p|]. intros i v Hv. by apply (Hm b i v).
  - simpl. intros b'. rewrite lookup_insert_eq. by intros [= ->].
Qed.

Lemma notarize_bounds c b d :
  RoundBounds (c + 1) c (c + 1) d → RoundBounds (c + 1) (c + 1) (c + 1) (notarize c b d).
Proof.
  intros []. constructor; try assumption.
  - simpl. intros r b' [[<- _]|[_ Hb]]%lookup_insert_Some; [lia|].
    apply rb_notarized in Hb. lia.
  - simpl. intros r i v [Hv _]%retain_in_lookup. by eapply rb_votes.
Qed.

Lemma wp_insert_notarized {E} np c b d hs (Q : InsertOutcome BlockHeader.t → TxState ConsDb Hook → Prop) :
  BlockHeader.round b = c → is_dummy b = false → cons_blocks_notarized d !! c = None →
  Q Inserted (MkTx (notarize c b d) hs) →
  wp (E:=E) np (insert_notarized_block c b None) Q (MkTx d hs).
Proof.
  intros <- Hd Hn HQ. unfold insert_notarized_block. rewrite N.eqb_refl, Hd.
  do 2 (wp_step; apply wp_lift; [|done]; intros _ _). wp_step. wp_step. simpl. rewrite Hn.
  repeat wp_step. exact HQ.
Qed.

(** In the round after the current one there is nothing yet: the loop stops. *)
Lemma wp_loop_next np c d hs highest fuel last (Q : RoundEnd → TxState ConsDb Hook → Prop) :
  DbInv d → RoundBounds (c + 1) (c + 1) (c + 1) d → (∀ h, highest = Some h → (BlockHeader.round h < c)%N) →
  (1 ≤ fuel)%nat → (np = true → (c < u64_max)%N) → Q (c + 1, last, false)%N (MkTx d hs) →
  wp np (check_round_end_loop fuel c highest (c + 1) last) Q (MkTx d hs).
Proof.
  intros Hinv Hb Hhi Hf Hnp HQ. destruct fuel as [|fuel]; [lia|]. apply wp_loop_stop; simpl; try done; [lia| | |].
  - intros h Hh. apply Hhi in Hh. lia.
  - apply eq_None_not_Some. intros [b Hbl]. apply (rb_proposals _ _ _ _ Hb) in Hbl. lia.
  - intros i. apply eq_None_not_Some. intros [s Hs]. apply (rb_dummy _ _ _ _ Hb) in Hs. lia.
Qed.

(** The body of the loop in round [c] when no block was notarized from [c] on. *)
Lemma wp_loop_current np c d hs fuel highest (Q : RoundEnd → TxState ConsDb Hook → Prop) :
  DbInv d → RoundBounds (c + 1) c (c + 1) d → votes_match c d →
  (∀ h, highest = Some h → (BlockHeader.round h < c)%N) →
  (size (cons_blocks_proposals d) + size (cons_votes_dummy d) ≤ fuel)%nat →
  (np = true → (c < u64_max)%N) →
  (∀ res d', RoundResult c d res d' → Q res (MkTx d' hs)) →
  wp np (check_round_end_loop (S fuel) c highest c None) Q (MkTx d hs).
Proof.
  intros Hinv Hb Hm Hhi Hfuel Hnp HQ.
  assert (cons_blocks_notarized d !! c = None) as Hnone.
  { destruct (cons_blocks_notarized d !! c) as [b|] eqn:Hc; [|done].
    apply (rb_notarized _ _ _ _ Hb) in Hc. lia. }
  assert (none_notarized_from c d) as Hlow by exact (rb_notarized _ _ _ _ Hb).
  cbn [check_round_end_loop]. cbv zeta. wp_step. apply wp_check_pinned; [done|].
  assert (match highest with
          | Some h => (c <=? BlockHeader.round h)%N | None => false end = false) as ->.
  { destruct highest; [|done]. apply N.leb_gt. auto. }
  wp_step. apply wp_get_params; [done|]. simpl. intros p Hp Hwf.
  wp_step. apply wp_num_peers; [done|]. wp_step. apply wp_get_proposal; [done|]. simpl.
  pose proof (npeers_pos p Hwf) as [Hpos _]. pose proof (NumPeers.threshold_pos _ Hpos).
  assert ((∀ b, ¬ proposal_quorum c d b) → ∀ needs,
    wp np (check_dummy_votes (check_round_end_loop fuel c highest) c None p needs) Q (MkTx d hs)) as Hdummy.
  { intros Hnq needs. unfold check_dummy_votes. wp_step. unfold get_num_votes_dummy. wp_step.
    wp_step. apply wp_num_peers; [done|]. simpl.
    destruct (N.leb_spec (NumPeers.threshold (npeers p)) (num_votes_dummy c d)) as [Hge|Hlt].
    - wp_step. apply wp_next; [|done]. intros _.
      apply wp_loop_next; [done| |done| |done|].
      + destruct Hb. constructor; try assumption. intros r b Hr. apply rb_notarized in Hr. lia.
      + assert (cons_votes_dummy d ≠ ∅) as Hne.
        { intros He. rewrite num_votes_dummy_0 in Hge; [lia|]. intros i s. by rewrite He, lookup_empty. }
        apply map_size_non_empty_iff in Hne. lia.
      + apply HQ, RoundDummy; [done..|]. by exists p.
    - wp_step. apply wp_leader_idx; [done|]. intros i _ _. wp_step. unfold get_vote_dummy. wp_step.
      simpl. wp_step. apply HQ, RoundStays; [done..|]. intros (p' & Hp' & Hge). simplify_eq. lia. }
  destruct (cons_blocks_proposals d !! c) as [b|] eqn:Hprop.
  - wp_step. unfold get_num_votes_proposal. wp_step. simpl.
    destruct (N.leb_spec (NumPeers.threshold (npeers p)) (num_votes_proposal c d)) as [Hge|Hlt].
    + assert (proposal_quorum c d b) as Hq by (split; [done|by exists p]).
      destruct (inv_proposals d Hinv c b Hprop) as (Hr & Hnd & _).
      wp_step. apply wp_insert_notarized; [done..|]. wp_step. apply wp_next; [|done]. intros _.
      apply wp_loop_next; [by apply notarize_inv|by apply notarize_bounds|done| |done|].
      * assert (size (cons_blocks_proposals d) ≠ 0%nat); [|lia].
        intros Hz. apply map_size_empty_inv in Hz. by rewrite Hz, lookup_empty in Hprop.
      * by apply HQ, RoundBlock.
    + apply Hdummy. intros b' [_ (p' & Hp' & Hge)]. simplify_eq. lia.
  - apply Hdummy. intros b' [Hb' _]. simplify_eq.
Qed.

(** The result of the loop, whatever the round it starts from. *)
Lemma wp_loop np c d hs (Q : RoundEnd → TxState ConsDb Hook → Prop) :
  RoundStart c d → (np = true → (c < u64_max)%N) →
  (∀ res d', RoundResult c d res d' → Q res (MkTx d' hs)) →
  wp np (check_round_end_loop (check_round_end_fuel c d) c (prev_notarized BlockRound_MAX d) c None)
    Q (MkTx d hs).
Proof.
  intros [Hinv [[Hb Hm]|(r & b & [Hcr Hr] & Hrb & Hb)]] Hnp HQ.
  - apply wp_loop_current; try done; [|unfold check_round_end_fuel; destruct (prev_notarized _ _); lia].
    intros h Hh. apply prev_notarized_Some in Hh as (Hh & _); [|done].
    by apply (rb_notarized _ _ _ _ Hb) in Hh.
  - destruct (inv_notarized d Hinv r b Hrb) as [(Hbr & _) _].
    assert (∀ r' b', cons_blocks_notarized d !! r' = Some b' → (r' ≤ r)%N) as Hmax.
    { intros r' b' Hr'. apply (rb_notarized _ _ _ _ Hb) in Hr'. lia. }
    assert (prev_notarized BlockRound_MAX d = Some b) as Hhi.
    { apply prev_notarized_Some; [done|]. rewrite Hbr. split_and!; [done|unfold BlockRound_MAX; lia|].
      intros r' b' Hr' _. eauto. }
    unfold check_round_end_fuel. rewrite Hhi, Hbr.
    set (rest := (_ + size (cons_votes_dummy d))%nat).
    assert (∃ fuel, S rest = (S (N.to_nat (r - c)) + S fuel)%nat) as [fuel ->].
    { exists (rest - N.to_nat (r - c) - 1)%nat. unfold rest. lia. }
    apply wp_loop_advance; [lia|lia|rewrite Hbr; lia|]. rewrite Hbr.
    apply wp_loop_stop; simpl; try done; [lia| | | |].
    + intros h [= <-]. lia.
    + apply eq_None_not_Some. intros [b' Hb']. apply (rb_proposals _ _ _ _ Hb) in Hb'. lia.
    + intros i. apply eq_None_not_Some. intros [s Hs]. apply (rb_dummy _ _ _ _ Hb) in Hs. lia.
    + apply HQ. eapply RoundSkipped; eauto.
Qed.

Lemma round_result_rest c d c' last needs d1 :
  RoundStart c d → RoundResult c d (c', last, needs) d1 →
  (c ≤ c')%N ∧ DbInv d1 ∧ RoundBounds (c' + 1) c' (c' + 1) d1 ∧ votes_match c' d1.
Proof.
  intros [Hinv Hcase] Hres.
  assert (∀ d', RoundBounds (c + 1) (c + 1) (c + 1) d' → RoundBounds (c + 1 + 1) (c + 1) (c + 1 + 1) d' ∧
    votes_match (c + 1) d') as Hnext.
  { intros d' []. split; [constructor; intros; naive_solver lia|].
    intros b i v Hb. apply rb_proposals in Hb. lia. }
  inversion Hres as [r b Hcr Hb Hmax|b Hlow Hq|Hlow Hnp Hq|n Hlow Hnp Hnd]; subst.
  - split; [lia|]. split; [done|].
    destruct Hcase as [[Hbd _]|(r0 & b0 & [? ?] & Hr0 & Hbd)].
    { apply (rb_notarized _ _ _ _ Hbd) in Hb. lia. }
    assert (r0 = r) as ->. { apply Hmax in Hr0. apply (rb_notarized _ _ _ _ Hbd) in Hb. lia. }
    destruct Hbd. split; [constructor; intros; naive_solver lia|].
    intros b' i v Hb'. apply rb_proposals in Hb'. lia.
  - destruct Hcase as [[Hbd Hm]|(r0 & b0 & ? & Hr0 & Hbd)].
    + split; [lia|]. split; [by apply notarize_inv|]. by apply Hnext, notarize_bounds.
    + apply Hlow in Hr0. lia.
  - destruct Hcase as [[Hbd Hm]|(r0 & b0 & ? & Hr0 & Hbd)].
    + split; [lia|]. split; [done|]. apply Hnext. destruct Hbd. constructor; intros; naive_solver lia.
    + apply Hlow in Hr0. lia.
  - destruct Hcase as [[Hbd Hm]|(r0 & b0 & ? & Hr0 & Hbd)]; [|apply Hlow in Hr0; lia].
    split; [lia|]. done.
Qed.

Lemma round_result_frame c d res d1 :
  RoundResult c d res d1 →
  cur_round_of d1 = cur_round_of d ∧ cons_blocks_proposals d1 = cons_blocks_proposals d ∧
  cons_blocks_payloads d1 = cons_blocks_payloads d ∧
  cons_params_schedule d1 = cons_params_schedule d ∧ cons_params d1 = cons_params d ∧
  cons_votes_dummy d1 = cons_votes_dummy d.
Proof. by destruct 1. Qed.

Lemma round_result_last c d c' last needs d1 :
  RoundResult c d (c', last, needs) d1 → ∀ l, last = Some l → (c' = l + 1)%N.
Proof. inversion 1; naive_solver. Qed.

Definition advance_to c' d : ConsDb :=
  if decide (cur_round_of d = c') then d else set_cons_current_round (Some c') d.

Lemma advance_to_cur c' d : cur_round_of (advance_to c' d) = c'.
Proof. unfold advance_to. by case_decide. Qed.

Lemma advance_to_rest c c' last needs d d1 :
  RoundStart c d → RoundResult c d (c', last, needs) d1 → Rest (advance_to c' d1).
Proof.
  intros Hs Hr. destruct (round_result_rest c d c' last needs d1 Hs Hr) as (Hle & Hinv & Hb & Hm).
  constructor; rewrite ?advance_to_cur.
  - unfold advance_to. case_decide; [done|by apply inv_set_current_round].
  - unfold advance_to. case_decide; [done|]. destruct Hb. by constructor.
  - unfold advance_to. by case_decide.
Qed.

(** [check_round_end]: it leaves the database at rest in the round that the
    loop found, and the hooks move the round channel there. *)
Lemma wp_check_round_end np our c d hs (Q : () → TxState ConsDb Hook → Prop) :
  RoundStart c d → cur_round_of d = c → (np = true → (c < u64_max)%N) → moves c c hs →
  (∀ c' last needs d1 d' hs',
     RoundResult c d (c', last, needs) d1 → FinFrame (advance_to c' d1) d' → Rest d' →
     (c ≤ c')%N → cur_round_of d' = c' → moves c c' hs' → Q () (MkTx d' hs')) →
  wp np (check_round_end our c) Q (MkTx d hs).
Proof.
  intros Hstart Hcur Hnp Hmoves HQ. unfold check_round_end.
  wp_step. unfold get_prev_notarized_block. wp_step. wp_step. wp_step. wp_step.
  cbn [tx_db tx_hooks].
  apply wp_loop; [done..|]. intros [[c' last] needs] d1 Hres.
  destruct (round_result_frame _ _ _ _ Hres) as (Hc1 & _).
  destruct (round_result_rest _ _ _ _ _ _ Hstart Hres) as (Hle & _).
  pose proof (advance_to_rest _ _ _ _ _ _ Hstart Hres) as Hrest.
  wp_step.
  assert (∀ Q' : () → TxState ConsDb Hook → Prop, Q' () (MkTx (advance_to c' d1) hs) →
    wp (E:=RoundInvariantError) np (if decide (c = c') then mret () else set_current_round c') Q' (MkTx d1 hs)) as Hset.
  { intros Q' HQ'. unfold advance_to in HQ'. rewrite Hc1, Hcur in HQ'.
    case_decide; [by wp_step|]. unfold set_current_round. by wp_step. }
  apply Hset. clear Hset. wp_step.
  assert (∀ d' hs', FinFrame (advance_to c' d1) d' → moves c c hs' →
    wp (E:=RoundInvariantError) np (if bool_decide (c' ≠ c) || needs then on_commit (RoundTimeoutHook c' needs) else mret ()) Q
      (MkTx d' hs')) as Hend.
  { intros d' hs' Hf Hm. pose proof (fin_frame_rest _ _ Hf Hrest) as Hr'.
    assert (cur_round_of d' = c') as Hc'.
    { destruct Hf as (x & y & z & -> & _). exact (advance_to_cur c' d1). }
    case_bool_decide as Hne; simpl.
    - wp_step. eapply HQ; eauto using moves_timeout.
    - subst c'. rewrite Hne in *. destruct needs; wp_step; eapply HQ; eauto using moves_timeout. }
  destruct last as [l|]; [|wp_step; apply Hend; [apply fin_frame_refl|done]].
  wp_step. apply wp_next.
  - intros _. wp_step. wp_step. simpl.
    destruct our as [pk|]; [|wp_step; apply Hend; [apply fin_frame_refl|by apply moves_keeps]].
    apply wp_update_peer_finality; [apply Hrest|]. simpl. intros d' hs' Hf Hk. apply Hend; [done|].
    rewrite <-(app_nil_r (_ ++ hs')).
    assert (∀ h0, moves c c h0 → moves c c (h0 ++ hs')) as Happ.
    { induction Hk as [|h hs' Hh Hk IH]; intros h0 Hm0; [by rewrite app_nil_r|].
      rewrite cons_middle, app_assoc. by apply IH, moves_keeps. }
    rewrite app_nil_r. by apply Happ, moves_keeps.
  - intros Hn. apply Hnp in Hn. inversion Hres as [r b Hcr Hb Hmax|b Hlow Hq|Hlow Hno Hq|n Hlow Hno Hnd]; subst; [|done].
    destruct Hstart as [_ [[Hbd _]|(r0 & b0 & [? ?] & Hr0 & Hbd)]];
      apply (rb_notarized _ _ _ _ Hbd) in Hb; lia.
Qed.
End Round.
