(* ===== verification/ConsSteps.v ===== *)
(** * The message handlers keep the consensus database at rest

    Each handler of [Consensus] takes a state whose database is at rest and
    whose round channel shows the stored round to another such state, in a round
    that is not earlier; an error leaves the state as it was.  The lemmas
    describe the updates a handler makes before [check_round_end]. *)
From S2P Require Import Prelude Peers Core Db ConsDb ConsInv Consensus ConsRound.

Section Steps.
Context `{Crypto} `{Bincode}.
Implicit Types (d : ConsDb) (c r : N) (b : BlockHeader.t) (p : ConsensusParams.t).

(** ** Inserting a proposal *)
Definition propose c b payload d : ConsDb :=
  retain_matching_votes c b
    (set_cons_blocks_payloads (<[BlockHeader.payload_hash b := payload]> (cons_blocks_payloads d))
      (set_cons_blocks_proposals (<[c := b]> (cons_blocks_proposals d)) d)).

Lemma wp_insert_block_proposal {E} np c b payload d hs
    (Q : InsertOutcome BlockHeader.t → TxState ConsDb Hook → Prop) :
  BlockHeader.round b = c →
  (∀ b', cons_blocks_proposals d !! c = Some b' → Q (AlreadyPresent b') (MkTx d hs)) →
  (cons_blocks_proposals d !! c = None → Q Inserted (MkTx (propose c b payload d) hs)) →
  wp (E:=E) np (insert_block_proposal c b payload) Q (MkTx d hs).
Proof.
  intros <- Hpres Hnew. unfold insert_block_proposal. wp_step. rewrite N.eqb_refl.
  apply wp_lift; [|done]. intros _ _. wp_step. wp_step. cbn [tx_db].
  destruct (cons_blocks_proposals d !! BlockHeader.round b); repeat wp_step; auto.
Qed.

(** What [verify_with_content] establishes for a block that is not a dummy. *)
Lemma verified_block_ok d r b p payload :
  params_at d r = Some p → BlockHeader.round b = r → is_dummy b = false →
  verify_with_content b (params_hash p) (N.of_nat (length (to_raw p))) payload = Ok () →
  blake3 payload = BlockHeader.payload_hash b ∧ (N.of_nat (length payload) ≤ u32_max)%N ∧
  block_ok (set_cons_blocks_payloads (<[BlockHeader.payload_hash b := payload]> (cons_blocks_payloads d)) d) r b.
Proof.
  intros Hp Hr Hd (Hl & Hc & Hv & Hh & Hlen)%verify_with_content_Ok. rewrite Hd in Hc.
  destruct Hc as [Hph Hpl]. split; [done|]. split; [done|].
  unfold block_ok. split_and!; try done.
  - exists p. by split_and!.
  - simpl. rewrite lookup_insert_eq. eauto.
  - eauto.
Qed.

Lemma propose_inv c b payload d p :
  DbInv d → RoundBounds (c + 1) c (c + 1) d → params_at d c = Some p →
  BlockHeader.round b = c → is_dummy b = false →
  verify_with_content b (params_hash p) (N.of_nat (length (to_raw p))) payload = Ok () →
  DbInv (propose c b payload d) ∧ RoundBounds (c + 1) c (c + 1) (propose c b payload d) ∧
  votes_match c (propose c b payload d) ∧
  (∀ i v, cons_votes_block (propose c b payload d) !! (c, i) = Some v → signed_inner v = b).
Proof.
  intros Hinv Hb Hp Hr Hd Hver.
  destruct (verified_block_ok d c b p payload Hp Hr Hd Hver) as (Hph & Hpl & Hok).
  set (d1 := set_cons_blocks_payloads (<[BlockHeader.payload_hash b := payload]> (cons_blocks_payloads d))
               (set_cons_blocks_proposals (<[c := b]> (cons_blocks_proposals d)) d)).
  assert (DbInv d1) as Hinv1.
  { change d1 with (set_cons_blocks_proposals (<[c := b]> (cons_blocks_proposals d))
      (set_cons_blocks_payloads (<[BlockHeader.payload_hash b := payload]> (cons_blocks_payloads d)) d)).
    apply (inv_insert_proposal c b (set_cons_blocks_payloads _ d)); [|done].
    by apply inv_insert_payload. }
  pose proof (λ i v, retain_matching_lookup c b d1 c i v Hinv1) as Hret.
  assert (∀ i v, cons_votes_block (propose c b payload d) !! (c, i) = Some v → signed_inner v = b) as Hall.
  { intros i v [_ Hm]%Hret. auto. }
  split_and!; [| | |done].
  - apply inv_retain_matching; [done|]. intros b' Hb'. apply (rb_notarized _ _ _ _ Hb) in Hb'. lia.
  - destruct Hb. constructor; try assumption.
    + simpl. intros r b' [[<- _]|[_ ?]]%lookup_insert_Some; [lia|eauto].
    + simpl. intros r i v [Hv _]%retain_in_lookup. eauto.
  - intros b' i v. simpl. rewrite lookup_insert_eq. intros [= <-] Hv. by apply (Hall i v).
Qed.

(** ** Inserting votes *)
Lemma wp_insert_block_vote {E} np r i v d hs (Q : InsertOutcome SignedVote → TxState ConsDb Hook → Prop) :
  Q match cons_votes_block d !! (r, i) with Some e => AlreadyPresent e | None => Inserted end
    (MkTx (set_cons_votes_block (<[(r, i) := v]> (cons_votes_block d)) d) hs) →
  wp (E:=E) np (insert_block_vote r i v) Q (MkTx d hs).
Proof. intros HQ. unfold insert_block_vote. by repeat wp_step. Qed.

Lemma wp_insert_dummy_vote {E} np r i v d hs (Q : InsertOutcome Signature → TxState ConsDb Hook → Prop) :
  Q match cons_votes_dummy d !! (r, i) with Some e => AlreadyPresent e | None => Inserted end
    (MkTx (set_cons_votes_dummy (<[(r, i) := v]> (cons_votes_dummy d)) d) hs) →
  wp (E:=E) np (insert_dummy_vote r i v) Q (MkTx d hs).
Proof. intros HQ. unfold insert_dummy_vote. by repeat wp_step. Qed.

(** The state in which [check_round_end] finds the current round [c]. *)
Definition Current c d : Prop :=
  DbInv d ∧ RoundBounds (c + 1) c (c + 1) d ∧ votes_match c d.

Lemma current_start c d : Current c d → RoundStart c d.
Proof. intros (Hi & Hb & Hm). split; [done|]. by left. Qed.

Lemma rest_current d : Rest d ↔ Current (cur_round_of d) d.
Proof. split; [by intros []|]. intros (? & ? & ?). by constructor. Qed.

Lemma current_insert_vote c d i v :
  Current c d → vote_ok d c i v →
  (∀ b, cons_blocks_proposals d !! c = Some b → signed_inner v = b) →
  Current c (set_cons_votes_block (<[(c, i) := v]> (cons_votes_block d)) d).
Proof.
  intros (Hinv & Hb & Hm) Hv Hmatch. split_and!.
  - apply inv_insert_vote; [done..|]. intros b Hn. apply (rb_notarized _ _ _ _ Hb) in Hn. lia.
  - destruct Hb. constructor; try assumption.
    simpl. intros r j w [[[= -> ->] _]|[_ ?]]%lookup_insert_Some; [lia|eauto].
  - intros b j w Hp. simpl. intros [[[= ->] <-]|[_ ?]]%lookup_insert_Some; [by apply Hmatch|by apply (Hm b j w)].
Qed.

Lemma current_insert_dummy c d i s :
  Current c d → dummy_ok d c i s →
  Current c (set_cons_votes_dummy (<[(c, i) := s]> (cons_votes_dummy d)) d).
Proof.
  intros (Hinv & Hb & Hm) Hv. split_and!; [by apply inv_insert_dummy| |done].
  destruct Hb. constructor; try assumption.
  simpl. intros r j w [[[= -> ->] _]|[_ ?]]%lookup_insert_Some; [lia|eauto].
Qed.

(** ** [process_vote_response_tx] *)

(** How a vote or proposal that is accepted changes the database: at most one
    proposal appears, in the current round, and extends the latest notarized
    block; at most one block becomes notarized, and it is that round's
    proposal; the round advances by at most one. *)
Record VoteStep d d' : Prop := {
  vs_rest : Rest d';
  vs_round : (cur_round_of d ≤ cur_round_of d' ≤ cur_round_of d + 1)%N;
  vs_proposals : cons_blocks_proposals d' = cons_blocks_proposals d ∨
    ∃ b, cons_blocks_proposals d !! cur_round_of d = None ∧
      does_directly_extend b (prev_notarized (cur_round_of d) d) = true ∧
      cons_blocks_proposals d' = <[cur_round_of d := b]> (cons_blocks_proposals d);
  vs_notarized : cons_blocks_notarized d' = cons_blocks_notarized d ∨
    ∃ b, cons_blocks_proposals d' !! cur_round_of d = Some b ∧
      cur_round_of d' = (cur_round_of d + 1)%N ∧
      cons_blocks_notarized d' = <[cur_round_of d := b]> (cons_blocks_notarized d);
  vs_schedule : cons_params_schedule d' = cons_params_schedule d;
  vs_params : cons_params d' = cons_params d;
  vs_pinned : cons_blocks_pinned d' = cons_blocks_pinned d;
}.

(** The effect on these tables of the steps before [check_round_end]. *)
Record VotePre d d' : Prop := {
  vp_current : cons_current_round d' = cons_current_round d;
  vp_proposals : cons_blocks_proposals d' = cons_blocks_proposals d ∨
    ∃ b, cons_blocks_proposals d !! cur_round_of d = None ∧
      does_directly_extend b (prev_notarized (cur_round_of d) d) = true ∧
      cons_blocks_proposals d' = <[cur_round_of d := b]> (cons_blocks_proposals d);
  vp_notarized : cons_blocks_notarized d' = cons_blocks_notarized d;
  vp_schedule : cons_params_schedule d' = cons_params_schedule d;
  vp_params : cons_params d' = cons_params d;
  vp_pinned : cons_blocks_pinned d' = cons_blocks_pinned d;
}.

Definition VotePost d (s' : TxState ConsDb Hook) : Prop :=
  VoteStep d (tx_db s') ∧ moves (cur_round_of d) (cur_round_of (tx_db s')) (tx_hooks s').

Lemma cur_round_eq d d' : cons_current_round d' = cons_current_round d → cur_round_of d' = cur_round_of d.
Proof. intros Heq. unfold cur_round_of. by rewrite Heq. Qed.

Lemma vote_pre_done d d' hs :
  VotePre d d' → Current (cur_round_of d) d' → moves (cur_round_of d) (cur_round_of d) hs →
  VotePost d (MkTx d' hs).
Proof.
  intros [] Hc Hm. pose proof (cur_round_eq _ _ vp_current0) as Hcur.
  split; simpl; rewrite ?Hcur; [|done]. constructor; try done; rewrite ?Hcur; [|lia|by left].
  apply rest_current. by rewrite Hcur.
Qed.

Lemma wp_vote_round_end np our d d1 hs :
  VotePre d d1 → Current (cur_round_of d) d1 → moves (cur_round_of d) (cur_round_of d) hs →
  (np = true → (cur_round_of d < u64_max)%N) →
  wp np (check_round_end our (cur_round_of d)) (λ _ s', VotePost d s') (MkTx d1 hs).
Proof.
  intros [] Hc Hm Hnp. pose proof (cur_round_eq _ _ vp_current0) as Hcur.
  apply wp_check_round_end; [by apply current_start|done..|].
  intros c' last needs d2 d' hs' Hres (x & y & z & -> & _) Hrest Hle Hc' Hmv.
  split; cbn [tx_db tx_hooks]; [|by rewrite Hc'].
  destruct (round_result_frame _ _ _ _ Hres) as (_ & Hp & _ & Hs & Hpa & _).
  constructor; [done|..]; rewrite ?Hc'.
  - split; [done|]. inversion Hres as [r b Hcr Hb _| | |]; subst; try lia.
    destruct Hc as (_ & Hbd & _). apply (rb_notarized _ _ _ _ Hbd) in Hb. lia.
  - cbn. unfold advance_to. case_decide; cbn; by rewrite Hp.
  - assert (cons_blocks_notarized (advance_to c' d2) = cons_blocks_notarized d2) as Hadv
      by (unfold advance_to; by case_decide).
    assert (cons_blocks_proposals (advance_to c' d2) = cons_blocks_proposals d2) as Hadv'
      by (unfold advance_to; by case_decide).
    cbn. rewrite Hadv, Hadv'. rewrite Hp.
    inversion Hres as [r b Hcr Hb _|b Hlow [Hb _]| |]; subst; try (left; done).
    + right. exists b. split_and!; [done|done|]. cbn. by rewrite vp_notarized0.
  - cbn. unfold advance_to. case_decide; cbn; by rewrite Hs.
  - cbn. unfold advance_to. case_decide; cbn; by rewrite Hpa.
  - cbn. unfold advance_to. assert (cons_blocks_pinned d2 = cons_blocks_pinned d1) as Hpin
      by by destruct Hres. case_decide; cbn; by rewrite Hpin.
Qed.

(** The vote itself: signature, content, insertion, and the end of the round. *)
Lemma wp_process_vote np our d d1 hs i p vote :
  VotePre d d1 → Current (cur_round_of d) d1 → moves (cur_round_of d) (cur_round_of d) hs →
  params_at d1 (cur_round_of d) = Some p → params_wf p →
  BlockHeader.round (signed_inner vote) = cur_round_of d →
  (np = true → (i < npeers p)%N ∧ (cur_round_of d < u64_max)%N) →
  wp np (process_vote our (cur_round_of d) i p (params_hash p) (N.of_nat (length (to_raw p))) vote)
    (λ _ s', VotePost d s') (MkTx d1 hs).
Proof.
  intros Hpre Hc Hm Hp Hwf Hround Hnp. unfold process_vote. pose proof Hc as (Hinv & Hb & _).
  set (c := cur_round_of d) in *.
  wp_step. apply wp_lift_map_err.
  2: { intros Hn w. destruct (Hnp Hn) as [Hi _]. unfold npeers in Hi.
       apply verify_sig_peer_idx_no_panic; [lia|apply Hwf]. }
  intros [] Hsig%verify_sig_peer_idx_Ok.
  assert (∀ e d2, VotePre d d2 → Current c d2 →
    wp np (_ ← notify_new_votes;
      match e with
      | AlreadyPresent existing =>
          if decide (existing = sig vote) then mret () else tx_fail (ForkedSignature i existing)
      | Inserted => tx_into PvRoundInvariant (check_round_end our c)
      end) (λ _ s', VotePost d s') (MkTx d2 hs)) as Hend.
  { intros e d2 Hpre2 Hc2. wp_step. unfold notify_new_votes. wp_step. cbn [tx_db tx_hooks].
    destruct e as [|existing].
    - wp_step. apply wp_vote_round_end; [done|done|by apply moves_keeps|]. intros Hn. by apply Hnp.
    - case_decide; wp_step. apply vote_pre_done; [done|done|by apply moves_keeps]. }
  wp_step. destruct (is_dummy (signed_inner vote)) eqn:Hdummy.
  - wp_step. apply wp_lift_map_err.
    2: { intros _ w. unfold verify_with_content. rewrite Hdummy. cbn.
         repeat (destruct (_ =? _)%N; cbn; try done). }
    intros [] (_ & _ & _ & Hh & _)%verify_with_content_Ok.
    apply wp_insert_dummy_vote. apply Hend; [by destruct Hpre|].
    apply current_insert_dummy; [done|]. by exists (signed_inner vote), p.
  - wp_step. apply wp_get_proposal; [done|]. wp_step. apply wp_fail_if. cbn [tx_db]. intros Hmatch.
    wp_step. apply wp_insert_block_vote. wp_step.
    apply Hend; [by destruct Hpre|]. apply current_insert_vote; [done| |].
    + split_and!; [done|done|]. by exists p.
    + intros b Hb'. rewrite Hb' in Hmatch. apply bool_decide_eq_false in Hmatch.
      symmetry. by apply dec_stable.
Qed.

(** What must hold for the handling of a vote not to crash: the sender is a peer
    of the round, the payload fits in its length field, and there are rounds
    left. *)
Definition vote_safe d (i : PeerIdx) (resp : WaitVoteResponse) : Prop :=
  (cur_round_of d < u64_max)%N ∧
  (∀ p, params_at d (cur_round_of d) = Some p → (i < npeers p)%N) ∧
  match resp with Proposal _ payload => (N.of_nat (length payload) ≤ u32_max)%N | Vote _ => True end.

Lemma wp_get_current_round {E} np s (Q : N → TxState ConsDb Hook → Prop) :
  Q (cur_round_of (tx_db s)) s → wp (E:=E) np (tx_read get_current_round) Q s.
Proof. intros HQ. unfold get_current_round. by wp_step. Qed.

Lemma verify_with_content_no_panic b h l payload w :
  (N.of_nat (length payload) ≤ u32_max)%N → verify_with_content b h l payload ≠ Panic w.
Proof.
  intros Hl. unfold verify_with_content. rewrite payload_len_of_ok by done.
  destruct (is_dummy b); cbn; repeat (destruct (_ =? _)%N; cbn; try done).
Qed.

Lemma wp_process_vote_response_tx np our d i resp :
  Rest d → (np = true → vote_safe d i resp) →
  wp np (process_vote_response_tx our i resp) (λ _ s', VotePost d s') (MkTx d []).
Proof.
  intros Hrest Hnp. pose proof (proj1 (rest_current d) Hrest) as Hcur.
  pose proof Hcur as (Hinv & Hb & _).
  unfold process_vote_response_tx. wp_step. apply wp_get_current_round. cbv zeta. cbn [tx_db].
  wp_step. apply wp_fail_if. intros Hr. apply bool_decide_eq_false, dec_stable in Hr.
  wp_step. apply wp_get_params; [done|]. cbn [tx_db]. intros p Hp Hwf.
  wp_step. rewrite params_len_wf by done. apply wp_lift; [|done]. intros _ [= <-].
  assert (VotePre d d) as Hpre by (constructor; auto).
  pose proof (moves_nil (cur_round_of d)) as Hnil.
  assert (np = true → (i < npeers p)%N ∧ (cur_round_of d < u64_max)%N) as Hi.
  { intros Hn. destruct (Hnp Hn) as (Hlt & Hidx & _). auto. }
  wp_step. destruct resp as [block payload|block]; simpl in Hr.
  2: { wp_step. by apply wp_process_vote. }
  unfold process_proposal.
  wp_step. apply wp_leader_idx; [done|]. intros leader _ _.
  wp_step. apply wp_fail_if. intros _. wp_step. apply wp_fail_if. intros Hd.
  wp_step. apply wp_lift_map_err.
  2: { intros Hn w. destruct (Hnp Hn) as (_ & _ & Hl). by apply verify_with_content_no_panic. }
  intros [] Hver. wp_step. unfold get_prev_notarized_block. wp_step. cbn [tx_db].
  wp_step. apply wp_fail_if. intros Hext%negb_false_iff.
  destruct (propose_inv (cur_round_of d) (signed_inner block) payload d p) as (Hinv1 & Hb1 & Hm1 & _);
    [done..|].
  wp_step. apply wp_insert_block_proposal; [done| |].
  - intros b' Hb'. case_decide; wp_step. wp_step. by apply vote_pre_done.
  - intros Hnone. wp_step. wp_step. wp_step. cbn [tx_db tx_hooks].
    apply wp_process_vote; [|done|by apply moves_keeps|done..].
    constructor; try done. right. by exists (signed_inner block).
Qed.

(** ** [process_notarized_block_response_tx] *)
Definition votes_with r b (l : list (PeerIdx * Signature)) (m : gmap (N * N) SignedVote) :
    gmap (N * N) SignedVote :=
  foldl (λ m kv, <[(r, kv.1) := MkSigned b kv.2]> m) m l.

Lemma wp_insert_block_votes {E} np r b l d hs (Q : () → TxState ConsDb Hook → Prop) :
  Q () (MkTx (set_cons_votes_block (votes_with r b l (cons_votes_block d)) d) hs) →
  wp (E:=E) np (insert_block_votes r b l) Q (MkTx d hs).
Proof.
  revert d. induction l as [|[i s] l IH]; intros d HQ; simpl.
  - wp_step. by destruct d.
  - wp_step. apply wp_insert_block_vote. by apply IH.
Qed.

Lemma wp_insert_dummy_votes {E} np c l d hs (Q : () → TxState ConsDb Hook → Prop) :
  Current c d → (∀ i s, (i, s) ∈ l → dummy_ok d c i s) →
  (∀ x, Current c (set_cons_votes_dummy x d) → (∀ k, k.1 ≠ c → x !! k = cons_votes_dummy d !! k) →
     Q () (MkTx (set_cons_votes_dummy x d) hs)) →
  wp (E:=E) np (insert_dummy_votes c l) Q (MkTx d hs).
Proof.
  revert d. induction l as [|[i s] l IH]; intros d Hc Hl HQ; simpl.
  - wp_step. specialize (HQ (cons_votes_dummy d)). destruct d. by apply HQ.
  - wp_step. apply wp_insert_dummy_vote. apply IH.
    + apply current_insert_dummy; [done|]. apply Hl. by left.
    + intros j t Hin. apply Hl. by right.
    + intros x Hx Hk. apply HQ; [exact Hx|]. intros k Hne. rewrite Hk by done. apply lookup_insert_ne. by intros <-.
Qed.

Lemma votes_with_other r b l m k : k.1 ≠ r → votes_with r b l m !! k = m !! k.
Proof.
  intros Hk. revert m. induction l as [|[i s] l IH]; intros m; simpl; [done|].
  rewrite IH. apply lookup_insert_ne. by intros <-.
Qed.

Lemma votes_with_inner r b l m i v :
  (∀ v', m !! (r, i) = Some v' → signed_inner v' = b) →
  votes_with r b l m !! (r, i) = Some v → signed_inner v = b.
Proof.
  revert m. induction l as [|[j s] l IH]; intros m Hm; simpl; [apply Hm|].
  apply IH. intros v' [[_ <-]|[_ ?]]%lookup_insert_Some; auto.
Qed.

Lemma votes_with_is_Some r b l m i :
  is_Some (m !! (r, i)) ∨ i ∈ l.*1 → is_Some (votes_with r b l m !! (r, i)).
Proof.
  revert m. induction l as [|[j s] l IH]; intros m Hm; simpl.
  { destruct Hm as [|Hin]; [done|]. by apply not_elem_of_nil in Hin. }
  apply IH. simpl in Hm. destruct Hm as [Hm|[->|Hin]%elem_of_cons]; [left..|by right].
  - apply lookup_insert_is_Some. destruct (decide ((r, j) = (r, i))); auto.
  - rewrite lookup_insert_eq. eauto.
Qed.

Lemma votes_with_inv r b l d :
  DbInv d → cons_blocks_notarized d !! r = None →
  (∀ i s, (i, s) ∈ l → vote_ok d r i (MkSigned b s)) →
  DbInv (set_cons_votes_block (votes_with r b l (cons_votes_block d)) d).
Proof.
  revert d. induction l as [|[i s] l IH]; intros d Hinv Hn Hl; simpl.
  { by destruct d. }
  refine (IH (set_cons_votes_block (<[(r, i) := MkSigned b s]> (cons_votes_block d)) d) _ _ _); [|done|].
  - apply inv_insert_vote; [done|apply Hl; by left|]. intros b' Hb'. congruence.
  - intros j t Hin. apply Hl. by right.
Qed.

(** The database after a received notarized block was stored. *)
Definition store_notarized r b (l : list (PeerIdx * Signature)) payload d : ConsDb :=
  let d1 := set_cons_blocks_payloads (<[BlockHeader.payload_hash b := payload]> (cons_blocks_payloads d)) d in
  let d2 := retain_matching_votes r b d1 in
  let d3 := set_cons_votes_block (votes_with r b l (cons_votes_block d2)) d2 in
  set_cons_blocks_notarized (<[r := b]> (cons_blocks_notarized d3)) d3.

Lemma wp_cons_insert_notarized_block {E} np (block : Notarized BlockHeader.t) payload d hs
    (Q : () → TxState ConsDb Hook → Prop) :
  let b := notarized_inner block in
  is_dummy b = false → cons_blocks_notarized d !! BlockHeader.round b = None →
  Q () (MkTx (store_notarized (BlockHeader.round b) b (entries (sigs block)) payload d) (hs ++ [NewVotesHook])) →
  wp (E:=E) np (cons_insert_notarized_block block payload) Q (MkTx d hs).
Proof.
  intros b Hd Hn HQ. subst b. unfold cons_insert_notarized_block, insert_notarized_block.
  do 2 wp_step. rewrite N.eqb_refl, Hd.
  apply wp_lift; [|done]. intros _ _. wp_step. apply wp_lift; [|done]. intros _ _.
  wp_step. wp_step. cbn [tx_db tx_hooks]. rewrite Hn. repeat wp_step. cbn [tx_db tx_hooks].
  apply wp_insert_block_votes. unfold notify_new_votes. wp_step. exact HQ.
Qed.

Lemma store_notarized_inv r (block : Notarized BlockHeader.t) payload d p :
  let b := notarized_inner block in
  DbInv d → params_at d r = Some p → params_wf p → BlockHeader.round b = r → is_dummy b = false →
  cons_blocks_notarized d !! r = None →
  verify_with_content b (params_hash p) (N.of_nat (length (to_raw p))) payload = Ok () →
  verify_sigs block p = Ok () →
  DbInv (store_notarized r b (entries (sigs block)) payload d).
Proof.
  intros b Hinv Hp Hwf Hr Hd Hn Hver (_ & Hq & Hsigs)%verify_sigs_Ok.
  destruct (verified_block_ok d r b p payload Hp Hr Hd Hver) as (Hph & Hpl & Hok).
  unfold store_notarized. cbv zeta.
  set (d1 := set_cons_blocks_payloads _ d).
  assert (DbInv d1) as Hinv1 by by apply inv_insert_payload.
  assert (DbInv (retain_matching_votes r b d1)) as Hinv2.
  { apply inv_retain_matching; [done|]. intros b' Hb'. change (cons_blocks_notarized d !! r = Some b') in Hb'.
    congruence. }
  set (d2 := retain_matching_votes r b d1) in *.
  assert (∀ i s, (i, s) ∈ entries (sigs block) → sigs block !! i = Some s) as Hent.
  { intros i s. rewrite entries_perm. apply elem_of_map_to_list. }
  assert (DbInv (set_cons_votes_block (votes_with r b (entries (sigs block)) (cons_votes_block d2)) d2)) as Hinv3.
  { apply votes_with_inv; [done|done|]. intros i s Hin. split_and!; [done|done|].
    exists p. split; [done|]. apply Hsigs, Hent, Hin. }
  apply inv_insert_notarized; [done|exact Hok|]. split.
  - exists p. split; [exact Hp|]. etrans; [exact Hq|]. unfold num_votes_proposal.
    set (vs := votes_with r b (entries (sigs block)) (cons_votes_block d2)).
    change (N.of_nat (size (sigs block)) ≤ N.of_nat (length (range (round_votes r) vs)))%N.
    enough (size (sigs block) ≤ length (range (round_votes r) vs))%nat by lia.
    rewrite <-(length_map_to_list (sigs block)), <-(Permutation_length (entries_perm (sigs block))).
    rewrite <-(length_fmap (λ kv, (r, kv.1)) (entries (sigs block))).
    apply range_length_ge.
    + apply (NoDup_fmap_1 snd). rewrite <-list_fmap_compose.
      change (NoDup (fst <$> entries (sigs block))). rewrite entries_perm. apply NoDup_fst_map_to_list.
    + intros k ([i s] & -> & Hin)%list_elem_of_fmap. simpl. split.
      * apply round_votes_spec. simpl. split; [done|].
        apply Hent, Hsigs, sig_ok_lt in Hin. pose proof (npeers_pos p Hwf). lia.
      * apply votes_with_is_Some. right. apply list_elem_of_fmap. by exists (i, s).
  - intros i v. apply votes_with_inner. intros v' Hv'.
    apply (retain_matching_lookup r b d1 r i v' Hinv1) in Hv' as [_ Hm]. auto.
Qed.

Lemma store_start c r b l payload d :
  Current c d → (r < u64_max)%N → DbInv (store_notarized r b l payload d) →
  RoundStart c (store_notarized r b l payload d).
Proof.
  intros (Hinv & Hb & Hm) Hr Hinv'. split; [done|].
  assert (∀ r' i v, cons_votes_block (store_notarized r b l payload d) !! (r', i) = Some v →
    r' = r ∨ cons_votes_block d !! (r', i) = Some v) as Hvotes.
  { intros r' i v Hv. destruct (decide (r' = r)) as [->|Hne]; [by left|]. right. revert Hv.
    simpl. rewrite votes_with_other by done. by intros [? _]%retain_in_lookup. }
  destruct (decide (c ≤ r)%N) as [Hle|Hlt].
  - right. exists r, b. split; [done|]. split; [apply lookup_insert_eq|].
    destruct Hb. constructor; try assumption.
    + simpl. intros r' b' [[<- _]|[_ Hb']]%lookup_insert_Some; [lia|].
      apply rb_notarized in Hb'. lia.
    + intros r' i v [->|Hv]%Hvotes; [lia|]. apply rb_votes in Hv. lia.
    + intros r' i v Hv. apply rb_dummy in Hv. lia.
  - left. destruct Hb. split; [constructor; try assumption|].
    + simpl. intros r' b' [[<- _]|[_ Hb']]%lookup_insert_Some; [lia|eauto].
    + intros r' i v [->|Hv]%Hvotes; [lia|eauto].
    + intros b' i v Hb' [->|Hv]%Hvotes; [lia|]. by apply (Hm b' i v).
Qed.

(** The table of notarized blocks that a received notarized block leads to,
    before the end of the round is checked. *)
Inductive Accepts d b : gmap BlockRound BlockHeader.t → Prop :=
  | AcceptDummy : is_dummy b = true → Accepts d b (cons_blocks_notarized d)
  | AcceptNext :
      is_dummy b = false →
      (∀ l, prev_notarized (cur_round_of d) d = Some l → (BlockHeader.round l < BlockHeader.round b)%N) →
      does_directly_extend b (prev_notarized (cur_round_of d) d) = true →
      Accepts d b (<[BlockHeader.round b := b]> (cons_blocks_notarized d))
  | AcceptRewind l :
      is_dummy b = false → prev_notarized (cur_round_of d) d = Some l →
      (BlockHeader.round l < BlockHeader.round b)%N →
      does_directly_extend b (prev_notarized (BlockHeader.round l) d) = true →
      Accepts d b (<[BlockHeader.round b := b]> (delete (BlockHeader.round l) (cons_blocks_notarized d))).

(** How a received notarized block changes the database. *)
Record NotarizedStep d b d' : Prop := {
  ns_rest : Rest d';
  ns_round : (cur_round_of d ≤ cur_round_of d')%N;
  ns_proposals : cons_blocks_proposals d' = cons_blocks_proposals d;
  ns_notarized : d' = d ∨ ∃ n, Accepts d b n ∧
    (cons_blocks_notarized d' = n ∨
     ∃ pb, cons_blocks_proposals d !! cur_round_of d = Some pb ∧
       (∀ r b', n !! r = Some b' → (r < cur_round_of d)%N) ∧
       cur_round_of d' = (cur_round_of d + 1)%N ∧
       cons_blocks_notarized d' = <[cur_round_of d := pb]> n);
  ns_schedule : cons_params_schedule d' = cons_params_schedule d;
  ns_params : cons_params d' = cons_params d;
  ns_pinned : cons_blocks_pinned d' = cons_blocks_pinned d;
}.
Definition NotarizedPost d b (s' : TxState ConsDb Hook) : Prop :=
  NotarizedStep d b (tx_db s') ∧ moves (cur_round_of d) (cur_round_of (tx_db s')) (tx_hooks s').

Lemma wp_notarized_round_end np our d d1 hs b :
  RoundStart (cur_round_of d) d1 → cons_current_round d1 = cons_current_round d →
  moves (cur_round_of d) (cur_round_of d) hs →
  (np = true → (cur_round_of d < u64_max)%N) →
  cons_blocks_proposals d1 = cons_blocks_proposals d →
  Accepts d b (cons_blocks_notarized d1) →
  cons_params_schedule d1 = cons_params_schedule d → cons_params d1 = cons_params d →
  cons_blocks_pinned d1 = cons_blocks_pinned d →
  wp np (check_round_end our (cur_round_of d)) (λ _ s', NotarizedPost d b s') (MkTx d1 hs).
Proof.
  intros Hstart Hcur Hm Hnp Hprop Hacc Hsch Hpar Hpin. apply cur_round_eq in Hcur as Hc1.
  apply wp_check_round_end; [done..|].
  intros c' last needs d2 d' hs' Hres (x & y & z & -> & _) Hrest Hle Hc' Hmv.
  split; cbn [tx_db tx_hooks]; [|by rewrite Hc'].
  destruct (round_result_frame _ _ _ _ Hres) as (_ & Hp & _ & Hs & Hpa & _).
  assert (cons_blocks_pinned d2 = cons_blocks_pinned d1) as Hpin2 by by destruct Hres.
  assert (cons_blocks_notarized (advance_to c' d2) = cons_blocks_notarized d2) as Hadv
    by (unfold advance_to; by case_decide).
  constructor; [done|by rewrite Hc'|..].
  - cbn. unfold advance_to. case_decide; cbn; by rewrite Hp.
  - right. exists (cons_blocks_notarized d1). split; [done|].
    cbn [cons_blocks_notarized set_cons_votes_dummy set_cons_finality_votes set_cons_finality_consensus].
    rewrite Hadv, Hc'.
    inversion Hres as [r b' Hcr Hb _|b' Hlow [Hb _]| |]; subst; try (left; done).
    right. exists b'. split_and!; [by rewrite <-Hprop|exact Hlow|done|done].
  - cbn. unfold advance_to. case_decide; cbn; by rewrite Hs.
  - cbn. unfold advance_to. case_decide; cbn; by rewrite Hpa.
  - cbn. unfold advance_to. case_decide; cbn; by rewrite Hpin2.
Qed.

(** What must hold for the handling of a notarized block not to crash: every
    signature names a peer of its round, the payload fits, there are rounds
    left, our latest block is not a different one of the same round, and there
    is a latest block when the received one is not the first of the chain. *)
Definition notarized_safe d (resp : WaitNotarizedBlockResponse) : Prop :=
  let b := notarized_inner (resp_notarized resp) in
  (cur_round_of d < u64_max)%N ∧
  (∀ p, params_at d (BlockHeader.round b) = Some p →
     ∀ i s, sigs (resp_notarized resp) !! i = Some s → (i < npeers p)%N) ∧
  (N.of_nat (length (resp_payload resp)) ≤ u32_max)%N ∧
  (is_dummy b = false → ∀ l, prev_notarized (cur_round_of d) d = Some l →
     BlockHeader.round l = BlockHeader.round b → l = b) ∧
  (is_dummy b = false → prev_notarized (cur_round_of d) d = None → does_directly_extend b None = true).

Lemma verify_sigs_no_panic (block : Notarized BlockHeader.t) p w :
  params_wf p → (∀ i s, sigs block !! i = Some s → (i < npeers p)%N) →
  verify_sigs block p ≠ Panic w.
Proof.
  intros Hwf Hi. unfold verify_sigs. rewrite num_peers_wf by done. simpl.
  destruct (_ <? _)%N; simpl; [done|]. apply verify_each_no_panic; [apply Hwf|].
  intros i s Hin. rewrite entries_perm, elem_of_map_to_list in Hin. apply Hi in Hin.
  unfold npeers in Hin. lia.
Qed.

Lemma current_delete c d r :
  Current c d → Current c (set_cons_blocks_notarized (delete r (cons_blocks_notarized d)) d).
Proof.
  intros (Hi & Hb & Hm). split_and!; [by apply inv_delete_notarized| |done].
  destruct Hb. constructor; try assumption. simpl. intros r' b [_ ?]%lookup_delete_Some. eauto.
Qed.

(** Storing an accepted block in [d0] (which is [d], or [d] without its latest
    notarized block) and ending the round. *)
Lemma wp_store_and_end np our d d0 p (block : Notarized BlockHeader.t) payload :
  let b := notarized_inner block in
  (BlockHeader.round b < u64_max)%N → (np = true → (cur_round_of d < u64_max)%N) →
  params_wf p → verify_sigs block p = Ok () →
  verify_with_content b (params_hash p) (N.of_nat (length (to_raw p))) payload = Ok () →
  is_dummy b = false →
  Current (cur_round_of d) d0 →
  (∃ n, d0 = set_cons_blocks_notarized n d ∧ n !! BlockHeader.round b = None ∧
     Accepts d b (<[BlockHeader.round b := b]> n)) →
  params_at d (BlockHeader.round b) = Some p →
  wp np (cons_insert_notarized_block (E:=ProcessNotarizedBlockError) block payload)
    (λ _ s, wp np (tx_into PnRoundInvariant (check_round_end our (cur_round_of d)))
              (λ _ s', NotarizedPost d b s') s) (MkTx d0 []).
Proof.
  intros b Hround Hnc Hwf Hsigs Hver Hd Hc0 (n & -> & Hn0 & Hacc) Hp.
  apply wp_cons_insert_notarized_block; [done..|]. wp_step. pose proof Hc0 as (Hinv0 & _).
  apply wp_notarized_round_end; [|done|apply moves_keeps; [apply moves_nil|done]|done..].
  apply store_start; [done..|]. by apply (store_notarized_inv _ block _ _ p).
Qed.

(** A block later than our latest one is in a round that has none yet. *)
Lemma later_block_fresh d b :
  DbInv d → RoundBounds (cur_round_of d + 1) (cur_round_of d) (cur_round_of d + 1) d →
  (∀ l, prev_notarized (cur_round_of d) d = Some l → (BlockHeader.round l < BlockHeader.round b)%N) →
  cons_blocks_notarized d !! BlockHeader.round b = None.
Proof.
  intros Hinv Hb Hlt. apply eq_None_not_Some. intros [b' Hb'].
  pose proof (rb_notarized _ _ _ _ Hb _ _ Hb') as Hlow.
  destruct (prev_notarized (cur_round_of d) d) as [l|] eqn:Hl.
  - apply prev_notarized_Some in Hl as (_ & _ & Hmax); [|done].
    specialize (Hlt l eq_refl). specialize (Hmax _ _ Hb' Hlow). lia.
  - rewrite prev_notarized_None in Hl. specialize (Hl _ _ Hb'). lia.
Qed.

(** The two ways a block later than our latest one is taken in. *)
Lemma wp_take_block np our d p resp :
  let b := notarized_inner (resp_notarized resp) in
  let latest := prev_notarized (cur_round_of d) d in
  Rest d → (BlockHeader.round b < u64_max)%N → (np = true → notarized_safe d resp) →
  params_wf p → params_at d (BlockHeader.round b) = Some p →
  verify_sigs (resp_notarized resp) p = Ok () →
  verify_with_content b (params_hash p) (N.of_nat (length (to_raw p))) (resp_payload resp) = Ok () →
  is_dummy b = false →
  (∀ l, latest = Some l → (BlockHeader.round l < BlockHeader.round b)%N) →
  wp np
    (_ ← (if does_directly_extend b latest then
            cons_insert_notarized_block (resp_notarized resp) (resp_payload resp)
          else
            latest_round ← tx_lift (expect "Must have latest notarized" (BlockHeader.round <$> latest));
            second ← tx_read (get_prev_notarized_block latest_round);
            _ ← tx_lift (fail_if (negb (does_directly_extend b second)) WrongParent);
            _ ← delete_notarized_block latest_round;
            cons_insert_notarized_block (resp_notarized resp) (resp_payload resp));
     tx_into PnRoundInvariant (check_round_end our (cur_round_of d)))
    (λ _ s', NotarizedPost d b s') (MkTx d []).
Proof.
  intros b latest Hrest Hround Hnp Hwf Hp Hsigs Hver Hd Hlt.
  pose proof (proj1 (rest_current d) Hrest) as Hcur. pose proof Hcur as (Hinv & Hb & _).
  pose proof (later_block_fresh d b Hinv Hb Hlt) as Hfresh.
  assert (np = true → (cur_round_of d < u64_max)%N) as Hnc by (intros Hn; apply Hnp, Hn).
  wp_step. destruct (does_directly_extend b latest) eqn:Hext.
  - apply (wp_store_and_end np our d d p); try done.
    exists (cons_blocks_notarized d). split_and!; [by destruct d|done|by apply AcceptNext].
  - wp_step. apply wp_lift.
    2: { intros Hn w. destruct latest as [l|] eqn:Hl; [done|].
         destruct (Hnp Hn) as (_ & _ & _ & _ & Hfirst). specialize (Hfirst Hd Hl).
         fold b in Hfirst. congruence. }
    intros lr Hlr. destruct latest as [l|] eqn:Hl; [|done]. simpl in Hlr. injection Hlr as <-.
    specialize (Hlt l eq_refl).
    wp_step. unfold get_prev_notarized_block. wp_step. cbn [tx_db].
    wp_step. apply wp_fail_if. intros Hext2%negb_false_iff.
    wp_step. unfold delete_notarized_block. wp_step. cbn [tx_db tx_hooks].
    eapply (wp_store_and_end np our d _ p); try done; [by apply current_delete|].
    exists (delete (BlockHeader.round l) (cons_blocks_notarized d)).
    split; [reflexivity|]. split; [|by apply (AcceptRewind _ _ l)].
    rewrite lookup_delete_ne; [done|]. intros He. rewrite He in Hlt. exact (N.lt_irrefl _ Hlt).
Qed.

Lemma wp_process_notarized_tx np our d resp :
  let b := notarized_inner (resp_notarized resp) in
  Rest d → (BlockHeader.round b < u64_max)%N → (np = true → notarized_safe d resp) →
  wp np (process_notarized_block_response_tx our resp) (λ _ s', NotarizedPost d b s') (MkTx d []).
Proof.
  intros b Hrest Hround Hnp. pose proof (proj1 (rest_current d) Hrest) as Hcur.
  pose proof Hcur as (Hinv & Hb & _).
  unfold process_notarized_block_response_tx. cbv zeta. fold b.
  wp_step. apply wp_get_current_round. cbn [tx_db].
  wp_step. apply wp_get_params; [done|]. cbn [tx_db]. intros p Hp Hwf.
  wp_step. rewrite params_len_wf by done. apply wp_lift; [|done]. intros _ [= <-].
  wp_step. apply wp_lift_map_err.
  2: { intros Hn w. destruct (Hnp Hn) as (_ & Hi & _). apply verify_sigs_no_panic; eauto. }
  intros [] Hsigs. wp_step. apply wp_lift_map_err.
  2: { intros Hn w. destruct (Hnp Hn) as (_ & _ & Hl & _). by apply verify_with_content_no_panic. }
  intros [] Hver.
  destruct (is_dummy b) eqn:Hd.
  { wp_step. apply wp_fail_if. intros Hr%bool_decide_eq_false%dec_stable. wp_step.
    apply wp_insert_dummy_votes; [done| |].
    - intros i s Hin. rewrite entries_perm, elem_of_map_to_list in Hin.
      apply verify_sigs_Ok in Hsigs as (_ & _ & Hall).
      apply verify_with_content_Ok in Hver as (_ & _ & _ & Hh & _).
      exists b, p. split_and!; [done|done|by rewrite <-Hr|done|by apply Hall].
    - intros x Hx _. wp_step. unfold notify_new_votes. wp_step. wp_step. cbn [tx_db tx_hooks].
      apply wp_notarized_round_end;
        [by apply current_start|done|by apply moves_keeps; [apply moves_nil|]|intros Hn; apply Hnp, Hn|done| |done..].
      change (Accepts d b (cons_blocks_notarized d)). by apply AcceptDummy. }
  wp_step. unfold get_prev_notarized_block at 1. wp_step. cbn [tx_db].
  destruct (prev_notarized (cur_round_of d) d) as [l|] eqn:Hl.
  - case_decide as Hsame; [case_decide as Heq|].
    + wp_step. split; [|apply moves_nil]. constructor; try done. by left.
    + apply wp_panic. destruct np; [|done]. destruct (Hnp eq_refl) as (_ & _ & _ & Huniq & _).
      destruct Heq. by apply Huniq.
    + destruct (N.leb_spec (BlockHeader.round b) (BlockHeader.round l)); [by wp_step|].
      rewrite <-Hl. apply (wp_take_block np our d p resp); try done. rewrite Hl. by intros ? [= <-].
  - rewrite <-Hl. apply (wp_take_block np our d p resp); try done. by rewrite Hl.
Qed.

(** ** Finality votes *)
Lemma fin_frame_current c d d' : FinFrame d d' → Current c d → Current c d'.
Proof.
  intros Hf (Hi & Hb & Hm).
  split_and!; eauto using fin_frame_inv, fin_frame_bounds, fin_frame_match.
Qed.

Lemma moves_keeps_list c hs hs' : moves c c hs → Forall keeps_round hs' → moves c c (hs ++ hs').
Proof.
  intros Hm Hk. revert hs Hm. induction Hk as [|h hs' Hh Hk IH]; intros hs Hm; [by rewrite app_nil_r|].
  rewrite cons_middle, app_assoc. by apply IH, moves_keeps.
Qed.

Lemma wp_process_finality_tx np d pk resp :
  Rest d → (np = true → verifying_key_ok pk = true) →
  wp np (process_finality_vote_update_response_tx pk resp)
    (λ _ s', FinFrame d (tx_db s') ∧ moves (cur_round_of d) (cur_round_of d) (tx_hooks s')) (MkTx d []).
Proof.
  intros Hrest Hnp. unfold process_finality_vote_update_response_tx.
  wp_step. apply wp_get_current_round. wp_step. apply wp_lift_map_err.
  2: { intros Hn w. unfold verify_sig_peer_pubkey, verify_signature, verify_hash_signature.
       rewrite (Hnp Hn). simpl. by destruct (verify_strict _ _ _). }
  intros _ _. apply wp_update_peer_finality; [apply Hrest|]. cbn [tx_db tx_hooks].
  intros d' hs Hf Hk. split; [done|]. by apply moves_keeps_list; [apply moves_nil|].
Qed.

(** ** Opening *)
(** The effect of opening on the tables. *)
Record OpenStep d d' : Prop := {
  os_rest : Rest d';
  os_round : (cur_round_of d ≤ cur_round_of d')%N;
  os_next : cons_blocks_notarized d = ∅ → (cur_round_of d' ≤ cur_round_of d + 1)%N;
  os_proposals : cons_blocks_proposals d' = cons_blocks_proposals d;
  os_notarized : cons_blocks_notarized d' = cons_blocks_notarized d ∨
    ∃ b, cons_blocks_proposals d !! cur_round_of d = Some b ∧
         cons_blocks_notarized d' = <[cur_round_of d := b]> (cons_blocks_notarized d);
  os_dummy : cons_votes_dummy d' ⊆ cons_votes_dummy d;
  os_schedule : cons_params_schedule d' = cons_params_schedule d;
  os_params : cons_params d' = cons_params d;
}.

Lemma wp_open_internal_tx np our d fs :
  Rest d → (np = true → (cur_round_of d < u64_max)%N) →
  wp np (open_internal_tx our (cur_round_of d) fs)
    (λ _ s', OpenStep d (tx_db s') ∧
       moves (cur_round_of d) (cur_round_of (tx_db s')) (tx_hooks s')) (MkTx d []).
Proof.
  intros Hrest Hnp. pose proof (proj1 (rest_current d) Hrest) as Hcur.
  assert (∀ d' hs, FinFrame d d' → Forall keeps_round hs →
    wp np (check_round_end our (cur_round_of d))
      (λ _ s', OpenStep d (tx_db s') ∧
         moves (cur_round_of d) (cur_round_of (tx_db s')) (tx_hooks s')) (MkTx d' hs)) as Hend.
  { intros d' hs Hf Hk. apply wp_check_round_end; try done.
    - by apply current_start, (fin_frame_current _ d).
    - by destruct Hf as (x & y & z & -> & _).
    - apply (moves_keeps_list _ []); [apply moves_nil|done].
    - intros c' last needs d1 d2 hs' Hres (x2 & y2 & z2 & -> & Hx2) Hr Hle Hc Hm. cbn [tx_db tx_hooks].
      rewrite Hc. split; [|done].
      destruct (round_result_frame _ _ _ _ Hres) as (_ & Hp & _ & Hs & Hpa & Hdu).
      assert (cons_blocks_notarized d1 = cons_blocks_notarized d' ∨
        ∃ b, cons_blocks_proposals d' !! cur_round_of d = Some b ∧
             cons_blocks_notarized d1 = <[cur_round_of d := b]> (cons_blocks_notarized d')) as Hn
        by (inversion Hres; subst; [by left|right|by left..];
            match goal with Hq : proposal_quorum _ _ ?b |- _ => exists b; split; [apply Hq|done] end).
      assert (cons_blocks_notarized d = ∅ → (c' ≤ cur_round_of d + 1)%N) as Hnext.
      { intros Hempty. assert (cons_blocks_notarized d' = ∅) as Hempty' by (by destruct Hf as (x & y & z & -> & _)).
        inversion Hres; subst; try lia.
        match goal with Hb : cons_blocks_notarized d1 !! _ = Some _ |- _ => by rewrite Hempty', lookup_empty in Hb end. }
      assert (x2 ⊆ cons_votes_dummy d) as Hx.
      { etrans; [exact Hx2|]. unfold advance_to. destruct Hf as (x & y & z & -> & Hx).
        case_decide; cbn; by rewrite Hdu. }
      destruct Hf as (x & y & z & -> & _).
      constructor; [done|by rewrite Hc|by rewrite Hc|..]; cbn; unfold advance_to; try case_decide; cbn;
        rewrite ?Hp, ?Hs, ?Hpa; done. }
  unfold open_internal_tx. wp_step. destruct our as [pk|].
  - apply wp_update_peer_finality; [apply Hrest|]. cbn [tx_db tx_hooks]. intros d' hs Hf Hk.
    by apply Hend.
  - wp_step. apply Hend; [apply fin_frame_refl|done].
Qed.

(** ** Scheduling new parameters *)
Definition schedule_params a p d : ConsDb :=
  set_cons_params (<[params_hash p := p]> (cons_params d))
    (set_cons_params_schedule (<[a := params_hash p]> (cons_params_schedule d)) d).

Lemma params_at_schedule a p d r :
  DbInv d → cons_params_schedule d !! a = None →
  (∀ p', cons_params d !! params_hash p = Some p' → p' = p) →
  (r < a)%N → params_at (schedule_params a p d) r = params_at d r.
Proof.
  intros Hinv Hfresh Hcol Hr. unfold params_at, range_last. cbn [schedule_params set_cons_params
    set_cons_params_schedule cons_params_schedule cons_params].
  rewrite (range_ext (rg_to_incl r) (<[a := params_hash p]> (cons_params_schedule d)) (cons_params_schedule d)).
  2: { intros k Hk%rg_to_incl_N. apply lookup_insert_ne. lia. }
  destruct (last (range (rg_to_incl r) (cons_params_schedule d))) as [[k h]|] eqn:Hl; [|done].
  change (range_last (rg_to_incl r) (cons_params_schedule d) = Some (k, h)) in Hl.
  apply range_last_Some in Hl as (Hk & _ & _). destruct (inv_params d Hinv k h Hk) as (p0 & Hp0 & Hh & _).
  destruct (decide (params_hash p = h)) as [<-|Hne]; [|by apply lookup_insert_ne].
  rewrite Hp0, (Hcol p0 Hp0). apply lookup_insert_eq.
Qed.

Lemma schedule_params_rest a p d :
  Rest d → (cur_round_of d < a)%N → params_wf p → cons_params_schedule d !! a = None →
  (∀ p', cons_params d !! params_hash p = Some p' → p' = p) → Rest (schedule_params a p d).
Proof.
  intros [Hinv Hb Hm] Ha Hwf Hfresh Hcol.
  pose proof (λ r, params_at_schedule a p d r Hinv Hfresh Hcol) as Hpar.
  assert (∀ r, (r < cur_round_of d + 1)%N → params_at (schedule_params a p d) r = params_at d r) as Hsame
    by (intros; apply Hpar; lia).
  constructor; [|by destruct Hb|done]. destruct Hinv, Hb. constructor; try assumption.
  - simpl. apply lookup_insert_is_Some. destruct (decide (a = 0%N)); auto.
  - simpl. intros r h [[<- <-]|[_ Hr]]%lookup_insert_Some.
    + exists p. rewrite lookup_insert_eq. done.
    + destruct (inv_params r h Hr) as (p0 & Hp0 & Hh & Hwf0).
      destruct (decide (params_hash p = h)) as [<-|Hne].
      * exists p. rewrite lookup_insert_eq. done.
      * exists p0. by rewrite lookup_insert_ne.
  - intros r b Hrb. unfold block_ok. rewrite Hsame; [by apply inv_proposals|eauto].
  - intros r b Hrb. pose proof (rb_notarized r b Hrb). destruct (inv_notarized r b Hrb) as [Hok [Hq Hall]].
    unfold block_ok, quorum. rewrite Hsame by lia. done.
  - intros r i v Hv. unfold vote_ok. rewrite Hsame; [by eapply inv_votes|eauto].
  - intros r i s Hs. unfold dummy_ok. rewrite Hsame; [by eapply inv_dummy|eauto].
Qed.

Lemma wp_consensus_params_change_tx {E} np d watch round ts peers hs :
  Rest d → (cur_round_of d ≤ watch)%N →
  (∀ p p', params_at d round = Some p →
     make_change (E:=E) p round ts peers
       ((λ b, (BlockHeader.round b, hash b)) <$> prev_notarized (round_half round) d) = Ok p' →
     params_wf p' ∧ cons_params_schedule d !! ConsensusParams.apply_round p' = None ∧
     (∀ q, cons_params d !! params_hash p' = Some q → q = p') ∧
     (np = true → (watch < ConsensusParams.apply_round p')%N)) →
  (np = true → (round + 255 + 32 ≤ u64_max)%N) →
  wp (E:=E) np (consensus_params_change_tx watch round ts peers)
    (λ _ s', Rest (tx_db s') ∧ tx_hooks s' = hs ∧ ∃ p', params_wf p' ∧
       tx_db s' = schedule_params (ConsensusParams.apply_round p') p' d ∧
       (watch < ConsensusParams.apply_round p')%N ∧
       ∀ r, (r < ConsensusParams.apply_round p')%N → params_at (tx_db s') r = params_at d r) (MkTx d hs).
Proof.
  intros Hrest Hw Hnew Hnp. unfold consensus_params_change_tx.
  wp_step. apply wp_get_params; [apply Hrest|]. cbn [tx_db]. intros p Hp Hwf.
  wp_step. unfold get_prev_notarized_block. wp_step. cbn [tx_db]. wp_step. apply wp_lift.
  2: { intros Hn w. unfold make_change, consensus_params_schedulign_delay.
       rewrite NumPeers.to_num_peers_ok by apply pwf_max, Hwf. simpl.
       unfold checked_add. rewrite decide_True; [done|].
       pose proof (npeers_pos p Hwf). specialize (Hnp Hn). unfold npeers in *.
       unfold NumPeers.total, CONSENSUS_PARAMS_CORE_APPLY_DELAY_BASE. lia. }
  intros p' Hp'. destruct (Hnew p p' Hp Hp') as (Hwf' & Hfresh & Hcol & Happ).
  wp_step. apply wp_lift.
  2: { intros Hn w. rewrite (proj2 (N.ltb_lt _ _)) by auto. done. }
  intros [] Hlt. assert (watch < ConsensusParams.apply_round p')%N as Hlt'.
  { apply N.ltb_lt. by destruct (_ <? _)%N. }
  unfold insert_consensus_params. cbv zeta. repeat wp_step. cbn [tx_db tx_hooks].
  rewrite Hfresh. repeat wp_step. cbn [tx_db tx_hooks].
  change (set_cons_params _ _) with (schedule_params (ConsensusParams.apply_round p') p' d).
  split; [|split; [done|exists p'; split_and!; try done]].
  - apply schedule_params_rest; try done. lia.
  - intros r Hr. apply params_at_schedule; try done. apply Hrest.
Qed.
End Steps.
