(* ===== verification/ConsSpec.v ===== *)
(** * What the consensus engine guarantees

    The states a node's [Consensus] can be in ([reachable]: created by [init] on
    an empty database, then any sequence of votes, notarized blocks, finality
    votes, parameter changes and restarts), and the properties of those states
    and of the handlers. *)
From S2P Require Import Prelude VoteSet Peers Core Db ConsDb ConsInv Consensus ConsRound ConsSteps.

Section States.
Context `{Crypto} `{Bincode}.
Implicit Types (self : Consensus) (d : ConsDb) (b : BlockHeader.t) (p : ConsensusParams.t) (r c : N).

(** A consensus between two operations: the database is at rest and the round
    channel shows its current round. *)
Definition consensus_wf self : Prop :=
  Rest (db self) ∧ (current_round_with_timeout (watches self)).1 = cur_round_of (db self).

Definition cur self : BlockRound := cur_round_of (db self).

(** Conditions under which parameters are scheduled: they can be run with, no
    parameters are scheduled for that round yet, and they do not have the hash
    of other parameters. *)
Definition change_ok self round ts (peers : list PeerPubkey) : Prop := ∀ p p',
  params_at (db self) round = Some p →
  make_change (E:=Empty_set) p round ts peers
    ((λ b, (BlockHeader.round b, hash b)) <$> prev_notarized (round_half round) (db self)) = Ok p' →
  params_wf p' ∧ cons_params_schedule (db self) !! ConsensusParams.apply_round p' = None ∧
  (∀ q, cons_params (db self) !! params_hash p' = Some q → q = p').

(** The operations on a running consensus, whatever the messages hold. *)
Inductive cstep : Consensus → Consensus → Prop :=
  | CVote self i resp : cstep self (process_vote_response self i resp).2
  | CNotarized self i resp :
      (BlockHeader.round (notarized_inner (resp_notarized resp)) < u64_max)%N →
      cstep self (process_notarized_block_response self i resp).2
  | CFinality self pk resp : cstep self (process_finality_vote_update_response self pk resp).2
  | CParams self round ts peers :
      change_ok self round ts peers →
      cstep self (write_tx self (consensus_params_change_tx (E:=Empty_set)
        (current_round_with_timeout (watches self)).1 round ts peers)).2
  | CReopen self our self' : open (db self) our = Ok self' → cstep self self'.

Inductive reachable : Consensus → Prop :=
  | RInit params our pinned self :
      params_wf params → init params empty_db our pinned = Ok self → reachable self
  | RStep self self' : reachable self → cstep self self' → reachable self'.

(** ** Running a handler on a well-formed consensus *)
Lemma write_tx_spec {E A} np self (f : CTx E A) (Q : A → TxState ConsDb Hook → Prop) :
  wp np f Q (MkTx (db self) []) →
  match write_tx self f with
  | (Ok a, self') => ∃ hooks, Q a (MkTx (db self') hooks) ∧
      watches self' = foldl run_hook (watches self) hooks
  | (Err _, self') => self' = self
  | (Panic _, self') => self' = self ∧ np = false
  end.
Proof.
  intros Hwp. pose proof (wp_run run_hook np f Q (db self) (watches self) Hwp) as Hrun.
  unfold write_tx. destruct (write_with_expect_falliable run_hook f (db self, watches self)) as [[a|e|w] [d' w']].
  - destruct Hrun as (hooks & -> & HQ). eauto.
  - simplify_eq. by destruct self.
  - destruct Hrun as [Heq Hn]. simplify_eq. by destruct self.
Qed.

Lemma moves_wf self d' w hooks :
  consensus_wf self → moves (cur self) (cur_round_of d') hooks → Rest d' →
  w = foldl run_hook (watches self) hooks →
  consensus_wf (MkConsensus d' (our_peer_pubkey self) w).
Proof. intros [_ Hw] Hm Hr ->. split; [done|]. by apply Hm. Qed.

Definition vote_outcome self i resp : Prop :=
  match process_vote_response self i resp with
  | (Ok _, self') => consensus_wf self' ∧ VoteStep (db self) (db self')
  | (_, self') => self' = self
  end.

Lemma vote_spec self i resp : consensus_wf self → vote_outcome self i resp.
Proof.
  intros Hwf. unfold vote_outcome, process_vote_response.
  pose proof (write_tx_spec false self (process_vote_response_tx (our_peer_pubkey self) i resp) _
    (wp_process_vote_response_tx false _ (db self) i resp (proj1 Hwf) ltac:(done))) as Hs.
  destruct (write_tx _ _) as [[[]|e|w] self'] eqn:Hrun; [|done|by destruct Hs].
  destruct Hs as (hooks & [Hv Hm] & Hw). split; [|done].
  split; [apply Hv|]. rewrite Hw. by apply Hm, Hwf.
Qed.

Definition notarized_outcome self i resp : Prop :=
  match process_notarized_block_response self i resp with
  | (Ok _, self') => consensus_wf self' ∧
      NotarizedStep (db self) (notarized_inner (resp_notarized resp)) (db self')
  | (_, self') => self' = self
  end.

Lemma notarized_spec self i resp :
  consensus_wf self → (BlockHeader.round (notarized_inner (resp_notarized resp)) < u64_max)%N →
  notarized_outcome self i resp.
Proof.
  intros Hwf Hr. unfold notarized_outcome, process_notarized_block_response.
  pose proof (write_tx_spec false self (process_notarized_block_response_tx (our_peer_pubkey self) resp) _
    (wp_process_notarized_tx false _ (db self) resp (proj1 Hwf) Hr ltac:(done))) as Hs.
  destruct (write_tx _ _) as [[[]|e|w] self'] eqn:Hrun; [|done|by destruct Hs].
  destruct Hs as (hooks & [Hv Hm] & Hw). split; [|done].
  split; [apply Hv|]. rewrite Hw. by apply Hm, Hwf.
Qed.

Lemma finality_spec self pk resp :
  consensus_wf self →
  let self' := (process_finality_vote_update_response self pk resp).2 in
  consensus_wf self' ∧ FinFrame (db self) (db self').
Proof.
  intros Hwf. unfold process_finality_vote_update_response. cbv zeta.
  pose proof (write_tx_spec false self (process_finality_vote_update_response_tx pk resp) _
    (wp_process_finality_tx false (db self) pk resp (proj1 Hwf) ltac:(done))) as Hs.
  destruct (write_tx _ _) as [[[]|e|w] self'] eqn:Hrun; cbn.
  - destruct Hs as (hooks & [Hf Hm] & Hw). cbn in Hf. split; [|done].
    assert (cur_round_of (db self') = cur_round_of (db self)) as Hc
      by by destruct Hf as (x & y & z & -> & _).
    split; [by eapply fin_frame_rest, Hwf|]. rewrite Hw, Hc. by apply Hm, Hwf.
  - subst. split; [done|apply fin_frame_refl].
  - destruct Hs as [-> _]. split; [done|apply fin_frame_refl].
Qed.

Lemma params_spec self round ts peers :
  consensus_wf self → change_ok self round ts peers →
  let self' := (write_tx self (consensus_params_change_tx (E:=Empty_set)
    (current_round_with_timeout (watches self)).1 round ts peers)).2 in
  consensus_wf self' ∧ (self' = self ∨ ∃ p', params_wf p' ∧
    db self' = schedule_params (ConsensusParams.apply_round p') p' (db self) ∧
    (cur self < ConsensusParams.apply_round p')%N ∧
    ∀ r, (r < ConsensusParams.apply_round p')%N → params_at (db self') r = params_at (db self) r).
Proof.
  intros Hwf Hch. cbv zeta. pose proof Hwf as [Hrest Hcur].
  pose proof (write_tx_spec false self _ _
    (wp_consensus_params_change_tx (E:=Empty_set) false (db self) (current_round_with_timeout (watches self)).1
       round ts peers [] Hrest ltac:(rewrite Hcur; done)
       ltac:(intros p p' Hp Hp'; destruct (Hch p p' Hp Hp') as (? & ? & ?); split_and!; done) ltac:(done))) as Hs.
  destruct (write_tx _ _) as [[[]|e|w] self'] eqn:Hrun; cbn [snd].
  - destruct Hs as (hooks & (Hr & Hh & p' & Hwf' & Hdb & Hlt & Hpar) & Hw). cbn in Hh, Hr, Hdb. subst hooks.
    assert (cur_round_of (db self') = cur_round_of (db self)) as Hc by by rewrite Hdb.
    split.
    + split; [done|]. by rewrite Hw, Hc.
    + right. exists p'. split_and!; [done|done| |done]. unfold cur. by rewrite <-Hcur.
  - subst. auto.
  - destruct Hs as [-> _]. auto.
Qed.

(** ** Opening and creating *)
Lemma open_internal_spec {E} d our self :
  Rest d → open_internal (E:=E) (cur_round_of d) d our = Ok self →
  consensus_wf self ∧ OpenStep d (db self) ∧ our_peer_pubkey self = our.
Proof.
  intros Hrest Ho. unfold open_internal in Ho.
  destruct (open_watches (E:=E) (cur_round_of d) d) as [w| |] eqn:Hw; [|done..]. cbn in Ho.
  assert ((current_round_with_timeout w).1 = cur_round_of d) as Hcr.
  { unfold open_watches in Hw. destruct (match prev_notarized (cur_round_of d) d with
      | Some _ => _ | None => _ end); [|done..]. by injection Hw as <-. }
  pose proof (write_tx_spec false (MkConsensus d our w) _ _
    (wp_open_internal_tx false our d (finality_self_vote w) Hrest ltac:(done))) as Hs.
  destruct (write_tx _ _) as [[[]|e|m] self'] eqn:Hrun; [|done|done]. injection Ho as <-.
  destruct Hs as (hooks & (Hr & Hm) & Hw'). split_and!; [|done|].
  - split; [apply Hr|]. rewrite Hw'. by apply Hm.
  - unfold write_tx in Hrun. destruct (write_with_expect_falliable _ _ _) as [? [? ?]].
    by injection Hrun as _ <-.
Qed.

Lemma open_is_internal d our self :
  DbInv d → open d our = Ok self → open_internal (E:=OpenError) (cur_round_of d) d our = Ok self.
Proof.
  intros Hinv Ho. unfold open in Ho.
  assert (write_with_expect_falliable run_hook open_tx (d, MkWatches (0%N, false) 0 0 0 0)
    = (Ok (cur_round_of d), (d, MkWatches (0%N, false) 0 0 0 0))) as Htx; [|by rewrite Htx in Ho].
  unfold write_with_expect_falliable, write_with_inner_falliable, open_tx, mbind, tx_bind, tx_read. cbn [fst tx_db].
  destruct (get_consensus_params_inv (E:=OpenError) d 0 Hinv) as (p & Hg & _).
  unfold get_consensus_params, mbind, rd_bind in Hg.
  destruct (get_consensus_params_opt 0%N d) as [[q|]| |]; try done.
Qed.

Lemma open_spec d our self :
  Rest d → open d our = Ok self →
  consensus_wf self ∧ OpenStep d (db self) ∧ our_peer_pubkey self = our.
Proof.
  intros Hrest Ho. apply (open_internal_spec (E:=OpenError)); [done|].
  by apply open_is_internal; [apply Hrest|].
Qed.

Definition init_db params (pinned : option (N * N)) : ConsDb :=
  let d := schedule_params 0 params empty_db in
  match pinned with
  | Some (round, h) => set_cons_blocks_pinned (<[round := h]> (cons_blocks_pinned d)) d
  | None => d
  end.

Lemma init_db_rest params pinned : params_wf params → Rest (init_db params pinned).
Proof.
  intros Hwf.
  assert (DbInv (schedule_params 0 params empty_db)) as Hinv.
  { constructor; simpl; try (intros *; rewrite lookup_empty; done).
    - rewrite lookup_insert_eq. eauto.
    - intros r h [[<- <-]|[_ Hr]]%lookup_insert_Some; [|by rewrite lookup_empty in Hr].
      exists params. rewrite lookup_insert_eq. done. }
  assert (Rest (schedule_params 0 params empty_db)) as Hrest.
  { constructor; [done| |].
    - constructor; simpl; intros *; rewrite lookup_empty; done.
    - intros b i v. simpl. by rewrite lookup_empty. }
  unfold init_db. destruct pinned as [[r h]|]; [|done].
  destruct Hrest as [? [] ?]. constructor; [by apply inv_set_pinned|by constructor|done].
Qed.

(** Creating a consensus is opening the database with the parameters in it. *)
Lemma init_runs params our pinned :
  init params empty_db our pinned =
  open_internal (E:=InitError) (cur_round_of (init_db params pinned)) (init_db params pinned) our.
Proof.
  unfold init.
  assert (write_with_expect_falliable run_hook (init_tx params pinned) (empty_db, MkWatches (0%N, false) 0 0 0 0)
    = (Ok 0%N, (init_db params pinned, MkWatches (0%N, false) 0 0 0 0))) as ->
    by by destruct pinned as [[r h]|].
  by assert (cur_round_of (init_db params pinned) = 0%N) as -> by by destruct pinned as [[]|].
Qed.

Lemma init_is_internal params our pinned self :
  init params empty_db our pinned = Ok self →
  open_internal (E:=InitError) (cur_round_of (init_db params pinned)) (init_db params pinned) our = Ok self.
Proof. by rewrite init_runs. Qed.

Lemma init_spec params our pinned self :
  params_wf params → init params empty_db our pinned = Ok self →
  consensus_wf self ∧ our_peer_pubkey self = our.
Proof.
  intros Hwf Hi. pose proof (init_db_rest params pinned Hwf) as Hr.
  destruct (open_internal_spec (E:=InitError) _ _ _ Hr (init_is_internal _ _ _ _ Hi)) as (? & _ & ?). done.
Qed.

(** ** Every operation keeps the invariant and never goes back *)
Definition params_kept self self' : Prop :=
  ∀ r, (r ≤ cur self)%N → params_at (db self') r = params_at (db self) r.

Lemma params_at_tables d d' r :
  cons_params_schedule d' = cons_params_schedule d → cons_params d' = cons_params d →
  params_at d' r = params_at d r.
Proof. intros Hs Hp. unfold params_at. by rewrite Hs, Hp. Qed.

Lemma proposals_insert_new d d' c :
  (cons_blocks_proposals d' = cons_blocks_proposals d ∨
   ∃ b, cons_blocks_proposals d !! c = None ∧
     does_directly_extend b (prev_notarized c d) = true ∧
     cons_blocks_proposals d' = <[c := b]> (cons_blocks_proposals d)) →
  cons_blocks_proposals d ⊆ cons_blocks_proposals d'.
Proof. intros [->|(b & Hn & _ & ->)]; [done|]. by apply insert_subseteq. Qed.

Lemma cstep_spec self self' :
  consensus_wf self → cstep self self' →
  consensus_wf self' ∧ (cur self ≤ cur self')%N ∧
  cons_blocks_proposals (db self) ⊆ cons_blocks_proposals (db self') ∧ params_kept self self'.
Proof.
  intros Hwf Hstep. destruct Hstep as [self i resp|self i resp Hr|self pk resp|self round ts peers Hch|self our self' Ho].
  - pose proof (vote_spec self i resp Hwf) as Hv. unfold vote_outcome in Hv.
    destruct (process_vote_response self i resp) as [[[]|e|w] self']; cbn; try (by subst).
    destruct Hv as [Hwf' Hv]. pose proof (vs_round _ _ Hv). split_and!; [done|unfold cur; lia| |].
    + eapply proposals_insert_new, Hv.
    + intros r _. by apply params_at_tables; apply Hv.
  - pose proof (notarized_spec self i resp Hwf Hr) as Hv. unfold notarized_outcome in Hv.
    destruct (process_notarized_block_response self i resp) as [[[]|e|w] self']; cbn; try (by subst).
    destruct Hv as [Hwf' Hv]. pose proof (ns_round _ _ _ Hv).
    split_and!; [done|unfold cur; lia|by rewrite (ns_proposals _ _ _ Hv)|].
    intros r _. by apply params_at_tables; apply Hv.
  - destruct (finality_spec self pk resp Hwf) as [Hwf' (x & y & z & Hd & _)].
    unfold cur, params_kept. rewrite Hd. done.
  - destruct (params_spec self round ts peers Hwf Hch) as [Hwf' [->|(p' & Hp' & Hd & Hlt & Hpar)]]; [done|].
    split_and!; [done| | |intros r Hrr; apply Hpar; lia]; unfold cur; by rewrite Hd.
  - destruct (open_spec _ _ _ (proj1 Hwf) Ho) as (? & Ho' & _).
    split_and!; [done|apply Ho'|by rewrite (os_proposals _ _ Ho')|].
    intros r _. by apply params_at_tables; apply Ho'.
Qed.

Lemma reachable_wf self : reachable self → consensus_wf self.
Proof.
  induction 1 as [params our pinned self Hwf Hi|self self' _ IH Hs].
  - by destruct (init_spec _ _ _ _ Hwf Hi).
  - by destruct (cstep_spec _ _ IH Hs).
Qed.
End States.
