(* ===== verification/ConsVotes.v ===== *)
(** * Where the stored votes come from

    A vote in [cons_votes_block] was stored there by the handler of the message
    that holds it, and the proposal of a round by the handler of the [Proposal]
    that holds it.  Both are proved by following the handlers ([keeps]). *)
From S2P Require Import Prelude VoteSet Peers Core Db ConsDb ConsInv Consensus ConsRound ConsSteps ConsSpec.

Section Votes.
Context `{Crypto} `{Bincode}.
Implicit Types (d : ConsDb) (b : BlockHeader.t) (r : N).

(** All stored votes satisfy [S]. *)
Definition votes_sat (S : N * N → SignedVote → Prop) d : Prop := map_Forall S (cons_votes_block d).

(** A predicate that only the tables of votes, or only those of proposals,
    matter for. *)
Definition about_votes (P : ConsDb → Prop) : Prop :=
  ∀ d d', cons_votes_block d' = cons_votes_block d → P d → P d'.
Definition about_proposals (P : ConsDb → Prop) : Prop :=
  ∀ d d', cons_blocks_proposals d' = cons_blocks_proposals d → P d → P d'.

Lemma votes_sat_about S : about_votes (votes_sat S).
Proof. intros d d' Heq. unfold votes_sat. by rewrite Heq. Qed.

Lemma votes_sat_retain S r b d : votes_sat S d → votes_sat S (retain_matching_votes r b d).
Proof. intros Hd k v [Hv _]%retain_in_lookup. by apply Hd. Qed.

(** The steps of the end of a round keep a predicate that survives the updates
    they make. *)
Section Generic.
Variable P : ConsDb → Prop.
Hypothesis P_round : ∀ x d, P d → P (set_cons_current_round x d).
Hypothesis P_finality : ∀ x d, P d → P (set_cons_finality_consensus x d).
Hypothesis P_finality_votes : ∀ x d, P d → P (set_cons_finality_votes x d).
Hypothesis P_dummy : ∀ x d, P d → P (set_cons_votes_dummy x d).
Hypothesis P_notarized : ∀ r b d, P d → P (set_cons_blocks_notarized (<[r := b]> (cons_blocks_notarized d)) d).
Hypothesis P_payloads : ∀ h p d, P d → P (set_cons_blocks_payloads (<[h := p]> (cons_blocks_payloads d)) d).
Hypothesis P_retain : ∀ r b d, P d → P (retain_matching_votes r b d).

Lemma keeps_finality {E} c pk v : keeps P (update_peer_finality_vote_round (E:=E) c pk v).
Proof using P_finality P_finality_votes P_dummy.
  unfold update_peer_finality_vote_round, update_finality_vote, recalculate_finality_consensus_tx,
    update_finality_consensus, prune_dummy_votes.
  repeat keeps_step; auto.
Qed.

Lemma keeps_insert_notarized {E} r b payload :
  keeps P (insert_notarized_block (E:=E) r b payload : Tx ConsDb Hook E _).
Proof using P_notarized P_payloads P_retain. unfold insert_notarized_block. repeat keeps_step; auto. Qed.

Lemma keeps_loop fuel start h c last : keeps P (check_round_end_loop fuel start h c last).
Proof using P_notarized P_payloads P_retain.
  revert c last. induction fuel as [|fuel IH]; intros c last; cbn [check_round_end_loop]; [by repeat keeps_step|].
  unfold check_pinned, check_dummy_votes.
  repeat first [apply IH|apply keeps_insert_notarized|keeps_step].
Qed.

Lemma keeps_check_round_end our c : keeps P (check_round_end our c).
Proof using All.
  unfold check_round_end, set_current_round.
  repeat first [apply keeps_loop|apply keeps_finality|keeps_step]; auto.
Qed.

Lemma keeps_open our c f : keeps P (open_internal_tx our c f).
Proof using All.
  unfold open_internal_tx.
  repeat first [apply keeps_check_round_end|apply keeps_finality|keeps_step].
Qed.

Lemma keeps_dummy_votes {E} r l : keeps P (insert_dummy_votes (E:=E) r l).
Proof using P_dummy.
  induction l as [|[i s] l IH]; cbn [insert_dummy_votes]; unfold insert_dummy_vote;
    repeat first [apply IH|keeps_step]; auto.
Qed.

(** A vote, when storing it keeps [P]. *)
Lemma keeps_process_vote our c i p h l vote :
  (∀ d, P d → P (set_cons_votes_block (<[(c, i) := vote]> (cons_votes_block d)) d)) →
  keeps P (process_vote our c i p h l vote).
Proof using All.
  intros Hvote. unfold process_vote, insert_dummy_vote, insert_block_vote, notify_new_votes.
  repeat first [apply keeps_check_round_end|keeps_step]; auto.
Qed.

Lemma keeps_process_proposal c i p h l block payload :
  (∀ d, P d → P (set_cons_blocks_proposals (<[c := signed_inner block]> (cons_blocks_proposals d)) d)) →
  keeps P (process_proposal c i p h l block payload).
Proof using P_payloads P_retain.
  intros Hprop. unfold process_proposal, insert_block_proposal. repeat keeps_step; auto.
Qed.
End Generic.

(** ** The votes of a message *)

(** What [process_proposal] returns to be handled as a vote is the proposal. *)
Lemma process_proposal_result c i p h l block payload s :
  wp false (process_proposal c i p h l block payload) (λ v _, ∀ vote, v = Some vote → vote = block) s.
Proof.
  unfold process_proposal, insert_block_proposal.
  repeat first [wp_step|apply wp_read; [intros ? _|done]].
  case_match; repeat wp_step; [case_decide|]; repeat wp_step; by intros ? [=].
Qed.

Section Response.
Variable P : ConsDb → Prop.
Hypothesis P_round : ∀ x d, P d → P (set_cons_current_round x d).
Hypothesis P_finality : ∀ x d, P d → P (set_cons_finality_consensus x d).
Hypothesis P_finality_votes : ∀ x d, P d → P (set_cons_finality_votes x d).
Hypothesis P_dummy : ∀ x d, P d → P (set_cons_votes_dummy x d).
Hypothesis P_notarized : ∀ r b d, P d → P (set_cons_blocks_notarized (<[r := b]> (cons_blocks_notarized d)) d).
Hypothesis P_payloads : ∀ h p d, P d → P (set_cons_blocks_payloads (<[h := p]> (cons_blocks_payloads d)) d).
Hypothesis P_retain : ∀ r b d, P d → P (retain_matching_votes r b d).

Lemma keeps_vote_response our i resp :
  (∀ c d, P d → P (set_cons_votes_block (<[(c, i) := resp_block resp]> (cons_votes_block d)) d)) →
  (is_proposal resp = true → ∀ c d, P d →
     P (set_cons_blocks_proposals (<[c := signed_inner (resp_block resp)]> (cons_blocks_proposals d)) d)) →
  keeps P (process_vote_response_tx our i resp).
Proof using All.
  intros Hvote Hprop. unfold process_vote_response_tx. do 4 (keeps_step; [keeps_step|]).
  intros s Hs. apply wp_bind.
  eapply wp_mono with (Q := λ v s', P (tx_db s') ∧ ∀ vote, v = Some vote → vote = resp_block resp).
  - destruct resp as [block payload|block]; [|apply wp_ret; naive_solver].
    apply wp_conj; [|apply process_proposal_result].
    apply keeps_process_proposal; auto.
  - intros [vote|] s' [Hs' Heq]; [|by apply wp_ret]. rewrite (Heq vote) by done.
    apply keeps_process_vote; auto.
Qed.

Lemma keeps_block_votes {E} r b l :
  (∀ i s d, (i, s) ∈ l → P d →
     P (set_cons_votes_block (<[(r, i) := MkSigned b s]> (cons_votes_block d)) d)) →
  keeps P (insert_block_votes (E:=E) r b l).
Proof using P.
  induction l as [|[i s] l IH]; intros Hl; cbn [insert_block_votes]; [keeps_step|].
  unfold insert_block_vote. repeat keeps_step.
  - intros d. apply Hl. by left.
  - apply IH. intros j t d Hin. apply Hl. by right.
Qed.

Lemma keeps_notarized_response our resp :
  let b := notarized_inner (resp_notarized resp) in
  (∀ i s d, sigs (resp_notarized resp) !! i = Some s → P d →
     P (set_cons_votes_block (<[(BlockHeader.round b, i) := MkSigned b s]> (cons_votes_block d)) d)) →
  (∀ r d, P d → P (set_cons_blocks_notarized (delete r (cons_blocks_notarized d)) d)) →
  keeps P (process_notarized_block_response_tx our resp).
Proof using All.
  intros b Hvote Hdelete.
  assert (keeps P (cons_insert_notarized_block (E:=ProcessNotarizedBlockError)
    (resp_notarized resp) (resp_payload resp))) as Hins.
  { unfold cons_insert_notarized_block, notify_new_votes.
    repeat first [apply keeps_insert_notarized; assumption
      |apply keeps_block_votes; intros i s d; rewrite entries_perm, elem_of_map_to_list; apply Hvote
      |keeps_step]. }
  unfold process_notarized_block_response_tx, notify_new_votes, delete_notarized_block.
  repeat first [apply Hins|apply keeps_check_round_end; assumption
    |apply keeps_dummy_votes; assumption|keeps_step]; auto.
Qed.
End Response.

Lemma keeps_votes_response S our i resp :
  (∀ c, S (c, i) (resp_block resp)) → keeps (votes_sat S) (process_vote_response_tx our i resp).
Proof.
  intros HS. apply keeps_vote_response; try done; [apply votes_sat_retain|].
  intros c d Hd k v. simpl. intros [[<- <-]|[_ Hk]]%lookup_insert_Some; [done|by apply Hd].
Qed.

Lemma keeps_votes_notarized S our resp :
  let b := notarized_inner (resp_notarized resp) in
  (∀ i s, sigs (resp_notarized resp) !! i = Some s → S (BlockHeader.round b, i) (MkSigned b s)) →
  keeps (votes_sat S) (process_notarized_block_response_tx our resp).
Proof.
  intros b HS. apply keeps_notarized_response; try done; [apply votes_sat_retain|].
  intros i s d Hs Hd k v. simpl. intros [[<- <-]|[_ Hk]]%lookup_insert_Some; [by apply HS|by apply Hd].
Qed.

Lemma keeps_votes_finality S pk resp :
  keeps (votes_sat S) (process_finality_vote_update_response_tx pk resp).
Proof.
  unfold process_finality_vote_update_response_tx. repeat first [apply keeps_finality; done|keeps_step].
Qed.

Lemma keeps_votes_params {E} S w r ts peers :
  keeps (votes_sat S) (consensus_params_change_tx (E:=E) w r ts peers).
Proof. unfold consensus_params_change_tx, insert_consensus_params. repeat keeps_step. Qed.

Lemma keeps_votes_open S our c f : keeps (votes_sat S) (open_internal_tx our c f).
Proof. apply keeps_open; try done. apply votes_sat_retain. Qed.

(** ** Methods *)
Lemma write_tx_keeps {E A} P self (f : CTx E A) :
  keeps P f → P (db self) → P (db (write_tx self f).2).
Proof.
  intros Hk HP. pose proof (write_tx_spec false self f _ (Hk (MkTx (db self) []) HP)) as Hs.
  destruct (write_tx self f) as [[a|e|w] self']; simpl.
  - by destruct Hs as (hooks & ? & _).
  - by subst.
  - by destruct Hs as [-> _].
Qed.

Lemma open_internal_keeps {E} P c d our self :
  (∀ f, keeps P (open_internal_tx our c f)) → P d → open_internal (E:=E) c d our = Ok self → P (db self).
Proof.
  intros Hk HP Ho. unfold open_internal in Ho.
  destruct (open_watches c d) as [w| |]; [|done..]. cbn in Ho.
  pose proof (write_tx_keeps P (MkConsensus d our w) _ (Hk (finality_self_vote w)) HP) as Hdb.
  destruct (write_tx _ _) as [[[]|e|m] self']; [|done..]. by injection Ho as <-.
Qed.

(** ** A proposal that is accepted is stored *)
Lemma wp_proposal_stored our i block payload s :
  wp false (process_vote_response_tx our i (Proposal block payload))
    (λ _ s', cons_blocks_proposals (tx_db s') !! BlockHeader.round (signed_inner block)
             = Some (signed_inner block)) s.
Proof.
  unfold process_vote_response_tx, get_current_round. wp_step. wp_step. cbv zeta. cbn [resp_block].
  wp_step. apply wp_fail_if. intros Hr%bool_decide_eq_false%dec_stable.
  do 2 (wp_step; apply wp_read; [intros ? _|done]).
  set (P := λ d, cons_blocks_proposals d !! BlockHeader.round (signed_inner block) = Some (signed_inner block)).
  wp_step. apply (wp_mono _ _ (λ _ s', P (tx_db s'))).
  - unfold process_proposal, insert_block_proposal. rewrite <-Hr.
    repeat first [wp_step|apply wp_read; [intros ? _|done]].
    case_match; repeat wp_step.
    + case_decide; repeat wp_step. subst P. by subst.
    + apply lookup_insert_eq.
  - intros [vote|] s' HP; [|by apply wp_ret]. by apply (keeps_process_vote P).
Qed.

Lemma proposal_stored self i block payload self' :
  process_vote_response self i (Proposal block payload) = (Ok (), self') →
  cons_blocks_proposals (db self') !! BlockHeader.round (signed_inner block) = Some (signed_inner block).
Proof.
  intros Hp. unfold process_vote_response in Hp.
  pose proof (write_tx_spec false self _ _ (wp_proposal_stored (our_peer_pubkey self) i block payload
    (MkTx (db self) []))) as Hs.
  rewrite Hp in Hs. by destruct Hs as (hooks & ? & _).
Qed.

(** ** Where the votes of a consensus come from *)

(** A vote [v] of peer [j] in round [r] that was not stored before: the message
    that brought it holds it, and its signature is valid. *)
Definition new_vote (self : Consensus) (r : N) (j : PeerIdx) (v : SignedVote) : Prop :=
  BlockHeader.round (signed_inner v) = r ∧ is_dummy (signed_inner v) = false ∧
  ∃ p, params_at (db self) r = Some p ∧
    sig_ok (sign_hash (signed_inner v)) (ConsensusParams.peers p) j (sig v) = true.

Lemma vote_provenance self i resp o self' r j v :
  consensus_wf self → process_vote_response self i resp = (o, self') →
  cons_votes_block (db self') !! (r, j) = Some v →
  cons_votes_block (db self) !! (r, j) = Some v ∨
  (o = Ok () ∧ j = i ∧ v = resp_block resp ∧ new_vote self r j v).
Proof.
  intros Hwf Hp Hv. pose proof (vote_spec self i resp Hwf) as Hs. unfold vote_outcome in Hs.
  pose proof (write_tx_keeps _ self _ (keeps_votes_response
    (λ k v, cons_votes_block (db self) !! k = Some v ∨ (k.2 = i ∧ v = resp_block resp))
    (our_peer_pubkey self) i resp (λ c, or_intror (conj eq_refl eq_refl))) (λ k v Hkv, or_introl Hkv)) as Hk.
  unfold process_vote_response in *. rewrite Hp in Hs, Hk.
  destruct o as [[]|e|w]; [|by subst; left..]. destruct Hs as [Hwf' Hs].
  destruct (Hk _ _ Hv) as [?|[Hj Hvr]]; [by left|right]. split_and!; [done..|].
  destruct (inv_votes _ (rest_inv _ (proj1 Hwf')) r j v Hv) as (Hr & Hd & p & Hpar & Hok).
  split_and!; [done..|]. exists p. split; [|done]. rewrite <-Hpar. symmetry.
  by apply params_at_tables; apply Hs.
Qed.

Lemma notarized_provenance self i resp o self' r j v :
  consensus_wf self → (BlockHeader.round (notarized_inner (resp_notarized resp)) < u64_max)%N →
  process_notarized_block_response self i resp = (o, self') →
  cons_votes_block (db self') !! (r, j) = Some v →
  cons_votes_block (db self) !! (r, j) = Some v ∨
  (sigs (resp_notarized resp) !! j = Some (sig v) ∧ signed_inner v = notarized_inner (resp_notarized resp) ∧
   new_vote self r j v).
Proof.
  intros Hwf Hlt Hp Hv. pose proof (notarized_spec self i resp Hwf Hlt) as Hs. unfold notarized_outcome in Hs.
  pose proof (write_tx_keeps _ self _ (keeps_votes_notarized
    (λ k v, cons_votes_block (db self) !! k = Some v ∨
       (sigs (resp_notarized resp) !! k.2 = Some (sig v) ∧
        signed_inner v = notarized_inner (resp_notarized resp)))
    (our_peer_pubkey self) resp (λ i s Hs, or_intror (conj Hs eq_refl))) (λ k v Hkv, or_introl Hkv)) as Hk.
  unfold process_notarized_block_response in *. rewrite Hp in Hs, Hk.
  destruct o as [[]|e|w]; [|by subst; left..]. destruct Hs as [Hwf' Hs].
  destruct (Hk _ _ Hv) as [?|[Hj Hvr]]; [by left|right]. split_and!; [done..|].
  destruct (inv_votes _ (rest_inv _ (proj1 Hwf')) r j v Hv) as (Hr & Hd & p & Hpar & Hok).
  split_and!; [done..|]. exists p. split; [|done]. rewrite <-Hpar. symmetry.
  by apply params_at_tables; apply Hs.
Qed.

(** The other operations store no votes of blocks. *)
Lemma write_tx_no_new_votes {E A} self (f : CTx E A) :
  (∀ S, keeps (votes_sat S) f) → cons_votes_block (db (write_tx self f).2) ⊆ cons_votes_block (db self).
Proof.
  intros Hk. apply map_subseteq_spec. intros k v.
  apply (write_tx_keeps _ self f (Hk (λ k v, cons_votes_block (db self) !! k = Some v))). by intros ???.
Qed.

Lemma open_no_new_votes d our self :
  Rest d → open d our = Ok self → cons_votes_block (db self) ⊆ cons_votes_block d.
Proof.
  intros Hrest Ho%open_is_internal; [|apply Hrest]. apply map_subseteq_spec. intros k v.
  apply (open_internal_keeps (E:=OpenError) _ (cur_round_of d) d our self (λ f, keeps_votes_open
    (λ k v, cons_votes_block d !! k = Some v) our (cur_round_of d) f)); [by intros ???|done].
Qed.

Lemma init_no_votes params our pinned self :
  init params empty_db our pinned = Ok self → cons_votes_block (db self) = ∅.
Proof.
  intros Hi%init_is_internal. apply map_empty. intros k.
  destruct (cons_votes_block (db self) !! k) as [v|] eqn:Hv; [|done].
  exfalso. set (d := init_db params pinned) in *.
  refine (open_internal_keeps (E:=InitError) (votes_sat (λ _ _, False)) (cur_round_of d) d our self
    (λ f, keeps_votes_open _ our (cur_round_of d) f) _ Hi k v Hv).
  subst d. destruct pinned as [[r h]|]; apply map_Forall_empty.
Qed.

(** The parameters of the round of a stored vote do not change. *)
Lemma vote_params_kept self self' r j v :
  consensus_wf self → cstep self self' → cons_votes_block (db self) !! (r, j) = Some v →
  params_at (db self') r = params_at (db self) r.
Proof.
  intros Hwf Hs Hv. destruct (cstep_spec _ _ Hwf Hs) as (_ & _ & _ & Hk). apply Hk.
  pose proof (rb_votes _ _ _ _ (rest_bounds _ (proj1 Hwf)) r j v Hv). unfold cur. lia.
Qed.
End Votes.
