(* ===== verification/ConsProps.v ===== *)
(** * Properties of the consensus engine

    Safety, certificates, monotonicity and totality of the handlers, stated for
    the reachable states of [ConsSpec], each with a concrete run that meets its
    hypotheses. *)
From S2P Require Import Prelude ArrayType VoteSet Peers Core Db ConsDb ConsInv Consensus ConsRound ConsSteps ConsSpec.

(** ** Notarization *)

(** The signatures stored for the block [b] of round [r] that are valid under
    the keys of [p]. *)
Definition certificate `{Crypto} `{Bincode} (d : ConsDb) (r : N) (b : BlockHeader.t)
    (p : ConsensusParams.t) (sigs : gmap PeerIdx Signature) : Prop :=
  (NumPeers.threshold (npeers p) ≤ N.of_nat (size sigs))%N ∧
  map_Forall (λ i s, cons_votes_block d !! (r, i) = Some (MkSigned b s) ∧
    sig_ok (sign_hash b) (ConsensusParams.peers p) i s = true) sigs.

Section Certificates.
Context `{Crypto} `{Bincode}.

(** The signatures of the votes of a round, by peer. *)
Definition round_sigs (d : ConsDb) (r : N) : gmap PeerIdx Signature :=
  list_to_map ((λ kv, (kv.1.2, sig kv.2)) <$> range (round_votes r) (cons_votes_block d)).

Lemma round_sigs_NoDup {V} (f : V → Signature) (r : N) (m : gmap (N * N) V) :
  NoDup ((λ kv, (kv.1.2, f kv.2)) <$> range (round_votes r) m).*1.
Proof.
  rewrite <-list_fmap_compose. change (fst ∘ _) with (λ kv : N * N * V, kv.1.2).
  pose proof (range_NoDup (round_votes r) m) as Hnd.
  assert (∀ kv, kv ∈ range (round_votes r) m → kv.1.1 = r) as Hr.
  { intros [[r' i] v] [_ [Hr _]%round_votes_spec]%elem_of_range. done. }
  revert Hnd Hr. generalize (range (round_votes r) m). intros l. clear m.
  induction l as [|[[r' i] v] l IH]; intros Hnd Hr; [constructor|].
  apply NoDup_cons in Hnd as [Hnin Hnd]. apply NoDup_cons. split.
  - intros ([[r2 j] w] & Hij & Hin)%list_elem_of_fmap. simpl in Hij. subst j. apply Hnin.
    apply list_elem_of_fmap. exists (r2, i, w). split; [|done]. simpl.
    f_equal. transitivity r; [apply (Hr (r', i, v)); left|symmetry; apply (Hr (r2, i, w)); by right].
  - apply IH; [done|]. intros kv Hin. apply Hr. by right.
Qed.

Lemma round_sigs_lookup d r i s :
  DbInv d → round_sigs d r !! i = Some s ↔ ∃ v, cons_votes_block d !! (r, i) = Some v ∧ sig v = s.
Proof.
  intros Hinv. unfold round_sigs. rewrite <-elem_of_list_to_map by apply round_sigs_NoDup.
  rewrite list_elem_of_fmap. split.
  - intros ([[r' j] v] & [= -> ->] & [Hv [Hr _]%round_votes_spec]%elem_of_range).
    simpl in Hr. subst. eauto.
  - intros (v & Hv & <-). exists (r, i, v). split; [done|]. apply elem_of_range. split; [done|].
    apply round_votes_spec. simpl. split; [done|].
    destruct (inv_votes d Hinv r i v Hv) as (_ & _ & p & Hp & Hi%sig_ok_lt).
    destruct (params_at_wf d r Hinv) as (p' & Hp' & Hwf). rewrite Hp in Hp'. injection Hp' as <-.
    pose proof (npeers_pos p Hwf). lia.
Qed.

Lemma round_sigs_size d r : N.of_nat (size (round_sigs d r)) = num_votes_proposal r d.
Proof.
  unfold round_sigs, num_votes_proposal. f_equal.
  rewrite map_size_list_to_map by apply round_sigs_NoDup. apply length_fmap.
Qed.

Lemma notarized_certificate d r b :
  DbInv d → cons_blocks_notarized d !! r = Some b →
  ∃ p, params_at d r = Some p ∧ params_wf p ∧ certificate d r b p (round_sigs d r).
Proof.
  intros Hinv Hb. destruct (inv_notarized d Hinv r b Hb) as [_ [(p & Hp & Hq) Hall]].
  destruct (params_at_wf d r Hinv) as (p' & Hp' & Hwf). rewrite Hp in Hp'. injection Hp' as <-.
  exists p. split_and!; [done|done|]. split; [by rewrite round_sigs_size|].
  intros i s (v & Hv & <-)%round_sigs_lookup; [|done].
  pose proof (Hall i v Hv) as Hin. destruct (inv_votes d Hinv r i v Hv) as (_ & _ & p' & Hp' & Hsig).
  rewrite Hp in Hp'. injection Hp' as <-. rewrite Hin in Hsig. split; [|done].
  rewrite Hv. destruct v as [v s]. simpl in Hin. by subst.
Qed.

(** The peers of a certificate, as public keys. *)
Definition signers (p : ConsensusParams.t) (sigs : gmap PeerIdx Signature) : gset PeerPubkey :=
  set_map (λ i : N, ConsensusParams.peers p !!! N.to_nat i) (dom sigs).

Lemma signers_size d r b p sigs :
  params_wf p → certificate d r b p sigs → size (signers p sigs) = size sigs.
Proof.
  intros Hwf [_ Hall]. unfold signers. rewrite <-(size_dom sigs).
  assert (∀ i, i ∈ dom sigs → (N.to_nat i < length (ConsensusParams.peers p))%nat) as Hlt.
  { intros i [s Hs]%elem_of_dom. destruct (Hall i s Hs) as [_ Hi%sig_ok_lt]. unfold npeers in Hi. lia. }
  destruct (pwf_set p Hwf) as [_ Hnd].
  revert Hlt. generalize (dom sigs). intros X. induction X as [|i X Hi IH] using set_ind_L; intros Hlt.
  - by rewrite set_map_empty.
  - rewrite set_map_union_L, set_map_singleton_L, !size_union, !size_singleton, IH; [done| |set_solver|].
    + intros j Hj. apply Hlt. set_solver.
    + apply disjoint_singleton_l. intros (j & Hj & Hin)%elem_of_map. apply Hi.
      destruct (lookup_lt_is_Some_2 _ _ (Hlt i ltac:(set_solver))) as [x Hx].
      destruct (lookup_lt_is_Some_2 _ _ (Hlt j ltac:(set_solver))) as [y Hy].
      rewrite (list_lookup_total_correct _ _ _ Hx), (list_lookup_total_correct _ _ _ Hy) in Hj. subst y.
      assert (N.to_nat i = N.to_nat j) as Hij by (by eapply NoDup_lookup).
      apply N2Nat.inj in Hij. by subst.
Qed.

(** The peer with key [pk] has a stored, valid vote for [b] in round [r]. *)
Definition voted (d : ConsDb) (r : N) (p : ConsensusParams.t) (pk : PeerPubkey) (b : BlockHeader.t) : Prop :=
  ∃ i s, ConsensusParams.peers p !! N.to_nat i = Some pk ∧
    cons_votes_block d !! (r, i) = Some (MkSigned b s) ∧
    verify_strict pk (hash_bytes (sign_hash b)) s = true.

Lemma signers_voted d r b p sigs pk :
  certificate d r b p sigs → pk ∈ signers p sigs → pk ∈ ConsensusParams.peers p ∧ voted d r p pk b.
Proof.
  intros [_ Hall] (i & -> & [s Hs]%elem_of_dom)%elem_of_map. destruct (Hall i s Hs) as [Hv Hok].
  unfold sig_ok in Hok. destruct (ConsensusParams.peers p !! N.to_nat i) as [pk|] eqn:Hpk; [|done].
  rewrite (list_lookup_total_correct _ _ _ Hpk). apply andb_true_iff in Hok as [_ Hver].
  split; [by eapply list_elem_of_lookup_2|]. by exists i, s.
Qed.

(** Two notarized blocks of a round have voters in common, more than may be faulty. *)
Lemma common_voters d1 d2 r p b1 b2 :
  DbInv d1 → DbInv d2 → params_at d1 r = Some p → params_at d2 r = Some p →
  cons_blocks_notarized d1 !! r = Some b1 → cons_blocks_notarized d2 !! r = Some b2 →
  ∃ X : gset PeerPubkey, (NumPeers.max_faulty (npeers p) < N.of_nat (size X))%N ∧
    ∀ pk, pk ∈ X → pk ∈ ConsensusParams.peers p ∧ voted d1 r p pk b1 ∧ voted d2 r p pk b2.
Proof.
  intros Hi1 Hi2 Hp1 Hp2 Hb1 Hb2.
  destruct (notarized_certificate _ _ _ Hi1 Hb1) as (p1 & Hp1' & Hwf & Hc1).
  destruct (notarized_certificate _ _ _ Hi2 Hb2) as (p2 & Hp2' & _ & Hc2).
  rewrite Hp1 in Hp1'. injection Hp1' as <-. rewrite Hp2 in Hp2'. injection Hp2' as <-.
  pose proof (λ pk, signers_voted _ _ _ _ _ pk Hc1) as Hs1.
  pose proof (λ pk, signers_voted _ _ _ _ _ pk Hc2) as Hs2.
  set (X := signers p (round_sigs d1 r) ∩ signers p (round_sigs d2 r)).
  exists X. split; [|intros pk [H1 H2']%elem_of_intersection; split_and!; [by apply Hs1..|by apply Hs2]].
  apply N.lt_nge. intros Hle.
  destruct (quorum_intersection (list_to_set (ConsensusParams.peers p))
    (signers p (round_sigs d1 r)) (signers p (round_sigs d2 r)) X (npeers p)) as (pk & Hpk1 & Hpk2 & Hno); try done.
  - unfold npeers. destruct (pwf_set p Hwf) as [_ Hnd]. by rewrite size_list_to_set.
  - apply npeers_pos, Hwf.
  - intros pk Hin. apply elem_of_list_to_set. by apply Hs1.
  - intros pk Hin. apply elem_of_list_to_set. by apply Hs2.
  - rewrite (signers_size _ _ _ _ _ Hwf Hc1). apply Hc1.
  - rewrite (signers_size _ _ _ _ _ Hwf Hc2). apply Hc2.
  - apply Hno. unfold X. by apply elem_of_intersection.
Qed.
(** One of them is not faulty. *)
Lemma common_voter d1 d2 r p b1 b2 (faulty : gset PeerPubkey) :
  DbInv d1 → DbInv d2 → params_at d1 r = Some p → params_at d2 r = Some p →
  cons_blocks_notarized d1 !! r = Some b1 → cons_blocks_notarized d2 !! r = Some b2 →
  (N.of_nat (size faulty) ≤ NumPeers.max_faulty (npeers p))%N →
  ∃ pk, (pk ∉ faulty) ∧ pk ∈ ConsensusParams.peers p ∧ voted d1 r p pk b1 ∧ voted d2 r p pk b2.
Proof.
  intros Hi1 Hi2 Hp1 Hp2 Hb1 Hb2 Hfaulty.
  destruct (common_voters _ _ _ _ _ _ Hi1 Hi2 Hp1 Hp2 Hb1 Hb2) as (X & Hlt & HX).
  destruct (decide (X ⊆ faulty)) as [Hsub|Hno].
  - pose proof (subseteq_size _ _ Hsub). lia.
  - destruct (decide (X ∖ faulty = ∅)) as [He|[pk Hpk]%set_choose_L].
    + destruct Hno. intros pk Hpk. destruct (decide (pk ∈ faulty)) as [|Hn]; [done|]. set_solver.
    + exists pk. apply elem_of_difference in Hpk as [Hin Hn]. by split; [|apply HX].
Qed.
End Certificates.

(** C3: safety of notarization, with the peers to blame for its loss.  When two
    nodes, in any reachable states, hold notarized blocks [b1] and [b2] for the same
    round under the same parameters, then more than [max_faulty] peers of the round
    have a valid signature of [b1] stored at the one node and a valid signature of
    [b2] at the other.  So if at most [max_faulty] peers are faulty, and no correct
    peer has valid signatures of two different blocks there, the blocks are the
    same.  Nothing is assumed of the signatures of other blocks, or of messages
    that the nodes have not stored. *)
Theorem notarization_safety `{Crypto} `{Bincode} (n1 n2 : Consensus) (r : N)
    (p : ConsensusParams.t) (b1 b2 : BlockHeader.t) :
  reachable n1 → reachable n2 →
  params_at (db n1) r = Some p → params_at (db n2) r = Some p →
  cons_blocks_notarized (db n1) !! r = Some b1 →
  cons_blocks_notarized (db n2) !! r = Some b2 →
  (∃ X : gset PeerPubkey, (NumPeers.max_faulty (npeers p) < N.of_nat (size X))%N ∧
     ∀ pk, pk ∈ X → pk ∈ ConsensusParams.peers p ∧ voted (db n1) r p pk b1 ∧ voted (db n2) r p pk b2) ∧
  ∀ faulty : gset PeerPubkey,
    (N.of_nat (size faulty) ≤ NumPeers.max_faulty (npeers p))%N →
    (∀ pk, pk ∈ ConsensusParams.peers p → pk ∉ faulty →
       voted (db n1) r p pk b1 → voted (db n2) r p pk b2 → b1 = b2) →
    b1 = b2.
Proof.
  intros Hr1 Hr2 Hp1 Hp2 Hb1 Hb2.
  pose proof (rest_inv _ (proj1 (reachable_wf _ Hr1))) as Hi1.
  pose proof (rest_inv _ (proj1 (reachable_wf _ Hr2))) as Hi2.
  split; [by apply common_voters|]. intros faulty Hfaulty Honce.
  destruct (common_voter _ _ _ _ _ _ faulty Hi1 Hi2 Hp1 Hp2 Hb1 Hb2 Hfaulty) as (pk & Hcorrect & Hin & Hv1 & Hv2).
  by apply (Honce pk).
Qed.

(** *** A block of round 0, and the votes for it *)
Module OneBlock.
Local Existing Instance Toy.crypto.
Local Existing Instance Toy.bincode.
Definition block : BlockHeader.t := toy_header None 0 [1].
(** The vote of the peer with index [i], whose secret key is [i]. *)
Definition one_block_vote (i : N) : SignedVote := new_sign block i.
(** Another block of the round. *)
Definition other_block : BlockHeader.t := toy_header None 0 [2].
End OneBlock.

(** *** Concrete runs *)
Section Runs.
Context `{Crypto} `{Bincode}.

(** The node of the peer [our], just created, and after a list of votes. *)
Definition created (our : option PeerPubkey) : Consensus :=
  match init toy_params empty_db our None with
  | Ok self => self
  | _ => MkConsensus empty_db our (MkWatches (0, false) 0 0 0 0)
  end.
Definition run_votes (self : Consensus) (l : list (PeerIdx * WaitVoteResponse)) : Consensus :=
  foldl (λ c m, (process_vote_response c m.1 m.2).2) self l.

Lemma reachable_created our :
  params_wf toy_params →
  match init toy_params empty_db our None with Ok _ => true | _ => false end = true →
  reachable (created our).
Proof.
  intros Hwf Hi. unfold created. destruct (init toy_params empty_db our None) as [self| |] eqn:He; try done.
  by eapply RInit.
Qed.

Lemma reachable_run self l : reachable self → reachable (run_votes self l).
Proof.
  revert self. induction l as [|[i resp] l IH]; intros self Hs; [done|]. simpl. apply IH.
  eapply RStep; [exact Hs|]. apply CVote.
Qed.

Lemma reachable_notarized self i resp :
  reachable self → (BlockHeader.round (notarized_inner (resp_notarized resp)) < u64_max) →
  reachable (process_notarized_block_response self i resp).2.
Proof. intros Hs Hr. eapply RStep; [exact Hs|]. by apply CNotarized. Qed.

Lemma toy_params_wf :
  Forall (λ pk, verifying_key_ok pk = true) [1; 2; 3; 4] →
  N.of_nat (length (to_raw toy_params)) ≤ u32_max → params_wf toy_params.
Proof.
  intros Hk Hl. constructor; simpl; [lia|lia| |done|done].
  split; [repeat constructor; lia|]. apply (bool_decide_unpack _). vm_compute. exact I.
Qed.
End Runs.

Section SafetyWitness.
Local Existing Instance Toy.bincode.
Local Existing Instance Toy.crypto.
Import OneBlock.

Definition node1 : Consensus :=
  run_votes (created (Some 1))
    [(2, Proposal (one_block_vote 2) [1]); (0, Vote (one_block_vote 0)); (1, Vote (one_block_vote 1))].
Definition node2 : Consensus :=
  (process_notarized_block_response (created (Some 2)) 0
     (MkWaitNotarizedBlockResponse (toy_notarized block [0; 1; 3]) [1])).2.
(** A node that got another block of the round, which the peers 1, 2 and 3 signed. *)
Definition misled_node : Consensus :=
  (process_notarized_block_response (created (Some 2)) 0
     (MkWaitNotarizedBlockResponse (toy_notarized other_block [1; 2; 3]) [2])).2.

Lemma one_block_params_wf : params_wf toy_params.
Proof. apply toy_params_wf; [repeat constructor|]. vm_compute. discriminate. Qed.
Lemma reachable_node1 : reachable node1.
Proof. apply reachable_run, reachable_created; [apply one_block_params_wf|vm_compute; reflexivity]. Qed.
Lemma reachable_received b keys payload :
  BlockHeader.round b < u64_max →
  reachable (process_notarized_block_response (created (Some 2)) 0
    (MkWaitNotarizedBlockResponse (toy_notarized b keys) payload)).2.
Proof.
  intros Hr. apply reachable_notarized; [|exact Hr].
  apply reachable_created; [apply one_block_params_wf|vm_compute; reflexivity].
Qed.

(** Two nodes with the same block; and two nodes with different blocks, for which
    at least two peers are to blame. *)
Lemma notarization_safety_witness :
  block ≠ other_block ∧
  (cons_blocks_notarized (db node1) !! 0 = Some block ∧ cons_blocks_notarized (db node2) !! 0 = Some block ∧ block = block) ∧
  ∃ X : gset PeerPubkey, 1 < N.of_nat (size X) ∧
    ∀ pk, pk ∈ X → voted (db node1) 0 toy_params pk block ∧ voted (db misled_node) 0 toy_params pk other_block.
Proof.
  split; [vm_compute; discriminate|]. split.
  - split; [vm_compute; reflexivity|]. split; [vm_compute; reflexivity|].
    refine (proj2 (notarization_safety node1 node2 0 toy_params block block _ _ _ _ _ _) ∅ _ (λ _ _ _ _ _, eq_refl)).
    + exact reachable_node1.
    + apply reachable_received. reflexivity.
    + vm_compute. reflexivity.
    + vm_compute. reflexivity.
    + vm_compute. reflexivity.
    + vm_compute. reflexivity.
    + vm_compute. discriminate.
  - destruct (notarization_safety node1 misled_node 0 toy_params block other_block) as [(X & HX & Hall) _].
    + exact reachable_node1.
    + apply reachable_received. reflexivity.
    + vm_compute. reflexivity.
    + vm_compute. reflexivity.
    + vm_compute. reflexivity.
    + vm_compute. reflexivity.
    + exists X. split; [exact HX|]. intros pk Hpk. exact (proj2 (Hall pk Hpk)).
Defined.
End SafetyWitness.

(** ** What a reachable database holds *)

(** C4: every notarized block of a reachable node is in its own round, before the
    current one, is not a dummy, commits to the parameters of the round, and is
    certified: [cons_votes_block] holds [threshold] valid signatures of it by
    distinct peers of the round and no vote for another block of the round, and
    its payload, with the committed hash, is stored. *)
Theorem notarized_block_certified `{Crypto} `{Bincode} (n : Consensus) (r : N) (b : BlockHeader.t) :
  reachable n → cons_blocks_notarized (db n) !! r = Some b →
  BlockHeader.round b = r ∧ r < cur n ∧ is_dummy b = false ∧
  ∃ p, params_at (db n) r = Some p ∧ BlockHeader.consensus_params_hash b = params_hash p ∧
    certificate (db n) r b p (round_sigs (db n) r) ∧
    (∀ i v, cons_votes_block (db n) !! (r, i) = Some v → signed_inner v = b) ∧
    ∃ payload, cons_blocks_payloads (db n) !! BlockHeader.payload_hash b = Some payload ∧
      blake3 payload = BlockHeader.payload_hash b.
Proof.
  intros [[Hinv Hb _] _]%reachable_wf Hn.
  destruct (inv_notarized _ Hinv r b Hn) as [(Hr & Hd & _ & (p & Hp & Hh & _) & [payload Hpl] & _) [_ Hall]].
  destruct (notarized_certificate _ _ _ Hinv Hn) as (p' & Hp' & _ & Hc).
  rewrite Hp in Hp'. injection Hp' as <-.
  split_and!; [done|by eapply rb_notarized|done|]. exists p. split_and!; [done|done|done|done|].
  exists payload. split; [done|]. by apply (inv_payloads _ Hinv).
Qed.

(** A proposal that a node has stored is never replaced: whatever message,
    parameter change or restart follows, the node keeps the same proposal for the
    round, so it never signs two proposals of a round. *)
Theorem proposal_never_replaced `{Crypto} `{Bincode} (n n' : Consensus) (r : N) (b : BlockHeader.t) :
  reachable n → cstep n n' →
  cons_blocks_proposals (db n) !! r = Some b →
  cons_blocks_proposals (db n') !! r = Some b.
Proof.
  intros Hn%reachable_wf Hs Hb. destruct (cstep_spec _ _ Hn Hs) as (_ & _ & Hsub & _).
  by eapply lookup_weaken.
Qed.

(** C14: the current round never goes back, the round channel always shows the
    stored round, and the parameters of the rounds up to the current one never
    change. *)
Theorem round_monotone `{Crypto} `{Bincode} (n n' : Consensus) :
  reachable n → cstep n n' →
  cur n ≤ cur n' ∧ (current_round_with_timeout (watches n')).1 = cur n' ∧
  ∀ r, r ≤ cur n → params_at (db n') r = params_at (db n) r.
Proof.
  intros Hn%reachable_wf Hs. destruct (cstep_spec _ _ Hn Hs) as ([_ Hw] & Hle & _ & Hp). done.
Qed.

(** C8: the handling of a vote or proposal is total and atomic: for a peer of the
    round and a payload below 4 GiB it does not panic; when it returns an error
    the node is as before; when it succeeds the round is the same or the next
    one, and at most one block became notarized, the proposal of the round. *)
Theorem process_vote_total `{Crypto} `{Bincode} (n : Consensus) (i : PeerIdx) (resp : WaitVoteResponse) :
  reachable n → vote_safe (db n) i resp →
  match process_vote_response n i resp with
  | (Ok _, n') =>
      cur n ≤ cur n' ≤ cur n + 1 ∧
      (cons_blocks_notarized (db n') = cons_blocks_notarized (db n) ∨
       ∃ b, cons_blocks_proposals (db n') !! cur n = Some b ∧ cur n' = cur n + 1 ∧
         cons_blocks_notarized (db n') = <[cur n := b]> (cons_blocks_notarized (db n)))
  | (Err _, n') => n' = n
  | (Panic _, _) => False
  end.
Proof.
  intros Hn%reachable_wf Hsafe.
  pose proof (write_tx_spec true n (process_vote_response_tx (our_peer_pubkey n) i resp) _
    (wp_process_vote_response_tx true _ (db n) i resp (proj1 Hn) (λ _, Hsafe))) as Hs.
  unfold process_vote_response. destruct (write_tx _ _) as [[[]|e|w] n'].
  - destruct Hs as (hooks & [Hv _] & _). split; [apply Hv|]. apply (vs_notarized _ _ Hv).
  - done.
  - by destruct Hs.
Qed.

(** C15: the handling of a notarized block is atomic, and does not panic when every
    signature names a peer of its round, the block does not conflict with our
    latest one, and some block is there to be rewound unless it is the first of
    the chain. *)
Theorem process_notarized_total `{Crypto} `{Bincode} (n : Consensus) (i : PeerIdx)
    (resp : WaitNotarizedBlockResponse) :
  reachable n → BlockHeader.round (notarized_inner (resp_notarized resp)) < u64_max →
  notarized_safe (db n) resp →
  match process_notarized_block_response n i resp with
  | (Ok _, n') => consensus_wf n' ∧ NotarizedStep (db n) (notarized_inner (resp_notarized resp)) (db n')
  | (Err _, n') => n' = n
  | (Panic _, _) => False
  end.
Proof.
  intros Hn%reachable_wf Hr Hsafe.
  pose proof (write_tx_spec true n (process_notarized_block_response_tx (our_peer_pubkey n) resp) _
    (wp_process_notarized_tx true _ (db n) resp (proj1 Hn) Hr (λ _, Hsafe))) as Hs.
  pose proof (notarized_spec n i resp Hn Hr) as Ho. unfold notarized_outcome in Ho.
  unfold process_notarized_block_response in *. destruct (write_tx _ _) as [[[]|e|w] n'].
  - done.
  - done.
  - by destruct Hs.
Qed.

Section RunWitnesses.
Local Existing Instance Toy.bincode.
Local Existing Instance Toy.crypto.
Import OneBlock.

Lemma reachable_created1 : reachable (created (Some 1)).
Proof. apply reachable_created; [apply one_block_params_wf|vm_compute; reflexivity]. Qed.

Lemma notarized_block_certified_witness :
  size (round_sigs (db node1) 0) = 3%nat ∧ 0 < cur node1.
Proof.
  split; [vm_compute; reflexivity|].
  apply (notarized_block_certified node1 0 block reachable_node1). vm_compute. reflexivity.
Defined.

(** A restart of [node1]. *)
Definition node1_reopened : Consensus :=
  match open (db node1) (Some 1) with Ok self => self | _ => node1 end.

Lemma node1_reopens : cstep node1 node1_reopened.
Proof. apply (CReopen node1 (Some 1)). vm_compute. reflexivity. Qed.

Lemma proposal_never_replaced_witness :
  cons_blocks_proposals (db node1_reopened) !! 0 = Some block.
Proof.
  apply (proposal_never_replaced node1 node1_reopened 0 block reachable_node1 node1_reopens).
  vm_compute. reflexivity.
Defined.

Lemma round_monotone_witness : cur node1 = 1 ∧ cur node1 ≤ cur node1_reopened.
Proof.
  split; [vm_compute; reflexivity|]. apply (round_monotone node1 node1_reopened reachable_node1 node1_reopens).
Defined.

Lemma process_vote_total_witness :
  match process_vote_response (created (Some 1)) 2 (Proposal (one_block_vote 2) [1]) with
  | (Ok _, n') => 0 ≤ cur n'
  | _ => False
  end.
Proof.
  assert (vote_safe (db (created (Some 1))) 2 (Proposal (one_block_vote 2) [1])) as Hsafe.
  { split; [vm_compute; reflexivity|]. split; [|vm_compute; discriminate].
    intros p Hp. vm_compute in Hp. injection Hp as <-. vm_compute. reflexivity. }
  pose proof (process_vote_total (created (Some 1)) 2 (Proposal (one_block_vote 2) [1]) reachable_created1 Hsafe) as Ht.
  destruct (process_vote_response _ _ _) as [[[]|e|w] n'] eqn:He; [apply N.le_0_l| |exact Ht].
  vm_compute in He. discriminate.
Defined.

Definition block_response : WaitNotarizedBlockResponse :=
  MkWaitNotarizedBlockResponse (toy_notarized block [0; 1; 3]) [1].

Lemma process_notarized_total_witness :
  match process_notarized_block_response (created (Some 1)) 0 block_response with
  | (Ok _, n') => consensus_wf n' ∧ cur n' = 1
  | _ => False
  end.
Proof.
  assert (notarized_safe (db (created (Some 1))) block_response) as Hsafe.
  { split; [vm_compute; reflexivity|]. split; [|split; [vm_compute; discriminate|split]].
    - intros p Hp. vm_compute in Hp. injection Hp as <-.
      apply (map_Forall_to_list (λ i _, i < npeers toy_params) (sigs (resp_notarized block_response))).
      apply (bool_decide_unpack _). vm_compute. exact I.
    - intros _ l Hl. vm_compute in Hl. discriminate.
    - intros _ _. vm_compute. reflexivity. }
  pose proof (process_notarized_total (created (Some 1)) 0 block_response reachable_created1 eq_refl Hsafe) as Ht.
  destruct (process_notarized_block_response _ _ _) as [[[]|e|w] n'] eqn:He; [|vm_compute in He; discriminate|exact Ht].
  split; [apply Ht|]. vm_compute in He. injection He as <-. vm_compute. reflexivity.
Defined.
End RunWitnesses.
