(* ===== verification/ConsChain.v ===== *)
(** * The chain of notarized blocks

    Each notarized block directly extends the one before it ([chain]) as long as
    the proposal of the current round extends the latest notarized block
    ([proposal_extends]).  Votes keep both; a received notarized block keeps both
    unless it is for a round before the current one while the current round has
    a proposal, because the proposal is not checked again when it gets its
    quorum: [late_block_breaks_chain] runs such a history.
    [chain_breaks_one_way] says that nothing else breaks the chain. *)
From S2P Require Import Prelude VoteSet Peers Core Db ConsDb Consensus ConsInv ConsRound ConsSteps ConsSpec ConsProps.

Section Chain.
Context `{Crypto} `{Bincode}.
Implicit Types (d : ConsDb) (b : BlockHeader.t) (r c : N).

Definition chain d : Prop := ∀ r b,
  cons_blocks_notarized d !! r = Some b → does_directly_extend b (prev_notarized r d) = true.
Definition proposal_extends d : Prop := ∀ b,
  cons_blocks_proposals d !! cur_round_of d = Some b →
  does_directly_extend b (prev_notarized (cur_round_of d) d) = true.

(** The latest block before a round depends only on the blocks before it. *)
Lemma prev_notarized_ext d d' r :
  (∀ r', (r' < r)%N → cons_blocks_notarized d !! r' = cons_blocks_notarized d' !! r') →
  prev_notarized r d = prev_notarized r d'.
Proof.
  intros Heq. unfold prev_notarized, range_last. do 2 f_equal. apply range_ext.
  intros k Hk%rg_to_N. auto.
Qed.

(** Without blocks between two rounds, the latest before both is the same. *)
Lemma prev_notarized_gap d r1 r2 :
  DbInv d → (r1 ≤ r2)%N →
  (∀ r b, cons_blocks_notarized d !! r = Some b → (r < r1)%N ∨ (r2 ≤ r)%N) →
  prev_notarized r2 d = prev_notarized r1 d.
Proof.
  intros Hinv Hle Hgap. destruct (prev_notarized r1 d) as [b|] eqn:H1.
  - apply prev_notarized_Some in H1 as (Hb & Hlt & Hmax); [|done].
    apply prev_notarized_Some; [done|]. split_and!; [done|lia|].
    intros r' b' Hr' Hlt'. destruct (Hgap r' b' Hr') as [?|?]; [by eapply Hmax|lia].
  - rewrite prev_notarized_None in H1. apply prev_notarized_None. intros r' b' Hr'.
    destruct (Hgap r' b' Hr') as [?|?]; [|done]. specialize (H1 r' b' Hr'). lia.
Qed.

(** Adding a block above all others, which extends the latest of them. *)
Lemma chain_add d d' r b :
  chain d → cons_blocks_notarized d' = <[r := b]> (cons_blocks_notarized d) →
  (∀ r' b', cons_blocks_notarized d !! r' = Some b' → (r' < r)%N) →
  does_directly_extend b (prev_notarized r d) = true → chain d'.
Proof.
  intros Hch Heq Hlow Hext r' b' Hr'.
  assert (∀ k, (k ≤ r)%N → prev_notarized k d' = prev_notarized k d) as Hsame.
  { intros k Hk. apply prev_notarized_ext. intros k' Hk'. rewrite Heq. apply lookup_insert_ne. lia. }
  rewrite Heq in Hr'. apply lookup_insert_Some in Hr' as [[<- <-]|[_ Hr']].
  - by rewrite Hsame.
  - rewrite Hsame; [by apply Hch|]. apply N.lt_le_incl. by eapply Hlow.
Qed.

Lemma chain_same d d' : cons_blocks_notarized d' = cons_blocks_notarized d → chain d → chain d'.
Proof.
  intros Heq Hch r b Hb. rewrite Heq in Hb. rewrite (prev_notarized_ext d' d); [by apply Hch|].
  intros. by rewrite Heq.
Qed.

(** Removing the latest block. *)
Lemma chain_delete d d' l c :
  DbInv d → chain d → prev_notarized c d = Some l →
  (∀ r b, cons_blocks_notarized d !! r = Some b → (r < c)%N) →
  cons_blocks_notarized d' = delete (BlockHeader.round l) (cons_blocks_notarized d) → chain d'.
Proof.
  intros Hinv Hch Hl Hlow Heq r b Hb. rewrite Heq in Hb. apply lookup_delete_Some in Hb as [Hne Hb].
  apply prev_notarized_Some in Hl as (_ & _ & Hmax); [|done].
  rewrite (prev_notarized_ext d' d); [by apply Hch|].
  intros r' Hr'. rewrite Heq. apply lookup_delete_ne. pose proof (Hmax r b Hb (Hlow _ _ Hb)). lia.
Qed.

(** What a received block was checked to extend is the latest block below it. *)
Lemma accepts_chain d b n :
  Rest d → chain d → (BlockHeader.round b < u64_max)%N →
  Accepts d b n → chain (set_cons_blocks_notarized n d).
Proof.
  intros [Hinv Hbd _] Hch Hmax Hacc. pose proof (rb_notarized _ _ _ _ Hbd) as Hlow.
  assert (∀ k, prev_notarized (cur_round_of d) d = Some k → ∀ r b',
    cons_blocks_notarized d !! r = Some b' → (r ≤ BlockHeader.round k)%N) as Htop.
  { intros k (_ & _ & Hk)%prev_notarized_Some r b' Hr; [|done]. eapply Hk; eauto. }
  destruct Hacc as [Hd|Hd Hlt Hext|l Hd Hl Hlt Hext].
  - by eapply chain_same.
  - apply (chain_add d _ (BlockHeader.round b) b); [done|done| |].
    + intros r b' Hr. destruct (prev_notarized (cur_round_of d) d) as [k|] eqn:Hk.
      * pose proof (Htop k eq_refl r b' Hr). specialize (Hlt k eq_refl). lia.
      * rewrite prev_notarized_None in Hk. specialize (Hk r b' Hr). specialize (Hlow r b' Hr). lia.
    + enough (prev_notarized (BlockHeader.round b) d = prev_notarized (cur_round_of d) d) as ->; [done|].
      destruct (prev_notarized (cur_round_of d) d) as [k|] eqn:Hk.
      * pose proof Hk as (Hkb & Hkc & _)%prev_notarized_Some; [|done]. specialize (Hlt k eq_refl).
        apply prev_notarized_Some; [done|]. split_and!; [done|done|]. intros r' b' Hr' _. by eapply Htop.
      * rewrite prev_notarized_None in *. intros r' b' Hr'. specialize (Hk r' b' Hr').
        specialize (Hlow r' b' Hr'). lia.
  - set (d1 := set_cons_blocks_notarized (delete (BlockHeader.round l) (cons_blocks_notarized d)) d).
    assert (∀ r b', cons_blocks_notarized d1 !! r = Some b' → (r < BlockHeader.round l)%N) as Hlow1.
    { intros r b' Hr. change (delete (BlockHeader.round l) (cons_blocks_notarized d) !! r = Some b') in Hr.
      apply lookup_delete_Some in Hr as [Hne Hr]. pose proof (Htop l Hl r b' Hr). lia. }
    assert (DbInv d1) as Hinv1 by by apply inv_delete_notarized.
    apply (chain_add d1 _ (BlockHeader.round b) b); [by apply (chain_delete d d1 l (cur_round_of d))|done| |].
    + intros r b' Hr. pose proof (Hlow1 r b' Hr). lia.
    + rewrite (prev_notarized_gap d1 (BlockHeader.round l) (BlockHeader.round b)); [|done|lia|by left; eapply Hlow1].
      rewrite (prev_notarized_ext d1 d); [done|]. intros r' Hr'. apply lookup_delete_ne. lia.
Qed.
End Chain.

(** While the proposal of the current round extends the latest notarized block, a
    vote or proposal that is handled keeps the notarized blocks a chain, and keeps
    this condition: a proposal that it stores was checked. *)
Lemma votes_keep_chain `{Crypto} `{Bincode} (n : Consensus) (i : PeerIdx) (resp : WaitVoteResponse) :
  reachable n → chain (db n) → proposal_extends (db n) →
  let n' := (process_vote_response n i resp).2 in
  chain (db n') ∧ proposal_extends (db n').
Proof.
  intros Hn%reachable_wf Hch Hpe. cbv zeta.
  pose proof (vote_spec n i resp Hn) as Hv. unfold vote_outcome in Hv.
  destruct (process_vote_response n i resp) as [[[]|e|w] n']; cbn; [|by subst..].
  destruct Hv as [[Hrest' _] Hv]. destruct Hn as [[Hinv Hbd Hm] _].
  pose proof (rb_notarized _ _ _ _ Hbd) as Hlow.
  assert (∀ b, cons_blocks_proposals (db n') !! cur_round_of (db n) = Some b →
    does_directly_extend b (prev_notarized (cur_round_of (db n)) (db n)) = true) as Hcurp.
  { intros b Hb. destruct (vs_proposals _ _ Hv) as [Heq|(b' & Hnone & Hext & Heq)]; rewrite Heq in Hb.
    - by apply Hpe.
    - rewrite lookup_insert_eq in Hb. by injection Hb as <-. }
  split.
  - destruct (vs_notarized _ _ Hv) as [Heq|(b & Hb & _ & Heq)]; [by eapply chain_same|].
    eapply chain_add; eauto.
  - intros b Hb. destruct (decide (cur_round_of (db n') = cur_round_of (db n))) as [Hc|Hc].
    + rewrite Hc in *. rewrite (prev_notarized_ext (db n') (db n)); [by apply Hcurp|].
      intros r Hr. destruct (vs_notarized _ _ Hv) as [->|(b' & _ & Hc' & _)]; [done|]. lia.
    + exfalso. pose proof (vs_round _ _ Hv). destruct (vs_proposals _ _ Hv) as [Heq|(b' & _ & _ & Heq)]; rewrite Heq in Hb.
      * apply (rb_proposals _ _ _ _ Hbd) in Hb. lia.
      * rewrite lookup_insert_ne in Hb by lia. apply (rb_proposals _ _ _ _ Hbd) in Hb. lia.
Qed.

(** And so does a notarized block that a node takes in, whether it extends our
    latest block or replaces it, when it is for the current round or a later one,
    or the current round has no proposal. *)
Lemma notarized_blocks_keep_chain `{Crypto} `{Bincode} (n : Consensus) (i : PeerIdx)
    (resp : WaitNotarizedBlockResponse) :
  let b := notarized_inner (resp_notarized resp) in
  reachable n → BlockHeader.round b < u64_max →
  chain (db n) → proposal_extends (db n) →
  cur n ≤ BlockHeader.round b ∨ cons_blocks_proposals (db n) !! cur n = None →
  let n' := (process_notarized_block_response n i resp).2 in
  chain (db n') ∧ proposal_extends (db n').
Proof.
  intros b Hn%reachable_wf Hr Hch Hpe Hcase. cbv zeta.
  pose proof (notarized_spec n i resp Hn Hr) as Hv. unfold notarized_outcome in Hv.
  destruct (process_notarized_block_response n i resp) as [[[]|e|w] n']; cbn; [|by subst..].
  destruct Hv as [[Hrest' _] Hv]. fold b in Hv. pose proof Hn as [Hrest _]. pose proof Hrest as [Hinv Hbd Hm].
  pose proof (rb_notarized _ _ _ _ Hbd) as Hlow. unfold cur in Hcase.
  destruct (ns_notarized _ _ _ Hv) as [Heq|(m & Hacc & Hm')]; [by rewrite Heq|].
  pose proof (accepts_chain _ _ _ Hrest Hch Hr Hacc) as Hch'.
  assert (cons_blocks_proposals (db n) !! cur_round_of (db n) = None ∨
    (is_dummy b = true ∧ m = cons_blocks_notarized (db n)) ∨
    (is_dummy b = false ∧ m !! BlockHeader.round b = Some b ∧ (cur_round_of (db n) ≤ BlockHeader.round b)%N)) as Hwhich.
  { destruct Hcase as [Hge|]; [|by left]. right. destruct Hacc; [by left|right..];
      (split_and!; [done|apply lookup_insert_eq|done]). }
  assert (chain (db n')) as Hchain.
  { destruct Hm' as [Heq|(pb & Hpb & Hmlow & _ & Heq)].
    - eapply chain_same; [|exact Hch']. by rewrite Heq.
    - destruct Hwhich as [Hnone|[[_ ->]|(_ & Hb & Hge)]].
      + congruence.
      + eapply (chain_add (db n)); eauto.
      + apply Hmlow in Hb. lia. }
  split; [done|]. intros pb Hpb. rewrite (ns_proposals _ _ _ Hv) in Hpb.
  pose proof (rb_proposals _ _ _ _ Hbd _ _ Hpb) as Hle. pose proof (ns_round _ _ _ Hv).
  assert (cur_round_of (db n') = cur_round_of (db n)) as Hc by lia. rewrite Hc in *.
  pose proof (rb_notarized _ _ _ _ (rest_bounds _ Hrest')) as Hlow'. rewrite Hc in Hlow'.
  destruct Hm' as [Heq|(pb' & _ & _ & Hadv & _)]; [|lia].
  destruct Hwhich as [Hnone|[[_ ->]|(_ & Hb & Hge)]]; [congruence| |].
  - rewrite (prev_notarized_ext (db n') (db n)); [by apply Hpe|]. intros. by rewrite Heq.
  - rewrite <-Heq in Hb. apply Hlow' in Hb. lia.
Qed.

(** *** Every operation *)
Section Operations.
Context `{Crypto} `{Bincode}.
Implicit Types (n : Consensus).

(** A step leaves the notarized blocks [m], with the proposal of the current round,
    if it notarizes that. *)
Definition leaves n n' (m : gmap BlockRound BlockHeader.t) : Prop :=
  cons_blocks_notarized (db n') = m ∨
  ∃ b, cons_blocks_proposals (db n') !! cur n = Some b ∧
    (cons_blocks_proposals (db n) !! cur n = Some b ∨
     does_directly_extend b (prev_notarized (cur n) (set_cons_blocks_notarized m (db n))) = true) ∧
    (∀ r b', m !! r = Some b' → (r < cur n)%N) ∧ cons_blocks_notarized (db n') = <[cur n := b]> m.

Lemma step_leaves n n' :
  consensus_wf n → cstep n n' → chain (db n) → ∃ m, chain (set_cons_blocks_notarized m (db n)) ∧ leaves n n' m.
Proof.
  intros Hwf Hstep Hch. pose proof Hwf as [Hrest _]. pose proof Hrest as [Hinv Hbd _].
  pose proof (rb_notarized _ _ _ _ Hbd) as Hlow.
  assert (chain (set_cons_blocks_notarized (cons_blocks_notarized (db n)) (db n))) as Hsame by by eapply chain_same.
  assert (cons_blocks_notarized (db n') = cons_blocks_notarized (db n) →
    ∃ m, chain (set_cons_blocks_notarized m (db n)) ∧ leaves n n' m) as Hnone by (intros Heq; by eexists; split; [|left]).
  destruct Hstep as [n i resp|n i resp Hr|n pk resp|n round ts peers Hok|n our n' Ho].
  - pose proof (vote_spec n i resp Hwf) as Hv. unfold vote_outcome in Hv.
    destruct (process_vote_response n i resp) as [[[]|e|w] n']; cbn in *; [|subst; by apply Hnone..].
    destruct Hv as [_ Hv]. destruct (vs_notarized _ _ Hv) as [Heq|(b & Hb & _ & Heq)]; [by apply Hnone|].
    eexists. split; [exact Hsame|]. right. exists b. split_and!; [exact Hb| |exact Hlow|exact Heq].
    destruct (vs_proposals _ _ Hv) as [Hp|(b' & _ & Hext & Hp)]; rewrite Hp in Hb; [by left|].
    rewrite lookup_insert_eq in Hb. injection Hb as <-. by right.
  - pose proof (notarized_spec n i resp Hwf Hr) as Hv. unfold notarized_outcome in Hv.
    destruct (process_notarized_block_response n i resp) as [[[]|e|w] n']; cbn in *; [|subst; by apply Hnone..].
    destruct Hv as [_ Hv]. destruct (ns_notarized _ _ _ Hv) as [Heq|(m & Hacc & Hm)]; [apply Hnone; by rewrite Heq|].
    exists m. split; [by eapply accepts_chain|]. destruct Hm as [Heq|(b & Hb & Hlm & _ & Heq)]; [by left|].
    right. exists b. split_and!; [by rewrite (ns_proposals _ _ _ Hv)|by left|exact Hlm|exact Heq].
  - destruct (finality_spec n pk resp Hwf) as [_ (x & y & z & Hd & _)]. exact (Hnone (f_equal cons_blocks_notarized Hd)).
  - destruct (params_spec n round ts peers Hwf Hok) as [_ [Heq|(p & _ & Hd & _)]]; [exact (Hnone (f_equal (λ n, cons_blocks_notarized (db n)) Heq))|].
    exact (Hnone (f_equal cons_blocks_notarized Hd)).
  - destruct (open_spec _ _ _ Hrest Ho) as (_ & Hs & _).
    destruct (os_notarized _ _ Hs) as [Heq|(b & Hb & Heq)]; [by apply Hnone|].
    eexists. split; [exact Hsame|]. right. exists b. split_and!; [by rewrite (os_proposals _ _ Hs)|by left|exact Hlow|exact Heq].
Qed.

(** The step notarizes a proposal that was stored before it, and that does not
    extend the latest notarized block before it. *)
Definition notarizes_unchecked n n' : Prop := ∃ b,
  cons_blocks_proposals (db n) !! cur n = Some b ∧
  cons_blocks_notarized (db n') !! cur n = Some b ∧ (cur n < cur n')%N ∧
  does_directly_extend b (prev_notarized (cur n) (db n')) = false.

Lemma step_chain n n' :
  consensus_wf n → cstep n n' → chain (db n) → chain (db n') ∨ notarizes_unchecked n n'.
Proof.
  intros Hwf Hstep Hch. destruct (step_leaves n n' Hwf Hstep Hch) as (m & Hm & Hl).
  destruct (cstep_spec _ _ Hwf Hstep) as ([[_ Hbd' _] _] & _).
  destruct Hl as [Heq|(b & _ & Hb & Hlow & Heq)]; [left; by apply (chain_same (set_cons_blocks_notarized m (db n)))|].
  assert (prev_notarized (cur n) (db n') = prev_notarized (cur n) (set_cons_blocks_notarized m (db n))) as Hprev.
  { apply prev_notarized_ext. intros r Hr. rewrite Heq. by rewrite lookup_insert_ne by lia. }
  destruct (does_directly_extend b (prev_notarized (cur n) (set_cons_blocks_notarized m (db n)))) eqn:Hext.
  - left. by apply (chain_add (set_cons_blocks_notarized m (db n)) (db n') (cur n) b).
  - right. destruct Hb as [Hb|]; [|congruence]. exists b. split_and!; [done| | |by rewrite Hprev].
    + by rewrite Heq, lookup_insert_eq.
    + apply (rb_notarized _ _ _ _ Hbd' (cur n) b). by rewrite Heq, lookup_insert_eq.
Qed.

(** Histories in which no block is late: a notarized block that is taken in is for
    the current round or a later one, or comes while the round has no proposal. *)
Inductive timely_step n : Consensus → Prop :=
  | TimelyNotarized i resp :
      let b := notarized_inner (resp_notarized resp) in
      (BlockHeader.round b < u64_max)%N →
      (cur n ≤ BlockHeader.round b)%N ∨ cons_blocks_proposals (db n) !! cur n = None →
      timely_step n (process_notarized_block_response n i resp).2
  | TimelyVote i resp : timely_step n (process_vote_response n i resp).2
  | TimelyFinality pk resp : timely_step n (process_finality_vote_update_response n pk resp).2
  | TimelyParams round ts peers :
      change_ok n round ts peers →
      timely_step n (write_tx n (consensus_params_change_tx (E:=Empty_set)
        (current_round_with_timeout (watches n)).1 round ts peers)).2
  | TimelyReopen our n' : open (db n) our = Ok n' → timely_step n n'.
Inductive timely : Consensus → Prop :=
  | TimelyInit params our pinned n : params_wf params → init params empty_db our pinned = Ok n → timely n
  | TimelyStep n n' : timely n → timely_step n n' → timely n'.

Lemma timely_cstep n n' : timely_step n n' → cstep n n'.
Proof. intros [i resp b Hr _|i resp|pk resp|round ts peers Hok|our n1 Ho]; by econstructor. Qed.
Lemma timely_reachable n : timely n → reachable n.
Proof.
  induction 1 as [params our pinned n Hp Hi|n n' _ IH Hs]; [by eapply RInit|]. eapply RStep; [exact IH|by apply timely_cstep].
Qed.
Lemma same_extends d d' :
  cons_blocks_notarized d' = cons_blocks_notarized d → cons_blocks_proposals d' = cons_blocks_proposals d →
  cur_round_of d' = cur_round_of d → proposal_extends d → proposal_extends d'.
Proof.
  intros Hn Hp Hc Hpe b Hb. rewrite Hp, Hc in Hb. rewrite Hc, (prev_notarized_ext d' d); [by apply Hpe|]. by rewrite Hn.
Qed.
Lemma open_keeps_chain d d' : Rest d → OpenStep d d' → chain d → proposal_extends d → chain d' ∧ proposal_extends d'.
Proof.
  intros Hrest Hs Hch Hpe. pose proof (rb_notarized _ _ _ _ (rest_bounds _ Hrest)) as Hlow. split.
  - destruct (os_notarized _ _ Hs) as [Heq|(b & Hb & Heq)]; [by eapply chain_same|]. eapply chain_add; eauto.
  - destruct (decide (cur_round_of d' = cur_round_of d)) as [Hc|Hc].
    + apply (same_extends d d'); [|by rewrite (os_proposals _ _ Hs)|done|done].
      destruct (os_notarized _ _ Hs) as [Heq|(b & Hb & Heq)]; [done|].
      assert (cur_round_of d < cur_round_of d')%N; [|lia].
      apply (rb_notarized _ _ _ _ (rest_bounds _ (os_rest _ _ Hs)) _ b). by rewrite Heq, lookup_insert_eq.
    + intros b Hb. rewrite (os_proposals _ _ Hs) in Hb. apply (rb_proposals _ _ _ _ (rest_bounds _ Hrest)) in Hb.
      pose proof (os_round _ _ Hs). lia.
Qed.
Lemma timely_keeps n n' :
  reachable n → timely_step n n' → chain (db n) → proposal_extends (db n) → chain (db n') ∧ proposal_extends (db n').
Proof.
  intros Hn Hs Hch Hpe. pose proof (reachable_wf n Hn) as Hwf.
  destruct Hs as [i resp b Hr Hcase|i resp|pk resp|round ts peers Hok|our n1 Ho].
  - by apply notarized_blocks_keep_chain.
  - by apply votes_keep_chain.
  - destruct (finality_spec n pk resp Hwf) as [_ (x & y & z & Hd & _)]. rewrite Hd.
    split; [by eapply chain_same|by eapply same_extends].
  - destruct (params_spec n round ts peers Hwf Hok) as [_ [->|(p & _ & Hd & _)]]; [done|]. rewrite Hd.
    split; [by eapply chain_same|by eapply same_extends].
  - destruct (open_spec _ _ _ (proj1 Hwf) Ho) as (_ & Hs & _). by apply (open_keeps_chain (db n)); [apply Hwf|..].
Qed.
Lemma timely_chain n : timely n → chain (db n) ∧ proposal_extends (db n).
Proof.
  induction 1 as [params our pinned n Hp Hi|n n' Hn IH Hs].
  - pose proof (init_db_rest params pinned Hp) as Hr.
    destruct (open_internal_spec (E:=InitError) _ _ _ Hr (init_is_internal _ _ _ _ Hi)) as (_ & Hs & _).
    apply (open_keeps_chain (init_db params pinned)); [done|done|..].
    + intros r b Hb. destruct pinned as [[]|]; cbn in Hb; by rewrite lookup_empty in Hb.
    + intros b Hb. destruct pinned as [[]|]; cbn in Hb; by rewrite lookup_empty in Hb.
  - destruct IH. apply (timely_keeps n n'); [by apply timely_reachable|done..].
Qed.
End Operations.

(** C38: the chain of notarized blocks, and the one way to break it.  In every
    history in which no notarized block of a past round is taken in while the
    current round has a proposal, each notarized block directly extends the one
    before it, and so does the proposal of the current round.  In any history, a
    step of whatever kind (a vote, a notarized block, a finality vote, a change of
    parameters, a restart) keeps the notarized blocks a chain, or it notarizes a
    proposal that was stored before and does not extend the latest notarized
    block: then they are no chain any more ([late_block_breaks_chain] runs such a
    history). *)
Theorem chain_breaks_one_way `{Crypto} `{Bincode} (n : Consensus) :
  (timely n → chain (db n) ∧ proposal_extends (db n)) ∧
  ∀ n', reachable n → cstep n n' → chain (db n) →
    (chain (db n') ∨ notarizes_unchecked n n') ∧ (notarizes_unchecked n n' → ¬ chain (db n')).
Proof.
  split; [apply timely_chain|]. intros n' Hn%reachable_wf Hstep Hch. split; [by apply step_chain|].
  intros (b & _ & Hb & _ & Hext) Hch'. specialize (Hch' _ _ Hb). congruence.
Qed.

(** The chain below a common block is the same.  When the notarized blocks of
    two nodes form chains, and both hold the same block in a round, they hold the
    same block or none in every round before; and so the latest block before any
    of these rounds is the same.  The hashes of the headers in circulation do not
    collide and are not zero. *)
Theorem same_chain_below `{Crypto} `{Bincode} (P : BlockHeader.t → Prop) (d1 d2 : ConsDb) (r : N) (b : BlockHeader.t) :
  (∀ b1 b2, P b1 → P b2 → hash b1 = hash b2 → b1 = b2) → (∀ b, P b → hash b ≠ 0%N) →
  DbInv d1 → DbInv d2 → chain d1 → chain d2 →
  (∀ r' b', cons_blocks_notarized d1 !! r' = Some b' ∨ cons_blocks_notarized d2 !! r' = Some b' → P b') →
  cons_blocks_notarized d1 !! r = Some b → cons_blocks_notarized d2 !! r = Some b →
  ∀ r', (r' ≤ r)%N → cons_blocks_notarized d1 !! r' = cons_blocks_notarized d2 !! r' ∧
                     prev_notarized r' d1 = prev_notarized r' d2.
Proof.
  intros Hinj Hnz Hi1 Hi2 Hc1 Hc2 HP Hb1 Hb2.
  enough (∀ r', (r' ≤ r)%N → cons_blocks_notarized d1 !! r' = cons_blocks_notarized d2 !! r') as Hsame.
  { intros r' Hle. split; [by apply Hsame|]. apply prev_notarized_ext. intros k Hk. apply Hsame. lia. }
  revert b Hb1 Hb2. induction (N.lt_wf_0 r) as [r _ IH]. intros b Hb1 Hb2 r' Hle.
  destruct (decide (r' = r)) as [->|Hne]; [congruence|]. assert (r' < r)%N as Hlt by lia. clear Hle Hne.
  pose proof (Hc1 _ _ Hb1) as He1. pose proof (Hc2 _ _ Hb2) as He2.
  destruct (prev_notarized r d1) as [p1|] eqn:Hp1, (prev_notarized r d2) as [p2|] eqn:Hp2.
  - apply prev_notarized_Some in Hp1 as (Hn1 & Hl1 & Hm1); [|done].
    apply prev_notarized_Some in Hp2 as (Hn2 & Hl2 & Hm2); [|done].
    apply does_directly_extend_Some in He1 as (_ & _ & Hh1). apply does_directly_extend_Some in He2 as (_ & _ & Hh2).
    assert (p1 = p2) as <- by (apply Hinj; [eauto..|congruence]).
    destruct (decide (r' ≤ BlockHeader.round p1)%N) as [Hle|Hgt]; [by eapply IH|].
    destruct (cons_blocks_notarized d1 !! r') as [x|] eqn:Hx.
    { specialize (Hm1 _ _ Hx Hlt). lia. }
    destruct (cons_blocks_notarized d2 !! r') as [y|] eqn:Hy; [|done]. specialize (Hm2 _ _ Hy Hlt). lia.
  - exfalso. apply prev_notarized_Some in Hp1 as (Hn1 & _); [|done].
    apply does_directly_extend_Some in He1 as (_ & _ & Hh1). apply does_directly_extend_None in He2 as [_ Hh2].
    apply (Hnz p1); [eauto|congruence].
  - exfalso. apply prev_notarized_Some in Hp2 as (Hn2 & _); [|done].
    apply does_directly_extend_Some in He2 as (_ & _ & Hh2). apply does_directly_extend_None in He1 as [_ Hh1].
    apply (Hnz p2); [eauto|congruence].
  - rewrite prev_notarized_None in Hp1, Hp2.
    destruct (cons_blocks_notarized d1 !! r') as [x|] eqn:Hx; [specialize (Hp1 _ _ Hx); lia|].
    destruct (cons_blocks_notarized d2 !! r') as [y|] eqn:Hy; [specialize (Hp2 _ _ Hy); lia|done].
Qed.


(** ** Concrete runs *)
Section ChainRuns.
Local Existing Instance Toy.crypto.
Local Existing Instance Toy.bincode.

Definition late_block0 : BlockHeader.t := toy_header None 0 [1].
Definition late_block1 : BlockHeader.t := toy_header (Some late_block0) 1 [2].
Definition late_block2 : BlockHeader.t := toy_header (Some late_block0) 2 [3].
Definition late_response1 : WaitNotarizedBlockResponse :=
  MkWaitNotarizedBlockResponse (toy_notarized late_block1 [1; 2; 3]) [2].
Definition votes_of (b : BlockHeader.t) (l : list N) : list (PeerIdx * WaitVoteResponse) :=
  (λ i, (i, Vote (new_sign b i))) <$> l.

(** Block 0 is notarized, the peers 0, 1 and 2 skip round 1, and the leader of
    round 2 proposes a block that extends block 0. *)
Definition before_late_block : Consensus :=
  run_votes (created (Some 1))
    ((2, Proposal (new_sign late_block0 2) [1]) :: votes_of late_block0 [0; 1] ++
     votes_of (toy_dummy 1) [0; 1; 2] ++ [(0, Proposal (new_sign late_block2 0) [3])]).
(** Then the notarized block of round 1 arrives. *)
Definition after_late_block : Consensus :=
  (process_notarized_block_response before_late_block 3 late_response1).2.

Lemma toy_created_reachable : reachable (created (Some 1)).
Proof.
  apply reachable_created; [|vm_compute; reflexivity].
  apply toy_params_wf; [repeat constructor|]. vm_compute. discriminate.
Qed.
Lemma after_late_block_reachable : reachable after_late_block.
Proof. apply reachable_notarized; [|reflexivity]. apply reachable_run, toy_created_reachable. Qed.

Lemma chain_check d :
  forallb (λ x, does_directly_extend x.2 (prev_notarized x.1 d)) (map_to_list (cons_blocks_notarized d)) = true →
  chain d.
Proof.
  intros Hall r b Hb%elem_of_map_to_list. rewrite forallb_forall in Hall.
  apply (Hall (r, b)). by apply list_elem_of_In.
Qed.
Lemma proposal_check d :
  match cons_blocks_proposals d !! cur_round_of d with
  | Some b => does_directly_extend b (prev_notarized (cur_round_of d) d)
  | None => true
  end = true → proposal_extends d.
Proof. intros Hc b Hb. by rewrite Hb in Hc. Qed.

(** The notarized blocks do not always stay a chain.  A reachable node with a
    chain of notarized blocks holds, after the last two votes for the proposal
    of round 2, notarized blocks for the rounds 0, 1 and 2 of which the last
    does not extend the one before it: the block of round 1 was taken in after
    the proposal was stored, and the end of the round notarizes the proposal
    without checking again what it extends. *)
Theorem late_block_breaks_chain :
  ∃ n l, reachable n ∧ chain (db n) ∧ ¬ chain (db (run_votes n l)) ∧ cur (run_votes n l) = 3.
Proof.
  exists after_late_block, (votes_of late_block2 [1; 2]).
  split; [apply after_late_block_reachable|]. split; [|split].
  - apply chain_check. vm_compute. reflexivity.
  - intros Hch. specialize (Hch 2 late_block2).
    assert (cons_blocks_notarized (db (run_votes after_late_block (votes_of late_block2 [1; 2]))) !! 2 = Some late_block2)
      as Hb by (vm_compute; reflexivity).
    apply Hch in Hb. vm_compute in Hb. discriminate.
  - vm_compute. reflexivity.
Qed.

Lemma run_votes_timely n l : timely n → timely (run_votes n l).
Proof.
  revert n. induction l as [|[i resp] l IH]; intros n Hn; [done|]. cbn [run_votes].
  apply IH. eapply TimelyStep; [exact Hn|constructor].
Qed.
Lemma toy_created_timely : timely (created (Some 1)).
Proof.
  assert (params_wf toy_params) as Hwf by (apply toy_params_wf; [repeat constructor|vm_compute; discriminate]).
  assert (match init toy_params empty_db (Some 1) None with Ok _ => true | _ => false end = true) as Hi
    by (vm_compute; reflexivity).
  unfold created. destruct (init toy_params empty_db (Some 1) None) as [self| |] eqn:He; try discriminate Hi.
  by eapply TimelyInit.
Qed.

(** The last vote for the proposal of round 2, in both histories: in the timely one
    the chain is kept, in the other one the proposal is notarized unchecked, and
    the notarized blocks are no chain any more. *)
Definition last_vote (n : Consensus) : Consensus := (process_vote_response n 2 (Vote (new_sign late_block2 2))).2.
Definition before_last (n : Consensus) : Consensus := run_votes n (votes_of late_block2 [1]).
Lemma last_vote_timely n : timely n → timely (last_vote n).
Proof. intros Hn. eapply TimelyStep; [exact Hn|apply TimelyVote]. Qed.
Lemma last_vote_step n : cstep n (last_vote n).
Proof. apply CVote. Qed.

Lemma chain_breaks_one_way_witness :
  (cur (last_vote (before_last before_late_block)) = 3 ∧
   chain (db (last_vote (before_last before_late_block))) ∧
   proposal_extends (db (last_vote (before_last before_late_block)))) ∧
  notarizes_unchecked (before_last after_late_block) (last_vote (before_last after_late_block)) ∧
  ¬ chain (db (last_vote (before_last after_late_block))).
Proof.
  split.
  - split; [vm_compute; reflexivity|].
    apply (chain_breaks_one_way (last_vote (before_last before_late_block))).
    apply last_vote_timely. unfold before_last, before_late_block. apply run_votes_timely, run_votes_timely, toy_created_timely.
  - assert (¬ chain (db (last_vote (before_last after_late_block)))) as Hno.
    { intros Hch. assert (cons_blocks_notarized (db (last_vote (before_last after_late_block))) !! 2 = Some late_block2)
        as Hb by (vm_compute; reflexivity).
      apply Hch in Hb. vm_compute in Hb. discriminate. }
    split; [|exact Hno].
    destruct (chain_breaks_one_way (before_last after_late_block)) as [_ Hstep].
    destruct (Hstep (last_vote (before_last after_late_block))) as [[Hch|Hun] _]; [..|contradiction|exact Hun].
    + unfold before_last. apply reachable_run, after_late_block_reachable.
    + apply last_vote_step.
    + apply chain_check. vm_compute. reflexivity.
Defined.

Lemma votes_keep_chain_witness :
  cons_blocks_proposals (db before_late_block) !! 2 = Some late_block2 ∧
  let n' := (process_vote_response before_late_block 1 (Vote (new_sign late_block2 1))).2 in
  chain (db n') ∧ proposal_extends (db n').
Proof.
  split; [vm_compute; reflexivity|].
  apply (votes_keep_chain before_late_block 1 (Vote (new_sign late_block2 1))).
  - apply reachable_run, toy_created_reachable.
  - apply chain_check. vm_compute. reflexivity.
  - apply proposal_check. vm_compute. reflexivity.
Defined.

(** The node that has only block 0 rewinds nothing and takes block 1. *)
Definition after_block0 : Consensus :=
  run_votes (created (Some 1)) ((2, Proposal (new_sign late_block0 2) [1]) :: votes_of late_block0 [0; 1]).

Lemma notarized_blocks_keep_chain_witness :
  cur (process_notarized_block_response after_block0 3 late_response1).2 = 2 ∧
  chain (db (process_notarized_block_response after_block0 3 late_response1).2).
Proof.
  split; [vm_compute; reflexivity|].
  refine (proj1 (notarized_blocks_keep_chain after_block0 3 late_response1 _ _ _ _ _)).
  - apply reachable_run, toy_created_reachable.
  - vm_compute. reflexivity.
  - apply chain_check. vm_compute. reflexivity.
  - apply proposal_check. vm_compute. reflexivity.
  - left. vm_compute. discriminate.
Defined.

(** Two nodes with blocks 0 and 1: one took block 1 in time, the other after it
    had skipped the round. *)
Definition in_time : Consensus := (process_notarized_block_response after_block0 3 late_response1).2.

Lemma same_chain_below_witness :
  cons_blocks_notarized (db in_time) !! 0 = cons_blocks_notarized (db after_late_block) !! 0 ∧
  cur in_time = 2 ∧ cons_votes_dummy (db in_time) ≠ cons_votes_dummy (db after_late_block).
Proof.
  split; [|split; [vm_compute; reflexivity|apply (bool_decide_unpack _); vm_compute; exact I]].
  assert (∀ c, reachable c → DbInv (db c)) as Hinv by (intros c Hc; apply rest_inv, reachable_wf, Hc).
  refine (proj1 (same_chain_below (λ b, b ∈ [late_block0; late_block1]) (db in_time) (db after_late_block) 1 late_block1
    _ _ _ _ _ _ _ _ _ 0 _)).
  - intros b1 b2. rewrite !elem_of_cons, !elem_of_nil.
    intros [->|[->|[]]] [->|[->|[]]] Hh; try reflexivity; vm_compute in Hh; discriminate Hh.
  - intros b. rewrite !elem_of_cons, !elem_of_nil. intros [->|[->|[]]] Hh; vm_compute in Hh; discriminate Hh.
  - apply Hinv. apply reachable_notarized; [|reflexivity]. apply reachable_run, toy_created_reachable.
  - apply Hinv, after_late_block_reachable.
  - apply chain_check. vm_compute. reflexivity.
  - apply chain_check. vm_compute. reflexivity.
  - assert (∀ d, forallb (λ x, bool_decide (x.2 ∈ [late_block0; late_block1])) (map_to_list (cons_blocks_notarized d)) = true →
      ∀ r' b', cons_blocks_notarized d !! r' = Some b' → b' ∈ [late_block0; late_block1]) as Hall.
    { intros d Hd r' b' Hb%elem_of_map_to_list%list_elem_of_In. rewrite forallb_forall in Hd. specialize (Hd _ Hb).
      apply bool_decide_eq_true in Hd. exact Hd. }
    intros r' b' [Hb|Hb]; (eapply Hall; [|exact Hb]); vm_compute; reflexivity.
  - vm_compute. reflexivity.
  - vm_compute. reflexivity.
  - vm_compute. discriminate.
Defined.
End ChainRuns.
