(* ===== verification/ConsServe.v ===== *)
(** * What a node serves to the others ([getters.rs]) and finality

    The answers to [WaitNotarizedBlockRequest], the timeout of a round, and the
    value of the finality consensus, of a reachable consensus. *)
From S2P Require Import Prelude VoteSet Peers Core Db ConsDb Consensus ConsInv ConsRound ConsSteps ConsSpec ConsProps.

Section ServeLemmas.
Context `{Crypto} `{Bincode}.
Implicit Types (d : ConsDb) (b : BlockHeader.t) (r c : N).

Lemma foldl_insert_map {V} (l : list (N * V)) (m : gmap N V) :
  NoDup l.*1 → (∀ k, k ∈ l.*1 → m !! k = None) →
  foldl (λ m kv, <[kv.1 := kv.2]> m) m l = list_to_map l ∪ m.
Proof.
  revert m. induction l as [|[k v] l IH]; intros m Hnd Hnone; simpl; [by rewrite map_empty_union|].
  apply NoDup_cons in Hnd as [Hk Hnd]. rewrite IH.
  - rewrite <-insert_union_r by (by apply not_elem_of_list_to_map). by rewrite insert_union_l.
  - done.
  - intros k' Hk'. rewrite lookup_insert_ne by (intros <-; done). apply Hnone. by right.
Qed.

(** The signatures of a served block are those of the stored votes. *)
Lemma served_sigs d r b :
  sigs (notarized_new b ((λ kv : N * N * SignedVote, (kv.1.2, sig kv.2)) <$>
                           range (round_votes r) (cons_votes_block d))) = round_sigs d r.
Proof.
  unfold notarized_new. simpl.
  rewrite (foldl_insert_map ((λ kv : N * N * SignedVote, (kv.1.2, sig kv.2)) <$> range (round_votes r) (cons_votes_block d)));
    [|apply round_sigs_NoDup|by intros; apply lookup_empty].
  by rewrite map_union_empty.
Qed.

Lemma certificate_verifies d r b p :
  params_wf p → certificate d r b p (round_sigs d r) →
  verify_sigs (MkNotarized b (round_sigs d r)) p = Ok ().
Proof.
  intros Hwf [Hsz Hall]. apply verify_sigs_Ok. split_and!; [apply pwf_max, Hwf|done|].
  intros i s Hs. by apply (Hall i s Hs).
Qed.

(** What the tables have for a notarized block. *)
Lemma notarized_served d r b :
  DbInv d → cons_blocks_notarized d !! r = Some b →
  let votes := (λ kv : N * N * SignedVote, (kv.1.2, sig kv.2)) <$> range (round_votes (BlockHeader.round b)) (cons_votes_block d) in
  BlockHeader.round b = r ∧ ∃ payload p,
    cons_blocks_payloads d !! BlockHeader.payload_hash b = Some payload ∧ params_at d r = Some p ∧
    verify_sigs (notarized_new b votes) p = Ok () ∧
    (verify_with_content b (params_hash p) (N.of_nat (length (to_raw p))) payload = Ok () ∨ blake3_collision).
Proof.
  intros Hinv Hb. cbv zeta.
  destruct (inv_notarized _ Hinv r b Hb) as [(<- & Hd & Hv & (p & Hp & Hph & Hpl) & [payload Hpay] & (m & Hm & Hml)) _].
  destruct (notarized_certificate _ _ _ Hinv Hb) as (p' & Hp' & Hwf & Hc). rewrite Hp in Hp'. injection Hp' as <-.
  split; [done|]. exists payload, p. split_and!; [done|done| |].
  - pose proof (served_sigs d (BlockHeader.round b) b) as Hs.
    unfold notarized_new in *. simpl in *. rewrite Hs. by apply certificate_verifies.
  - simpl. destruct (inv_payloads _ Hinv _ _ Hpay) as [Hhash Hlen].
    destruct (decide (m = payload)) as [->|Hne]; [left|right; exists m, payload; split; [done|congruence]].
    apply verify_with_content_Ok. by rewrite Hd.
Qed.
End ServeLemmas.

(** C18: a notarized block that a node serves is accepted by a peer with the same
    parameters.  When a reachable node has a notarized block from the requested
    round on, it answers with the first one; the signatures of the answer pass
    [verify_sigs] under the parameters of its round, and the header and payload
    pass [verify_with_content], unless two different payloads with the same
    blake3 hash are known. *)
Theorem served_block_accepted `{Crypto} `{Bincode} (n : Consensus) (req : WaitNotarizedBlockRequest) :
  reachable n →
  (∃ r b, cons_blocks_notarized (db n) !! r = Some b ∧ (min_notarized_round req ≤ r)%N) →
  ∃ resp p, get_notarized_block_resp n req = Ok (Some resp) ∧
    let b := notarized_inner (resp_notarized resp) in
    cons_blocks_notarized (db n) !! BlockHeader.round b = Some b ∧
    (min_notarized_round req ≤ BlockHeader.round b)%N ∧
    (∀ r b', cons_blocks_notarized (db n) !! r = Some b' → (min_notarized_round req ≤ r)%N →
       (BlockHeader.round b ≤ r)%N) ∧
    params_at (db n) (BlockHeader.round b) = Some p ∧
    verify_sigs (resp_notarized resp) p = Ok () ∧
    (verify_with_content b (params_hash p) (N.of_nat (length (to_raw p))) (resp_payload resp) = Ok () ∨
     blake3_collision).
Proof.
  intros [[Hinv _ _] _]%reachable_wf (r0 & b0 & Hb0 & Hr0).
  destruct (range_first (rg_from (min_notarized_round req)) (cons_blocks_notarized (db n))) as [[r b]|] eqn:Hf.
  2: { rewrite range_first_None in Hf. specialize (Hf _ _ Hb0). apply rg_from_N in Hr0. congruence. }
  pose proof Hf as (Hb & Hge & Hmin)%range_first_Some. apply rg_from_N in Hge.
  destruct (notarized_served _ _ _ Hinv Hb) as (<- & payload & p & Hpay & Hp & Hsigs & Hcontent).
  eexists (MkWaitNotarizedBlockResponse (notarized_new b _) payload), p.
  split; [|cbn [resp_notarized resp_payload]; split_and!; [done|done| |done|exact Hsigs|exact Hcontent]].
  - unfold get_notarized_block_resp, read_tx, read_with_expect, read_with_inner_falliable, get_notarized_block_resp_rd,
      mbind, rd_bind, rd_get, rd_expect. rewrite Hf. simpl. rewrite Hpay. reflexivity.
  - intros r' b' Hb' Hr'. apply rg_from_N in Hr'. by apply (Hmin r' b').
Qed.

(** C40: the timeout of a round is at least 200 ms, at most 200 ms * 2^32, and
    exactly 200 ms while the current round is not ahead of the finality consensus
    by more than the number of peers; asking for it does not panic. *)
Theorem round_timeout_bounds `{Crypto} `{Bincode} (n : Consensus) :
  reachable n → (finality_consensus (watches n) ≤ u64_max - 255)%N →
  ∃ t p, get_current_round_timeout n = Ok t ∧ params_at (db n) (cur n) = Some p ∧
    (200 ≤ t ≤ 200 * 2 ^ 32)%N ∧
    ((cur n ≤ finality_consensus (watches n) + npeers p)%N → t = 200%N).
Proof.
  intros [[Hinv _ _] Hw]%reachable_wf Hf. unfold get_current_round_timeout. rewrite Hw. fold (cur n).
  destruct (get_consensus_params_inv (E:=Empty_set) (db n) (cur n) Hinv) as (p & Hget & Hp & Hwf).
  unfold read_tx, read_with_expect, read_with_inner_falliable. rewrite Hget. simpl.
  rewrite num_peers_wf by done. simpl. pose proof (npeers_pos p Hwf) as [_ Hle].
  unfold wrapping_add, NumPeers.total. unfold u64_max in *. rewrite N.mod_small by lia.
  eexists _, p. split; [done|]. split; [done|]. rewrite N.shiftl_1_l. split.
  - set (k := N.min _ 32). assert (1 ≤ 2 ^ k ≤ 2 ^ 32)%N; [|lia]. split.
    + pose proof (N.pow_nonzero 2 k). lia.
    + apply N.pow_le_mono_r; lia.
  - intros Hc. unfold checked_sub. case_decide; simpl; [|done].
    assert (cur n - (finality_consensus (watches n) + npeers p) = 0)%N as -> by lia. done.
Qed.

(** ** The finality consensus *)
Section Finality.
Context `{Crypto} `{Bincode}.
Implicit Types (d : ConsDb).

(** The element at index [k] of a sorted list: all from it on are as large, and
    what is larger is after it. *)
Lemma sorted_index_count (l : list N) k f :
  PeerSet.sort_unstable l !! k = Some f →
  (length l - k ≤ count_if (λ v, f <=? v)%N l)%nat ∧
  ∀ f', (f < f')%N → (count_if (λ v, f' <=? v)%N l < length l - k)%nat.
Proof.
  intros Hk. pose proof (PeerSet.sort_unstable_sorted l) as Hs.
  assert (∀ g : N → bool, count_if g l = count_if g (PeerSet.sort_unstable l)) as Hperm.
  { intros g. rewrite !count_if_filter. apply Permutation_length. by rewrite PeerSet.sort_unstable_perm. }
  setoid_rewrite Hperm. rewrite <-(Permutation_length (PeerSet.sort_unstable_perm l)).
  revert Hs Hk. clear Hperm. generalize (PeerSet.sort_unstable l). clear l. intros l Hs. revert k.
  induction Hs as [|x l Hs IH Hx]; intros k Hk; [done|]. rewrite Forall_forall in Hx.
  destruct k as [|k]; simpl in *.
  - injection Hk as ->. split.
    + rewrite N.leb_refl. enough (length l ≤ count_if (λ v, f <=? v)%N l)%nat; [lia|].
      clear -Hx. induction l as [|y l IH]; simpl; [lia|].
      assert ((f <=? y) = true)%N as -> by (apply N.leb_le, Hx; left).
      enough (length l ≤ count_if (λ v, f <=? v)%N l)%nat; [lia|]. apply IH. intros z Hz. apply Hx. by right.
    + intros f' Hf'. assert ((f' <=? f) = false)%N as -> by (apply N.leb_gt; lia).
      pose proof (count_if_le_length (λ v, f' <=? v)%N l). lia.
  - destruct (IH k Hk) as [H1 H2]. pose proof (Hx f ltac:(by eapply list_elem_of_lookup_2)) as Hxf. split.
    + destruct (f <=? x)%N; lia.
    + intros f' Hf'. specialize (H2 f' Hf'). assert ((f' <=? x) = false)%N as -> by (apply N.leb_gt; lia). lia.
Qed.

(** The peers of [p] whose finality vote has reached [f]. *)
Definition finality_support d p (f : N) : N :=
  N.of_nat (count_if (λ v, f <=? v)%N (finality_votes_of d p)).

Lemma finality_support_spec d p f :
  params_wf p → PeerSet.sort_unstable (finality_votes_of d p) !! N.to_nat (NumPeers.max_faulty (npeers p)) = Some f →
  (NumPeers.threshold (npeers p) ≤ finality_support d p f)%N ∧
  ∀ f', (f < f')%N → (finality_support d p f' < NumPeers.threshold (npeers p))%N.
Proof.
  intros Hwf [H1 H2]%sorted_index_count. unfold finality_support, NumPeers.threshold, NumPeers.total.
  assert (length (finality_votes_of d p) = N.to_nat (npeers p)) as Hlen.
  { unfold finality_votes_of, npeers. rewrite length_fmap. lia. }
  rewrite Hlen in *. split; [lia|]. intros f' Hf'%H2. lia.
Qed.

(** What a finality vote may announce: nothing, or a value with a quorum. *)
Definition announced d c (s' : TxState ConsDb Hook) : Prop :=
  tx_hooks s' = [] ∨ ∃ f p, tx_hooks s' = [FinalityConsensusHook f] ∧
    (default 0 (cons_finality_consensus d) < f)%N ∧ cons_finality_consensus (tx_db s') = Some f ∧
    params_at d c = Some p ∧
    (NumPeers.threshold (npeers p) ≤ finality_support (tx_db s') p f)%N ∧
    (∀ f', (f < f')%N → (finality_support (tx_db s') p f' < NumPeers.threshold (npeers p))%N) ∧
    (∀ r i s, cons_votes_dummy (tx_db s') !! (r, i) = Some s → (f ≤ r)%N).

Lemma wp_finality_announced d pk resp :
  DbInv d →
  wp false (process_finality_vote_update_response_tx pk resp) (λ _ s', announced d (cur_round_of d) s') (MkTx d []).
Proof.
  intros Hinv. unfold process_finality_vote_update_response_tx.
  wp_step. apply wp_get_current_round. wp_step. apply wp_lift_map_err; [|done]. intros _ _.
  unfold update_peer_finality_vote_round, update_finality_vote. repeat wp_step. cbn [tx_db tx_hooks].
  set (d1 := set_cons_finality_votes _ d).
  assert (wp (E:=ProcessFirstUnnotarizedUpdateError) false (recalculate_finality_consensus_tx (cur_round_of d))
    (λ _ s', announced d (cur_round_of d) s') (MkTx d1 [])) as Hrec.
  { apply wp_recalculate_value; [by apply inv_set_finality_votes|]. cbn [tx_db tx_hooks].
    intros p f Hp Hwf Hf. split; [by left|]. intros Hlt. right. exists f, p.
    destruct (finality_support_spec d1 p f Hwf Hf) as [Hs1 Hs2]. split_and!; try done.
    intros r i s [_ Hk]%map_lookup_filter_Some. simpl in Hk. destruct (N.le_gt_cases f r) as [|Hr]; [done|].
    discriminate Hk. apply rg_excl_pair. unfold pair_le, PeerIdx_MIN. simpl. lia. }
  destruct (cons_finality_votes d !! pk) as [prev|]; [|done].
  destruct (_ <? prev)%N; [by left|]. destruct (_ =? prev)%N; [by left|done].
Qed.
End Finality.


(** ** Concrete runs *)
Section ServeWitnesses.
Local Existing Instance Toy.bincode.
Local Existing Instance Toy.crypto.

Definition request0 : WaitNotarizedBlockRequest := MkWaitNotarizedBlockRequest 0 1.

Lemma served_block_accepted_witness :
  ∃ resp, get_notarized_block_resp node1 request0 = Ok (Some resp) ∧
    notarized_inner (resp_notarized resp) = OneBlock.block.
Proof.
  destruct (served_block_accepted node1 request0 reachable_node1) as (resp & p & Hr & _).
  - exists 0%N, OneBlock.block. split; [vm_compute; reflexivity|vm_compute; discriminate].
  - exists resp. split; [exact Hr|]. vm_compute in Hr. injection Hr as <-. reflexivity.
Defined.

Lemma round_timeout_bounds_witness :
  ∃ t, get_current_round_timeout node1 = Ok t ∧ (200 ≤ t)%N.
Proof.
  destruct (round_timeout_bounds node1 reachable_node1) as (t & p & Ht & _ & [H1 _] & _).
  - vm_compute. discriminate.
  - exists t. split; [exact Ht|exact H1].
Defined.
End ServeWitnesses.

Section FinalityWitness.
Local Existing Instance Toy.bincode.
Local Existing Instance Toy.crypto.

(** The finality votes of peers, signed with their keys, one after the other. *)
Definition finality_vote (sk round : N) : WaitFinalityVoteResponse :=
  MkWaitFinalityVoteResponse (new_sign (MkFinalityVoteUpdate round) sk).
Definition run_finality (self : Consensus) (l : list (N * N)) : Consensus :=
  foldl (λ c m, (process_finality_vote_update_response c (m.1 + 1) (finality_vote m.1 m.2)).2) self l.

Lemma toy_created_ok : reachable (created (Some 1)).
Proof.
  apply reachable_created; [|vm_compute; reflexivity].
  apply toy_params_wf; [repeat constructor|]. vm_compute. discriminate.
Qed.
Lemma reachable_finality self l : reachable self → reachable (run_finality self l).
Proof.
  revert self. induction l as [|m l IH]; intros self Hs; [done|]. simpl. apply IH.
  eapply RStep; [exact Hs|]. apply CFinality.
Qed.

Definition two_finality_votes : Consensus := run_finality (created (Some 1)) [(0, 10); (1, 10)].

End FinalityWitness.
