(* ===== verification/ConsLimits.v ===== *)
(** * Where the consensus engine falls short

    Histories, run on the concrete keys and hash of [Toy], in which the engine
    does not do what it means to: each theorem shows a reachable consensus and
    what a message or a call does to it. *)
From S2P Require Import Prelude VoteSet Peers Core Db ConsDb Consensus ConsInv ConsRound ConsSteps ConsSpec ConsProps ConsServe.

Section Limits.
Local Existing Instance Toy.bincode.
Local Existing Instance Toy.crypto.

Definition from_peer (b : BlockHeader.t) (i : N) : PeerIdx * WaitVoteResponse := (i, Vote (new_sign b i)).

(** The announced finality consensus can go back.  One peer whose finality vote
    goes back is enough: its lower vote is stored, the next vote of another peer
    stores a lower consensus without announcing it, and the one after that
    announces a round below the one announced before. *)
Theorem finality_consensus_goes_back :
  ∃ n l, reachable n ∧ reachable (run_finality n l) ∧
    (finality_consensus (watches (run_finality n l)) < finality_consensus (watches n))%N.
Proof.
  exists (run_finality (created (Some 1)) [(0, 10); (1, 10); (2, 10)]), [(2, 2); (3, 1); (3, 3)].
  split_and!; [apply reachable_finality, toy_created_ok|
    apply reachable_finality, reachable_finality, toy_created_ok|vm_compute; reflexivity].
Qed.

(** The dummy header of a peer that sets its timestamp. *)
Definition stamped_dummy : BlockHeader.t :=
  let b := toy_dummy 0 in
  BlockHeader.mk (BlockHeader.header_version b) (BlockHeader.padding b) (BlockHeader.seq b) (BlockHeader.round b)
    5 (BlockHeader.payload_len b) (BlockHeader.consensus_params_len b) (BlockHeader.prev_block_hash b)
    (BlockHeader.consensus_params_hash b) (BlockHeader.payload_hash b).

(** A node can serve a proof of a skipped round that no peer accepts.  A dummy
    vote whose header has a timestamp is counted like the others, but only its
    signature is stored; the answer made from it, with the header of [new_dummy],
    fails [verify_sigs]. *)
Theorem dummy_response_rejected :
  ∃ n resp p, reachable n ∧ cur n = 1%N ∧
    get_notarized_block_resp n (MkWaitNotarizedBlockRequest 0 0) = Ok (Some resp) ∧
    params_at (db n) 0 = Some p ∧ verify_sigs (resp_notarized resp) p = Err (InvalidPeerSignature 0).
Proof.
  set (n := run_votes (created (Some 1)) [from_peer stamped_dummy 0; from_peer (toy_dummy 0) 1; from_peer (toy_dummy 0) 2]).
  assert (reachable n) as Hn by apply reachable_run, toy_created_ok.
  destruct (get_notarized_block_resp n (MkWaitNotarizedBlockRequest 0 0)) as [[resp|]| |] eqn:Hr;
    [|vm_compute in Hr; discriminate..].
  exists n, resp, toy_params. split_and!; [done|vm_compute; reflexivity|done|vm_compute; reflexivity|].
  vm_compute in Hr. injection Hr as <-. vm_compute. reflexivity.
Qed.

(** A response can end the process.  A correctly notarized block that does not
    follow from what a fresh node has, and a notarized block with a signature of a
    peer index that the round does not have, make the handler panic instead of
    returning an error. *)
Theorem responses_crash_node :
  ∃ n r1 r2, reachable n ∧
    verify_sigs (resp_notarized r1) toy_params = Ok () ∧
    (process_notarized_block_response n 3 r1).1 = Panic "Must have latest notarized" ∧
    (process_notarized_block_response n 3 r2).1 = Panic "index out of bounds".
Proof.
  set (b1 := toy_header (Some (toy_header None 0 [1])) 1 [2]).
  exists (created (Some 1)), (MkWaitNotarizedBlockResponse (toy_notarized b1 [0; 1; 2]) [2]),
    (MkWaitNotarizedBlockResponse (toy_notarized (toy_header None 0 [1]) [0; 1; 9]) [1]).
  split_and!; [apply toy_created_ok|vm_compute; reflexivity..].
Qed.

(** The node after a change of the peer set that is decided in round 0. *)
Definition change_peers (n : Consensus) (peer_set : list PeerPubkey) : outcome Empty_set () * Consensus :=
  write_tx n (consensus_params_change_tx (current_round_with_timeout (watches n)).1 0 7 peer_set).

(** Two changes of the peer set in one block lose the parameters.  Both are
    scheduled for the same round; the second replaces the hash in the schedule
    but does not store its parameters, so that every later read of the
    parameters of that round panics. *)
Theorem second_change_loses_params :
  ∃ n n1 n2 r, reachable n ∧ change_peers n [1; 2; 3; 4; 5] = (Ok (), n1) ∧
    change_peers n1 [1; 2; 3; 4; 6] = (Ok (), n2) ∧
    (∃ p, get_round_params n1 r = Ok p) ∧ ∃ why, get_round_params n2 r = Panic why.
Proof.
  set (n := created (Some 1)).
  exists n, (change_peers n [1; 2; 3; 4; 5]).2, (change_peers (change_peers n [1; 2; 3; 4; 5]).2 [1; 2; 3; 4; 6]).2, 1000.
  split_and!; [apply toy_created_ok|vm_compute; reflexivity|vm_compute; reflexivity| |].
  - eexists. vm_compute. reflexivity.
  - eexists. vm_compute. reflexivity.
Qed.

(** A quorum that is complete before its proposal does not end the round.  When
    the leader's vote arrived as a plain vote before the proposal did, the proposal
    is stored but its vote is not new, so the end of the round is not checked:
    the round waits although the proposal has the votes of a quorum. *)
Theorem quorum_before_proposal_waits :
  ∃ n b, reachable n ∧ cur n = 0%N ∧ proposal_quorum 0 (db n) b.
Proof.
  set (b := toy_header None 0 [1]).
  exists (run_votes (created (Some 1))
    [from_peer b 2; from_peer b 0; from_peer b 1; (2, Proposal (new_sign b 2) [1])]), b.
  split; [apply reachable_run, toy_created_ok|]. split; [vm_compute; reflexivity|].
  split; [vm_compute; reflexivity|]. exists toy_params. split; [vm_compute; reflexivity|].
  vm_compute. discriminate.
Qed.
End Limits.
