(* ===== verification/ConsLive.v ===== *)
(** * When a round ends

    The end of a round is decided when a vote is new: the round ends exactly when
    the votes, the new one among them, are a quorum for its proposal or a quorum
    of dummy votes. *)
From S2P Require Import Prelude VoteSet Peers Core Db ConsDb Consensus ConsInv ConsRound ConsSteps ConsSpec ConsProps.

Section Live.
Context `{Crypto} `{Bincode}.
Implicit Types (d : ConsDb) (c : N) (v : SignedVote).

(** The database with the vote of peer [i] added, and whether it is new. *)
Definition with_vote c (i : PeerIdx) v d : ConsDb :=
  if is_dummy (signed_inner v)
  then set_cons_votes_dummy (<[(c, i) := sig v]> (cons_votes_dummy d)) d
  else set_cons_votes_block (<[(c, i) := v]> (cons_votes_block d)) d.
Definition new_vote c (i : PeerIdx) v d : Prop :=
  if is_dummy (signed_inner v) then cons_votes_dummy d !! (c, i) = None
  else cons_votes_block d !! (c, i) = None.

(** What the end of round [c], reached with the votes in [d1], does. *)
Inductive Decided c d1 d' : Prop :=
  | DecidedBlock b : proposal_quorum c d1 b → cur_round_of d' = (c + 1)%N →
      cons_blocks_notarized d' = <[c := b]> (cons_blocks_notarized d1) → Decided c d1 d'
  | DecidedDummy : (∀ b, ¬ proposal_quorum c d1 b) → dummy_quorum c d1 → cur_round_of d' = (c + 1)%N →
      cons_blocks_notarized d' = cons_blocks_notarized d1 → Decided c d1 d'
  | DecidedNot : (∀ b, ¬ proposal_quorum c d1 b) → ¬ dummy_quorum c d1 → cur_round_of d' = c →
      cons_blocks_notarized d' = cons_blocks_notarized d1 → Decided c d1 d'.

Lemma wp_round_end_decides our c d1 hs :
  Current c d1 → cur_round_of d1 = c → moves c c hs →
  wp false (check_round_end our c) (λ _ s', Decided c d1 (tx_db s')) (MkTx d1 hs).
Proof.
  intros Hc Hcur Hm. apply wp_check_round_end; [by apply current_start|done..|].
  intros c' last needs d2 d' hs' Hres (x & y & z & -> & _) _ _ Hc' _. cbn [tx_db] in *.
  assert (cons_blocks_notarized (advance_to c' d2) = cons_blocks_notarized d2) as Hadv
    by (unfold advance_to; by case_decide).
  inversion Hres as [r b Hcr Hb _|b Hlow Hq|Hlow Hno Hq|needs' Hlow Hno Hnd]; subst.
  - destruct Hc as (_ & Hbd & _). apply (rb_notarized _ _ _ _ Hbd) in Hb. lia.
  - eapply DecidedBlock; [done|done|]. cbn. by rewrite Hadv.
  - apply DecidedDummy; [done|done|done|]. cbn. by rewrite Hadv.
  - apply DecidedNot; [done|done|by rewrite Hc'|]. cbn. by rewrite Hadv.
Qed.

Lemma with_vote_cur c i v d : cur_round_of (with_vote c i v d) = cur_round_of d.
Proof. unfold with_vote. by destruct (is_dummy _). Qed.
Lemma with_vote_notarized c i v d : cons_blocks_notarized (with_vote c i v d) = cons_blocks_notarized d.
Proof. unfold with_vote. by destruct (is_dummy _). Qed.

Lemma wp_vote_decides our d i v :
  Rest d → new_vote (cur_round_of d) i v d →
  wp false (process_vote_response_tx our i (Vote v))
    (λ _ s', Decided (cur_round_of d) (with_vote (cur_round_of d) i v d) (tx_db s')) (MkTx d []).
Proof.
  intros Hrest Hnew. pose proof (proj1 (rest_current d) Hrest) as Hcur. pose proof Hcur as (Hinv & _ & _).
  unfold process_vote_response_tx. wp_step. apply wp_get_current_round. cbv zeta. cbn [tx_db].
  wp_step. apply wp_fail_if. intros Hr. apply bool_decide_eq_false, dec_stable in Hr. simpl in Hr.
  wp_step. apply wp_get_params; [done|]. cbn [tx_db]. intros p Hp Hwf.
  wp_step. rewrite params_len_wf by done. apply wp_lift; [|done]. intros _ [= <-]. wp_step. wp_step.
  unfold process_vote. wp_step. apply wp_lift_map_err; [|done]. intros [] Hsig%verify_sig_peer_idx_Ok.
  wp_step. unfold new_vote, with_vote in *. destruct (is_dummy (signed_inner v)) eqn:Hd.
  - wp_step. apply wp_lift_map_err; [|done]. intros [] (_ & _ & _ & Hh & _)%verify_with_content_Ok.
    apply wp_insert_dummy_vote. rewrite Hnew. wp_step. unfold notify_new_votes. wp_step. wp_step.
    cbn [tx_db tx_hooks]. apply wp_round_end_decides; [|done|by apply moves_keeps; [apply moves_nil|]].
    apply current_insert_dummy; [done|]. by exists (signed_inner v), p.
  - wp_step. apply wp_get_proposal; [done|]. wp_step. apply wp_fail_if. cbn [tx_db]. intros Hmatch.
    wp_step. apply wp_insert_block_vote. rewrite Hnew. wp_step. wp_step. unfold notify_new_votes. wp_step.
    cbn [insert_outcome_map]. wp_step. cbn [tx_db tx_hooks].
    apply wp_round_end_decides; [|done|by apply moves_keeps; [apply moves_nil|]].
    apply current_insert_vote; [done|split_and!; [done|done|by exists p]|].
    intros b Hb'. rewrite Hb' in Hmatch. apply bool_decide_eq_false in Hmatch. symmetry. by apply dec_stable.
Qed.
End Live.

(** C9: a new vote ends the round exactly when it completes a quorum.  When a vote
    of the current round that the node did not have yet is accepted, then with it
    in the database: if the proposal has the votes of a quorum, the proposal is
    notarized and the next round begins; if there is none but a quorum of dummy
    votes, the next round begins without a block; otherwise the node stays in the
    round and nothing is notarized. *)
Theorem new_vote_decides_round `{Crypto} `{Bincode} (n n' : Consensus) (i : PeerIdx) (v : SignedVote) :
  reachable n → new_vote (cur n) i v (db n) →
  process_vote_response n i (Vote v) = (Ok (), n') →
  let d1 := with_vote (cur n) i v (db n) in
  (∀ b, proposal_quorum (cur n) d1 b →
     cur n' = (cur n + 1)%N ∧ cons_blocks_notarized (db n') = <[cur n := b]> (cons_blocks_notarized (db n))) ∧
  ((∀ b, ¬ proposal_quorum (cur n) d1 b) → cons_blocks_notarized (db n') = cons_blocks_notarized (db n) ∧
     (dummy_quorum (cur n) d1 → cur n' = (cur n + 1)%N) ∧ (¬ dummy_quorum (cur n) d1 → cur n' = cur n)).
Proof.
  intros [Hrest _]%reachable_wf Hnew Hv. cbv zeta.
  pose proof (write_tx_spec false n (process_vote_response_tx (our_peer_pubkey n) i (Vote v)) _
    (wp_vote_decides _ (db n) i v Hrest Hnew)) as Hs.
  unfold process_vote_response in Hv. rewrite Hv in Hs. destruct Hs as (hooks & Hd & _). cbn [tx_db] in Hd.
  pose proof (with_vote_notarized (cur n) i v (db n)) as Hnot. unfold cur in *.
  destruct Hd as [b Hq Hc Heq|Hno Hq Hc Heq|Hno Hq Hc Heq]; rewrite Hnot in Heq.
  - split; [|by intros Hn; destruct (Hn b)]. intros b' [Hb' _]. destruct Hq as [Hb _].
    rewrite Hb in Hb'. by injection Hb' as <-.
  - split; [by intros b Hb; destruct (Hno b)|]. intros _. split; [done|]. by split.
  - split; [by intros b Hb; destruct (Hno b)|]. intros _. split; [done|]. by split.
Qed.

Section LiveWitness.
Local Existing Instance Toy.bincode.
Local Existing Instance Toy.crypto.
Import OneBlock.

(** The proposal and two votes; the third vote is from peer 1. *)
Definition two_block_votes : Consensus :=
  run_votes (created (Some 1)) [(2, Proposal (one_block_vote 2) [1]); (0, Vote (one_block_vote 0))].

Lemma new_vote_decides_round_witness :
  cur two_block_votes = 0%N ∧
  cur (process_vote_response two_block_votes 1 (Vote (one_block_vote 1))).2 = 1%N.
Proof.
  split; [vm_compute; reflexivity|].
  destruct (new_vote_decides_round two_block_votes
    (process_vote_response two_block_votes 1 (Vote (one_block_vote 1))).2 1 (one_block_vote 1)) as [Hend _].
  - apply reachable_run, reachable_created; [apply one_block_params_wf|vm_compute; reflexivity].
  - vm_compute. reflexivity.
  - vm_compute. reflexivity.
  - apply (Hend block). split; [vm_compute; reflexivity|].
    exists toy_params. split; [vm_compute; reflexivity|]. vm_compute. discriminate.
Defined.
End LiveWitness.
