(* ===== verification/Module.v ===== *)
(** * The interface of modules ([module/src])

    What the modules share: their configuration, the effects they emit, and the
    view of the database they get.  A module sees its own tables only
    ([module_table_name], [module_table_name_inj]), through the trait
    [ModuleReadableTransaction] ([ReadableTransaction]) whose two
    implementations are the read transactions and the write transactions.

    A write transaction of redb refuses to open a table that it holds open
    already.  A table handle closes when it goes out of scope, so the tables
    held open form a stack, [open_tables]. *)
From Stdlib Require Import Ascii.
From stdpp Require Export pretty.
From S2P Require Import Prelude Peers Core Db.

(** ** Modules and their effects *)
Abbreviation ModuleId := N (only parsing).
Abbreviation ModuleKind := N (only parsing).

Module ModuleConfig.
Record t := mk { kind : ModuleKind; version : ConsensusVersion.t }.
Global Instance t_eq_dec : EqDecision t.
Proof. solve_decision. Defined.
End ModuleConfig.

(** [bincode::encode_to_vec] and [decode_whole], of a type. *)
Class Codec (T : Type) := {
  codec_encode : T → list N;
  codec_decode : list N → option T;
}.
Class CodecLaws (T : Type) `{Codec T} := {
  codec_roundtrip : ∀ x : T, codec_decode (codec_encode x) = Some x;
}.

Record CItemEffect := MkCItemEffect { effect_id : N; raw : list N }.
Global Instance CItemEffect_eq_dec : EqDecision CItemEffect.
Proof. solve_decision. Defined.
Record ModuleCItemEffect := MkModuleCItemEffect {
  module_kind : ModuleKind;
  effect_inner : CItemEffect;
}.

(** [trait EffectKind] and the methods of [EffectKindExt] *)
Class EffectKind (T : Type) `{Codec T} := { MODULE_KIND : ModuleKind; EFFECT_ID : N }.
Global Arguments MODULE_KIND T {_ _}.
Global Arguments EFFECT_ID T {_ _}.
Inductive DecodeError := EffectIdMismatch | DecodeFailed.
Definition effect_encode {T} `{EffectKind T} (self : T) : CItemEffect :=
  MkCItemEffect (EFFECT_ID T) (codec_encode self).
Definition effect_decode {T} `{EffectKind T} (effect : CItemEffect) : outcome DecodeError T :=
  if decide (effect_id effect = EFFECT_ID T) then
    match codec_decode (raw effect) with
    | Some x => Ok x
    | None => Err DecodeFailed
    end
  else Err EffectIdMismatch.

Lemma effect_decode_encode {T} `{EffectKind T, !CodecLaws T} (x : T) :
  effect_decode (T:=T) (effect_encode x) = Ok x.
Proof. unfold effect_decode, effect_encode. simpl. by rewrite decide_True, codec_roundtrip. Qed.

Lemma effect_decode_other {T U} `{EffectKind T, EffectKind U} (x : U) :
  EFFECT_ID U ≠ EFFECT_ID T → effect_decode (T:=T) (effect_encode x) = Err EffectIdMismatch.
Proof. intros Hne. unfold effect_decode, effect_encode. simpl. by rewrite decide_False. Qed.

(** [trait IModuleInit]: what the code asks a module constructor for; the
    supported versions map a major version to its latest minor version. *)
Record IModuleInit := MkModuleInit {
  init_kind : ModuleKind;
  singleton : bool;
  supported_versions : gmap N N;
}.
Definition latest_version {E} (self : IModuleInit) : outcome E ConsensusVersion.t :=
  kv ← expect "Must have at least one supported major version"
         (range_last (λ _, true) (supported_versions self));
  mret (ConsensusVersion.mk kv.1 kv.2).

Inductive ModuleInitError :=
  | InvalidConfig
  | UnsupportedVersion (requested supported : ConsensusVersion.t)
  | Other.

(** ** The tables of a module *)

(** [format!("module_{}_{}", module_id, name)] *)
Definition module_table_name (module_id : ModuleId) (name : string) : string :=
  "module_" +:+ pretty module_id +:+ "_" +:+ name.

(** The decimal digits of a number are no underscore, so the name can be split
    again at the underscore after them. *)
Fixpoint no_underscore (s : string) : bool :=
  match s with
  | EmptyString => true
  | String c s' => negb (bool_decide (c = "_"%char)) && no_underscore s'
  end.

Lemma pretty_no_underscore (n : N) : no_underscore (pretty n) = true.
Proof.
  assert (∀ x s, no_underscore s = true → no_underscore (pretty_N_go x s) = true) as Hgo.
  { intros x. induction (N.lt_wf_0 x) as [x _ IH]; intros s Hs.
    destruct (decide (x = 0%N)) as [->|Hx]; [done|].
    rewrite pretty_N_go_step by lia. apply IH; [apply N.div_lt; lia|].
    simpl. rewrite Hs. unfold pretty_N_char. by repeat case_match. }
  unfold pretty, pretty_N. case_decide; [done|]. by apply Hgo.
Qed.

Lemma split_at_underscore a b x y :
  no_underscore a = true → no_underscore b = true →
  a +:+ "_" +:+ x = b +:+ "_" +:+ y → a = b ∧ x = y.
Proof.
  revert b. induction a as [|c a IH]; intros [|c' b]; simpl;
    rewrite ?andb_true_iff, ?negb_true_iff, ?bool_decide_eq_false;
    [naive_solver..|].
  intros [_ Ha] [_ Hb] [= -> Heq]. by destruct (IH b Ha Hb Heq) as [-> ->].
Qed.

(** The databases of two modules are disjoint: two table names are the same
    only for the same table of the same module, and no module can reach a table
    whose name has another prefix, such as the consensus tables. *)
Theorem module_table_name_inj (i j : ModuleId) (name name' other : string) :
  (module_table_name i name = module_table_name j name' → i = j ∧ name = name') ∧
  (String.prefix "module_" other = false → module_table_name i name ≠ other).
Proof.
  split; [|unfold module_table_name; intros Hp <-; revert Hp; by generalize (pretty i +:+ "_" +:+ name); intros []]. intros Heq%(inj (String.append "module_")).
  apply split_at_underscore in Heq as [Heq Hn]; [|apply pretty_no_underscore..].
  by apply (inj pretty) in Heq.
Qed.

Lemma module_table_name_inj_witness :
  module_table_name 1 "2_x" = "module_1_2_x" ∧ ((1 = 1)%N ∧ "2_x" = "2_x") ∧
  module_table_name 0 "peers" ≠ "cons_params".
Proof.
  split; [reflexivity|]. split.
  - apply (module_table_name_inj 1 1 "2_x" "2_x" ""). reflexivity.
  - apply (module_table_name_inj 0 0 "peers" "" "cons_params"). reflexivity.
Defined.

(** The tables of a module in a write transaction, and those held open. *)
Record ModuleTx (T : Type) := MkModuleTx { tables : T; open_tables : list string }.
Global Arguments MkModuleTx {T} _ _.
Global Arguments tables {T} _.
Global Arguments open_tables {T} _.

(** The functions of [&ModuleWriteTransactionCtx] and of [&ModuleReadTransaction]. *)
Definition MTx (T H E A : Type) : Type := Tx (ModuleTx T) H E A.
Global Instance mtx_ret {T H E} : MRet (MTx T H E) := tx_ret.
Global Instance mtx_bind {T H E} : MBind (MTx T H E) := tx_bind.

(** [trait ModuleReadableTransaction]: [with_table name body] is [open_table]
    with [body] the code that runs until the handle is dropped; [query] reads
    through the open handles. *)
Class ReadableTransaction (T : Type) (M : Type → Type) `{MRet M, MBind M} := {
  with_table : ∀ {A}, string → M A → M A;
  query : ∀ {A}, (T → A) → M A;
}.
Global Hint Mode ReadableTransaction - ! - - : typeclass_instances.

Definition mtx_with_table {T H E A} (name : string) (body : MTx T H E A) : MTx T H E A := λ s,
  let mt := tx_db s in
  if decide (name ∈ open_tables mt) then Err (DbErr TableAlreadyOpen)
  else
    match body (MkTx (MkModuleTx (tables mt) (name :: open_tables mt)) (tx_hooks s)) with
    | Ok (a, s') => Ok (a, MkTx (MkModuleTx (tables (tx_db s')) (open_tables mt)) (tx_hooks s'))
    | Err e => Err e
    | Panic w => Panic w
    end.
Global Instance read_readable {T E} : ReadableTransaction T (Rd T E) := {|
  with_table := λ A _ body, body;
  query := λ A f, rd_get f;
|}.
Global Instance write_readable {T H E} : ReadableTransaction T (MTx T H E) := {|
  with_table := λ A, mtx_with_table;
  query := λ A f, tx_read (rd_get (λ mt, f (tables mt)));
|}.
(** Writing through the open handles. *)
Definition update_tables {T H E} (f : T → T) : MTx T H E () :=
  tx_modify (λ mt, MkModuleTx (f (tables mt)) (open_tables mt)).

(** [ModuleDatabase::write_with_expect_falliable], [read_with_expect] *)
Definition module_write {T H W E A} (run_hook : W → H → W) (f : MTx T H E A) (dw : T * W) :
    outcome E A * (T * W) :=
  match write_with_expect_falliable run_hook f (MkModuleTx dw.1 [], dw.2) with
  | (o, (mt, w)) => (o, (tables mt, w))
  end.
Definition module_read {T E A} (f : Rd T E A) (d : T) : outcome E A := read_with_expect f d.

(** ** Reasoning *)
Section ModuleWp.
Context {T H : Type}.

Lemma wp_with_table {E A} np name (body : MTx T H E A) (Q : A → TxState (ModuleTx T) H → Prop) (d : T) open hs :
  (np = true → name ∉ open) →
  (name ∉ open → wp np body (λ a s', Q a (MkTx (MkModuleTx (tables (tx_db s')) open) (tx_hooks s')))
    (MkTx (MkModuleTx d (name :: open)) hs)) →
  wp np (with_table (M:=MTx T H E) name body) Q (MkTx (MkModuleTx d open) hs).
Proof.
  Transparent wp. unfold wp. simpl. unfold mtx_with_table. simpl. intros Hnp Hb. case_decide as Hin.
  - destruct np; [by destruct (Hnp eq_refl)|done].
  - specialize (Hb Hin). by destruct (body _) as [[a s']|[]|].
  Opaque wp.
Qed.

Lemma wp_query {E A} np (f : T → A) (Q : A → TxState (ModuleTx T) H → Prop) (d : T) open hs :
  Q (f d) (MkTx (MkModuleTx d open) hs) →
  wp (E:=E) np (query (M:=MTx T H E) f) Q (MkTx (MkModuleTx d open) hs).
Proof. intros HQ. by apply wp_get. Qed.

Lemma wp_update {E} np (f : T → T) (Q : () → TxState (ModuleTx T) H → Prop) (d : T) open hs :
  Q () (MkTx (MkModuleTx (f d) open) hs) →
  wp (E:=E) np (update_tables f) Q (MkTx (MkModuleTx d open) hs).
Proof. intros HQ. by apply wp_modify. Qed.

(** What a transaction of a module keeps. *)
Lemma module_write_run {W E A} (run_hook : W → H → W) np (f : MTx T H E A) Q d w :
  wp np f Q (MkTx (MkModuleTx d []) []) →
  match module_write run_hook f (d, w) with
  | (Ok a, (d', w')) => ∃ open hooks, w' = foldl run_hook w hooks ∧ Q a (MkTx (MkModuleTx d' open) hooks)
  | (Err e, dw') => dw' = (d, w)
  | (Panic m, dw') => dw' = (d, w) ∧ np = false
  end.
Proof.
  intros Hwp%(wp_run run_hook _ _ _ _ w). unfold module_write. simpl.
  destruct (write_with_expect_falliable run_hook f (MkModuleTx d [], w)) as [[a|e|m] [[d' open] w']]; simpl.
  - destruct Hwp as (hooks & ? & ?). by exists open, hooks.
  - by injection Hwp as -> -> ->.
  - destruct Hwp as [Hwp ?]. by injection Hwp as -> -> ->.
Qed.
End ModuleWp.

(** One step of a module's transaction. *)
Ltac mwp_step :=
  lazymatch goal with
  | |- wp _ (@mbind _ _ _ _ _ _) _ _ => apply wp_bind
  | |- wp _ (mret _) _ _ => apply wp_ret
  | |- wp _ (with_table _ _) _ _ => apply wp_with_table; [intros _; by apply (bool_decide_unpack _)|intros _]
  | |- wp _ (query _) _ _ => apply wp_query
  | |- wp _ (update_tables _) _ _ => apply wp_update
  | _ => wp_step
  end.
