(* ===== verification/Ctrl.v ===== *)
(** * The consensus control module ([modules/consensus-ctrl/src])

    The module that every federation starts with: it keeps the set of voting
    peers and the configurations of all modules, and changes them by votes that
    arrive as consensus items.  Every peer processes the same items in the same
    order on the same tables; only the tables of pending votes and the proposed
    items are a peer's own.

    [process_citem] and the functions it calls are write transactions of the
    module ([MTx]); [refresh_consensus_proposals_dbtx] runs in both kinds of
    transactions. *)
From S2P Require Import Prelude Peers Core Db Module.

(** ** Data *)

(** [citem.rs] *)
Inductive ConsensusCtrlCitem :=
  | VoteAddPeer (peer : PeerPubkey)
  | VoteRemovePeer (peer : PeerPubkey)
  | VoteAddModule (module_kind : ModuleKind) (consensus_version : ConsensusVersion.t)
  | VoteModuleVersion (module_id : ModuleId) (minor_consensus_version : N).
Global Instance ConsensusCtrlCitem_eq_dec : EqDecision ConsensusCtrlCitem.
Proof. solve_decision. Defined.

Abbreviation CItemRaw := (list N) (only parsing).

(** [consensus-ctrl-effects]; a structure of one field is that field in a record. *)
Definition CTRL_KIND : ModuleKind := 0.
Record AddPeerEffect := MkAddPeerEffect { add_peer : PeerPubkey }.
Record RemovePeerEffect := MkRemovePeerEffect { remove_peer : PeerPubkey }.
Record ConsensusParamsChange := MkConsensusParamsChange { change_peer_set : list PeerPubkey }.
Record ModuleVersionUpgradeEffect := MkModuleVersionUpgradeEffect {
  upgrade_module_id : ModuleId;
  old_version : ConsensusVersion.t;
  new_version : ConsensusVersion.t;
}.
Record AddModuleEffect := MkAddModuleEffect {
  add_module_kind : ModuleKind;
  add_module_id : ModuleId;
  add_consensus_version : ConsensusVersion.t;
}.
Global Instance add_peer_kind `{Codec AddPeerEffect} : EffectKind AddPeerEffect :=
  {| MODULE_KIND := CTRL_KIND; EFFECT_ID := 0 |}.
Global Instance remove_peer_kind `{Codec RemovePeerEffect} : EffectKind RemovePeerEffect :=
  {| MODULE_KIND := CTRL_KIND; EFFECT_ID := 1 |}.
Global Instance params_change_kind `{Codec ConsensusParamsChange} : EffectKind ConsensusParamsChange :=
  {| MODULE_KIND := CTRL_KIND; EFFECT_ID := 2 |}.
Global Instance version_upgrade_kind `{Codec ModuleVersionUpgradeEffect} : EffectKind ModuleVersionUpgradeEffect :=
  {| MODULE_KIND := CTRL_KIND; EFFECT_ID := 3 |}.
Global Instance add_module_kind_inst `{Codec AddModuleEffect} : EffectKind AddModuleEffect :=
  {| MODULE_KIND := CTRL_KIND; EFFECT_ID := 4 |}.

(** The encodings the module relies on. *)
Class CtrlCodecs := {
  citem_codec :: Codec ConsensusCtrlCitem;
  add_peer_codec :: Codec AddPeerEffect;
  remove_peer_codec :: Codec RemovePeerEffect;
  params_change_codec :: Codec ConsensusParamsChange;
  version_upgrade_codec :: Codec ModuleVersionUpgradeEffect;
  add_module_codec :: Codec AddModuleEffect;
}.
Class CtrlCodecLaws `{CtrlCodecs} := {
  citem_codec_laws :: CodecLaws ConsensusCtrlCitem;
  add_peer_codec_laws :: CodecLaws AddPeerEffect;
  remove_peer_codec_laws :: CodecLaws RemovePeerEffect;
  params_change_codec_laws :: CodecLaws ConsensusParamsChange;
  version_upgrade_codec_laws :: CodecLaws ModuleVersionUpgradeEffect;
  add_module_codec_laws :: CodecLaws AddModuleEffect;
}.

(** [tables.rs] *)
Record CtrlDb := MkCtrlDb {
  self_version : option ConsensusVersion.t;
  peers : gmap PeerPubkey ();
  add_peer_votes : gmap PeerPubkey PeerPubkey;
  remove_peer_votes : gmap PeerPubkey PeerPubkey;
  pending_add_peer_vote : option PeerPubkey;
  pending_remove_peer_vote : option PeerPubkey;
  modules_configs : gmap ModuleId ModuleConfig.t;
  modules_versions_votes : gmap (PeerPubkey * ModuleId) ConsensusVersion.t;
  pending_modules_versions_votes : gmap ModuleId N;
  add_module_votes : gmap PeerPubkey (ModuleKind * ConsensusVersion.t);
  pending_add_module_vote : option (ModuleKind * ConsensusVersion.t);
}.
Definition empty_ctrl : CtrlDb := MkCtrlDb None ∅ ∅ ∅ None None ∅ ∅ ∅ ∅ None.

Definition set_self_version x (d : CtrlDb) : CtrlDb :=
  MkCtrlDb x (peers d) (add_peer_votes d) (remove_peer_votes d) (pending_add_peer_vote d)
    (pending_remove_peer_vote d) (modules_configs d) (modules_versions_votes d)
    (pending_modules_versions_votes d) (add_module_votes d) (pending_add_module_vote d).
Definition set_peers x (d : CtrlDb) : CtrlDb :=
  MkCtrlDb (self_version d) x (add_peer_votes d) (remove_peer_votes d) (pending_add_peer_vote d)
    (pending_remove_peer_vote d) (modules_configs d) (modules_versions_votes d)
    (pending_modules_versions_votes d) (add_module_votes d) (pending_add_module_vote d).
Definition set_add_peer_votes x (d : CtrlDb) : CtrlDb :=
  MkCtrlDb (self_version d) (peers d) x (remove_peer_votes d) (pending_add_peer_vote d)
    (pending_remove_peer_vote d) (modules_configs d) (modules_versions_votes d)
    (pending_modules_versions_votes d) (add_module_votes d) (pending_add_module_vote d).
Definition set_remove_peer_votes x (d : CtrlDb) : CtrlDb :=
  MkCtrlDb (self_version d) (peers d) (add_peer_votes d) x (pending_add_peer_vote d)
    (pending_remove_peer_vote d) (modules_configs d) (modules_versions_votes d)
    (pending_modules_versions_votes d) (add_module_votes d) (pending_add_module_vote d).
Definition set_pending_add_peer_vote_tbl x (d : CtrlDb) : CtrlDb :=
  MkCtrlDb (self_version d) (peers d) (add_peer_votes d) (remove_peer_votes d) x
    (pending_remove_peer_vote d) (modules_configs d) (modules_versions_votes d)
    (pending_modules_versions_votes d) (add_module_votes d) (pending_add_module_vote d).
Definition set_pending_remove_peer_vote_tbl x (d : CtrlDb) : CtrlDb :=
  MkCtrlDb (self_version d) (peers d) (add_peer_votes d) (remove_peer_votes d)
    (pending_add_peer_vote d) x (modules_configs d) (modules_versions_votes d)
    (pending_modules_versions_votes d) (add_module_votes d) (pending_add_module_vote d).
Definition set_modules_configs x (d : CtrlDb) : CtrlDb :=
  MkCtrlDb (self_version d) (peers d) (add_peer_votes d) (remove_peer_votes d)
    (pending_add_peer_vote d) (pending_remove_peer_vote d) x (modules_versions_votes d)
    (pending_modules_versions_votes d) (add_module_votes d) (pending_add_module_vote d).
Definition set_modules_versions_votes x (d : CtrlDb) : CtrlDb :=
  MkCtrlDb (self_version d) (peers d) (add_peer_votes d) (remove_peer_votes d)
    (pending_add_peer_vote d) (pending_remove_peer_vote d) (modules_configs d) x
    (pending_modules_versions_votes d) (add_module_votes d) (pending_add_module_vote d).
Definition set_pending_modules_versions_votes x (d : CtrlDb) : CtrlDb :=
  MkCtrlDb (self_version d) (peers d) (add_peer_votes d) (remove_peer_votes d)
    (pending_add_peer_vote d) (pending_remove_peer_vote d) (modules_configs d)
    (modules_versions_votes d) x (add_module_votes d) (pending_add_module_vote d).
Definition set_add_module_votes x (d : CtrlDb) : CtrlDb :=
  MkCtrlDb (self_version d) (peers d) (add_peer_votes d) (remove_peer_votes d)
    (pending_add_peer_vote d) (pending_remove_peer_vote d) (modules_configs d)
    (modules_versions_votes d) (pending_modules_versions_votes d) x (pending_add_module_vote d).
Definition set_pending_add_module_vote_tbl x (d : CtrlDb) : CtrlDb :=
  MkCtrlDb (self_version d) (peers d) (add_peer_votes d) (remove_peer_votes d)
    (pending_add_peer_vote d) (pending_remove_peer_vote d) (modules_configs d)
    (modules_versions_votes d) (pending_modules_versions_votes d) (add_module_votes d) x.

(** [ConsensusCtrlModule]; the channel of proposed items is state of its own. *)
Record ConsensusCtrlModule := MkCtrlModule {
  version : ConsensusVersion.t;
  peer_pubkey : option PeerPubkey;
  modules_inits : gmap ModuleKind IModuleInit;
}.

(** [tx.send_replace(proposals)] on commit; the channel holds the last value. *)
Inductive CtrlHook := SendProposals (proposals : list CItemRaw).
Definition run_ctrl_hook (_ : list CItemRaw) (h : CtrlHook) : list CItemRaw :=
  match h with SendProposals proposals => proposals end.

(** [Whatever]: an error with a message. *)
Abbreviation Whatever := string (only parsing).
Abbreviation KTx := (MTx CtrlDb CtrlHook Whatever).

(** ** Queries *)

(** The set of peers in the table. *)
Definition peers_of (d : CtrlDb) : list PeerPubkey := PeerSet.from_iter (entries (peers d)).*1.
(** The loop over [modules_configs] that looks for a module of the kind. *)
Definition kind_exists (k : ModuleKind) (d : CtrlDb) : bool :=
  existsb (λ kv, bool_decide (ModuleConfig.kind kv.2 = k)) (entries (modules_configs d)).

Section Queries.
Context {M : Type → Type} `{ReadableTransaction CtrlDb M}.

(** [get_peer_set_dbtx], [get_peer_set_tx] *)
Definition get_peer_set_dbtx : M (list PeerPubkey) := with_table "peers" (query peers_of).
Definition get_peer_set_tx : M (list PeerPubkey) := with_table "peers" (query peers_of).
Definition get_modules_configs_dbtx : M (list (ModuleId * ModuleConfig.t)) :=
  with_table "modules_configs" (query (λ d, entries (modules_configs d))).

Context `{CtrlCodecs} (self : ConsensusCtrlModule).

Definition encode_to_raw (c : ConsensusCtrlCitem) : CItemRaw := codec_encode c.

Definition refresh_consensus_proposals_dbtx : M (list CItemRaw) :=
  match peer_pubkey self with
  | None => mret []
  | Some peer_pubkey =>
      peer_set ← get_peer_set_tx;
      pending_add_vote ← with_table "pending_add_peer_vote" (query pending_add_peer_vote);
      p_add ←
        match pending_add_vote with
        | Some pending_peer =>
            if bool_decide (pending_peer ∈ peer_set) then mret []
            else
              current_vote ← with_table "add_peer_votes" (query (λ d, add_peer_votes d !! peer_pubkey));
              if decide (current_vote = Some pending_peer) then mret []
              else mret [encode_to_raw (VoteAddPeer pending_peer)]
        | None => mret []
        end;
      pending_remove_vote ← with_table "pending_remove_peer_vote" (query pending_remove_peer_vote);
      p_remove ←
        match pending_remove_vote with
        | Some pending_peer =>
            if bool_decide (pending_peer ∈ peer_set) then
              current_vote ← with_table "remove_peer_votes" (query (λ d, remove_peer_votes d !! peer_pubkey));
              if decide (current_vote = Some pending_peer) then mret []
              else mret [encode_to_raw (VoteRemovePeer pending_peer)]
            else mret []
        | None => mret []
        end;
      pending_add_module_vote ← with_table "pending_add_module_vote" (query pending_add_module_vote);
      p_module ←
        match pending_add_module_vote with
        | Some (pending_module_kind, pending_consensus_version) =>
            (* singleton modules only once *)
            let should_check_exists :=
              match modules_inits self !! pending_module_kind with
              | Some init => singleton init
              | None => false
              end in
            module_already_exists ←
              (if should_check_exists then
                 with_table "modules_configs" (query (kind_exists pending_module_kind))
               else mret false);
            if (module_already_exists : bool) then mret []
            else
              current_vote ← with_table "add_module_votes" (query (λ d, add_module_votes d !! peer_pubkey));
              let should_propose :=
                match current_vote with
                | None => true
                | Some (current_module_kind, current_version) =>
                    negb (bool_decide (current_module_kind = pending_module_kind)) ||
                    negb (bool_decide (ConsensusVersion.major current_version =
                                       ConsensusVersion.major pending_consensus_version))
                end in
              if should_propose then
                mret [encode_to_raw (VoteAddModule pending_module_kind pending_consensus_version)]
              else mret []
        | None => mret []
        end;
      p_versions ←
        with_table "pending_modules_versions_votes" (with_table "modules_versions_votes" (query (λ d,
          omap (λ kv : ModuleId * N,
            let '(module_id, pending_minor_version) := kv in
            let current_vote :=
              ConsensusVersion.minor <$> modules_versions_votes d !! (peer_pubkey, module_id) in
            if decide (current_vote = Some pending_minor_version) then None
            else Some (encode_to_raw (VoteModuleVersion module_id pending_minor_version)))
          (entries (pending_modules_versions_votes d)))));
      mret (p_add ++ p_remove ++ p_module ++ p_versions)
  end.
End Queries.

(** ** Processing of consensus items *)
Section Process.
Context `{CtrlCodecs} (self : ConsensusCtrlModule).
Implicit Types (voter_pubkey : PeerPubkey) (peer_set : list PeerPubkey).

(** The smallest minor version that the peers voted for, 0 for a peer that did
    not vote. *)
Definition min_minor_version (votes : gmap (PeerPubkey * ModuleId) ConsensusVersion.t)
    (module_id : ModuleId) peer_set : option N :=
  foldl (λ min peer,
    let peer_vote := default 0%N (ConsensusVersion.minor <$> votes !! (peer, module_id)) in
    Some (match min with
          | None => peer_vote
          | Some current_min => N.min current_min peer_vote
          end)) None peer_set.

Definition collect_upgrades peer_set (d : CtrlDb) :
    list (ModuleId * ModuleConfig.t * ConsensusVersion.t) :=
  omap (λ kv : ModuleId * ModuleConfig.t,
    let '(module_id, current_config) := kv in
    let current := ModuleConfig.version current_config in
    match min_minor_version (modules_versions_votes d) module_id peer_set with
    | Some agreed_minor =>
        if (ConsensusVersion.minor current <? agreed_minor)%N then
          Some (module_id, current_config,
                ConsensusVersion.mk (ConsensusVersion.major current) agreed_minor)
        else None
    | None => None
    end) (entries (modules_configs d)).

Fixpoint apply_upgrades (upgrades : list (ModuleId * ModuleConfig.t * ConsensusVersion.t))
    (effects : list CItemEffect) : KTx (list CItemEffect) :=
  match upgrades with
  | [] => mret effects
  | (module_id, current_config, new_agreed_version) :: upgrades' =>
      _ ← update_tables (λ d, set_modules_configs
            (<[module_id := ModuleConfig.mk (ModuleConfig.kind current_config) new_agreed_version]>
               (modules_configs d)) d);
      apply_upgrades upgrades' (effects ++
        [effect_encode (MkModuleVersionUpgradeEffect module_id (ModuleConfig.version current_config)
                          new_agreed_version)])
  end.

(** The two tables are open already, given by the caller. *)
Definition check_module_version_upgrades peer_set (effects : list CItemEffect) : KTx (list CItemEffect) :=
  upgrades ← query (collect_upgrades peer_set);
  apply_upgrades upgrades effects.

(** [if Some(voter_pubkey) == self.peer_pubkey { open_table(..)?.remove(..)?; }] *)
Definition clear_own_pending voter_pubkey (table : string) (clear : CtrlDb → CtrlDb) : KTx () :=
  if decide (Some voter_pubkey = peer_pubkey self) then with_table table (update_tables clear)
  else mret ().

Definition process_citem_vote_add_peer voter_pubkey peer_set (peer_to_add : PeerPubkey) :
    KTx (list CItemEffect) :=
  latest_peer_set ← get_peer_set_tx;
  _ ← tx_lift (fail_if (bool_decide (peer_to_add ∈ latest_peer_set)) "Peer already part of the peer set");
  with_table "add_peer_votes" (
    _ ← update_tables (λ d, set_add_peer_votes (<[voter_pubkey := peer_to_add]> (add_peer_votes d)) d);
    _ ← clear_own_pending voter_pubkey "pending_add_peer_vote" (set_pending_add_peer_vote_tbl None);
    votes_for_candidate ← query (λ d,
      count_if (λ peer, bool_decide (add_peer_votes d !! peer = Some peer_to_add)) peer_set);
    num_peers ← tx_lift (NumPeers.to_num_peers peer_set);
    if (NumPeers.threshold num_peers <=? N.of_nat votes_for_candidate)%N then
      _ ← update_tables (λ d, set_add_peer_votes
            (retain_in (λ _, true) (λ _ vote, negb (bool_decide (vote = peer_to_add))) (add_peer_votes d)) d);
      _ ← with_table "peers" (update_tables (λ d, set_peers (<[peer_to_add := ()]> (peers d)) d));
      updated_peer_set ← get_peer_set_tx;
      mret [effect_encode (MkAddPeerEffect peer_to_add);
            effect_encode (MkConsensusParamsChange updated_peer_set)]
    else mret []).

(** The loop that looks for the first module id not in use, from 1 on. *)
Fixpoint find_module_id (fuel : nat) (tbl : gmap ModuleId ModuleConfig.t) (next_id : ModuleId) : outcome Whatever ModuleId :=
  match fuel with
  | O => Panic "loop bound of the model"
  | S fuel' =>
      match tbl !! next_id with
      | None => Ok next_id
      | Some _ => find_module_id fuel' tbl (wrapping_add u32_max next_id 1)
      end
  end.
Definition new_module_id (d : CtrlDb) : outcome Whatever ModuleId :=
  find_module_id (S (size (modules_configs d))) (modules_configs d) 1.

(** [iter().map(|v| v.minor()).min()] *)
Definition min_minor (votes : list ConsensusVersion.t) : option N :=
  match ConsensusVersion.minor <$> votes with
  | [] => None
  | m :: ms => Some (foldl N.min m ms)
  end.

Definition process_citem_vote_add_module voter_pubkey peer_set (module_kind : ModuleKind)
    (consensus_version : ConsensusVersion.t) : KTx (list CItemEffect) :=
  match modules_inits self !! module_kind with
  | None => tx_fail "No module init available for module kind"
  | Some module_init =>
      _ ← (if singleton module_init then
             module_already_exists ← with_table "modules_configs" (query (kind_exists module_kind));
             tx_lift (fail_if module_already_exists "Module already exists")
           else mret () : KTx ());
      with_table "add_module_votes" (
        _ ← update_tables (λ d, set_add_module_votes
              (<[voter_pubkey := (module_kind, consensus_version)]> (add_module_votes d)) d);
        _ ← clear_own_pending voter_pubkey "pending_add_module_vote" (set_pending_add_module_vote_tbl None);
        matching_votes ← query (λ d,
          omap (λ peer,
            match add_module_votes d !! peer with
            | Some (vote_module_kind, vote_consensus_version) =>
                if decide (vote_module_kind = module_kind ∧
                           ConsensusVersion.major vote_consensus_version =
                           ConsensusVersion.major consensus_version)
                then Some vote_consensus_version else None
            | None => None
            end) peer_set);
        if decide (length matching_votes = length peer_set) then
          min_minor_version ← tx_lift (expect "Should have at least one vote" (min_minor matching_votes));
          let final_consensus_version :=
            ConsensusVersion.mk (ConsensusVersion.major consensus_version) min_minor_version in
          _ ← update_tables (λ d, set_add_module_votes
                (retain_in (λ _, true) (λ _ vote, negb (bool_decide (vote.1 = module_kind)))
                   (add_module_votes d)) d);
          id_found ← with_table "modules_configs" (query new_module_id);
          new_module_id ← tx_lift id_found;
          _ ← with_table "modules_configs" (update_tables (λ d, set_modules_configs
                (<[new_module_id := ModuleConfig.mk module_kind final_consensus_version]>
                   (modules_configs d)) d));
          mret [effect_encode (MkAddModuleEffect module_kind new_module_id final_consensus_version)]
        else mret [])
  end.

Definition process_citem_vote_remove_peer voter_pubkey (cur_effective_peer_set : list PeerPubkey)
    (peer_to_remove : PeerPubkey) : KTx (list CItemEffect) :=
  latest_peer_set ← get_peer_set_tx;
  _ ← tx_lift (fail_if (negb (bool_decide (peer_to_remove ∈ latest_peer_set)))
        "Peer to remove is not in the latest peer set");
  _ ← tx_lift (fail_if (bool_decide (length latest_peer_set = 1))
        "Cannot remove the last peer from the consensus");
  with_table "remove_peer_votes" (
    existing_vote ← query (λ d, remove_peer_votes d !! voter_pubkey);
    if decide (existing_vote = Some peer_to_remove) then mret []
    else
      _ ← update_tables (λ d, set_remove_peer_votes
            (<[voter_pubkey := peer_to_remove]> (remove_peer_votes d)) d);
      _ ← clear_own_pending voter_pubkey "pending_remove_peer_vote" (set_pending_remove_peer_vote_tbl None);
      votes_for_removal ← query (λ d,
        count_if (λ peer, bool_decide (remove_peer_votes d !! peer = Some peer_to_remove))
          cur_effective_peer_set);
      num_peers ← tx_lift (NumPeers.to_num_peers cur_effective_peer_set);
      if (NumPeers.threshold num_peers <=? N.of_nat votes_for_removal)%N then
        _ ← with_table "peers" (update_tables (λ d, set_peers (delete peer_to_remove (peers d)) d));
        updated_peer_set ← get_peer_set_tx;
        _ ← update_tables (λ d, set_remove_peer_votes
              (retain_in (λ _, true) (λ k vote,
                 bool_decide (k ∈ updated_peer_set) && negb (bool_decide (vote = peer_to_remove)))
                 (remove_peer_votes d)) d);
        _ ← with_table "add_peer_votes" (update_tables (λ d, set_add_peer_votes
              (retain_in (λ _, true) (λ k _, bool_decide (k ∈ updated_peer_set)) (add_peer_votes d)) d));
        with_table "modules_configs" (with_table "modules_versions_votes" (
          check_module_version_upgrades updated_peer_set
            [effect_encode (MkRemovePeerEffect peer_to_remove);
             effect_encode (MkConsensusParamsChange updated_peer_set)]))
      else mret []).

Definition process_citem_vote_module_version voter_pubkey peer_set (module_id : ModuleId)
    (minor_consensus_version : N) : KTx (list CItemEffect) :=
  _ ← tx_lift (fail_if (negb (bool_decide (voter_pubkey ∈ peer_set)))
        "Voter is not in the current peer set");
  with_table "modules_versions_votes" (with_table "modules_configs" (
    config ← query (λ d, modules_configs d !! module_id);
    match config with
    | None => tx_fail "Module not found in configurations"
    | Some current_config =>
        let new_version := ConsensusVersion.mk
          (ConsensusVersion.major (ModuleConfig.version current_config)) minor_consensus_version in
        _ ← update_tables (λ d, set_modules_versions_votes
              (<[(voter_pubkey, module_id) := new_version]> (modules_versions_votes d)) d);
        _ ← clear_own_pending voter_pubkey "pending_modules_versions_votes" (λ d,
              set_pending_modules_versions_votes (delete module_id (pending_modules_versions_votes d)) d);
        check_module_version_upgrades peer_set []
    end)).

Definition dispatch_citem voter_pubkey peer_set (citem : ConsensusCtrlCitem) : KTx (list CItemEffect) :=
  match citem with
  | VoteAddPeer peer_to_add => process_citem_vote_add_peer voter_pubkey peer_set peer_to_add
  | VoteRemovePeer peer_to_remove => process_citem_vote_remove_peer voter_pubkey peer_set peer_to_remove
  | VoteAddModule module_kind consensus_version =>
      process_citem_vote_add_module voter_pubkey peer_set module_kind consensus_version
  | VoteModuleVersion module_id minor_consensus_version =>
      process_citem_vote_module_version voter_pubkey peer_set module_id minor_consensus_version
  end.

(** [IModule::process_citem] *)
Definition process_citem (round : BlockRound) voter_pubkey peer_set (citem : CItemRaw) :
    KTx (list CItemEffect) :=
  _ ← tx_lift (rassert "assertion failed: peer_set.contains(&peer_pubkey)"
        (bool_decide (voter_pubkey ∈ peer_set)));
  citem ← tx_lift match codec_decode citem with
                  | Some c => Ok c
                  | None => Err "Failed to decode CoreConsensusCitem"
                  end;
  res ← dispatch_citem voter_pubkey peer_set citem;
  proposals ← refresh_consensus_proposals_dbtx self;
  _ ← on_commit (SendProposals proposals);
  mret res.
Definition process_input (input : list N) : KTx (list CItemEffect) :=
  tx_fail "Module does not support any inputs".
Definition process_output (output : list N) : KTx (list CItemEffect) :=
  tx_fail "Module does not support any outputs".
Definition process_effects peer_set (effects : list ModuleCItemEffect) : KTx () := mret ().
End Process.

(** ** The calls of the node *)

(** [KIND], [CURRENT_VERSION_MAJOR], [CURRENT_VERSION_MINOR] *)
Definition CURRENT_VERSION_MAJOR : N := 0.
Definition CURRENT_VERSION_MINOR : N := 1.

Section NodeCalls.
Context `{CtrlCodecs}.
(** The tables and the channel of proposed items. *)
Implicit Types (st : CtrlDb * list CItemRaw) (self : ConsensusCtrlModule).

Definition get_peer_set st : outcome Empty_set (list PeerPubkey) :=
  module_read get_peer_set_dbtx st.1.
Definition get_modules_configs st : outcome Empty_set (list (ModuleId * ModuleConfig.t)) :=
  module_read get_modules_configs_dbtx st.1.
Definition get_add_peer_votes st : outcome Empty_set (list (PeerPubkey * PeerPubkey)) :=
  module_read (with_table "add_peer_votes" (query (λ d, entries (add_peer_votes d)))) st.1.
Definition get_add_module_votes st :
    outcome Empty_set (list (PeerPubkey * (ModuleKind * ConsensusVersion.t))) :=
  module_read (with_table "add_module_votes" (query (λ d, entries (add_module_votes d)))) st.1.
Definition get_remove_peer_votes st : outcome Empty_set (list (PeerPubkey * PeerPubkey)) :=
  module_read (with_table "remove_peer_votes" (query (λ d, entries (remove_peer_votes d)))) st.1.

(** One write transaction of the module, whose only result is its effect. *)
Definition ctrl_write {E A} (f : MTx CtrlDb CtrlHook E A) st : outcome E A * (CtrlDb * list CItemRaw) :=
  module_write run_ctrl_hook f st.

Definition refresh_consensus_proposals self st : outcome Whatever () * (CtrlDb * list CItemRaw) :=
  match module_read (E:=Whatever) (refresh_consensus_proposals_dbtx self) st.1 with
  | Ok proposals => (Ok (), (st.1, proposals))
  | Err e => (Err e, st)
  | Panic w => (Panic w, st)
  end.

(** The write and the refresh at the end of the [set_pending_*] methods. *)
Definition write_then_refresh self (f : KTx ()) st : outcome Whatever () * (CtrlDb * list CItemRaw) :=
  match ctrl_write f st with
  | (Ok _, st') => refresh_consensus_proposals self st'
  | (o, st') => (o, st')
  end.

Definition set_pending_add_peer_vote self (peer_to_add : PeerPubkey) st :
    outcome Whatever () * (CtrlDb * list CItemRaw) :=
  match peer_pubkey self with
  | None => (Err "Cannot cast votes: note a voting peer", st)
  | Some _ =>
      if peers st.1 !! peer_to_add is Some _ then (Ok (), st)
      else write_then_refresh self
             (with_table "pending_add_peer_vote"
                (update_tables (set_pending_add_peer_vote_tbl (Some peer_to_add)))) st
  end.

Definition set_pending_remove_peer_vote self (peer_to_remove : PeerPubkey) st :
    outcome Whatever () * (CtrlDb * list CItemRaw) :=
  match peer_pubkey self with
  | None => (Err "Cannot cast votes: not a voting peer", st)
  | Some _ =>
      if peers st.1 !! peer_to_remove is Some _ then
        if decide (length (peers_of st.1) = 1) then
          (Err "Cannot remove the last peer from the consensus", st)
        else write_then_refresh self
               (with_table "pending_remove_peer_vote"
                  (update_tables (set_pending_remove_peer_vote_tbl (Some peer_to_remove)))) st
      else (Ok (), st)
  end.

Definition set_pending_add_module_vote self (module_kind : ModuleKind)
    (consensus_version : ConsensusVersion.t) st : outcome Whatever () * (CtrlDb * list CItemRaw) :=
  match peer_pubkey self with
  | None => (Err "Cannot cast votes: not a voting peer", st)
  | Some _ =>
      match modules_inits self !! module_kind with
      | None => (Err "No module init available for module kind", st)
      | Some module_init =>
          if singleton module_init && kind_exists module_kind st.1 then (Ok (), st)
          else write_then_refresh self
                 (with_table "pending_add_module_vote" (update_tables
                    (set_pending_add_module_vote_tbl (Some (module_kind, consensus_version))))) st
      end
  end.

(** [init_db_tx]: opening the tables creates them, which is nothing here. *)
Definition init_db_tx {E} (new_version : ConsensusVersion.t) : MTx CtrlDb CtrlHook E () :=
  with_table "self_version" (update_tables (set_self_version (Some new_version))).

(** The loop of [record_module_init_versions]; the configurations were read in
    a transaction before. *)
Fixpoint record_versions {E} (modules_supported_versions : gmap ModuleKind (gmap N N))
    (l : list (ModuleId * ModuleConfig.t)) : MTx CtrlDb CtrlHook E () :=
  match l with
  | [] => mret ()
  | (module_id, module_config) :: l' =>
      supported_versions ← tx_lift (expect "Missing module supported versions for kind"
        (modules_supported_versions !! ModuleConfig.kind module_config));
      max_minor ← tx_lift (expect "No supported minor version for major version"
        (supported_versions !! ConsensusVersion.major (ModuleConfig.version module_config)));
      _ ← update_tables (λ d, set_pending_modules_versions_votes
            (<[module_id := max_minor]> (pending_modules_versions_votes d)) d);
      record_versions modules_supported_versions l'
  end.
Definition record_module_init_versions (modules_supported_versions : gmap ModuleKind (gmap N N)) st :
    outcome Empty_set () * (CtrlDb * list CItemRaw) :=
  match get_modules_configs st with
  | Ok module_configs =>
      ctrl_write (with_table "pending_modules_versions_votes"
        (record_versions modules_supported_versions module_configs)) st
  | Err e => (Err e, st)
  | Panic w => (Panic w, st)
  end.

(** *** [ConsensusCtrlModuleInit] ([init.rs]) *)
Definition is_bootstrapped {E} : MTx CtrlDb CtrlHook E bool :=
  with_table "self_version" (query (λ d, bool_decide (self_version d ≠ None))).

Definition bootstrap_consensus {E} (module_id : ModuleId) (version : ConsensusVersion.t)
    (peer_set : list PeerPubkey) : MTx CtrlDb CtrlHook E ModuleConfig.t :=
  let config := ModuleConfig.mk CTRL_KIND version in
  _ ← with_table "self_version" (
    old ← query self_version;
    _ ← update_tables (set_self_version (Some version));
    tx_lift (rassert "assertion failed: tbl.insert(&(), &version)?.is_none()"
      (bool_decide (old = None))));
  _ ← with_table "modules_configs" (update_tables (λ d,
        set_modules_configs (<[module_id := config]> (modules_configs d)) d));
  _ ← with_table "peers" (update_tables (λ d,
        set_peers (foldl (λ t peer, <[peer := ()]> t) (peers d) peer_set) d));
  mret config.

Definition ctrl_module_init : IModuleInit :=
  MkModuleInit CTRL_KIND true {[CURRENT_VERSION_MAJOR := CURRENT_VERSION_MINOR]}.

Definition ctrl_init (module_consensus_version : ConsensusVersion.t) (our : option PeerPubkey)
    (inits : gmap ModuleKind IModuleInit) (d : CtrlDb) :
    outcome ModuleInitError ConsensusCtrlModule * (CtrlDb * list CItemRaw) :=
  if decide (ConsensusVersion.major module_consensus_version = CURRENT_VERSION_MAJOR ∧
             (ConsensusVersion.minor module_consensus_version ≤ CURRENT_VERSION_MINOR)%N) then
    match ctrl_write (init_db_tx module_consensus_version) (d, []) with
    | (Ok _, st) =>
        let module := MkCtrlModule module_consensus_version our inits in
        match refresh_consensus_proposals module st with
        | (Ok _, st') => (Ok module, st')
        | (Err _, st') => (Err Other, st')
        | (Panic w, st') => (Panic w, st')
        end
    | (Err e, st) => (Err e, st)
    | (Panic w, st) => (Panic w, st)
    end
  else (Err (UnsupportedVersion module_consensus_version
               (ConsensusVersion.mk CURRENT_VERSION_MAJOR CURRENT_VERSION_MINOR)), (d, [])).
End NodeCalls.
