(* ===== verification/CtrlSpec.v ===== *)
(** * What the consensus control module does, without handles and transactions

    [ctrl_step] is the specification of one consensus item: a function from the
    tables to the effects and the new tables.  [process_citem_refines] shows that
    the handlers implement it: no table is opened twice, and on success the new
    proposals are sent. *)
From S2P Require Import Prelude Peers Core Db Module Ctrl.

(** ** Specification *)
Section Spec.
Context `{CtrlCodecs} (self : ConsensusCtrlModule).
Implicit Types (voter : PeerPubkey) (peer_set : list PeerPubkey) (d : CtrlDb).

Definition clear_if_own voter (clear : CtrlDb → CtrlDb) d : CtrlDb :=
  if decide (Some voter = peer_pubkey self) then clear d else d.

(** The votes of the members of [peer_set] for [p]. *)
Definition votes_for (votes : gmap PeerPubkey PeerPubkey) (p : PeerPubkey) peer_set : nat :=
  count_if (λ peer, bool_decide (votes !! peer = Some p)) peer_set.
Definition reaches_threshold (votes : gmap PeerPubkey PeerPubkey) (p : PeerPubkey) peer_set : bool :=
  (NumPeers.threshold (N.of_nat (length peer_set)) <=? N.of_nat (votes_for votes p peer_set))%N.

Definition upgraded_configs peer_set d : gmap ModuleId ModuleConfig.t :=
  foldl (λ m u, <[u.1.1 := ModuleConfig.mk (ModuleConfig.kind u.1.2) u.2]> m)
    (modules_configs d) (collect_upgrades peer_set d).
Definition upgrade_effects peer_set d : list CItemEffect :=
  (λ u, effect_encode (MkModuleVersionUpgradeEffect u.1.1 (ModuleConfig.version u.1.2) u.2)) <$>
    collect_upgrades peer_set d.

Definition add_peer_step voter peer_set (p : PeerPubkey) d : outcome Whatever (list CItemEffect * CtrlDb) :=
  if bool_decide (p ∈ peers_of d) then Err "Peer already part of the peer set"
  else
    let votes := <[voter := p]> (add_peer_votes d) in
    let d1 := clear_if_own voter (set_pending_add_peer_vote_tbl None) (set_add_peer_votes votes d) in
    n ← NumPeers.to_num_peers peer_set;
    if reaches_threshold votes p peer_set then
      let d2 := set_peers (<[p := ()]> (peers d)) (set_add_peer_votes
        (retain_in (λ _, true) (λ _ vote, negb (bool_decide (vote = p))) votes) d1) in
      Ok ([effect_encode (MkAddPeerEffect p); effect_encode (MkConsensusParamsChange (peers_of d2))], d2)
    else Ok ([], d1).

Definition remove_peer_step voter peer_set (p : PeerPubkey) d :
    outcome Whatever (list CItemEffect * CtrlDb) :=
  if negb (bool_decide (p ∈ peers_of d)) then Err "Peer to remove is not in the latest peer set"
  else if bool_decide (length (peers_of d) = 1) then Err "Cannot remove the last peer from the consensus"
  else if decide (remove_peer_votes d !! voter = Some p) then Ok ([], d)
  else
    let votes := <[voter := p]> (remove_peer_votes d) in
    let d1 := clear_if_own voter (set_pending_remove_peer_vote_tbl None) (set_remove_peer_votes votes d) in
    n ← NumPeers.to_num_peers peer_set;
    if reaches_threshold votes p peer_set then
      let d2 := set_peers (delete p (peers d)) d1 in
      let updated := peers_of d2 in
      let d3 := set_add_peer_votes (retain_in (λ _, true) (λ k _, bool_decide (k ∈ updated)) (add_peer_votes d))
        (set_remove_peer_votes (retain_in (λ _, true)
           (λ k vote, bool_decide (k ∈ updated) && negb (bool_decide (vote = p))) votes) d2) in
      Ok ([effect_encode (MkRemovePeerEffect p); effect_encode (MkConsensusParamsChange updated)] ++
            upgrade_effects updated d3,
          set_modules_configs (upgraded_configs updated d3) d3)
    else Ok ([], d1).

(** The versions of the members of [peer_set] that voted for the kind with the
    major version. *)
Definition matching_module_votes (votes : gmap PeerPubkey (ModuleKind * ConsensusVersion.t))
    (k : ModuleKind) (v : ConsensusVersion.t) peer_set : list ConsensusVersion.t :=
  omap (λ peer, match votes !! peer with
    | Some (k', v') =>
        if decide (k' = k ∧ ConsensusVersion.major v' = ConsensusVersion.major v) then Some v' else None
    | None => None
    end) peer_set.

Definition add_module_step voter peer_set (k : ModuleKind) (v : ConsensusVersion.t) d :
    outcome Whatever (list CItemEffect * CtrlDb) :=
  match modules_inits self !! k with
  | None => Err "No module init available for module kind"
  | Some module_init =>
      if singleton module_init && kind_exists k d then Err "Module already exists"
      else
        let votes := <[voter := (k, v)]> (add_module_votes d) in
        let d1 := clear_if_own voter (set_pending_add_module_vote_tbl None) (set_add_module_votes votes d) in
        let matching := matching_module_votes votes k v peer_set in
        if decide (length matching = length peer_set) then
          minor ← expect "Should have at least one vote" (min_minor matching);
          let final := ConsensusVersion.mk (ConsensusVersion.major v) minor in
          id ← new_module_id d;
          Ok ([effect_encode (MkAddModuleEffect k id final)],
              set_modules_configs (<[id := ModuleConfig.mk k final]> (modules_configs d))
                (set_add_module_votes
                   (retain_in (λ _, true) (λ _ vote, negb (bool_decide (vote.1 = k))) votes) d1))
        else Ok ([], d1)
  end.

Definition module_version_step voter peer_set (id : ModuleId) (minor : N) d :
    outcome Whatever (list CItemEffect * CtrlDb) :=
  if negb (bool_decide (voter ∈ peer_set)) then Err "Voter is not in the current peer set"
  else
    match modules_configs d !! id with
    | None => Err "Module not found in configurations"
    | Some config =>
        let v := ConsensusVersion.mk (ConsensusVersion.major (ModuleConfig.version config)) minor in
        let d1 := clear_if_own voter
          (λ d, set_pending_modules_versions_votes (delete id (pending_modules_versions_votes d)) d)
          (set_modules_versions_votes (<[(voter, id) := v]> (modules_versions_votes d)) d) in
        Ok (upgrade_effects peer_set d1, set_modules_configs (upgraded_configs peer_set d1) d1)
    end.

Definition ctrl_step voter peer_set (c : ConsensusCtrlCitem) d :
    outcome Whatever (list CItemEffect * CtrlDb) :=
  match c with
  | VoteAddPeer p => add_peer_step voter peer_set p d
  | VoteRemovePeer p => remove_peer_step voter peer_set p d
  | VoteAddModule k v => add_module_step voter peer_set k v d
  | VoteModuleVersion id minor => module_version_step voter peer_set id minor d
  end.

(** The items that the peer [me] wants to propose. *)
Definition proposals_add (me : PeerPubkey) d : list ConsensusCtrlCitem :=
  match pending_add_peer_vote d with
  | Some p => if bool_decide (p ∈ peers_of d) || bool_decide (add_peer_votes d !! me = Some p)
              then [] else [VoteAddPeer p]
  | None => []
  end.
Definition proposals_remove (me : PeerPubkey) d : list ConsensusCtrlCitem :=
  match pending_remove_peer_vote d with
  | Some p => if negb (bool_decide (p ∈ peers_of d)) || bool_decide (remove_peer_votes d !! me = Some p)
              then [] else [VoteRemovePeer p]
  | None => []
  end.
Definition is_singleton (k : ModuleKind) : bool :=
  match modules_inits self !! k with Some init => singleton init | None => false end.
Definition proposals_module (me : PeerPubkey) d : list ConsensusCtrlCitem :=
  match pending_add_module_vote d with
  | Some (k, v) =>
      if is_singleton k && kind_exists k d then []
      else
        match add_module_votes d !! me with
        | Some (k', v') =>
            if bool_decide (k' = k) && bool_decide (ConsensusVersion.major v' = ConsensusVersion.major v)
            then [] else [VoteAddModule k v]
        | None => [VoteAddModule k v]
        end
  | None => []
  end.
Definition proposals_versions (me : PeerPubkey) d : list ConsensusCtrlCitem :=
  omap (λ kv : ModuleId * N,
    if decide (ConsensusVersion.minor <$> modules_versions_votes d !! (me, kv.1) = Some kv.2)
    then None else Some (VoteModuleVersion kv.1 kv.2)) (entries (pending_modules_versions_votes d)).
Definition proposals_of d : list ConsensusCtrlCitem :=
  match peer_pubkey self with
  | None => []
  | Some me => proposals_add me d ++ proposals_remove me d ++ proposals_module me d ++ proposals_versions me d
  end.
End Spec.

(** ** The handlers implement it *)
Section Refine.
Context `{CtrlCodecs} (self : ConsensusCtrlModule).
Implicit Types (voter : PeerPubkey) (peer_set : list PeerPubkey) (d : CtrlDb) (open : list string)
  (hs : list CtrlHook).

Abbreviation st d open hs := (MkTx (MkModuleTx d open) hs).

(** What a transaction does to the tables, leaving handles and hooks alone. *)
Definition in_tx {A} open hs (o : outcome Whatever (A * CtrlDb)) :
    outcome (DbTxError Whatever) (A * TxState (ModuleTx CtrlDb) CtrlHook) :=
  match o with
  | Ok (a, d) => Ok (a, st d open hs)
  | Err e => Err (TxError e)
  | Panic w => Panic w
  end.

Lemma with_table_run {A} name (body : KTx A) d open hs (o : outcome Whatever (A * CtrlDb)) :
  bool_decide (name ∈ open) = false →
  body (st d (name :: open) hs) = in_tx (name :: open) hs o →
  with_table (M:=KTx) name body (st d open hs) = in_tx open hs o.
Proof.
  intros Hn%bool_decide_eq_false Hb. simpl. unfold mtx_with_table. simpl. rewrite decide_False by done.
  rewrite Hb. by destruct o as [[]| |].
Qed.

Lemma clear_own_pending_run voter table clear d open hs :
  bool_decide (table ∈ open) = false →
  clear_own_pending self voter table clear (st d open hs) =
    in_tx open hs (Ok ((), clear_if_own self voter clear d)).
Proof.
  intros Ht. unfold clear_own_pending, clear_if_own. destruct (decide (Some voter = _)); [|done].
  by apply (with_table_run _ _ _ _ _ (Ok ((), clear d))).
Qed.

Lemma get_peer_set_tx_run d open hs :
  bool_decide ("peers" ∈ open) = false →
  (get_peer_set_tx : KTx _) (st d open hs) = in_tx open hs (Ok (peers_of d, d)).
Proof. intros Hp. by apply (with_table_run _ _ _ _ _ (Ok (peers_of d, d))). Qed.

Lemma update_run (f : CtrlDb → CtrlDb) d open hs :
  (update_tables f : KTx ()) (st d open hs) = in_tx open hs (Ok ((), f d)).
Proof. done. Qed.
Lemma query_run {A} (f : CtrlDb → A) d open hs :
  query (M:=KTx) f (st d open hs) = in_tx open hs (Ok (f d, d)).
Proof. done. Qed.
Lemma lift_run {A} (o : outcome Whatever A) d open hs :
  (tx_lift o : KTx A) (st d open hs) = in_tx open hs (a ← o; Ok (a, d)).
Proof. by destruct o. Qed.

Lemma bind_run {A B} (m : KTx A) (f : A → KTx B) d open hs (o : outcome Whatever (A * CtrlDb)) :
  m (st d open hs) = in_tx open hs o →
  (m ≫= f) (st d open hs) =
    match o with
    | Ok (a, d') => f a (st d' open hs)
    | Err e => Err (TxError e)
    | Panic w => Panic w
    end.
Proof. intros Hm. unfold mbind, mtx_bind, tx_bind. rewrite Hm. by destruct o as [[]| |]. Qed.

Lemma apply_upgrades_run l effects d open hs :
  apply_upgrades l effects (st d open hs) =
  in_tx open hs (Ok (effects ++ ((λ u, effect_encode (MkModuleVersionUpgradeEffect u.1.1
                       (ModuleConfig.version u.1.2) u.2)) <$> l),
    set_modules_configs (foldl (λ m u, <[u.1.1 := ModuleConfig.mk (ModuleConfig.kind u.1.2) u.2]> m)
      (modules_configs d) l) d)).
Proof.
  revert effects d. induction l as [|[[id c] v] l IH]; intros effects d; simpl.
  - rewrite app_nil_r. by destruct d.
  - rewrite (bind_run _ _ _ _ _ _ (update_run _ _ _ _)). rewrite IH. simpl. by rewrite <-app_assoc.
Qed.

Lemma check_upgrades_run peer_set effects d open hs :
  check_module_version_upgrades peer_set effects (st d open hs) =
  in_tx open hs (Ok (effects ++ upgrade_effects peer_set d, set_modules_configs (upgraded_configs peer_set d) d)).
Proof.
  unfold check_module_version_upgrades. rewrite (bind_run _ _ _ _ _ _ (query_run _ _ _ _)).
  apply apply_upgrades_run.
Qed.

Local Arguments in_tx : simpl never.
Local Arguments find_module_id : simpl never.
Local Arguments query : simpl never.
Local Arguments with_table : simpl never.
Local Arguments update_tables : simpl never.
Local Arguments get_peer_set_tx : simpl never.
Local Arguments check_module_version_upgrades : simpl never.
Local Arguments NumPeers.to_num_peers : simpl never.
(** Steps of a run: the action of a bind runs by one of the lemmas above. *)
Tactic Notation "run_bind" uconstr(lem) := erewrite bind_run by (apply lem; reflexivity); simpl.
Ltac run_fail_if :=
  run_bind lift_run;
  match goal with |- context [fail_if ?b _] => destruct b; simpl; [done|] end.

Ltac run_clear :=
  run_bind clear_own_pending_run;
  match goal with |- context [clear_if_own ?s ?v ?c ?d] =>
    change (clear_if_own s v c d) with (if decide (Some v = peer_pubkey s) then c d else d);
    destruct (decide (Some v = peer_pubkey s))
  end; simpl.
Ltac run_num_peers :=
  run_bind lift_run;
  match goal with |- context [NumPeers.to_num_peers ?l] =>
    destruct (NumPeers.to_num_peers l) as [?|?|?] eqn:Hnum; simpl; [|done..];
    apply NumPeers.to_num_peers_Ok in Hnum as [-> _]
  end.
Ltac run_table name := erewrite bind_run by (apply with_table_run; [done|apply update_run]); simpl.

Lemma add_peer_refines voter peer_set p d hs :
  process_citem_vote_add_peer self voter peer_set p (st d [] hs) =
  in_tx [] hs (add_peer_step self voter peer_set p d).
Proof.
  unfold process_citem_vote_add_peer, add_peer_step, clear_if_own, reaches_threshold, votes_for.
  run_bind get_peer_set_tx_run. run_fail_if. apply with_table_run; [done|].
  run_bind update_run. run_clear; run_bind query_run; run_num_peers; (case_match; [|done]);
    run_bind update_run; run_table "peers"; by run_bind get_peer_set_tx_run.
Qed.

Lemma remove_peer_refines voter peer_set p d hs :
  process_citem_vote_remove_peer self voter peer_set p (st d [] hs) =
  in_tx [] hs (remove_peer_step self voter peer_set p d).
Proof.
  unfold process_citem_vote_remove_peer, remove_peer_step, clear_if_own, reaches_threshold, votes_for.
  run_bind get_peer_set_tx_run. run_fail_if. run_fail_if. apply with_table_run; [done|].
  run_bind query_run. destruct (decide (_ = Some p)); [done|].
  run_bind update_run. run_clear; run_bind query_run; run_num_peers; (case_match; [|done]);
    run_table "peers"; run_bind get_peer_set_tx_run; run_bind update_run; run_table "add_peer_votes";
    (do 2 (apply with_table_run; [done|])); by rewrite check_upgrades_run.
Qed.

Lemma add_module_refines voter peer_set k v d hs :
  process_citem_vote_add_module self voter peer_set k v (st d [] hs) =
  in_tx [] hs (add_module_step self voter peer_set k v d).
Proof.
  unfold process_citem_vote_add_module, add_module_step, clear_if_own, matching_module_votes.
  destruct (modules_inits self !! k) as [init|]; [|done].
  assert (∀ B (f : () → KTx B) (o : outcome Whatever (B * CtrlDb)),
    (singleton init && kind_exists k d = false → f () (st d [] hs) = in_tx [] hs o) →
    (((if singleton init then
       module_already_exists ← with_table "modules_configs" (query (kind_exists k));
       tx_lift (fail_if module_already_exists "Module already exists")
     else mret () : KTx ()) ≫= f) (st d [] hs)) =
    in_tx [] hs (if singleton init && kind_exists k d then Err "Module already exists" else o)) as Hguard.
  { intros B f o Hf. destruct (singleton init); simpl in *.
    - erewrite bind_run with (o:= a ← fail_if (kind_exists k d) "Module already exists"; Ok (a, d)).
      { destruct (kind_exists k d); simpl; [done|]. by apply Hf. }
      erewrite bind_run by (apply with_table_run; [done|apply query_run]). simpl. apply lift_run.
    - by apply Hf. }
  apply Hguard. intros _. clear Hguard. apply with_table_run; [done|].
  run_bind update_run. run_clear; run_bind query_run; (destruct (decide (length _ = _)); [|done]);
    run_bind lift_run; (destruct (min_minor _); simpl; [|done]);
    run_bind update_run; (erewrite bind_run by (apply with_table_run; [done|apply query_run])); simpl;
    run_bind lift_run; unfold new_module_id; simpl;
    (destruct (find_module_id _ _ _) as [id|?|?]; simpl; [|done..]); by run_table "modules_configs".
Qed.

Lemma module_version_refines voter peer_set id minor d hs :
  process_citem_vote_module_version self voter peer_set id minor (st d [] hs) =
  in_tx [] hs (module_version_step self voter peer_set id minor d).
Proof.
  unfold process_citem_vote_module_version, module_version_step, clear_if_own.
  run_fail_if. do 2 (apply with_table_run; [done|]). run_bind query_run.
  destruct (modules_configs d !! id) as [c|]; [|done].
  run_bind update_run. run_clear; by rewrite check_upgrades_run.
Qed.

Lemma dispatch_refines voter peer_set c d hs :
  dispatch_citem self voter peer_set c (st d [] hs) = in_tx [] hs (ctrl_step self voter peer_set c d).
Proof.
  destruct c; [apply add_peer_refines|apply remove_peer_refines|apply add_module_refines|
    apply module_version_refines].
Qed.
Local Arguments encode_to_raw : simpl never.

Lemma versions_encode me d :
  omap (λ '(module_id, minor),
    if decide (ConsensusVersion.minor <$> modules_versions_votes d !! (me, module_id) = Some minor)
    then None else Some (encode_to_raw (VoteModuleVersion module_id minor)))
    (entries (pending_modules_versions_votes d)) = encode_to_raw <$> proposals_versions me d.
Proof.
  unfold proposals_versions. induction (entries (pending_modules_versions_votes d)) as [|[id m] l IH]; [done|].
  simpl. case_decide; simpl; [exact IH|]. f_equal. exact IH.
Qed.

Ltac bind_part part d :=
  rewrite (bind_run _ _ _ _ _ (Ok (encode_to_raw <$> part, d))); [simpl|].
Ltac run_query name := erewrite bind_run by (apply with_table_run; [done|apply query_run]); simpl.

(** In a write transaction. *)
Lemma refresh_write d hs :
  (refresh_consensus_proposals_dbtx self : KTx _) (st d [] hs) =
  in_tx [] hs (Ok (encode_to_raw <$> proposals_of self d, d)).
Proof.
  unfold refresh_consensus_proposals_dbtx, proposals_of. destruct (peer_pubkey self) as [me|]; [|done].
  run_bind get_peer_set_tx_run. run_query "pending_add_peer_vote".
  bind_part (proposals_add me d) d.
  2: { unfold proposals_add. destruct (pending_add_peer_vote d); [|done]. case_bool_decide; [done|].
       run_query "add_peer_votes". rewrite (bool_decide_decide (_ = Some _)). by case_decide. }
  run_query "pending_remove_peer_vote". bind_part (proposals_remove me d) d.
  2: { unfold proposals_remove. destruct (pending_remove_peer_vote d); [|done]. case_bool_decide; [|done].
       run_query "remove_peer_votes". rewrite (bool_decide_decide (_ = Some _)). by case_decide. }
  run_query "pending_add_module_vote". bind_part (proposals_module self me d) d.
  2: { unfold proposals_module, is_singleton. destruct (pending_add_module_vote d) as [[k v]|]; [|done].
       set (chk := match modules_inits self !! k with Some _ => _ | None => _ end).
       rewrite (bind_run _ _ _ _ _ (Ok (chk && kind_exists k d, d))).
       2: { destruct chk; [|done]. by apply (with_table_run _ _ _ _ _ (Ok (kind_exists k d, d))). }
       destruct (chk && _); [done|]. run_query "add_module_votes".
       destruct (add_module_votes d !! me) as [[k' v']|]; [|done].
       rewrite <-negb_andb. by destruct (bool_decide _ && _). }
  erewrite bind_run by (do 2 (apply with_table_run; [done|]); apply query_run). simpl.
  rewrite versions_encode. by rewrite !fmap_app.
Qed.

(** In a read transaction. *)
Lemma rd_bind_run {E A B} (m : Rd CtrlDb E A) (f : A → Rd CtrlDb E B) a d :
  m d = Ok a → (m ≫= f) d = f a d.
Proof. intros Hm. unfold mbind, rd_bind. by rewrite Hm. Qed.
Ltac rd_part part := erewrite (rd_bind_run _ _ (encode_to_raw <$> part)); [simpl|].
Ltac rd_query := erewrite rd_bind_run by reflexivity; simpl.

Lemma refresh_read {E} d :
  (refresh_consensus_proposals_dbtx self : Rd CtrlDb E _) d = Ok (encode_to_raw <$> proposals_of self d).
Proof.
  unfold refresh_consensus_proposals_dbtx, proposals_of. destruct (peer_pubkey self) as [me|]; [|done].
  rd_query. rd_query. rd_part (proposals_add me d).
  2: { unfold proposals_add. destruct (pending_add_peer_vote d); [|done]. case_bool_decide; [done|].
       rd_query. rewrite (bool_decide_decide (_ = Some _)). by case_decide. }
  rd_query. rd_part (proposals_remove me d).
  2: { unfold proposals_remove. destruct (pending_remove_peer_vote d); [|done]. case_bool_decide; [|done].
       rd_query. rewrite (bool_decide_decide (_ = Some _)). by case_decide. }
  rd_query. rd_part (proposals_module self me d).
  2: { unfold proposals_module, is_singleton. destruct (pending_add_module_vote d) as [[k v]|]; [|done].
       set (chk := match modules_inits self !! k with Some _ => _ | None => _ end).
       erewrite (rd_bind_run _ _ (chk && kind_exists k d)) by (by destruct chk).
       destruct (chk && _); [done|]. rd_query.
       destruct (add_module_votes d !! me) as [[k' v']|]; [|done].
       rewrite <-negb_andb. by destruct (bool_decide _ && _). }
  rd_query. rewrite versions_encode. by rewrite !fmap_app.
Qed.

(** One consensus item, in a transaction. *)
Lemma process_citem_run round voter peer_set item d hs :
  voter ∈ peer_set →
  process_citem self round voter peer_set item (st d [] hs) =
  match codec_decode item with
  | Some c =>
      match ctrl_step self voter peer_set c d with
      | Ok (effects, d') => Ok (effects, st d' [] (hs ++ [SendProposals (encode_to_raw <$> proposals_of self d')]))
      | Err e => Err (TxError e)
      | Panic w => Panic w
      end
  | None => Err (TxError "Failed to decode CoreConsensusCitem")
  end.
Proof.
  intros Hin. unfold process_citem. run_bind lift_run.
  rewrite bool_decide_eq_true_2 by done. simpl. run_bind lift_run.
  destruct (codec_decode item) as [c|]; simpl; [|done]. run_bind dispatch_refines.
  destruct (ctrl_step _ _ _ _ _) as [[effects d']| |]; [|done..]. by run_bind refresh_write.
Qed.

Lemma process_citem_write round voter peer_set item d w :
  voter ∈ peer_set →
  ctrl_write (process_citem self round voter peer_set item) (d, w) =
  match codec_decode item with
  | Some c =>
      match ctrl_step self voter peer_set c d with
      | Ok (effects, d') => (Ok effects, (d', encode_to_raw <$> proposals_of self d'))
      | Err e => (Err e, (d, w))
      | Panic why => (Panic why, (d, w))
      end
  | None => (Err "Failed to decode CoreConsensusCitem", (d, w))
  end.
Proof.
  intros Hin. unfold ctrl_write, module_write, write_with_expect_falliable, write_with_inner_falliable. simpl.
  rewrite (process_citem_run round voter peer_set item d []) by done.
  destruct (codec_decode item); [|done]. by destruct (ctrl_step _ _ _ _ _) as [[]| |].
Qed.
End Refine.

(** ** The tables *)
Section TableLemmas.
Context `{CtrlCodecs}.
Implicit Types (d : CtrlDb) (peer_set : list PeerPubkey).

Lemma entries_elem {V} (m : gmap N V) k v : (k, v) ∈ entries m ↔ m !! k = Some v.
Proof. by rewrite entries_perm, elem_of_map_to_list. Qed.

Lemma elem_of_peers_of d p : p ∈ peers_of d ↔ peers d !! p = Some ().
Proof.
  unfold peers_of, PeerSet.from_iter. rewrite PeerSet.sort_unstable_perm, list_elem_of_fmap. split.
  - intros ([k []] & -> & Hk). by apply entries_elem.
  - intros Hp. exists (p, ()). split; [done|]. by apply entries_elem.
Qed.
Lemma peers_of_length d : length (peers_of d) = size (peers d).
Proof.
  unfold peers_of, PeerSet.from_iter. rewrite PeerSet.sort_unstable_perm, length_fmap, entries_perm.
  apply length_map_to_list.
Qed.
Lemma peers_of_wf d : PeerSet.wf (peers_of d).
Proof. apply PeerSet.sort_wf. rewrite entries_perm. apply NoDup_fst_map_to_list. Qed.
Lemma peers_of_ext d d' : peers d = peers d' → peers_of d = peers_of d'.
Proof. unfold peers_of. by intros ->. Qed.

Lemma kind_exists_spec k d :
  kind_exists k d = true ↔ ∃ id c, modules_configs d !! id = Some c ∧ ModuleConfig.kind c = k.
Proof.
  unfold kind_exists. rewrite existsb_exists. split.
  - intros ([id c] & Hin%list_elem_of_In%entries_elem & Hk%bool_decide_eq_true). eauto.
  - intros (id & c & Hc%entries_elem & Hk). exists (id, c). split; [by apply list_elem_of_In|].
    by apply bool_decide_eq_true.
Qed.

(** *** The agreed minor version *)
Definition voted_minor (votes : gmap (PeerPubkey * ModuleId) ConsensusVersion.t) (id : ModuleId)
    (peer : PeerPubkey) : N :=
  default 0%N (ConsensusVersion.minor <$> votes !! (peer, id)).

Lemma min_minor_version_Some votes id peer_set m :
  min_minor_version votes id peer_set = Some m → ∀ i, i ∈ peer_set → (m ≤ voted_minor votes id i)%N.
Proof.
  unfold min_minor_version. fold (voted_minor votes id).
  assert (∀ acc m, foldl (λ min peer, Some match min with None => voted_minor votes id peer
      | Some c => N.min c (voted_minor votes id peer) end) acc peer_set = Some m →
    (∀ a, acc = Some a → m ≤ a)%N ∧ ∀ i, i ∈ peer_set → (m ≤ voted_minor votes id i)%N) as Hgen.
  { clear m. induction peer_set as [|p l IH]; intros acc m; simpl.
    - intros ->. split; [by intros a [= ->]|by intros i ?%not_elem_of_nil].
    - intros [H1 H2]%IH. specialize (H1 _ eq_refl). split.
      + intros a ->. lia.
      + intros i [->|Hi]%elem_of_cons; [|by apply H2]. destruct acc; lia. }
  intros Hm. by apply (Hgen None m).
Qed.

(** The configuration of a module after the check for upgrades. *)
Definition upgraded peer_set d (id : ModuleId) (c : ModuleConfig.t) : ModuleConfig.t :=
  let current := ModuleConfig.version c in
  match min_minor_version (modules_versions_votes d) id peer_set with
  | Some m =>
      if (ConsensusVersion.minor current <? m)%N
      then ModuleConfig.mk (ModuleConfig.kind c) (ConsensusVersion.mk (ConsensusVersion.major current) m)
      else c
  | None => c
  end.

Lemma elem_of_collect_upgrades peer_set d id c v :
  (id, c, v) ∈ collect_upgrades peer_set d ↔
  modules_configs d !! id = Some c ∧ upgraded peer_set d id c = ModuleConfig.mk (ModuleConfig.kind c) v ∧
  upgraded peer_set d id c ≠ c.
Proof.
  unfold collect_upgrades, upgraded. rewrite list_elem_of_omap. split.
  - intros ([id' c'] & Hin%entries_elem & Hc).
    destruct (min_minor_version _ id' _) as [m|] eqn:Hm; [|done].
    destruct (_ <? m)%N eqn:Hlt; [|done]. injection Hc as -> -> <-. rewrite Hm, Hlt. split_and!; [done..|].
    intros Heq. apply N.ltb_lt in Hlt. rewrite <-Heq in Hlt. simpl in Hlt. lia.
  - intros (Hin & Hup & Hne). exists (id, c). split; [by apply entries_elem|].
    destruct (min_minor_version _ id _) as [m|]; [|done]. destruct (_ <? m)%N; [|done].
    by injection Hup as <-.
Qed.

Lemma foldl_insert_lookup {A} (f : A → N) (g : A → ModuleConfig.t) (l : list A) (m : gmap N ModuleConfig.t) id :
  foldl (λ m u, <[f u := g u]> m) m l !! id = m !! id ∧ id ∉ f <$> l ∨
  ∃ u, u ∈ l ∧ f u = id ∧ foldl (λ m u, <[f u := g u]> m) m l !! id = Some (g u).
Proof.
  revert m. induction l as [|u l IH]; intros m; simpl.
  - left. split; [done|apply not_elem_of_nil].
  - destruct (IH (<[f u := g u]> m)) as [[Heq Hn]|(u' & Hu & Hid & Heq)].
    + destruct (decide (f u = id)) as [<-|Hne].
      * right. exists u. split_and!; [left|done|]. by rewrite Heq, lookup_insert_eq.
      * left. rewrite Heq, lookup_insert_ne by done. split; [done|]. set_solver.
    + right. exists u'. split_and!; [by right|done|done].
Qed.

Lemma upgraded_configs_lookup peer_set d id :
  upgraded_configs peer_set d !! id = upgraded peer_set d id <$> modules_configs d !! id.
Proof.
  unfold upgraded_configs.
  destruct (foldl_insert_lookup (λ u, u.1.1) (λ u, ModuleConfig.mk (ModuleConfig.kind u.1.2) u.2)
    (collect_upgrades peer_set d) (modules_configs d) id) as [[-> Hn]|([[id' c] v] & Hin & Hid & ->)].
  - destruct (modules_configs d !! id) as [c|] eqn:Hc; [|done]. simpl. f_equal.
    destruct (decide (upgraded peer_set d id c = c)) as [|Hne]; [done|]. destruct Hn.
    assert (∃ v, upgraded peer_set d id c = ModuleConfig.mk (ModuleConfig.kind c) v) as [v Hv].
    { unfold upgraded. destruct (min_minor_version _ _ _); [destruct (_ <? _)%N|]; [by eexists|..];
        exists (ModuleConfig.version c); by destruct c. }
    apply list_elem_of_fmap. exists (id, c, v). split; [done|]. by apply elem_of_collect_upgrades.
  - simpl in *. subst. apply elem_of_collect_upgrades in Hin as (-> & Hup & _). simpl. by rewrite Hup.
Qed.
End TableLemmas.
