(* ===== verification/CtrlProps.v ===== *)
(** * What the consensus control module guarantees

    Every theorem is about a consensus item processed by [process_citem] in a
    write transaction of the module; the proofs go through the specification
    [ctrl_step]. *)
From S2P Require Import Prelude Peers Core Db Module Ctrl CtrlSpec.

Section Lemmas.
Context `{CtrlCodecs} (self : ConsensusCtrlModule).
Implicit Types (voter : PeerPubkey) (peer_set : list PeerPubkey) (d : CtrlDb).

(** *** Module ids *)
Lemma find_module_id_fresh fuel tbl next id : find_module_id fuel tbl next = Ok id → tbl !! id = None.
Proof.
  revert next. induction fuel as [|fuel IH]; intros next; simpl; [done|].
  destruct (tbl !! next) eqn:Hn; [apply IH|by intros [= <-]].
Qed.

(** With more ids to try than there are modules one is free. *)
Lemma find_module_id_total fuel tbl next :
  (next + N.of_nat fuel ≤ u32_max + 1)%N →
  (∃ id, find_module_id fuel tbl next = Ok id ∧ (next ≤ id < next + N.of_nat fuel)%N) ∨
  fuel ≤ size (filter (λ kv, (next ≤ kv.1)%N) tbl).
Proof.
  revert next. induction fuel as [|fuel IH]; intros next Hb; [right; lia|].
  simpl find_module_id. destruct (tbl !! next) as [c|] eqn:Hn; [|left; exists next; split; [done|lia]].
  destruct fuel as [|fuel'].
  - right. rewrite <-(map_size_singleton (M:=gmap N) next c). apply map_subseteq_size.
    apply map_singleton_subseteq_l, map_lookup_filter_Some. by split.
  - assert (wrapping_add u32_max next 1 = next + 1)%N as Hw.
    { unfold wrapping_add. apply N.mod_small. lia. }
    rewrite Hw. destruct (IH (next + 1)%N) as [(id & Hid & Hr)|Hsz]; [lia|left; exists id; split; [done|lia]|].
    right. etrans; [apply le_n_S, Hsz|]. apply Nat.le_succ_l, map_subset_size. apply map_subset_alt. split.
    + apply map_subseteq_spec. intros k v [Hk Hge]%map_lookup_filter_Some.
      apply map_lookup_filter_Some. simpl in *. split; [done|lia].
    + exists next. split; [|by exists c; apply map_lookup_filter_Some].
      rewrite map_lookup_filter_None. right. intros v _. simpl. lia.
Qed.

Lemma new_module_id_total d :
  (N.of_nat (size (modules_configs d)) < u32_max)%N → ∃ id, new_module_id d = Ok id.
Proof.
  intros Hsz. unfold new_module_id.
  destruct (find_module_id_total (S (size (modules_configs d))) (modules_configs d) 1) as [(id & Hid & _)|Hge];
    [lia|by exists id|].
  pose proof (map_size_filter (λ kv : N * ModuleConfig.t, (1 ≤ kv.1)%N) (modules_configs d)). lia.
Qed.

(** *** The cases of a step *)

(** What of the tables a step of another kind leaves alone. *)
Lemma clear_if_own_peers voter f d : (∀ d, peers (f d) = peers d) → peers (clear_if_own self voter f d) = peers d.
Proof. intros Hf. unfold clear_if_own. by case_decide. Qed.

Lemma to_num_peers_bind {A} peer_set (k : outcome Whatever A) (a : A) :
  (_ ← NumPeers.to_num_peers peer_set; k) = Ok a → k = Ok a.
Proof. by destruct (NumPeers.to_num_peers peer_set). Qed.

Inductive PeersChange voter peer_set (c : ConsensusCtrlCitem) d d' (effects : list CItemEffect) : Prop :=
  | PeersKept : peers d' = peers d →
      (∀ e, e ∈ effects → effect_id e ≠ EFFECT_ID ConsensusParamsChange) →
      PeersChange voter peer_set c d d' effects
  | PeerAdded p : c = VoteAddPeer p → peers d !! p = None → peers d' = <[p := ()]> (peers d) →
      reaches_threshold (<[voter := p]> (add_peer_votes d)) p peer_set = true →
      effects = [effect_encode (MkAddPeerEffect p); effect_encode (MkConsensusParamsChange (peers_of d'))] →
      PeersChange voter peer_set c d d' effects
  | PeerRemoved p upgrades : c = VoteRemovePeer p → peers d !! p = Some () → peers d' = delete p (peers d) →
      reaches_threshold (<[voter := p]> (remove_peer_votes d)) p peer_set = true →
      peers d' ≠ ∅ →
      effects = [effect_encode (MkRemovePeerEffect p); effect_encode (MkConsensusParamsChange (peers_of d'))]
                  ++ upgrades →
      (∀ e, e ∈ upgrades → effect_id e = EFFECT_ID ModuleVersionUpgradeEffect) →
      PeersChange voter peer_set c d d' effects.

Lemma upgrade_effects_id peer_set d e :
  e ∈ upgrade_effects peer_set d → effect_id e = EFFECT_ID ModuleVersionUpgradeEffect.
Proof. by intros ([[id c] v] & -> & _)%list_elem_of_fmap. Qed.

Lemma ctrl_step_peers voter peer_set c d effects d' :
  ctrl_step self voter peer_set c d = Ok (effects, d') → PeersChange voter peer_set c d d' effects.
Proof.
  destruct c as [p|p|k v|id minor]; simpl.
  - unfold add_peer_step. case_bool_decide as Hp; [done|]. rewrite elem_of_peers_of in Hp.
    intros Hs%to_num_peers_bind. destruct (reaches_threshold _ _ _) eqn:Ht; injection Hs as <- <-.
    + apply (PeerAdded _ _ _ _ _ _ p); try done. by destruct (peers d !! p) as [[]|].
    + apply PeersKept; [by rewrite clear_if_own_peers|by intros e ?%not_elem_of_nil].
  - unfold remove_peer_step. case_bool_decide as Hp; [|done]. rewrite elem_of_peers_of in Hp.
    case_bool_decide as H1; [done|]. simpl. rewrite peers_of_length in H1.
    case_decide; [intros [= <- <-]; by apply PeersKept; [|intros e ?%not_elem_of_nil]|].
    intros Hs%to_num_peers_bind. destruct (reaches_threshold _ _ _) eqn:Ht; injection Hs as <- <-.
    + eapply (PeerRemoved _ _ _ _ _ _ p); try done; [|simpl; by intros e He%upgrade_effects_id].
      simpl. intros Hempty. apply (f_equal size) in Hempty. rewrite map_size_delete, Hp, map_size_empty in Hempty.
      assert (size (peers d) ≠ 0); [|lia]. intros Hz%map_size_empty_iff. by rewrite Hz in Hp.
    + apply PeersKept; [by rewrite clear_if_own_peers|by intros e ?%not_elem_of_nil].
  - unfold add_module_step. destruct (modules_inits self !! k) as [init|]; [|done]. case_match; [done|].
    case_decide; [|intros [= <- <-]; apply PeersKept;
      [by rewrite clear_if_own_peers|by intros e ?%not_elem_of_nil]].
    destruct (min_minor _); simpl; [|done]. destruct (new_module_id d) as [id| |]; simpl; [|done..].
    intros [= <- <-]. apply PeersKept; [simpl; by rewrite clear_if_own_peers|].
    by intros e ->%list_elem_of_singleton.
  - unfold module_version_step. case_bool_decide; [|done]. simpl.
    destruct (modules_configs d !! id); [|done]. intros [= <- <-]. apply PeersKept.
    + simpl. by rewrite clear_if_own_peers.
    + by intros e ->%upgrade_effects_id.
Qed.

Lemma clear_if_own_configs voter f d :
  (∀ d, modules_configs (f d) = modules_configs d) →
  modules_configs (clear_if_own self voter f d) = modules_configs d.
Proof. intros Hf. unfold clear_if_own. by case_decide. Qed.

Lemma matching_module_votes_all votes k v peer_set :
  length (matching_module_votes votes k v peer_set) = length peer_set →
  ∀ i, i ∈ peer_set → ∃ vi, votes !! i = Some (k, vi) ∧
    ConsensusVersion.major vi = ConsensusVersion.major v ∧ vi ∈ matching_module_votes votes k v peer_set.
Proof.
  assert (∀ l, length (matching_module_votes votes k v l) ≤ length l) as Hle.
  { intros l. induction l as [|i l IH]; simpl; [lia|]. repeat case_match; simpl; lia. }
  induction peer_set as [|p l IH]; simpl; [by intros _ i ?%not_elem_of_nil|].
  destruct (votes !! p) as [[k' v']|] eqn:Hp; [|intros Hl; specialize (Hle l); simpl in Hl; lia].
  case_decide as Hd; [|intros Hl; specialize (Hle l); simpl in Hl; lia]. destruct Hd as [-> Hm].
  simpl. intros [= Hl] i [->|Hi]%elem_of_cons.
  - exists v'. split_and!; [done|done|left].
  - destruct (IH Hl i Hi) as (vi & ? & ? & ?). exists vi. split_and!; [done|done|by right].
Qed.

Lemma min_minor_le l m v : min_minor l = Some m → v ∈ l → (m ≤ ConsensusVersion.minor v)%N.
Proof.
  unfold min_minor. destruct l as [|v0 l]; [done|]. simpl. intros [= <-].
  assert (∀ ms a, (foldl N.min a ms ≤ a)%N ∧ ∀ x, x ∈ ms → (foldl N.min a ms ≤ x)%N) as Hf.
  { intros ms. induction ms as [|y ms IH]; intros a; simpl; [split; [lia|by intros x ?%not_elem_of_nil]|].
    destruct (IH (N.min a y)) as [H1 H2]. split; [lia|]. intros x [->|Hx]%elem_of_cons; [lia|by apply H2]. }
  intros [->|Hv]%elem_of_cons; [apply (proj1 (Hf _ _))|].
  apply (proj2 (Hf _ _)), list_elem_of_fmap. by exists v.
Qed.

Inductive ConfigsChange voter peer_set (c : ConsensusCtrlCitem) d d' (effects : list CItemEffect) : Prop :=
  | ConfigsKept : modules_configs d' = modules_configs d →
      ConfigsChange voter peer_set c d d' effects
  | ConfigsUpgraded q d1 : modules_configs d' = upgraded_configs q d1 →
      modules_configs d1 = modules_configs d → modules_versions_votes d1 = modules_versions_votes d' →
      (q = peer_set ∨ q = peers_of d') → (∀ e, e ∈ upgrade_effects q d1 → e ∈ effects) →
      ConfigsChange voter peer_set c d d' effects
  | ConfigAdded k v id m : c = VoteAddModule k v → modules_configs d !! id = None →
      modules_configs d' = <[id := ModuleConfig.mk k (ConsensusVersion.mk (ConsensusVersion.major v) m)]>
                             (modules_configs d) →
      is_Some (modules_inits self !! k) →
      (is_singleton self k = true → kind_exists k d = false) →
      (∀ i, i ∈ peer_set → ∃ vi, <[voter := (k, v)]> (add_module_votes d) !! i = Some (k, vi) ∧
         ConsensusVersion.major vi = ConsensusVersion.major v ∧ (m ≤ ConsensusVersion.minor vi)%N) →
      effects = [effect_encode (MkAddModuleEffect k id (ConsensusVersion.mk (ConsensusVersion.major v) m))] →
      ConfigsChange voter peer_set c d d' effects.

Lemma ctrl_step_configs voter peer_set c d effects d' :
  ctrl_step self voter peer_set c d = Ok (effects, d') → ConfigsChange voter peer_set c d d' effects.
Proof.
  destruct c as [p|p|k v|id minor]; simpl.
  - unfold add_peer_step. case_bool_decide; [done|]. intros Hs%to_num_peers_bind.
    apply ConfigsKept. destruct (reaches_threshold _ _ _); injection Hs as <- <-; simpl;
      by rewrite clear_if_own_configs.
  - unfold remove_peer_step. case_bool_decide; [|done]. case_bool_decide; [done|]. simpl.
    case_decide; [intros [= <- <-]; by apply ConfigsKept|]. intros Hs%to_num_peers_bind.
    destruct (reaches_threshold _ _ _); injection Hs as <- <-.
    + match goal with |- ConfigsChange _ _ _ _ (set_modules_configs (upgraded_configs ?q ?d1) _) _ =>
        apply (ConfigsUpgraded _ _ _ _ _ _ q d1); try done end.
      * simpl. by rewrite clear_if_own_configs.
      * by right.
      * intros e He. by do 2 right.
    + apply ConfigsKept. by rewrite clear_if_own_configs.
  - unfold add_module_step. destruct (modules_inits self !! k) as [init|] eqn:Hinit; [|done].
    destruct (singleton init && kind_exists k d) eqn:Hs; [done|].
    case_decide as Hlen; [|intros [= <- <-]; apply ConfigsKept; by rewrite clear_if_own_configs].
    destruct (min_minor _) as [m|] eqn:Hm; simpl; [|done].
    destruct (new_module_id d) as [id| |] eqn:Hid; simpl; [|done..]. intros [= <- <-].
    eapply (ConfigAdded _ _ _ _ _ _ k v id m); try done.
    + by eapply find_module_id_fresh.
    + unfold is_singleton. rewrite Hinit. intros Hsi. by rewrite Hsi in Hs.
    + intros i Hi. destruct (matching_module_votes_all _ _ _ _ Hlen i Hi) as (vi & Hv & Hmaj & Hin).
      exists vi. split_and!; [done|done|]. by eapply min_minor_le.
  - unfold module_version_step. case_bool_decide; [|done]. simpl.
    destruct (modules_configs d !! id); [|done]. intros [= <- <-].
    match goal with |- ConfigsChange _ _ _ _ (set_modules_configs (upgraded_configs ?q ?d1) _) _ =>
      apply (ConfigsUpgraded _ _ _ _ _ _ q d1); try done end.
    + by rewrite clear_if_own_configs.
    + by left.
Qed.

(** An upgrade of a configuration keeps its kind and major version and does
    not lower the minor version. *)
Lemma upgraded_spec q d id c :
  ModuleConfig.kind (upgraded q d id c) = ModuleConfig.kind c ∧
  ConsensusVersion.major (ModuleConfig.version (upgraded q d id c)) = ConsensusVersion.major (ModuleConfig.version c) ∧
  (ConsensusVersion.minor (ModuleConfig.version c) ≤ ConsensusVersion.minor (ModuleConfig.version (upgraded q d id c)))%N ∧
  (upgraded q d id c = c ∨
   ∀ i, i ∈ q → (ConsensusVersion.minor (ModuleConfig.version (upgraded q d id c)) ≤
                 voted_minor (modules_versions_votes d) id i)%N).
Proof.
  unfold upgraded. destruct (min_minor_version _ _ _) as [m|] eqn:Hm; [|by split_and!; [..|left]].
  destruct (_ <? m)%N eqn:Hlt; [|by split_and!; [..|left]]. apply N.ltb_lt in Hlt. simpl.
  split_and!; [done|done|lia|]. right. by apply min_minor_version_Some.
Qed.

(** *** Proposals *)
Lemma in_proposals me d c :
  c ∈ proposals_add me d ++ proposals_remove me d ++ proposals_module self me d ++ proposals_versions me d →
  match c with
  | VoteAddPeer p => pending_add_peer_vote d = Some p
  | VoteRemovePeer p => pending_remove_peer_vote d = Some p ∧ remove_peer_votes d !! me ≠ Some p
  | VoteAddModule k v => pending_add_module_vote d = Some (k, v)
  | VoteModuleVersion id m => pending_modules_versions_votes d !! id = Some m
  end.
Proof.
  rewrite !elem_of_app. intros [Hin|[Hin|[Hin|Hin]]].
  - unfold proposals_add in Hin. destruct (pending_add_peer_vote d); [|by apply not_elem_of_nil in Hin].
    case_match; [by apply not_elem_of_nil in Hin|]. by apply list_elem_of_singleton in Hin as ->.
  - unfold proposals_remove in Hin. destruct (pending_remove_peer_vote d); [|by apply not_elem_of_nil in Hin].
    case_match eqn:Hb; [by apply not_elem_of_nil in Hin|]. apply list_elem_of_singleton in Hin as ->.
    split; [done|]. apply orb_false_iff in Hb as [_ Hb]. by apply bool_decide_eq_false in Hb.
  - unfold proposals_module in Hin. destruct (pending_add_module_vote d) as [[k v]|]; [|by apply not_elem_of_nil in Hin].
    repeat case_match; try (by apply not_elem_of_nil in Hin); by apply list_elem_of_singleton in Hin as [= -> ->].
  - unfold proposals_versions in Hin. apply list_elem_of_omap in Hin as ([id m] & Hin%entries_elem & Hc).
    simpl in Hc. case_decide; [done|]. by injection Hc as <-.
Qed.

(** After an item of our own, its pending vote is gone, or recorded already. *)
Lemma own_item_settled me peer_set c d effects d' :
  peer_pubkey self = Some me → ctrl_step self me peer_set c d = Ok (effects, d') → c ∉ proposals_of self d'.
Proof.
  intros Hme Hs Hin. unfold proposals_of in Hin. rewrite Hme in Hin. apply in_proposals in Hin.
  assert (∀ f d0, clear_if_own self me f d0 = f d0) as Hclear.
  { intros f d0. unfold clear_if_own. by rewrite decide_True. }
  destruct c as [p|p|k v|id minor]; simpl in Hs.
  - unfold add_peer_step in Hs. rewrite Hclear in Hs. case_bool_decide; [done|].
    apply to_num_peers_bind in Hs. by destruct (reaches_threshold _ _ _); injection Hs as <- <-.
  - destruct Hin as [Hpend Hne]. unfold remove_peer_step in Hs. rewrite Hclear in Hs.
    case_bool_decide; [|done]. case_bool_decide; [done|]. simpl in Hs.
    case_decide; [by injection Hs as <- <-|]. apply to_num_peers_bind in Hs.
    by destruct (reaches_threshold _ _ _); injection Hs as <- <-.
  - unfold add_module_step in Hs. rewrite Hclear in Hs. destruct (modules_inits self !! k); [|done].
    case_match; [done|]. case_decide; [|by injection Hs as <- <-].
    destruct (min_minor _); [|done]. simpl in Hs. destruct (new_module_id d); [|done..]. by injection Hs as <- <-.
  - unfold module_version_step in Hs. case_bool_decide; [|done]. simpl in Hs.
    destruct (modules_configs d !! id); [|done]. rewrite Hclear in Hs. injection Hs as <- <-. simpl in Hin.
    by rewrite lookup_delete_eq in Hin.
Qed.
End Lemmas.

(** ** Theorems *)

(** C26: the handlers of consensus items implement [ctrl_step].  For a voter of the
    peer set, a decoded item is processed exactly as [ctrl_step] says: no table
    is opened twice, an error or a panic leaves the tables as they were, and
    after a success the channel holds the items to propose next.  An item that
    does not decode is an error. *)
Theorem process_citem_refines `{CtrlCodecs} (self : ConsensusCtrlModule) (round : BlockRound)
    (voter : PeerPubkey) (peer_set : list PeerPubkey) (item : CItemRaw) (d : CtrlDb) (w : list CItemRaw) :
  voter ∈ peer_set →
  ctrl_write (process_citem self round voter peer_set item) (d, w) =
  match codec_decode item with
  | Some c =>
      match ctrl_step self voter peer_set c d with
      | Ok (effects, d') => (Ok effects, (d', encode_to_raw <$> proposals_of self d'))
      | Err e => (Err e, (d, w))
      | Panic why => (Panic why, (d, w))
      end
  | None => (Err "Failed to decode CoreConsensusCitem", (d, w))
  end.
Proof. apply process_citem_write. Qed.

(** C24: the set of voting peers changes only by a quorum.  When a processed item
    changes the [peers] table, it is a vote to add or to remove one peer that
    [threshold] of the effective peers have voted for with it; the table gains or
    loses exactly that peer and is not empty after a removal; and the effects tell
    the new set, which is the sorted table.  Otherwise no effect announces new
    consensus parameters. *)
Theorem peers_change_by_quorum `{CtrlCodecs} (self : ConsensusCtrlModule) (round : BlockRound)
    (voter : PeerPubkey) (peer_set : list PeerPubkey) (item : CItemRaw) (c : ConsensusCtrlCitem)
    (d d' : CtrlDb) (w w' : list CItemRaw) (effects : list CItemEffect) :
  voter ∈ peer_set → codec_decode item = Some c →
  ctrl_write (process_citem self round voter peer_set item) (d, w) = (Ok effects, (d', w')) →
  (peers d' = peers d ∧ ∀ e, e ∈ effects → effect_id e ≠ EFFECT_ID ConsensusParamsChange) ∨
  ∃ p votes rest,
    ((c = VoteAddPeer p ∧ peers d !! p = None ∧ peers d' = <[p := ()]> (peers d) ∧
      votes = <[voter := p]> (add_peer_votes d)) ∨
     (c = VoteRemovePeer p ∧ peers d !! p = Some () ∧ peers d' = delete p (peers d) ∧ peers d' ≠ ∅ ∧
      votes = <[voter := p]> (remove_peer_votes d))) ∧
    (NumPeers.threshold (N.of_nat (length peer_set)) ≤ N.of_nat (votes_for votes p peer_set))%N ∧
    PeerSet.wf (peers_of d') ∧ (∀ i, i ∈ peers_of d' ↔ peers d' !! i = Some ()) ∧
    effects !! 1%nat = Some (effect_encode (MkConsensusParamsChange (peers_of d'))) ∧
    effects = take 2 effects ++ rest ∧
    (∀ e, e ∈ rest → effect_id e ≠ EFFECT_ID ConsensusParamsChange).
Proof.
  intros Hin Hdec. rewrite process_citem_write, Hdec by done.
  destruct (ctrl_step self voter peer_set c d) as [[es d1]| |] eqn:Hs; [|done..]. intros [= -> -> <-].
  destruct (ctrl_step_peers _ _ _ _ _ _ _ Hs) as [Heq Hno|p -> Hp Heq Ht He|p ups -> Hp Heq Ht Hne He Hups].
  - by left.
  - right. exists p, (<[voter := p]> (add_peer_votes d)), []. apply N.leb_le in Ht.
    split; [left; done|]. split; [done|]. split; [apply peers_of_wf|]. split; [apply elem_of_peers_of|].
    rewrite He. split_and!; [done|done|by intros e ?%not_elem_of_nil].
  - right. exists p, (<[voter := p]> (remove_peer_votes d)), ups. apply N.leb_le in Ht.
    split; [right; done|]. split; [done|]. split; [apply peers_of_wf|]. split; [apply elem_of_peers_of|].
    rewrite He. split_and!; [done|done|]. by intros e ->%Hups.
Qed.

(** C27: the configurations of modules evolve safely.  A configured module stays
    configured with its kind and major version, its minor version is never
    lowered, and it is raised only as far as every peer of the effective or of
    the new set has voted for, with an effect for it.  A new configuration comes
    from a vote to add its kind that every peer has cast with that major version
    and at least that minor version, for a kind the software knows, and never a
    second time for a singleton kind. *)
Theorem module_configs_evolve `{CtrlCodecs} (self : ConsensusCtrlModule) (round : BlockRound)
    (voter : PeerPubkey) (peer_set : list PeerPubkey) (item : CItemRaw) (c : ConsensusCtrlCitem)
    (d d' : CtrlDb) (w w' : list CItemRaw) (effects : list CItemEffect) :
  voter ∈ peer_set → codec_decode item = Some c →
  ctrl_write (process_citem self round voter peer_set item) (d, w) = (Ok effects, (d', w')) →
  (∀ id cfg, modules_configs d !! id = Some cfg → ∃ cfg', modules_configs d' !! id = Some cfg' ∧
     let v := ModuleConfig.version cfg in let v' := ModuleConfig.version cfg' in
     ModuleConfig.kind cfg' = ModuleConfig.kind cfg ∧
     ConsensusVersion.major v' = ConsensusVersion.major v ∧
     (ConsensusVersion.minor v ≤ ConsensusVersion.minor v')%N ∧
     (cfg' = cfg ∨
      effect_encode (MkModuleVersionUpgradeEffect id v v') ∈ effects ∧
      ∃ q, (q = peer_set ∨ q = peers_of d') ∧
        ∀ i, i ∈ q → (ConsensusVersion.minor v' ≤ voted_minor (modules_versions_votes d') id i)%N)) ∧
  (∀ id cfg', modules_configs d !! id = None → modules_configs d' !! id = Some cfg' →
     let k := ModuleConfig.kind cfg' in let v' := ModuleConfig.version cfg' in
     is_Some (modules_inits self !! k) ∧ (is_singleton self k = true → kind_exists k d = false) ∧
     effects = [effect_encode (MkAddModuleEffect k id v')] ∧
     ∃ v, c = VoteAddModule k v ∧
       ∀ i, i ∈ peer_set → ∃ vi, <[voter := (k, v)]> (add_module_votes d) !! i = Some (k, vi) ∧
         ConsensusVersion.major vi = ConsensusVersion.major v' ∧
         (ConsensusVersion.minor v' ≤ ConsensusVersion.minor vi)%N).
Proof.
  intros Hin Hdec. rewrite process_citem_write, Hdec by done.
  destruct (ctrl_step self voter peer_set c d) as [[es d1]| |] eqn:Hs; [|done..]. intros [= -> -> <-].
  destruct (ctrl_step_configs _ _ _ _ _ _ _ Hs)
    as [Heq|q d0 Heq H0 Hv Hq He|k v id0 m -> Hfresh Heq Hinit Hsing Hall He].
  - rewrite Heq. split; [|by intros id cfg' ->]. intros id cfg Hid. exists cfg. cbv zeta. split_and!; try done. by left.
  - assert (∀ id, modules_configs d' !! id = upgraded q d0 id <$> modules_configs d !! id) as Hup.
    { intros id. by rewrite Heq, upgraded_configs_lookup, H0. }
    split; [|intros id cfg' Hid; by rewrite Hup, Hid].
    intros id cfg Hid. exists (upgraded q d0 id cfg). rewrite Hup, Hid. split; [done|].
    destruct (upgraded_spec q d0 id cfg) as (Hk & Hmaj & Hmin & Hvote). split_and!; [done..|].
    destruct (decide (upgraded q d0 id cfg = cfg)) as [|Hne]; [by left|right].
    destruct Hvote as [|Hvote]; [done|]. split; [|exists q; by rewrite <-Hv].
    apply He. unfold upgrade_effects. apply list_elem_of_fmap.
    exists (id, cfg, ModuleConfig.version (upgraded q d0 id cfg)). split; [done|].
    apply elem_of_collect_upgrades. rewrite H0. split_and!; [done| |done].
    rewrite <-Hk. by destruct (upgraded q d0 id cfg).
  - rewrite Heq. split.
    + intros id cfg Hid. exists cfg. rewrite lookup_insert_ne by congruence. cbv zeta. split_and!; try done. by left.
    + intros id cfg' Hid [[<- <-]|[_ Hid']]%lookup_insert_Some; [|congruence]. cbn.
      split_and!; [done..|]. exists v. split; [done|]. intros i Hi.
      destruct (Hall i Hi) as (vi & ? & ? & ?). by exists vi.
Qed.

(** C39: processing an item never crashes: with at most 255 effective peers and
    fewer than 2^32-1 modules, an item of a voter of the peer set is either
    processed or refused with an error that leaves everything as it was. *)
Theorem process_citem_total `{CtrlCodecs} (self : ConsensusCtrlModule) (round : BlockRound)
    (voter : PeerPubkey) (peer_set : list PeerPubkey) (item : CItemRaw) (d : CtrlDb) (w : list CItemRaw) :
  voter ∈ peer_set → length peer_set ≤ 255 →
  (N.of_nat (size (modules_configs d)) < u32_max)%N →
  match ctrl_write (process_citem self round voter peer_set item) (d, w) with
  | (Ok _, (d', w')) => w' = encode_to_raw <$> proposals_of self d'
  | (Err _, st') => st' = (d, w)
  | (Panic _, _) => False
  end.
Proof.
  intros Hin Hlen Hsz. rewrite process_citem_write by done. destruct (codec_decode item) as [c|]; [|done].
  assert (∀ why, ctrl_step self voter peer_set c d ≠ Panic why) as Hnp.
  { intros why. destruct c as [p|p|k v|id minor]; simpl.
    - unfold add_peer_step. rewrite NumPeers.to_num_peers_ok by done. simpl. by repeat case_match.
    - unfold remove_peer_step. rewrite NumPeers.to_num_peers_ok by done. simpl. by repeat case_match.
    - unfold add_module_step. destruct (new_module_id_total d Hsz) as [id Hid]. rewrite Hid.
      destruct (modules_inits self !! k); [|done]. case_match; [done|]. case_decide as Hl; [|done].
      destruct (matching_module_votes _ _ _ _) as [|v0 vs]; [|done].
      destruct peer_set; [by apply not_elem_of_nil in Hin|done].
    - unfold module_version_step. by repeat case_match. }
  destruct (ctrl_step self voter peer_set c d) as [[]| |why]; [done..|]. by destruct (Hnp why).
Qed.

(** The tables that are the same on every peer. *)
Definition shared_tables (d : CtrlDb) :=
  (peers d, add_peer_votes d, remove_peer_votes d, modules_configs d, modules_versions_votes d,
   add_module_votes d).
Lemma shared_clear_if_own `{CtrlCodecs} self voter f d :
  (∀ d, shared_tables (f d) = shared_tables d) → shared_tables (clear_if_own self voter f d) = shared_tables d.
Proof. intros Hf. unfold clear_if_own. by case_decide. Qed.

Local Arguments find_module_id : simpl never.

(** The specification, on two peers that hold the same shared tables. *)
Lemma ctrl_step_deterministic `{CtrlCodecs} (self1 self2 : ConsensusCtrlModule) (voter : PeerPubkey)
    (peer_set : list PeerPubkey) (c : ConsensusCtrlCitem) (d1 d2 : CtrlDb) :
  modules_inits self1 = modules_inits self2 → shared_tables d1 = shared_tables d2 →
  match ctrl_step self1 voter peer_set c d1, ctrl_step self2 voter peer_set c d2 with
  | Ok (e1, d1'), Ok (e2, d2') => e1 = e2 ∧ shared_tables d1' = shared_tables d2'
  | Err e1, Err e2 => e1 = e2
  | Panic p1, Panic p2 => p1 = p2
  | _, _ => False
  end.
Proof.
  intros Hinits Hsh. destruct d1, d2. injection Hsh as -> -> -> -> -> ->.
  destruct c as [p|p|k v|id minor]; simpl.
  - unfold add_peer_step, clear_if_own, peers_of. cbn.
    destruct (bool_decide _); [done|]. destruct (NumPeers.to_num_peers _); [|done..]. cbn.
    destruct (reaches_threshold _ _ _); repeat case_decide; done.
  - unfold remove_peer_step, clear_if_own, peers_of. cbn.
    destruct (bool_decide _); [|done]. destruct (bool_decide _); [done|]. cbn.
    destruct (decide (_ = Some p)); [done|]. destruct (NumPeers.to_num_peers _); [|done..]. cbn.
    destruct (reaches_threshold _ _ _); repeat case_decide; done.
  - unfold add_module_step, clear_if_own, kind_exists, new_module_id. rewrite Hinits. cbn.
    destruct (modules_inits self2 !! k); [|done]. destruct (_ && _); [done|].
    destruct (decide (length _ = _)); [|repeat case_decide; done].
    destruct (min_minor _); [|done]. cbn.
    destruct (find_module_id _ _ _); [|done..]. cbn.
    repeat case_decide; done.
  - unfold module_version_step, clear_if_own. cbn. destruct (bool_decide _); [|done]. cbn.
    destruct (_ !! id); [|done]. repeat case_decide; done.
Qed.

(** Peers stay in agreement.  Two peers that run the same modules and hold the
    same shared tables, whatever their own keys and pending votes are, come to
    the same verdict about an item, with the same effects and the same shared
    tables afterwards. *)
Theorem process_citem_deterministic `{CtrlCodecs} (self1 self2 : ConsensusCtrlModule) (round : BlockRound)
    (voter : PeerPubkey) (peer_set : list PeerPubkey) (item : CItemRaw) (d1 d2 : CtrlDb)
    (w1 w2 : list CItemRaw) :
  voter ∈ peer_set → modules_inits self1 = modules_inits self2 → shared_tables d1 = shared_tables d2 →
  let r1 := ctrl_write (process_citem self1 round voter peer_set item) (d1, w1) in
  let r2 := ctrl_write (process_citem self2 round voter peer_set item) (d2, w2) in
  r1.1 = r2.1 ∧ shared_tables r1.2.1 = shared_tables r2.2.1.
Proof.
  intros Hin Hinits Hsh. cbv zeta. rewrite !process_citem_write by done.
  destruct (codec_decode item) as [c|]; [|done].
  pose proof (ctrl_step_deterministic self1 self2 voter peer_set c d1 d2 Hinits Hsh) as Hr.
  destruct (ctrl_step self1 _ _ _ _) as [[]| |], (ctrl_step self2 _ _ _ _) as [[]| |]; try done;
    [destruct Hr as [-> ?]|subst..]; done.
Qed.

(** A pending vote of our own is proposed until it is processed.  After a
    request to vote for a new peer that succeeds, the vote is among the proposed
    items unless the peer is a member or our recorded vote is that already; and
    when an item of our own has been processed, it is not proposed again. *)
Theorem own_votes_proposed_until_processed `{CtrlCodecs} (self : ConsensusCtrlModule) (me : PeerPubkey)
    (round : BlockRound) (peer_set : list PeerPubkey) (d : CtrlDb) (w : list CItemRaw) :
  CtrlCodecLaws → peer_pubkey self = Some me → me ∈ peer_set →
  (∀ p, match set_pending_add_peer_vote self p (d, w) with
        | (Ok _, (d', w')) =>
            encode_to_raw (VoteAddPeer p) ∈ w' ∨ peers d !! p = Some () ∨ add_peer_votes d !! me = Some p
        | _ => False
        end) ∧
  (∀ c, match ctrl_write (process_citem self round me peer_set (encode_to_raw c)) (d, w) with
        | (Ok _, (d', w')) => encode_to_raw c ∉ w'
        | (_, st') => st' = (d, w)
        end).
Proof.
  intros Hlaws Hme Hin. split.
  - intros p. unfold set_pending_add_peer_vote. rewrite Hme. simpl.
    destruct (peers d !! p) as [[]|] eqn:Hp; [by right; left|].
    unfold write_then_refresh, refresh_consensus_proposals, ctrl_write, module_write,
      write_with_expect_falliable, write_with_inner_falliable. simpl.
    unfold mtx_with_table, module_read, read_with_expect, read_with_inner_falliable. simpl.
    rewrite refresh_read. unfold proposals_of. rewrite Hme.
    destruct (decide (add_peer_votes d !! me = Some p)) as [|Hv]; [by right; right|left].
    apply list_elem_of_fmap. exists (VoteAddPeer p). split; [done|]. apply elem_of_app. left.
    unfold proposals_add. simpl. rewrite (bool_decide_eq_false_2 (add_peer_votes d !! me = Some p)) by done.
    rewrite bool_decide_eq_false_2; [left|]. rewrite (peers_of_ext _ d) by done.
    rewrite elem_of_peers_of, Hp. done.
  - intros c. rewrite process_citem_write by done. unfold encode_to_raw at 1. rewrite codec_roundtrip.
    destruct (ctrl_step self me peer_set c d) as [[es d']| |] eqn:Hs; [|done..].
    rewrite list_elem_of_fmap. intros (c' & Henc & Hc').
    assert (c' = c) as ->.
    { apply (f_equal (codec_decode (T:=ConsensusCtrlCitem))) in Henc. unfold encode_to_raw in Henc.
      rewrite !codec_roundtrip in Henc. by injection Henc. }
    clear Henc. by apply (own_item_settled self me peer_set c d es d').
Qed.

(** Bootstrapping works exactly once.  On tables that were not bootstrapped it
    records the version, the module's own configuration and the peers, so that
    the set of peers read back is the given one, sorted and without duplicates;
    a second bootstrap panics and changes nothing. *)
Theorem bootstrap_once `{CtrlCodecs} (id : ModuleId) (v : ConsensusVersion.t) (peer_set : list PeerPubkey)
    (d : CtrlDb) (w : list CItemRaw) :
  match ctrl_write (E:=Empty_set) (bootstrap_consensus id v peer_set) (d, w) with
  | (Ok config, (d', w')) =>
      self_version d = None ∧ config = ModuleConfig.mk CTRL_KIND v ∧ w' = w ∧
      modules_configs d' = <[id := config]> (modules_configs d) ∧
      ctrl_write (E:=Empty_set) is_bootstrapped (d', w') = (Ok true, (d', w')) ∧
      (∀ s, get_peer_set (d', w') = Ok s →
         PeerSet.wf s ∧ ∀ p, p ∈ s ↔ p ∈ peer_set ∨ peers d !! p = Some ())
  | (Err _, _) => False
  | (Panic _, st') => st' = (d, w) ∧ is_Some (self_version d)
  end.
Proof.
  assert (∀ l (t : gmap N ()) p,
    foldl (λ t peer, <[peer := ()]> t) t l !! p = Some () ↔ p ∈ l ∨ t !! p = Some ()) as Hfold.
  { intros l. induction l as [|x l IH]; intros t p; simpl.
    - rewrite elem_of_nil. tauto.
    - rewrite IH, elem_of_cons, lookup_insert_Some. split; [|destruct (decide (x = p)); naive_solver].
      intros [?|[[-> _]|[_ ?]]]; auto. }
  unfold ctrl_write, module_write, write_with_expect_falliable, write_with_inner_falliable, bootstrap_consensus,
    mbind, mtx_bind, tx_bind. simpl. unfold mtx_with_table. simpl.
  destruct (self_version d) as [v0|] eqn:Hv; simpl; [split; [done|by eexists]|].
  split_and!; [done..|]. intros s [= <-]. split; [apply peers_of_wf|].
  intros p. rewrite elem_of_peers_of. simpl. apply Hfold.
Qed.

(** ** Concrete runs *)
Module ToyCtrl.
Definition enc_version (v : ConsensusVersion.t) : list N := [ConsensusVersion.major v; ConsensusVersion.minor v].
Definition enc_citem (c : ConsensusCtrlCitem) : list N :=
  match c with
  | VoteAddPeer p => [0; p]
  | VoteRemovePeer p => [1; p]
  | VoteAddModule k v => 2 :: k :: enc_version v
  | VoteModuleVersion id m => [3; id; m]
  end%N.
Definition dec_citem (l : list N) : option ConsensusCtrlCitem :=
  match l with
  | [0; p] => Some (VoteAddPeer p)
  | [1; p] => Some (VoteRemovePeer p)
  | [2; k; ma; mi] => Some (VoteAddModule k (ConsensusVersion.mk ma mi))
  | [3; id; m] => Some (VoteModuleVersion id m)
  | _ => None
  end%N.
Definition codecs : CtrlCodecs := {|
  citem_codec := {| codec_encode := enc_citem; codec_decode := dec_citem |};
  add_peer_codec := {|
    codec_encode := λ e, [add_peer e];
    codec_decode := λ l, match l with [p] => Some (MkAddPeerEffect p) | _ => None end |};
  remove_peer_codec := {|
    codec_encode := λ e, [remove_peer e];
    codec_decode := λ l, match l with [p] => Some (MkRemovePeerEffect p) | _ => None end |};
  params_change_codec := {|
    codec_encode := change_peer_set;
    codec_decode := λ l, Some (MkConsensusParamsChange l) |};
  version_upgrade_codec := {|
    codec_encode := λ e, upgrade_module_id e :: enc_version (old_version e) ++ enc_version (new_version e);
    codec_decode := λ l, match l with
      | [id; a; b; c; d] => Some (MkModuleVersionUpgradeEffect id (ConsensusVersion.mk a b) (ConsensusVersion.mk c d))
      | _ => None end |};
  add_module_codec := {|
    codec_encode := λ e, [add_module_kind e; add_module_id e] ++ enc_version (add_consensus_version e);
    codec_decode := λ l, match l with
      | [k; id; a; b] => Some (MkAddModuleEffect k id (ConsensusVersion.mk a b))
      | _ => None end |};
|}.
Lemma laws : @CtrlCodecLaws codecs.
Proof. split; split; intros []; repeat match goal with v : ConsensusVersion.t |- _ => destruct v end; done. Qed.
End ToyCtrl.

Section CtrlWitnesses.
Local Existing Instance ToyCtrl.codecs.
Open Scope N_scope.

(** Four peers; three of them vote to add the peer 9. *)
Definition ctrl_self : ConsensusCtrlModule :=
  MkCtrlModule (ConsensusVersion.mk 0 1) (Some 3)
    (<[1 := MkModuleInit 1 false {[0 := 2]}]> {[0 := ctrl_module_init]}).
Definition ctrl_other : ConsensusCtrlModule :=
  MkCtrlModule (ConsensusVersion.mk 0 1) None (modules_inits ctrl_self).
Definition ctrl_booted : CtrlDb * list CItemRaw :=
  (ctrl_write (E:=Empty_set) (bootstrap_consensus 0 (ConsensusVersion.mk 0 0) [1; 2; 3; 4]) (empty_ctrl, [])).2.
Definition run_citems (l : list (PeerPubkey * ConsensusCtrlCitem)) (st : CtrlDb * list CItemRaw) :=
  foldl (λ st x, (ctrl_write (process_citem ctrl_self 0 x.1 [1; 2; 3; 4] (encode_to_raw x.2)) st).2) st l.
Definition two_votes : CtrlDb * list CItemRaw := run_citems [(1, VoteAddPeer 9); (2, VoteAddPeer 9)] ctrl_booted.
Definition last_vote :=
  ctrl_write (process_citem ctrl_self 0 3 [1; 2; 3; 4] (encode_to_raw (VoteAddPeer 9))) two_votes.

Lemma process_citem_refines_witness :
  last_vote.1 = Ok [effect_encode (MkAddPeerEffect 9); effect_encode (MkConsensusParamsChange [1; 2; 3; 4; 9])].
Proof.
  unfold last_vote. rewrite (surjective_pairing two_votes).
  rewrite (process_citem_refines ctrl_self 0 3 [1; 2; 3; 4] (encode_to_raw (VoteAddPeer 9)) two_votes.1 two_votes.2)
    by (apply (bool_decide_unpack _); vm_compute; exact I).
  vm_compute. reflexivity.
Defined.

Lemma peers_change_by_quorum_witness :
  ∃ p votes, p = 9 ∧ (NumPeers.threshold 4 ≤ N.of_nat (votes_for votes p [1; 2; 3; 4])).
Proof.
  destruct (peers_change_by_quorum ctrl_self 0 3 [1; 2; 3; 4] (encode_to_raw (VoteAddPeer 9)) (VoteAddPeer 9)
    two_votes.1 last_vote.2.1 two_votes.2 last_vote.2.2
    [effect_encode (MkAddPeerEffect 9); effect_encode (MkConsensusParamsChange [1; 2; 3; 4; 9])])
    as [[Heq _]|(p & votes & _ & Hc & Ht & _)].
  - apply (bool_decide_unpack _). vm_compute. exact I.
  - reflexivity.
  - vm_compute. reflexivity.
  - exfalso. apply (f_equal size) in Heq. vm_compute in Heq. discriminate.
  - exists p, votes. split; [|exact Ht]. destruct Hc as [([=] & _)|([=] & _)]. done.
Defined.

(** All peers vote for the module of kind 1, then for its minor version 2. *)
Definition with_module : CtrlDb * list CItemRaw :=
  run_citems ((λ i, (i, VoteAddModule 1 (ConsensusVersion.mk 0 i))) <$> [1; 2; 3; 4]) ctrl_booted.
Definition three_versions : CtrlDb * list CItemRaw :=
  run_citems ((λ i, (i, VoteModuleVersion 1 2)) <$> [1; 2; 4]) with_module.
Definition last_version :=
  ctrl_write (process_citem ctrl_self 0 3 [1; 2; 3; 4] (encode_to_raw (VoteModuleVersion 1 2))) three_versions.
Definition upgrade_1_2 : CItemEffect :=
  effect_encode (MkModuleVersionUpgradeEffect 1 (ConsensusVersion.mk 0 1) (ConsensusVersion.mk 0 2)).

Lemma module_configs_evolve_witness :
  modules_configs three_versions.1 !! 1 = Some (ModuleConfig.mk 1 (ConsensusVersion.mk 0 1)) ∧
  modules_configs last_version.2.1 !! 1 = Some (ModuleConfig.mk 1 (ConsensusVersion.mk 0 2)) ∧
  ∃ cfg', modules_configs last_version.2.1 !! 1 = Some cfg' ∧ ModuleConfig.kind cfg' = 1.
Proof.
  split; [vm_compute; reflexivity|]. split; [vm_compute; reflexivity|].
  destruct (module_configs_evolve ctrl_self 0 3 [1; 2; 3; 4] (encode_to_raw (VoteModuleVersion 1 2))
    (VoteModuleVersion 1 2) three_versions.1 last_version.2.1 three_versions.2 last_version.2.2 [upgrade_1_2]) as [Hup _].
  - apply (bool_decide_unpack _). vm_compute. exact I.
  - reflexivity.
  - vm_compute. reflexivity.
  - destruct (Hup 1 (ModuleConfig.mk 1 (ConsensusVersion.mk 0 1))) as (cfg' & H1 & H2 & _); [vm_compute; reflexivity|].
    exists cfg'. split; [exact H1|exact H2].
Defined.

Lemma process_citem_total_witness :
  match ctrl_write (process_citem ctrl_self 0 3 [1; 2; 3; 4] (encode_to_raw (VoteRemovePeer 9))) (two_votes.1, []) with
  | (Err e, st') => e = "Peer to remove is not in the latest peer set" ∧ st' = (two_votes.1, [])
  | _ => False
  end.
Proof.
  pose proof (process_citem_total ctrl_self 0 3 [1; 2; 3; 4] (encode_to_raw (VoteRemovePeer 9)) two_votes.1 []) as Ht.
  specialize (Ht ltac:(apply (bool_decide_unpack _); vm_compute; exact I) ltac:(simpl; lia) ltac:(vm_compute; reflexivity)).
  destruct (ctrl_write _ _) as [[a|e|why] st'] eqn:He; [vm_compute in He; discriminate| |exact Ht].
  split; [|exact Ht]. vm_compute in He. congruence.
Defined.

Lemma process_citem_deterministic_witness :
  (ctrl_write (process_citem ctrl_other 0 3 [1; 2; 3; 4] (encode_to_raw (VoteAddPeer 9)))
     (set_pending_add_peer_vote_tbl (Some 7) two_votes.1, [])).1 = last_vote.1.
Proof.
  unfold last_vote. rewrite (surjective_pairing two_votes).
  apply (process_citem_deterministic ctrl_other ctrl_self 0 3 [1; 2; 3; 4] (encode_to_raw (VoteAddPeer 9))
    (set_pending_add_peer_vote_tbl (Some 7) two_votes.1) two_votes.1 [] two_votes.2).
  - apply (bool_decide_unpack _). vm_compute. exact I.
  - reflexivity.
  - reflexivity.
Defined.

Lemma own_votes_proposed_until_processed_witness :
  encode_to_raw (VoteAddPeer 9) ∈ (set_pending_add_peer_vote ctrl_self 9 (two_votes.1, [])).2.2 ∧
  encode_to_raw (VoteAddPeer 9) ∉ last_vote.2.2.
Proof.
  destruct (own_votes_proposed_until_processed ctrl_self 3 0 [1; 2; 3; 4] two_votes.1 two_votes.2
    ToyCtrl.laws eq_refl) as [_ Hdone]; [apply (bool_decide_unpack _); vm_compute; exact I|].
  split; [apply (bool_decide_unpack _); vm_compute; exact I|].
  specialize (Hdone (VoteAddPeer 9)). rewrite <-(surjective_pairing two_votes) in Hdone. fold last_vote in Hdone.
  assert (match last_vote.1 with Ok _ => true | _ => false end = true) as Hok by (vm_compute; reflexivity).
  destruct last_vote as [[a|e|why] [d' w']]; [exact Hdone|discriminate Hok..].
Defined.
End CtrlWitnesses.

Section BootstrapWitness.
Local Existing Instance ToyCtrl.codecs.
Lemma bootstrap_once_witness :
  match ctrl_write (E:=Empty_set) (bootstrap_consensus 0 (ConsensusVersion.mk 0 0) [3; 1; 3]%N) (empty_ctrl, []) with
  | (Ok config, st') => get_peer_set st' = Ok [1; 3]%N ∧ ModuleConfig.kind config = CTRL_KIND
  | _ => False
  end.
Proof.
  pose proof (bootstrap_once 0 (ConsensusVersion.mk 0 0) [3; 1; 3]%N empty_ctrl []) as Hb.
  destruct (ctrl_write _ _) as [[config|[]|why] [d' w']] eqn:He; [|vm_compute in He; discriminate].
  destruct Hb as (_ & -> & _). split; [|reflexivity]. vm_compute in He. injection He as <- <-.
  vm_compute. reflexivity.
Defined.
End BootstrapWitness.
