(* ===== verification/Meta.v ===== *)
(** * The meta module ([modules/meta/src])

    The peers vote on values for one-byte keys.  A peer votes by proposing a
    value or by approving the vote of another peer; a value that [threshold]
    peers of the peer set vote for becomes the consensus value of the key. *)
From S2P Require Import Prelude Peers Core Db Module Ctrl.

(** ** Data *)
Abbreviation MetaKey := N (only parsing).
Abbreviation MetaValue := (list N) (only parsing).

(** [citem.rs] *)
Inductive MetaCitem :=
  | ProposeValue (key : MetaKey) (value : MetaValue)
  | ApproveVote (key : MetaKey) (peer_pubkey : PeerPubkey).
Global Instance MetaCitem_eq_dec : EqDecision MetaCitem.
Proof. solve_decision. Defined.

(** [meta-effects] *)
Definition META_KIND : ModuleKind := 1.
Record KeyValueConsensusEffect := MkKeyValueConsensusEffect { kv_key : MetaKey; kv_value : MetaValue }.
Global Instance key_value_kind `{Codec KeyValueConsensusEffect} : EffectKind KeyValueConsensusEffect :=
  {| MODULE_KIND := META_KIND; EFFECT_ID := 0 |}.

Class MetaCodecs := {
  meta_citem_codec :: Codec MetaCitem;
  key_value_codec :: Codec KeyValueConsensusEffect;
}.

(** [tables.rs] *)
Record MetaDb := MkMetaDb {
  meta_self_version : option ConsensusVersion.t;
  key_value_votes : gmap (MetaKey * PeerPubkey) MetaValue;
  consensus_values : gmap MetaKey MetaValue;
  pending_proposals : gmap MetaKey MetaValue;
}.
Definition empty_meta : MetaDb := MkMetaDb None ∅ ∅ ∅.
Definition set_meta_self_version x (d : MetaDb) : MetaDb :=
  MkMetaDb x (key_value_votes d) (consensus_values d) (pending_proposals d).
Definition set_key_value_votes x (d : MetaDb) : MetaDb :=
  MkMetaDb (meta_self_version d) x (consensus_values d) (pending_proposals d).
Definition set_consensus_values x (d : MetaDb) : MetaDb :=
  MkMetaDb (meta_self_version d) (key_value_votes d) x (pending_proposals d).
Definition set_pending_proposals x (d : MetaDb) : MetaDb :=
  MkMetaDb (meta_self_version d) (key_value_votes d) (consensus_values d) x.

(** [MetaModule]; the channel of proposed items is state of its own. *)
Record MetaModule := MkMetaModule {
  meta_version : ConsensusVersion.t;
  meta_peer_pubkey : option PeerPubkey;
}.
Inductive MetaHook := MetaSendProposals (proposals : list CItemRaw).
Definition run_meta_hook (_ : list CItemRaw) (h : MetaHook) : list CItemRaw :=
  match h with MetaSendProposals proposals => proposals end.
Abbreviation ZTx := (MTx MetaDb MetaHook Whatever).

(** [PeerPubkey::ZERO], [PeerPubkey::MAX], and the keys of the votes for [key]. *)
Definition PeerPubkey_ZERO : PeerPubkey := 0%N.
Definition PeerPubkey_MAX : PeerPubkey := (256 ^ 32 - 1)%N.
Definition votes_of_key (key : MetaKey) (k : MetaKey * PeerPubkey) : bool :=
  rg_incl (key, PeerPubkey_ZERO) (key, PeerPubkey_MAX) k.

Section Meta.
Context `{MetaCodecs} (self : MetaModule).
Implicit Types (key : MetaKey) (value : MetaValue) (peer_set : list PeerPubkey).

Definition meta_encode_to_raw (c : MetaCitem) : CItemRaw := codec_encode c.

(** The item that a pending proposal asks for: an approval when some peer has
    voted for the value already. *)
Definition propose_item (d : MetaDb) key value : option MetaCitem :=
  let should_propose :=
    match meta_peer_pubkey self with
    | Some peer_pubkey =>
        match key_value_votes d !! (key, peer_pubkey) with
        | Some existing_vote => negb (bool_decide (existing_vote = value))
        | None => true
        end
    | None => true
    end in
  if should_propose then
    let found_matching_peer :=
      head (omap (λ kv, if decide (kv.2 = value) then Some kv.1.2 else None)
              (range (votes_of_key key) (key_value_votes d))) in
    Some match found_matching_peer with
         | Some matching_peer => ApproveVote key matching_peer
         | None => ProposeValue key value
         end
  else None.

Definition meta_refresh_dbtx {M : Type → Type} `{ReadableTransaction MetaDb M} : M (list CItemRaw) :=
  with_table "pending_proposals" (with_table "key_value_votes" (query (λ d,
    omap (λ kv, meta_encode_to_raw <$> propose_item d kv.1 kv.2) (entries (pending_proposals d))))).

Definition process_citem_vote_key_value (voter_pubkey : PeerPubkey) peer_set key value :
    ZTx (list CItemEffect) :=
  with_table "key_value_votes" (
    existing_vote ← query (λ d, key_value_votes d !! (key, voter_pubkey));
    if decide (existing_vote = Some value) then mret []
    else
      _ ← update_tables (λ d, set_key_value_votes (<[(key, voter_pubkey) := value]> (key_value_votes d)) d);
      vote_count ← query (λ d,
        count_if (λ kv, bool_decide (kv.2 = value) && bool_decide (kv.1.2 ∈ peer_set))
          (range (votes_of_key key) (key_value_votes d)));
      num_peers ← tx_lift (NumPeers.to_num_peers peer_set);
      if (NumPeers.threshold num_peers <=? N.of_nat vote_count)%N then
        _ ← with_table "pending_proposals" (update_tables (λ d,
              set_pending_proposals (delete key (pending_proposals d)) d));
        _ ← with_table "consensus_values" (update_tables (λ d,
              set_consensus_values (<[key := value]> (consensus_values d)) d));
        _ ← update_tables (λ d, set_key_value_votes
              (retain_in (λ _, true) (λ k _, negb (bool_decide (k.1 = key)) || negb (bool_decide (k.2 ∈ peer_set)))
                 (key_value_votes d)) d);
        mret [effect_encode (MkKeyValueConsensusEffect key value)]
      else mret []).

(** The table opened in the scrutinee of the [match] is held until its end. *)
Definition process_citem_approve_vote (voter_pubkey : PeerPubkey) peer_set key
    (approved_peer : PeerPubkey) : ZTx (list CItemEffect) :=
  with_table "key_value_votes" (
    approved_value ← query (λ d, key_value_votes d !! (key, approved_peer));
    match approved_value with
    | Some value => process_citem_vote_key_value voter_pubkey peer_set key value
    | None => tx_fail "Invalid peer_pubkey"
    end).

(** [IModule::process_citem] *)
Definition meta_process_citem (round : BlockRound) (peer_pubkey : PeerPubkey) peer_set (citem : CItemRaw) :
    ZTx (list CItemEffect) :=
  _ ← tx_lift (rassert "assertion failed: peer_set.contains(&peer_pubkey)"
        (bool_decide (peer_pubkey ∈ peer_set)));
  citem ← tx_lift match codec_decode citem with
                  | Some c => Ok c
                  | None => Err "Failed to decode CoreConsensusCitem"
                  end;
  res ← match citem with
        | ProposeValue key value => process_citem_vote_key_value peer_pubkey peer_set key value
        | ApproveVote key approved_peer => process_citem_approve_vote peer_pubkey peer_set key approved_peer
        end;
  proposals ← meta_refresh_dbtx;
  _ ← on_commit (MetaSendProposals proposals);
  mret res.

(** *** After the removal of a peer *)

(** The order of [Arc<\[u8\]>]. *)
Fixpoint bytes_le (a b : list N) : bool :=
  match a, b with
  | [], _ => true
  | _ :: _, [] => false
  | x :: a', y :: b' => (x <? y)%N || ((x =? y)%N && bytes_le a' b')
  end.
Global Instance bytes_le_dec : RelDecision (λ a b, bytes_le a b = true) :=
  λ a b, decide (bytes_le a b = true).

(** [value_counts]: the values that peers of the set vote for, in order, each
    with the number of its votes. *)
Definition value_counts (votes : gmap (MetaKey * PeerPubkey) MetaValue) key peer_set : list (MetaValue * nat) :=
  let values := (λ kv, kv.2) <$> filter (λ kv, kv.1.2 ∈ peer_set) (range (votes_of_key key) votes) in
  (λ v, (v, count_if (λ v', bool_decide (v' = v)) values)) <$>
    merge_sort (λ a b, bytes_le a b = true) (remove_dups values).

(** The loop over [value_counts]; it opens tables that are open. *)
Fixpoint record_first_consensus (threshold : N) key peer_set (counts : list (MetaValue * nat)) : ZTx () :=
  match counts with
  | [] => mret ()
  | (value, count) :: counts' =>
      if (threshold <=? N.of_nat count)%N then
        with_table "consensus_values" (
          _ ← update_tables (λ d, set_consensus_values (<[key := value]> (consensus_values d)) d);
          with_table "pending_proposals" (
            _ ← update_tables (λ d, set_pending_proposals (delete key (pending_proposals d)) d);
            with_table "key_value_votes" (update_tables (λ d, set_key_value_votes
              (retain_in (λ _, true) (λ k _, negb (bool_decide (k.1 = key)) || negb (bool_decide (k.2 ∈ peer_set)))
                 (key_value_votes d)) d))))
      else record_first_consensus threshold key peer_set counts'
  end.

Fixpoint recheck_keys peer_set (keys : list MetaKey) : ZTx () :=
  match keys with
  | [] => mret ()
  | key :: keys' =>
      value ← query (λ d, consensus_values d !! key);
      _ ← (if value is Some _ then mret () : ZTx ()
           else
             counts ← query (λ d, value_counts (key_value_votes d) key peer_set);
             num_peers ← tx_lift (NumPeers.to_num_peers peer_set);
             record_first_consensus (NumPeers.threshold num_peers) key peer_set counts);
      recheck_keys peer_set keys'
  end.

(** The keys that have votes: a [BTreeSet]. *)
Definition keys_with_votes (d : MetaDb) : list MetaKey :=
  merge_sort N.le (remove_dups ((λ kv : MetaKey * PeerPubkey * MetaValue, kv.1.1) <$> entries (key_value_votes d))).

Definition recheck_consensus_after_peer_removal peer_set : ZTx () :=
  with_table "key_value_votes" (with_table "consensus_values" (
    keys ← query keys_with_votes;
    recheck_keys peer_set keys)).

(** [IModule::process_effects] *)
Fixpoint meta_process_effects `{CtrlCodecs} peer_set (effects : list ModuleCItemEffect) : ZTx () :=
  match effects with
  | [] => mret ()
  | effect :: effects' =>
      _ ← (if decide (module_kind effect = CTRL_KIND ∧
                      effect_id (effect_inner effect) = EFFECT_ID RemovePeerEffect)
           then recheck_consensus_after_peer_removal peer_set else mret () : ZTx ());
      meta_process_effects peer_set effects'
  end.
Definition meta_process_input (input : list N) : ZTx (list CItemEffect) :=
  tx_fail "Meta module does not support any inputs".
Definition meta_process_output (output : list N) : ZTx (list CItemEffect) :=
  tx_fail "Meta module does not support any outputs".
End Meta.

(** ** The calls of the node *)
Section MetaCalls.
Context `{MetaCodecs}.
Implicit Types (st : MetaDb * list CItemRaw) (self : MetaModule).

Definition meta_write {E A} (f : MTx MetaDb MetaHook E A) st : outcome E A * (MetaDb * list CItemRaw) :=
  module_write run_meta_hook f st.

Definition get_consensus_values st : outcome Empty_set (list (MetaKey * MetaValue)) :=
  module_read (with_table "consensus_values" (query (λ d, entries (consensus_values d)))) st.1.
Definition get_votes_for_key (key : MetaKey) st : outcome Empty_set (list (PeerPubkey * MetaValue)) :=
  module_read (with_table "key_value_votes" (query (λ d,
    (λ kv, (kv.1.2, kv.2)) <$> range (votes_of_key key) (key_value_votes d)))) st.1.

Definition meta_refresh self st : outcome Empty_set () * (MetaDb * list CItemRaw) :=
  match module_read (meta_refresh_dbtx self) st.1 with
  | Ok proposals => (Ok (), (st.1, proposals))
  | Err e => (Err e, st)
  | Panic w => (Panic w, st)
  end.
Definition propose_key_value self (key : MetaKey) (value : MetaValue) st :
    outcome Empty_set () * (MetaDb * list CItemRaw) :=
  match meta_write (with_table "pending_proposals" (update_tables (λ d,
          set_pending_proposals (<[key := value]> (pending_proposals d)) d))) st with
  | (Ok _, st') => meta_refresh self st'
  | (o, st') => (o, st')
  end.

Definition META_VERSION : ConsensusVersion.t := ConsensusVersion.mk 0 0.
Definition meta_init_db_tx {E} (new_version : ConsensusVersion.t) : MTx MetaDb MetaHook E () :=
  with_table "self_version" (update_tables (set_meta_self_version (Some new_version))).
Definition meta_module_init : IModuleInit := MkModuleInit META_KIND true {[0%N := 0%N]}.
Definition meta_init (module_consensus_version : ConsensusVersion.t) (our : option PeerPubkey) (d : MetaDb) :
    outcome ModuleInitError MetaModule * (MetaDb * list CItemRaw) :=
  if decide (module_consensus_version = META_VERSION) then
    match meta_write (meta_init_db_tx module_consensus_version) (d, []) with
    | (Ok _, st) => (Ok (MkMetaModule module_consensus_version our), st)
    | (Err e, st) => (Err e, st)
    | (Panic w, st) => (Panic w, st)
    end
  else (Err (UnsupportedVersion module_consensus_version META_VERSION), (d, [])).
End MetaCalls.

(** ** Lemmas *)
Section MetaLemmas.
Context `{MetaCodecs} (self : MetaModule).
Implicit Types (d : MetaDb).

(** A table held open cannot be opened again. *)
Lemma open_twice {A} name (body : ZTx A) (s : TxState (ModuleTx MetaDb) MetaHook) :
  name ∈ open_tables (tx_db s) → with_table (M:=ZTx) name body s = Err (DbErr TableAlreadyOpen).
Proof. intros Hin. simpl. unfold mtx_with_table. by rewrite decide_True. Qed.
Lemma with_table_err {A} name (body : ZTx A) d open hs e :
  name ∉ open → body (MkTx (MkModuleTx d (name :: open)) hs) = Err e →
  with_table (M:=ZTx) name body (MkTx (MkModuleTx d open) hs) = Err e.
Proof. intros Hn Hb. simpl. unfold mtx_with_table. simpl. by rewrite decide_False, Hb. Qed.

(** The state in which the recheck runs its loops. *)
Abbreviation recheck_state d hs := (MkTx (MkModuleTx d ["consensus_values"; "key_value_votes"]) hs).

(** Some value of [counts] has reached the threshold. *)
Definition reached (threshold : N) (counts : list (MetaValue * nat)) : bool :=
  existsb (λ c, threshold <=? N.of_nat c.2)%N counts.

Lemma record_first_run threshold key peer_set counts d hs :
  record_first_consensus threshold key peer_set counts (recheck_state d hs) =
  if reached threshold counts then Err (DbErr TableAlreadyOpen) else Ok ((), recheck_state d hs).
Proof.
  induction counts as [|[v c] counts IH]; [done|]. cbn [record_first_consensus reached existsb snd].
  destruct (threshold <=? N.of_nat c)%N; [|exact IH]. apply open_twice. by left.
Qed.

(** A key without a consensus value for which a value has reached the threshold
    of the peer set. *)
Definition due peer_set d (key : MetaKey) : bool :=
  bool_decide (consensus_values d !! key = None) &&
  reached (NumPeers.threshold (N.of_nat (length peer_set))) (value_counts (key_value_votes d) key peer_set).

Lemma recheck_keys_run peer_set keys d hs :
  length peer_set ≤ 255 →
  recheck_keys peer_set keys (recheck_state d hs) =
  if existsb (due peer_set d) keys then Err (DbErr TableAlreadyOpen) else Ok ((), recheck_state d hs).
Proof.
  intros Hlen. induction keys as [|key keys IH]; [done|]. cbn [recheck_keys existsb].
  unfold mbind, mtx_bind, tx_bind in *. unfold query at 1. simpl.
  unfold due at 1. destruct (consensus_values d !! key) as [v|]; [by simpl|].
  rewrite bool_decide_eq_true_2 by done. simpl.
  rewrite (NumPeers.to_num_peers_ok (E:=Whatever) peer_set Hlen). unfold tx_lift, tx_read, rd_lift. simpl.
  rewrite record_first_run. by destruct (reached _ _).
Qed.

Lemma keys_with_votes_spec d key :
  key ∈ keys_with_votes d ↔ ∃ voter v, key_value_votes d !! (key, voter) = Some v.
Proof.
  unfold keys_with_votes. rewrite merge_sort_Permutation, elem_of_remove_dups, list_elem_of_fmap. split.
  - intros ([[k voter] v] & -> & Hin). rewrite entries_perm, elem_of_map_to_list in Hin. by exists voter, v.
  - intros (voter & v & Hv). exists (key, voter, v). split; [done|]. by rewrite entries_perm, elem_of_map_to_list.
Qed.

(** The members of [peer_set] that vote for [value]. *)
Definition value_support (votes : gmap (MetaKey * PeerPubkey) MetaValue) key peer_set value : nat :=
  count_if (λ peer, bool_decide (votes !! (key, peer) = Some value)) peer_set.

Lemma votes_of_key_spec key (k : MetaKey * PeerPubkey) :
  votes_of_key key k = true ↔ k.1 = key ∧ (k.2 ≤ PeerPubkey_MAX)%N.
Proof. unfold votes_of_key. rewrite rg_incl_pair. unfold pair_le, PeerPubkey_ZERO. simpl. lia. Qed.

(** Entries of one key differ in their second component. *)
Lemma NoDup_snd_keys {V} (key : N) (l : list (N * N * V)) :
  NoDup l.*1 → (∀ kv, kv ∈ l → kv.1.1 = key) → NoDup ((λ kv, kv.1.2) <$> l).
Proof.
  induction l as [|[[k i] v] l IH]; intros Hnd Hkey; [constructor|].
  apply NoDup_cons in Hnd as [Hnin Hnd]. apply NoDup_cons. split.
  - intros ([[k2 j] w] & Hij & Hin)%list_elem_of_fmap. simpl in Hij. subst j. apply Hnin.
    apply list_elem_of_fmap. exists (k2, i, w). split; [|done]. simpl. f_equal.
    transitivity key; [apply (Hkey (k, i, v)); left|symmetry; apply (Hkey (k2, i, w)); by right].
  - apply IH; [done|]. intros kv Hin. apply Hkey. by right.
Qed.

(** The votes counted in the table are those of the members of the set. *)
Lemma count_votes_support votes key peer_set value :
  NoDup peer_set → Forall (λ i, (i ≤ PeerPubkey_MAX)%N) peer_set →
  count_if (λ kv, bool_decide (kv.2 = value) && bool_decide (kv.1.2 ∈ peer_set)) (range (votes_of_key key) votes) =
  value_support votes key peer_set value.
Proof.
  intros Hnd Hmax. unfold value_support. rewrite !count_if_filter.
  rewrite <-(length_fmap (λ kv : MetaKey * PeerPubkey * MetaValue, kv.1.2)). apply Permutation_length, NoDup_Permutation.
  - apply (NoDup_snd_keys key).
    + apply (sublist_NoDup _ (range (votes_of_key key) votes).*1); [apply range_NoDup|].
      apply fmap_sublist, sublist_filter.
    + intros [[k i] v] [_ [_ [Hk _]%votes_of_key_spec]%elem_of_range]%list_elem_of_filter. done.
  - by apply NoDup_filter.
  - intros i. rewrite list_elem_of_fmap, list_elem_of_filter. split.
    + intros ([[k j] v] & -> & [Hb [Hv [Hk _]%votes_of_key_spec]%elem_of_range]%list_elem_of_filter).
      simpl in *. subst k. apply andb_true_iff in Hb as [->%bool_decide_eq_true Hin%bool_decide_eq_true].
      split; [|done]. by apply bool_decide_eq_true.
    + intros [Hv%bool_decide_eq_true Hi]. exists (key, i, value). split; [done|].
      apply list_elem_of_filter. split; [by rewrite !bool_decide_eq_true_2|]. apply elem_of_range. split; [done|].
      apply votes_of_key_spec. split; [done|]. rewrite Forall_forall in Hmax. by apply Hmax.
Qed.
End MetaLemmas.

(** An approval always crashes.  When the approved peer has voted for the key,
    processing the approval opens the table of votes a second time while it is
    held open, which ends the process with a database error; no approval is ever
    recorded. *)
Theorem approve_vote_crashes `{MetaCodecs} (self : MetaModule) (round : BlockRound) (voter approved : PeerPubkey)
    (peer_set : list PeerPubkey) (item : CItemRaw) (key : MetaKey) (d : MetaDb) (w : list CItemRaw) :
  voter ∈ peer_set → codec_decode item = Some (ApproveVote key approved) →
  match key_value_votes d !! (key, approved) with
  | Some _ => meta_write (meta_process_citem self round voter peer_set item) (d, w) = (Panic "Database error", (d, w))
  | None => meta_write (meta_process_citem self round voter peer_set item) (d, w) = (Err "Invalid peer_pubkey", (d, w))
  end.
Proof.
  intros Hin Hdec. unfold meta_write, module_write, write_with_expect_falliable, write_with_inner_falliable,
    meta_process_citem, mbind, mtx_bind, tx_bind. rewrite Hdec, bool_decide_eq_true_2 by done. simpl.
  unfold process_citem_approve_vote, mbind, mtx_bind, tx_bind. simpl. unfold mtx_with_table. simpl.
  by destruct (key_value_votes d !! (key, approved)).
Qed.

(** The recheck after the removal of a peer records nothing.  When for some key
    with votes and no consensus value a value has reached the threshold of the new
    peer set, it opens a table that is open and ends the process with a database
    error; otherwise it leaves everything as it was. *)
Theorem recheck_after_removal `{MetaCodecs} `{CtrlCodecs} (peer_set : list PeerPubkey) (peer : PeerPubkey)
    (d : MetaDb) (w : list CItemRaw) :
  length peer_set ≤ 255 →
  let removal := MkModuleCItemEffect CTRL_KIND (effect_encode (MkRemovePeerEffect peer)) in
  meta_write (meta_process_effects peer_set [removal]) (d, w) =
  (if existsb (due peer_set d) (keys_with_votes d) then Panic "Database error" else Ok (), (d, w)).
Proof.
  intros Hlen. cbv zeta. unfold meta_write, module_write, write_with_expect_falliable, write_with_inner_falliable.
  cbn [meta_process_effects module_kind effect_inner effect_id effect_encode].
  rewrite decide_True by done. unfold mbind, mtx_bind, tx_bind. cbn [fst].
  unfold recheck_consensus_after_peer_removal. simpl. unfold mtx_with_table. simpl.
  unfold mbind, mtx_bind, tx_bind. simpl. rewrite recheck_keys_run by done.
  by destruct (existsb _ _).
Qed.

(** C25: a consensus value is what a quorum votes for.  Processing a proposed value
    either changes no consensus value and has no effect, or [threshold] members of
    the peer set vote for the value with the processed vote; then it becomes the
    consensus value of its key and no other value changes, the effect tells it, the
    pending proposal for the key is gone, and so are the members' votes for the
    key, while the votes for other keys stay. *)
Theorem consensus_value_has_quorum `{MetaCodecs} (self : MetaModule) (round : BlockRound) (voter : PeerPubkey)
    (peer_set : list PeerPubkey) (item : CItemRaw) (key : MetaKey) (value : MetaValue) (d : MetaDb) (w : list CItemRaw) :
  voter ∈ peer_set → codec_decode item = Some (ProposeValue key value) →
  NoDup peer_set → Forall (λ i, (i ≤ PeerPubkey_MAX)%N) peer_set → length peer_set ≤ 255 →
  match meta_write (meta_process_citem self round voter peer_set item) (d, w) with
  | (Ok effects, (d', w')) =>
      let votes := <[(key, voter) := value]> (key_value_votes d) in
      (effects = [] ∧ consensus_values d' = consensus_values d ∧
         (key_value_votes d !! (key, voter) = Some value ∨
          (N.of_nat (value_support votes key peer_set value) < NumPeers.threshold (N.of_nat (length peer_set)))%N)) ∨
      (effects = [effect_encode (MkKeyValueConsensusEffect key value)] ∧
       consensus_values d' = <[key := value]> (consensus_values d) ∧
       (NumPeers.threshold (N.of_nat (length peer_set)) ≤ N.of_nat (value_support votes key peer_set value))%N ∧
       pending_proposals d' = delete key (pending_proposals d) ∧
       (∀ i, i ∈ peer_set → key_value_votes d' !! (key, i) = None) ∧
       (∀ k i, k ≠ key → key_value_votes d' !! (k, i) = key_value_votes d !! (k, i)))
  | _ => False
  end.
Proof.
  intros Hin Hdec Hnd Hmax Hlen. unfold meta_write, module_write, write_with_expect_falliable,
    write_with_inner_falliable, meta_process_citem, mbind, mtx_bind, tx_bind.
  rewrite Hdec, bool_decide_eq_true_2 by done. simpl.
  unfold process_citem_vote_key_value, mbind, mtx_bind, tx_bind. simpl. unfold mtx_with_table. simpl.
  case_decide as Hsame; simpl; [left; auto|].
  rewrite (NumPeers.to_num_peers_ok (E:=Whatever) peer_set Hlen). unfold tx_lift, tx_read, rd_lift. simpl.
  rewrite count_votes_support by done.
  destruct (N.leb_spec (NumPeers.threshold (N.of_nat (length peer_set)))
    (N.of_nat (value_support (<[(key, voter):=value]> (key_value_votes d)) key peer_set value))); simpl; [|left; auto].
  right. split_and!; [done|done|done|done| |].
  - intros i Hi. apply eq_None_not_Some. intros [v [_ Hr]%retain_in_lookup]. specialize (Hr eq_refl). simpl in Hr.
    by rewrite !bool_decide_eq_true_2 in Hr.
  - intros k i Hk. apply option_eq. intros v. rewrite retain_in_lookup. simpl.
    rewrite lookup_insert_ne by congruence. rewrite bool_decide_eq_false_2 by done. naive_solver.
Qed.

(** ** Concrete runs *)
Module ToyMeta.
Definition codecs : MetaCodecs := {|
  meta_citem_codec := {|
    codec_encode := λ c, match c with ProposeValue k v => 0 :: k :: v | ApproveVote k p => [1; k; p] end;
    codec_decode := λ l, match l with
      | 0 :: k :: v => Some (ProposeValue k v)
      | [1; k; p] => Some (ApproveVote k p)
      | _ => None end |};
  key_value_codec := {|
    codec_encode := λ e, kv_key e :: kv_value e;
    codec_decode := λ l, match l with k :: v => Some (MkKeyValueConsensusEffect k v) | [] => None end |};
|}%N.
Definition ctrl_codecs : CtrlCodecs :=
  let c {T} : Codec T := {| codec_encode := λ _, []; codec_decode := λ _, None |} in Build_CtrlCodecs c c c c c c.
End ToyMeta.

Section MetaWitnesses.
Local Existing Instance ToyMeta.codecs.
Local Existing Instance ToyMeta.ctrl_codecs.
Open Scope N_scope.

Definition meta_self : MetaModule := MkMetaModule META_VERSION (Some 2).
Definition meta_propose (voter : N) (st : MetaDb * list CItemRaw) :=
  meta_write (meta_process_citem meta_self 0 voter [1; 2; 3; 4] (meta_encode_to_raw (ProposeValue 7 [5]))) st.
(** Peer 1 has voted, and peer 2 wants the same value: it proposes an approval. *)
Definition meta_one_vote : MetaDb * list CItemRaw :=
  (propose_key_value meta_self 7 [5] (meta_propose 1 (empty_meta, [])).2).2.

Lemma approve_vote_crashes_witness :
  meta_one_vote.2 = [meta_encode_to_raw (ApproveVote 7 1)] ∧
  meta_write (meta_process_citem meta_self 0 2 [1; 2; 3; 4] (meta_encode_to_raw (ApproveVote 7 1)))
    (meta_one_vote.1, []) = (Panic "Database error", (meta_one_vote.1, [])).
Proof.
  split; [vm_compute; reflexivity|].
  apply (approve_vote_crashes meta_self 0 2 1 [1; 2; 3; 4] (meta_encode_to_raw (ApproveVote 7 1)) 7 meta_one_vote.1 []).
  - apply (bool_decide_unpack _). vm_compute. exact I.
  - reflexivity.
Defined.

Definition meta_two_votes : MetaDb * list CItemRaw := (meta_propose 2 (meta_propose 1 (empty_meta, [])).2).2.

Lemma consensus_value_has_quorum_witness :
  match meta_propose 3 (meta_two_votes.1, []) with
  | (Ok effects, (d', _)) => consensus_values d' = <[7 := [5]]> (consensus_values meta_two_votes.1)
  | _ => False
  end.
Proof.
  pose proof (consensus_value_has_quorum meta_self 0 3 [1; 2; 3; 4] (meta_encode_to_raw (ProposeValue 7 [5])) 7 [5]
    meta_two_votes.1 []) as Hq.
  specialize (Hq ltac:(apply (bool_decide_unpack _); vm_compute; exact I) eq_refl
    ltac:(apply (bool_decide_unpack _); vm_compute; exact I)
    ltac:(apply (bool_decide_unpack _); vm_compute; exact I) ltac:(simpl; lia)).
  change (meta_write _ (meta_two_votes.1, [])) with (meta_propose 3 (meta_two_votes.1, [])) in Hq.
  assert (match (meta_propose 3 (meta_two_votes.1, [])).1 with Ok (_ :: _) => true | _ => false end = true) as Hok
    by (vm_compute; reflexivity).
  destruct (meta_propose 3 _) as [[effects|e|why] [d' w']]; [|exact Hq..].
  destruct Hq as [(-> & _)|(_ & Hc & _)]; [discriminate Hok|exact Hc].
Defined.

(** Two of four peers vote for a value; then a peer is removed. *)
Lemma recheck_after_removal_witness :
  meta_write (meta_process_effects [1; 2]
    [MkModuleCItemEffect CTRL_KIND (effect_encode (MkRemovePeerEffect 4))]) (meta_two_votes.1, []) =
  (Panic "Database error", (meta_two_votes.1, [])).
Proof.
  rewrite (recheck_after_removal [1; 2] 4 meta_two_votes.1 []) by (simpl; lia). vm_compute. reflexivity.
Defined.
End MetaWitnesses.
