(* ===== verification/NodeApp.v ===== *)
(** * The application layer ([node-app/src])

    The application consumes the finalized blocks.  Every consensus item of a
    block is processed in one transaction of the whole database: the module that
    the item is for, the consensus (new parameters), all modules (the effects),
    and the position [app_cur_round].  The peer set and the configurations of the
    modules are cached in memory between items.

    The modules are trait objects: a [DynModule] is the record of its methods
    over the tables of one module.  [ctrl_dyn] and [meta_dyn] are the two modules
    of the repository; other modules are arbitrary. *)
From S2P Require Import Prelude Peers Core Db ConsDb Consensus Module Ctrl Meta.

(** ** Items *)
Record TransactionUnsigned := MkTransactionUnsigned {
  nonce : N;
  inputs : list (ModuleId * list N);
  outputs : list (ModuleId * list N);
}.
Record Transaction := MkTransaction {
  tx_inner : TransactionUnsigned;
  tx_signature : N;
}.
Inductive CItem :=
  | PeerCItem (module_id : ModuleId) (inner : CItemRaw)
  | CTransaction (transaction : Transaction).

Inductive ProcessCItemError :=
  | UnknownModuleId (module_id : ModuleId)
  | ProcessingCItemFailed (source : Whatever) (module_id : ModuleId)
  | ProcessingInputFailed (source : Whatever) (module_id : ModuleId)
  | ProcessingOutputFailed (source : Whatever) (module_id : ModuleId)
  | ProcessingEffectFailed (source : Whatever) (module_id : ModuleId).

(** ** The database and the modules *)
Section App.
Context `{Crypto} `{Bincode} `{CtrlCodecs} `{MetaCodecs}.
(** The tables of modules that are not in the repository. *)
Context {Y : Type}.

Inductive ModTables :=
  | CtrlTables (d : CtrlDb)
  | MetaTables (d : MetaDb)
  | OtherTables (y : Y).
Inductive ModHook :=
  | OfCtrl (h : CtrlHook)
  | OfMeta (h : MetaHook).

(** [BlockCItemIdx(u32)], [next] *)
Definition idx_next {E} (idx : N) : outcome E N := expect "We can't overflow" (checked_add u32_max idx 1).

Record AppDb := MkAppDb {
  app_cur_round : option (BlockRound * N);
  app_modules : gmap ModuleId ModTables;
  app_consensus : ConsDb;
}.
Definition set_app_cur_round x (d : AppDb) : AppDb := MkAppDb x (app_modules d) (app_consensus d).
Definition set_app_modules x (d : AppDb) : AppDb := MkAppDb (app_cur_round d) x (app_consensus d).
Definition set_app_consensus x (d : AppDb) : AppDb := MkAppDb (app_cur_round d) (app_modules d) x.

Inductive AppHook :=
  | ModuleHook (id : ModuleId) (h : ModHook)
  | ConsensusHook (h : Hook).

(** [IModule] with its configuration ([DynModuleWithConfig]) *)
Record DynModule := MkDynModule {
  config : ModuleConfig.t;
  dyn_process_citem : BlockRound → PeerPubkey → list PeerPubkey → CItemRaw → MTx ModTables ModHook Whatever (list CItemEffect);
  dyn_process_input : list N → MTx ModTables ModHook Whatever (list CItemEffect);
  dyn_process_output : list N → MTx ModTables ModHook Whatever (list CItemEffect);
  dyn_process_effects : list PeerPubkey → list ModuleCItemEffect → MTx ModTables ModHook Whatever ();
}.

(** Running a transaction on a part of the database. *)
Definition tx_zoom {D D' K K' E A} (get : D' → option D) (put : D → D' → D') (hook : K → K')
    (m : Tx D K E A) : Tx D' K' E A := λ s,
  match get (tx_db s) with
  | None => Panic "tables of another module"
  | Some d =>
      match m (MkTx d []) with
      | Ok (a, s') => Ok (a, MkTx (put (tx_db s') (tx_db s)) (tx_hooks s ++ (hook <$> tx_hooks s')))
      | Err e => Err e
      | Panic w => Panic w
      end
  end.

(** The modules of the repository, on the tables of the union. *)
Definition ctrl_zoom {A} (m : MTx CtrlDb CtrlHook Whatever A) : MTx ModTables ModHook Whatever A :=
  tx_zoom (λ mt, match tables mt with CtrlTables d => Some (MkModuleTx d (open_tables mt)) | _ => None end)
    (λ mt _, MkModuleTx (CtrlTables (tables mt)) (open_tables mt)) OfCtrl m.
Definition meta_zoom {A} (m : MTx MetaDb MetaHook Whatever A) : MTx ModTables ModHook Whatever A :=
  tx_zoom (λ mt, match tables mt with MetaTables d => Some (MkModuleTx d (open_tables mt)) | _ => None end)
    (λ mt _, MkModuleTx (MetaTables (tables mt)) (open_tables mt)) OfMeta m.

Definition ctrl_dyn (c : ModuleConfig.t) (self : ConsensusCtrlModule) : DynModule := {|
  config := c;
  dyn_process_citem := λ r voter ps item, ctrl_zoom (process_citem self r voter ps item);
  dyn_process_input := λ input, ctrl_zoom (process_input input);
  dyn_process_output := λ output, ctrl_zoom (process_output output);
  dyn_process_effects := λ ps effects, ctrl_zoom (process_effects ps effects);
|}.
Definition meta_dyn (c : ModuleConfig.t) (self : MetaModule) : DynModule := {|
  config := c;
  dyn_process_citem := λ r voter ps item, meta_zoom (meta_process_citem self r voter ps item);
  dyn_process_input := λ input, meta_zoom (meta_process_input input);
  dyn_process_output := λ output, meta_zoom (meta_process_output output);
  dyn_process_effects := λ ps effects, meta_zoom (meta_process_effects ps effects);
|}.

(** [ModuleWriteTransactionCtx::new(module_id, dbtx)] *)
Definition module_tx {E A} (id : ModuleId) (m : MTx ModTables ModHook E A) : Tx AppDb AppHook E A :=
  tx_zoom (λ d, (λ t, MkModuleTx t []) <$> app_modules d !! id)
    (λ mt d, set_app_modules (<[id := tables mt]> (app_modules d)) d) (ModuleHook id) m.
Definition consensus_tx {E A} (m : Tx ConsDb Hook E A) : Tx AppDb AppHook E A :=
  tx_zoom (λ d, Some (app_consensus d)) set_app_consensus ConsensusHook m.

Abbreviation ATx := (Tx AppDb AppHook ProcessCItemError).

(** *** [db.rs] *)
Definition load_cur_round_and_idx (d : AppDb) : BlockRound * N := default (0%N, 0%N) (app_cur_round d).
Definition save_cur_round_and_idx_dbtx {E} (cur_round : BlockRound) (citem_idx : N) : Tx AppDb AppHook E () :=
  tx_modify (set_app_cur_round (Some (cur_round, citem_idx))).

(** *** [process_citem.rs] *)

(** The loops over the inputs and the outputs of a transaction. *)
Fixpoint process_parts (modules : gmap ModuleId DynModule)
    (op : DynModule → list N → MTx ModTables ModHook Whatever (list CItemEffect))
    (failed : Whatever → ModuleId → ProcessCItemError) (parts : list (ModuleId * list N))
    (effects : list ModuleCItemEffect) : ATx (list ModuleCItemEffect) :=
  match parts with
  | [] => mret effects
  | (module_id, part) :: parts' =>
      match modules !! module_id with
      | None => tx_fail (UnknownModuleId module_id)
      | Some module =>
          es ← module_tx module_id (tx_into (λ e, failed e module_id) (op module part));
          process_parts modules op failed parts'
            (effects ++ (MkModuleCItemEffect (ModuleConfig.kind (config module)) <$> es))
      end
  end.

(** The loop of [process_consensus_change_effects_core_pre]; the result is the
    peer set afterwards.  [watch_round] is the round that the consensus shows. *)
Fixpoint process_consensus_change_effects_core_pre (watch_round round : BlockRound) (block_timestamp : N)
    (peer_set : list PeerPubkey) (effects : list ModuleCItemEffect) : ATx (list PeerPubkey) :=
  match effects with
  | [] => mret peer_set
  | effect :: effects' =>
      if decide (module_kind effect = CTRL_KIND ∧
                 effect_id (effect_inner effect) = EFFECT_ID ConsensusParamsChange) then
        change ← tx_lift match effect_decode (T:=ConsensusParamsChange) (effect_inner effect) with
                         | Ok change => Ok change
                         | _ => Panic "Can't fail to decode"
                         end;
        _ ← consensus_tx (consensus_params_change_tx watch_round round block_timestamp (change_peer_set change));
        process_consensus_change_effects_core_pre watch_round round block_timestamp (change_peer_set change) effects'
      else process_consensus_change_effects_core_pre watch_round round block_timestamp peer_set effects'
  end.

(** Whether [process_consensus_change_effects_core_post] invalidates the
    configurations. *)
Definition invalidates_configs (effects : list ModuleCItemEffect) : bool :=
  existsb (λ effect, bool_decide (module_kind effect = CTRL_KIND) &&
    (bool_decide (effect_id (effect_inner effect) = EFFECT_ID AddModuleEffect) ||
     bool_decide (effect_id (effect_inner effect) = EFFECT_ID ModuleVersionUpgradeEffect))) effects.

(** [for (&module_id, module) in &*modules { module.process_effects(..)?; }] *)
Fixpoint process_all_effects (modules : list (ModuleId * DynModule)) (peer_set : list PeerPubkey)
    (effects : list ModuleCItemEffect) : ATx () :=
  match modules with
  | [] => mret ()
  | (module_id, module) :: modules' =>
      _ ← module_tx module_id (tx_into (λ e, ProcessingEffectFailed e module_id)
            (dyn_process_effects module peer_set effects));
      process_all_effects modules' peer_set effects
  end.

(** The effects that an item has by itself. *)
Definition item_effects (modules : gmap ModuleId DynModule) (block_round : BlockRound) (peer_pubkey : PeerPubkey)
    (peer_set : list PeerPubkey) (citem : CItem) : ATx (list ModuleCItemEffect) :=
  match citem with
  | PeerCItem module_id inner =>
      _ ← tx_lift (fail_if (negb (bool_decide (peer_pubkey ∈ peer_set)))
            (ProcessingCItemFailed "Ignoring citem from a peer pending consensus removal" module_id));
      match modules !! module_id with
      | None => tx_fail (UnknownModuleId module_id)
      | Some module =>
          es ← module_tx module_id (tx_into (λ e, ProcessingCItemFailed e module_id)
                 (dyn_process_citem module block_round peer_pubkey peer_set inner));
          mret (MkModuleCItemEffect (ModuleConfig.kind (config module)) <$> es)
      end
  | CTransaction transaction =>
      effects ← process_parts modules dyn_process_input ProcessingInputFailed (inputs (tx_inner transaction)) [];
      process_parts modules dyn_process_output ProcessingOutputFailed (outputs (tx_inner transaction)) effects
  end.

(** The transaction of [process_citem_try]; the result is the peer set and whether
    the configurations are still valid. *)
Definition process_citem_try (modules : gmap ModuleId DynModule) (watch_round cur_round : BlockRound)
    (cur_citem_idx : N) (block_round : BlockRound) (block_timestamp : N) (peer_pubkey : PeerPubkey)
    (peer_set : list PeerPubkey) (citem : CItem) : ATx (list PeerPubkey * bool) :=
  effects ← item_effects modules block_round peer_pubkey peer_set citem;
  peer_set' ← process_consensus_change_effects_core_pre watch_round cur_round block_timestamp peer_set effects;
  _ ← process_all_effects (entries modules) peer_set' effects;
  _ ← save_cur_round_and_idx_dbtx cur_round cur_citem_idx;
  mret (peer_set', negb (invalidates_configs effects)).

(** ** The node's application ([NodeApp], [run]) *)

(** The database, what the commit hooks act on (the channels of the consensus
    and of the modules), the loaded modules and the copies that [run] keeps. *)
Record NodeApp := MkNodeApp {
  app_db : AppDb;
  app_watches : Watches;
  app_proposals : gmap ModuleId (list CItemRaw);
  app_loaded : gmap ModuleId DynModule;
  cached_peer_set : option (list PeerPubkey);
  cached_configs : option (list (ModuleId * ModuleConfig.t));
}.
Implicit Types (app : NodeApp).

Definition run_app_hook (w : Watches * gmap ModuleId (list CItemRaw)) (h : AppHook) :=
  match h with
  | ModuleHook id (OfCtrl (SendProposals proposals)) | ModuleHook id (OfMeta (MetaSendProposals proposals)) =>
      (w.1, <[id := proposals]> w.2)
  | ConsensusHook h => (run_hook w.1 h, w.2)
  end.
Definition with_caches peer_set configs app : NodeApp :=
  MkNodeApp (app_db app) (app_watches app) (app_proposals app) (app_loaded app) peer_set configs.
Definition with_loaded modules app : NodeApp :=
  MkNodeApp (app_db app) (app_watches app) (app_proposals app) modules (cached_peer_set app) (cached_configs app).
Definition with_module_tables (id : ModuleId) (t : ModTables) (proposals : list CItemRaw) app : NodeApp :=
  MkNodeApp (set_app_modules (<[id := t]> (app_modules (app_db app))) (app_db app)) (app_watches app)
    (<[id := proposals]> (app_proposals app)) (app_loaded app) (cached_peer_set app) (cached_configs app).

(** One write transaction of the whole database. *)
Definition app_write {E A} (f : Tx AppDb AppHook E A) app : outcome E A * NodeApp :=
  match write_with_expect_falliable run_app_hook f (app_db app, (app_watches app, app_proposals app)) with
  | (o, (d, (w, props))) =>
      (o, MkNodeApp d w props (app_loaded app) (cached_peer_set app) (cached_configs app))
  end.

(** [process_citem]; the position is [cur_round], [cur_citem_idx]. *)
Definition app_process_citem (cur_round : BlockRound) (cur_citem_idx : N) (block_header : BlockHeader.t)
    (peer_pubkey : PeerPubkey) (citem : CItem) app : outcome Whatever NodeApp :=
  peer_set ← expect "Must be set at this point" (cached_peer_set app);
  match app_write (process_citem_try (app_loaded app) (current_round_with_timeout (app_watches app)).1
          cur_round cur_citem_idx (BlockHeader.round block_header) (BlockHeader.timestamp block_header)
          peer_pubkey peer_set citem) app with
  | (Ok (peer_set', keep), app') =>
      Ok (with_caches (Some peer_set') (if keep : bool then cached_configs app else None) app')
  | (Err _, app') =>
      next ← idx_next cur_citem_idx;
      match app_write (E:=Empty_set) (save_cur_round_and_idx_dbtx cur_round next) (with_caches None None app') with
      | (Ok _, app'') => Ok app''
      | (Err e, _) => match e with end
      | (Panic w, _) => Panic w
      end
  | (Panic w, _) => Panic w
  end.

(** *** Modules *)
Definition CONSENSUS_CTRL_MODULE_ID : ModuleId := 0.

(** The constructors known to the software: those of the repository, and
    [other_init] for the others. *)
Context (our_peer_pubkey : option PeerPubkey) (modules_inits : gmap ModuleKind IModuleInit)
  (other_init : ModuleId → ModuleConfig.t → option Y → outcome ModuleInitError (DynModule * Y)).

Definition setup_failed {A} (o : outcome ModuleInitError A) : outcome Whatever A :=
  map_err (λ _, "Failed to setup module") o.

(** [module_init.init(ModuleInitArgs::new(..))] *)
Definition init_module (id : ModuleId) (c : ModuleConfig.t) app : outcome Whatever (DynModule * NodeApp) :=
  match modules_inits !! ModuleConfig.kind c with
  | None => Err "Missing module init for kind"
  | Some _ =>
      let t := app_modules (app_db app) !! id in
      if decide (ModuleConfig.kind c = CTRL_KIND) then
        d ← expect "tables of another module"
              match t with Some (CtrlTables d) => Some d | Some _ => None | None => Some empty_ctrl end;
        match ctrl_init (ModuleConfig.version c) our_peer_pubkey modules_inits d with
        | (o, (d', proposals)) =>
            module ← setup_failed o;
            Ok (ctrl_dyn c module, with_module_tables id (CtrlTables d') proposals app)
        end
      else if decide (ModuleConfig.kind c = META_KIND) then
        d ← expect "tables of another module"
              match t with Some (MetaTables d) => Some d | Some _ => None | None => Some empty_meta end;
        match meta_init (ModuleConfig.version c) our_peer_pubkey d with
        | (o, (d', proposals)) =>
            module ← setup_failed o;
            Ok (meta_dyn c module, with_module_tables id (MetaTables d') proposals app)
        end
      else
        y ← expect "tables of another module"
              match t with Some (OtherTables y) => Some (Some y) | Some _ => None | None => Some None end;
        r ← setup_failed (other_init id c y);
        Ok (r.1, with_module_tables id (OtherTables r.2) [] app)
  end.

(** The loop of [setup_modules_to_static]: what is left of the existing modules,
    and whether a module was set up. *)
Fixpoint setup_loop (new_modules_configs : list (ModuleId * ModuleConfig.t))
    (existing : gmap ModuleId DynModule) (changed : bool) app :
    outcome Whatever (gmap ModuleId DynModule * bool * NodeApp) :=
  match new_modules_configs with
  | [] => Ok (existing, changed, app)
  | (id, c) :: rest =>
      match existing !! id with
      | Some module =>
          if decide (config module = c) then
            setup_loop rest (delete id existing) changed (with_loaded (<[id := module]> (app_loaded app)) app)
          else
            r ← init_module id c app;
            setup_loop rest (delete id existing) true (with_loaded (<[id := r.1]> (app_loaded app)) r.2)
      | None =>
          r ← init_module id c app;
          setup_loop rest existing true (with_loaded (<[id := r.1]> (app_loaded app)) r.2)
      end
  end.
Definition setup_modules_to (new_modules_configs : list (ModuleId * ModuleConfig.t)) app :
    outcome Whatever (bool * NodeApp) :=
  r ← setup_loop new_modules_configs (app_loaded app) false (with_loaded ∅ app);
  let '(existing, changed, app') := r in
  _ ← rassert "Some existing modules are without config in the new round" (bool_decide (size existing = 0));
  Ok (changed, app').

(** [consensus_ctrl_module_expect_static(..).get_peer_set()], [get_modules_configs()] *)
Definition ctrl_tables app : outcome Whatever CtrlDb :=
  _ ← expect "Must have a app consensus module" (app_loaded app !! CONSENSUS_CTRL_MODULE_ID);
  expect "Must be a core consensus module"
    match app_modules (app_db app) !! CONSENSUS_CTRL_MODULE_ID with
    | Some (CtrlTables d) => Some d
    | _ => None
    end.

Definition reload_invalidated_copies app : outcome Whatever NodeApp :=
  d ← ctrl_tables app;
  let app := match cached_peer_set app with
             | Some _ => app
             | None => with_caches (Some (peers_of d)) (cached_configs app) app
             end in
  match cached_configs app with
  | Some _ => Ok app
  | None =>
      let configs := entries (modules_configs d) in
      r ← setup_modules_to configs (with_caches (cached_peer_set app) (Some configs) app);
      Ok r.2
  end.

(** *** Blocks *)

(** [for (idx, citem) in citems.iter().enumerate()]: [idx] counts the items,
    [cur_idx] is the position. *)
Fixpoint process_items (cur_round : BlockRound) (block_header : BlockHeader.t) (peer_pubkey : PeerPubkey)
    (idx : N) (citems : list CItem) (cur_idx : N) app : outcome Whatever (N * NodeApp) :=
  match citems with
  | [] => Ok (cur_idx, app)
  | citem :: citems' =>
      _ ← rassert "Can't fail" (idx <=? u32_max)%N;
      app' ← (if (cur_idx <=? idx)%N then
                app' ← reload_invalidated_copies app;
                app_process_citem cur_round cur_idx block_header peer_pubkey citem app'
              else Ok app);
      process_items cur_round block_header peer_pubkey (idx + 1) citems' idx app'
  end.

(** One iteration of the loop of [run], with the block that the node hands out;
    the result is the next position. *)
Definition process_block (cur_round_idx : BlockRound * N) (block_header : BlockHeader.t)
    (peer_pubkey : PeerPubkey) (citems : list CItem) app : outcome Whatever (BlockRound * N * NodeApp) :=
  r ← process_items cur_round_idx.1 block_header peer_pubkey 0 citems cur_round_idx.2 app;
  next ← round_next_expect (BlockHeader.round block_header);
  match app_write (E:=Empty_set) (save_cur_round_and_idx_dbtx next 0) r.2 with
  | (Ok _, app') => Ok ((next, 0%N), app')
  | (Err e, _) => match e with end
  | (Panic w, _) => Panic w
  end.

(** *** Starting *)
Definition init_consensus_ctrl (consensus_params : ConsensusParams.t) app :
    outcome Whatever (list (ModuleId * ModuleConfig.t) * NodeApp) :=
  _ ← rassert "assertion failed: modules_write.is_empty()" (bool_decide (size (app_loaded app) = 0));
  _ ← (if modules_inits !! CTRL_KIND is Some _ then Ok ()
       else Err "Missing module init for consensus module kind");
  d ← expect "tables of another module"
        match app_modules (app_db app) !! CONSENSUS_CTRL_MODULE_ID with
        | Some (CtrlTables d) => Some d
        | Some _ => None
        | None => Some empty_ctrl
        end;
  let init_tx : MTx CtrlDb CtrlHook Whatever (list (ModuleId * ModuleConfig.t)) :=
    bootstrapped ← is_bootstrapped;
    if bootstrapped : bool then get_modules_configs_dbtx
    else
      default_config ← bootstrap_consensus CONSENSUS_CTRL_MODULE_ID
        (ConsensusParams.init_core_module_cons_version consensus_params) (ConsensusParams.peers consensus_params);
      mret [(CONSENSUS_CTRL_MODULE_ID, default_config)] in
  match ctrl_write init_tx (d, []) with
  | (Ok configs, (d', _)) => Ok (configs, with_module_tables CONSENSUS_CTRL_MODULE_ID (CtrlTables d') [] app)
  | (Err e, _) => Err e
  | (Panic w, _) => Panic w
  end.

Definition record_supported_modules_versions app : outcome Whatever NodeApp :=
  d ← ctrl_tables app;
  match record_module_init_versions (supported_versions <$> modules_inits)
          (d, default [] (app_proposals app !! CONSENSUS_CTRL_MODULE_ID)) with
  | (Ok _, (d', proposals)) => Ok (with_module_tables CONSENSUS_CTRL_MODULE_ID (CtrlTables d') proposals app)
  | (Err e, _) => match e with end
  | (Panic w, _) => Panic w
  end.

(** [run] up to its loop; the parameters are those of the round of the position. *)
Definition start (consensus_params : ConsensusParams.t) app : outcome Whatever (BlockRound * N * NodeApp) :=
  let cur_round_idx := load_cur_round_and_idx (app_db app) in
  r ← init_consensus_ctrl consensus_params app;
  r' ← setup_modules_to r.1 r.2;
  _ ← rassert "assertion failed: changed" r'.1;
  app' ← record_supported_modules_versions (with_caches None None r'.2);
  Ok (cur_round_idx, app').
End App.
