(* ===== verification/NodeAppProps.v ===== *)
(** * What the application layer guarantees, and where it does not

    An item is processed atomically ([item_atomic]).  But the stored position is
    behind the items that were processed ([restart_replays]), so that a restart
    can make a node diverge ([replay_diverges]).  [ToyApp] runs a whole node on
    concrete blocks. *)
From S2P Require Import Prelude Peers Core Db ConsDb Consensus ConsSpec ConsProps Module Ctrl CtrlSpec CtrlProps Meta NodeApp.

Section AppLemmas.
Context `{Crypto} `{Bincode} `{CtrlCodecs} `{MetaCodecs} {Y : Type}.
Implicit Types (d : AppDb (Y:=Y)) (c : CtrlDb) (app : NodeApp (Y:=Y)) (effects : list ModuleCItemEffect).
Abbreviation ATx := (Tx (AppDb (Y:=Y)) AppHook ProcessCItemError).

(** The tables of the control module. *)
Definition ctrl_of d : option CtrlDb :=
  match app_modules d !! CONSENSUS_CTRL_MODULE_ID with
  | Some (CtrlTables c) => Some c
  | _ => None
  end.

(** The position after a transaction is what the transaction saves. *)
Lemma try_saves modules wr cr ci br ts pk ps item s :
  wp (E:=ProcessCItemError) false (process_citem_try (Y:=Y) modules wr cr ci br ts pk ps item)
    (λ _ s', app_cur_round (tx_db s') = Some (cr, ci)) s.
Proof.
  unfold process_citem_try. do 3 (wp_step; apply wp_any; intros).
  unfold save_cur_round_and_idx_dbtx. by repeat wp_step.
Qed.

(** The transaction of an item. *)
Definition item_tx cr ci (hdr : BlockHeader.t) pk ps item app : ATx (list PeerPubkey * bool) :=
  process_citem_try (app_loaded app) (current_round_with_timeout (app_watches app)).1 cr ci
    (BlockHeader.round hdr) (BlockHeader.timestamp hdr) pk ps item.

Lemma app_process_citem_cases cr ci hdr pk item app app' ps :
  cached_peer_set app = Some ps → app_process_citem cr ci hdr pk item app = Ok app' →
  (∃ ps' (keep : bool) s', item_tx cr ci hdr pk ps item app (MkTx (app_db app) []) = Ok ((ps', keep), s') ∧
     app_db app' = tx_db s' ∧ cached_peer_set app' = Some ps' ∧ app_loaded app' = app_loaded app ∧
     cached_configs app' = (if keep then cached_configs app else None) ∧
     (app_watches app', app_proposals app') = foldl run_app_hook (app_watches app, app_proposals app) (tx_hooks s')) ∨
  (∃ e, item_tx cr ci hdr pk ps item app (MkTx (app_db app) []) = Err (TxError e) ∧
     (ci < u32_max)%N ∧ app' = with_caches None None (MkNodeApp (set_app_cur_round (Some (cr, (ci + 1)%N)) (app_db app))
       (app_watches app) (app_proposals app) (app_loaded app) None None)).
Proof.
  intros Hps. unfold app_process_citem, item_tx. rewrite Hps. simpl. unfold app_write, write_with_expect_falliable,
    write_with_inner_falliable. simpl.
  destruct (process_citem_try _ _ _ _ _ _ _ _ _ _) as [[[ps' keep] s']|[e|e]|w]; simpl; [|done| |done].
  - destruct (foldl run_app_hook _ _) as [w props] eqn:Hw. intros [= <-]. left. exists ps', keep, s'.
    split_and!; try done.
  - unfold idx_next. destruct (checked_add u32_max ci 1) as [next|] eqn:Hn; simpl; [|done].
    apply checked_add_Some in Hn as [-> Hle]. intros [= <-]. right. exists e. split_and!; [done|lia|done].
Qed.

(** *** The position *)
Lemma item_tx_saves cr ci hdr pk ps item app r s' :
  item_tx cr ci hdr pk ps item app (MkTx (app_db app) []) = Ok (r, s') → app_cur_round (tx_db s') = Some (cr, ci).
Proof. intros Hrun. eapply (wp_elim _ _ _ _ _ _ (try_saves _ _ _ _ _ _ _ _ _ _) Hrun). Qed.

Lemma app_process_citem_position cr ci hdr pk item app app' :
  app_process_citem cr ci hdr pk item app = Ok app' →
  app_cur_round (app_db app') = Some (cr, ci) ∨ app_cur_round (app_db app') = Some (cr, (ci + 1)%N).
Proof.
  intros Hp. destruct (cached_peer_set app) as [ps|] eqn:Hps; [|by unfold app_process_citem in Hp; rewrite Hps in Hp].
  destruct (app_process_citem_cases _ _ _ _ _ _ _ _ Hps Hp)
    as [(ps' & keep & s' & Hrun & Hdb & _)|(e & Hrun & _ & ->)]; [left|by right].
  rewrite Hdb. by eapply item_tx_saves.
Qed.

Context (our : option PeerPubkey) (inits : gmap ModuleKind IModuleInit)
  (other_init : ModuleId → ModuleConfig.t → option Y → outcome ModuleInitError (DynModule (Y:=Y) * Y)).

(** Once the loop is past its first item, the stored position is behind. *)
Lemma process_items_position cr hdr pk items idx cur app cur' app' :
  process_items our inits other_init cr hdr pk idx items cur app = Ok (cur', app') → items ≠ [] → (0 < idx)%N → cur = (idx - 1)%N →
  ∃ p, app_cur_round (app_db app') = Some (cr, p) ∧ (p < idx + N.of_nat (length items))%N.
Proof.
  revert idx cur app. induction items as [|item items IH]; intros idx cur app Hrun Hne Hidx ->; [done|].
  simpl in Hrun. destruct (idx <=? u32_max)%N; [|done]. simpl in Hrun. rewrite (proj2 (N.leb_le _ _)) in Hrun by lia.
  destruct (reload_invalidated_copies _ _ _ app) as [app1| |]; [|done..]. simpl in Hrun.
  destruct (app_process_citem cr (idx - 1) hdr pk item app1) as [app2| |] eqn:Hitem; [|done..]. simpl in Hrun.
  destruct items as [|item' items].
  - injection Hrun as _ <-. simpl. apply app_process_citem_position in Hitem as [->| ->]; eexists; (split; [done|]); lia.
  - destruct (IH _ _ _ Hrun) as (p & Hp & Hlt); [done|lia|lia|]. exists p. split; [done|]. simpl in *. lia.
Qed.
End AppLemmas.

(** C23: an item is processed completely or not at all.  When the transaction of an
    item succeeds, its changes to the modules and the consensus and the position
    are stored together and its hooks have run.  When an item is refused, the
    modules and the consensus, and all channels, are as before; the position moves
    past the item, and the copies of the peer set and the configurations are
    dropped. *)
Theorem item_atomic `{Crypto} `{Bincode} `{CtrlCodecs} `{MetaCodecs} {Y : Type} (app app' : NodeApp (Y:=Y))
    (cr : BlockRound) (ci : N) (hdr : BlockHeader.t) (pk : PeerPubkey) (ps : list PeerPubkey) (item : CItem) :
  cached_peer_set app = Some ps → app_process_citem cr ci hdr pk item app = Ok app' →
  (∃ ps' keep s', item_tx cr ci hdr pk ps item app (MkTx (app_db app) []) = Ok ((ps', keep), s') ∧
     app_db app' = tx_db s' ∧ app_cur_round (app_db app') = Some (cr, ci) ∧ cached_peer_set app' = Some ps' ∧
     (app_watches app', app_proposals app') = foldl run_app_hook (app_watches app, app_proposals app) (tx_hooks s')) ∨
  (∃ e, item_tx cr ci hdr pk ps item app (MkTx (app_db app) []) = Err (TxError e) ∧
     app_modules (app_db app') = app_modules (app_db app) ∧ app_consensus (app_db app') = app_consensus (app_db app) ∧
     app_watches app' = app_watches app ∧ app_proposals app' = app_proposals app ∧
     app_cur_round (app_db app') = Some (cr, (ci + 1)%N) ∧ cached_peer_set app' = None ∧ cached_configs app' = None).
Proof.
  intros Hps Hp. destruct (app_process_citem_cases _ _ _ _ _ _ _ _ Hps Hp)
    as [(ps' & keep & s' & Hrun & Hdb & Hc & _ & _ & Hw)|(e & Hrun & _ & ->)].
  - left. exists ps', keep, s'. split_and!; try done. rewrite Hdb.
    by eapply item_tx_saves.
  - right. exists e. by split_and!.
Qed.

(** A restart processes items again.  When the items of a block have been
    processed, at least two of them, the stored position is not behind the last
    item: it is the position of an item of the block, so that a process that is
    restarted before it stores the next round processes at least the last item a
    second time. *)
Theorem restart_replays `{Crypto} `{Bincode} `{CtrlCodecs} `{MetaCodecs} {Y : Type} (pk0 : option PeerPubkey)
    (inits : gmap ModuleKind IModuleInit) (other_init : ModuleId → ModuleConfig.t → option Y → outcome ModuleInitError (DynModule (Y:=Y) * Y))
    (app app' : NodeApp (Y:=Y)) (cr cur' : BlockRound) (hdr : BlockHeader.t) (pk : PeerPubkey) (items : list CItem) :
  process_items pk0 inits other_init cr hdr pk 0 items 0 app = Ok (cur', app') → 2 ≤ length items →
  ∃ p, load_cur_round_and_idx (app_db app') = (cr, p) ∧ (p < N.of_nat (length items))%N.
Proof.
  intros Hrun Hlen. destruct items as [|item items]; [simpl in *; lia|]. simpl in Hrun.
  destruct (reload_invalidated_copies _ _ _ app) as [app1| |]; [|done..]. simpl in Hrun.
  destruct (app_process_citem cr 0 hdr pk item app1) as [app2| |]; [|done..]. simpl in Hrun.
  destruct (process_items_position _ _ _ _ _ _ _ _ _ _ _ _ Hrun) as (p & Hp & Hlt); [|lia|lia|].
  - intros ->. simpl in *. lia.
  - exists p. unfold load_cur_round_and_idx. rewrite Hp. split; [done|]. simpl in *. lia.
Qed.

(** ** Concrete runs *)
Module ToyApp.
#[local] Existing Instance Toy.crypto.
#[local] Existing Instance Toy.bincode.
#[local] Existing Instance ToyCtrl.codecs.
#[local] Existing Instance ToyMeta.codecs.
#[local] Open Scope N_scope.

(** A node with the two modules of the repository and no other. *)
Definition inits : gmap ModuleKind IModuleInit := <[META_KIND := meta_module_init]> {[CTRL_KIND := ctrl_module_init]}.
Definition no_other (_ : ModuleId) (_ : ModuleConfig.t) (_ : option unit) :
    outcome ModuleInitError (DynModule (Y:=unit) * unit) := Err Other.
Definition fresh : NodeApp (Y:=unit) :=
  MkNodeApp (MkAppDb None ∅ (db (created (Some 1)))) (watches (created (Some 1))) ∅ ∅ None None.
(** The process ends, and is started again on the database. *)
Definition boot (app : NodeApp (Y:=unit)) :=
  start (Some 3) inits no_other toy_params
    (MkNodeApp (app_db app) (app_watches app) ∅ ∅ None None).
Definition header (r : BlockRound) : BlockHeader.t := BlockHeader.mk 0 0 0 r 0 0 0 0 0 0.
(** The block of the round [r] with the items of the peer [pk]. *)
Definition block (r : BlockRound) (pk : PeerPubkey) (items : list CItem)
    (x : BlockRound * N * NodeApp (Y:=unit)) : outcome Whatever (BlockRound * N * NodeApp (Y:=unit)) :=
  process_block (Some 3) inits no_other x.1 (header r) pk items x.2.
Definition blocks (l : list (PeerPubkey * list CItem)) (o : outcome Whatever (BlockRound * N * NodeApp (Y:=unit))) :=
  foldl (λ o b, x ← o; block x.1.1 b.1 b.2 x) o l.

Definition add_meta : CItem := PeerCItem 0 (encode_to_raw (VoteAddModule META_KIND META_VERSION)).
Definition propose (key value : N) : CItem := PeerCItem 1 (meta_encode_to_raw (ProposeValue key [value])).
(** All peers add the meta module; the peers 1 and 2 propose a value. *)
Definition run_up : outcome Whatever (BlockRound * N * NodeApp (Y:=unit)) :=
  blocks [(1, [add_meta]); (2, [add_meta]); (3, [add_meta]); (4, [add_meta]); (1, [propose 7 5]); (2, [propose 7 5])]
    (boot fresh).
Definition the_app (o : outcome Whatever (BlockRound * N * NodeApp (Y:=unit))) : NodeApp (Y:=unit) :=
  match o with Ok x => x.2 | _ => fresh end.
(** The items of the peer 3 are the third vote. *)
Definition third : list CItem := [propose 8 6; propose 7 5].
Definition meta_of (app : NodeApp (Y:=unit)) : MetaDb :=
  match app_modules (app_db app) !! 1 with Some (MetaTables d) => d | _ => empty_meta end.
(** The items are processed, and the process ends before the round is stored. *)
Definition crashed : NodeApp (Y:=unit) :=
  match process_items (Some 3) inits no_other 6 (header 6) 3 0 third 0 (the_app run_up) with
  | Ok (_, app) => app
  | _ => fresh
  end.
Definition straight : NodeApp (Y:=unit) := the_app (blocks [(3, third)] run_up).
Definition restarted : NodeApp (Y:=unit) := the_app (blocks [(3, third)] (boot crashed)).
End ToyApp.

Section AppWitnesses.
Local Existing Instance Toy.crypto.
Local Existing Instance Toy.bincode.
Local Existing Instance ToyCtrl.codecs.
Local Existing Instance ToyMeta.codecs.
Import ToyApp.

Lemma restart_replays_witness :
  ∃ p, load_cur_round_and_idx (app_db crashed) = (6%N, p) ∧ (p < 2)%N.
Proof.
  assert (match process_items (Some 3%N) inits no_other 6%N (header 6) 3%N 0 third 0 (the_app run_up) with
          | Ok _ => true | _ => false end = true) as Hok by (vm_compute; reflexivity).
  unfold crashed. destruct (process_items _ _ _ _ _ _ _ third _ _) as [[cur app]|e|w] eqn:Hrun; [|discriminate Hok..].
  exact (restart_replays (Some 3%N) inits no_other (the_app run_up) app 6%N cur (header 6) 3%N third Hrun ltac:(simpl; lia)).
Defined.

(** The second item of the block refused: it is not an item of any module. *)
Definition refused : CItem := PeerCItem 9 [].
Definition after_reload : NodeApp (Y:=unit) :=
  match reload_invalidated_copies (Some 3%N) inits no_other (the_app run_up) with Ok app => app | _ => fresh end.
Definition after_refused : NodeApp (Y:=unit) :=
  match app_process_citem 6 0 (header 6) 3 refused after_reload with Ok app => app | _ => fresh end.

Lemma item_atomic_witness :
  app_modules (app_db after_refused) = app_modules (app_db after_reload) ∧
  app_cur_round (app_db after_refused) = Some (6, 1)%N.
Proof.
  assert (match app_process_citem 6 0 (header 6) 3 refused after_reload with Ok _ => true | _ => false end = true)
    as Hok by (vm_compute; reflexivity).
  assert (match item_tx 6 0 (header 6) 3 [1; 2; 3; 4]%N refused after_reload (MkTx (app_db after_reload) []) with
          | Ok _ => true | _ => false end = false) as Hno by (vm_compute; reflexivity).
  unfold after_refused. destruct (app_process_citem _ _ _ _ _ _) as [app|e|w] eqn:Hrun; [|discriminate Hok..].
  destruct (item_atomic after_reload app 6%N 0%N (header 6) 3%N [1; 2; 3; 4]%N refused)
    as [(ps' & keep & s' & Htx & _)|(e & _ & Hm & _ & _ & _ & Hc & _)].
  - vm_compute. reflexivity.
  - exact Hrun.
  - exfalso. rewrite Htx in Hno. discriminate Hno.
  - split; [exact Hm|exact Hc].
Defined.
End AppWitnesses.

(** A restart makes a node diverge.  Two nodes process the same blocks; one of
    them is restarted after the items of the last block, before it stores the
    next round.  It processes the items again: the vote of the peer 3 for the key
    7, which the consensus on the value has cleared, is recorded again, and the
    tables of the two nodes differ although both are at the same position. *)
Theorem replay_diverges :
  load_cur_round_and_idx (app_db ToyApp.straight) = load_cur_round_and_idx (app_db ToyApp.restarted) ∧
  key_value_votes (ToyApp.meta_of ToyApp.straight) !! (7, 3)%N = None ∧
  key_value_votes (ToyApp.meta_of ToyApp.restarted) !! (7, 3)%N = Some [5%N].
Proof. split_and!; vm_compute; reflexivity. Qed.
