(* ===== verification/NodeAppCache.v ===== *)
(** * The copies in memory of the peer set and the configurations

    [run] keeps the peer set and the configurations of the modules in memory and
    follows the effects of the items to keep them up to date.  They agree with the
    tables of the control module after every item ([cached_copies_agree]), which
    is what [reload_invalidated_copies] asserts. *)
From S2P Require Import Prelude Peers Core Db ConsDb Consensus ConsSpec ConsProps Module Ctrl CtrlSpec CtrlProps Meta NodeApp NodeAppProps.

(** ** What the effects announce *)
Section Announced.
Context `{CtrlCodecs}.
Implicit Types (effects : list ModuleCItemEffect).

(** An effect with new parameters, and an effect that changes configurations. *)
Definition is_params_change (e : ModuleCItemEffect) : Prop :=
  module_kind e = CTRL_KIND ∧ effect_id (effect_inner e) = EFFECT_ID ConsensusParamsChange.
Definition is_configs_change (e : CItemEffect) : Prop :=
  effect_id e = EFFECT_ID AddModuleEffect ∨ effect_id e = EFFECT_ID ModuleVersionUpgradeEffect.

(** The peer set after the effects. *)
Definition announced (peer_set : list PeerPubkey) effects : list PeerPubkey :=
  foldl (λ ps e, if decide (module_kind e = CTRL_KIND ∧ effect_id (effect_inner e) = EFFECT_ID ConsensusParamsChange) then
                   match effect_decode (T:=ConsensusParamsChange) (effect_inner e) with
                   | Ok change => change_peer_set change
                   | _ => ps
                   end
                 else ps) peer_set effects.

Lemma announced_none ps effects : (∀ e, e ∈ effects → ¬ is_params_change e) → announced ps effects = ps.
Proof.
  revert ps. induction effects as [|e effects IH]; intros ps Hno; [done|]. simpl.
  rewrite decide_False by (apply Hno; left). apply IH. intros e' He'. apply Hno. by right.
Qed.
Lemma announced_one `{!CtrlCodecLaws} ps e p rest :
  ¬ is_params_change e → (∀ e', e' ∈ rest → ¬ is_params_change e') →
  announced ps (e :: MkModuleCItemEffect CTRL_KIND (effect_encode (MkConsensusParamsChange p)) :: rest) = p.
Proof.
  intros He Hrest. unfold announced. cbn [foldl]. rewrite (decide_False (P:=is_params_change e)) by done.
  rewrite decide_True by done. cbn [effect_inner]. rewrite effect_decode_encode. by apply announced_none.
Qed.

Lemma invalidates_configs_spec effects :
  invalidates_configs effects = true ↔
  ∃ e, e ∈ effects ∧ module_kind e = CTRL_KIND ∧ is_configs_change (effect_inner e).
Proof.
  unfold invalidates_configs, is_configs_change. rewrite existsb_exists. split.
  - intros (e & Hin%list_elem_of_In & Hb). exists e. split; [done|].
    apply andb_true_iff in Hb as [Hk Ho]. rewrite orb_true_iff, !bool_decide_eq_true in Ho.
    by apply bool_decide_eq_true in Hk.
  - intros (e & Hin & Hk & Ho). exists e. split; [by apply list_elem_of_In|].
    by rewrite andb_true_iff, orb_true_iff, !bool_decide_eq_true.
Qed.
End Announced.

(** ** The control module *)
Section CtrlAgree.
Context `{CtrlCodecs} `{!CtrlCodecLaws} (self : ConsensusCtrlModule).
Implicit Types (d : CtrlDb).

(** The effects of the module, with its kind. *)
Abbreviation of_ctrl := (fmap (MkModuleCItemEffect CTRL_KIND)).

Lemma step_announces voter ps c d effects d' :
  peers_of d = ps → ctrl_step self voter ps c d = Ok (effects, d') →
  announced ps (of_ctrl effects) = peers_of d'.
Proof.
  intros Hps Hs. destruct (ctrl_step_peers _ _ _ _ _ _ _ Hs) as [Heq Hno|p -> Hp Heq Ht He|p ups -> Hp Heq Ht Hne He Hups].
  - rewrite announced_none; [by unfold peers_of in *; rewrite Heq|].
    intros e (e' & -> & He')%list_elem_of_fmap [_ Hid]. by apply (Hno e').
  - rewrite He. apply announced_one; [by intros [_ [=]]|by intros e ?%not_elem_of_nil].
  - rewrite He. apply announced_one; [by intros [_ [=]]|].
    intros e (e' & -> & He'%Hups)%list_elem_of_fmap [_ Hid]. simpl in Hid. by rewrite Hid in He'.
Qed.

(** The configurations change only with an effect that tells it. *)
Lemma step_configs_told voter ps c d effects d' :
  ctrl_step self voter ps c d = Ok (effects, d') →
  modules_configs d' = modules_configs d ∨ ∃ e, e ∈ effects ∧ is_configs_change e.
Proof.
  intros Hs. destruct (ctrl_step_configs _ _ _ _ _ _ _ Hs)
    as [Heq|q d1 Heq H1 Hv Hq He|k v id m -> Hfresh Heq Hinit Hsing Hall ->]; [by left| |].
  - destruct (upgrade_effects q d1) as [|e l] eqn:Hup.
    + left. rewrite Heq, <-H1. unfold upgraded_configs. apply fmap_nil_inv in Hup. by rewrite Hup.
    + right. exists e. split; [apply He; left|]. right. apply (upgrade_effects_id q d1). rewrite Hup. left.
  - right. eexists. split; [left|]. by left.
Qed.
End CtrlAgree.

(** ** Items *)
Section Items.
Context `{Crypto} `{Bincode} `{CtrlCodecs} `{!CtrlCodecLaws} `{MetaCodecs} {Y : Type}.
Implicit Types (s : TxState (AppDb (Y:=Y)) (AppHook)) (effects : list ModuleCItemEffect).

(** The loaded modules: the control module is at its place, and no other module
    is of its kind. *)
Record CtrlLoaded (modules : gmap ModuleId (DynModule (Y:=Y))) (c0 : ModuleConfig.t) (self : ConsensusCtrlModule) : Prop := {
  ctrl_loaded : modules !! CONSENSUS_CTRL_MODULE_ID = Some (ctrl_dyn c0 self);
  ctrl_loaded_kind : ModuleConfig.kind c0 = CTRL_KIND;
  ctrl_loaded_only : ∀ id m, modules !! id = Some m → id ≠ CONSENSUS_CTRL_MODULE_ID →
    ModuleConfig.kind (config m) ≠ CTRL_KIND;
}.
Context (modules : gmap ModuleId (DynModule (Y:=Y))) (c0 : ModuleConfig.t) (self : ConsensusCtrlModule).
Hypothesis Hloaded : CtrlLoaded modules c0 self.

(** A module's transaction leaves the tables of the control module alone when it
    is another module's. *)
Lemma module_tx_frame {E A} id (m : MTx (ModTables (Y:=Y)) ModHook E A) (Q : A → _ → Prop) s :
  id ≠ CONSENSUS_CTRL_MODULE_ID → (∀ a s', ctrl_of (tx_db s') = ctrl_of (tx_db s) → Q a s') →
  wp false (module_tx id m) Q s.
Proof.
  intros Hid HQ. apply wp_eq. intros a s'. unfold module_tx, tx_zoom.
  destruct (app_modules (tx_db s) !! id) as [t|]; simpl; [|done].
  destruct (m _) as [[a' s1]|e|w]; [|done..]. intros [= <- <-]. apply HQ. unfold ctrl_of. simpl.
  by rewrite lookup_insert_ne.
Qed.

(** What a transaction of the control module does to its tables. *)
Lemma module_tx_ctrl {E A} (f : Whatever → E) (m : MTx CtrlDb CtrlHook Whatever A) (Q : A → _ → Prop) s d :
  ctrl_of (tx_db s) = Some d →
  (∀ a d' open hs s', m (MkTx (MkModuleTx d []) []) = Ok (a, MkTx (MkModuleTx d' open) hs) →
     ctrl_of (tx_db s') = Some d' → Q a s') →
  wp false (module_tx (Y:=Y) CONSENSUS_CTRL_MODULE_ID (tx_into f (ctrl_zoom m))) Q s.
Proof.
  intros Hd HQ. apply wp_eq. intros a s'. unfold module_tx, tx_into, ctrl_zoom, tx_zoom. unfold ctrl_of in Hd.
  destruct (app_modules (tx_db s) !! _) as [[d0| |]|]; simpl; try done. injection Hd as ->.
  destruct (m _) as [[a' [[d' open] hs]]|[e|e]|w] eqn:Hm; simpl; try done. intros [= <- <-].
  eapply HQ; [done|]. unfold ctrl_of. simpl. by rewrite lookup_insert_eq.
Qed.

(** The effects of other modules are not of the kind of the control module. *)
Definition foreign effects : Prop := ∀ e, e ∈ effects → module_kind e ≠ CTRL_KIND.
Lemma foreign_announced ps effects : foreign effects → announced ps effects = ps.
Proof. intros Hf. apply announced_none. by intros e He%Hf [Hk _]. Qed.
Lemma foreign_fmap id m (es : list CItemEffect) :
  modules !! id = Some m → id ≠ CONSENSUS_CTRL_MODULE_ID →
  foreign (MkModuleCItemEffect (ModuleConfig.kind (config m)) <$> es).
Proof. intros Hm Hid e (e' & -> & _)%list_elem_of_fmap. by eapply (ctrl_loaded_only _ _ _ Hloaded). Qed.

(** A transaction has no effects of the control module, which takes no inputs and
    outputs. *)
Lemma process_parts_foreign (op : DynModule → list N → MTx ModTables ModHook Whatever (list CItemEffect)) failed parts effects s :
  (∀ part Q s, wp false (module_tx CONSENSUS_CTRL_MODULE_ID
     (tx_into (λ e, failed e CONSENSUS_CTRL_MODULE_ID) (op (ctrl_dyn c0 self) part))) Q s) →
  foreign effects →
  wp false (process_parts (Y:=Y) modules op failed parts effects)
    (λ effects' s', foreign effects' ∧ ctrl_of (tx_db s') = ctrl_of (tx_db s)) s.
Proof.
  intros Hop. revert effects s. induction parts as [|[id part] parts IH]; intros effects s Hf; simpl.
  - by apply wp_ret.
  - destruct (modules !! id) as [m|] eqn:Hm; [|by apply wp_fail]. wp_step.
    destruct (decide (id = CONSENSUS_CTRL_MODULE_ID)) as [->|Hid].
    + rewrite (ctrl_loaded _ _ _ Hloaded) in Hm. injection Hm as <-. apply Hop.
    + apply module_tx_frame; [done|]. intros es s1 Hs1. rewrite <-Hs1. apply IH.
      intros e [He|He]%elem_of_app; [by apply Hf|by apply (foreign_fmap id m es)].
Qed.

(** What an item does to the tables of the control module, and what it tells. *)
Lemma item_effects_agree r pk ps item s d :
  ctrl_of (tx_db s) = Some d → peers_of d = ps →
  wp false (item_effects modules r pk ps item) (λ effects s', ∃ d', ctrl_of (tx_db s') = Some d' ∧
    announced ps effects = peers_of d' ∧
    (invalidates_configs effects = false → modules_configs d' = modules_configs d)) s.
Proof.
  intros Hd Hps. destruct item as [id inner|tx]; simpl.
  - wp_step. apply wp_fail_if. intros Hin%negb_false_iff%bool_decide_eq_true.
    destruct (modules !! id) as [m|] eqn:Hm; [|by apply wp_fail]. wp_step.
    destruct (decide (id = CONSENSUS_CTRL_MODULE_ID)) as [->|Hid].
    + rewrite (ctrl_loaded _ _ _ Hloaded) in Hm. injection Hm as <-. apply (module_tx_ctrl _ _ _ _ d); [done|].
      intros es d' open hs s' Hrun Hd'. apply wp_ret. exists d'. split; [done|].
      rewrite (process_citem_run self r pk ps inner d []) in Hrun by done.
      destruct (codec_decode inner) as [c|]; [|done].
      destruct (ctrl_step self pk ps c d) as [[es1 d1]| |] eqn:Hstep; [|done..]. injection Hrun as -> -> _ _.
      cbn [config ctrl_dyn]. rewrite (ctrl_loaded_kind _ _ _ Hloaded). split; [by eapply step_announces|].
      intros Hinv. destruct (step_configs_told _ _ _ _ _ _ _ Hstep) as [|(e & He & Hch)]; [done|].
      apply not_true_iff_false in Hinv. destruct Hinv. apply invalidates_configs_spec.
      eexists. split; [by apply list_elem_of_fmap_2|]. done.
    + apply module_tx_frame; [done|]. intros es s' Hs'. apply wp_ret. exists d. rewrite Hs'.
      split_and!; [done| |done]. rewrite foreign_announced; [done|]. by apply (foreign_fmap id).
  - wp_step. eapply wp_mono; [apply process_parts_foreign|].
    + intros part Q s0. apply wp_eq. intros a s'. unfold module_tx, tx_into, tx_zoom. simpl.
      destruct (app_modules (tx_db s0) !! _) as [[| |]|]; done.
    + by intros e ?%not_elem_of_nil.
    + intros effects s1 [Hf Hs1]. eapply wp_mono; [apply process_parts_foreign; [|exact Hf]|].
      * intros part Q s0. apply wp_eq. intros a s'. unfold module_tx, tx_into, tx_zoom. simpl.
        destruct (app_modules (tx_db s0) !! _) as [[| |]|]; done.
      * intros effects' s2 [Hf' Hs2]. exists d. rewrite Hs2, Hs1. split_and!; [done| |done].
        by rewrite foreign_announced.
Qed.

(** The consensus gets the parameters, and the peer set is what is announced. *)
Lemma core_pre_announced wr cr ts ps effects s :
  wp false (process_consensus_change_effects_core_pre (Y:=Y) wr cr ts ps effects)
    (λ ps' s', ps' = announced ps effects ∧ ctrl_of (tx_db s') = ctrl_of (tx_db s)) s.
Proof.
  revert ps s. induction effects as [|e effects IH]; intros ps s; cbn [process_consensus_change_effects_core_pre announced foldl];
    [by apply wp_ret|].
  case_decide; [|apply IH]. wp_step. apply wp_lift; [|done]. intros change Hch. wp_step.
  apply wp_eq. intros [] s1 Hrun.
  assert (ctrl_of (tx_db s1) = ctrl_of (tx_db s)) as <-.
  { unfold consensus_tx, tx_zoom in Hrun. simpl in Hrun.
    destruct (consensus_params_change_tx _ _ _ _ _) as [[? ?]|e'|w]; [|done..]. by injection Hrun as _ <-. }
  destruct (effect_decode _) as [change'| |]; [|done..]. injection Hch as ->. apply IH.
Qed.

(** The control module does nothing on effects. *)
Lemma all_effects_frame l ps effects s :
  (∀ id m, (id, m) ∈ l → modules !! id = Some m) →
  wp false (process_all_effects (Y:=Y) l ps effects) (λ _ s', ctrl_of (tx_db s') = ctrl_of (tx_db s)) s.
Proof.
  revert s. induction l as [|[id m] l IH]; intros s Hl; simpl; [by apply wp_ret|]. wp_step.
  assert (∀ id m, (id, m) ∈ l → modules !! id = Some m) as Hl' by (intros; apply Hl; by right).
  assert (modules !! id = Some m) as Hm by (apply Hl; left).
  destruct (decide (id = CONSENSUS_CTRL_MODULE_ID)) as [->|Hid].
  - rewrite (ctrl_loaded _ _ _ Hloaded) in Hm. injection Hm as <-. apply wp_eq. intros [] s1 Hrun.
    assert (ctrl_of (tx_db s1) = ctrl_of (tx_db s)) as <-; [|by apply IH].
    unfold module_tx, tx_into, tx_zoom in Hrun. simpl in Hrun. unfold ctrl_zoom, tx_zoom in Hrun.
    unfold ctrl_of. destruct (app_modules (tx_db s) !! _) as [[d| |]|] eqn:Ht; try done. injection Hrun as <-. simpl.
    by rewrite lookup_insert_eq.
  - apply module_tx_frame; [done|]. intros [] s1 <-. by apply IH.
Qed.

(** The transaction of an item returns the peer set of the tables, and says
    whether the configurations are as they were. *)
Lemma try_agrees wr cr ci br ts pk ps item s d :
  ctrl_of (tx_db s) = Some d → peers_of d = ps →
  wp false (process_citem_try (Y:=Y) modules wr cr ci br ts pk ps item)
    (λ r s', ∃ d', ctrl_of (tx_db s') = Some d' ∧ r.1 = peers_of d' ∧
       (r.2 = true → modules_configs d' = modules_configs d)) s.
Proof.
  intros Hd Hps. unfold process_citem_try. wp_step. eapply wp_mono; [by apply (item_effects_agree _ _ _ _ _ d)|].
  intros effects s1 (d' & Hd1 & Hann & Hinv). wp_step. eapply wp_mono; [apply core_pre_announced|].
  intros ps' s2 [-> Hs2]. wp_step. eapply wp_mono; [apply all_effects_frame|].
  { intros id m. rewrite entries_perm. apply elem_of_map_to_list. }
  intros [] s3 Hs3. unfold save_cur_round_and_idx_dbtx. repeat wp_step. exists d'. split_and!.
  - rewrite <-Hd1, <-Hs2. exact Hs3.
  - exact Hann.
  - intros Hk%negb_true_iff. by apply Hinv.
Qed.
End Items.

(** The copies that are kept agree with the tables [d]. *)
Definition copies_agree `{CtrlCodecs} `{MetaCodecs} `{Crypto} `{Bincode} {Y : Type} (app : NodeApp (Y:=Y)) (d : CtrlDb) : Prop :=
  ctrl_of (app_db app) = Some d ∧
  (∀ ps, cached_peer_set app = Some ps → ps = peers_of d) ∧
  (∀ configs, cached_configs app = Some configs → configs = entries (modules_configs d)).

(** C22: the copies in memory agree with the tables.  When the control module is
    loaded at its place and no other module is of its kind, and the kept copies of
    the peer set and of the configurations agree with the tables of the control
    module before an item, they agree with the tables after it, whatever the item
    is, whether it is processed or refused, and whatever the other modules do. *)
Theorem cached_copies_agree `{Crypto} `{Bincode} `{CtrlCodecs} `{!CtrlCodecLaws} `{MetaCodecs} {Y : Type}
    (app app' : NodeApp (Y:=Y)) (c0 : ModuleConfig.t) (self : ConsensusCtrlModule) (d : CtrlDb)
    (cr : BlockRound) (ci : N) (hdr : BlockHeader.t) (pk : PeerPubkey) (item : CItem) :
  CtrlLoaded (app_loaded app) c0 self → copies_agree app d →
  app_process_citem cr ci hdr pk item app = Ok app' →
  ∃ d', copies_agree app' d' ∧ app_loaded app' = app_loaded app.
Proof.
  intros Hloaded (Hd & Hps & Hcfg) Hp.
  destruct (cached_peer_set app) as [ps|] eqn:Hc; [|by unfold app_process_citem in Hp; rewrite Hc in Hp].
  destruct (app_process_citem_cases _ _ _ _ _ _ _ _ Hc Hp)
    as [(ps' & keep & s' & Hrun & Hdb & Hps' & Hl & Hk & _)|(e & Hrun & _ & ->)].
  - eapply wp_elim in Hrun; [|apply (try_agrees _ c0 self Hloaded _ _ _ _ _ _ _ _ _ d); [exact Hd|symmetry; by apply Hps]].
    destruct Hrun as (d' & Hd' & Hr & Hkeep). simpl in *. exists d'. split; [|done].
    split; [by rewrite Hdb|]. rewrite Hps', Hk. split; [by intros ? [= <-]|].
    destruct keep; [|done]. intros configs ->%Hcfg. by rewrite Hkeep.
  - exists d. by split_and!.
Qed.

Section CacheWitness.
Local Existing Instance Toy.crypto.
Local Existing Instance Toy.bincode.
Local Existing Instance ToyCtrl.codecs.
Local Existing Instance ToyCtrl.laws.
Local Existing Instance ToyMeta.codecs.
Import ToyApp.

(** The last vote that adds the meta module. *)
Definition three_adds : NodeApp (Y:=unit) :=
  the_app (blocks [(1, [add_meta]); (2, [add_meta]); (3, [add_meta])]%N (boot fresh)).
Definition loaded_three : NodeApp (Y:=unit) :=
  match reload_invalidated_copies (Some 3%N) inits no_other three_adds with Ok app => app | _ => fresh end.
Definition ctrl_cfg : ModuleConfig.t := ModuleConfig.mk CTRL_KIND (ConsensusVersion.mk 0 0).
Definition ctrl_module : ConsensusCtrlModule := MkCtrlModule (ConsensusVersion.mk 0 0) (Some 3%N) inits.
Definition last_add : outcome Whatever (NodeApp (Y:=unit)) :=
  app_process_citem 3 0 (header 3) 4 add_meta loaded_three.

Lemma cached_copies_agree_witness :
  cached_peer_set loaded_three = Some [1; 2; 3; 4]%N ∧ ∃ app' d', last_add = Ok app' ∧ copies_agree app' d'.
Proof.
  split; [vm_compute; reflexivity|].
  assert (match last_add with Ok _ => true | _ => false end = true) as Hok by (vm_compute; reflexivity).
  unfold last_add in *. destruct (app_process_citem _ _ _ _ _ _) as [app'|e|w] eqn:Hrun; [|discriminate Hok..].
  destruct (cached_copies_agree loaded_three app' ctrl_cfg ctrl_module
    (default empty_ctrl (ctrl_of (app_db loaded_three))) 3%N 0%N (header 3) 4%N add_meta) as (d' & Hd' & _).
  - split.
    + vm_cast_no_check (@eq_refl (option (DynModule (Y:=unit))) (Some (ctrl_dyn ctrl_cfg ctrl_module))).
    + reflexivity.
    + intros id m Hm Hid. exfalso. apply Hid.
      assert (dom (app_loaded loaded_three) = {[CONSENSUS_CTRL_MODULE_ID]}) as Hdom
        by (apply (bool_decide_unpack _); vm_compute; exact I).
      apply elem_of_dom_2 in Hm. rewrite Hdom in Hm. by apply elem_of_singleton in Hm.
  - split_and!; [vm_compute; reflexivity| |]; intros x Hx; vm_compute in Hx; injection Hx as <-; vm_compute; reflexivity.
  - exact Hrun.
  - exists app', d'. split; [reflexivity|exact Hd'].
Defined.
End CacheWitness.
