(* ===== verification/Node.v ===== *)
(** * The tasks of a node ([node/src/run_consensus.rs],
      [finality_vote_query_task.rs], [node-shared-modules/src])

    A node runs one round of the consensus after the other.  For a round it
    spawns tasks: to build a proposal when it leads the round, to vote for the
    proposal when it does not, to vote for the dummy block when the time is over,
    and to ask every other peer for its vote and for a notarized block.  A task
    ends with a [RoundEvent]; the loop of the round hands the events to the
    handlers of [Consensus], one after the other, until the round channel shows
    another round.

    Tasks are data here: [spawn_round_tasks] lists them, [task_event] is the
    event a task ends with, given what it waited for, and [handle_event] is the
    body of the loop.  What a task gets from the network or the clock is an
    argument, a [TaskInput]. *)
From S2P Require Import Prelude VoteSet Peers Core Db ConsDb Consensus Module Ctrl NodeApp.

(** ** Payloads of blocks ([BlockPayloadRaw])

    bincode of a list of consensus items, with [CONSENSUS_BINCODE_CONFIG]. *)
Class CItemsCodec := {
  bincode_encode_citems : list CItem → list N;
  bincode_decode_citems : list N → option (list CItem * nat);
}.
Definition encode_citems `{CItemsCodec} (citems : list CItem) : Payload := bincode_encode_citems citems.
Definition decode_citems `{CItemsCodec} (raw : Payload) : outcome Whatever (list CItem) :=
  match decode_whole bincode_decode_citems raw with
  | Some citems => Ok citems
  | None => Err "Unable to decode block payload"
  end.

(** ** Events and tasks *)
Inductive RoundEvent :=
  | EvVote (peer_idx : PeerIdx) (resp : WaitVoteResponse) (round : BlockRound) (peer_pubkey : PeerPubkey)
  | EvVoteSelfProposal (peer_idx : PeerIdx) (resp : WaitVoteResponse)
  | EvVoteSelf (peer_idx : PeerIdx) (resp : WaitVoteResponse)
  | EvVoteSelfTimeout (peer_idx : PeerIdx) (resp : WaitVoteResponse)
  | EvNotarized (peer_idx : PeerIdx) (resp : WaitNotarizedBlockResponse).

Inductive Task :=
  (** [generate_proposal_round_task] *)
  | GenerateProposalTask (cur_round : BlockRound) (our_peer_idx : PeerIdx)
  (** the task of [run_consensus_round_spawn_vote_proposal_task] *)
  | VoteProposalTask (round : BlockRound) (our_peer_idx : PeerIdx)
  (** the task of [run_consensus_round_spawn_timeout_vote_tasks], before and
      after it starts to sleep *)
  | TimeoutVoteTask (round : BlockRound) (dummy_vote : SignedVote) (our_peer_idx : PeerIdx)
  | TimeoutSleepTask (duration : N) (dummy_vote : SignedVote) (our_peer_idx : PeerIdx)
  (** [request_peer_vote], [request_peer_notarized_block] *)
  | RequestVoteTask (round : BlockRound) (peer_idx : PeerIdx) (peer_pubkey : PeerPubkey) (only_dummy : bool)
  | RequestNotarizedTask (round : BlockRound) (peer_idx : PeerIdx) (peer_pubkey : PeerPubkey)
      (prev_notarized_block : option BlockHeader.t).

Global Instance Notarized_eq_dec {T} `{EqDecision T} : EqDecision (Notarized T).
Proof. solve_decision. Defined.
Global Instance WaitVoteResponse_eq_dec : EqDecision WaitVoteResponse.
Proof. solve_decision. Defined.
Global Instance WaitNotarizedBlockResponse_eq_dec : EqDecision WaitNotarizedBlockResponse.
Proof. solve_decision. Defined.
Global Instance RoundEvent_eq_dec : EqDecision RoundEvent.
Proof. solve_decision. Defined.
Global Instance Task_eq_dec : EqDecision Task.
Proof. solve_decision. Defined.

(** One run of [run_consensus_round_inner]: its round, the tasks that run, and
    the events of the tasks that have ended ([JoinSet]). *)
Record RoundRun := MkRoundRun {
  run_round : BlockRound;
  run_params : ConsensusParams.t;
  run_tasks : list Task;
  run_events : list RoundEvent;
}.

(** [Node], as far as the consensus concerns it.  [root_secret] is kept as the
    secret key derived from it; [proposed_citems] is what the loaded modules
    show on [propose_citems_rx]. *)
Record Node := MkNode {
  node_consensus : Consensus;
  peer_seckey : option N;
  node_app_ack : BlockRound;
  pending_transactions : list Transaction;
  proposed_citems : gmap ModuleId (list CItemRaw);
  finality_tasks : gset PeerPubkey;
  round_run : option RoundRun;
}.

Definition set_node_consensus x (n : Node) : Node :=
  MkNode x (peer_seckey n) (node_app_ack n) (pending_transactions n) (proposed_citems n)
    (finality_tasks n) (round_run n).
Definition set_round_run x (n : Node) : Node :=
  MkNode (node_consensus n) (peer_seckey n) (node_app_ack n) (pending_transactions n) (proposed_citems n)
    (finality_tasks n) x.
Definition set_finality_tasks x (n : Node) : Node :=
  MkNode (node_consensus n) (peer_seckey n) (node_app_ack n) (pending_transactions n) (proposed_citems n)
    x (round_run n).

(** ** Proposals of the modules ([WeakSharedModules]) *)
Definition peer_citems (module_id : ModuleId) (citems : list CItemRaw) : list CItem :=
  PeerCItem module_id <$> citems.
(** [wait_consensus_proposal]: the first module, in the order of the ids, that
    proposes something; [None] while it waits. *)
Fixpoint first_proposal (modules : list (ModuleId * list CItemRaw)) : option (list CItem) :=
  match modules with
  | [] => None
  | (module_id, citems) :: modules' =>
      match citems with
      | [] => first_proposal modules'
      | _ :: _ => Some (peer_citems module_id citems)
      end
  end.
Definition wait_consensus_proposal (modules : gmap ModuleId (list CItemRaw)) : option (list CItem) :=
  first_proposal (entries modules).
(** [wait_fresh_consensus_proposal]: only when the application has processed
    everything that is final. *)
Definition wait_fresh_consensus_proposal (modules : gmap ModuleId (list CItemRaw))
    (finality_consensus node_app_ack : BlockRound) : option (list CItem) :=
  if (node_app_ack =? finality_consensus)%N then wait_consensus_proposal modules else None.

Section Rounds.
Context `{Crypto} `{Bincode} `{CItemsCodec}.
Implicit Types (self : Node) (round : BlockRound) (params : ConsensusParams.t).

Definition peer_pubkey self : option PeerPubkey := ed25519_pubkey <$> peer_seckey self.
Definition get_peer_secret_expect {E} self : outcome E N :=
  expect "Must contain root secret to participate" (peer_seckey self).
Definition node_read {A} self (f : Rd ConsDb Empty_set A) : outcome Empty_set A :=
  read_tx (node_consensus self) f.

(** [self.peer_pubkey.and_then(|pk| params.find_peer_idx(pk))] *)
Definition our_idx {E} self params : outcome E (option PeerIdx) :=
  match peer_pubkey self with
  | Some our_peer_pubkey => find_peer_idx params our_peer_pubkey
  | None => Ok None
  end.

(** *** Spawning the tasks of a round *)
Definition run_consensus_round_spawn_generate_proposal_task (our_peer_idx : option PeerIdx) round params
    (existing_dummy_votes existing_non_dummy_votes : VoteSet.VoteSet) : outcome Empty_set (list Task) :=
  let existing_votes := VoteSet.bitor existing_dummy_votes existing_non_dummy_votes in
  match our_peer_idx with
  | None => Ok []
  | Some our_peer_idx =>
      leader ← leader_idx params round;
      if decide (leader = our_peer_idx) then
        if VoteSet.contains existing_votes our_peer_idx then Ok []
        else Ok [GenerateProposalTask round our_peer_idx]
      else Ok []
  end.

Definition run_consensus_round_spawn_vote_proposal_task self (our_peer_idx : option PeerIdx) round params
    (existing_non_dummy_votes : VoteSet.VoteSet) : outcome Empty_set (list Task) :=
  match our_peer_idx with
  | None => Ok []
  | Some our_peer_idx =>
      if VoteSet.contains existing_non_dummy_votes our_peer_idx then Ok []
      else
        leader ← leader_idx params round;
        if decide (leader = our_peer_idx) then Ok []
        else
          _ ← get_peer_secret_expect self;
          Ok [VoteProposalTask round our_peer_idx]
  end.

(** The loop over [peer_idx_iter], with [None] for the peers that are skipped. *)
Fixpoint spawn_requests (request : PeerIdx → PeerPubkey → option Task) params (peer_idxs : list PeerIdx) :
    outcome Empty_set (list Task) :=
  match peer_idxs with
  | [] => Ok []
  | peer_idx :: peer_idxs' =>
      pk ← expect "Must have an entry" (ConsensusParams.peers params !! N.to_nat peer_idx);
      rest ← spawn_requests request params peer_idxs';
      Ok (match request peer_idx pk with Some t => t :: rest | None => rest end)
  end.

Definition vote_request (our_peer_idx : option PeerIdx) round
    (existing_dummy_votes existing_non_dummy_votes : VoteSet.VoteSet) (peer_idx : PeerIdx) (pk : PeerPubkey) :
    option Task :=
  if bool_decide (our_peer_idx = Some peer_idx) then None
  else if VoteSet.contains existing_dummy_votes peer_idx then None
  else Some (RequestVoteTask round peer_idx pk (VoteSet.contains existing_non_dummy_votes peer_idx)).
Definition run_consensus_round_spawn_vote_requests (our_peer_idx : option PeerIdx) round params
    (existing_dummy_votes existing_non_dummy_votes : VoteSet.VoteSet) : outcome Empty_set (list Task) :=
  n ← num_peers params;
  spawn_requests (vote_request our_peer_idx round existing_dummy_votes existing_non_dummy_votes) params
    (NumPeers.peer_idx_iter n).

Definition notarized_request (our_peer_idx : option PeerIdx) round (prev_notarized_block : option BlockHeader.t)
    (peer_idx : PeerIdx) (pk : PeerPubkey) : option Task :=
  if bool_decide (our_peer_idx = Some peer_idx) then None
  else Some (RequestNotarizedTask round peer_idx pk prev_notarized_block).
Definition run_consensus_round_spawn_notarized_blocks_requests (our_peer_idx : option PeerIdx) round params
    (prev_notarized_block : option BlockHeader.t) : outcome Empty_set (list Task) :=
  n ← num_peers params;
  spawn_requests (notarized_request our_peer_idx round prev_notarized_block) params (NumPeers.peer_idx_iter n).

Definition run_consensus_round_spawn_timeout_vote_tasks self (our_peer_idx : option PeerIdx) round params
    (existing_dummy_votes : VoteSet.VoteSet) : outcome Empty_set (list Task) :=
  match our_peer_idx with
  | None => Ok []
  | Some our_peer_idx =>
      if VoteSet.contains existing_dummy_votes our_peer_idx then Ok []
      else
        (* Pre-sign timeout vote, but release it later *)
        block ← new_dummy round params;
        seckey ← get_peer_secret_expect self;
        Ok [TimeoutVoteTask round (new_sign block seckey) our_peer_idx]
  end.

(** [run_consensus_round_inner] up to the loop. *)
Definition spawn_round_tasks self round params : outcome Empty_set (list Task) :=
  existing_dummy_votes ← node_read self (get_peers_with_dummy_votes round);
  existing_non_dummy_votes ← node_read self (get_peers_with_proposal_votes round);
  our_peer_idx ← our_idx self params;
  prev_notarized_block ← node_read self (get_prev_notarized_block round);
  generate ← run_consensus_round_spawn_generate_proposal_task our_peer_idx round params
    existing_dummy_votes existing_non_dummy_votes;
  vote ← run_consensus_round_spawn_vote_proposal_task self our_peer_idx round params existing_non_dummy_votes;
  requests ← run_consensus_round_spawn_vote_requests our_peer_idx round params
    existing_dummy_votes existing_non_dummy_votes;
  blocks ← run_consensus_round_spawn_notarized_blocks_requests our_peer_idx round params prev_notarized_block;
  timeout ← run_consensus_round_spawn_timeout_vote_tasks self our_peer_idx round params existing_dummy_votes;
  Ok (generate ++ vote ++ requests ++ blocks ++ timeout).

(** The condition that the start of a round waits for. *)
Definition round_may_start self round : outcome Empty_set bool :=
  limit ← expect "Can't run out of u64 rounds "
    (checked_add u64_max (node_app_ack self) CONSENSUS_PARAMS_CORE_APPLY_DELAY_BASE);
  Ok (round <? limit)%N.

(** [spawn_finality_vote_query_task]: one task for each peer, ever. *)
Definition spawn_finality_vote_query_tasks self params : gset PeerPubkey :=
  finality_tasks self ∪ list_to_set (ConsensusParams.peers params).

(** [run_consensus_round]: the start of a round, [None] while it has to wait. *)
Definition run_consensus_round self : outcome Empty_set (option Node) :=
  '(round, params) ← get_current_round_and_params (node_consensus self);
  ready ← round_may_start self round;
  if (ready : bool) then
    tasks ← spawn_round_tasks self round params;
    Ok (Some (set_finality_tasks (spawn_finality_vote_query_tasks self params)
                (set_round_run (Some (MkRoundRun round params tasks [])) self)))
  else Ok None.

(** *** What the tasks do *)

(** What ends the wait of [generate_proposal_round_task]. *)
Inductive Trigger := OnTransactions | OnModules | OnFinalityMismatch | OnParamsChange.

(** The consensus items the trigger gives, when its condition holds. *)
Definition proposal_trigger self round (t : Trigger) : outcome Empty_set (option (list CItem)) :=
  let w := watches (node_consensus self) in
  match t with
  | OnTransactions => Ok (match pending_transactions self with [] => None | _ => Some [] end)
  | OnModules =>
      Ok (match wait_fresh_consensus_proposal (proposed_citems self) (finality_consensus w) (node_app_ack self) with
          | Some (_ :: _ as citems) => Some citems
          | _ => None
          end)
  | OnFinalityMismatch => Ok (if (round <=? finality_self_vote w)%N then None else Some [])
  | OnParamsChange =>
      pending ← node_read self (has_pending_consensus_params_change round);
      Ok (if (pending : bool) then Some [] else None)
  end.

Definition generate_proposal self round (citems : list CItem) (now : N) :
    outcome Empty_set (BlockHeader.t * Payload) :=
  consensus_params ← get_round_params (node_consensus self) round;
  prev_block ← node_read self (get_prev_notarized_block round);
  let payload := encode_citems citems in
  block ← new prev_block now round consensus_params payload;
  Ok (block, payload).

(** What a task waits for. *)
Inductive TaskInput :=
  | InTrigger (t : Trigger) (now : N)
  | InNothing
  | InVote (resp : WaitVoteResponse)
  | InNotarized (resp : WaitNotarizedBlockResponse).

(** How a task goes on with an input: it ends with an event, becomes a task
    that sleeps, or keeps waiting. *)
Inductive TaskStep :=
  | TaskDone (e : RoundEvent)
  | TaskSleeps (t : Task)
  | TaskWaits.

(** The condition under which the task of the timeout vote starts to sleep;
    [force_timeout] is the variable BFTE_FORCE_TIMEOUT. *)
Definition timeout_starts (force_timeout : bool) self round : bool :=
  let w := watches (node_consensus self) in
  let '(r, timeout_enabled) := current_round_with_timeout w in
  ((r =? round)%N && (timeout_enabled || force_timeout)) ||
  bool_decide (is_Some (wait_fresh_consensus_proposal (proposed_citems self) (finality_consensus w) (node_app_ack self))).

(** [generate_proposal_round_task], when the trigger is checked. *)
Definition generate_proposal_round_task self (cur_round : BlockRound) (our_peer_idx : PeerIdx) (trigger : Trigger) (now : N) :
    outcome Empty_set TaskStep :=
  citems ← proposal_trigger self cur_round trigger;
  match citems with
  | None => Ok TaskWaits
  | Some pending_citems =>
      '(block, payload) ← generate_proposal self cur_round
        (pending_citems ++ (CTransaction <$> pending_transactions self)) now;
      seckey ← get_peer_secret_expect self;
      Ok (TaskDone (EvVoteSelfProposal our_peer_idx (Proposal (new_sign block seckey) payload)))
  end.
(** The loop of the task of [run_consensus_round_spawn_vote_proposal_task]. *)
Definition vote_proposal_task self round (our_peer_idx : PeerIdx) : outcome Empty_set TaskStep :=
  proposal ← node_read self (get_proposal round);
  match proposal with
  | None => Ok TaskWaits
  | Some proposal =>
      seckey ← get_peer_secret_expect self;
      Ok (TaskDone (EvVoteSelf our_peer_idx (Vote (new_sign proposal seckey))))
  end.
(** [request_peer_vote] and [request_peer_notarized_block], with the answer. *)
Definition request_peer_vote round (peer_idx : PeerIdx) (peer_pubkey : PeerPubkey) (resp : WaitVoteResponse) : RoundEvent :=
  EvVote peer_idx resp round peer_pubkey.
Definition request_peer_notarized_block (peer_idx : PeerIdx) (resp : WaitNotarizedBlockResponse) : RoundEvent :=
  EvNotarized peer_idx resp.

Definition task_event (force_timeout : bool) self (t : Task) (input : TaskInput) : outcome Empty_set TaskStep :=
  match t, input with
  | GenerateProposalTask cur_round our_peer_idx, InTrigger trigger now =>
      generate_proposal_round_task self cur_round our_peer_idx trigger now
  | VoteProposalTask round our_peer_idx, InNothing => vote_proposal_task self round our_peer_idx
  | TimeoutVoteTask round dummy_vote our_peer_idx, InNothing =>
      if timeout_starts force_timeout self round then
        duration ← get_current_round_timeout (node_consensus self);
        Ok (TaskSleeps (TimeoutSleepTask duration dummy_vote our_peer_idx))
      else Ok TaskWaits
  | TimeoutSleepTask _ dummy_vote our_peer_idx, InNothing =>
      Ok (TaskDone (EvVoteSelfTimeout our_peer_idx (Vote dummy_vote)))
  | RequestVoteTask round peer_idx peer_pubkey _, InVote resp =>
      Ok (TaskDone (request_peer_vote round peer_idx peer_pubkey resp))
  | RequestNotarizedTask _ peer_idx _ _, InNotarized resp =>
      Ok (TaskDone (request_peer_notarized_block peer_idx resp))
  | _, _ => Ok TaskWaits
  end.

(** The requests the tasks send. *)
Definition vote_request_msg round (only_dummy : bool) : WaitVoteRequest := MkWaitVoteRequest round only_dummy.
Definition notarized_request_msg round (prev_notarized_block : option BlockHeader.t) :
    outcome Empty_set WaitNotarizedBlockRequest :=
  min ← match prev_notarized_block with
        | Some b => expect "Can't fail" (round_next (BlockHeader.round b))
        | None => Ok 0%N
        end;
  Ok (MkWaitNotarizedBlockRequest min round).

(** *** The body of [run_consensus_round_loop]

    The outcome of the handler, the consensus after it, and the tasks that are
    spawned.  An error is logged; a panic ends the node. *)
Definition handle_event (c : Consensus) (e : RoundEvent) : outcome Empty_set () * Consensus * list Task :=
  let logged {E} (r : outcome E () * Consensus) (tasks : list Task) :=
    match r with
    | (Ok _, c') | (Err _, c') => (Ok (), c', tasks)
    | (Panic w, c') => (Panic w, c', [])
    end in
  match e with
  | EvVote peer_idx resp round peer_pubkey =>
      let is_dummy := is_dummy (signed_inner (resp_block resp)) in
      logged (process_vote_response c peer_idx resp)
        (if is_dummy then [] else [RequestVoteTask round peer_idx peer_pubkey true])
  | EvVoteSelfProposal peer_idx resp | EvVoteSelf peer_idx resp | EvVoteSelfTimeout peer_idx resp =>
      logged (process_vote_response c peer_idx resp) []
  | EvNotarized peer_idx resp =>
      logged (process_notarized_block_response c peer_idx resp) []
  end.

(** One iteration of the loop: the round is over when the channel shows another
    one; otherwise the next event, the [j]-th of those at hand, is handled. *)
Inductive LoopStep :=
  | LoopEnds
  | LoopWaits
  | LoopPanics (why : string)
  | LoopHandled (e : RoundEvent) (o : outcome Empty_set ()) (self : Node).
Definition run_consensus_round_loop (j : nat) self (run : RoundRun) : LoopStep :=
  if decide ((current_round_with_timeout (watches (node_consensus self))).1 = run_round run) then
    match run_events run !! j with
    | Some e =>
        let '(o, c', spawned) := handle_event (node_consensus self) e in
        LoopHandled e o (set_round_run
          (Some (MkRoundRun (run_round run) (run_params run) (run_tasks run ++ spawned)
                   (delete j (run_events run))))
          (set_node_consensus c' self))
    | None =>
        match run_tasks run, run_events run with
        | [], [] => LoopPanics "Always has events"
        | _, _ => LoopWaits
        end
    end
  else LoopEnds.

(** *** Finality votes of the other peers ([peer_finality_vote_query]) *)
Definition finality_vote_request self (peer_pubkey : PeerPubkey) : outcome Empty_set BlockRound :=
  prev_vote ← node_read self (get_finality_vote peer_pubkey);
  Ok (default 0%N prev_vote).
(** The client checks the signature of the answer before it is processed
    ([rpc::wait_finality_vote]), with the panic of an invalid key. *)
Definition peer_finality_vote_query self (peer_pubkey : PeerPubkey) (resp : WaitFinalityVoteResponse) :
    outcome Whatever () * Node :=
  match verify_sig_peer_pubkey (update resp) peer_pubkey with
  | Panic w => (Panic w, self)
  | Err _ => (Err "Invalid address resp signature", self)
  | Ok _ =>
      match process_finality_vote_update_response (node_consensus self) peer_pubkey resp with
      | (Ok _, c') => (Ok (), set_node_consensus c' self)
      | (Err _, c') => (Err "Failed to process finality vote update", set_node_consensus c' self)
      | (Panic w, c') => (Panic w, set_node_consensus c' self)
      end
  end.
End Rounds.
