(* ===== verification/Network.v ===== *)
(** * A network of nodes

    The correct nodes of a network, each running the tasks of [Node], and the
    messages that reach them.  Faulty peers and the network between the nodes are
    not modelled: they may deliver any message, at any time, in any order, as
    often as they like, with one limit: a signature in a message that is valid
    under the key of a correct node, over a block that is not a dummy, is one
    that node made and stored ([released]).  A node that made a signature and did
    not accept its own vote never stores it, and only stored votes are served
    ([rpc_server.rs]). *)
From S2P Require Import Prelude VoteSet Peers Core Db ConsDb ConsInv Consensus ConsSteps ConsSpec ConsVotes ConsProps Module Ctrl NodeApp Node.

(** The correct nodes, and the votes for blocks that they accepted from
    themselves. *)
Record World := MkWorld {
  nodes : gmap N Node;
  released : list (PeerPubkey * BlockHeader.t);
}.

Section Network.
Context `{Crypto} `{Bincode} `{CItemsCodec}.
Implicit Types (W : World) (n : Node) (b : BlockHeader.t) (pk : PeerPubkey).

Definition correct W pk : Prop := ∃ id n, nodes W !! id = Some n ∧ peer_pubkey n = Some pk.

(** The signature [s] of the peer with index [i] on [b] can be in a message. *)
Definition authentic W (keys : list PeerPubkey) (i : PeerIdx) b (s : Signature) : Prop := ∀ pk,
  keys !! N.to_nat i = Some pk → correct W pk → is_dummy b = false →
  verify_strict pk (hash_bytes (sign_hash b)) s = true → (pk, b) ∈ released W.

(** What the network can hand to a node.  (No run gets to the last of the 2^64
    rounds.) *)
Definition admissible_event W n (e : RoundEvent) : Prop :=
  let d := db (node_consensus n) in
  match e with
  | EvVote i resp _ _ => ∀ p,
      let b := signed_inner (resp_block resp) in
      params_at d (BlockHeader.round b) = Some p →
      authentic W (ConsensusParams.peers p) i b (sig (resp_block resp))
  | EvNotarized _ resp =>
      let b := notarized_inner (resp_notarized resp) in
      (BlockHeader.round b < u64_max)%N ∧
      ∀ p i s, params_at d (BlockHeader.round b) = Some p → sigs (resp_notarized resp) !! i = Some s →
        authentic W (ConsensusParams.peers p) i b s
  | EvVoteSelfProposal _ _ | EvVoteSelf _ _ | EvVoteSelfTimeout _ _ => True
  end.

(** The own vote that is stored, and can be served from then on, when the event
    is handled. *)
Definition releases n (e : RoundEvent) : list (PeerPubkey * BlockHeader.t) :=
  match e, peer_pubkey n with
  | (EvVoteSelfProposal i resp | EvVoteSelf i resp), Some pk =>
      match (process_vote_response (node_consensus n) i resp).1 with
      | Ok _ => [(pk, signed_inner (resp_block resp))]
      | _ => []
      end
  | _, _ => []
  end.

(** A step of a node, with the votes it releases. *)
Inductive nstep W n : list (PeerPubkey * BlockHeader.t) → Node → Prop :=
  | NStart n' :
      round_run n = None → run_consensus_round n = Ok (Some n') → nstep W n [] n'
  | NTask run j t force input e :
      round_run n = Some run → run_tasks run !! j = Some t →
      task_event force n t input = Ok (TaskDone e) →
      nstep W n [] (set_round_run (Some (MkRoundRun (run_round run) (run_params run)
        (delete j (run_tasks run)) (run_events run ++ [e]))) n)
  | NSleep run j t force input t' :
      round_run n = Some run → run_tasks run !! j = Some t →
      task_event force n t input = Ok (TaskSleeps t') →
      nstep W n [] (set_round_run (Some (MkRoundRun (run_round run) (run_params run)
        (<[j := t']> (run_tasks run)) (run_events run))) n)
  | NHandle run j e o n' :
      round_run n = Some run → run_consensus_round_loop j n run = LoopHandled e o n' →
      admissible_event W n e → nstep W n (releases n e) n'
  | NEnd run j :
      round_run n = Some run → run_consensus_round_loop j n run = LoopEnds →
      nstep W n [] (set_round_run None n)
  | NFinality pk resp :
      pk ∈ finality_tasks n → nstep W n [] (peer_finality_vote_query n pk resp).2
  | NParams round ts peers :
      change_ok (node_consensus n) round ts peers →
      nstep W n [] (set_node_consensus (write_tx (node_consensus n) (consensus_params_change_tx (E:=Empty_set)
        (current_round_with_timeout (watches (node_consensus n))).1 round ts peers)).2 n)
  (** the application acknowledges a round; transactions and proposals appear *)
  | NApp ack txs citems :
      nstep W n [] (MkNode (node_consensus n) (peer_seckey n) ack txs citems (finality_tasks n) (round_run n))
  (** the process ends at any point and is started again *)
  | NRestart c' citems :
      open (db (node_consensus n)) (peer_pubkey n) = Ok c' →
      nstep W n [] (MkNode c' (peer_seckey n) 0 [] citems ∅ None).

Inductive wstep W : World → Prop :=
  | WStep id n rel n' :
      nodes W !! id = Some n → nstep W n rel n' →
      wstep W (MkWorld (<[id := n']> (nodes W)) (rel ++ released W)).

(** A node that was just created, or just joined with a pinned block. *)
Definition fresh n : Prop := ∃ params pinned,
  params_wf params ∧ init params empty_db (peer_pubkey n) pinned = Ok (node_consensus n) ∧ round_run n = None.
Inductive wreach : World → Prop :=
  | WInit ns :
      map_Forall (λ _ n, fresh n) ns →
      (∀ id1 id2 n1 n2 pk, ns !! id1 = Some n1 → ns !! id2 = Some n2 →
         peer_pubkey n1 = Some pk → peer_pubkey n2 = Some pk → id1 = id2) →
      wreach (MkWorld ns [])
  | WReach W W' : wreach W → wstep W W' → wreach W'.

(** ** The invariant *)

(** The index of the tasks that vote is that of the node. *)
Definition own_index n (p : ConsensusParams.t) (i : PeerIdx) : Prop :=
  ∃ pk, peer_pubkey n = Some pk ∧ ConsensusParams.peers p !! N.to_nat i = Some pk.
Definition task_ok n run (t : Task) : Prop :=
  match t with
  | GenerateProposalTask r i | VoteProposalTask r i => r = run_round run ∧ own_index n (run_params run) i
  | TimeoutVoteTask _ v _ | TimeoutSleepTask _ v _ => is_dummy (signed_inner v) = true
  | RequestVoteTask _ _ _ _ | RequestNotarizedTask _ _ _ _ => True
  end.
Definition event_ok n run (e : RoundEvent) : Prop :=
  let d := db (node_consensus n) in
  match e with
  | EvVoteSelfProposal i resp =>
      own_index n (run_params run) i ∧ is_proposal resp = true ∧
      BlockHeader.round (signed_inner (resp_block resp)) = run_round run
  | EvVoteSelf i resp =>
      own_index n (run_params run) i ∧
      BlockHeader.round (signed_inner (resp_block resp)) = run_round run ∧
      cons_blocks_proposals d !! run_round run = Some (signed_inner (resp_block resp))
  | EvVoteSelfTimeout _ resp => is_dummy (signed_inner (resp_block resp)) = true
  | EvVote _ _ _ _ | EvNotarized _ _ => True
  end.
Definition run_ok n run : Prop :=
  (run_round run ≤ cur (node_consensus n))%N ∧
  params_at (db (node_consensus n)) (run_round run) = Some (run_params run) ∧
  Forall (task_ok n run) (run_tasks run) ∧ Forall (event_ok n run) (run_events run).

(** The stored votes of correct peers are released. *)
Definition votes_released W n : Prop := ∀ r i v p pk,
  cons_votes_block (db (node_consensus n)) !! (r, i) = Some v →
  params_at (db (node_consensus n)) r = Some p →
  ConsensusParams.peers p !! N.to_nat i = Some pk → correct W pk → (pk, signed_inner v) ∈ released W.

Record NodeInv W n : Prop := {
  ni_reachable : reachable (node_consensus n);
  ni_votes : votes_released W n;
  ni_run : ∀ run, round_run n = Some run → run_ok n run;
}.
Record WorldInv W : Prop := {
  wi_nodes : map_Forall (λ _ n, NodeInv W n) (nodes W);
  wi_distinct : ∀ id1 id2 n1 n2 pk, nodes W !! id1 = Some n1 → nodes W !! id2 = Some n2 →
    peer_pubkey n1 = Some pk → peer_pubkey n2 = Some pk → id1 = id2;
  wi_released : ∀ pk b, (pk, b) ∈ released W → ∃ id n, nodes W !! id = Some n ∧ peer_pubkey n = Some pk ∧
    cons_blocks_proposals (db (node_consensus n)) !! BlockHeader.round b = Some b;
}.
End Network.
