(* ===== verification/NetInv.v ===== *)
(** * The invariant of a network of nodes

    Every step of a node keeps the invariant of [Network]: the tasks of a node
    vote with its own index, what it releases is its stored proposal, and the
    votes it stores of correct peers are votes those peers released. *)
From S2P Require Import Prelude VoteSet Peers Core Db ConsDb ConsInv Consensus ConsSteps ConsSpec ConsVotes ConsProps ConsServe Module Ctrl NodeApp Node Network.

Section NodeLemmas.
Context `{Crypto} `{Bincode} `{CItemsCodec}.
Implicit Types (W : World) (n : Node) (b : BlockHeader.t) (pk : PeerPubkey).

(** ** The loop of a round *)

(** The consensus after an event. *)
Definition event_consensus (c : Consensus) (e : RoundEvent) : Consensus :=
  match e with
  | EvVote i resp _ _ | EvVoteSelfProposal i resp | EvVoteSelf i resp | EvVoteSelfTimeout i resp =>
      (process_vote_response c i resp).2
  | EvNotarized i resp => (process_notarized_block_response c i resp).2
  end.

Definition is_vote_request (t : Task) : Prop :=
  match t with RequestVoteTask _ _ _ _ => True | _ => False end.

Lemma handle_event_spec c e o c' spawned :
  handle_event c e = (o, c', spawned) → c' = event_consensus c e ∧ Forall is_vote_request spawned.
Proof.
  destruct e; cbn; [..|destruct (process_notarized_block_response _ _ _) as [[[]|err|w] ?]; intros [= _ <- <-]; by split];
    destruct (process_vote_response _ _ _) as [[[]|err|w] ?]; intros [= _ <- <-]; (split; [done|]);
    try done; case_match; repeat constructor.
Qed.

Lemma loop_handled j n run e o n' :
  run_consensus_round_loop j n run = LoopHandled e o n' →
  run_events run !! j = Some e ∧
  ∃ spawned, handle_event (node_consensus n) e = (o, event_consensus (node_consensus n) e, spawned) ∧
    n' = set_round_run (Some (MkRoundRun (run_round run) (run_params run) (run_tasks run ++ spawned)
           (delete j (run_events run)))) (set_node_consensus (event_consensus (node_consensus n) e) n).
Proof.
  unfold run_consensus_round_loop. case_decide; [|done].
  destruct (run_events run !! j) as [e'|]; [|by repeat case_match].
  destruct (handle_event (node_consensus n) e') as [[o' c'] spawned] eqn:He.
  pose proof He as [-> _]%handle_event_spec. intros [= <- <- <-]. split; [done|]. by exists spawned.
Qed.

(** ** The start of a round *)
Lemma run_consensus_round_spec n n' :
  run_consensus_round n = Ok (Some n') →
  ∃ r p tasks, get_current_round_and_params (node_consensus n) = Ok (r, p) ∧
    round_may_start n r = Ok true ∧ spawn_round_tasks n r p = Ok tasks ∧
    n' = set_finality_tasks (spawn_finality_vote_query_tasks n p)
           (set_round_run (Some (MkRoundRun r p tasks [])) n).
Proof.
  unfold run_consensus_round. intros ([r p] & Hr & (ready & Hm & Hs)%bind_Ok)%bind_Ok.
  destruct ready; [|done]. apply bind_Ok in Hs as (tasks & Ht & [= <-]). by exists r, p, tasks.
Qed.

(** ** A step changes the consensus by one operation, and keeps the key *)
Lemma nstep_consensus W n rel n' :
  nstep W n rel n' →
  peer_pubkey n' = peer_pubkey n ∧
  (node_consensus n' = node_consensus n ∨ cstep (node_consensus n) (node_consensus n')).
Proof.
  destruct 1 as [n' Hrun Hstart| | |run j e o n' Hrun Hloop Hadm| |pk resp Hpk|round ts peers Hch| |c' citems Ho].
  - apply run_consensus_round_spec in Hstart as (r & p & tasks & _ & _ & _ & ->). by split; [|left].
  - by split; [|left].
  - by split; [|left].
  - apply loop_handled in Hloop as (_ & spawned & _ & ->). split; [done|right]. cbn.
    destruct e; cbn; try apply CVote. by apply CNotarized, Hadm.
  - by split; [|left].
  - unfold peer_finality_vote_query. destruct (verify_sig_peer_pubkey _ _) as [[]| |]; cbn; [|by split; [|left]..].
    destruct (process_finality_vote_update_response _ _ _) as [[[]|err|w] c'] eqn:Hp; cbn;
      (split; [done|right]); rewrite <-(f_equal snd Hp : _ = c'); apply CFinality.
  - split; [done|right]. by apply CParams.
  - by split; [|left].
  - split; [done|right]. by eapply CReopen.
Qed.

Lemma nstep_wf W n rel n' :
  reachable (node_consensus n) → nstep W n rel n' →
  reachable (node_consensus n') ∧ (cur (node_consensus n) ≤ cur (node_consensus n'))%N ∧
  cons_blocks_proposals (db (node_consensus n)) ⊆ cons_blocks_proposals (db (node_consensus n')) ∧
  params_kept (node_consensus n) (node_consensus n').
Proof.
  intros Hr Hs. destruct (nstep_consensus _ _ _ _ Hs) as [_ [->|Hc]]; [done|].
  destruct (cstep_spec _ _ (reachable_wf _ Hr) Hc) as (_ & ? & ? & ?).
  split_and!; [by eapply RStep|done..].
Qed.

(** ** The correct nodes of a world do not change *)
Lemma correct_step W id n rel n' pk :
  nodes W !! id = Some n → peer_pubkey n' = peer_pubkey n →
  correct (MkWorld (<[id := n']> (nodes W)) (rel ++ released W)) pk ↔ correct W pk.
Proof.
  intros Hn Hpk. unfold correct. simpl. split.
  - intros (id' & m & [[<- <-]|[_ Hm]]%lookup_insert_Some & Hmp); [|by eauto].
    exists id, n. by rewrite <-Hpk.
  - intros (id' & m & Hm & Hmp). destruct (decide (id = id')) as [<-|Hne].
    + exists id, n'. rewrite lookup_insert_eq. simplify_eq. by rewrite Hpk.
    + exists id', m. by rewrite lookup_insert_ne.
Qed.

Lemma votes_released_mono W W' n :
  (∀ pk, correct W' pk → correct W pk) → released W ⊆ released W' → votes_released W n → votes_released W' n.
Proof. intros Hc Hr Hv r i v p pk ????. apply Hr. eapply Hv; eauto. Qed.

(** ** The run of a round *)
Lemma run_ok_mono n n' run :
  peer_pubkey n' = peer_pubkey n → (cur (node_consensus n) ≤ cur (node_consensus n'))%N →
  cons_blocks_proposals (db (node_consensus n)) ⊆ cons_blocks_proposals (db (node_consensus n')) →
  params_kept (node_consensus n) (node_consensus n') → run_ok n run → run_ok n' run.
Proof.
  intros Hpk Hcur Hprop Hpar (Hr & Hp & Ht & He). split_and!.
  - lia.
  - by rewrite Hpar.
  - eapply Forall_impl; [exact Ht|]. intros []; unfold task_ok, own_index; by rewrite ?Hpk.
  - eapply Forall_impl; [exact He|]. intros []; unfold event_ok, own_index; rewrite ?Hpk; try done.
    intros (? & ? & ?). split_and!; [done..|]. by eapply lookup_weaken.
Qed.

Lemma our_idx_own n p i : our_idx (E:=Empty_set) n p = Ok (Some i) → own_index n p i.
Proof.
  unfold our_idx, own_index. destruct (peer_pubkey n) as [pk|]; [|done]. unfold find_peer_idx.
  destruct (list_find _ _) as [[k pk']|] eqn:Hf; [|done]. apply list_find_Some in Hf as (Hk & -> & _).
  unfold idx_of_nat. case_decide; [|done]. intros [= <-]. exists pk. by rewrite Nat2N.id.
Qed.

Lemma spawn_requests_Forall (P : Task → Prop) request p l tasks :
  (∀ i pk t, request i pk = Some t → P t) → spawn_requests request p l = Ok tasks → Forall P tasks.
Proof.
  intros HP. revert tasks. induction l as [|i l IH]; intros tasks; cbn [spawn_requests].
  { intros [= <-]. constructor. }
  intros (pk & _ & (rest & Hrest & [= <-])%bind_Ok)%bind_Ok.
  destruct (request i pk) as [t|] eqn:Ht; [constructor|]; eauto.
Qed.

Lemma new_dummy_is_dummy {E} r p b : new_dummy (E:=E) r p = Ok b → is_dummy b = true.
Proof. unfold new_dummy. intros (hl & _ & [= <-])%bind_Ok. done. Qed.

Lemma spawn_round_tasks_ok n r p tasks run :
  run_round run = r → run_params run = p →
  spawn_round_tasks n r p = Ok tasks → Forall (task_ok n run) tasks.
Proof.
  intros Hr Hp. unfold spawn_round_tasks.
  intros (dummy & _ & (votes & _ & (idx & Hidx & (prev & _ & (t1 & H1' & (t2 & H2 & (t3 & H3 & (t4 & H4 &
    (t5 & H5 & [= <-])%bind_Ok)%bind_Ok)%bind_Ok)%bind_Ok)%bind_Ok)%bind_Ok)%bind_Ok)%bind_Ok)%bind_Ok.
  assert (∀ i, idx = Some i → own_index n (run_params run) i) as Hown
    by (intros i ->; rewrite Hp; by apply our_idx_own).
  rewrite !Forall_app. split_and!.
  - destruct idx as [i|]; cbn in H1'; [|by injection H1' as <-]. apply bind_Ok in H1' as (l & _ & Ht).
    repeat case_match; simplify_eq; repeat constructor; auto.
  - destruct idx as [i|]; cbn in H2; [|by injection H2 as <-].
    case_match; [by simplify_eq|]. apply bind_Ok in H2 as (l & _ & Ht).
    case_decide; [by simplify_eq|]. apply bind_Ok in Ht as (sk & _ & Ht). simplify_eq.
    repeat constructor; auto.
  - apply bind_Ok in H3 as (k & _ & H3). eapply spawn_requests_Forall, H3.
    unfold vote_request. intros i pk t. repeat case_match; by intros [= <-].
  - apply bind_Ok in H4 as (k & _ & H4). eapply spawn_requests_Forall, H4.
    unfold notarized_request. intros i pk t. repeat case_match; by intros [= <-].
  - destruct idx as [i|]; cbn in H5; [|by injection H5 as <-]. case_match; [by simplify_eq|].
    apply bind_Ok in H5 as (blk & Hd & (sk & _ & [= <-])%bind_Ok).
    repeat constructor. by eapply new_dummy_is_dummy.
Qed.

Lemma generate_proposal_round n r citems now b payload :
  generate_proposal n r citems now = Ok (b, payload) → BlockHeader.round b = r.
Proof.
  unfold generate_proposal.
  intros (p & _ & (prev & _ & (blk & Hb & [= <- _])%bind_Ok)%bind_Ok)%bind_Ok.
  unfold new in Hb. by apply bind_Ok in Hb as (pl & _ & (cl & _ & [= <-])%bind_Ok).
Qed.

Lemma read_tx_get_proposal self r b :
  DbInv (db self) → read_tx self (get_proposal r) = Ok (Some b) →
  cons_blocks_proposals (db self) !! r = Some b ∧ BlockHeader.round b = r.
Proof.
  intros Hinv. unfold read_tx, read_with_expect, read_with_inner_falliable, get_proposal, mbind, rd_bind, rd_get, rd_lift, rassert.
  destruct (cons_blocks_proposals (db self) !! r) as [b'|] eqn:Hb; [|done].
  pose proof (inv_proposals _ Hinv r b' Hb) as (Hr & _). rewrite Hr, N.eqb_refl. cbn. by intros [= <-].
Qed.

Lemma task_event_ok force n run t input e :
  reachable (node_consensus n) → run_ok n run → task_ok n run t →
  task_event force n t input = Ok (TaskDone e) → event_ok n run e.
Proof.
  intros Hreach Hrun Ht He. destruct t as [r i|r i|r v i|dur v i|r i pk od|r i pk prev], input; try done; cbn in He.
  - destruct Ht as [-> Hi]. apply bind_Ok in He as ([citems|] & _ & He); [|done].
    apply bind_Ok in He as ([b payload] & Hg & (sk & _ & [= <-])%bind_Ok).
    split_and!; [done..|]. by eapply generate_proposal_round.
  - destruct Ht as [-> Hi]. apply bind_Ok in He as ([b|] & Hg & He); [|done].
    apply bind_Ok in He as (sk & _ & [= <-]).
    apply read_tx_get_proposal in Hg as [Hb Hr]; [|apply (reachable_wf _ Hreach)]. by split_and!.
  - case_match; [|done]. by apply bind_Ok in He as (dur & _ & He).
  - by injection He as <-.
  - by injection He as <-.
  - by injection He as <-.
Qed.

Lemma task_sleeps_ok force n run t input t' :
  task_ok n run t → task_event force n t input = Ok (TaskSleeps t') → task_ok n run t'.
Proof.
  intros Ht He. destruct t as [r i|r i|r v i|dur v i|r i pk od|r i pk prev], input; try done; cbn in He.
  - apply bind_Ok in He as ([citems|] & _ & He); [|done].
    by apply bind_Ok in He as ([b payload] & _ & (sk & _ & ?)%bind_Ok).
  - apply bind_Ok in He as ([b|] & _ & He); [|done]. by apply bind_Ok in He as (sk & _ & ?).
  - case_match; [|done]. by apply bind_Ok in He as (dur & _ & [= <-]).
Qed.

Lemma get_current_round_and_params_Ok self r p :
  get_current_round_and_params self = Ok (r, p) → r = cur self ∧ params_at (db self) r = Some p.
Proof.
  unfold get_current_round_and_params, read_tx, read_with_expect, read_with_inner_falliable, get_current_round,
    mbind, rd_bind, rd_get. fold (cur_round_of (db self)).
  destruct (get_consensus_params (E:=Empty_set) (cur_round_of (db self)) (db self)) as [q|[e|e]|w] eqn:Hq; try done.
  cbn. intros [= <- <-]. split; [done|]. by apply get_consensus_params_Ok in Hq.
Qed.

(** ** A step keeps the run of the node in order *)
Lemma nstep_run W n rel n' run' :
  NodeInv W n → nstep W n rel n' → round_run n' = Some run' → run_ok n' run'.
Proof.
  intros [Hreach _ Hrun] Hs. destruct (nstep_wf _ _ _ _ Hreach Hs) as (_ & Hcur & Hprop & Hpar).
  destruct (nstep_consensus _ _ _ _ Hs) as [Hpk _].
  destruct Hs as [n' Hnone Hstart|run j t force input e Hr Ht He|run j t force input t' Hr Ht He
    |run j e o n' Hr Hloop Hadm| |pk resp Hin|round ts peers Hch| | ]; try done.
  - apply run_consensus_round_spec in Hstart as (r & p & tasks & Hrp & _ & Htasks & ->). cbn. intros [= <-].
    apply get_current_round_and_params_Ok in Hrp as [-> Hp].
    split_and!; [done|done| |constructor]. exact (spawn_round_tasks_ok n _ p tasks (MkRoundRun _ p tasks []) eq_refl eq_refl Htasks).
  - cbn. intros [= <-]. destruct (Hrun run Hr) as (Hle & Hp & Hts & Hes).
    pose proof (proj1 (Forall_lookup _ _) Hts j t Ht) as Htok. split_and!; [done|done|by apply Forall_delete|].
    apply Forall_app_2; [done|]. constructor; [|constructor]. by eapply (task_event_ok force n run t input).
  - cbn. intros [= <-]. destruct (Hrun run Hr) as (Hle & Hp & Hts & Hes).
    pose proof (proj1 (Forall_lookup _ _) Hts j t Ht) as Htok. split_and!; [done|done| |done].
    apply Forall_insert; [done|]. by eapply (task_sleeps_ok force n run t input).
  - apply loop_handled in Hloop as (Hj & spawned & Hsp & ->). cbn. intros [= <-].
    destruct (run_ok_mono n _ run Hpk Hcur Hprop Hpar (Hrun run Hr)) as (Hle & Hp & Hts & Hes).
    split_and!; [done|done| |by apply Forall_delete]. apply Forall_app_2; [exact Hts|].
    apply handle_event_spec in Hsp as [_ Hsp].
    eapply Forall_impl; [exact Hsp|]. by intros [].
  - intros Hr. assert (round_run (peer_finality_vote_query n pk resp).2 = round_run n) as Heq.
    { unfold peer_finality_vote_query. by repeat case_match. }
    rewrite Heq in Hr. exact (run_ok_mono n _ run' Hpk Hcur Hprop Hpar (Hrun run' Hr)).
  - intros Hr. exact (run_ok_mono n _ run' Hpk Hcur Hprop Hpar (Hrun run' Hr)).
  - intros Hr. exact (run_ok_mono n _ run' Hpk Hcur Hprop Hpar (Hrun run' Hr)).
Qed.

(** ** What a node releases, it has stored as the proposal of the round *)
Lemma nstep_releases W n rel n' pk b :
  NodeInv W n → nstep W n rel n' → (pk, b) ∈ rel →
  peer_pubkey n = Some pk ∧ cons_blocks_proposals (db (node_consensus n')) !! BlockHeader.round b = Some b.
Proof.
  intros [Hreach _ Hrun] Hs. destruct (nstep_wf _ _ _ _ Hreach Hs) as (_ & _ & Hprop & _).
  destruct Hs as [| | |run j e o n' Hr Hloop Hadm| | | | |]; try (intros []%not_elem_of_nil).
  apply loop_handled in Hloop as (Hj & spawned & Hsp & ->). cbn in Hprop |- *.
  destruct (Hrun run Hr) as (_ & _ & _ & Hes). pose proof (proj1 (Forall_lookup _ _) Hes j e Hj) as He.
  unfold releases. destruct e as [i resp r pk'|i resp|i resp|i resp|i resp]; try (intros []%not_elem_of_nil).
  all: destruct (peer_pubkey n) as [pk0|]; [|intros []%not_elem_of_nil].
  all: destruct (process_vote_response (node_consensus n) i resp) as [[[]|err|w] c'] eqn:Hp; cbn;
    try (intros []%not_elem_of_nil); intros [= -> ->]%list_elem_of_singleton; (split; [done|]).
  - destruct He as (_ & Hprop' & _). destruct resp as [block payload|]; [|done]. cbn.
    rewrite Hp. by eapply proposal_stored.
  - destruct He as (_ & Hround & Hb). cbn in Hprop. rewrite Hround. by eapply lookup_weaken.
Qed.

(** ** The votes a step stores are released *)
Definition vote_released W n (rel : list (PeerPubkey * BlockHeader.t)) r i v : Prop := ∀ p pk,
  params_at (db (node_consensus n)) r = Some p → ConsensusParams.peers p !! N.to_nat i = Some pk →
  correct W pk → (pk, signed_inner v) ∈ rel ++ released W.

Lemma sig_ok_verifies h keys i s pk :
  sig_ok h keys i s = true → keys !! N.to_nat i = Some pk → verify_strict pk (hash_bytes h) s = true.
Proof. unfold sig_ok. intros Hs Hpk. rewrite Hpk in Hs. by apply andb_true_iff in Hs as [_ ?]. Qed.

Lemma authentic_released W n rel r i v :
  new_vote (node_consensus n) r i v →
  (∀ p, params_at (db (node_consensus n)) (BlockHeader.round (signed_inner v)) = Some p →
     authentic W (ConsensusParams.peers p) i (signed_inner v) (sig v)) →
  vote_released W n rel r i v.
Proof.
  intros (Hr & Hd & p' & Hp' & Hsig) Hadm p pk Hp Hpk Hc. apply elem_of_app. right.
  rewrite Hp in Hp'. injection Hp' as <-. rewrite <-Hr in Hp.
  apply (Hadm p Hp pk); [done..|]. by eapply sig_ok_verifies.
Qed.

(** Our own vote is the one of our own key. *)
Lemma own_vote_released W n run i resp :
  params_at (db (node_consensus n)) (run_round run) = Some (run_params run) →
  own_index n (run_params run) i → BlockHeader.round (signed_inner (resp_block resp)) = run_round run →
  (process_vote_response (node_consensus n) i resp).1 = Ok () →
  vote_released W n (releases n (EvVoteSelf i resp)) (BlockHeader.round (signed_inner (resp_block resp))) i
    (resp_block resp).
Proof.
  intros Hp (pk0 & Hpk0 & Hi) -> Hok p pk Hp' Hpk _. simplify_eq. apply elem_of_app. left.
  unfold releases. rewrite Hpk0, Hok. by apply list_elem_of_singleton.
Qed.

(** Handling an event schedules no parameters. *)
Lemma event_params W n e r :
  consensus_wf (node_consensus n) → admissible_event W n e →
  params_at (db (event_consensus (node_consensus n) e)) r = params_at (db (node_consensus n)) r.
Proof.
  intros Hwf Hadm.
  assert (∀ i resp, params_at (db (process_vote_response (node_consensus n) i resp).2) r
    = params_at (db (node_consensus n)) r) as Hvote.
  { intros i resp. pose proof (vote_spec (node_consensus n) i resp Hwf) as Hs. unfold vote_outcome in Hs.
    destruct (process_vote_response _ _ _) as [[[]|err|w] c']; cbn; [|by subst..].
    apply params_at_tables; apply Hs. }
  destruct e as [k resp r' pk'|k resp|k resp|k resp|k resp]; cbn; try apply Hvote.
  pose proof (notarized_spec (node_consensus n) k resp Hwf (proj1 Hadm)) as Hs. unfold notarized_outcome in Hs.
  destruct (process_notarized_block_response _ _ _) as [[[]|err|w] c']; cbn; [|by subst..].
  apply params_at_tables; apply Hs.
Qed.

Lemma event_new_votes W n run e r i v :
  NodeInv W n → round_run n = Some run → e ∈ run_events run → admissible_event W n e →
  cons_votes_block (db (event_consensus (node_consensus n) e)) !! (r, i) = Some v →
  cons_votes_block (db (node_consensus n)) !! (r, i) = Some v ∨ vote_released W n (releases n e) r i v.
Proof.
  intros [Hreach _ Hrun] Hr Hj Hadm Hv. pose proof (reachable_wf _ Hreach) as Hwf.
  destruct (Hrun run Hr) as (_ & Hp & _ & Hes). pose proof (proj1 (Forall_forall _ _) Hes e Hj) as He.
  destruct e as [k resp r' pk'|k resp|k resp|k resp|k resp]; cbn in Hv.
  5: { destruct (process_notarized_block_response (node_consensus n) k resp) as [o' c'] eqn:Hp'.
       destruct Hadm as [Hlt Hadm].
       destruct (notarized_provenance _ _ _ _ _ r i v Hwf Hlt Hp' Hv) as [?|(Hs & Hin & Hnew)]; [by left|right].
       apply (authentic_released W n _ r i v Hnew). rewrite Hin. intros p Hpar. by apply Hadm. }
  all: destruct (process_vote_response (node_consensus n) k resp) as [o' c'] eqn:Hp';
    destruct (vote_provenance _ _ _ _ _ r i v Hwf Hp' Hv) as [?|(-> & -> & -> & Hnew)]; [by left|right].
  - by apply (authentic_released W n _ r k _ Hnew).
  - destruct He as (Hown & _ & Hround). destruct Hnew as [<- _].
    apply (own_vote_released W n run); [done..|]. by rewrite Hp'.
  - destruct He as (Hown & Hround & _). destruct Hnew as [<- _].
    apply (own_vote_released W n run); [done..|]. by rewrite Hp'.
  - destruct Hnew as (_ & Hd & _). cbn in He. congruence.
Qed.

(** A vote that a node holds after a step it held before, under the same
    parameters, or it was released. *)
Lemma nstep_new_votes W n rel n' r i v :
  NodeInv W n → nstep W n rel n' → cons_votes_block (db (node_consensus n')) !! (r, i) = Some v →
  params_at (db (node_consensus n')) r = params_at (db (node_consensus n)) r ∧
  (cons_votes_block (db (node_consensus n)) !! (r, i) = Some v ∨ vote_released W n rel r i v).
Proof.
  intros Hinv Hs Hv. pose proof (reachable_wf _ (ni_reachable _ _ Hinv)) as Hwf.
  assert (cons_votes_block (db (node_consensus n)) !! (r, i) = Some v →
    params_at (db (node_consensus n')) r = params_at (db (node_consensus n)) r ∧
    (cons_votes_block (db (node_consensus n)) !! (r, i) = Some v ∨ vote_released W n rel r i v)) as Hold.
  { intros Hv0. split; [|by left]. destruct (nstep_consensus _ _ _ _ Hs) as [_ [->|Hcs]]; [done|].
    by eapply vote_params_kept. }
  destruct Hs as [n' Hnone Hstart| | |run j e o n' Hr Hloop Hadm| |pk resp Hin|round ts peers Hch| |c' citems Ho];
    try (by apply Hold).
  - apply run_consensus_round_spec in Hstart as (r0 & p0 & tasks & _ & _ & _ & ->). by apply Hold.
  - apply loop_handled in Hloop as (Hj & spawned & Hsp & ->). cbn in Hv |- *.
    split; [by eapply event_params|]. eapply event_new_votes; try done. by eapply list_elem_of_lookup_2.
  - apply Hold. revert Hv. unfold peer_finality_vote_query. destruct (verify_sig_peer_pubkey _ _) as [[]| |]; [|done..].
    pose proof (write_tx_no_new_votes (node_consensus n) _ (λ S, keeps_votes_finality S pk resp)) as Hsub.
    unfold process_finality_vote_update_response.
    destruct (write_tx _ _) as [[[]|err|w] c']; cbn in *; intros Hv; by eapply lookup_weaken.
  - apply Hold. cbn in Hv. eapply lookup_weaken; [exact Hv|].
    apply (write_tx_no_new_votes (node_consensus n) _ (λ S, keeps_votes_params S _ _ _ _)).
  - apply Hold. cbn in Hv. eapply lookup_weaken; [exact Hv|]. eapply open_no_new_votes, Ho. apply Hwf.
Qed.

Lemma nstep_votes W n rel n' W' :
  NodeInv W n → nstep W n rel n' → (∀ pk, correct W' pk → correct W pk) → released W' = rel ++ released W →
  votes_released W' n'.
Proof.
  intros Hn Hs Hcor Hrel r i v p pk Hv Hp Hpk Hc%Hcor. rewrite Hrel.
  destruct (nstep_new_votes _ _ _ _ _ _ _ Hn Hs Hv) as [Heq [Hv0|Hnew]]; rewrite Heq in Hp; [|by apply (Hnew p)].
  apply elem_of_app. right. by eapply (ni_votes _ _ Hn).
Qed.

(** ** The invariant holds in every reachable world *)
Lemma wreach_inv W : wreach W → WorldInv W.
Proof.
  induction 1 as [ns Hfresh Hdist|W W' _ IH Hs].
  - constructor; [|exact Hdist|intros pk b []%not_elem_of_nil].
    intros id n Hn. destruct (Hfresh id n Hn) as (params & pinned & Hwf & Hi & Hrun). constructor.
    + by eapply RInit.
    + intros r i v p pk Hv. rewrite (init_no_votes _ _ _ _ Hi) in Hv. by rewrite lookup_empty in Hv.
    + intros run Hr. by rewrite Hrun in Hr.
  - destruct Hs as [id n rel n' Hn Hs]. destruct IH as [Hnodes Hdist Hrel].
    pose proof (Hnodes id n Hn) as Hinv. destruct (nstep_consensus _ _ _ _ Hs) as [Hpk _].
    destruct (nstep_wf _ _ _ _ (ni_reachable _ _ Hinv) Hs) as (Hreach & _ & Hprop & _).
    pose proof (λ pk, correct_step W id n rel n' pk Hn Hpk) as Hcor.
    constructor; cbn.
    + intros id' m [[<- <-]|[_ Hm]]%lookup_insert_Some.
      * constructor; [done| |intros run; exact (nstep_run W n rel n' run Hinv Hs)].
        apply (nstep_votes W n rel n'); [exact Hinv|exact Hs|intros pk; apply Hcor|done].
      * destruct (Hnodes id' m Hm) as [Hr Hv Hru]. constructor; [done| |done].
        apply (votes_released_mono W); [intros pk; apply Hcor| |done]. cbn. set_solver.
    + assert (∀ id' m pk, <[id:=n']> (nodes W) !! id' = Some m → peer_pubkey m = Some pk →
        ∃ m0, nodes W !! id' = Some m0 ∧ peer_pubkey m0 = Some pk) as Hback.
      { intros id' m pk [[<- <-]|[_ Hm]]%lookup_insert_Some Hmp; [|by eauto]. exists n. by rewrite <-Hpk. }
      intros id1 id2 n1 n2 pk H1' H2 Hp1 Hp2.
      destruct (Hback _ _ _ H1' Hp1) as (m1 & ? & ?), (Hback _ _ _ H2 Hp2) as (m2 & ? & ?). by eapply Hdist.
    + intros pk b [Hin|Hin]%elem_of_app.
      * exists id, n'. rewrite lookup_insert_eq, Hpk. split; [done|]. by apply (nstep_releases W n rel n' pk b Hinv Hs).
      * destruct (Hrel pk b Hin) as (id' & m & Hm & Hmp & Hb). destruct (decide (id = id')) as [<-|Hne].
        -- simplify_eq. exists id, n'. rewrite lookup_insert_eq, Hpk. split_and!; [done..|]. by eapply lookup_weaken.
        -- exists id', m. by rewrite lookup_insert_ne.
Qed.
End NodeLemmas.

(** ** What a node serves *)
Section Served.
Context `{Crypto} `{Bincode}.
Implicit Types (self : Consensus).

Lemma rd_lift_Ok {D E A} (o : outcome E A) (d : D) a : rd_lift o d = Ok a ↔ o = Ok a.
Proof. unfold rd_lift. destruct o; simpl; naive_solver. Qed.

Lemma get_vote_Some self r p i vote :
  get_vote self r p i = Ok (Some vote) →
  is_dummy (signed_inner (resp_block vote)) = true ∨ cons_votes_block (db self) !! (r, i) = Some (resp_block vote).
Proof.
  intros (d & _ & Hd)%read_with_expect_Ok%rd_bind_Ok. destruct d as [s|].
  { left. apply rd_bind_Ok in Hd as (b & Hb%rd_lift_Ok & [= <-]). by eapply new_dummy_is_dummy. }
  right. apply rd_bind_Ok in Hd as (block & [= Hb] & Hd). destruct block as [block|]; [|done].
  rewrite Hb. apply rd_bind_Ok in Hd as (n & _ & (leader & _ & Hd)%rd_bind_Ok).
  case_decide; [|by injection Hd as <-]. apply rd_bind_Ok in Hd as (payload & _ & Hd).
  destruct payload as [payload|]; [|done]. by injection Hd as <-.
Qed.

Lemma get_notarized_block_resp_Some self req resp :
  DbInv (db self) → get_notarized_block_resp self req = Ok (Some resp) →
  let b := notarized_inner (resp_notarized resp) in
  is_dummy b = true ∨
  ∀ j s, sigs (resp_notarized resp) !! j = Some s → cons_votes_block (db self) !! (BlockHeader.round b, j) = Some (MkSigned b s).
Proof.
  intros Hinv (block & Hf & Hd)%read_with_expect_Ok%rd_bind_Ok. injection Hf as Hf.
  destruct block as [block|]; cbv zeta.
  - right. apply rd_bind_Ok in Hd as (payload & _ & (votes & [= <-] & [= <-])%rd_bind_Ok). cbn [resp_notarized].
    change (notarized_inner (notarized_new block _)) with block.
    destruct (range_first _ _) as [[r b]|] eqn:Hrf; [|done]. injection Hf as ->.
    apply range_first_Some in Hrf as (Hb & _ & _).
    destruct (inv_notarized _ Hinv r block Hb) as [(Hr & _) [_ Hall]]. rewrite Hr.
    rewrite served_sigs. intros j s (v & Hv & <-)%round_sigs_lookup; [|done].
    rewrite Hv. pose proof (Hall j v Hv) as <-. by destruct v.
  - left. apply rd_bind_Ok in Hd as (p & _ & (votes & _ & (n & _ & Hd)%rd_bind_Ok)%rd_bind_Ok).
    case_match; [|done]. apply rd_bind_Ok in Hd as (b & Hb%rd_lift_Ok & [= <-]). cbn. by eapply new_dummy_is_dummy.
Qed.
End Served.

(** ** Agreement *)

Lemma voted_released `{Crypto} `{Bincode} `{CItemsCodec} W n r p pk b :
  NodeInv W n → params_at (db (node_consensus n)) r = Some p → correct W pk →
  voted (db (node_consensus n)) r p pk b → (pk, b) ∈ released W.
Proof. intros Hn Hp Hc (i & s & Hi & Hv & _). exact (ni_votes _ _ Hn r i _ p pk Hv Hp Hi Hc). Qed.

(** A correct node releases one block in a round. *)
Lemma released_once `{Crypto} `{Bincode} `{CItemsCodec} W pk b b' :
  WorldInv W → (pk, b) ∈ released W → (pk, b') ∈ released W →
  BlockHeader.round b = BlockHeader.round b' → b = b'.
Proof.
  intros [_ Hdist Hrel] Hb Hb' Hr.
  destruct (Hrel _ _ Hb) as (id1 & n1 & Hn1 & Hp1 & Hprop1), (Hrel _ _ Hb') as (id2 & n2 & Hn2 & Hp2 & Hprop2).
  assert (id1 = id2) as <- by by eapply Hdist. simplify_eq. rewrite Hr in Hprop1. by simplify_eq.
Qed.
