(* ===== verification/NetRun.v ===== *)
(** * Networks that run

    An executable form of the steps of [Network]: [exec] does one step of a world,
    given a command that resolves what is not determined (which node, which task,
    which answer), and every world it gives is reachable.  With it the theorems
    of [NetProps] and [NetAccept] are applied to a network of four nodes. *)
From S2P Require Import Prelude VoteSet Peers Core Db ConsDb ConsInv Consensus ConsSteps ConsSpec ConsVotes ConsProps Module Ctrl NodeApp Node Network.

Inductive Cmd :=
  | CmdStart (id : N)
  (** the [j]-th task of node [id] gets an input *)
  | CmdTask (id : N) (j : nat) (input : TaskInput)
  (** the [j]-th task of node [id] asks the node [from] for its vote *)
  | CmdAsk (id : N) (j : nat) (from : N)
  | CmdHandle (id : N) (j : nat)
  | CmdEnd (id : N).

Section Exec.
Context `{Crypto} `{Bincode} `{CItemsCodec}.
Implicit Types (W : World) (n : Node).

Definition correct_b W (pk : PeerPubkey) : bool :=
  existsb (λ kn, bool_decide (peer_pubkey kn.2 = Some pk)) (map_to_list (nodes W)).
Definition authentic_b W (keys : list PeerPubkey) (i : PeerIdx) (b : BlockHeader.t) (s : Signature) : bool :=
  match keys !! N.to_nat i with
  | None => true
  | Some pk => negb (correct_b W pk) || is_dummy b || negb (verify_strict pk (hash_bytes (sign_hash b)) s) ||
               existsb (λ x, (x.1 =? pk)%N && bool_decide (x.2 = b)) (released W)
  end.
Definition admissible_b W n (e : RoundEvent) : bool :=
  let d := db (node_consensus n) in
  match e with
  | EvVote i resp _ _ =>
      let b := signed_inner (resp_block resp) in
      match params_at d (BlockHeader.round b) with
      | None => true
      | Some p => authentic_b W (ConsensusParams.peers p) i b (sig (resp_block resp))
      end
  | EvNotarized _ resp =>
      let b := notarized_inner (resp_notarized resp) in
      (BlockHeader.round b <? u64_max)%N &&
      match params_at d (BlockHeader.round b) with
      | None => true
      | Some p => forallb (λ kv, authentic_b W (ConsensusParams.peers p) kv.1 b kv.2)
                    (map_to_list (sigs (resp_notarized resp)))
      end
  | _ => true
  end.

Definition update_world W (id : N) (rel : list (PeerPubkey * BlockHeader.t)) n : option World :=
  Some (MkWorld (<[id := n]> (nodes W)) (rel ++ released W)).

Definition exec_task W (id : N) n (run : RoundRun) (j : nat) (t : Task) (input : TaskInput) : option World :=
  match task_event false n t input with
  | Ok (TaskDone e) =>
      update_world W id [] (set_round_run (Some (MkRoundRun (run_round run) (run_params run)
        (delete j (run_tasks run)) (run_events run ++ [e]))) n)
  | Ok (TaskSleeps t') =>
      update_world W id [] (set_round_run (Some (MkRoundRun (run_round run) (run_params run)
        (<[j := t']> (run_tasks run)) (run_events run))) n)
  | _ => None
  end.

Definition exec W (c : Cmd) : option World :=
  match c with
  | CmdStart id =>
      n ← nodes W !! id;
      match round_run n, run_consensus_round n with
      | None, Ok (Some n') => update_world W id [] n'
      | _, _ => None
      end
  | CmdTask id j input =>
      n ← nodes W !! id; run ← round_run n; t ← run_tasks run !! j;
      exec_task W id n run j t input
  | CmdAsk id j from =>
      n ← nodes W !! id; run ← round_run n; t ← run_tasks run !! j; m ← nodes W !! from;
      match t with
      | RequestVoteTask r i pk only_dummy =>
          match get_vote (node_consensus m) r (run_params run) i with
          | Ok (Some resp) => exec_task W id n run j t (InVote resp)
          | _ => None
          end
      | _ => None
      end
  | CmdHandle id j =>
      n ← nodes W !! id; run ← round_run n;
      match run_consensus_round_loop j n run with
      | LoopHandled e o n' =>
          if admissible_b W n e then update_world W id (releases n e) n' else None
      | _ => None
      end
  | CmdEnd id =>
      n ← nodes W !! id; run ← round_run n;
      match run_consensus_round_loop 0 n run with
      | LoopEnds => update_world W id [] (set_round_run None n)
      | _ => None
      end
  end.

Fixpoint exec_all W (l : list Cmd) : option World :=
  match l with
  | [] => Some W
  | c :: l' => W' ← exec W c; exec_all W' l'
  end.

(** ** Soundness *)
Lemma correct_b_spec W pk : correct_b W pk = true ↔ correct W pk.
Proof.
  unfold correct_b, correct. rewrite existsb_exists. split.
  - intros ([id n] & Hin & Hpk%bool_decide_eq_true). exists id, n. split; [|done].
    by apply elem_of_map_to_list, list_elem_of_In.
  - intros (id & n & Hn & Hpk). exists (id, n). split; [|by apply bool_decide_eq_true].
    by apply list_elem_of_In, elem_of_map_to_list.
Qed.

Lemma authentic_b_sound W keys i b s : authentic_b W keys i b s = true → authentic W keys i b s.
Proof.
  unfold authentic_b. intros Ha pk Hpk Hc Hd Hv. rewrite Hpk, Hd, Hv in Ha.
  apply correct_b_spec in Hc. rewrite Hc in Ha. cbn in Ha.
  apply existsb_exists in Ha as ([pk' b'] & Hin & [Hp%N.eqb_eq Hb%bool_decide_eq_true]%andb_true_iff).
  cbn in *. subst. by apply list_elem_of_In.
Qed.

Lemma admissible_b_sound W n e : admissible_b W n e = true → admissible_event W n e.
Proof.
  destruct e as [i resp r pk|i resp|i resp|i resp|i resp]; try done; cbn.
  - intros Ha p Hp. rewrite Hp in Ha. by apply authentic_b_sound.
  - intros [Hr%N.ltb_lt Ha]%andb_true_iff. split; [done|]. intros p j s Hp Hs. rewrite Hp in Ha.
    rewrite forallb_forall in Ha. apply authentic_b_sound, (Ha (j, s)).
    by apply list_elem_of_In, elem_of_map_to_list.
Qed.

Lemma exec_task_sound W id n run j t input W' :
  nodes W !! id = Some n → round_run n = Some run → run_tasks run !! j = Some t →
  exec_task W id n run j t input = Some W' → wstep W W'.
Proof.
  intros Hn Hr Ht. unfold exec_task. destruct (task_event false n t input) as [[e|t'|]| |] eqn:He; [..|done|done|done].
  - intros [= <-]. apply (WStep W id n [] _ Hn). by eapply NTask.
  - intros [= <-]. apply (WStep W id n [] _ Hn). by eapply NSleep.
Qed.

Lemma exec_sound W c W' : exec W c = Some W' → wstep W W'.
Proof.
  destruct c as [id|id j input|id j from|id j|id]; cbn [exec].
  - intros (n & Hn & Hs)%bind_Some. destruct (round_run n) eqn:Hr; [done|].
    destruct (run_consensus_round n) as [[n'|]| |] eqn:Hc; try done. injection Hs as <-.
    apply (WStep W id n [] _ Hn). by apply NStart.
  - intros (n & Hn & (run & Hr & (t & Ht & Hs)%bind_Some)%bind_Some)%bind_Some. exact (exec_task_sound _ _ _ _ _ _ _ _ Hn Hr Ht Hs).
  - intros (n & Hn & (run & Hr & (t & Ht & (m & Hm & Hs)%bind_Some)%bind_Some)%bind_Some)%bind_Some.
    destruct t; try done. destruct (get_vote _ _ _ _) as [[resp|]| |]; try done. exact (exec_task_sound _ _ _ _ _ _ _ _ Hn Hr Ht Hs).
  - intros (n & Hn & (run & Hr & Hs)%bind_Some)%bind_Some.
    destruct (run_consensus_round_loop j n run) as [| | |e o n'] eqn:Hl; try done.
    destruct (admissible_b W n e) eqn:Ha; [|done]. injection Hs as <-.
    apply (WStep W id n _ _ Hn). apply (NHandle W n run j e o n' Hr Hl). by apply admissible_b_sound.
  - intros (n & Hn & (run & Hr & Hs)%bind_Some)%bind_Some.
    destruct (run_consensus_round_loop 0 n run) eqn:Hl; try done. injection Hs as <-.
    apply (WStep W id n [] _ Hn). by eapply NEnd.
Qed.

Lemma exec_handle W id j W' :
  exec W (CmdHandle id j) = Some W' →
  ∃ n n' rel, nodes W !! id = Some n ∧ nodes W' !! id = Some n' ∧ nstep W n rel n'.
Proof.
  cbn [exec]. intros (n & Hn & (run & Hr & Hs)%bind_Some)%bind_Some.
  destruct (run_consensus_round_loop j n run) as [| | |e o n'] eqn:Hl; try done.
  destruct (admissible_b W n e) eqn:Ha; [|done]. injection Hs as <-.
  exists n, n', (releases n e). split; [done|]. split; [apply lookup_insert_eq|].
  apply (NHandle W n run j e o n' Hr Hl). by apply admissible_b_sound.
Qed.

Lemma exec_all_reach W l W' : wreach W → exec_all W l = Some W' → wreach W'.
Proof.
  revert W. induction l as [|c l IH]; intros W Hw; cbn [exec_all]; [by intros [= <-]|].
  intros (W1 & Hc & Hl)%bind_Some. apply (IH W1); [|done]. eapply WReach; [exact Hw|]. by eapply exec_sound.
Qed.
End Exec.

(** ** A network of three correct nodes, whose fourth peer is faulty *)
Module ToyNet.
Local Existing Instance Toy.bincode.
Local Existing Instance Toy.crypto.

(** Items as numbers: a peer item by its module and length, a transaction by its
    nonce and signature. *)
Definition encode_item (item : CItem) : list N :=
  match item with
  | PeerCItem module_id inner => 0%N :: module_id :: N.of_nat (length inner) :: inner
  | CTransaction t => [1%N; nonce (tx_inner t); tx_signature t]
  end.
Definition decode_item (l : list N) : option (CItem * list N) :=
  match l with
  | 0%N :: module_id :: len :: l' => Some (PeerCItem module_id (take (N.to_nat len) l'), drop (N.to_nat len) l')
  | 1%N :: nonce :: signature :: l' =>
      Some (CTransaction (MkTransaction (MkTransactionUnsigned nonce [] []) signature), l')
  | _ => None
  end.
Fixpoint decode_items (fuel : nat) (l : list N) : option (list CItem * nat) :=
  match fuel, l with
  | _, [] => Some ([], 0)
  | O, _ => None
  | S fuel, _ =>
      '(item, l') ← decode_item l;
      '(items, n) ← decode_items fuel l';
      Some (item :: items, length l - length l' + n)
  end.
Definition codec : CItemsCodec := {|
  bincode_encode_citems := λ items, concat (encode_item <$> items);
  bincode_decode_citems := λ l, decode_items (length l) l;
|}.
Local Existing Instance codec.

Definition transaction : Transaction := MkTransaction (MkTransactionUnsigned 1 [] []) 5.
Definition node (sk : N) : Node := MkNode (created (Some (sk + 1)%N)) (Some sk) 0 [transaction] ∅ ∅ None.
Definition start : World := MkWorld (list_to_map ((λ i, (i, node i)) <$> [0; 1; 2]%N)) [].

(** Peer 2 leads round 0 and proposes; the nodes ask each other for their votes. *)
Definition script : list Cmd := [
  CmdStart 0; CmdStart 1; CmdStart 2;
  CmdTask 2 0 (InTrigger OnTransactions 77); CmdHandle 2 0;
  CmdAsk 0 2 2; CmdHandle 0 0; CmdTask 0 0 InNothing; CmdHandle 0 0;
  CmdAsk 1 2 2; CmdHandle 1 0; CmdTask 1 0 InNothing; CmdHandle 1 0;
  CmdAsk 0 0 1; CmdHandle 0 0;
  CmdAsk 2 0 0; CmdHandle 2 0; CmdAsk 2 0 1; CmdHandle 2 0;
  CmdEnd 0; CmdStart 0].
Definition world : World := default start (exec_all start script).
Definition block : BlockHeader.t :=
  match new (E:=Empty_set) None 77 0 toy_params (encode_citems [CTransaction transaction]) with
  | Ok b => b
  | _ => BlockHeader.mk 0 0 0 0 0 0 0 0 0 0
  end.
Definition at_node (id : N) : Node := default (node 0) (nodes world !! id).

Lemma toy_laws : CryptoLaws.
Proof.
  constructor.
  - intros m. cbn. assert (∀ acc, acc < 1000003 → Toy.digest acc m < 1000003)%N as Hd.
    { induction m as [|x m IH]; intros acc Ha; [done|]. apply IH. by apply N.mod_lt. }
    etrans; [by apply Hd|]. done.
  - intros sk m. apply N.eqb_refl.
  - intros sk. cbn. apply negb_true_iff, N.eqb_neq. lia.
Qed.

Lemma params_ok : params_wf toy_params.
Proof. apply toy_params_wf; [repeat constructor|]. vm_compute. discriminate. Qed.

Lemma fresh_node sk :
  match init toy_params empty_db (Some (sk + 1)%N) None with Ok _ => true | _ => false end = true →
  fresh (node sk).
Proof.
  intros Hi. exists toy_params, None. split; [exact params_ok|]. split; [|done].
  unfold peer_pubkey, node, created. cbn [peer_seckey node_consensus fmap option_fmap option_map].
  change (ed25519_pubkey sk) with (sk + 1)%N.
  by destruct (init toy_params empty_db (Some (sk + 1)%N) None).
Qed.

Lemma reach_start : wreach start.
Proof.
  apply WInit.
  - intros id n Hn. assert (id ∈ [0; 1; 2]%N ∧ n = node id) as [Hid ->].
    { apply elem_of_list_to_map_2, list_elem_of_fmap in Hn as (k & [= -> ->] & Hk). done. }
    apply fresh_node. repeat (apply elem_of_cons in Hid as [->|Hid]; [vm_compute; reflexivity|]).
    by apply not_elem_of_nil in Hid.
  - intros id1 id2 n1 n2 pk Hn1 Hn2 Hp1 Hp2.
    apply elem_of_list_to_map_2, list_elem_of_fmap in Hn1 as (k1 & [= -> ->] & _), Hn2 as (k2 & [= -> ->] & _).
    cbn in Hp1, Hp2. simplify_eq. lia.
Qed.

Lemma reach_world : wreach world.
Proof.
  unfold world. destruct (exec_all start script) as [W|] eqn:Hw; [|apply reach_start].
  cbn. by apply (exec_all_reach start script), Hw; apply reach_start.
Qed.
End ToyNet.
