(* ===== verification/NetProps.v ===== *)
(** * What a network of nodes guarantees

    The safety of notarization without an assumption on what correct peers sign:
    what the tasks of a correct node sign, and the order in which the node stores
    it, is part of the model. *)
From S2P Require Import Prelude VoteSet Peers Core Db ConsDb ConsInv Consensus ConsSteps ConsSpec ConsVotes ConsProps ConsServe Module Ctrl NodeApp Node Network NetInv NetRun.

(** C1: agreement of the network.  In every world that correct nodes reach, while
    faulty peers and the network deliver whatever they like except signatures of
    correct nodes on blocks those nodes did not release, two nodes with the same
    parameters for a round never hold different notarized blocks for it, when at
    most [max_faulty] of the peers of the round are not correct nodes.  Restarts,
    lost events, and changes of the parameters are steps of the world. *)
Theorem network_agreement `{Crypto} `{Bincode} `{CItemsCodec} (W : World) (id1 id2 : N) (n1 n2 : Node) (r : N)
    (p : ConsensusParams.t) (b1 b2 : BlockHeader.t) (faulty : gset PeerPubkey) :
  wreach W → nodes W !! id1 = Some n1 → nodes W !! id2 = Some n2 →
  params_at (db (node_consensus n1)) r = Some p → params_at (db (node_consensus n2)) r = Some p →
  cons_blocks_notarized (db (node_consensus n1)) !! r = Some b1 →
  cons_blocks_notarized (db (node_consensus n2)) !! r = Some b2 →
  (∀ pk, pk ∈ ConsensusParams.peers p → pk ∉ faulty → correct W pk) →
  (N.of_nat (size faulty) ≤ NumPeers.max_faulty (npeers p))%N →
  b1 = b2.
Proof.
  intros HW%wreach_inv Hn1 Hn2 Hp1 Hp2 Hb1 Hb2 Hcorrect Hfaulty.
  pose proof (wi_nodes _ HW _ _ Hn1) as Hi1. pose proof (wi_nodes _ HW _ _ Hn2) as Hi2. cbn in Hi1, Hi2.
  pose proof (rest_inv _ (proj1 (reachable_wf _ (ni_reachable _ _ Hi1)))) as Hd1.
  pose proof (rest_inv _ (proj1 (reachable_wf _ (ni_reachable _ _ Hi2)))) as Hd2.
  destruct (common_voter _ _ _ _ _ _ faulty Hd1 Hd2 Hp1 Hp2 Hb1 Hb2 Hfaulty) as (pk & Hnf & Hin & Hv1 & Hv2).
  pose proof (Hcorrect pk Hin Hnf) as Hc.
  destruct (inv_notarized _ Hd1 r b1 Hb1) as [(Hr1 & _) _], (inv_notarized _ Hd2 r b2 Hb2) as [(Hr2 & _) _].
  apply (released_once W pk b1 b2 HW); [|..|congruence].
  - exact (voted_released W n1 r p pk b1 Hi1 Hp1 Hc Hv1).
  - exact (voted_released W n2 r p pk b2 Hi2 Hp2 Hc Hv2).
Qed.

(** C7: a correct node votes for at most one block in a round, across restarts
    and whatever it receives: two blocks it released for a round are equal, and
    the block is its stored proposal of that round. *)
Theorem correct_node_votes_once `{Crypto} `{Bincode} `{CItemsCodec} (W : World) (pk : PeerPubkey)
    (b b' : BlockHeader.t) :
  wreach W → (pk, b) ∈ released W → (pk, b') ∈ released W → BlockHeader.round b = BlockHeader.round b' →
  b = b' ∧ ∃ id n, nodes W !! id = Some n ∧ peer_pubkey n = Some pk ∧
    cons_blocks_proposals (db (node_consensus n)) !! BlockHeader.round b = Some b.
Proof.
  intros HW%wreach_inv Hb Hb' Hr. split; [by apply (released_once W pk)|]. by apply (wi_released _ HW).
Qed.

(** What correct nodes serve is admissible, so the limit on the network does
    not keep correct nodes from talking to each other.  The answer that a correct
    node makes to a request for a vote, or for a notarized block, from its tables,
    can be handled by every node with the same parameters for the round of the
    answer. *)
Theorem served_answers_admissible `{Crypto} `{Bincode} `{CItemsCodec} (W : World) (id1 id2 : N) (n1 n2 : Node)
    (p : ConsensusParams.t) (i : PeerIdx) (vote : WaitVoteResponse) (block : WaitNotarizedBlockResponse)
    (req : WaitNotarizedBlockRequest) (r : N) (pk : PeerPubkey) :
  wreach W → nodes W !! id1 = Some n1 → nodes W !! id2 = Some n2 →
  params_at (db (node_consensus n1)) r = Some p → params_at (db (node_consensus n2)) r = Some p →
  (get_vote (node_consensus n1) r p i = Ok (Some vote) → admissible_event W n2 (EvVote i vote r pk)) ∧
  (get_notarized_block_resp (node_consensus n1) req = Ok (Some block) →
   BlockHeader.round (notarized_inner (resp_notarized block)) = r → (r < u64_max)%N →
   admissible_event W n2 (EvNotarized i block)).
Proof.
  intros HW%wreach_inv Hn1 Hn2 Hp1 Hp2. pose proof (wi_nodes _ HW _ _ Hn1) as Hi1. cbn in Hi1.
  pose proof (rest_inv _ (proj1 (reachable_wf _ (ni_reachable _ _ Hi1)))) as Hd1. split.
  - intros Hget p' b Hp'. subst b. destruct (get_vote_Some _ _ _ _ _ Hget) as [Hdummy|Hv].
    + intros pk' _ _ Hd. congruence.
    + destruct (inv_votes _ Hd1 _ _ _ Hv) as (Hr & _). rewrite Hr, Hp2 in Hp'. injection Hp' as <-.
      intros pk' Hpk' Hc _ _. exact (ni_votes _ _ Hi1 r i _ p pk' Hv Hp1 Hpk' Hc).
  - intros Hget Hr Hlt. subst r. split; [done|]. intros p' j s Hp' Hs.
    destruct (get_notarized_block_resp_Some _ _ _ Hd1 Hget) as [Hdummy|Hv].
    + intros pk' _ _ Hd. congruence.
    + rewrite Hp2 in Hp'. injection Hp' as <-. intros pk' Hpk' Hc _ _.
      exact (ni_votes _ _ Hi1 _ j _ p pk' (Hv j s Hs) Hp1 Hpk' Hc).
Qed.

Section Witnesses.
Local Existing Instance Toy.bincode.
Local Existing Instance Toy.crypto.
Local Existing Instance ToyNet.codec.
Import ToyNet.

(** Peer 4 is faulty: no correct node has its key. *)
Lemma network_agreement_witness :
  cons_blocks_notarized (db (node_consensus (at_node 0))) !! 0%N = Some block ∧ block = block.
Proof.
  split; [vm_compute; reflexivity|].
  apply (network_agreement world 0 2 (at_node 0) (at_node 2) 0 toy_params block block {[4%N]}).
  - apply reach_world.
  - vm_compute. reflexivity.
  - vm_compute. reflexivity.
  - vm_compute. reflexivity.
  - vm_compute. reflexivity.
  - vm_compute. reflexivity.
  - vm_compute. reflexivity.
  - intros pk Hin Hnf. apply correct_b_spec. change (pk ∈ [1; 2; 3; 4]%N) in Hin.
    rewrite not_elem_of_singleton in Hnf. rewrite !elem_of_cons in Hin.
    destruct Hin as [->|[->|[->|[->|[]%not_elem_of_nil]]]]; [vm_compute; reflexivity..|].
    by destruct Hnf.
  - rewrite size_singleton. vm_compute. discriminate.
Defined.

Lemma correct_node_votes_once_witness : block = block ∧ ∃ id n, nodes world !! id = Some n ∧ peer_pubkey n = Some 1%N.
Proof.
  assert ((1%N, block) ∈ released world) as Hin by (apply (bool_decide_unpack _); vm_compute; exact I).
  destruct (correct_node_votes_once world 1 block block reach_world Hin Hin eq_refl) as (Heq & id & n & Hn & Hp & _).
  exact (conj Heq (ex_intro _ id (ex_intro _ n (conj Hn Hp)))).
Defined.

Lemma served_answers_admissible_witness :
  match get_vote (node_consensus (at_node 1)) 0 toy_params 1 with
  | Ok (Some vote) => admissible_event world (at_node 2) (EvVote 1 vote 0 2)
  | _ => False
  end.
Proof.
  destruct (get_vote (node_consensus (at_node 1)) 0 toy_params 1) as [[vote|]| |] eqn:Hv;
    [|vm_compute in Hv; discriminate..].
  apply (served_answers_admissible world 1 2 (at_node 1) (at_node 2) toy_params 1 vote
    (MkWaitNotarizedBlockResponse (MkNotarized block ∅) []) (MkWaitNotarizedBlockRequest 0 0) 0 2).
  - apply reach_world.
  - vm_compute. reflexivity.
  - vm_compute. reflexivity.
  - vm_compute. reflexivity.
  - vm_compute. reflexivity.
  - exact Hv.
Defined.
End Witnesses.
