(* ===== verification/NetAccept.v ===== *)
(** * The proposals that nodes generate are accepted

    A proposal built by [generate_proposal] passes every check of
    [process_vote_response_tx], at its author and at every peer that is in the same
    round with the same parameters and the same latest notarized block. *)
From S2P Require Import Prelude VoteSet Peers Core Db ConsDb ConsInv Consensus ConsRound ConsSteps ConsSpec ConsVotes ConsProps Module Ctrl NodeApp Node Network NetRun.

Section Accept.
Context `{Crypto} `{Bincode} `{CItemsCodec}.
Implicit Types (d : ConsDb) (b : BlockHeader.t) (p : ConsensusParams.t).

(** The tables and hooks when the end of the round is checked. *)
Definition proposed r i (block : SignedVote) payload d : TxState ConsDb Hook :=
  let d1 := propose r (signed_inner block) payload d in
  MkTx (set_cons_votes_block (<[(r, i) := block]> (cons_votes_block d1)) d1) [NewProposalHook; NewVotesHook].

Lemma process_vote_own our r i p h l (block : SignedVote) d hs :
  DbInv d → verify_sig_peer_idx block i (ConsensusParams.peers p) = Ok () →
  is_dummy (signed_inner block) = false → cons_blocks_proposals d !! r = Some (signed_inner block) →
  cons_votes_block d !! (r, i) = None →
  process_vote our r i p h l block (MkTx d hs) =
  tx_into PvRoundInvariant (check_round_end our r)
    (MkTx (set_cons_votes_block (<[(r, i) := block]> (cons_votes_block d)) d) (hs ++ [NewVotesHook])).
Proof.
  intros Hinv Hsig Hd Hprop Hnone. unfold process_vote. erewrite tx_lift_run by (by rewrite Hsig).
  rewrite Hd. cbv zeta.
  erewrite tx_bind_run with (a := Inserted)
    (s' := MkTx (set_cons_votes_block (<[(r, i) := block]> (cons_votes_block d)) d) hs).
  - reflexivity.
  - erewrite tx_read_run with (a := Some (signed_inner block)).
    2: { unfold get_proposal, mbind, rd_bind, rd_get. cbn [tx_db]. rewrite Hprop.
         pose proof (inv_proposals _ Hinv r _ Hprop) as (Hr & _). by rewrite Hr, N.eqb_refl. }
    rewrite tx_fail_if_run by (by apply bool_decide_eq_false; naive_solver).
    unfold insert_block_vote, mbind, tx_bind, tx_read, rd_get, tx_modify. cbn. by rewrite Hnone.
Qed.

Lemma proposal_runs our r i p prev (block : SignedVote) payload d :
  Rest d → cur_round_of d = r → params_at d r = Some p → prev_notarized r d = prev →
  leader_idx (E:=ProcessVoteError) p r = Ok i →
  BlockHeader.round (signed_inner block) = r → is_dummy (signed_inner block) = false →
  verify_with_content (signed_inner block) (params_hash p) (N.of_nat (length (to_raw p))) payload = Ok () →
  does_directly_extend (signed_inner block) prev = true →
  verify_sig_peer_idx block i (ConsensusParams.peers p) = Ok () →
  cons_blocks_proposals d !! r = None → cons_votes_block d !! (r, i) = None →
  process_vote_response_tx our i (Proposal block payload) (MkTx d []) =
  tx_into PvRoundInvariant (check_round_end our r) (proposed r i block payload d).
Proof.
  intros Hrest Hcur Hp Hprev Hleader Hr Hd Hver Hext Hsig Hprop Hvote. pose proof (rest_inv _ Hrest) as Hinv.
  destruct (params_at_wf d r Hinv) as (p' & Hp' & Hwf). rewrite Hp in Hp'. injection Hp' as <-.
  destruct (proj1 (rest_current d) Hrest) as (_ & Hb & _). rewrite Hcur in Hb.
  destruct (propose_inv r (signed_inner block) payload d p Hinv Hb Hp Hr Hd Hver) as (Hinv1 & _).
  unfold process_vote_response_tx. erewrite tx_read_run by done. cbv zeta. cbn [resp_block tx_db].
  fold (cur_round_of d). rewrite Hcur.
  rewrite tx_fail_if_run by (by apply bool_decide_eq_false; naive_solver).
  erewrite tx_read_run by (by apply get_consensus_params_Ok).
  erewrite tx_lift_run by (by apply params_len_wf).
  erewrite tx_bind_run with (a := Some block) (s' := MkTx (propose r (signed_inner block) payload d) [NewProposalHook]).
  - apply process_vote_own; [done|done|done|apply lookup_insert_eq|].
    simpl. apply eq_None_not_Some. intros [v [Hv _]%retain_in_lookup]. congruence.
  - unfold process_proposal. erewrite tx_lift_run by exact Hleader.
    rewrite tx_fail_if_run by (by apply bool_decide_eq_false; naive_solver).
    rewrite tx_fail_if_run by done. erewrite tx_lift_run by (by rewrite Hver).
    erewrite tx_read_run by done. cbn [tx_db]. rewrite Hprev.
    rewrite tx_fail_if_run by (by rewrite Hext).
    unfold insert_block_proposal, mbind, tx_bind, tx_read, tx_lift, rd_get, rd_lift, tx_modify, on_commit.
    rewrite Hr, N.eqb_refl. cbn. by rewrite Hprop.
Qed.

Lemma read_tx_params self r p : params_at (db self) r = Some p → get_round_params self r = Ok p.
Proof.
  intros Hp. unfold get_round_params, read_tx. apply read_with_expect_Ok. by apply get_consensus_params_Ok.
Qed.
End Accept.

(** C16: the proposal that a leader generates is accepted.  Let [n] be a node with a
    secret key, whose index [i] is that of the leader of round [r] under the
    parameters [p], and which generates a proposal for [r] from any consensus
    items.  A consensus [c], of [n] itself or of any peer, that is in round [r]
    with the parameters [p] and the same latest notarized block as [n], and has
    neither a proposal nor a vote of [i] in the round, accepts the proposal and
    stores it; the only error is that of a pinned block that the end of the round
    finds. *)
Theorem own_proposal_accepted `{Crypto} `{!CryptoLaws} `{Bincode} `{CItemsCodec} (n : Node) (c : Consensus)
    (r now : N) (p : ConsensusParams.t) (i : PeerIdx) (sk : N) (citems : list CItem)
    (b : BlockHeader.t) (payload : Payload) :
  reachable (node_consensus n) → reachable c →
  peer_seckey n = Some sk → ConsensusParams.peers p !! N.to_nat i = Some (ed25519_pubkey sk) →
  params_at (db (node_consensus n)) r = Some p → leader_idx (E:=ProcessVoteError) p r = Ok i →
  cur c = r → (r < u64_max)%N → params_at (db c) r = Some p →
  prev_notarized r (db c) = prev_notarized r (db (node_consensus n)) →
  cons_blocks_proposals (db c) !! r = None → cons_votes_block (db c) !! (r, i) = None →
  blake3 [] ≠ 0%N →
  generate_proposal n r citems now = Ok (b, payload) →
  match process_vote_response c i (Proposal (new_sign b sk) payload) with
  | (Ok _, c') => cons_blocks_proposals (db c') !! r = Some b
  | (Err e, c') => e = PvRoundInvariant PinnedMismatch ∧ c' = c
  | (Panic _, _) => False
  end.
Proof.
  intros Hn Hc Hsk Hi Hpn Hleader Hcur Hlt Hpc Hprev Hprop Hvote Hempty Hgen.
  pose proof (reachable_wf _ Hc) as [Hrest _]. pose proof (rest_inv _ Hrest) as Hinv.
  destruct (params_at_wf _ r Hinv) as (p' & Hp' & Hwf). rewrite Hpc in Hp'. injection Hp' as <-.
  unfold generate_proposal in Hgen. rewrite (read_tx_params _ _ _ Hpn) in Hgen.
  apply bind_Ok in Hgen as (? & [= <-] & (prev & Hpr & (blk & Hnew & [= -> Hpl])%bind_Ok)%bind_Ok).
  unfold node_read, read_tx in Hpr. apply read_with_expect_Ok in Hpr. injection Hpr as Hpr. rewrite Hpl in Hnew.
  assert (∀ q, prev = Some q → (BlockHeader.round q < r)%N) as Hlow.
  { intros q ->. rewrite <-Hprev in Hpr. by apply prev_notarized_Some in Hpr as (_ & ? & _). }
  destruct (new_header_checks _ _ _ _ _ _ _ Hnew (params_len_wf p Hwf) Hlow Hempty) as (Hr & Hext & Hd & Hver).
  assert (verify_sig_peer_idx (new_sign b sk) i (ConsensusParams.peers p) = Ok ()) as Hsig.
  { unfold verify_sig_peer_idx, index. rewrite Hi. cbn. unfold verify_signature, verify_hash_signature.
    rewrite pubkey_is_valid. cbn. unfold sign_with. by rewrite sign_verifies. }
  pose proof (proposal_runs (our_peer_pubkey c) r i p prev (new_sign b sk) payload (db c) Hrest Hcur Hpc
    ltac:(congruence) Hleader Hr Hd Hver Hext Hsig Hprop Hvote) as Hrun.
  assert (vote_safe (db c) i (Proposal (new_sign b sk) payload)) as Hsafe.
  { unfold cur in Hcur. split; [by rewrite Hcur|]. split.
    - intros q Hq. rewrite Hcur, Hpc in Hq. injection Hq as <-.
      apply lookup_lt_Some in Hi. unfold npeers. lia.
    - apply verify_with_content_Ok in Hver as [? _]. done. }
  pose proof (write_tx_spec true c _ _ (wp_process_vote_response_tx true (our_peer_pubkey c) (db c) i _ Hrest
    (λ _, Hsafe))) as Hspec.
  destruct (process_vote_response c i (Proposal (new_sign b sk) payload)) as [o c'] eqn:Hp.
  pose proof Hp as Hp2. unfold process_vote_response in Hp2. rewrite Hp2 in Hspec. destruct o as [[]|e|w].
  - apply proposal_stored in Hp. cbn in Hp. by rewrite Hr in Hp.
  - split; [|done]. revert Hp2. unfold write_tx, write_with_expect_falliable, write_with_inner_falliable. cbn [fst].
    rewrite Hrun. unfold tx_into. destruct (check_round_end _ _ _) as [[? ?]|[de|[]]|w]; cbn; by intros [=].
  - by destruct Hspec.
Qed.

Section Witness.
Local Existing Instance Toy.bincode.
Local Existing Instance Toy.crypto.
Local Existing Instance ToyNet.codec.
Import ToyNet.

(** The proposal of peer 2 at peer 0. *)
Lemma own_proposal_accepted_witness :
  match process_vote_response (created (Some 1%N)) 2 (Proposal (new_sign block 2%N) (encode_citems [CTransaction transaction])) with
  | (Ok _, c') => cons_blocks_proposals (db c') !! 0%N = Some block
  | _ => False
  end.
Proof.
  assert (∀ sk, match init toy_params empty_db (Some (sk + 1)%N) None with Ok _ => true | _ => false end = true →
    reachable (created (Some (sk + 1)%N))) as Hreach.
  { intros sk. apply reachable_created, params_ok. }
  pose proof (own_proposal_accepted (H0:=toy_laws) (node 2) (created (Some 1%N)) 0 77 toy_params 2 2
    [CTransaction transaction] block (encode_citems [CTransaction transaction])) as Hacc.
  destruct (process_vote_response _ _ _) as [[[]|e|w] c'] eqn:Hp.
  - apply Hacc; clear Hacc; try (vm_compute; reflexivity).
    + apply (Hreach 2%N). vm_compute. reflexivity.
    + apply (Hreach 0%N). vm_compute. reflexivity.
    + discriminate.
  - vm_compute in Hp. discriminate.
  - vm_compute in Hp. discriminate.
Defined.
End Witness.
