(* ===== verification/Sim.v ===== *)
(** * Two runs of a transaction

    The nodes of a federation run the same transactions on databases that agree
    only in part: each has its own key, its own pending votes and its own view of
    the consensus.  [sim R RA m1 m2] relates two transactions that, from databases
    related by [R], come to the same verdict with results related by [RA], and
    leave databases related by [R] again.  A run that ends the process is related
    to everything: what is claimed is claimed of the nodes that go on. *)
From S2P Require Import Prelude Db Module.

(** ** Outcomes *)
Definition osim {E A B} (RA : A → B → Prop) (o1 : outcome (DbTxError E) A) (o2 : outcome (DbTxError E) B) : Prop :=
  match o1, o2 with
  | Err (DbErr _), _ | _, Err (DbErr _) | Panic _, _ | _, Panic _ => True
  | Ok a, Ok b => RA a b
  | Err (TxError e1), Err (TxError e2) => e1 = e2
  | _, _ => False
  end.
Definition sim {D H E A B} (R : relation D) (RA : A → B → Prop) (m1 : Tx D H E A) (m2 : Tx D H E B) : Prop :=
  ∀ s1 s2, R (tx_db s1) (tx_db s2) → osim (λ x y, RA x.1 y.1 ∧ R (tx_db x.2) (tx_db y.2)) (m1 s1) (m2 s2).

Lemma osim_crash_l {E A B} (RA : A → B → Prop) (o1 : outcome (DbTxError E) A) o2 : crashes o1 → osim RA o1 o2.
Proof. intros Hc. destruct o1 as [|[]|], o2 as [|[]|]; by simpl in *. Qed.
Lemma osim_crash_r {E A B} (RA : A → B → Prop) o1 (o2 : outcome (DbTxError E) B) : crashes o2 → osim RA o1 o2.
Proof. intros Hc. destruct o1 as [|[]|], o2 as [|[]|]; by simpl in *. Qed.
Lemma osim_mono {E A B} (RA RA' : A → B → Prop) (o1 : outcome (DbTxError E) A) o2 :
  osim RA o1 o2 → (∀ a b, RA a b → RA' a b) → osim RA' o1 o2.
Proof. destruct o1 as [|[]|], o2 as [|[]|]; simpl; auto. Qed.

(** ** The operations of a transaction *)
Section Sim.
Context {D H : Type} (R : relation D).

Lemma sim_mono {E A B} (RA RA' : A → B → Prop) (m1 : Tx D H E A) (m2 : Tx D H E B) :
  sim R RA m1 m2 → (∀ a b, RA a b → RA' a b) → sim R RA' m1 m2.
Proof. intros Hm Himp s1 s2 Hs. eapply osim_mono; [by apply Hm|]. intros [a ?] [b ?] [??]. split; simpl in *; auto. Qed.
Lemma sim_ret {E A B} (RA : A → B → Prop) a b : RA a b → sim (H:=H) (E:=E) R RA (mret a) (mret b).
Proof. intros Ha s1 s2 Hs. by split. Qed.
Lemma sim_bind {E A B A' B'} (RA : A → B → Prop) (RB : A' → B' → Prop) (m1 : Tx D H E A) (m2 : Tx D H E B)
    (f1 : A → Tx D H E A') (f2 : B → Tx D H E B') :
  sim R RA m1 m2 → (∀ a b, RA a b → sim R RB (f1 a) (f2 b)) → sim R RB (m1 ≫= f1) (m2 ≫= f2).
Proof.
  intros Hm Hf s1 s2 Hs. specialize (Hm s1 s2 Hs). unfold mbind, tx_bind.
  destruct (m1 s1) as [[a s1']|[]|], (m2 s2) as [[b s2']|[]|]; cbn [osim fst snd] in Hm;
    try (by apply osim_crash_l); try (by apply osim_crash_r); try done.
  destruct Hm as [Ha Hs']. by apply Hf.
Qed.
Lemma sim_read {E A} (m1 m2 : Rd D E A) (RA : A → A → Prop) :
  (∀ d1 d2, R d1 d2 → osim RA (m1 d1) (m2 d2)) → sim (H:=H) R RA (tx_read m1) (tx_read m2).
Proof.
  intros Hm s1 s2 Hs. specialize (Hm _ _ Hs). unfold tx_read.
  by destruct (m1 _) as [|[]|], (m2 _) as [|[]|].
Qed.
Lemma sim_read_eq {E A} (m : Rd D E A) :
  (∀ d1 d2, R d1 d2 → m d1 = m d2) → sim (H:=H) R eq (tx_read m) (tx_read m).
Proof. intros Hm. apply sim_read. intros d1 d2 Hd. rewrite (Hm _ _ Hd). by destruct (m d2) as [|[]|]. Qed.
Lemma sim_lift {E A} (o : outcome E A) : sim (H:=H) R eq (tx_lift o) (tx_lift o).
Proof. by apply sim_read_eq. Qed.
(** Assertions that are not about the same value: one of the nodes may end. *)
Lemma sim_lift_panics {E A} (o1 o2 : outcome E A) (RA : A → A → Prop) :
  osim (E:=E) RA (map_err TxError o1) (map_err TxError o2) → sim (H:=H) R RA (tx_lift o1) (tx_lift o2).
Proof. intros Ho. by apply sim_read. Qed.
Lemma sim_fail {E A B} (RA : A → B → Prop) (e : E) : sim (H:=H) R RA (tx_fail e) (tx_fail e).
Proof. by intros s1 s2 _. Qed.
Lemma sim_modify {E} (f1 f2 : D → D) :
  (∀ d1 d2, R d1 d2 → R (f1 d1) (f2 d2)) → sim (H:=H) (E:=E) R eq (tx_modify f1) (tx_modify f2).
Proof. intros Hf s1 s2 Hs. split; [done|]. by apply Hf. Qed.
Lemma sim_on_commit {E} (h1 h2 : H) : sim (E:=E) R eq (on_commit h1) (on_commit h2).
Proof. intros s1 s2 Hs. by split. Qed.
Lemma sim_into {E E2 A B} (f : E → E2) (RA : A → B → Prop) (m1 : Tx D H E A) (m2 : Tx D H E B) :
  sim R RA m1 m2 → sim R RA (tx_into f m1) (tx_into f m2).
Proof.
  intros Hm s1 s2 Hs. specialize (Hm s1 s2 Hs). unfold tx_into.
  destruct (m1 s1) as [|[]|], (m2 s2) as [|[]|]; simpl in *; by subst.
Qed.
End Sim.

(** ** Transactions of a module *)
Section ModuleSim.
Context {T H : Type} (R : relation T).

(** The tables are related, and the tables of [open] are held open. *)
Definition mtx_at (open : list string) : relation (ModuleTx T) := λ mt1 mt2,
  R (tables mt1) (tables mt2) ∧ open_tables mt1 = open ∧ open_tables mt2 = open.

Lemma sim_with_table {E A B} (RA : A → B → Prop) open name (b1 : MTx T H E A) (b2 : MTx T H E B) :
  sim (mtx_at (name :: open)) RA b1 b2 →
  sim (mtx_at open) RA (with_table (M:=MTx T H E) name b1) (with_table (M:=MTx T H E) name b2).
Proof.
  intros Hb s1 s2 (Hr & Ho1 & Ho2). simpl. unfold mtx_with_table. rewrite Ho1, Ho2.
  case_decide; [done|].
  specialize (Hb (MkTx (MkModuleTx (tables (tx_db s1)) (name :: open)) (tx_hooks s1))
                 (MkTx (MkModuleTx (tables (tx_db s2)) (name :: open)) (tx_hooks s2))).
  destruct (b1 _) as [[a s1']|[]|], (b2 _) as [[b s2']|[]|]; simpl in *; try (by apply Hb); try done.
  destruct Hb as (Ha & Hr' & _ & _); [done|]. done.
Qed.
Lemma sim_query {E A} (RA : A → A → Prop) (f1 f2 : T → A) open :
  (∀ d1 d2, R d1 d2 → RA (f1 d1) (f2 d2)) →
  sim (mtx_at open) RA (query (M:=MTx T H E) f1) (query (M:=MTx T H E) f2).
Proof. intros Hf s1 s2 Hs. split; [|done]. apply Hf, Hs. Qed.
Lemma sim_update {E} (f1 f2 : T → T) open :
  (∀ d1 d2, R d1 d2 → R (f1 d1) (f2 d2)) →
  sim (H:=H) (E:=E) (mtx_at open) eq (update_tables f1) (update_tables f2).
Proof. intros Hf s1 s2 (Hr & ?). split; [done|]. split; [by apply Hf|done]. Qed.
End ModuleSim.

(** One step of a proof by simulation; results are compared with [eq]. *)
Ltac sim_step :=
  lazymatch goal with
  | |- sim _ _ (mbind _ _) (mbind _ _) => apply (sim_bind _ eq)
  | |- sim _ _ (mret _) (mret _) => apply sim_ret
  | |- sim _ _ (tx_fail _) (tx_fail _) => apply sim_fail
  | |- sim _ _ (tx_lift _) (tx_lift _) => apply sim_lift
  | |- sim _ _ (tx_into _ _) (tx_into _ _) => apply sim_into
  | |- sim _ _ (on_commit _) (on_commit _) => apply sim_on_commit
  | |- sim _ _ (with_table _ _) (with_table _ _) => apply sim_with_table
  | |- sim _ _ (query _) (query _) => apply sim_query
  | |- sim _ _ (update_tables _) (update_tables _) => apply sim_update
  | |- sim _ _ (tx_modify _) (tx_modify _) => apply sim_modify
  end.
