(* ===== verification/Replica.v ===== *)
(** * The nodes of a federation stay replicas of each other

    Two nodes hold the same shared tables and, apart from them, their own key,
    their own pending votes, their own proposals and their own consensus tables.
    When they process the same blocks, each at its own time and with its own
    events in between, what they share stays the same.  What a module must
    guarantee for this is the interface [Replicated]; the two modules of the
    repository implement it. *)
From S2P Require Import Prelude Peers Core Db ConsDb ConsInv Consensus ConsSteps ConsSpec ConsProps Module Ctrl CtrlSpec CtrlProps Meta NodeApp NodeAppProps Sim.

Section Replicas.
Context `{Crypto} `{Bincode} `{CtrlCodecs} `{MetaCodecs} {Y : Type}.
(** What two nodes share of the tables of a module that is not in the repository. *)
Context (RY : relation Y).
Abbreviation ModTables := (ModTables (Y:=Y)).
Abbreviation DynModule := (DynModule (Y:=Y)).
Abbreviation AppDb := (AppDb (Y:=Y)).
Abbreviation NodeApp := (NodeApp (Y:=Y)).
Abbreviation ATx := (Tx AppDb AppHook ProcessCItemError).

(** ** What nodes share *)

(** The votes and the values of the meta module, and not what is pending. *)
Definition shared_meta (d : MetaDb) := (key_value_votes d, consensus_values d).
Definition ctrl_agree (d1 d2 : CtrlDb) : Prop := shared_tables d1 = shared_tables d2.
Definition meta_agree (d1 d2 : MetaDb) : Prop := shared_meta d1 = shared_meta d2.
Definition tables_agree (t1 t2 : ModTables) : Prop :=
  match t1, t2 with
  | CtrlTables d1, CtrlTables d2 => ctrl_agree d1 d2
  | MetaTables d1, MetaTables d2 => meta_agree d1 d2
  | OtherTables y1, OtherTables y2 => RY y1 y2
  | _, _ => False
  end.
(** The parameters of the consensus and their schedule. *)
Definition params_agree (d1 d2 : ConsDb) : Prop :=
  cons_params_schedule d1 = cons_params_schedule d2 ∧ cons_params d1 = cons_params d2.
Definition map_agree {A B} (R : A → B → Prop) (m1 : gmap N A) (m2 : gmap N B) : Prop :=
  ∀ id, option_Forall2 R (m1 !! id) (m2 !! id).

Record db_agree (d1 d2 : AppDb) : Prop := {
  agree_position : app_cur_round d1 = app_cur_round d2;
  agree_tables : map_agree tables_agree (app_modules d1) (app_modules d2);
  agree_params : params_agree (app_consensus d1) (app_consensus d2);
}.

(** The interface of a replicated module: from tables that agree, the methods
    come to the same verdict with the same effects and leave tables that agree. *)
Record Replicated (m1 m2 : DynModule) : Prop := {
  rep_config : config m1 = config m2;
  rep_citem : ∀ r pk ps item, sim (mtx_at tables_agree []) eq (dyn_process_citem m1 r pk ps item) (dyn_process_citem m2 r pk ps item);
  rep_input : ∀ input, sim (mtx_at tables_agree []) eq (dyn_process_input m1 input) (dyn_process_input m2 input);
  rep_output : ∀ output, sim (mtx_at tables_agree []) eq (dyn_process_output m1 output) (dyn_process_output m2 output);
  rep_effects : ∀ ps effects, sim (mtx_at tables_agree []) eq (dyn_process_effects m1 ps effects) (dyn_process_effects m2 ps effects);
}.

(** The state of two nodes that are replicas of each other. *)
Record agree (a1 a2 : NodeApp) : Prop := {
  agree_db : db_agree (app_db a1) (app_db a2);
  agree_loaded : map_agree Replicated (app_loaded a1) (app_loaded a2);
  agree_peer_set : cached_peer_set a1 = cached_peer_set a2;
  agree_configs : cached_configs a1 = cached_configs a2;
}.

(** ** The modules of the repository *)
Lemma sim_zoom {D K D' K' E A} (R : relation D) (R' : relation D') get put (hook : K → K') (m1 m2 : Tx D K E A) :
  (∀ t1 t2 d1 d2, R' t1 t2 → get t1 = Some d1 → get t2 = Some d2 → R d1 d2) →
  (∀ d1 d2 t1 t2, R' t1 t2 → R d1 d2 → R' (put d1 t1) (put d2 t2)) →
  sim R eq m1 m2 → sim R' eq (tx_zoom get put hook m1) (tx_zoom get put hook m2).
Proof.
  intros Hget Hput Hm s1 s2 Ht. unfold tx_zoom.
  destruct (get (tx_db s1)) as [d1|] eqn:Hg1; [|by apply osim_crash_l].
  destruct (get (tx_db s2)) as [d2|] eqn:Hg2; [|by apply osim_crash_r].
  specialize (Hm (MkTx d1 []) (MkTx d2 []) (Hget _ _ _ _ Ht Hg1 Hg2)).
  destruct (m1 _) as [[a s1']|[]|], (m2 _) as [[b s2']|[]|]; try done.
  destruct Hm as [Ha Hr]. simpl in *. auto.
Qed.

Lemma sim_ctrl {A} (m1 m2 : MTx CtrlDb CtrlHook Whatever A) :
  sim (mtx_at ctrl_agree []) eq m1 m2 → sim (mtx_at tables_agree []) eq (ctrl_zoom m1) (ctrl_zoom m2).
Proof.
  apply sim_zoom.
  - intros [[d1| |] o1] [[d2| |] o2] ?? (Ht & Ho1 & Ho2) [= <-] [= <-]; simpl in *. by subst.
  - intros [d1 o1] [d2 o2] ?? _ (Hd & Ho1 & Ho2). simpl in *. by subst.
Qed.
Lemma sim_meta {A} (m1 m2 : MTx MetaDb MetaHook Whatever A) :
  sim (mtx_at meta_agree []) eq m1 m2 → sim (mtx_at tables_agree []) eq (meta_zoom m1) (meta_zoom m2).
Proof.
  apply sim_zoom.
  - intros [[|d1|] o1] [[|d2|] o2] ?? (Ht & Ho1 & Ho2) [= <-] [= <-]; simpl in *. by subst.
  - intros [d1 o1] [d2 o2] ?? _ (Hd & Ho1 & Ho2). simpl in *. by subst.
Qed.

(** The control module: its handlers are [ctrl_step]. *)
Lemma ctrl_replicated c self1 self2 :
  modules_inits self1 = modules_inits self2 → Replicated (ctrl_dyn c self1) (ctrl_dyn c self2).
Proof.
  intros Hinits. split; [done|..]; simpl.
  - intros r pk ps item. apply sim_ctrl. intros [[d1 o1] hs1] [[d2 o2] hs2] (Hd & Ho1 & Ho2). simpl in *. subst o1 o2.
    destruct (decide (pk ∈ ps)) as [Hin|Hin].
    + rewrite (process_citem_run self1 r pk ps item d1 hs1), (process_citem_run self2 r pk ps item d2 hs2) by done.
      destruct (codec_decode item) as [x|]; [|done].
      pose proof (ctrl_step_deterministic self1 self2 pk ps x d1 d2 Hinits Hd) as Hs.
      destruct (ctrl_step self1 pk ps x d1) as [[e1 d1']| |], (ctrl_step self2 pk ps x d2) as [[e2 d2']| |]; try done.
      destruct Hs as [-> Hs]. by split_and!.
    + apply osim_crash_l. unfold process_citem, mbind, mtx_bind, tx_bind, tx_lift, tx_read, rd_lift.
      by rewrite bool_decide_eq_false_2.
  - intros input. apply sim_ctrl, sim_fail.
  - intros output. apply sim_ctrl, sim_fail.
  - intros ps effects. by apply sim_ctrl, sim_ret.
Qed.

(** The meta module: its transactions read and write what is shared, apart from
    the pending proposals, which they only clear and announce. *)
Ltac meta_shared := intros [] [] [= -> ->]; reflexivity.
Lemma vote_sim voter ps key value open :
  sim (mtx_at meta_agree open) eq (process_citem_vote_key_value voter ps key value)
    (process_citem_vote_key_value voter ps key value).
Proof.
  unfold process_citem_vote_key_value. sim_step. sim_step; [sim_step; meta_shared|]. intros v ? <-.
  case_decide; [by sim_step|]. sim_step; [sim_step; meta_shared|]. intros _ _ _.
  sim_step; [sim_step; meta_shared|]. intros n ? <-. sim_step; [sim_step|]. intros np ? <-.
  destruct (_ <=? _)%N; [|by sim_step].
  sim_step; [sim_step; sim_step; meta_shared|]. intros _ _ _.
  sim_step; [sim_step; sim_step; meta_shared|]. intros _ _ _.
  sim_step; [sim_step; meta_shared|]. intros _ _ _. by sim_step.
Qed.
Lemma record_first_sim threshold key ps counts open :
  sim (mtx_at meta_agree open) eq (record_first_consensus threshold key ps counts)
    (record_first_consensus threshold key ps counts).
Proof.
  induction counts as [|[v n] counts IH]; cbn [record_first_consensus]; [by sim_step|]. case_match; [|done].
  sim_step. sim_step; [sim_step; meta_shared|]. intros _ _ _.
  sim_step. sim_step; [sim_step; meta_shared|]. intros _ _ _.
  sim_step. sim_step. meta_shared.
Qed.
Lemma recheck_keys_sim ps keys open :
  sim (mtx_at meta_agree open) eq (recheck_keys ps keys) (recheck_keys ps keys).
Proof.
  induction keys as [|key keys IH]; cbn [recheck_keys]; [by sim_step|]. sim_step; [sim_step; meta_shared|]. intros v ? <-.
  sim_step; [|by intros]. destruct v as [v|]; [by sim_step|].
  sim_step; [sim_step; meta_shared|]. intros counts ? <-. sim_step; [sim_step|]. intros np ? <-.
  apply record_first_sim.
Qed.
Lemma meta_replicated c self1 self2 : Replicated (meta_dyn c self1) (meta_dyn c self2).
Proof.
  split; [done|..]; simpl.
  - intros r pk ps item. apply sim_meta. unfold meta_process_citem.
    sim_step; [sim_step|]. intros _ _ _. sim_step; [sim_step|]. intros x ? <-.
    sim_step.
    { destruct x as [key value|key peer]; [apply vote_sim|]. unfold process_citem_approve_vote.
      sim_step. sim_step; [sim_step; meta_shared|]. intros v ? <-.
      destruct v; [apply vote_sim|sim_step]. }
    intros es ? <-. apply (sim_bind _ (λ _ _, True)).
    { unfold meta_refresh_dbtx. sim_step. sim_step. apply (sim_query _ (λ _ _, True)). by intros. }
    intros p1 p2 _. sim_step; [sim_step|]. intros _ _ _. by sim_step.
  - intros input. apply sim_meta, sim_fail.
  - intros output. apply sim_meta, sim_fail.
  - intros ps effects. apply sim_meta.
    induction effects as [|e effects IH]; cbn [meta_process_effects]; [by sim_step|]. sim_step; [|by intros].
    case_decide; [|by sim_step]. unfold recheck_consensus_after_peer_removal. sim_step. sim_step.
    sim_step; [sim_step; meta_shared|]. intros keys ? <-. apply recheck_keys_sim.
Qed.

(** ** The transaction of an item *)

(** The databases during the transaction: they also have the same latest block
    before half of the round, which goes into new parameters. *)
Definition db_agree_at (round : BlockRound) (d1 d2 : AppDb) : Prop :=
  db_agree d1 d2 ∧
  prev_notarized (round_half round) (app_consensus d1) = prev_notarized (round_half round) (app_consensus d2).

Lemma map_agree_insert {A B} (R : A → B → Prop) m1 m2 id a b :
  map_agree R m1 m2 → R a b → map_agree R (<[id := a]> m1) (<[id := b]> m2).
Proof.
  intros Hm Hr j. destruct (decide (id = j)) as [->|Hne].
  - rewrite !lookup_insert_eq. by constructor.
  - rewrite !lookup_insert_ne by done. apply Hm.
Qed.
Lemma map_agree_delete {A B} (R : A → B → Prop) m1 m2 id : map_agree R m1 m2 → map_agree R (delete id m1) (delete id m2).
Proof.
  intros Hm j. destruct (decide (id = j)) as [->|Hne].
  - rewrite !lookup_delete_eq. constructor.
  - rewrite !lookup_delete_ne by done. apply Hm.
Qed.
Lemma map_agree_empty {A B} (R : A → B → Prop) : map_agree R ∅ ∅.
Proof. intros j. rewrite !lookup_empty. constructor. Qed.
(** What is at a place on both nodes. *)
Lemma map_agree_lookup {A B} (R : A → B → Prop) m1 m2 id :
  map_agree R m1 m2 →
  (∃ a b, m1 !! id = Some a ∧ m2 !! id = Some b ∧ R a b) ∨ (m1 !! id = None ∧ m2 !! id = None).
Proof. intros Hm. specialize (Hm id). destruct Hm as [a b Hr|]; [left; eauto|by right]. Qed.
(** The entries come in the same order. *)
Lemma map_agree_entries {A B} (R : A → B → Prop) m1 m2 :
  map_agree R m1 m2 → Forall2 (λ x y, x.1 = y.1 ∧ R x.2 y.2) (entries m1) (entries m2).
Proof.
  intros Hm. assert ((entries m1).*1 = (entries m2).*1) as Hk.
  { apply (StronglySorted_unique key_le); [apply entries_keys_sorted..|].
    apply NoDup_Permutation; [rewrite entries_perm; apply NoDup_fst_map_to_list..|]. intros id.
    rewrite !entries_perm, !list_elem_of_fmap. split; intros ([id' x] & -> & Hx%elem_of_map_to_list);
      specialize (Hm id'); rewrite Hx in Hm; inversion Hm; eexists (id', _); (split; [done|]);
      by apply elem_of_map_to_list. }
  apply Forall2_same_length_lookup. split.
  - by rewrite <-(length_fmap fst), Hk, length_fmap.
  - intros i [id a] [id' b] Ha Hb. simpl.
    assert (id = id') as <-.
    { apply (f_equal (lookup i)) in Hk. rewrite !list_lookup_fmap, Ha, Hb in Hk. by injection Hk. }
    split; [done|]. apply list_elem_of_lookup_2 in Ha, Hb.
    rewrite entries_perm, elem_of_map_to_list in Ha. rewrite entries_perm, elem_of_map_to_list in Hb.
    specialize (Hm id). rewrite Ha, Hb in Hm. by inversion Hm.
Qed.

Section Transaction.
Context (mods1 mods2 : gmap ModuleId DynModule) (round : BlockRound).
Hypothesis Hmods : map_agree Replicated mods1 mods2.

Lemma sim_module {E A} id (m1 m2 : MTx ModTables ModHook E A) :
  sim (mtx_at tables_agree []) eq m1 m2 → sim (db_agree_at round) eq (module_tx id m1) (module_tx id m2).
Proof.
  apply sim_zoom.
  - intros d1 d2 t1 t2 [Hd _]. destruct (map_agree_lookup _ _ _ id (agree_tables _ _ Hd)) as [(a & b & -> & -> & Hr)|[-> ->]];
      [|done]. intros [= <-] [= <-]. done.
  - intros t1 t2 d1 d2 [[Hp Ht Hc] Hn] (Hr & _). split; [|done]. split; [done|by apply map_agree_insert|done].
Qed.

(** The consensus gets the same parameters, unless one of the nodes has passed
    the round in which they apply, and ends. *)
Lemma sim_params_change {E} w1 w2 ts ps :
  sim (db_agree_at round) eq
    (consensus_tx (Y:=Y) (consensus_params_change_tx (E:=E) w1 round ts ps))
    (consensus_tx (consensus_params_change_tx w2 round ts ps)).
Proof.
  apply (sim_zoom (λ c1 c2, params_agree c1 c2 ∧ prev_notarized (round_half round) c1 = prev_notarized (round_half round) c2)).
  - intros d1 d2 ?? [[_ _ Hc] Hn] [= <-] [= <-]. done.
  - intros c1 c2 d1 d2 [[Hp Ht _] _] [Hc Hn]. split; [|done]. by split.
  - unfold consensus_params_change_tx. sim_step.
    { apply sim_read_eq. intros c1 c2 [[Hs Hp] _].
      unfold get_consensus_params, get_consensus_params_opt, mbind, rd_bind, rd_get, rd_expect.
      rewrite Hs. destruct (range_last _ _) as [[? h]|]; [|done]. by rewrite Hp. }
    intros p ? <-. sim_step.
    { apply sim_read_eq. intros c1 c2 [_ Hn]. unfold get_prev_notarized_block, rd_get. by rewrite Hn. }
    intros b ? <-. sim_step; [sim_step|]. intros p' ? <-. sim_step.
    { apply sim_lift_panics. destruct (_ <? _)%N, (_ <? _)%N; done. }
    intros _ _ _. sim_step; [|intros; by sim_step]. unfold insert_consensus_params. sim_step.
    { apply sim_read_eq. intros c1 c2 [[Hs _] _]. unfold rd_get. by rewrite Hs. }
    intros e ? <-. sim_step.
    { apply sim_modify. intros c1 c2 [[Hs Hp] Hn]. by split; [split; simpl; rewrite ?Hs|]. }
    intros _ _ _. destruct e; [by sim_step|]. sim_step; [|intros; by sim_step].
    apply sim_modify. intros c1 c2 [[Hs Hp] Hn]. by split; [split; simpl; rewrite ?Hp|].
Qed.

Lemma sim_parts op failed parts effects :
  (∀ m1 m2, Replicated m1 m2 → ∀ part, sim (mtx_at tables_agree []) eq (op m1 part) (op m2 part)) →
  sim (db_agree_at round) eq (process_parts mods1 op failed parts effects) (process_parts mods2 op failed parts effects).
Proof.
  intros Hop. revert effects. induction parts as [|[id part] parts IH]; intros effects; cbn [process_parts]; [by sim_step|].
  destruct (map_agree_lookup _ _ _ id Hmods) as [(m1 & m2 & -> & -> & Hr)|[-> ->]]; [|sim_step].
  sim_step.
  - apply sim_module. sim_step. by apply Hop.
  - intros es ? <-. rewrite (rep_config _ _ Hr). apply IH.
Qed.
Lemma sim_item_effects br pk ps item :
  sim (db_agree_at round) eq (item_effects mods1 br pk ps item) (item_effects mods2 br pk ps item).
Proof.
  destruct item as [id inner|tx]; cbn [item_effects].
  - sim_step; [sim_step|]. intros _ _ _.
    destruct (map_agree_lookup _ _ _ id Hmods) as [(m1 & m2 & -> & -> & Hr)|[-> ->]]; [|sim_step].
    sim_step; [apply sim_module; sim_step; apply Hr|]. intros es ? <-. rewrite (rep_config _ _ Hr). by sim_step.
  - sim_step; [apply sim_parts; intros ?? Hr ?; apply Hr|]. intros es ? <-. apply sim_parts. intros ?? Hr ?. apply Hr.
Qed.
Lemma sim_core_pre w1 w2 ts ps effects :
  sim (db_agree_at round) eq (process_consensus_change_effects_core_pre w1 round ts ps effects)
    (process_consensus_change_effects_core_pre w2 round ts ps effects).
Proof.
  revert ps. induction effects as [|e effects IH]; intros ps; cbn [process_consensus_change_effects_core_pre]; [by sim_step|].
  case_decide; [|apply IH]. sim_step; [sim_step|]. intros change ? <-.
  sim_step; [apply sim_params_change|]. intros _ _ _. apply IH.
Qed.
Lemma sim_all_effects ps effects l1 l2 :
  Forall2 (λ x y, x.1 = y.1 ∧ Replicated x.2 y.2) l1 l2 →
  sim (db_agree_at round) eq (process_all_effects l1 ps effects) (process_all_effects l2 ps effects).
Proof.
  induction 1 as [|[id m1] [id' m2] l1 l2 [Hid Hr] _ IH]; cbn [process_all_effects]; [by sim_step|].
  simpl in Hid. subst id'. sim_step; [apply sim_module; sim_step; apply Hr|]. by intros.
Qed.
Lemma sim_try w1 w2 ci br ts pk ps item :
  sim (db_agree_at round) eq (process_citem_try mods1 w1 round ci br ts pk ps item)
    (process_citem_try mods2 w2 round ci br ts pk ps item).
Proof.
  unfold process_citem_try. sim_step; [apply sim_item_effects|]. intros es ? <-.
  sim_step; [apply sim_core_pre|]. intros ps' ? <-.
  sim_step; [apply sim_all_effects, map_agree_entries, Hmods|]. intros _ _ _.
  sim_step; [|intros; by sim_step]. unfold save_cur_round_and_idx_dbtx. sim_step.
  intros d1 d2 [[Hp Ht Hc] Hn]. by split.
Qed.
End Transaction.

(** ** The application *)
Implicit Types (a : NodeApp).

Lemma process_citem_agree cr ci hdr pk item a1 a2 a1' a2' :
  agree a1 a2 →
  prev_notarized (round_half cr) (app_consensus (app_db a1)) = prev_notarized (round_half cr) (app_consensus (app_db a2)) →
  app_process_citem cr ci hdr pk item a1 = Ok a1' → app_process_citem cr ci hdr pk item a2 = Ok a2' →
  agree a1' a2'.
Proof.
  intros [Hdb Hl Hps Hc] Hmid H1' H2'.
  destruct (cached_peer_set a1) as [ps|] eqn:Hps1; [|by unfold app_process_citem in H1'; rewrite Hps1 in H1'].
  symmetry in Hps.
  assert (Hs := sim_try (app_loaded a1) (app_loaded a2) cr Hl (current_round_with_timeout (app_watches a1)).1
    (current_round_with_timeout (app_watches a2)).1 ci (BlockHeader.round hdr) (BlockHeader.timestamp hdr) pk ps item
    (MkTx (app_db a1) []) (MkTx (app_db a2) []) (conj Hdb Hmid)).
  destruct (app_process_citem_cases _ _ _ _ _ _ _ _ Hps1 H1') as [(p1 & k1 & s1 & Hr1 & Hd1 & Hp1 & Hl1 & Hc1 & _)|(e1 & Hr1 & _ & ->)],
    (app_process_citem_cases _ _ _ _ _ _ _ _ Hps H2') as [(p2 & k2 & s2 & Hr2 & Hd2 & Hp2 & Hl2 & Hc2 & _)|(e2 & Hr2 & _ & ->)];
    unfold item_tx in Hr1, Hr2; rewrite Hr1, Hr2 in Hs; simpl in Hs; try done.
  - destruct Hs as ([= -> ->] & Hs & _). split; rewrite ?Hd1, ?Hd2, ?Hl1, ?Hl2, ?Hp1, ?Hp2, ?Hc1, ?Hc2; try done.
    by destruct k2.
  - split; try done. destruct Hdb as [Hpos Ht Hpar]. by split.
Qed.

Lemma with_caches_agree ps cs a1 a2 : agree a1 a2 → agree (with_caches ps cs a1) (with_caches ps cs a2).
Proof. intros [Hdb Hl _ _]. by split. Qed.
Lemma with_loaded_agree m1 m2 a1 a2 : agree a1 a2 → map_agree Replicated m1 m2 → agree (with_loaded m1 a1) (with_loaded m2 a2).
Proof. intros [Hdb Hl Hp Hc] Hm. by split. Qed.
Lemma with_module_tables_agree id t1 t2 p1 p2 a1 a2 :
  agree a1 a2 → tables_agree t1 t2 → agree (with_module_tables id t1 p1 a1) (with_module_tables id t2 p2 a2).
Proof.
  intros [[Hpos Ht Hpar] Hl Hp Hc] Hr. split; try done. split; try done. simpl. by apply map_agree_insert.
Qed.

(** *** Setting up the modules *)
Section Setup.
Context (our1 our2 : option PeerPubkey) (inits : gmap ModuleKind IModuleInit)
  (other1 other2 : ModuleId → ModuleConfig.t → option Y → outcome ModuleInitError (DynModule * Y)).
(** The other modules are replicated, if there are any. *)
Hypothesis Hother : ∀ id c y1 y2 r1 r2, option_Forall2 RY y1 y2 →
  other1 id c y1 = Ok r1 → other2 id c y2 = Ok r2 → Replicated r1.1 r2.1 ∧ RY r1.2 r2.2.

Lemma ctrl_init_agree v d1 d2 m1 m2 d1' d2' p1 p2 :
  ctrl_agree d1 d2 → ctrl_init v our1 inits d1 = (Ok m1, (d1', p1)) → ctrl_init v our2 inits d2 = (Ok m2, (d2', p2)) →
  ctrl_agree d1' d2' ∧ modules_inits m1 = modules_inits m2.
Proof.
  intros Hd. unfold ctrl_init. case_decide; [|done].
  unfold ctrl_write, module_write, write_with_expect_falliable, write_with_inner_falliable. simpl.
  unfold mtx_with_table. simpl.
  unfold refresh_consensus_proposals. destruct (module_read _ _); [|done..].
  intros [= <- <- <-]. destruct (module_read _ _); [|done..]. by intros [= <- <- <-].
Qed.
Lemma meta_init_agree v d1 d2 m1 m2 d1' d2' p1 p2 :
  meta_agree d1 d2 → meta_init v our1 d1 = (Ok m1, (d1', p1)) → meta_init v our2 d2 = (Ok m2, (d2', p2)) →
  meta_agree d1' d2'.
Proof.
  intros Hd. unfold meta_init. case_decide; [|done].
  unfold meta_write, module_write, write_with_expect_falliable, write_with_inner_falliable. simpl.
  unfold mtx_with_table. simpl. intros [= <- <- <-]. by intros [= <- <- <-].
Qed.

Lemma init_module_agree id c a1 a2 r1 r2 :
  agree a1 a2 →
  init_module our1 inits other1 id c a1 = Ok r1 → init_module our2 inits other2 id c a2 = Ok r2 →
  Replicated r1.1 r2.1 ∧ agree r1.2 r2.2.
Proof.
  intros Ha. unfold init_module. destruct (inits !! _); [|done].
  destruct (map_agree_lookup _ _ _ id (agree_tables _ _ (agree_db _ _ Ha))) as [(t1 & t2 & -> & -> & Hr)|[-> ->]].
  - destruct t1 as [d1|d1|y1], t2 as [d2|d2|y2]; simpl in Hr; try done.
    + case_decide; simpl; [|by case_decide].
      destruct (ctrl_init _ our1 _ _) as [[m1| |] [d1' p1]] eqn:H1'; simpl; try done.
      destruct (ctrl_init _ our2 _ _) as [[m2| |] [d2' p2]] eqn:H2'; simpl; try done.
      intros [= <-] [= <-]. destruct (ctrl_init_agree _ _ _ _ _ _ _ _ _ Hr H1' H2') as [Hd Hi].
      split; [by apply ctrl_replicated|]. by apply with_module_tables_agree.
    + case_decide; [done|]. case_decide; simpl; [|done].
      destruct (meta_init _ our1 _) as [[m1| |] [d1' p1]] eqn:H1'; simpl; try done.
      destruct (meta_init _ our2 _) as [[m2| |] [d2' p2]] eqn:H2'; simpl; try done.
      intros [= <-] [= <-]. split; [apply meta_replicated|]. apply with_module_tables_agree; [done|].
      exact (meta_init_agree _ _ _ _ _ _ _ _ _ Hr H1' H2').
    + case_decide; [done|]. case_decide; [done|]. simpl.
      destruct (other1 _ _ _) as [o1| |] eqn:H1'; simpl; try done.
      destruct (other2 _ _ _) as [o2| |] eqn:H2'; simpl; try done.
      intros [= <-] [= <-]. destruct (Hother id c _ _ _ _ (Some_Forall2 _ _ _ Hr) H1' H2') as [Hm Hy].
      split; [done|]. by apply with_module_tables_agree.
  - case_decide; simpl.
    { destruct (ctrl_init _ our1 _ _) as [[m1| |] [d1' p1]] eqn:H1'; simpl; try done.
      destruct (ctrl_init _ our2 _ _) as [[m2| |] [d2' p2]] eqn:H2'; simpl; try done.
      intros [= <-] [= <-]. destruct (ctrl_init_agree _ _ _ _ _ _ _ _ _ eq_refl H1' H2') as [Hd Hi].
      split; [by apply ctrl_replicated|]. by apply with_module_tables_agree. }
    case_decide; simpl.
    { destruct (meta_init _ our1 _) as [[m1| |] [d1' p1]] eqn:H1'; simpl; try done.
      destruct (meta_init _ our2 _) as [[m2| |] [d2' p2]] eqn:H2'; simpl; try done.
      intros [= <-] [= <-]. split; [apply meta_replicated|]. apply with_module_tables_agree; [done|].
      exact (meta_init_agree _ _ _ _ _ _ _ _ _ eq_refl H1' H2'). }
    destruct (other1 _ _ _) as [o1| |] eqn:H1'; simpl; try done.
    destruct (other2 _ _ _) as [o2| |] eqn:H2'; simpl; try done.
    intros [= <-] [= <-]. destruct (Hother id c _ _ _ _ (None_Forall2 _) H1' H2') as [Hm Hy].
    split; [done|]. by apply with_module_tables_agree.
Qed.

Lemma setup_loop_agree configs ex1 ex2 ch a1 a2 r1 r2 :
  agree a1 a2 → map_agree Replicated ex1 ex2 →
  setup_loop our1 inits other1 configs ex1 ch a1 = Ok r1 → setup_loop our2 inits other2 configs ex2 ch a2 = Ok r2 →
  map_agree Replicated r1.1.1 r2.1.1 ∧ r1.1.2 = r2.1.2 ∧ agree r1.2 r2.2.
Proof.
  revert ex1 ex2 ch a1 a2. induction configs as [|[id c] configs IH]; intros ex1 ex2 ch a1 a2 Ha Hex; cbn [setup_loop].
  { by intros [= <-] [= <-]. }
  assert (∀ ex1 ex2 r1' r2', map_agree Replicated ex1 ex2 →
    init_module our1 inits other1 id c a1 = Ok r1' → init_module our2 inits other2 id c a2 = Ok r2' →
    setup_loop our1 inits other1 configs ex1 true (with_loaded (<[id := r1'.1]> (app_loaded a1)) r1'.2) = Ok r1 →
    setup_loop our2 inits other2 configs ex2 true (with_loaded (<[id := r2'.1]> (app_loaded a2)) r2'.2) = Ok r2 →
    map_agree Replicated r1.1.1 r2.1.1 ∧ r1.1.2 = r2.1.2 ∧ agree r1.2 r2.2) as Hnew.
  { intros x1 x2 r1' r2' Hx Hi1 Hi2. destruct (init_module_agree _ _ _ _ _ _ Ha Hi1 Hi2) as [Hr Ha'].
    apply IH; [|done]. apply with_loaded_agree; [done|]. apply map_agree_insert; [apply Ha|done]. }
  destruct (map_agree_lookup _ _ _ id Hex) as [(m1 & m2 & -> & -> & Hr)|[-> ->]].
  - rewrite <-(rep_config _ _ Hr). case_decide.
    + apply IH; [|by apply map_agree_delete]. apply with_loaded_agree; [done|].
      apply map_agree_insert; [apply Ha|done].
    + intros (r1' & Hi1 & Hs1)%bind_Ok (r2' & Hi2 & Hs2)%bind_Ok.
      apply (Hnew _ _ r1' r2' (map_agree_delete _ _ _ id Hex)); done.
  - intros (r1' & Hi1 & Hs1)%bind_Ok (r2' & Hi2 & Hs2)%bind_Ok. by apply (Hnew _ _ r1' r2' Hex).
Qed.
Lemma setup_modules_agree configs a1 a2 r1 r2 :
  agree a1 a2 →
  setup_modules_to our1 inits other1 configs a1 = Ok r1 → setup_modules_to our2 inits other2 configs a2 = Ok r2 →
  r1.1 = r2.1 ∧ agree r1.2 r2.2.
Proof.
  intros Ha. unfold setup_modules_to.
  intros ([[ex1 ch1] b1] & Hl1 & Hr1)%bind_Ok ([[ex2 ch2] b2] & Hl2 & Hr2)%bind_Ok.
  apply bind_Ok in Hr1 as ([] & _ & [= <-]). apply bind_Ok in Hr2 as ([] & _ & [= <-]).
  destruct (setup_loop_agree _ _ _ _ _ _ _ _
    (with_loaded_agree ∅ ∅ _ _ Ha (map_agree_empty _)) (agree_loaded _ _ Ha) Hl1 Hl2) as (_ & Hch & Hb).
  done.
Qed.

Lemma ctrl_tables_agree a1 a2 d1 d2 :
  agree a1 a2 → ctrl_tables a1 = Ok d1 → ctrl_tables a2 = Ok d2 → ctrl_agree d1 d2.
Proof.
  intros Ha. unfold ctrl_tables. intros (_ & _ & Hd1)%bind_Ok (_ & _ & Hd2)%bind_Ok. revert Hd1 Hd2.
  destruct (map_agree_lookup _ _ _ CONSENSUS_CTRL_MODULE_ID (agree_tables _ _ (agree_db _ _ Ha)))
    as [(t1 & t2 & -> & -> & Hr)|[-> ->]]; [|done].
  destruct t1, t2; simpl in *; try done. by intros [= <-] [= <-].
Qed.
Lemma reload_agree a1 a2 a1' a2' :
  agree a1 a2 →
  reload_invalidated_copies our1 inits other1 a1 = Ok a1' → reload_invalidated_copies our2 inits other2 a2 = Ok a2' →
  agree a1' a2'.
Proof.
  intros Ha. unfold reload_invalidated_copies. intros (d1 & Hd1 & H1')%bind_Ok (d2 & Hd2 & H2')%bind_Ok.
  pose proof (ctrl_tables_agree _ _ _ _ Ha Hd1 Hd2) as Hd.
  assert (peers_of d1 = peers_of d2 ∧ modules_configs d1 = modules_configs d2) as [Hp Hm].
  { unfold ctrl_agree, shared_tables, peers_of in *. by injection Hd as -> _ _ -> _ _. }
  revert H1' H2'. rewrite <-Hp, <-Hm, <-(agree_peer_set _ _ Ha).
  assert (∃ b1 b2, agree b1 b2 ∧ cached_configs b1 = cached_configs b2 ∧
    match cached_peer_set a1 with Some _ => a1 | None => with_caches (Some (peers_of d1)) (cached_configs a1) a1 end = b1 ∧
    match cached_peer_set a1 with Some _ => a2 | None => with_caches (Some (peers_of d1)) (cached_configs a2) a2 end = b2)
    as (b1 & b2 & Hb & Hc & -> & ->).
  { eexists _, _. split_and!; [| |reflexivity..].
    - rewrite <-(agree_configs _ _ Ha). destruct (cached_peer_set a1); [done|]. by apply with_caches_agree.
    - rewrite <-(agree_configs _ _ Ha). destruct (cached_peer_set a1); [by apply Ha|done]. }
  rewrite <-Hc. destruct (cached_configs b1); [by intros [= <-] [= <-]|].
  intros (r1 & Hs1 & [= <-])%bind_Ok (r2 & Hs2 & [= <-])%bind_Ok.
  rewrite <-(agree_peer_set _ _ Hb) in Hs2.
  by destruct (setup_modules_agree _ _ _ _ _ (with_caches_agree _ _ _ _ Hb) Hs1 Hs2).
Qed.
End Setup.

(** *** Starting on an empty database *)
Definition fresh_node (a : NodeApp) : Prop :=
  app_cur_round (app_db a) = None ∧ app_modules (app_db a) = ∅ ∧ app_loaded a = ∅ ∧
  cached_peer_set a = None ∧ cached_configs a = None.

(** Recording the supported versions is about our own votes. *)
Lemma record_versions_shared inits d w d' w' :
  record_module_init_versions inits (d, w) = (Ok (), (d', w')) → ctrl_agree d d'.
Proof.
  unfold record_module_init_versions. destruct (get_modules_configs _) as [l| |]; [|done..]. unfold ctrl_write. intros Hw.
  assert (∀ l d0 hs, ctrl_agree d d0 → wp (E:=Empty_set) false (record_versions inits l)
    (λ _ s', ctrl_agree d (tables (tx_db s'))) (MkTx (MkModuleTx d0 ["pending_modules_versions_votes"]) hs)) as Hl.
  { clear. intros l. induction l as [|[id c] l IH]; intros d0 hs Hd; cbn [record_versions]; [by mwp_step|].
    mwp_step. apply wp_lift; [|done]. intros vs _. mwp_step. apply wp_lift; [|done]. intros mx _. mwp_step. mwp_step.
    by apply IH. }
  pose proof (module_write_run run_ctrl_hook false
    (with_table (M:=MTx CtrlDb CtrlHook Empty_set) "pending_modules_versions_votes" (record_versions inits l))
    (λ _ s', ctrl_agree d (tables (tx_db s'))) d w) as Hrun.
  rewrite Hw in Hrun. destruct Hrun as (open & hooks & _ & Hd); [|exact Hd].
  mwp_step. simpl. by apply Hl.
Qed.

Lemma start_agree our1 our2 inits other1 other2 params a1 a2 r1 r2 :
  (∀ id c y1 y2 r1 r2, option_Forall2 RY y1 y2 →
    other1 id c y1 = Ok r1 → other2 id c y2 = Ok r2 → Replicated r1.1 r2.1 ∧ RY r1.2 r2.2) →
  fresh_node a1 → fresh_node a2 → params_agree (app_consensus (app_db a1)) (app_consensus (app_db a2)) →
  start our1 inits other1 params a1 = Ok r1 → start our2 inits other2 params a2 = Ok r2 →
  r1.1 = r2.1 ∧ agree r1.2 r2.2.
Proof.
  intros Hother (Hp1 & Hm1 & Hl1 & Hc1 & Hf1) (Hp2 & Hm2 & Hl2 & Hc2 & Hf2) Hpar.
  assert (agree a1 a2) as Ha.
  { split; [split|..]; rewrite ?Hp1, ?Hp2, ?Hm1, ?Hm2, ?Hl1, ?Hl2, ?Hc1, ?Hc2, ?Hf1, ?Hf2; try done; apply map_agree_empty. }
  unfold start, load_cur_round_and_idx. rewrite Hp1, Hp2.
  intros (i1 & Hi1 & H1')%bind_Ok (i2 & Hi2 & H2')%bind_Ok.
  assert (i1.1 = i2.1 ∧ agree i1.2 i2.2) as [Hcfg Hai].
  { revert Hi1 Hi2. unfold init_consensus_ctrl. rewrite Hl1, Hl2, Hm1, Hm2, lookup_empty.
    rewrite bool_decide_eq_true_2 by done. cbn [rassert]. destruct (inits !! CTRL_KIND); cbn [mbind outcome_bind expect]; [|done]. cbv zeta.
    destruct (ctrl_write _ _) as [[configs| |] [d' p']]; [|done..].
    intros [= <-] [= <-]. split; [done|]. by apply with_module_tables_agree. }
  apply bind_Ok in H1' as (s1 & Hs1 & H1'). apply bind_Ok in H2' as (s2 & Hs2 & H2'). rewrite <-Hcfg in Hs2.
  destruct (setup_modules_agree _ _ _ _ _ Hother _ _ _ _ _ Hai Hs1 Hs2) as [_ Has].
  apply bind_Ok in H1' as ([] & _ & (b1 & Hb1 & [= <-])%bind_Ok).
  apply bind_Ok in H2' as ([] & _ & (b2 & Hb2 & [= <-])%bind_Ok). split; [done|]. simpl.
  revert Hb1 Hb2. unfold record_supported_modules_versions.
  apply (with_caches_agree None None) in Has. intros (d1 & Hd1 & Hb1)%bind_Ok (d2 & Hd2 & Hb2)%bind_Ok.
  pose proof (ctrl_tables_agree _ _ _ _ Has Hd1 Hd2) as Hd. revert Hb1 Hb2.
  destruct (record_module_init_versions _ (d1, _)) as [[[]|[]|] [d1' w1]] eqn:Hr1; [|done].
  destruct (record_module_init_versions _ (d2, _)) as [[[]|[]|] [d2' w2]] eqn:Hr2; [|done].
  intros [= <-] [= <-]. apply with_module_tables_agree; [done|].
  apply record_versions_shared in Hr1, Hr2. unfold tables_agree, ctrl_agree in *. congruence.
Qed.

(** ** Runs of a node *)

(** What happens on a node besides the blocks: its consensus goes on, its owner
    casts votes, and channels change.  Nothing of this touches what is shared. *)
Definition private a a' : Prop :=
  db_agree (app_db a) (app_db a') ∧ app_loaded a' = app_loaded a ∧
  cached_peer_set a' = cached_peer_set a ∧ cached_configs a' = cached_configs a.

Section Runs.
Context (our : option PeerPubkey) (inits : gmap ModuleKind IModuleInit)
  (other : ModuleId → ModuleConfig.t → option Y → outcome ModuleInitError (DynModule * Y)).
(** The latest notarized block before half of a round: the nodes have the same
    chain below a final block. *)
Context (mid : BlockRound → option BlockHeader.t).
Definition same_mid (round : BlockRound) a : Prop := prev_notarized (round_half round) (app_consensus (app_db a)) = mid round.

(** The items of a block, with private events before and between the steps. *)
Inductive items_run (cr : BlockRound) (hdr : BlockHeader.t) (pk : PeerPubkey) :
    N → list CItem → N → NodeApp → N → NodeApp → Prop :=
  | items_done idx cur a a' : private a a' → items_run cr hdr pk idx [] cur a cur a'
  | items_skip idx item items cur a cur' a' :
      (idx < cur)%N → items_run cr hdr pk (idx + 1) items idx a cur' a' →
      items_run cr hdr pk idx (item :: items) cur a cur' a'
  | items_next idx item items cur a a0 a1 a1' a2 cur' a' :
      (cur ≤ idx)%N → private a a0 → reload_invalidated_copies our inits other a0 = Ok a1 →
      private a1 a1' → same_mid cr a1' → app_process_citem cr cur hdr pk item a1' = Ok a2 →
      items_run cr hdr pk (idx + 1) items idx a2 cur' a' → items_run cr hdr pk idx (item :: items) cur a cur' a'.

(** The loop of [run] over blocks. *)
Inductive blocks_run : BlockRound * N → list (BlockHeader.t * PeerPubkey * list CItem) → NodeApp →
    BlockRound * N → NodeApp → Prop :=
  | blocks_done pos a a' : private a a' → blocks_run pos [] a pos a'
  | blocks_next pos hdr pk items blocks a cur a1 a1' next a2 pos' a' :
      items_run pos.1 hdr pk 0 items pos.2 a cur a1 → private a1 a1' →
      round_next_expect (E:=Whatever) (BlockHeader.round hdr) = Ok next →
      app_write (E:=Empty_set) (save_cur_round_and_idx_dbtx next 0) a1' = (Ok (), a2) →
      blocks_run (next, 0%N) blocks a2 pos' a' → blocks_run pos ((hdr, pk, items) :: blocks) a pos' a'.
End Runs.

(** ** Replicas *)
Section Agreement.
Context `{!Equivalence RY}.

#[local] Instance tables_agree_equiv : Equivalence tables_agree.
Proof.
  split.
  - intros [d|d|y]; by simpl.
  - intros [d1|d1|y1] [d2|d2|y2]; simpl; try done; unfold ctrl_agree, meta_agree; by intros.
  - intros [d1|d1|y1] [d2|d2|y2] [d3|d3|y3]; simpl; try done; unfold ctrl_agree, meta_agree; intros; by etrans.
Qed.
#[local] Instance db_agree_sym : Symmetric db_agree.
Proof.
  intros d1 d2 [Hp Ht [Hs Hc]]. split; [done| |done]. intros id. specialize (Ht id).
  by destruct Ht; constructor.
Qed.
#[local] Instance db_agree_trans : Transitive db_agree.
Proof.
  intros d1 d2 d3 [Hp Ht [Hs Hc]] [Hp' Ht' [Hs' Hc']]. split; [by etrans| |split; by etrans].
  intros id. specialize (Ht id). specialize (Ht' id).
  destruct Ht; inversion Ht'; constructor. by etrans.
Qed.
Lemma db_agree_refl d : db_agree d d.
Proof. split; [done| |done]. intros id. destruct (_ !! id); by constructor. Qed.
Lemma private_refl a : private a a.
Proof. split; [apply db_agree_refl|done]. Qed.

Lemma private_agree a1 a2 a1' a2' : agree a1 a2 → private a1 a1' → private a2 a2' → agree a1' a2'.
Proof.
  intros [Hdb Hl Hp Hc] (Hd1 & Hl1 & Hp1 & Hc1) (Hd2 & Hl2 & Hp2 & Hc2).
  split; [|by rewrite Hl1, Hl2|congruence..]. transitivity (app_db a1); [by symmetry|]. by transitivity (app_db a2).
Qed.

(** Events on a node that are private. *)
Lemma consensus_private c w p a :
  params_agree (app_consensus (app_db a)) c →
  private a (MkNodeApp (set_app_consensus c (app_db a)) w p (app_loaded a) (cached_peer_set a) (cached_configs a)).
Proof. intros Hc. split; [|done]. destruct (db_agree_refl (app_db a)). by split. Qed.
Lemma ctrl_private d d' p a :
  app_modules (app_db a) !! CONSENSUS_CTRL_MODULE_ID = Some (CtrlTables d) → ctrl_agree d d' →
  private a (with_module_tables CONSENSUS_CTRL_MODULE_ID (CtrlTables d') p a).
Proof.
  intros Hd Hs. split; [|done]. destruct (db_agree_refl (app_db a)) as [Hp Ht Hc]. split; [done| |done].
  intros id. simpl. destruct (decide (CONSENSUS_CTRL_MODULE_ID = id)) as [<-|Hne].
  - rewrite Hd, lookup_insert_eq. by constructor.
  - rewrite lookup_insert_ne by done. apply Ht.
Qed.

Context (our1 our2 : option PeerPubkey) (inits : gmap ModuleKind IModuleInit)
  (other1 other2 : ModuleId → ModuleConfig.t → option Y → outcome ModuleInitError (DynModule * Y)).
Hypothesis Hother : ∀ id c y1 y2 r1 r2, option_Forall2 RY y1 y2 →
  other1 id c y1 = Ok r1 → other2 id c y2 = Ok r2 → Replicated r1.1 r2.1 ∧ RY r1.2 r2.2.
Context (mid : BlockRound → option BlockHeader.t).

Lemma items_run_agree cr hdr pk idx items cur a1 a2 cur1 cur2 a1' a2' :
  agree a1 a2 →
  items_run our1 inits other1 mid cr hdr pk idx items cur a1 cur1 a1' →
  items_run our2 inits other2 mid cr hdr pk idx items cur a2 cur2 a2' →
  cur1 = cur2 ∧ agree a1' a2'.
Proof.
  intros Ha Hr. revert a2 Ha. induction Hr as
    [idx cur a a' Hp|idx item items cur a cur' a' Hlt Hr IH|idx item items cur a b0 b1 b1' b2 cur' a' Hle Hp0 Hrl Hp1 Hm Hit Hr IH];
    intros a2 Ha Hr2; inversion Hr2; subst; try lia.
  - split; [done|]. by eapply private_agree.
  - by eapply IH.
  - eapply IH; [|done]. eapply process_citem_agree; [| |done|done]; [|by unfold same_mid in *; congruence].
    eapply private_agree; [|done..]. eapply reload_agree; [exact Hother| |done..]. by eapply private_agree.
Qed.

Lemma save_position_agree r a1 a2 a1' a2' :
  agree a1 a2 →
  app_write (E:=Empty_set) (save_cur_round_and_idx_dbtx r 0) a1 = (Ok (), a1') →
  app_write (E:=Empty_set) (save_cur_round_and_idx_dbtx r 0) a2 = (Ok (), a2') → agree a1' a2'.
Proof.
  intros [[Hp Ht Hc] Hl Hps Hcf]. intros [= <-] [= <-]. by split.
Qed.

Lemma blocks_run_agree pos blocks a1 a2 pos1 pos2 a1' a2' :
  agree a1 a2 →
  blocks_run our1 inits other1 mid pos blocks a1 pos1 a1' → blocks_run our2 inits other2 mid pos blocks a2 pos2 a2' →
  pos1 = pos2 ∧ agree a1' a2'.
Proof.
  intros Ha Hr. revert a2 Ha. induction Hr as
    [pos a a' Hp|pos hdr pk items blocks a cur b1 b1' next b2 pos' a' Hit Hp Hn Hw Hr IH]; intros a2 Ha Hr2;
    inversion Hr2; subst.
  - split; [done|]. by eapply private_agree.
  - match goal with Hi : items_run our2 _ _ _ _ _ _ _ _ _ _ _ _ |- _ => destruct (items_run_agree _ _ _ _ _ _ _ _ _ _ _ _ Ha Hit Hi) as [-> Hb] end.
    assert (next0 = next) as -> by congruence. eapply IH; [|done]. eapply save_position_agree; [|done..].
    by eapply private_agree.
Qed.
End Agreement.

(** ** A run without events in between is such a run *)
Section Straight.
Context `{!Equivalence RY} (our : option PeerPubkey) (inits : gmap ModuleKind IModuleInit)
  (other : ModuleId → ModuleConfig.t → option Y → outcome ModuleInitError (DynModule * Y)).

Definition notarized (d : AppDb) := cons_blocks_notarized (app_consensus d).
Abbreviation keeps_notarized m := (∀ s, wp false m (λ _ s', notarized (tx_db s') = notarized (tx_db s)) s).

Lemma notarized_bind {E A B} (m : Tx AppDb AppHook E A) (f : A → Tx AppDb AppHook E B) :
  keeps_notarized m → (∀ x, keeps_notarized (f x)) → keeps_notarized (m ≫= f).
Proof.
  intros Hm Hf s. wp_step. eapply wp_mono; [apply Hm|]. intros x s1 Hs1. simpl. rewrite <-Hs1. apply Hf.
Qed.
Lemma notarized_module {E A} id (m : MTx ModTables ModHook E A) : keeps_notarized (module_tx id m).
Proof.
  intros s. apply wp_eq. intros x s'. unfold module_tx, tx_zoom.
  destruct (_ <$> _); [|done]. destruct (m _) as [[? ?]|[]|]; [|done..]. by intros [= _ <-].
Qed.
Lemma notarized_params {E} w r ts ps : keeps_notarized (consensus_tx (Y:=Y) (consensus_params_change_tx (E:=E) w r ts ps)).
Proof.
  intros s. apply wp_eq. intros x s'. unfold consensus_tx, tx_zoom. cbn [app_consensus].
  destruct (consensus_params_change_tx _ _ _ _ _) as [[u s1]|[]|] eqn:Hc; [|done..]. intros [= _ <-]. simpl.
  eapply (wp_elim false _ (λ _ s1, cons_blocks_notarized (tx_db s1) = notarized (tx_db s))) in Hc; [done|].
  unfold consensus_params_change_tx, insert_consensus_params. clear.
  wp_step. apply wp_read; [|done]. intros p _. wp_step. apply wp_read; [|done]. intros b _.
  wp_step. apply wp_lift; [|done]. intros p' _. wp_step. apply wp_lift; [|done]. intros [] _.
  repeat wp_step. simpl. destruct (_ !! _); repeat wp_step; done.
Qed.
Lemma notarized_lift {E A} (o : outcome E A) : keeps_notarized (tx_lift (H:=AppHook) o).
Proof. intros s. by apply wp_lift. Qed.
Lemma notarized_parts mods op failed parts effects : keeps_notarized (process_parts (Y:=Y) mods op failed parts effects).
Proof.
  revert effects. induction parts as [|[id part] parts IH]; intros effects; cbn [process_parts]; [intros s; by wp_step|].
  destruct (mods !! id); [|intros s; apply wp_fail]. apply notarized_bind; [apply notarized_module|]. intros es. apply IH.
Qed.
Lemma notarized_try mods w cr ci br ts pk ps item : keeps_notarized (process_citem_try (Y:=Y) mods w cr ci br ts pk ps item).
Proof.
  unfold process_citem_try. apply notarized_bind.
  { destruct item as [id inner|tx]; cbn [item_effects].
    - apply notarized_bind; [apply notarized_lift|]. intros []. destruct (mods !! id); [|intros s; apply wp_fail].
      apply notarized_bind; [apply notarized_module|]. intros es s. by wp_step.
    - apply notarized_bind; [apply notarized_parts|]. intros es. apply notarized_parts. }
  intros es. apply notarized_bind.
  { revert ps. induction es as [|e es IH]; intros ps; cbn [process_consensus_change_effects_core_pre]; [intros s; by wp_step|].
    case_decide; [|apply IH]. apply notarized_bind; [apply notarized_lift|]. intros change.
    apply notarized_bind; [apply notarized_params|]. intros _. apply IH. }
  intros ps'. apply notarized_bind; [|intros []; apply notarized_bind; [intros s; unfold save_cur_round_and_idx_dbtx; by wp_step|]; intros [] s; by wp_step].
  generalize (entries mods). intros l. induction l as [|[id m] l IH]; cbn [process_all_effects]; [intros s; by wp_step|].
  apply notarized_bind; [apply notarized_module|]. intros _. apply IH.
Qed.
Lemma process_citem_notarized cr ci hdr pk item a a' :
  app_process_citem cr ci hdr pk item a = Ok a' → notarized (app_db a') = notarized (app_db a).
Proof.
  intros Hp. destruct (cached_peer_set a) as [ps|] eqn:Hc; [|by unfold app_process_citem in Hp; rewrite Hc in Hp].
  destruct (app_process_citem_cases _ _ _ _ _ _ _ _ Hc Hp) as [(ps' & keep & s' & Hrun & Hdb & _)|(e & _ & _ & ->)]; [|done].
  rewrite Hdb. exact (wp_elim _ _ _ _ _ _ (notarized_try _ _ _ _ _ _ _ _ _ _) Hrun).
Qed.

Lemma init_module_consensus id c a r :
  init_module our inits other id c a = Ok r → app_consensus (app_db r.2) = app_consensus (app_db a).
Proof.
  unfold init_module. destruct (inits !! _); [|done]. case_decide; [|case_decide].
  - intros (d & _ & Hr)%bind_Ok. destruct (ctrl_init _ _ _ _) as [o [d' p]].
    by apply bind_Ok in Hr as (m & _ & [= <-]).
  - intros (d & _ & Hr)%bind_Ok. destruct (meta_init _ _ _) as [o [d' p]].
    by apply bind_Ok in Hr as (m & _ & [= <-]).
  - intros (y & _ & (m & _ & [= <-])%bind_Ok)%bind_Ok. done.
Qed.
Lemma setup_loop_consensus configs ex ch a r :
  setup_loop our inits other configs ex ch a = Ok r → app_consensus (app_db r.2) = app_consensus (app_db a).
Proof.
  revert ex ch a. induction configs as [|[id c] configs IH]; intros ex ch a; cbn [setup_loop]; [by intros [= <-]|].
  destruct (ex !! id) as [m|]; [case_decide; [by intros ->%IH|]|];
    intros (r1 & Hi%init_module_consensus & Hs%IH)%bind_Ok; rewrite Hs; exact Hi.
Qed.
Lemma reload_consensus a a' :
  reload_invalidated_copies our inits other a = Ok a' → app_consensus (app_db a') = app_consensus (app_db a).
Proof.
  unfold reload_invalidated_copies. intros (d & _ & Hr)%bind_Ok. revert Hr.
  destruct (cached_peer_set a) as [ps|]; destruct (cached_configs _); try (by intros [= <-]);
    unfold setup_modules_to; intros (r & ([[ex ch] b] & Hs%setup_loop_consensus & ([] & _ & [= <-])%bind_Ok)%bind_Ok & [= <-])%bind_Ok;
    exact Hs.
Qed.

Context (mid : BlockRound → option BlockHeader.t).

Lemma process_items_run cr hdr pk idx items cur a cur' a' :
  same_mid mid cr a → process_items our inits other cr hdr pk idx items cur a = Ok (cur', a') →
  items_run our inits other mid cr hdr pk idx items cur a cur' a' ∧ notarized (app_db a') = notarized (app_db a).
Proof.
  revert idx cur a. induction items as [|item items IH]; intros idx cur a Hm; cbn [process_items].
  { intros [= <- <-]. split; [|done]. by apply items_done, private_refl. }
  intros ([] & _ & Hr)%bind_Ok. apply bind_Ok in Hr as (a2 & Hr & Hrest).
  destruct (N.leb_spec cur idx) as [Hle|Hlt].
  - apply bind_Ok in Hr as (a1 & Hrl & Hp). pose proof (reload_consensus _ _ Hrl) as Hc1.
    pose proof (process_citem_notarized _ _ _ _ _ _ _ Hp) as Hn2. unfold notarized in Hn2. rewrite Hc1 in Hn2.
    assert (same_mid mid cr a1) as Hm1 by (unfold same_mid; by rewrite Hc1).
    assert (same_mid mid cr a2) as Hm2.
    { unfold same_mid in *. rewrite <-Hm. unfold prev_notarized. by rewrite Hn2. }
    destruct (IH _ _ _ Hm2 Hrest) as [Hrun Hn]. split; [|by rewrite Hn].
    by eapply items_next; [done|apply private_refl|exact Hrl|apply private_refl|..].
  - injection Hr as ->. destruct (IH _ _ _ Hm Hrest) as [Hrun Hn]. split; [|done]. by apply items_skip.
Qed.

Fixpoint process_blocks (pos : BlockRound * N) (blocks : list (BlockHeader.t * PeerPubkey * list CItem)) a :
    outcome Whatever (BlockRound * N * NodeApp) :=
  match blocks with
  | [] => Ok (pos, a)
  | (hdr, pk, items) :: blocks' =>
      r ← process_block our inits other pos hdr pk items a;
      process_blocks r.1 blocks' r.2
  end.
Lemma process_blocks_run pos blocks a pos' a' :
  (∀ cr, same_mid mid cr a) → process_blocks pos blocks a = Ok (pos', a') →
  blocks_run our inits other mid pos blocks a pos' a'.
Proof.
  revert pos a. induction blocks as [|[[hdr pk] items] blocks IH]; intros pos a Hm; cbn [process_blocks].
  { intros [= <- <-]. by apply blocks_done, private_refl. }
  intros ([pos1 a1] & Hb & Hr)%bind_Ok. unfold process_block in Hb.
  apply bind_Ok in Hb as ([cur b] & Hi & Hb). apply bind_Ok in Hb as (next & Hn & Hb).
  destruct (process_items_run _ _ _ _ _ _ _ _ _ (Hm _) Hi) as [Hrun Hnot].
  destruct (app_write _ _) as [[[]|[]|] b'] eqn:Hw; [|done]. injection Hb as <- <-.
  eapply blocks_next; [exact Hrun|apply private_refl|exact Hn|exact Hw|]. apply IH; [|exact Hr].
  intros cr. injection Hw as <-. unfold same_mid in *. rewrite <-(Hm cr). unfold prev_notarized. simpl.
  unfold notarized in Hnot. by rewrite Hnot.
Qed.
End Straight.
End Replicas.

(** ** What is private: the messages of the consensus and the votes of the owner *)
Section Private.
Context `{Crypto} `{Bincode} `{CtrlCodecs} `{MetaCodecs}.

Lemma consensus_steps_private c c' :
  consensus_wf c → cstep c c' →
  params_agree (db c) (db c') ∨
  ∃ round ts peers, c' = (write_tx c (consensus_params_change_tx (E:=Empty_set)
    (current_round_with_timeout (watches c)).1 round ts peers)).2.
Proof.
  intros Hwf Hstep. pose proof (proj1 Hwf) as Hrest.
  destruct Hstep as [c i resp|c i resp Hr|c pk resp|c round ts peers Hch|c our c' Ho].
  - left. pose proof (vote_spec c i resp Hwf) as Hv. unfold vote_outcome in Hv.
    destruct (process_vote_response c i resp) as [[[]|e|w] c']; cbn; [|by subst..].
    destruct Hv as [_ Hv]. split; [by rewrite (vs_schedule _ _ Hv)|by rewrite (vs_params _ _ Hv)].
  - left. pose proof (notarized_spec c i resp Hwf Hr) as Hv. unfold notarized_outcome in Hv.
    destruct (process_notarized_block_response c i resp) as [[[]|e|w] c']; cbn; [|by subst..].
    destruct Hv as [_ Hv]. split; [by rewrite (ns_schedule _ _ _ Hv)|by rewrite (ns_params _ _ _ Hv)].
  - left. by destruct (finality_spec c pk resp Hwf) as [_ (x & y & z & -> & _)].
  - right. by exists round, ts, peers.
  - left. destruct (open_spec _ _ _ Hrest Ho) as (_ & Hos & _).
    split; [by rewrite (os_schedule _ _ Hos)|by rewrite (os_params _ _ Hos)].
Qed.

(** A write of the control module that keeps what is shared. *)
Lemma write_then_refresh_private self name (f : CtrlDb → CtrlDb) d w :
  (∀ d, ctrl_agree d (f d)) → ctrl_agree d (write_then_refresh self (with_table name (update_tables f)) (d, w)).2.1.
Proof.
  intros Hf. unfold write_then_refresh, ctrl_write, module_write, write_with_expect_falliable, write_with_inner_falliable. simpl.
  unfold mtx_with_table. simpl. unfold refresh_consensus_proposals. simpl. destruct (module_read _ _); apply Hf.
Qed.
Lemma own_votes_private self d w :
  (∀ p, ctrl_agree d (set_pending_add_peer_vote self p (d, w)).2.1) ∧
  (∀ p, ctrl_agree d (set_pending_remove_peer_vote self p (d, w)).2.1) ∧
  (∀ k v, ctrl_agree d (set_pending_add_module_vote self k v (d, w)).2.1).
Proof.
  split_and!; intros; unfold set_pending_add_peer_vote, set_pending_remove_peer_vote, set_pending_add_module_vote;
    repeat case_match; try done; by apply write_then_refresh_private.
Qed.
Lemma own_value_private self key value d w : meta_agree d (propose_key_value self key value (d, w)).2.1.
Proof.
  unfold propose_key_value, meta_write, module_write, write_with_expect_falliable, write_with_inner_falliable. simpl.
  unfold mtx_with_table. simpl. done.
Qed.
End Private.

(** C2: the nodes of a federation are replicas.  Two nodes with the same software
    start on empty databases with the same parameters of the consensus, and process
    the same blocks, each with its own key, at its own time, and with any private
    events in between (messages of the consensus, votes of its owner).  Then they
    are at the same position and agree: the tables of the control module and of the
    meta module apart from what is pending, the parameters of the consensus and
    their schedule, the configurations of the loaded modules and the copies in
    memory are the same.  The nodes hold the same latest block before half of each
    round ([same_chain_below]); modules that are not in the repository are
    replicated in the same sense; and a node that ends or restarts is not spoken
    of. *)
Theorem replicas_agree `{Crypto} `{Bincode} `{CtrlCodecs} `{MetaCodecs} {Y : Type} (RY : relation Y) `{!Equivalence RY}
    (our1 our2 : option PeerPubkey) (inits : gmap ModuleKind IModuleInit)
    (other1 other2 : ModuleId → ModuleConfig.t → option Y → outcome ModuleInitError (DynModule (Y:=Y) * Y))
    (mid : BlockRound → option BlockHeader.t) (params : ConsensusParams.t)
    (blocks : list (BlockHeader.t * PeerPubkey * list CItem)) (pos1 pos2 pos1' pos2' : BlockRound * N)
    (a1 a2 b1 b2 a1' a2' : NodeApp (Y:=Y)) :
  (∀ id c y1 y2 r1 r2, option_Forall2 RY y1 y2 →
    other1 id c y1 = Ok r1 → other2 id c y2 = Ok r2 → Replicated RY r1.1 r2.1 ∧ RY r1.2 r2.2) →
  fresh_node a1 → fresh_node a2 → params_agree (app_consensus (app_db a1)) (app_consensus (app_db a2)) →
  start our1 inits other1 params a1 = Ok (pos1, b1) → start our2 inits other2 params a2 = Ok (pos2, b2) →
  blocks_run RY our1 inits other1 mid pos1 blocks b1 pos1' a1' →
  blocks_run RY our2 inits other2 mid pos2 blocks b2 pos2' a2' →
  pos1' = pos2' ∧ agree RY a1' a2'.
Proof.
  intros Hother Hf1 Hf2 Hpar Hs1 Hs2 Hr1 Hr2.
  destruct (start_agree RY _ _ _ _ _ _ _ _ _ _ Hother Hf1 Hf2 Hpar Hs1 Hs2) as [Hpos Ha]. simpl in *. subst pos2.
  by eapply blocks_run_agree.
Qed.

Section ReplicaWitnesses.
Local Existing Instance Toy.crypto.
Local Existing Instance Toy.bincode.
Local Existing Instance ToyCtrl.codecs.
Local Existing Instance ToyMeta.codecs.
Import ToyApp.

(** The nodes of the peers 3 and 4 process the blocks with which the meta module
    is added and a value is agreed on. *)
Definition replica (our : PeerPubkey) : outcome Whatever (BlockRound * N * NodeApp (Y:=unit)) :=
  start (Some our) inits no_other toy_params fresh.
Definition the_blocks : list (BlockHeader.t * PeerPubkey * list CItem) :=
  [(header 0, 1, [add_meta]); (header 1, 2, [add_meta]); (header 2, 3, [add_meta]); (header 3, 4, [add_meta]);
   (header 4, 1, [propose 7 5]); (header 5, 2, [propose 7 5]); (header 6, 3, third)]%N.
Definition processed (our : PeerPubkey) : outcome Whatever (BlockRound * N * NodeApp (Y:=unit)) :=
  x ← replica our; process_blocks (Some our) inits no_other x.1 the_blocks x.2.

Lemma replicas_agree_witness :
  agree (@eq unit) (the_app (processed 3)) (the_app (processed 4)) ∧
  consensus_values (meta_of (the_app (processed 4))) !! 7%N = Some [5%N].
Proof.
  assert (∀ our, our = 3%N ∨ our = 4%N → ∃ pos b pos' a, replica our = Ok (pos, b) ∧
    process_blocks (Some our) inits no_other pos the_blocks b = Ok (pos', a) ∧ the_app (processed our) = a ∧
    (∀ cr, same_mid (λ _, None) cr b)) as Hrun.
  { intros our Hour.
    assert (match replica our with Ok x => match process_blocks (Some our) inits no_other x.1 the_blocks x.2 with
              Ok _ => bool_decide (cons_blocks_notarized (app_consensus (app_db x.2)) = ∅) | _ => false end | _ => false end = true)
      as Hok by (destruct Hour as [->| ->]; vm_compute; reflexivity).
    unfold processed. destruct (replica our) as [[pos b]|e|w] eqn:Hr; [|discriminate Hok..]. cbn [mbind outcome_bind fst snd] in *.
    destruct (process_blocks _ _ _ _ _ _) as [[pos' a]|e|w] eqn:Hp; [|discriminate Hok..].
    apply bool_decide_eq_true in Hok. exists pos, b, pos', a. split_and!; [reflexivity|exact Hp|reflexivity|].
    intros cr. unfold same_mid, prev_notarized. rewrite Hok. reflexivity. }
  split; [|vm_compute; reflexivity].
  destruct (Hrun 3%N (or_introl eq_refl)) as (p3 & b3 & p3' & a3 & Hs3 & Hp3 & -> & Hm3).
  destruct (Hrun 4%N (or_intror eq_refl)) as (p4 & b4 & p4' & a4 & Hs4 & Hp4 & -> & Hm4).
  destruct (replicas_agree (@eq unit) (Some 3%N) (Some 4%N) inits no_other no_other (λ _, None) toy_params
    the_blocks p3 p4 p3' p4' fresh fresh b3 b4 a3 a4) as [_ Ha]; [..|exact Ha].
  - intros id c y1 y2 r1 r2 _ Hr. discriminate Hr.
  - repeat split.
  - repeat split.
  - split; reflexivity.
  - exact Hs3.
  - exact Hs4.
  - apply process_blocks_run; [apply _|exact Hm3|exact Hp3].
  - apply process_blocks_run; [apply _|exact Hm4|exact Hp4].
Defined.
End ReplicaWitnesses.
