(* ===== verification/NodeTasks.v ===== *)
(** * The tasks of a round

    Which tasks a node runs in a round, as a function of what its database holds
    when the round starts, and how the requests to the other peers go on. *)
From S2P Require Import Prelude VoteSet Peers Core Db ConsDb ConsInv Consensus ConsSteps ConsSpec ConsVotes ConsProps Module Ctrl NodeApp Node Network NetInv NetRun.

Section VoteSets.
Context {V : Type}.
Implicit Types (m : gmap (N * N) V).

(** The bitmap of the peers with an entry of the round. *)
Lemma contains_foldl (l : list (N * N * V)) s i :
  VoteSet.wf s → Forall (λ kv, (kv.1.2 < 256)%N) l → (i < 256)%N →
  VoteSet.contains (foldl (λ s kv, VoteSet.insert s kv.1.2) s l) i = true ↔
  VoteSet.contains s i = true ∨ i ∈ (λ kv, kv.1.2) <$> l.
Proof.
  intros Hs Hl Hi. revert s Hs. induction Hl as [|[[r j] v] l Hj Hl IH]; intros s Hs; cbn [foldl].
  - rewrite fmap_nil, elem_of_nil. tauto.
  - rewrite IH by by apply VoteSet.insert_wf. rewrite VoteSet.contains_insert by done.
    rewrite fmap_cons, elem_of_cons, orb_true_iff, bool_decide_eq_true. simpl. naive_solver.
Qed.

Lemma contains_round_votes r m i :
  (i < 256)%N →
  VoteSet.contains (foldl (λ s kv, VoteSet.insert s kv.1.2) VoteSet.default (range (round_votes r) m)) i = true ↔
  is_Some (m !! (r, i)).
Proof.
  intros Hi. rewrite contains_foldl; [|apply VoteSet.default_wf| |done].
  - rewrite VoteSet.contains_default, list_elem_of_fmap. split.
    + intros [?|([[r' j] v] & -> & [Hv [Hr _]%round_votes_spec]%elem_of_range)]; [done|].
      simpl in *. subst. eauto.
    + intros [v Hv]. right. exists (r, i, v). split; [done|]. apply elem_of_range. split; [done|].
      apply round_votes_spec. simpl. lia.
  - apply Forall_forall. intros [[r' j] v] [_ [_ Hj]%round_votes_spec]%elem_of_range. simpl in *. lia.
Qed.
End VoteSets.

Section Tasks.
Context `{Crypto} `{Bincode} `{CItemsCodec}.
Implicit Types (n : Node) (p : ConsensusParams.t) (r : N).

(** ** The tasks that are spawned *)
Lemma elem_of_spawn_requests request p l tasks t :
  spawn_requests request p l = Ok tasks →
  t ∈ tasks ↔ ∃ i pk, i ∈ l ∧ ConsensusParams.peers p !! N.to_nat i = Some pk ∧ request i pk = Some t.
Proof.
  revert tasks. induction l as [|i l IH]; intros tasks; cbn [spawn_requests].
  { intros [= <-]. rewrite elem_of_nil. split; [done|]. by intros (? & ? & []%not_elem_of_nil & _). }
  intros (pk & Hpk & (rest & Hrest & [= <-])%bind_Ok)%bind_Ok. specialize (IH rest Hrest).
  unfold expect in Hpk. destruct (ConsensusParams.peers p !! N.to_nat i) as [pk'|] eqn:Hi; [|done].
  injection Hpk as ->. setoid_rewrite elem_of_cons.
  trans (request i pk = Some t ∨ t ∈ rest).
  - destruct (request i pk) as [t'|]; [rewrite elem_of_cons|]; naive_solver.
  - rewrite IH. naive_solver.
Qed.

Lemma spawn_requests_total request p l :
  (∀ i, i ∈ l → (N.to_nat i < length (ConsensusParams.peers p))%nat) →
  ∃ tasks, spawn_requests request p l = Ok tasks.
Proof.
  induction l as [|i l IH]; intros Hl; cbn [spawn_requests]; [by eexists|].
  destruct (lookup_lt_is_Some_2 _ _ (Hl i ltac:(left))) as [pk ->].
  destruct IH as [rest ->]; [intros j Hj; apply Hl; by right|]. by eexists.
Qed.

Lemma peer_lt p i pk : params_wf p → ConsensusParams.peers p !! N.to_nat i = Some pk → (i < 256)%N ∧ (i < npeers p)%N.
Proof. intros Hwf Hi%lookup_lt_Some. pose proof (pwf_max p Hwf). unfold npeers. lia. Qed.

Lemma our_idx_total n p : params_wf p → ∃ our, our_idx (E:=Empty_set) n p = Ok our.
Proof.
  intros Hwf. unfold our_idx, find_peer_idx. destruct (peer_pubkey n) as [pk|]; [|by eexists].
  destruct (list_find _ _) as [[k pk']|] eqn:Hf; [|by eexists].
  apply list_find_Some in Hf as (Hk%lookup_lt_Some & _). pose proof (pwf_max p Hwf).
  unfold idx_of_nat, u8_max. rewrite decide_True by lia. by eexists.
Qed.

(** What [t] is one of, in round [r] with the index [our]. *)
Definition spawned n r p (our : option PeerIdx) (leader : PeerIdx) (dummy : BlockHeader.t) (t : Task) : Prop :=
  let d := db (node_consensus n) in
  let dummy_voted i := is_Some (cons_votes_dummy d !! (r, i)) in
  let block_voted i := is_Some (cons_votes_block d !! (r, i)) in
  match t with
  | GenerateProposalTask r' i => r' = r ∧ our = Some i ∧ leader = i ∧ ¬ (dummy_voted i ∨ block_voted i)
  | VoteProposalTask r' i => r' = r ∧ our = Some i ∧ leader ≠ i ∧ ¬ block_voted i
  | TimeoutVoteTask r' v i => r' = r ∧ our = Some i ∧ ¬ dummy_voted i ∧
      ∃ sk, peer_seckey n = Some sk ∧ v = new_sign dummy sk
  | TimeoutSleepTask _ _ _ => False
  | RequestVoteTask r' i pk only_dummy => r' = r ∧ ConsensusParams.peers p !! N.to_nat i = Some pk ∧
      our ≠ Some i ∧ ¬ dummy_voted i ∧ (only_dummy = true ↔ block_voted i)
  | RequestNotarizedTask r' i pk prev => r' = r ∧ ConsensusParams.peers p !! N.to_nat i = Some pk ∧
      our ≠ Some i ∧ prev = prev_notarized r d
  end.

Lemma our_lt n p i :
  params_wf p → our_idx (E:=Empty_set) n p = Ok (Some i) → (i < 256)%N ∧ is_Some (peer_seckey n).
Proof.
  intros Hwf (pk & Hpk & Hi)%our_idx_own. split; [by apply (peer_lt p i pk)|].
  unfold peer_pubkey in Hpk. by apply fmap_Some in Hpk as (sk & -> & _).
Qed.

(** Each of the functions that spawn tasks, with the bitmaps as the predicates
    they stand for. *)
Section Spawned.
Variables (n : Node) (r : N) (p : ConsensusParams.t) (our : option PeerIdx) (leader : PeerIdx)
  (dummy : BlockHeader.t) (D B : VoteSet.VoteSet).
Hypothesis Hwf : params_wf p.
Hypothesis Hour : our_idx (E:=Empty_set) n p = Ok our.
Hypothesis Hleader : leader_idx (E:=Empty_set) p r = Ok leader.
Hypothesis Hdummy : new_dummy (E:=Empty_set) r p = Ok dummy.
Hypothesis HDwf : VoteSet.wf D.
Hypothesis HBwf : VoteSet.wf B.
Hypothesis HD : ∀ i, (i < 256)%N →
  VoteSet.contains D i = true ↔ is_Some (cons_votes_dummy (db (node_consensus n)) !! (r, i)).
Hypothesis HB : ∀ i, (i < 256)%N →
  VoteSet.contains B i = true ↔ is_Some (cons_votes_block (db (node_consensus n)) !! (r, i)).

Lemma contains_not S (P : Prop) i : (VoteSet.contains S i = true ↔ P) → VoteSet.contains S i = false ↔ ¬ P.
Proof. intros <-. by rewrite not_true_iff_false. Qed.

Lemma generate_spawned :
  ∃ tasks, run_consensus_round_spawn_generate_proposal_task our r p D B = Ok tasks ∧
  ∀ t, t ∈ tasks ↔ ∃ i, t = GenerateProposalTask r i ∧ spawned n r p our leader dummy t.
Proof using HB HBwf HD HDwf Hleader Hour Hwf.
  unfold run_consensus_round_spawn_generate_proposal_task. destruct our as [i|].
  2: { exists []. split; [done|]. intros t. rewrite elem_of_nil. split; [done|]. intros (i & -> & _ & [=] & _). }
  destruct (our_lt n p i Hwf Hour) as [Hi _]. rewrite Hleader. cbn [mbind outcome_bind].
  pose proof (VoteSet.contains_bitor D B i HDwf HBwf) as Hor.
  specialize (HD i Hi). specialize (HB i Hi).
  destruct (decide (leader = i)) as [->|Hne].
  - destruct (VoteSet.contains (VoteSet.bitor D B) i) eqn:Hc; eexists; (split; [done|]); intros t;
      rewrite ?elem_of_nil, ?list_elem_of_singleton; symmetry in Hor.
    + apply orb_true_iff in Hor. split; [done|]. intros (j & -> & _ & [= <-] & _ & Hn). tauto.
    + apply orb_false_iff in Hor as [H1' H2']. rewrite (contains_not _ _ _ HD) in H1'.
      rewrite (contains_not _ _ _ HB) in H2'. split; [intros ->|intros (j & -> & _ & [= <-] & _)]; [|done].
      exists i. split; [done|]. split_and!; [done..|tauto].
  - exists []. split; [done|]. intros t. rewrite elem_of_nil. split; [done|].
    by intros (j & -> & _ & [= <-] & -> & _).
Qed.

Lemma vote_spawned :
  ∃ tasks, run_consensus_round_spawn_vote_proposal_task n our r p B = Ok tasks ∧
  ∀ t, t ∈ tasks ↔ ∃ i, t = VoteProposalTask r i ∧ spawned n r p our leader dummy t.
Proof using HB Hleader Hour Hwf.
  unfold run_consensus_round_spawn_vote_proposal_task. destruct our as [i|].
  2: { exists []. split; [done|]. intros t. rewrite elem_of_nil. split; [done|]. intros (i & -> & _ & [=] & _). }
  destruct (our_lt n p i Hwf Hour) as [Hi [sk Hsk]]. specialize (HB i Hi). pose proof (contains_not _ _ _ HB) as HBn.
  destruct (VoteSet.contains B i) eqn:Hc.
  - exists []. split; [done|]. intros t. rewrite elem_of_nil. split; [done|].
    intros (j & -> & _ & [= <-] & _ & Hn). by apply Hn, HB.
  - rewrite Hleader. cbn [mbind outcome_bind]. pose proof (proj1 HBn eq_refl) as Hnv. case_decide as Hl.
    + exists []. split; [done|]. intros t. rewrite elem_of_nil. split; [done|].
      by intros (j & -> & _ & [= <-] & Hn & _).
    + unfold get_peer_secret_expect. rewrite Hsk. eexists. split; [done|]. intros t.
      rewrite list_elem_of_singleton. split; [intros ->|by intros (j & -> & _ & [= <-] & _)].
      exists i. by split_and!.
Qed.

Lemma timeout_spawned :
  ∃ tasks, run_consensus_round_spawn_timeout_vote_tasks n our r p D = Ok tasks ∧
  ∀ t, t ∈ tasks ↔ ∃ v i, t = TimeoutVoteTask r v i ∧ spawned n r p our leader dummy t.
Proof using HD Hdummy Hour Hwf.
  unfold run_consensus_round_spawn_timeout_vote_tasks. destruct our as [i|].
  2: { exists []. split; [done|]. intros t. rewrite elem_of_nil. split; [done|]. intros (v & i & -> & _ & [=] & _). }
  destruct (our_lt n p i Hwf Hour) as [Hi [sk Hsk]]. specialize (HD i Hi). pose proof (contains_not _ _ _ HD) as HDn.
  destruct (VoteSet.contains D i) eqn:Hc.
  - exists []. split; [done|]. intros t. rewrite elem_of_nil. split; [done|].
    intros (v & j & -> & _ & [= <-] & Hn & _). by apply Hn, HD.
  - pose proof (proj1 HDn eq_refl) as Hnv. rewrite Hdummy. unfold get_peer_secret_expect. rewrite Hsk.
    eexists. split; [done|]. intros t. rewrite list_elem_of_singleton. split.
    + intros ->. eexists _, i. split; [done|]. split_and!; [done..|]. by exists sk.
    + intros (v & j & -> & _ & [= <-] & _ & sk' & Hsk' & ->). by simplify_eq.
Qed.

Lemma requests_spawned :
  ∃ tasks, run_consensus_round_spawn_vote_requests our r p D B = Ok tasks ∧
  ∀ t, t ∈ tasks ↔ ∃ i pk od, t = RequestVoteTask r i pk od ∧ spawned n r p our leader dummy t.
Proof using HB HD Hwf.
  unfold run_consensus_round_spawn_vote_requests. rewrite num_peers_wf by done. cbn [mbind outcome_bind].
  destruct (spawn_requests_total (vote_request our r D B) p (NumPeers.peer_idx_iter (npeers p))) as [tasks Ht].
  { intros i Hi%NumPeers.elem_of_peer_idx_iter. unfold npeers in Hi. lia. }
  exists tasks. split; [done|]. intros t. rewrite (elem_of_spawn_requests _ _ _ _ t Ht). split.
  - intros (i & pk & _ & Hpk & Hr). destruct (peer_lt p i pk Hwf Hpk) as [Hi _].
    specialize (HD i Hi). specialize (HB i Hi). pose proof (contains_not _ _ _ HD) as HDn.
    unfold vote_request in Hr. case_bool_decide as Ho; [done|]. destruct (VoteSet.contains D i) eqn:Hc; [done|].
    injection Hr as <-. pose proof (proj1 HDn eq_refl) as Hnv. eexists i, pk, _. split; [done|]. by split_and!.
  - intros (i & pk & od & -> & _ & Hpk & Ho & Hd & Hb). destruct (peer_lt p i pk Hwf Hpk) as [Hi Hn].
    specialize (HD i Hi). specialize (HB i Hi). exists i, pk. rewrite NumPeers.elem_of_peer_idx_iter.
    split_and!; [done..|]. unfold vote_request. rewrite bool_decide_eq_false_2 by done.
    rewrite <-(contains_not _ _ _ HD) in Hd. rewrite Hd. do 2 f_equal.
    apply eq_true_iff_eq. by rewrite HB.
Qed.

Lemma blocks_spawned :
  ∃ tasks, run_consensus_round_spawn_notarized_blocks_requests our r p
    (prev_notarized r (db (node_consensus n))) = Ok tasks ∧
  ∀ t, t ∈ tasks ↔ ∃ i pk prev, t = RequestNotarizedTask r i pk prev ∧ spawned n r p our leader dummy t.
Proof using Hwf.
  unfold run_consensus_round_spawn_notarized_blocks_requests. rewrite num_peers_wf by done. cbn [mbind outcome_bind].
  destruct (spawn_requests_total (notarized_request our r (prev_notarized r (db (node_consensus n)))) p
    (NumPeers.peer_idx_iter (npeers p))) as [tasks Ht].
  { intros i Hi%NumPeers.elem_of_peer_idx_iter. unfold npeers in Hi. lia. }
  exists tasks. split; [done|]. intros t. rewrite (elem_of_spawn_requests _ _ _ _ t Ht). split.
  - intros (i & pk & _ & Hpk & Hr). unfold notarized_request in Hr. case_bool_decide as Ho; [done|].
    injection Hr as <-. eexists i, pk, _. split; [done|]. by split_and!.
  - intros (i & pk & od & -> & _ & Hpk & Ho & ->). destruct (peer_lt p i pk Hwf Hpk) as [_ Hn].
    exists i, pk. rewrite NumPeers.elem_of_peer_idx_iter. split_and!; [done..|].
    unfold notarized_request. by rewrite bool_decide_eq_false_2.
Qed.
End Spawned.
End Tasks.

(** The tasks of a round.  A node with sane parameters starts the round
    without a panic, and runs exactly these tasks: it proposes when it leads the
    round and has no vote of its own in it; it votes for the proposal of another
    leader unless it has voted for a block; it has one timeout vote, signed ahead,
    unless it has voted for the dummy block; it asks each other peer of the round
    for a notarized block, and each one without a stored dummy vote for its vote,
    only for a dummy vote when it holds the other vote. *)
Theorem round_tasks_spec `{Crypto} `{Bincode} `{CItemsCodec} (n : Node) (r : N) (p : ConsensusParams.t) :
  params_wf p →
  ∃ our leader dummy tasks,
    our_idx (E:=Empty_set) n p = Ok our ∧ leader_idx (E:=Empty_set) p r = Ok leader ∧
    new_dummy (E:=Empty_set) r p = Ok dummy ∧ spawn_round_tasks n r p = Ok tasks ∧
    ∀ t, t ∈ tasks ↔ spawned n r p our leader dummy t.
Proof.
  intros Hwf. destruct (our_idx_total n p Hwf) as [our Hour].
  destruct (leader_idx_wf (E:=Empty_set) p r Hwf) as (leader & Hleader & _).
  assert (∃ dummy, new_dummy (E:=Empty_set) r p = Ok dummy) as [dummy Hdummy].
  { unfold new_dummy. rewrite hash_and_len_spec, params_len_wf by done. by eexists. }
  set (D := foldl (λ s (kv : N * N * N), VoteSet.insert s kv.1.2) VoteSet.default
    (range (round_votes r) (cons_votes_dummy (db (node_consensus n))))).
  set (B := foldl (λ s (kv : N * N * SignedVote), VoteSet.insert s kv.1.2) VoteSet.default
    (range (round_votes r) (cons_votes_block (db (node_consensus n))))).
  assert (∀ V (l : list (N * N * V)) s, VoteSet.wf s → VoteSet.wf (foldl (λ s kv, VoteSet.insert s kv.1.2) s l)) as Hfold.
  { intros V l. induction l as [|kv l IH]; intros s Hs; [done|]. by apply IH, VoteSet.insert_wf. }
  pose proof (Hfold _ (range (round_votes r) (cons_votes_dummy (db (node_consensus n)))) _ VoteSet.default_wf) as HDwf.
  pose proof (Hfold _ (range (round_votes r) (cons_votes_block (db (node_consensus n)))) _ VoteSet.default_wf) as HBwf.
  pose proof (λ i, contains_round_votes r (cons_votes_dummy (db (node_consensus n))) i) as HD.
  pose proof (λ i, contains_round_votes r (cons_votes_block (db (node_consensus n))) i) as HB.
  fold D in HDwf, HD. fold B in HBwf, HB.
  destruct (generate_spawned n r p our leader dummy D B) as (t1 & H1' & E1); [done..|].
  destruct (vote_spawned n r p our leader dummy B) as (t2 & H2' & E2); [done..|].
  destruct (requests_spawned n r p our leader dummy D B) as (t3 & H3' & E3); [done..|].
  destruct (blocks_spawned n r p our leader dummy) as (t4 & H4' & E4); [done..|].
  destruct (timeout_spawned n r p our leader dummy D) as (t5 & H5' & E5); [done..|].
  exists our, leader, dummy, (t1 ++ t2 ++ t3 ++ t4 ++ t5). split_and!; [done..| |].
  - unfold spawn_round_tasks, node_read, read_tx. apply bind_Ok. exists D. split; [done|].
    apply bind_Ok. exists B. split; [done|]. rewrite Hour. cbn [mbind outcome_bind].
    apply bind_Ok. eexists. split; [done|]. rewrite H1', H2', H3', H4', H5'. done.
  - intros t. rewrite !elem_of_app, E1, E2, E3, E4, E5. split.
    { intros [(i & _ & Ht)|[(i & _ & Ht)|[(i & pk & od & _ & Ht)|[(i & pk & od & _ & Ht)|(v & i & _ & Ht)]]]];
        exact Ht. }
    intros Ht. destruct t as [r' i|r' i|r' v i|dur v i|r' i pk od|r' i pk prev]; [..|done| |];
      pose proof Ht as [-> _].
    + left. by exists i.
    + right; left. by exists i.
    + do 4 right. by exists v, i.
    + do 2 right; left. by exists i, pk, od.
    + do 3 right; left. by exists i, pk, prev.
Qed.

Section Requests.
Context `{Crypto} `{Bincode} `{CItemsCodec}.
Implicit Types (W : World) (n : Node).

(** Peer [i] is being asked for its vote, or its answer is at hand. *)
Definition asked (run : RoundRun) (i : PeerIdx) : Prop :=
  (∃ r pk od, RequestVoteTask r i pk od ∈ run_tasks run) ∨
  (∃ resp r pk, EvVote i resp r pk ∈ run_events run).

(** The answer of peer [i], a dummy vote, is the event that was handled. *)
Definition answered_dummy n run (i : PeerIdx) n' : Prop :=
  ∃ resp r pk, EvVote i resp r pk ∈ run_events run ∧ is_dummy (signed_inner (resp_block resp)) = true ∧
    node_consensus n' = (process_vote_response (node_consensus n) i resp).2.

Lemma elem_of_delete_ne {A} (l : list A) j x y : x ∈ l → l !! j = Some y → x ≠ y → x ∈ delete j l.
Proof.
  intros Hx Hj Hne. apply list_elem_of_lookup in Hx as [k Hk]. rewrite delete_take_drop.
  apply elem_of_app. destruct (decide (k < j)) as [Hlt|Hge].
  - left. apply list_elem_of_lookup. exists k. by rewrite lookup_take_lt.
  - right. assert (k ≠ j) by congruence. apply list_elem_of_lookup. exists (k - S j).
    rewrite lookup_drop. by replace (S j + (k - S j)) with k by lia.
Qed.

(** A request that ends gives the answer of its peer. *)
Lemma request_event force n r i pk od input e :
  task_event force n (RequestVoteTask r i pk od) input = Ok (TaskDone e) → ∃ resp, e = EvVote i resp r pk.
Proof. destruct input; try done. intros [= <-]. by eexists. Qed.

Lemma handled_spawns c i resp r pk o c' spawned :
  handle_event c (EvVote i resp r pk) = (o, c', spawned) → (∀ w, o ≠ Panic w) →
  is_dummy (signed_inner (resp_block resp)) = false → RequestVoteTask r i pk true ∈ spawned.
Proof.
  cbn. intros Hh Ho Hd. rewrite Hd in Hh.
  destruct (process_vote_response c i resp) as [[[]|err|w] c1]; injection Hh as <- _ <-; [by left..|].
  by destruct (Ho w).
Qed.
End Requests.

(** A peer is asked until it votes for the dummy block.  While a node runs a
    round, every other step of the node keeps a peer that is being asked for its
    vote being asked, except the handling of a dummy vote that the peer sent: an
    answer with another vote, accepted or not, is followed by a new request; so
    the loop of the round has nothing left to wait for only when every peer it
    asked has answered with a dummy vote. *)
Theorem peers_asked_until_dummy `{Crypto} `{Bincode} `{CItemsCodec} (W : World) (n n' : Node)
    (rel : list (PeerPubkey * BlockHeader.t)) (run run' : RoundRun) (i : PeerIdx) :
  nstep W n rel n' → round_run n = Some run → round_run n' = Some run' → asked run i →
  (∀ j e w, run_consensus_round_loop j n run ≠ LoopHandled e (Panic w) n') →
  asked run' i ∨ answered_dummy n run i n'.
Proof.
  intros Hs Hr Hr' Hask Hpanic.
  destruct Hs as [n' Hnone Hstart|run0 j t force input e Hr0 Ht He|run0 j t force input t' Hr0 Ht He
    |run0 j e o n' Hr0 Hloop Hadm| |pk resp Hin| | | ]; simplify_eq/=; try by left.
  - left. destruct Hask as [(r & pk & od & Hin)|(resp & r & pk & Hin)].
    + destruct (decide (t = RequestVoteTask r i pk od)) as [->|Hne].
      * apply request_event in He as [resp ->]. right. exists resp, r, pk. cbn. apply elem_of_app. right. by left.
      * left. exists r, pk, od. cbn. by eapply elem_of_delete_ne.
    + right. exists resp, r, pk. cbn. apply elem_of_app. by left.
  - left. destruct Hask as [(r & pk & od & Hin)|(resp & r & pk & Hin)].
    + left. exists r, pk, od. cbn. apply list_elem_of_lookup in Hin as [k Hk].
      apply list_elem_of_lookup. exists k. rewrite list_lookup_insert_ne; [done|].
      intros ->. rewrite Ht in Hk. injection Hk as ->. by destruct input.
    + right. by exists resp, r, pk.
  - pose proof (loop_handled _ _ _ _ _ _ Hloop) as (Hj & spawned & Hh & ->). cbn in Hr'. injection Hr' as <-.
    destruct Hask as [(r & pk & od & Hin)|(resp & r & pk & Hin)].
    { left. left. exists r, pk, od. cbn. apply elem_of_app. by left. }
    destruct (decide (e = EvVote i resp r pk)) as [->|Hne].
    2: { left. right. exists resp, r, pk. cbn. by eapply elem_of_delete_ne. }
    destruct (is_dummy (signed_inner (resp_block resp))) eqn:Hd.
    { right. by exists resp, r, pk. }
    left. left. exists r, pk, true. cbn. apply elem_of_app. right.
    eapply handled_spawns; [exact Hh| |exact Hd]. intros w ->. by apply (Hpanic j (EvVote i resp r pk) w).
  - left. assert (round_run (peer_finality_vote_query n pk resp).2 = round_run n) as Heq.
    { unfold peer_finality_vote_query. by repeat case_match. }
    rewrite Heq in Hr'. by simplify_eq.
Qed.

Section Witnesses.
Local Existing Instance Toy.bincode.
Local Existing Instance Toy.crypto.
Local Existing Instance ToyNet.codec.
Import ToyNet.

(** Peer 0 does not lead round 0. *)
Lemma round_tasks_spec_witness :
  match spawn_round_tasks (node 0) 0 toy_params with
  | Ok tasks => VoteProposalTask 0 0 ∈ tasks ∧ RequestVoteTask 0 2 3 false ∈ tasks
  | _ => False
  end.
Proof.
  destruct (round_tasks_spec (node 0) 0 toy_params params_ok)
    as (our & leader & dummy & tasks & Hour & Hl & _ & -> & Ht).
  vm_compute in Hour, Hl. injection Hour as <-. injection Hl as <-. rewrite !Ht.
  assert (∀ i, cons_votes_block (db (node_consensus (node 0))) !! (0%N, i) = None) as Hb.
  { assert (cons_votes_block (db (node_consensus (node 0))) = ∅) as -> by (vm_compute; reflexivity).
    intros i. apply lookup_empty. }
  assert (∀ i, cons_votes_dummy (db (node_consensus (node 0))) !! (0%N, i) = None) as Hd.
  { assert (cons_votes_dummy (db (node_consensus (node 0))) = ∅) as -> by (vm_compute; reflexivity).
    intros i. apply lookup_empty. }
  unfold spawned. rewrite !Hb, !Hd. split; split_and!; try done; by intros [? ?].
Defined.

(** Peer 0 asks peer 2, gets its vote, and asks it again. *)
Definition before_vote : World := default start (exec_all start (take 6 script)).
Definition after_vote : World := default start (exec before_vote (CmdHandle 0 0)).
Definition run_of (W : World) : RoundRun :=
  default (MkRoundRun 0 toy_params [] []) (nodes W !! 0%N ≫= round_run).

Lemma peers_asked_until_dummy_witness : asked (run_of after_vote) 2.
Proof.
  assert (exec before_vote (CmdHandle 0 0) = Some after_vote) as He by (vm_compute; reflexivity).
  destruct (exec_handle _ _ _ _ He) as (n & n' & rel & Hn & Hn' & Hstep).
  assert (nodes before_vote !! 0%N ≫= round_run = Some (run_of before_vote)) as Hr by (vm_compute; reflexivity).
  assert (nodes after_vote !! 0%N ≫= round_run = Some (run_of after_vote)) as Hr' by (vm_compute; reflexivity).
  rewrite Hn in Hr. rewrite Hn' in Hr'. cbn [mbind option_bind] in Hr, Hr'.
  assert (∃ resp r pk, run_events (run_of before_vote) = [EvVote 2 resp r pk] ∧
    is_dummy (signed_inner (resp_block resp)) = false ∧
    match run_consensus_round_loop 0 (default (node 0) (nodes before_vote !! 0%N)) (run_of before_vote) with
    | LoopHandled _ (Ok _) _ => true | _ => false end = true) as (resp & r & pk & Hev & Hd & Hloop).
  { do 3 eexists. split; [vm_compute; reflexivity|]. split; vm_compute; reflexivity. }
  rewrite Hn in Hloop. cbn [default] in Hloop.
  destruct (peers_asked_until_dummy before_vote n n' rel (run_of before_vote) (run_of after_vote) 2 Hstep Hr Hr')
    as [Ha|(resp' & r' & pk' & Hin & Hdum & _)].
  - right. exists resp, r, pk. rewrite Hev. by left.
  - intros j e' w Hl. pose proof (loop_handled _ _ _ _ _ _ Hl) as (Hj & _). rewrite Hev in Hj.
    destruct j as [|j]; [|done]. unfold id in Hloop. by rewrite Hl in Hloop.
  - exact Ha.
  - rewrite Hev in Hin. apply list_elem_of_singleton in Hin. congruence.
Defined.
End Witnesses.
