(* ===== verification/ConsOps.v ===== *)
(** * The interface of the consensus database, and the getters of [Consensus]
      ([consensus/ctx.rs], [consensus/getters.rs])

    The traits [ConsensusReadDbOps] and [ConsensusWriteDbOps] are type classes;
    a read transaction and a write transaction implement the first, a write
    transaction the second.  A function that is written against the first trait
    ([Query]) reads the same in both.  The getters of [Consensus] are read
    transactions of one operation. *)
From S2P Require Import Prelude VoteSet Peers Core Db ConsDb ConsInv Consensus ConsRound ConsSteps ConsSpec ConsVotes ConsProps ConsServe Module Ctrl NodeApp Node Network NetInv NetRun NodeTasks.

(** ** The traits *)
Class ConsensusReadDbOps (M : Type → Type) := {
  op_get_finalized_round : M BlockRound;
  op_get_current_round : M BlockRound;
  op_get_consensus_params : BlockRound → M ConsensusParams.t;
  op_has_pending_consensus_params_change : BlockRound → M bool;
  op_get_consensus_params_opt : BlockRound → M (option ConsensusParams.t);
  op_get_finality_consensus : M (option BlockRound);
  op_get_vote_dummy : BlockRound → PeerIdx → M (option Signature);
  op_get_vote_block : BlockRound → PeerIdx → M (option SignedVote);
  op_get_block_payload : N → M (option Payload);
  op_get_finality_vote : PeerPubkey → M (option BlockRound);
  op_get_peers_with_proposal_votes : BlockRound → M VoteSet.VoteSet;
  op_get_peers_with_dummy_votes : BlockRound → M VoteSet.VoteSet;
  op_get_proposal : BlockRound → M (option BlockHeader.t);
  op_has_notarized_non_dummy_block : BlockRound → M bool;
  op_get_num_votes_dummy : BlockRound → M N;
  op_get_num_votes_proposal : BlockRound → M N;
  op_get_votes_dummy : BlockRound → M (list (PeerIdx * Signature));
  op_get_votes_proposal : BlockRound → M (list (PeerIdx * Signature));
  op_get_prev_notarized_block : BlockRound → M (option BlockHeader.t);
  op_get_next_notarized_block : BlockRound → M (option BlockHeader.t);
  op_get_notarized_block : BlockRound → M (option BlockHeader.t);
  op_get_pinned_block : BlockRound → M (option BlockHash);
}.

Class ConsensusWriteDbOps (M : Type → Type) := {
  op_insert_consensus_params : BlockRound → ConsensusParams.t → M (InsertOutcome N);
  op_insert_block_proposal : BlockRound → BlockHeader.t → Payload → M (InsertOutcome BlockHeader.t);
  op_insert_notarized_block : BlockRound → BlockHeader.t → option Payload → M (InsertOutcome BlockHeader.t);
  op_insert_pinned_block : BlockRound → BlockHash → M (InsertOutcome BlockHash);
  op_update_finality_vote : PeerPubkey → BlockRound → M (option BlockRound);
  op_update_finality_consensus : BlockRound → M (option BlockRound);
  op_prune_dummy_votes : BlockRound → M unit;
  op_delete_notarized_block : BlockRound → M unit;
  op_insert_dummy_vote : BlockRound → PeerIdx → Signature → M (InsertOutcome Signature);
  op_insert_block_vote : BlockRound → PeerIdx → SignedVote → M (InsertOutcome SignedVote);
  op_set_current_round : BlockRound → M unit;
}.

(** [get_finalized_round] is not written: [todo!()]. *)
Definition get_finalized_round {E} : Rd ConsDb E BlockRound := λ _, Panic "not yet implemented".

Global Instance read_transaction {E} : ConsensusReadDbOps (Rd ConsDb E) := {
  op_get_finalized_round := get_finalized_round;
  op_get_current_round := get_current_round;
  op_get_consensus_params := get_consensus_params;
  op_has_pending_consensus_params_change := has_pending_consensus_params_change;
  op_get_consensus_params_opt := get_consensus_params_opt;
  op_get_finality_consensus := get_finality_consensus;
  op_get_vote_dummy := get_vote_dummy;
  op_get_vote_block := get_vote_block;
  op_get_block_payload := get_block_payload;
  op_get_finality_vote := get_finality_vote;
  op_get_peers_with_proposal_votes := get_peers_with_proposal_votes;
  op_get_peers_with_dummy_votes := get_peers_with_dummy_votes;
  op_get_proposal := get_proposal;
  op_has_notarized_non_dummy_block := has_notarized_non_dummy_block;
  op_get_num_votes_dummy := get_num_votes_dummy;
  op_get_num_votes_proposal := get_num_votes_proposal;
  op_get_votes_dummy := get_votes_dummy;
  op_get_votes_proposal := get_votes_proposal;
  op_get_prev_notarized_block := get_prev_notarized_block;
  op_get_next_notarized_block := get_next_notarized_block;
  op_get_notarized_block := get_notarized_block;
  op_get_pinned_block := get_pinned_block;
}.

Section Write.
Context {Hk E : Type}.
Abbreviation rd := (tx_read (D:=ConsDb) (H:=Hk) (E:=E)).

(** The same macro implements the trait for the write transaction: its tables
    are those of the working copy. *)
Global Instance write_transaction_ctx : ConsensusReadDbOps (Tx ConsDb Hk E) := {
  op_get_finalized_round := rd op_get_finalized_round;
  op_get_current_round := rd op_get_current_round;
  op_get_consensus_params r := rd (op_get_consensus_params r);
  op_has_pending_consensus_params_change r := rd (op_has_pending_consensus_params_change r);
  op_get_consensus_params_opt r := rd (op_get_consensus_params_opt r);
  op_get_finality_consensus := rd op_get_finality_consensus;
  op_get_vote_dummy r i := rd (op_get_vote_dummy r i);
  op_get_vote_block r i := rd (op_get_vote_block r i);
  op_get_block_payload h := rd (op_get_block_payload h);
  op_get_finality_vote pk := rd (op_get_finality_vote pk);
  op_get_peers_with_proposal_votes r := rd (op_get_peers_with_proposal_votes r);
  op_get_peers_with_dummy_votes r := rd (op_get_peers_with_dummy_votes r);
  op_get_proposal r := rd (op_get_proposal r);
  op_has_notarized_non_dummy_block r := rd (op_has_notarized_non_dummy_block r);
  op_get_num_votes_dummy r := rd (op_get_num_votes_dummy r);
  op_get_num_votes_proposal r := rd (op_get_num_votes_proposal r);
  op_get_votes_dummy r := rd (op_get_votes_dummy r);
  op_get_votes_proposal r := rd (op_get_votes_proposal r);
  op_get_prev_notarized_block r := rd (op_get_prev_notarized_block r);
  op_get_next_notarized_block r := rd (op_get_next_notarized_block r);
  op_get_notarized_block r := rd (op_get_notarized_block r);
  op_get_pinned_block r := rd (op_get_pinned_block r);
}.

Context `{Crypto} `{Bincode}.
Global Instance write_ops : ConsensusWriteDbOps (Tx ConsDb Hk E) := {
  op_insert_consensus_params := insert_consensus_params;
  op_insert_block_proposal := insert_block_proposal;
  op_insert_notarized_block := insert_notarized_block;
  op_insert_pinned_block := insert_pinned_block;
  op_update_finality_vote := update_finality_vote;
  op_update_finality_consensus := update_finality_consensus;
  op_prune_dummy_votes := prune_dummy_votes;
  op_delete_notarized_block := delete_notarized_block;
  op_insert_dummy_vote := insert_dummy_vote;
  op_insert_block_vote := insert_block_vote;
  op_set_current_round := set_current_round;
}.
End Write.

(** ** The getters *)
Module Getters.
Implicit Types (self : Consensus) (round : BlockRound).

Definition get_current_round self : outcome Empty_set BlockRound := read_tx self op_get_current_round.
Definition get_prev_notarized_block self round : outcome Empty_set (option BlockHeader.t) :=
  read_tx self (op_get_prev_notarized_block round).
Definition get_next_notarized_block self round : outcome Empty_set (option BlockHeader.t) :=
  read_tx self (op_get_next_notarized_block round).
Definition get_block_payload self (payload_hash : N) : outcome Empty_set (option Payload) :=
  read_tx self (op_get_block_payload payload_hash).
Definition get_proposal self round : outcome Empty_set (option BlockHeader.t) :=
  read_tx self (op_get_proposal round).
Definition get_finality_consensus self : outcome Empty_set (option BlockRound) :=
  read_tx self op_get_finality_consensus.
Definition get_finality_vote self (peer_pubkey : PeerPubkey) : outcome Empty_set (option BlockRound) :=
  read_tx self (op_get_finality_vote peer_pubkey).
Definition get_consensus_params self round : outcome Empty_set ConsensusParams.t :=
  read_tx self (op_get_consensus_params round).
Definition has_pending_consensus_params_change self round : outcome Empty_set bool :=
  read_tx self (op_has_pending_consensus_params_change round).
Definition get_peers_with_dummy_votes self round : outcome Empty_set VoteSet.VoteSet :=
  read_tx self (op_get_peers_with_dummy_votes round).
Definition get_peers_with_proposal_votes self round : outcome Empty_set VoteSet.VoteSet :=
  read_tx self (op_get_peers_with_proposal_votes round).
End Getters.

(** ** What a transaction reads of its own writes *)
Section OwnWrites.
Context `{Crypto} `{Bincode} {Hk E : Type}.
Abbreviation CT := (Tx ConsDb Hk E).
Implicit Types (s : TxState ConsDb Hk).

(** What the read [q] gives after the write [w], if that succeeds. *)
Definition then_reads {A B} s (w : CT A) (q : CT B) (P : A → B → Prop) : Prop :=
  match w s with
  | Ok (a, s') => match q s' with Ok (b, s2) => P a b ∧ s2 = s' | _ => False end
  | _ => True
  end.

Lemma wp_then_reads {A B} s (w : CT A) (q : Rd ConsDb E B) (P : A → B → Prop) :
  wp false w (λ a s', ∃ b, q (tx_db s') = Ok b ∧ P a b) s → then_reads s w (tx_read q) P.
Proof.
  intros Hw. unfold then_reads. destruct (w s) as [[a s']|e|m] eqn:Hs; [|done..].
  pose proof (wp_elim _ _ _ _ _ _ Hw Hs) as Hq. cbv beta in Hq. destruct Hq as (b & Hb & HP). unfold tx_read. by rewrite Hb.
Qed.

(** A write transaction reads what it wrote: a vote, a pin, a finality vote or
    the round is replaced, whatever the outcome says; a proposal and a notarized
    block are kept when there is one, and it is what the outcome holds; new
    parameters are those of the round they are inserted for. *)
Theorem own_writes_read s (r : BlockRound) (i : PeerIdx) :
  then_reads s (op_set_current_round r) op_get_current_round (λ _, eq r) ∧
  (∀ pk, then_reads s (op_update_finality_vote pk r) (op_get_finality_vote pk) (λ _, eq (Some r))) ∧
  then_reads s (op_update_finality_consensus r) op_get_finality_consensus (λ _, eq (Some r)) ∧
  (∀ v, then_reads s (op_insert_dummy_vote r i v) (op_get_vote_dummy r i) (λ _, eq (Some v))) ∧
  (∀ v, then_reads s (op_insert_block_vote r i v) (op_get_vote_block r i) (λ _, eq (Some v))) ∧
  (∀ h, then_reads s (op_insert_pinned_block r h) (op_get_pinned_block r) (λ _, eq (Some h))) ∧
  then_reads s (op_delete_notarized_block r) (op_get_notarized_block r) (λ _, eq None) ∧
  (∀ b payload, then_reads s (op_insert_notarized_block r b payload) (op_get_notarized_block r)
     (λ o, eq (Some match o with Inserted => b | AlreadyPresent e => e end))) ∧
  (∀ b payload, then_reads s (op_insert_block_proposal r b payload) (op_get_block_payload (BlockHeader.payload_hash b))
     (λ o x, o = Inserted → x = Some payload)) ∧
  (∀ p s', (op_insert_consensus_params r p : CT _) s = Ok (Inserted, s') → (op_get_consensus_params r : CT _) s' = Ok (p, s')).
Proof.
  split_and!.
  1-7: intros; apply wp_then_reads; cbn; unfold update_finality_vote, update_finality_consensus, insert_dummy_vote,
      insert_block_vote, insert_pinned_block, delete_notarized_block, set_current_round; repeat wp_step;
    eexists; (split; [reflexivity|]); cbn; by rewrite ?lookup_insert_eq, ?lookup_delete_eq.
  - intros b payload. apply wp_then_reads. cbn. unfold insert_notarized_block.
    repeat first [wp_step|apply wp_lift; [intros ? _|done]].
    destruct (cons_blocks_notarized (tx_db s) !! r) as [e|] eqn:He; repeat wp_step.
    + exists (Some e). split; [|done]. unfold get_notarized_block, rd_get. by rewrite He.
    + destruct payload as [payload|]; repeat wp_step; eexists; (split; [reflexivity|]); cbn; by rewrite lookup_insert_eq.
  - intros b payload. apply wp_then_reads. cbn. unfold insert_block_proposal.
    repeat first [wp_step|apply wp_lift; [intros ? _|done]].
    destruct (cons_blocks_proposals (tx_db s) !! r) as [e|] eqn:He; repeat wp_step; eexists; (split; [reflexivity|]);
      [done|]. cbn. intros _. by rewrite lookup_insert_eq.
  - intros p s'. cbn. unfold insert_consensus_params, mbind, tx_bind, tx_modify, tx_read, rd_get, mret, tx_ret. cbn.
    destruct (cons_params_schedule (tx_db s) !! r) as [e|] eqn:He; [done|]. intros [= <-]. cbn.
    assert (range_last (rg_to_incl r) (<[r:=params_hash p]> (cons_params_schedule (tx_db s))) = Some (r, params_hash p)) as Hl.
    { apply range_last_Some. split_and!; [apply lookup_insert_eq|by apply rg_to_incl_N|]. intros k v _ Hle%rg_to_incl_N. exact Hle. }
    unfold get_consensus_params, get_consensus_params_opt, mbind, rd_bind, rd_get, rd_expect, mret, rd_ret. cbn.
    rewrite Hl. cbn. by rewrite lookup_insert_eq.
Qed.
End OwnWrites.

(** ** What the getters answer *)
Section Answers.
Context `{Crypto} `{Bincode}.
Implicit Types (c : Consensus) (r : BlockRound).

(** [o] is the latest block below [r], or the first from [r] on. *)
Definition latest_below (n : gmap BlockRound BlockHeader.t) r (o : option BlockHeader.t) : Prop :=
  match o with
  | Some b => n !! BlockHeader.round b = Some b ∧ (BlockHeader.round b < r)%N ∧
      ∀ q, is_Some (n !! q) → (q < r)%N → (q ≤ BlockHeader.round b)%N
  | None => ∀ q, is_Some (n !! q) → (r ≤ q)%N
  end.
Definition first_from (n : gmap BlockRound BlockHeader.t) r (o : option BlockHeader.t) : Prop :=
  match o with
  | Some b => n !! BlockHeader.round b = Some b ∧ (r ≤ BlockHeader.round b)%N ∧
      ∀ q, is_Some (n !! q) → (r ≤ q)%N → (BlockHeader.round b ≤ q)%N
  | None => ∀ q, is_Some (n !! q) → (q < r)%N
  end.
(** [vs] is the set of the peers with an entry of round [r]. *)
Definition voters_of {V} (votes : gmap (BlockRound * PeerIdx) V) r (vs : VoteSet.VoteSet) : Prop :=
  ∀ i, (i < 256)%N → VoteSet.contains vs i = true ↔ is_Some (votes !! (r, i)).

(** [p] are the parameters that are in force in round [r]: those of the latest
    entry of the schedule up to [r]. *)
Definition in_force (d : ConsDb) r (p : ConsensusParams.t) : Prop :=
  ∃ q h, cons_params_schedule d !! q = Some h ∧ (q ≤ r)%N ∧
    (∀ q', is_Some (cons_params_schedule d !! q') → (q' ≤ r)%N → (q' ≤ q)%N) ∧
    cons_params d !! h = Some p ∧ h = params_hash p.

Lemma first_from_range c r :
  Rest (db c) → first_from (cons_blocks_notarized (db c)) r (snd <$> range_first (rg_from r) (cons_blocks_notarized (db c))).
Proof.
  intros Hrest. destruct (range_first _ _) as [[q b]|] eqn:Hf; cbn.
  - apply range_first_Some in Hf as (Hb & Hfrom%rg_from_N & Hmin).
    destruct (inv_notarized _ (rest_inv _ Hrest) q b Hb) as [[Hr _] _]. rewrite Hr. split_and!; [done|done|].
    intros q' [b' Hb'] Hle%rg_from_N. specialize (Hmin q' b' Hb' Hle). unfold key_le in Hmin. cbn in Hmin. lia.
  - rewrite range_first_None in Hf. intros q [b Hb]. specialize (Hf q b Hb).
    apply N.lt_nge. intros Hle%rg_from_N. congruence.
Qed.
Lemma latest_below_range c r : Rest (db c) → latest_below (cons_blocks_notarized (db c)) r (prev_notarized r (db c)).
Proof.
  intros Hrest. destruct (prev_notarized r (db c)) as [b|] eqn:Hb; cbn.
  - apply prev_notarized_Some in Hb as (Hb & Hlt & Hmax); [|by apply rest_inv]. split_and!; [done|done|].
    intros q [b' Hb']. exact (Hmax q b' Hb').
  - rewrite prev_notarized_None in Hb. intros q [b Hq]. exact (Hb q b Hq).
Qed.

Lemma proposal_answer c r : Rest (db c) → Getters.get_proposal c r = Ok (cons_blocks_proposals (db c) !! r).
Proof.
  intros Hrest. apply read_with_expect_Ok. cbn. unfold get_proposal, mbind, rd_bind, rd_get.
  destruct (cons_blocks_proposals (db c) !! r) as [b|] eqn:Hb; [|done].
  destruct (inv_proposals _ (rest_inv _ Hrest) r b Hb) as [Hr _]. unfold rd_lift, rassert.
  by rewrite (proj2 (N.eqb_eq _ _) Hr).
Qed.
Lemma payload_answer c r b :
  Rest (db c) → cons_blocks_proposals (db c) !! r = Some b ∨ cons_blocks_notarized (db c) !! r = Some b →
  ∃ payload, Getters.get_block_payload c (BlockHeader.payload_hash b) = Ok (Some payload) ∧
    blake3 payload = BlockHeader.payload_hash b.
Proof.
  intros Hrest Hb. assert (block_ok (db c) r b) as (_ & _ & _ & _ & [payload Hpl] & _).
  { destruct Hb as [Hb|Hb]; [by apply (inv_proposals _ (rest_inv _ Hrest))|].
    by apply (inv_notarized _ (rest_inv _ Hrest) r b Hb). }
  exists payload. split; [|by apply (inv_payloads _ (rest_inv _ Hrest))].
  apply read_with_expect_Ok. cbn. unfold get_block_payload, rd_get. by rewrite Hpl.
Qed.
Lemma params_answer c r :
  Rest (db c) → ∃ p, Getters.get_consensus_params c r = Ok p ∧ in_force (db c) r p ∧ params_wf p.
Proof.
  intros Hrest. destruct (params_at_wf (db c) r (rest_inv _ Hrest)) as (p & Hp & Hwf). exists p.
  split; [by apply read_with_expect_Ok, get_consensus_params_Ok|]. split; [|done].
  unfold params_at in Hp. destruct (range_last _ _) as [[q h]|] eqn:Hl; [|done].
  apply range_last_Some in Hl as (Hq & Hle%rg_to_incl_N & Hmax). exists q, h. split_and!; [done|done| |done|].
  - intros q' [h' Hq'] Hle'%rg_to_incl_N. specialize (Hmax q' h' Hq' Hle'). unfold key_le in Hmax. cbn in Hmax. lia.
  - destruct (inv_params _ (rest_inv _ Hrest) q h Hq) as (p' & Hp' & Hh & _). rewrite Hp in Hp'. by injection Hp' as <-.
Qed.
Lemma pending_answer c r :
  match Getters.has_pending_consensus_params_change c r with
  | Ok pending => pending = true ↔ ∃ q, (r < q)%N ∧ is_Some (cons_params_schedule (db c) !! q)
  | Err e => match e with end
  | Panic _ => (u64_max ≤ r)%N
  end.
Proof.
  unfold Getters.has_pending_consensus_params_change, read_tx, read_with_expect, read_with_inner_falliable. cbn.
  unfold has_pending_consensus_params_change, mbind, rd_bind, rd_lift, round_next_expect, expect.
  destruct (round_next r) as [next|] eqn:Hn; cbn.
  - apply checked_add_Some in Hn as [-> _].
    destruct (range_first _ _) as [[q h]|] eqn:Hf; (split; [|done || idtac]).
    + intros _. apply range_first_Some in Hf as (Hq & Hle%rg_from_N & _). exists q. split; [lia|eauto].
    + done.
    + intros (q & Hlt & [h Hq]). rewrite range_first_None in Hf. specialize (Hf q h Hq).
      assert (rg_from (r + 1)%N q = true) by (apply rg_from_N; lia). congruence.
  - unfold round_next, checked_add in Hn. case_decide; [done|lia].
Qed.

(** C10: The getters answer.  In every state that a node can get to, each getter
    returns what its name says: the current round is the one on the channel; the
    latest notarized block below a round and the first one from a round on; the
    proposal and the payload that are stored, and a payload with the right hash for
    every proposal and every notarized block; the parameters of any round, those of
    the latest entry of the schedule up to the round, well-formed; the sets of
    peers whose votes and dummy votes for a round are stored; and whether a change
    of the parameters is scheduled after a round.  None of them panics, but for the
    last one, which panics for the last of the 2^64 rounds and for no other. *)
Theorem getters_answer c :
  reachable c →
  Getters.get_current_round c = Ok (current_round_with_timeout (watches c)).1 ∧
  Getters.get_finality_consensus c = Ok (cons_finality_consensus (db c)) ∧
  (∀ pk, Getters.get_finality_vote c pk = Ok (cons_finality_votes (db c) !! pk)) ∧
  (∀ h, Getters.get_block_payload c h = Ok (cons_blocks_payloads (db c) !! h)) ∧
  ∀ r,
  (∃ o, Getters.get_prev_notarized_block c r = Ok o ∧ latest_below (cons_blocks_notarized (db c)) r o) ∧
  (∃ o, Getters.get_next_notarized_block c r = Ok o ∧ first_from (cons_blocks_notarized (db c)) r o) ∧
  Getters.get_proposal c r = Ok (cons_blocks_proposals (db c) !! r) ∧
  (∀ b, cons_blocks_proposals (db c) !! r = Some b ∨ cons_blocks_notarized (db c) !! r = Some b →
     ∃ payload, Getters.get_block_payload c (BlockHeader.payload_hash b) = Ok (Some payload) ∧
       blake3 payload = BlockHeader.payload_hash b) ∧
  (∃ p, Getters.get_consensus_params c r = Ok p ∧ in_force (db c) r p ∧ params_wf p) ∧
  (∃ vs, Getters.get_peers_with_proposal_votes c r = Ok vs ∧ voters_of (cons_votes_block (db c)) r vs) ∧
  (∃ vs, Getters.get_peers_with_dummy_votes c r = Ok vs ∧ voters_of (cons_votes_dummy (db c)) r vs) ∧
  match Getters.has_pending_consensus_params_change c r with
  | Ok pending => pending = true ↔ ∃ q, (r < q)%N ∧ is_Some (cons_params_schedule (db c) !! q)
  | Err e => match e with end
  | Panic _ => (u64_max ≤ r)%N
  end.
Proof.
  intros [Hrest Hw]%reachable_wf. rewrite Hw. do 4 (split; [done|]). intros r. split_and!.
  - exists (prev_notarized r (db c)). split; [done|by apply latest_below_range].
  - eexists. split; [done|by apply first_from_range].
  - by apply proposal_answer.
  - intros b. by apply payload_answer.
  - by apply params_answer.
  - eexists. split; [done|]. intros i. by apply contains_round_votes.
  - eexists. split; [done|]. intros i. by apply contains_round_votes.
  - apply pending_answer.
Qed.
End Answers.

Section Witnesses.
Local Existing Instance Toy.bincode.
Local Existing Instance Toy.crypto.

(** The node of [ConsServe] that holds the block of round 0. *)
Lemma getters_answer_witness :
  Getters.get_prev_notarized_block node1 0 = Ok None ∧
  ∃ b, Getters.get_next_notarized_block node1 0 = Ok (Some b) ∧
    first_from (cons_blocks_notarized (db node1)) 0 (Some b).
Proof.
  split; [vm_compute; reflexivity|].
  destruct (getters_answer node1 reachable_node1) as (_ & _ & _ & _ & Hr). destruct (Hr 0%N) as (_ & (o & Ho & Hf) & _).
  destruct o as [b|]; [exists b; split; [exact Ho|exact Hf]|].
  assert (∃ b, Getters.get_next_notarized_block node1 0 = Ok (Some b)) as [b Hb] by (eexists; vm_compute; reflexivity).
  rewrite Hb in Ho. discriminate Ho.
Defined.
End Witnesses.
