(* ===== verification/AppApi.v ===== *)
(** * The delivery of final blocks to the application ([node/src/app_api.rs])

    [ack_and_wait_next_block] acknowledges a round, waits until both the finality
    consensus and our own finality vote are past it, looks up the next notarized
    block, and starts again from the round of that block when it is not final
    yet.  Every step reads the consensus anew, which may have changed since the
    step before: the function is a machine whose stages hold what it read so far. *)
From S2P Require Import Prelude VoteSet Peers Core Db ConsDb ConsInv Consensus ConsRound ConsSteps ConsSpec ConsVotes ConsProps ConsServe Module Ctrl NodeApp Node Network NetRun.

(** The stages of [ack_and_wait_next_block], by the [await] they are at. *)
Inductive AppStage :=
  (** the head of the loop: [req_round] is acknowledged, and the finality
      consensus has to pass it *)
  | AwaitFinality (req_round : BlockRound)
  (** our own finality vote has to pass it *)
  | AwaitSelfVote (req_round cur_finality_consensus : BlockRound)
  (** [get_next_notarized_block(req_round)] *)
  | NextNotarized (req_round cur_finality_consensus cur_finality_self_vote : BlockRound)
  (** [get_block_payload(block.payload_hash)] *)
  | FetchPayload (block : BlockHeader.t)
  (** [get_consensus_params(block.round)], the leader and the items *)
  | FetchParams (block : BlockHeader.t) (payload : Payload)
  | Delivered (block : BlockHeader.t) (leader : PeerPubkey) (citems : list CItem).

Section AppApi.
Context `{Crypto} `{Bincode} `{CItemsCodec}.
Implicit Types (c : Consensus) (st : AppStage).

(** One step, on the consensus as it is now; [None] while it waits. *)
Definition app_step c st : outcome Empty_set (option AppStage) :=
  match st with
  | AwaitFinality req_round =>
      let finality := finality_consensus (watches c) in
      Ok (if (req_round <? finality)%N then Some (AwaitSelfVote req_round finality) else None)
  | AwaitSelfVote req_round cur_finality_consensus =>
      let finality := finality_self_vote (watches c) in
      Ok (if (req_round <? finality)%N then Some (NextNotarized req_round cur_finality_consensus finality) else None)
  | NextNotarized req_round cur_finality_consensus cur_finality_self_vote =>
      b ← read_tx c (get_next_notarized_block req_round);
      block ← expect "Must have a notarized block since own finality is past this height" b;
      Ok (Some
        (if (BlockHeader.round block <? cur_finality_consensus)%N &&
            (BlockHeader.round block <? cur_finality_self_vote)%N
         then FetchPayload block
         else AwaitFinality (BlockHeader.round block)))
  | FetchPayload block =>
      p ← read_tx c (get_block_payload (BlockHeader.payload_hash block));
      payload ← expect "Must have notarized block payload" p;
      Ok (Some (FetchParams block payload))
  | FetchParams block payload =>
      params ← get_round_params c (BlockHeader.round block);
      leader_idx ← leader_idx params (BlockHeader.round block);
      peer_pubkey ← expect "Must exist" (ConsensusParams.peers params !! N.to_nat leader_idx);
      citems ← match decode_citems payload with
               | Ok citems => Ok citems
               | Err _ | Panic _ => Panic "Can't fail"
               end;
      Ok (Some (Delivered block peer_pubkey citems))
  | Delivered _ _ _ => Ok None
  end.

(** The round in [node_app_ack_tx] after a step. *)
Definition app_ack st (ack : BlockRound) : BlockRound :=
  match st with
  | AwaitFinality req_round => req_round
  | _ => ack
  end.

(** ** Running against a consensus that changes *)
Inductive arun : Consensus * AppStage → Consensus * AppStage → Prop :=
  | ARefl x : arun x x
  | AConsensus x c c' st : arun x (c, st) → cstep c c' → arun x (c', st)
  | AStep x c st st' : arun x (c, st) → app_step c st = Ok (Some st') → arun x (c, st').

(** ** The own finality vote has a notarized block *)

(** A block is notarized in a round from [f - 1] on. *)
Definition reaches (f : BlockRound) (d : ConsDb) : Prop :=
  f = 0%N ∨ ∃ r, is_Some (cons_blocks_notarized d !! r) ∧ (f ≤ r + 1)%N.
Definition self_vote_ok c : Prop := reaches (finality_self_vote (watches c)) (db c).

Definition is_self_vote (h : Hook) : bool := match h with FinalitySelfVoteHook _ => true | _ => false end.
Definition not_self_vote (h : Hook) : Prop := is_self_vote h = false.
(** The hooks announce only votes that the database has a block for. *)
Definition hook_reaches (d : ConsDb) (h : Hook) : Prop :=
  match h with FinalitySelfVoteHook f => reaches f d | _ => True end.

Lemma reaches_insert f r b d :
  reaches f d → reaches f (set_cons_blocks_notarized (<[r := b]> (cons_blocks_notarized d)) d).
Proof.
  intros [->|(r' & Hr & Hf)]; [by left|]. right. exists r'. split; [|done]. cbn.
  apply lookup_insert_is_Some. destruct (decide (r = r')); auto.
Qed.

Lemma reaches_table f d d' : cons_blocks_notarized d' = cons_blocks_notarized d → reaches f d → reaches f d'.
Proof. intros Heq. unfold reaches. by rewrite Heq. Qed.

Lemma round_next_expect_Some {E} r f : round_next_expect (E:=E) r = Ok f → f = (r + 1)%N.
Proof.
  unfold round_next_expect, round_next, expect.
  destruct (checked_add u64_max r 1) as [f'|] eqn:Hc; [|done]. intros [= <-].
  by apply checked_add_Some in Hc as [-> _].
Qed.

Lemma hooks_reach d hs : Forall not_self_vote hs → Forall (hook_reaches d) hs.
Proof. intros Hs. eapply Forall_impl; [exact Hs|]. by intros []. Qed.

Lemma foldl_self_vote d w hs :
  reaches (finality_self_vote w) d → Forall (hook_reaches d) hs →
  reaches (finality_self_vote (foldl run_hook w hs)) d.
Proof.
  intros Hw Hs. revert w Hw. induction Hs as [|h hs Hh Hs IH]; intros w Hw; [done|]. cbn. apply IH.
  destruct h; cbn in *; try done. by case_bool_decide.
Qed.

Lemma reaches_le f g d : (f ≤ g)%N → reaches g d → reaches f d.
Proof. intros Hle [->|(r & Hr & Hg)]; [left; lia|]. right. exists r. split; [done|lia]. Qed.

(** Transactions that announce no own vote. *)
Lemma adds_finality {E} (R : Hook → Prop) k pk v :
  (∀ h, not_self_vote h → R h) → adds R (update_peer_finality_vote_round (E:=E) k pk v).
Proof.
  intros HR. unfold update_peer_finality_vote_round, update_finality_vote, recalculate_finality_consensus_tx,
    update_finality_consensus, prune_dummy_votes. repeat adds_step; by apply HR.
Qed.

Lemma adds_loop fuel start h k last : adds not_self_vote (check_round_end_loop fuel start h k last).
Proof.
  revert k last. induction fuel as [|fuel IH]; intros k last; cbn [check_round_end_loop]; [by repeat adds_step|].
  unfold check_pinned, check_dummy_votes, insert_notarized_block. repeat first [apply IH|adds_step].
Qed.

(** The last round that the loop passes with a block has a block. *)
Definition loop_reaches (last : option BlockRound) (d : ConsDb) : Prop :=
  ∀ l, last = Some l → reaches (l + 1) d.

Lemma wp_insert_reaches {E} k b payload s (Q : InsertOutcome BlockHeader.t → TxState ConsDb Hook → Prop) :
  (∀ o s', reaches (k + 1) (tx_db s') → (∀ f, reaches f (tx_db s) → reaches f (tx_db s')) → Q o s') →
  wp (E:=E) false (insert_notarized_block k b payload) Q s.
Proof.
  intros HQ. unfold insert_notarized_block.
  repeat first [wp_step|apply wp_lift; [intros ? _|done]].
  destruct (cons_blocks_notarized (tx_db s) !! k) as [b'|] eqn:Hb.
  - wp_step. apply HQ; [|done]. right. exists k. split; [by rewrite Hb|lia].
  - destruct payload; repeat wp_step; apply HQ;
      try (right; exists k; split; [cbn; rewrite lookup_insert_eq; eauto|lia]); intros f; apply reaches_insert.
Qed.

Lemma wp_loop_reaches fuel start h k last s :
  (∀ b, h = Some b → reaches (BlockHeader.round b + 1) (tx_db s)) → loop_reaches last (tx_db s) →
  wp false (check_round_end_loop fuel start h k last) (λ res s', loop_reaches res.1.2 (tx_db s')) s.
Proof.
  revert k last s. induction fuel as [|fuel IH]; intros k last s Hh Hlast; cbn [check_round_end_loop].
  { by apply wp_panic. }
  assert (∀ p needs, wp false (check_dummy_votes (check_round_end_loop fuel start h) k last p needs)
    (λ res s', loop_reaches res.1.2 (tx_db s')) s) as Hdummy.
  { intros p needs. unfold check_dummy_votes. do 2 (wp_step; apply wp_read; [intros ? _|done]).
    case_match; [|repeat first [wp_step|apply wp_read; [intros ? _|done]]; done].
    wp_step. apply wp_lift; [intros next _|done]. by apply IH. }
  cbv zeta. wp_step. apply (wp_mono _ _ (λ _ s', s' = s)).
  { unfold check_pinned. case_decide; [by wp_step|]. do 2 (wp_step; apply wp_read; [intros ? _|done]).
    case_match; [|by wp_step]. wp_step. apply wp_read; [intros ? _|done]. by case_decide; wp_step. }
  intros _ ? ->. destruct (match h with Some _ => _ | None => false end) eqn:Hle.
  - wp_step. apply wp_lift; [intros next _|done]. apply IH; [done|]. intros l [= <-].
    destruct h as [b|]; [|done]. apply N.leb_le in Hle. apply (reaches_le _ (BlockHeader.round b + 1)); [lia|].
    by apply Hh.
  - do 2 (wp_step; apply wp_read; [intros ? _|done]).
    wp_step. apply wp_read; [intros [proposal|] _|done]; [|apply Hdummy].
    wp_step. apply wp_read; [intros votes _|done]. destruct (_ <=? votes)%N; [|apply Hdummy].
    wp_step. apply wp_insert_reaches. intros o s' Hk Hmono. wp_step. apply wp_lift; [intros next _|done].
    apply IH; [|by intros l [= <-]]. intros b Hb. by apply Hmono, Hh.
Qed.

(** Notarized blocks are stored under their round. *)
Definition keyed (d : ConsDb) : Prop :=
  ∀ r b, cons_blocks_notarized d !! r = Some b → BlockHeader.round b = r.

(** The hooks of [check_round_end] for a new round and for our finality vote. *)
Lemma wp_timeout_hook_reaches d (b : bool) (h : Hook) s :
  cons_blocks_notarized (tx_db s) = cons_blocks_notarized d → not_self_vote h →
  Forall (hook_reaches d) (tx_hooks s) →
  wp (E:=RoundInvariantError) false (if b then on_commit h else mret ())
    (λ _ s', Forall (hook_reaches (tx_db s')) (tx_hooks s')) s.
Proof.
  intros Heq Hh Hs.
  assert (∀ h, hook_reaches d h → hook_reaches (tx_db s) h) as Hmono
    by (intros []; cbn; try done; by apply reaches_table).
  destruct b; wp_step; cbn; [apply Forall_app_2; [|constructor; [by destruct h|done]]|]; by eapply Forall_impl.
Qed.
Lemma wp_self_vote_hook_reaches d our (cur : N) last (m : CTx RoundInvariantError ()) s :
  (∀ s', cons_blocks_notarized (tx_db s') = cons_blocks_notarized d → Forall (hook_reaches d) (tx_hooks s') →
     wp false m (λ _ s'', Forall (hook_reaches (tx_db s'')) (tx_hooks s'')) s') →
  (∀ l, last = Some l → reaches (l + 1) d) →
  cons_blocks_notarized (tx_db s) = cons_blocks_notarized d → Forall (hook_reaches d) (tx_hooks s) →
  wp (E:=RoundInvariantError) false
    (_ ← (match last with
          | None => mret ()
          | Some l =>
              finality_self_vote ← tx_lift (round_next_expect l);
              _ ← on_commit (FinalitySelfVoteHook finality_self_vote);
              match our with
              | None => mret ()
              | Some pk => update_peer_finality_vote_round cur pk finality_self_vote
              end
          end);
     m) (λ _ s', Forall (hook_reaches (tx_db s')) (tx_hooks s')) s.
Proof.
  intros Hend Hlast Heq Hs2. wp_step. destruct last as [l|]; [|wp_step; by apply Hend].
  wp_step. apply wp_lift; [intros f Hf|done]. wp_step. wp_step.
  assert (f = l + 1)%N as -> by by apply round_next_expect_Some in Hf.
  assert (Forall (hook_reaches d) (tx_hooks s ++ [FinalitySelfVoteHook (l + 1)])) as Hs3.
  { apply Forall_app_2; [done|]. constructor; [|done]. by apply Hlast. }
  destruct our as [pk|]; [|wp_step; by apply Hend].
  eapply wp_mono.
  { apply wp_conj; [apply (adds_finality (hook_reaches d)); [by intros []|exact Hs3]|].
    apply (keeps_finality (λ d', cons_blocks_notarized d' = cons_blocks_notarized d)); done. }
  intros [] s' [Hhk Hn]. by apply Hend.
Qed.

Lemma wp_check_round_end_reaches our k s :
  keyed (tx_db s) → Forall not_self_vote (tx_hooks s) →
  wp false (check_round_end our k) (λ _ s', Forall (hook_reaches (tx_db s')) (tx_hooks s')) s.
Proof.
  intros Hkey Hhooks. unfold check_round_end, get_prev_notarized_block. wp_step. wp_step. wp_step. wp_step. wp_step.
  eapply wp_mono.
  { apply wp_conj; [apply wp_loop_reaches|by apply adds_loop]; [|done].
    intros b Hb. unfold prev_notarized in Hb. apply fmap_Some in Hb as ([r b'] & (Hr & _)%range_last_Some & ->).
    right. exists r. cbn. by rewrite Hr, (Hkey r b' Hr). }
  intros [[c' last] needs] s1 [Hlast Hs1]. cbn in Hlast.
  apply hooks_reach with (d := tx_db s1) in Hs1. cbv iota beta. apply wp_bind.
  assert (∀ l, last = Some l → reaches (l + 1) (tx_db s1)) as Hl by exact Hlast.
  pose proof (λ s2, wp_self_vote_hook_reaches (tx_db s1) our c' last _ s2
    (λ s' Heq Hs', wp_timeout_hook_reaches (tx_db s1) (bool_decide (c' ≠ k) || needs) (RoundTimeoutHook c' needs) s'
       Heq eq_refl Hs') Hl) as Hrest.
  destruct (decide (k = c')); [apply wp_ret; by apply Hrest|].
  unfold set_current_round. apply wp_modify. by apply Hrest.
Qed.

(** ** Transactions that announce own votes only in the end of the round *)
Definition announces {E A} (m : CTx E A) : Prop := ∀ s,
  keyed (tx_db s) → Forall not_self_vote (tx_hooks s) →
  wp false m (λ _ s', Forall (hook_reaches (tx_db s')) (tx_hooks s')) s.
(** ... and that announce none, and keep the table of notarized blocks in order. *)
Definition quiet {E A} (m : CTx E A) : Prop := adds not_self_vote m ∧ keeps keyed m.

Lemma announces_bind {E A B} (m : CTx E A) (f : A → CTx E B) :
  quiet m → (∀ a, announces (f a)) → announces (m ≫= f).
Proof.
  intros [Ha Hk] Hf s Hs Hh. apply wp_bind. eapply wp_mono; [apply wp_conj; [by apply Ha|by apply Hk]|].
  intros a s' [Hh' Hs']. by apply Hf.
Qed.
Lemma announces_quiet {E A} (m : CTx E A) : quiet m → announces m.
Proof. intros [Ha _] s _ Hh. eapply wp_mono; [by apply Ha|]. intros a s' Hh'. by apply hooks_reach. Qed.
Lemma announces_round_end our k : announces (check_round_end our k).
Proof. intros s. apply wp_check_round_end_reaches. Qed.
Lemma announces_into {E E2 A} (f : E → E2) (m : CTx E A) : announces m → announces (tx_into f m).
Proof. intros Hm s Hs Hh. apply wp_into. by apply Hm. Qed.

Ltac quiet := split; [repeat adds_step|repeat keeps_step].

Lemma quiet_finality {E} k pk v : quiet (update_peer_finality_vote_round (E:=E) k pk v).
Proof. split; [by apply adds_finality|]. by apply keeps_finality. Qed.

Lemma keyed_insert_notarized {E} r b payload :
  keeps keyed (insert_notarized_block (Hk:=Hook) (E:=E) r b payload).
Proof.
  unfold insert_notarized_block. intros s Hs. wp_step. apply wp_lift; [|done]. intros [] Hr.
  unfold rassert in Hr. destruct (N.eqb_spec (BlockHeader.round b) r) as [Heq|]; [|done].
  revert s Hs. change (keeps keyed (
    _ ← tx_lift (rassert "assertion failed: !block.is_dummy()" (negb (is_dummy b)));
    existing ← tx_read (rd_get (λ d, cons_blocks_notarized d !! r));
    match existing with
    | Some existing => mret (AlreadyPresent existing)
    | None =>
        _ ← tx_modify (λ d, set_cons_blocks_notarized (<[r := b]> (cons_blocks_notarized d)) d);
        _ ← match payload with
            | Some payload => tx_modify (λ d, set_cons_blocks_payloads
                (<[BlockHeader.payload_hash b := payload]> (cons_blocks_payloads d)) d)
            | None => mret ()
            end;
        _ ← tx_modify (retain_matching_votes r b);
        mret Inserted
    end : Tx ConsDb Hook E _)).
  repeat keeps_step. intros d Hd r' b'. cbn. intros [[<- <-]|[_ ?]]%lookup_insert_Some; [done|by apply Hd].
Qed.

Lemma quiet_insert_notarized {E} (block : Notarized BlockHeader.t) payload :
  quiet (cons_insert_notarized_block (E:=E) block payload).
Proof.
  assert (∀ r b l, adds (D:=ConsDb) (E:=E) not_self_vote (insert_block_votes r b l)) as Hvotes.
  { intros r b l. induction l as [|[i s] l IH]; cbn [insert_block_votes]; unfold insert_block_vote;
      repeat first [apply IH|adds_step]. }
  assert (∀ r b l, keeps (H:=Hook) (E:=E) keyed (insert_block_votes r b l)) as Hvotes'.
  { intros r b l. induction l as [|[i s] l IH]; cbn [insert_block_votes]; unfold insert_block_vote;
      repeat first [apply IH|keeps_step]. }
  unfold cons_insert_notarized_block, notify_new_votes. split.
  - unfold insert_notarized_block. repeat first [apply Hvotes|adds_step].
  - repeat first [apply Hvotes'|apply keyed_insert_notarized|keeps_step].
Qed.

Lemma quiet_dummy_votes {E} r l : quiet (insert_dummy_votes (E:=E) r l).
Proof.
  induction l as [|[i s] l [IHa IHk]]; cbn [insert_dummy_votes]; unfold insert_dummy_vote; split;
    repeat first [apply IHa|apply IHk|adds_step|keeps_step].
Qed.

Lemma announces_process_vote our k i p h l vote : announces (process_vote our k i p h l vote).
Proof.
  unfold process_vote, insert_dummy_vote, insert_block_vote, notify_new_votes.
  apply announces_bind; [quiet|intros _]. cbv zeta.
  apply announces_bind; [quiet|intros o]. apply announces_bind; [quiet|intros _].
  destruct o; [|apply announces_quiet; quiet]. apply announces_into, announces_round_end.
Qed.

Lemma announces_vote our i resp : announces (process_vote_response_tx our i resp).
Proof.
  unfold process_vote_response_tx. apply announces_bind; [quiet|intros k]. cbv zeta.
  do 3 (apply announces_bind; [quiet|intros ?]). apply announces_bind.
  - destruct resp; [|quiet]. unfold process_proposal, insert_block_proposal. quiet.
  - intros [vote|]; [apply announces_process_vote|apply announces_quiet; quiet].
Qed.

Lemma announces_notarized our resp : announces (process_notarized_block_response_tx our resp).
Proof.
  pose proof (@quiet_insert_notarized ProcessNotarizedBlockError) as Hins.
  unfold process_notarized_block_response_tx, notify_new_votes, delete_notarized_block. cbv zeta.
  do 5 (apply announces_bind; [quiet|intros ?]). destruct (is_dummy _).
  - apply announces_bind; [quiet|intros ?]. apply announces_bind; [apply quiet_dummy_votes|intros ?].
    apply announces_bind; [quiet|intros ?]. apply announces_into, announces_round_end.
  - apply announces_bind; [quiet|intros latest].
    assert (announces (
      _ ← (if does_directly_extend (notarized_inner (resp_notarized resp)) latest then
             cons_insert_notarized_block (E:=ProcessNotarizedBlockError) (resp_notarized resp) (resp_payload resp)
           else
             our_latest_notarized_block_round ← tx_lift (expect "Must have latest notarized"
               (BlockHeader.round <$> latest));
             our_second_latest_notarized ← tx_read (get_prev_notarized_block our_latest_notarized_block_round);
             _ ← tx_lift (fail_if (negb (does_directly_extend (notarized_inner (resp_notarized resp))
                                           our_second_latest_notarized)) WrongParent);
             _ ← tx_modify (λ d, set_cons_blocks_notarized
                              (delete our_latest_notarized_block_round (cons_blocks_notarized d)) d);
             cons_insert_notarized_block (resp_notarized resp) (resp_payload resp));
      tx_into PnRoundInvariant (check_round_end our a))) as Hcont.
    { apply announces_bind; [|intros _; apply announces_into, announces_round_end].
      destruct (does_directly_extend _ _); [apply Hins|]. split.
      - repeat first [apply Hins|adds_step].
      - repeat first [apply Hins|keeps_step]. intros d Hd r b. cbn. intros [_ ?]%lookup_delete_Some. by apply Hd. }
    destruct latest as [latest|]; [|exact Hcont].
    destruct (decide (BlockHeader.round _ = _)); [case_decide; apply announces_quiet; quiet|].
    match goal with |- announces (if ?b then _ else _) => destruct b end; [apply announces_quiet; quiet|exact Hcont].
Qed.

Lemma announces_open our k f : announces (open_internal_tx our k f).
Proof.
  unfold open_internal_tx. apply announces_bind; [|intros _; apply announces_round_end].
  destruct our; [apply quiet_finality|quiet].
Qed.

(** ** The states of a consensus *)
Lemma rest_keyed d : Rest d → keyed d.
Proof. intros Hr r b Hb. by apply (inv_notarized _ (rest_inv _ Hr) r b Hb). Qed.

(** How the table of notarized blocks changes: blocks are added after all the
    others, the last one possibly in the place of the one before it. *)
Inductive ngrows : gmap BlockRound BlockHeader.t → gmap BlockRound BlockHeader.t → Prop :=
  | NSame n : ngrows n n
  | NInsert n r b : (∀ r', is_Some (n !! r') → (r' < r)%N) → ngrows n (<[r := b]> n)
  | NReplace n l r b :
      (∀ r', is_Some (n !! r') → (r' ≤ l)%N) → (l < r)%N → ngrows n (<[r := b]> (delete l n))
  | NTrans n n' n'' : ngrows n n' → ngrows n' n'' → ngrows n n''.

Lemma ngrows_reaches d d' f :
  ngrows (cons_blocks_notarized d) (cons_blocks_notarized d') → reaches f d → reaches f d'.
Proof.
  intros Hg [->|Hr]; [by left|]. right.
  induction Hg as [|n r b Hmax|n l r b Hmax Hlt|n n' n'' _ IH1 _ IH2]; [done|..|auto]; destruct Hr as (q & Hq & Hf).
  - exists q. split; [|done]. apply lookup_insert_is_Some. destruct (decide (r = q)); auto.
  - exists r. rewrite lookup_insert_eq. split; [eauto|]. specialize (Hmax q Hq). lia.
Qed.

(** There is no notarized block from [lo] up to [hi], and there is a later one
    ([lo = hi] says nothing). *)
Definition gap (lo hi : BlockRound) (n : gmap BlockRound BlockHeader.t) : Prop :=
  (lo ≤ hi)%N ∧ (lo = hi ∨
    (∃ r, is_Some (n !! r) ∧ (hi ≤ r)%N) ∧ ∀ q, (lo ≤ q)%N → (q < hi)%N → n !! q = None).

Lemma ngrows_gap lo hi n n' : ngrows n n' → gap lo hi n → gap lo hi n'.
Proof.
  intros Hg [Hle [->|[Hr Hnone]]]; (split; [done|]); [by left|right].
  induction Hg as [|n r b Hmax|n l r b Hmax Hlt|n n' n'' _ IH1 _ IH2]; [done|..|by apply IH2; apply IH1].
  - destruct Hr as (q & Hq & Hhi). pose proof (Hmax q Hq). split.
    + exists r. rewrite lookup_insert_eq. split; [eauto|lia].
    + intros q' ? ?. rewrite lookup_insert_ne by lia. by apply Hnone.
  - destruct Hr as (q & Hq & Hhi). pose proof (Hmax q Hq). split.
    + exists r. rewrite lookup_insert_eq. split; [eauto|lia].
    + intros q' ? ?. rewrite lookup_insert_ne by lia. rewrite lookup_delete_ne by lia. by apply Hnone.
Qed.

(** The latest notarized block of a database at rest is the last of its table. *)
Lemma rest_latest d r : Rest d → is_Some (cons_blocks_notarized d !! r) →
  ∃ l, prev_notarized (cur_round_of d) d = Some l ∧ (r ≤ BlockHeader.round l)%N ∧
    (∀ r', is_Some (cons_blocks_notarized d !! r') → (r' ≤ BlockHeader.round l)%N).
Proof.
  intros Hr Hs. pose proof (rb_notarized _ _ _ _ (rest_bounds _ Hr)) as Hlt.
  destruct (prev_notarized (cur_round_of d) d) as [l|] eqn:Hl.
  - apply prev_notarized_Some in Hl as (_ & _ & Hmax); [|apply Hr]. exists l.
    assert (∀ r', is_Some (cons_blocks_notarized d !! r') → (r' ≤ BlockHeader.round l)%N) by (intros r' [b' Hb']; eauto).
    auto.
  - destruct Hs as [b Hb]. rewrite prev_notarized_None in Hl. specialize (Hl r b Hb). specialize (Hlt r b Hb). lia.
Qed.

Lemma ngrows_accepts d b n : Rest d → Accepts d b n → ngrows (cons_blocks_notarized d) n.
Proof.
  intros Hr [_|_ Hlt _|l _ Hl Hlt _]; [apply NSame|apply NInsert|apply NReplace; [|done]]; intros r' Hr';
    destruct (rest_latest d r' Hr Hr') as (l' & Hl' & Hle & Hall).
  - specialize (Hlt l' Hl'). lia.
  - rewrite Hl in Hl'. by injection Hl' as <-.
Qed.

Lemma ngrows_cur d b : Rest d → ngrows (cons_blocks_notarized d) (<[cur_round_of d := b]> (cons_blocks_notarized d)).
Proof. intros Hr. apply NInsert. intros r' [b' Hb']. exact (rb_notarized _ _ _ _ (rest_bounds _ Hr) r' b' Hb'). Qed.

Lemma ngrows_open d d' : Rest d → OpenStep d d' → ngrows (cons_blocks_notarized d) (cons_blocks_notarized d').
Proof. intros Hr Ho. destruct (os_notarized _ _ Ho) as [->|(b & _ & ->)]; [apply NSame|by apply ngrows_cur]. Qed.

Lemma ngrows_cstep c c' :
  consensus_wf c → cstep c c' → ngrows (cons_blocks_notarized (db c)) (cons_blocks_notarized (db c')).
Proof.
  intros Hwf Hstep. pose proof (proj1 Hwf) as Hrest.
  destruct Hstep as [c i resp|c i resp Hr|c pk resp|c round ts peers Hch|c our c' Ho].
  - pose proof (vote_spec c i resp Hwf) as Hv. unfold vote_outcome in Hv.
    destruct (process_vote_response c i resp) as [[[]|e|w] c']; cbn; [|by subst; apply NSame..].
    destruct Hv as [_ Hv]. destruct (vs_notarized _ _ Hv) as [->|(b & _ & _ & ->)]; [apply NSame|by apply ngrows_cur].
  - pose proof (notarized_spec c i resp Hwf Hr) as Hv. unfold notarized_outcome in Hv.
    destruct (process_notarized_block_response c i resp) as [[[]|e|w] c']; cbn; [|by subst; apply NSame..].
    destruct Hv as [_ Hv]. destruct (ns_notarized _ _ _ Hv) as [->|(n & Ha & Hn)]; [apply NSame|].
    apply ngrows_accepts in Ha; [|done]. destruct Hn as [->|(b & _ & Hlow & _ & ->)]; [done|].
    eapply NTrans; [exact Ha|]. apply NInsert. intros r' [b' Hb']. by eapply Hlow.
  - destruct (finality_spec c pk resp Hwf) as [_ (x & y & z & Hd & _)]. rewrite Hd. apply NSame.
  - destruct (params_spec c round ts peers Hwf Hch) as [_ [->|(p' & _ & Hd & _)]]; [apply NSame|]. rewrite Hd. apply NSame.
  - destruct (open_spec _ _ _ Hrest Ho) as (_ & Hos & _). by apply ngrows_open.
Qed.

(** No step takes back the blocks that an own vote is for. *)
Lemma reaches_cstep c c' f : consensus_wf c → cstep c c' → reaches f (db c) → reaches f (db c').
Proof. intros Hwf Hs. by apply ngrows_reaches, ngrows_cstep. Qed.

Lemma announces_self_vote {E A} c (f : CTx E A) :
  keyed (db c) → announces f → (∀ g, reaches g (db c) → reaches g (db (write_tx c f).2)) →
  self_vote_ok c → self_vote_ok (write_tx c f).2.
Proof.
  intros Hk Hf Hmono Hok.
  pose proof (write_tx_spec false c f _ (Hf (MkTx (db c) []) Hk (Forall_nil_2 _))) as Hs.
  destruct (write_tx c f) as [[a|e|w] c']; cbn in *; [|by subst|by destruct Hs as [-> _]].
  destruct Hs as (hooks & Hhk & Hw). unfold self_vote_ok. rewrite Hw. apply foldl_self_vote; [by apply Hmono|done].
Qed.

Lemma open_self_vote {E} d our self :
  Rest d → open_internal (E:=E) (cur_round_of d) d our = Ok self → self_vote_ok self.
Proof.
  intros Hr Ho. destruct (open_internal_spec d our self Hr Ho) as (_ & Hos & _). pose proof (rest_keyed d Hr) as Hk.
  assert (∀ f, reaches f d → reaches f (db self)) as Hmono by (intros f; by apply ngrows_reaches, ngrows_open).
  set (k := cur_round_of d) in *. clearbody k. unfold open_internal in Ho.
  destruct (open_watches (E:=E) k d) as [w| |] eqn:Hw; [|done..]. cbn in Ho.
  assert (reaches (finality_self_vote w) d) as Hself.
  { unfold open_watches in Hw. destruct (prev_notarized k d) as [b|] eqn:Hb; cbn in Hw.
    - apply prev_notarized_Some in Hb as (Hb & _); [|apply Hr].
      destruct (round_next_expect (BlockHeader.round b)) as [f| |] eqn:Hf; [|done..]. injection Hw as <-. cbn.
      apply round_next_expect_Some in Hf as ->. right. exists (BlockHeader.round b). rewrite Hb. split; [eauto|lia].
    - injection Hw as <-. by left. }
  pose proof (announces_self_vote (MkConsensus d our w) _ Hk (announces_open our k (finality_self_vote w))) as Hgo.
  destruct (write_tx _ _) as [[[]|e|m] self']; [|done..]. injection Ho as <-. by apply Hgo.
Qed.

Lemma self_vote_cstep c c' : consensus_wf c → cstep c c' → self_vote_ok c → self_vote_ok c'.
Proof.
  intros Hwf Hstep Hok. pose proof (λ f, reaches_cstep c c' f Hwf Hstep) as Hmono.
  pose proof (rest_keyed _ (proj1 Hwf)) as Hk.
  destruct Hstep as [c i resp|c i resp Hr|c pk resp|c round ts peers Hch|c our c' Ho].
  - by apply announces_self_vote; [|apply announces_vote|..].
  - by apply announces_self_vote; [|apply announces_notarized|..].
  - apply announces_self_vote; [done|apply announces_quiet|done..].
    unfold process_finality_vote_update_response_tx. pose proof (@quiet_finality ProcessFirstUnnotarizedUpdateError) as Hq.
    split; repeat first [apply Hq|adds_step|keeps_step].
  - apply announces_self_vote; [done|apply announces_quiet|done..].
    unfold consensus_params_change_tx, insert_consensus_params. quiet.
  - apply open_is_internal in Ho; [|apply Hwf]. eapply open_self_vote; [apply Hwf|done].
Qed.

Lemma reachable_self_vote c : reachable c → self_vote_ok c.
Proof.
  induction 1 as [params our pinned c Hwf Hi|c c' Hr IH Hs].
  - eapply open_self_vote, init_is_internal, Hi. by apply init_db_rest.
  - eapply self_vote_cstep, IH; [|done]. by apply reachable_wf.
Qed.

(** Payloads are never deleted. *)
Definition has_payload (h : N) (d : ConsDb) : Prop := is_Some (cons_blocks_payloads d !! h).

Lemma has_payload_insert h h' p d :
  has_payload h d → has_payload h (set_cons_blocks_payloads (<[h' := p]> (cons_blocks_payloads d)) d).
Proof. intros Hh. apply lookup_insert_is_Some. destruct (decide (h' = h)); [by left|by right]. Qed.

Lemma has_payload_cstep h c c' : consensus_wf c → cstep c c' → has_payload h (db c) → has_payload h (db c').
Proof.
  intros Hwf Hstep. pose proof (has_payload_insert h) as Hins.
  destruct Hstep as [c i resp|c i resp Hr|c pk resp|c round ts peers Hch|c our c' Ho].
  - apply write_tx_keeps, keeps_vote_response; auto.
  - apply write_tx_keeps, keeps_notarized_response; auto.
  - apply write_tx_keeps. unfold process_finality_vote_update_response_tx.
    repeat first [apply keeps_finality; done|keeps_step].
  - apply write_tx_keeps. unfold consensus_params_change_tx, insert_consensus_params. repeat keeps_step.
  - intros Hh. apply open_is_internal in Ho; [|apply Hwf]. revert Hh Ho. apply open_internal_keeps.
    intros f. apply keeps_open; auto.
Qed.

(** ** What the loop knows at each stage *)
Definition csteps : Consensus → Consensus → Prop := rtc cstep.

(** [b] was read as the first notarized block from [r] on, in state [c1], after
    both channels had been seen past it. *)
Record Picked c0 r b c1 : Prop := {
  pk_block : cons_blocks_notarized (db c1) !! BlockHeader.round b = Some b;
  pk_from : (r ≤ BlockHeader.round b)%N;
  pk_first : ∀ q, (r ≤ q)%N → (q < BlockHeader.round b)%N → cons_blocks_notarized (db c1) !! q = None;
  pk_consensus : ∃ c2, csteps c0 c2 ∧ csteps c2 c1 ∧ (BlockHeader.round b < finality_consensus (watches c2))%N;
  pk_self_vote : ∃ c3, csteps c0 c3 ∧ csteps c3 c1 ∧ (BlockHeader.round b < finality_self_vote (watches c3))%N;
}.

Definition picked c0 req b c : Prop :=
  (∃ c1, csteps c0 c1 ∧ csteps c1 c ∧ Picked c0 req b c1) ∧
  gap req (BlockHeader.round b) (cons_blocks_notarized (db c)) ∧ has_payload (BlockHeader.payload_hash b) (db c).

Definition finality_seen c0 c (f : BlockRound) : Prop :=
  ∃ c2, csteps c0 c2 ∧ csteps c2 c ∧ f = finality_consensus (watches c2).
Definition self_vote_seen c0 c (f : BlockRound) : Prop :=
  ∃ c2, csteps c0 c2 ∧ csteps c2 c ∧ f = finality_self_vote (watches c2).

Definition stage_ok c0 req c st : Prop :=
  match st with
  | AwaitFinality r => gap req r (cons_blocks_notarized (db c))
  | AwaitSelfVote r f => gap req r (cons_blocks_notarized (db c)) ∧ finality_seen c0 c f
  | NextNotarized r f g =>
      gap req r (cons_blocks_notarized (db c)) ∧ finality_seen c0 c f ∧ self_vote_seen c0 c g ∧
      (r < g)%N ∧ reaches g (db c)
  | FetchPayload b => picked c0 req b c
  | FetchParams b payload => picked c0 req b c ∧ blake3 payload = BlockHeader.payload_hash b
  | Delivered b leader citems =>
      picked c0 req b c ∧
      (∃ payload, blake3 payload = BlockHeader.payload_hash b ∧ decode_citems payload = Ok citems) ∧
      (∃ c4 p i, csteps c0 c4 ∧ csteps c4 c ∧ params_at (db c4) (BlockHeader.round b) = Some p ∧
         leader_idx p (BlockHeader.round b) (E:=Empty_set) = Ok i ∧
         ConsensusParams.peers p !! N.to_nat i = Some leader)
  end.

Lemma stage_ok_cstep c0 req c c' st :
  reachable c → csteps c0 c → cstep c c' → stage_ok c0 req c st → stage_ok c0 req c' st.
Proof.
  intros Hr Hc0 Hs Hok. pose proof (reachable_wf c Hr) as Hwf.
  assert (∀ lo hi, gap lo hi (cons_blocks_notarized (db c)) → gap lo hi (cons_blocks_notarized (db c'))) as Hgap
    by (intros lo hi; by apply ngrows_gap, ngrows_cstep).
  assert (∀ c2, csteps c2 c → csteps c2 c') as Htrans by (intros c2 H2; by eapply rtc_r).
  assert (∀ f, finality_seen c0 c f → finality_seen c0 c' f) as Hf by (intros f (c2 & ? & ? & ?); exists c2; eauto).
  assert (∀ f, self_vote_seen c0 c f → self_vote_seen c0 c' f) as Hg by (intros f (c2 & ? & ? & ?); exists c2; eauto).
  assert (∀ b, picked c0 req b c → picked c0 req b c') as Hp.
  { intros b ((c1 & ? & ? & ?) & ? & Hpl). split_and!; [exists c1; eauto|by apply Hgap|].
    by eapply has_payload_cstep. }
  destruct st; cbn [stage_ok] in *.
  - by apply Hgap.
  - destruct Hok. split; [by apply Hgap|by apply Hf].
  - destruct Hok as (? & ? & ? & ? & ?). split_and!; [by apply Hgap|by apply Hf|by apply Hg|done|by eapply reaches_cstep].
  - by apply Hp.
  - destruct Hok. split; [by apply Hp|done].
  - destruct Hok as (? & ? & c4 & p & i & ? & ? & ? & ? & ?). split_and!; [by apply Hp|done|].
    exists c4, p, i. split_and!; [done|by apply Htrans|done..].
Qed.

Definition undecodable st : Prop :=
  ∃ b payload, st = FetchParams b payload ∧ ∀ citems, decode_citems payload ≠ Ok citems.

Definition step_ok c0 req c st : Prop :=
  match app_step c st with
  | Ok (Some st') => stage_ok c0 req c st'
  | Ok None => True
  | Err e => match e with end
  | Panic _ => undecodable st
  end.

(** The lookup of the next block, which an own vote has passed. *)
Lemma next_notarized_found c r g : reaches g (db c) → (r < g)%N →
  ∃ q b, range_first (rg_from r) (cons_blocks_notarized (db c)) = Some (q, b).
Proof.
  intros [->|(q & [b Hb] & Hg)] Hr; [lia|].
  destruct (range_first (rg_from r) (cons_blocks_notarized (db c))) as [[q' b']|] eqn:Hf; [eauto|].
  rewrite range_first_None in Hf. specialize (Hf q b Hb).
  assert (rg_from r q = true) by (apply rg_from_N; lia). congruence.
Qed.

Lemma step_ok_next c0 req c r f g :
  reachable c → csteps c0 c → stage_ok c0 req c (NextNotarized r f g) → step_ok c0 req c (NextNotarized r f g).
Proof.
  intros Hr Hc0 ([Hle Hgap] & (c2 & Hc2 & Hc2' & ->) & (c3 & Hc3 & Hc3' & ->) & Hlt & Hg).
  destruct (next_notarized_found c r _ Hg Hlt) as (q & b & Hfirst).
  pose proof (reachable_wf c Hr) as [Hrest _].
  unfold step_ok, app_step, read_tx, read_with_expect, read_with_inner_falliable, get_next_notarized_block, rd_get.
  rewrite Hfirst. apply range_first_Some in Hfirst as (Hb & Hfrom%rg_from_N & Hmin).
  pose proof (rest_keyed _ Hrest q b Hb) as <-.
  assert (∀ q', (r ≤ q')%N → (q' < BlockHeader.round b)%N → cons_blocks_notarized (db c) !! q' = None) as Hnone.
  { intros q' ? Hq'. apply eq_None_not_Some. intros [b' Hb']. apply rg_from_N in H2 as Hq.
    specialize (Hmin q' b' Hb' Hq). unfold key_le in Hmin. cbn in Hmin. lia. }
  assert (∀ q', (req ≤ q')%N → (q' < BlockHeader.round b)%N → cons_blocks_notarized (db c) !! q' = None) as Hnone'.
  { intros q' ? ?. destruct (decide (r ≤ q')%N); [by apply Hnone|].
    destruct Hgap as [->|[_ Hgap]]; [lia|]. apply Hgap; lia. }
  assert (gap req (BlockHeader.round b) (cons_blocks_notarized (db c))) as Hgap'.
  { split; [lia|right]. split; [|done]. exists (BlockHeader.round b). rewrite Hb. eauto. }
  cbn. destruct ((_ <? _)%N && (_ <? _)%N) eqn:Hfin; [|exact Hgap'].
  apply andb_prop in Hfin as [Hf1%N.ltb_lt Hf2%N.ltb_lt]. split_and!; [|done|].
  - exists c. split_and!; [done|done|]. constructor; [done|lia|done|by exists c2|by exists c3].
  - apply (inv_notarized _ (rest_inv _ Hrest) _ b Hb).
Qed.

Lemma step_ok_params c0 req c b payload :
  reachable c → csteps c0 c → stage_ok c0 req c (FetchParams b payload) → step_ok c0 req c (FetchParams b payload).
Proof.
  intros Hr Hc0 [Hp Hpl]. destruct (reachable_wf c Hr) as [Hrest _].
  destruct (params_at_wf (db c) (BlockHeader.round b) (rest_inv _ Hrest)) as (p & Hpar & Hwf).
  assert (get_round_params c (BlockHeader.round b) = Ok p) as Hget
    by (by apply read_with_expect_Ok, get_consensus_params_Ok).
  destruct (leader_idx_wf (E:=Empty_set) p (BlockHeader.round b) Hwf) as (i & Hi & Hlt).
  destruct (ConsensusParams.peers p !! N.to_nat i) as [leader|] eqn:Hl;
    [|apply lookup_ge_None in Hl; unfold npeers in Hlt; lia].
  unfold step_ok, app_step. rewrite Hget. cbn -[leader_idx]. rewrite Hi. cbn. rewrite Hl. cbn.
  destruct (decode_citems payload) as [citems|e|w] eqn:Hd; cbn.
  - split_and!; [done|eauto|]. exists c, p, i. split_and!; done.
  - exists b, payload. split; [done|]. by rewrite Hd.
  - exists b, payload. split; [done|]. by rewrite Hd.
Qed.

Lemma app_step_spec c0 req c st :
  reachable c → csteps c0 c → stage_ok c0 req c st → step_ok c0 req c st.
Proof.
  intros Hr Hc0 Hok. destruct st as [r|r f|r f g|b|b payload|b leader citems].
  - unfold step_ok. cbn. destruct (_ <? _)%N; [|done]. split; [done|]. by exists c.
  - unfold step_ok. cbn. destruct (_ <? _)%N eqn:Hlt; [|done]. apply N.ltb_lt in Hlt. destruct Hok as [? ?].
    split_and!; [done|done|by exists c|done|by apply reachable_self_vote].
  - by apply step_ok_next.
  - destruct Hok as (? & ? & [payload Hpl]). unfold step_ok. cbn. unfold read_tx, read_with_expect,
      read_with_inner_falliable, get_block_payload, rd_get. rewrite Hpl. cbn.
    destruct (reachable_wf c Hr) as [Hrest _]. destruct (inv_payloads _ (rest_inv _ Hrest) _ _ Hpl) as [Hh _].
    split; [|done]. split_and!; [done|done|by exists payload].
  - by apply step_ok_params.
  - done.
Qed.

Lemma csteps_reachable c c' : reachable c → csteps c c' → reachable c'.
Proof. intros Hr. induction 1 as [|c c1 c' Hs _ IH]; [done|]. apply IH. by eapply RStep. Qed.

Lemma arun_ok c0 req c st :
  reachable c0 → arun (c0, AwaitFinality req) (c, st) → csteps c0 c ∧ stage_ok c0 req c st.
Proof.
  intros Hr Hrun. remember (c0, AwaitFinality req) as x eqn:Hx. remember (c, st) as y eqn:Hy.
  revert c st Hy. induction Hrun as [x|x c1 c2 st1 _ IH Hs|x c1 st1 st2 _ IH Hs]; intros c st Hy; simplify_eq.
  - split; [apply rtc_refl|]. cbn. split; [done|by left].
  - destruct (IH eq_refl c1 st eq_refl) as [Hc Hok]. split; [by eapply rtc_r|].
    by apply (stage_ok_cstep c0 req c1 c); [eapply csteps_reachable|..].
  - destruct (IH eq_refl c st1 eq_refl) as [Hc Hok]. split; [done|].
    pose proof (app_step_spec c0 req c st1 (csteps_reachable _ _ Hr Hc) Hc Hok) as Hst. unfold step_ok in Hst.
    by rewrite Hs in Hst.
Qed.

(** ** A sequence of deliveries

    The application acknowledges the round after the block it got
    ([NodeApp.process_block] returns that position). *)
Inductive deliveries : Consensus → BlockRound → list BlockHeader.t → Consensus → Prop :=
  | DNil c req : deliveries c req [] c
  | DStep c c' req bs c'' : cstep c c' → deliveries c' req bs c'' → deliveries c req bs c''
  | DBlock c req c' b leader citems bs c'' :
      arun (c, AwaitFinality req) (c', Delivered b leader citems) →
      deliveries c' (BlockHeader.round b + 1) bs c'' → deliveries c req (b :: bs) c''.

Lemma deliveries_steps c req bs c' : reachable c → deliveries c req bs c' → csteps c c'.
Proof.
  intros Hr Hd. induction Hd as [c req|c c' req bs c'' Hs _ IH|c req c' b leader citems bs c'' Hrun _ IH].
  - apply rtc_refl.
  - eapply rtc_l; [done|]. apply IH. by eapply RStep.
  - destruct (arun_ok _ _ _ _ Hr Hrun) as [Hc _]. etrans; [exact Hc|]. by eapply IH, csteps_reachable.
Qed.

Lemma csteps_ngrows c c' : reachable c → csteps c c' →
  ngrows (cons_blocks_notarized (db c)) (cons_blocks_notarized (db c')).
Proof.
  intros Hr. induction 1 as [c|c c1 c' Hs _ IH]; [apply NSame|]. eapply NTrans; [|apply IH; by eapply RStep].
  by apply ngrows_cstep; [apply reachable_wf|].
Qed.

(** C13: The application gets the blocks in order and misses none, while votes,
    blocks from other nodes and restarts change the consensus between any two
    steps: the rounds of the delivered blocks increase strictly from the round
    that was acknowledged first, and no round up to the last of them that was
    not delivered has a notarized block.  Each block is, when it is picked,
    notarized, and below a finality consensus and an own finality vote that the
    consensus had. *)
Theorem deliveries_complete_in_order c req bs c' :
  reachable c → deliveries c req bs c' →
  StronglySorted N.lt (BlockHeader.round <$> bs) ∧
  (∀ b, b ∈ bs → (req ≤ BlockHeader.round b)%N ∧
     ∃ c1, csteps c c1 ∧ csteps c1 c' ∧ cons_blocks_notarized (db c1) !! BlockHeader.round b = Some b ∧
       (∃ c2, csteps c c2 ∧ csteps c2 c1 ∧ (BlockHeader.round b < finality_consensus (watches c2))%N) ∧
       (∃ c3, csteps c c3 ∧ csteps c3 c1 ∧ (BlockHeader.round b < finality_self_vote (watches c3))%N)) ∧
  (∀ b q, last bs = Some b → (req ≤ q)%N → (q < BlockHeader.round b)%N →
     is_Some (cons_blocks_notarized (db c') !! q) → q ∈ BlockHeader.round <$> bs).
Proof.
  intros Hr Hd. induction Hd as [c req|c c1 req bs c' Hs _ IH|c req c1 b leader citems bs c' Hrun Hd IH].
  - split_and!; [constructor|by intros b Hb%not_elem_of_nil|done].
  - destruct (IH (RStep _ _ Hr Hs)) as (Hsort & Hbs & Hmiss). split_and!; [done| |done].
    intros b Hb. destruct (Hbs b Hb) as (? & ci & ? & ? & ? & (cj & ? & ? & ?) & (ck & ? & ? & ?)).
    split; [done|]. exists ci. split_and!; [by eapply rtc_l|done|done|exists cj|exists ck];
      (split_and!; [by eapply rtc_l|done..]).
  - destruct (arun_ok _ _ _ _ Hr Hrun) as [Hc (((ci & Hi & Hi' & Hp) & Hgap & _) & _)].
    pose proof (csteps_reachable _ _ Hr Hc) as Hr1. destruct (IH Hr1) as (Hsort & Hbs & Hmiss).
    pose proof (deliveries_steps _ _ _ _ Hr1 Hd) as Hc'.
    assert (∀ x, csteps c1 x → csteps c x) as Hafter by (intros x Hx; etrans; [exact Hc|exact Hx]).
    assert (∀ x, csteps x c1 → csteps x c') as Hbefore by (intros x Hx; etrans; [exact Hx|exact Hc']).
    split_and!.
    + cbn. constructor; [done|]. apply Forall_fmap, Forall_forall. intros b' [Hb' _]%Hbs. cbn. lia.
    + intros b' [->|Hb']%elem_of_cons.
      * destruct Hp as [? ? _ ? ?]. split; [done|]. exists ci. split_and!; [done|by apply Hbefore|done..].
      * destruct (Hbs b' Hb') as (? & cj & ? & ? & ? & (ck & ? & ? & ?) & (cl & ? & ? & ?)).
        pose proof (pk_from _ _ _ _ Hp). split; [lia|].
        exists cj. split_and!; [by apply Hafter|done|done|exists ck|exists cl]; (split_and!; [by apply Hafter|done..]).
    + intros bl q Hl Hq Hlt Hsome. cbn. apply elem_of_cons.
      destruct (decide (q = BlockHeader.round b)) as [->|Hne]; [by left|right].
      destruct (decide (q < BlockHeader.round b)%N).
      * exfalso. pose proof (ngrows_gap _ _ _ _ (csteps_ngrows _ _ Hr1 Hc') Hgap) as [_ [->|[_ Hnone]]]; [lia|].
        rewrite Hnone in Hsome by done. destruct Hsome as [x Hx]. discriminate.
      * destruct bs as [|b2 bs]; [cbn in Hl; injection Hl as <-; lia|].
        rewrite last_cons_cons in Hl. apply (Hmiss bl q); [done|lia|done..].
Qed.

(** C37: The delivery of a block never ends the process, whatever the consensus
    goes through between its steps, but for one case: the payload of the final
    block does not decode.  The notarized block and its payload are always
    found once the own finality vote is past the round. *)
Theorem delivery_panics_only_on_payload c req c' st :
  reachable c → arun (c, AwaitFinality req) (c', st) →
  match app_step c' st with
  | Ok _ => True
  | Err e => match e with end
  | Panic _ => ∃ b payload, st = FetchParams b payload ∧ blake3 payload = BlockHeader.payload_hash b ∧
      ∀ citems, decode_citems payload ≠ Ok citems
  end.
Proof.
  intros Hr Hrun. destruct (arun_ok _ _ _ _ Hr Hrun) as [Hc Hok].
  pose proof (app_step_spec c req c' st (csteps_reachable _ _ Hr Hc) Hc Hok) as Hs. unfold step_ok in Hs.
  destruct (app_step c' st) as [o|e|w]; [done|done|]. destruct Hs as (b & payload & -> & Hd).
  exists b, payload. split_and!; [done|apply Hok|done].
Qed.
End AppApi.

(** ** Concrete runs *)
Section Witnesses.
Local Existing Instance Toy.bincode.
Local Existing Instance Toy.crypto.
Local Existing Instance ToyNet.codec.

Fixpoint app_run (fuel : nat) (c : Consensus) (st : AppStage) : AppStage :=
  match fuel with
  | O => st
  | S fuel => match app_step c st with Ok (Some st') => app_run fuel c st' | _ => st end
  end.

Lemma app_run_arun x c st fuel : arun x (c, st) → arun x (c, app_run fuel c st).
Proof.
  revert st. induction fuel as [|fuel IH]; intros st Hx; [done|]. cbn.
  destruct (app_step c st) as [[st'|]|e|w] eqn:Hs; [|done..]. apply IH. by eapply AStep.
Qed.
Lemma arun_votes x c st l : arun x (c, st) → arun x (run_votes c l, st).
Proof.
  revert c. induction l as [|[i resp] l IH]; intros c Hx; [done|]. cbn. apply IH.
  eapply AConsensus; [exact Hx|]. apply CVote.
Qed.
Lemma arun_finality x c st l : arun x (c, st) → arun x (run_finality c l, st).
Proof.
  revert c. induction l as [|m l IH]; intros c Hx; [done|]. cbn. apply IH.
  eapply AConsensus; [exact Hx|]. apply CFinality.
Qed.

(** Node 0 while the block of round 0 with a payload gets its quorum, and then
    becomes final. *)
Definition app_block (payload : Payload) : BlockHeader.t := toy_header None 0 payload.
Definition voted_on (payload : Payload) : Consensus :=
  let b := app_block payload in
  run_votes (created (Some 1%N))
    [(2%N, Proposal (new_sign b 2%N) payload); (0%N, Vote (new_sign b 0%N)); (1%N, Vote (new_sign b 1%N))].
Definition final_on (payload : Payload) : Consensus := run_finality (voted_on payload) [(1, 1); (2, 1)]%N.

Lemma arun_final payload fuel :
  arun (created (Some 1%N), AwaitFinality 0) (final_on payload, app_run fuel (final_on payload) (AwaitFinality 0)).
Proof. exact (app_run_arun _ _ _ fuel (arun_finality _ _ _ _ (arun_votes _ _ _ _ (ARefl _)))). Qed.

Definition item_payload : Payload := encode_citems [CTransaction ToyNet.transaction].

Lemma deliveries_complete_in_order_witness :
  finality_consensus (watches (created (Some 1%N))) = 0%N ∧
  cons_blocks_notarized (db (final_on item_payload)) !! 0%N = Some (app_block item_payload).
Proof.
  split; [vm_compute; reflexivity|].
  destruct (deliveries_complete_in_order (created (Some 1%N)) 0 [app_block item_payload] (final_on item_payload))
    as (_ & Hb & _).
  - exact toy_created_ok.
  - apply (DBlock _ _ (final_on item_payload) (app_block item_payload) 3 [CTransaction ToyNet.transaction]);
      [|apply DNil].
    pose proof (arun_final item_payload 10) as Hrun.
    assert (app_run 10 (final_on item_payload) (AwaitFinality 0)
      = Delivered (app_block item_payload) 3 [CTransaction ToyNet.transaction]) as Heq by (vm_compute; reflexivity).
    rewrite Heq in Hrun. exact Hrun.
  - destruct (Hb (app_block item_payload)) as [_ _]; [by left|]. vm_compute. reflexivity.
Defined.

(** A leader whose payload does not decode ends the process of the others. *)
Lemma delivery_panics_only_on_payload_witness :
  app_step (final_on [9%N]) (FetchParams (app_block [9%N]) [9%N]) = Panic "Can't fail" ∧
  ∀ citems, decode_citems [9%N] ≠ Ok citems.
Proof.
  assert (app_step (final_on [9%N]) (FetchParams (app_block [9%N]) [9%N]) = Panic "Can't fail") as Hp
    by (vm_compute; reflexivity).
  split; [exact Hp|].
  assert (app_run 4 (final_on [9%N]) (AwaitFinality 0) = FetchParams (app_block [9%N]) [9%N]) as Hst
    by (vm_compute; reflexivity).
  pose proof (arun_final [9%N] 4) as Hrun. rewrite Hst in Hrun.
  pose proof (delivery_panics_only_on_payload (created (Some 1%N)) 0 _ _ toy_created_ok Hrun) as Hd.
  rewrite Hp in Hd. destruct Hd as (b & payload & Heq & _ & Hd). injection Heq as _ <-. exact Hd.
Defined.
End Witnesses.
