(* ===== verification/PeerAddr.v ===== *)
(** * The addresses of the peers ([node/src/peer_address.rs],
      [node/src/connection_pool.rs], [util-db/src/random.rs], [node-core/src/address.rs])

    Every node keeps, for each peer key it has heard of, the newest signed address
    of it ([peer_addresses]).  Addresses spread by gossip: a node pushes a random
    address to a random peer every ten seconds, and asks a random peer for an
    address it needs.  A connection that cannot be made marks the address of its
    peer as needed.

    The random numbers, the connections that can be made and the answers of other
    nodes are arguments. *)
From S2P Require Import Prelude Peers Core Db.

(** [PeerAddress]; an [IrohAddress] is 32 bytes, as a number. *)
Inductive PeerAddress := Iroh (addr : N).
Global Instance PeerAddress_eq_dec : EqDecision PeerAddress.
Proof. solve_decision. Defined.

Module AddressUpdate.
Record t := mk { timestamp : N; peer_pubkey : PeerPubkey; addr : PeerAddress }.
Global Instance t_eq_dec : EqDecision t.
Proof. solve_decision. Defined.
End AddressUpdate.

(** [Signable::TAG] is "adup". *)
Global Instance address_update_signable `{Hashable AddressUpdate.t} : Signable AddressUpdate.t := [97; 100; 117; 112]%N.

(** The tables. *)
Record AddrDb := MkAddrDb {
  peer_addresses : gmap PeerPubkey (Signed AddressUpdate.t);
  peer_addresses_we_track : gmap PeerPubkey ();
  peer_addresses_we_need : gmap PeerPubkey ();
}.
Definition set_peer_addresses x (d : AddrDb) : AddrDb :=
  MkAddrDb x (peer_addresses_we_track d) (peer_addresses_we_need d).
Definition set_we_track x (d : AddrDb) : AddrDb := MkAddrDb (peer_addresses d) x (peer_addresses_we_need d).
Definition set_we_need x (d : AddrDb) : AddrDb := MkAddrDb (peer_addresses d) (peer_addresses_we_track d) x.

(** ** A random entry of a table ([get_random]) *)
Section Random.
Context {K : Type} `{KeyOrdLaws K} `{Countable K} {V : Type}.
Implicit Types (tbl : gmap K V) (random_pivot k : K) (v : V).

Definition get_random tbl random_pivot (coin_flip : bool) : option (K * V) :=
  let before_pivot := rg_to random_pivot in
  let after_pivot := rg_from random_pivot in
  if coin_flip then
    match range_first after_pivot tbl with
    | Some k => Some k
    | None => range_last before_pivot tbl
    end
  else
    match range_first before_pivot tbl with
    | Some k => Some k
    | None => range_last after_pivot tbl
    end.

Lemma rg_split pivot k : rg_to pivot k = negb (rg_from pivot k).
Proof. done. Qed.

Lemma get_random_elem tbl pivot coin k v : get_random tbl pivot coin = Some (k, v) → tbl !! k = Some v.
Proof.
  assert (∀ P Q, match range_first P tbl with Some k => Some k | None => range_last Q tbl end = Some (k, v) →
    tbl !! k = Some v) as Hgo; [|by destruct coin; apply Hgo].
  intros P Q. destruct (range_first P tbl) as [[k1 v1]|] eqn:Hf; intros Hr.
  - injection Hr as -> ->. by apply range_first_Some in Hf as [Hk _].
  - by apply range_last_Some in Hr as [Hk _].
Qed.

Lemma get_random_None tbl pivot coin : get_random tbl pivot coin = None ↔ tbl = ∅.
Proof.
  unfold get_random. split.
  - intros Hr. apply map_empty. intros k. destruct (tbl !! k) as [v|] eqn:Hk; [|done]. exfalso.
    assert (∀ P Q : K → bool, P k || Q k = true →
      match range_first P tbl with Some k => Some k | None => range_last Q tbl end = None → False) as Hno.
    { intros P Q HPQ Hm. destruct (range_first P tbl) eqn:HP; [done|].
      rewrite range_first_None in HP. rewrite range_last_None in Hm. by rewrite (HP k v Hk), (Hm k v Hk) in HPQ. }
    destruct coin; eapply Hno; [|exact Hr| |exact Hr]; rewrite (rg_split pivot k); by destruct (rg_from pivot k).
  - intros ->. assert (∀ P, range_first P (∅ : gmap K V) = None ∧ range_last P (∅ : gmap K V) = None) as He.
    { intros P. split; [apply range_first_None|apply range_last_None]; intros k v Hk; by rewrite lookup_empty in Hk. }
    destruct coin; [rewrite (proj1 (He (rg_from pivot)))|rewrite (proj1 (He (rg_to pivot)))]; done.
Qed.
End Random.

(** [get_random] finds an entry exactly when the table has one.  With the coin
    up it is the first entry from the pivot on, else the last entry: every entry
    is found from its own key.  With the coin down the ranges are swapped: it is
    the first or the last entry of the whole table, whatever the pivot is. *)
Theorem get_random_spec {V} (tbl : gmap N V) (pivot : N) :
  (∀ coin, get_random tbl pivot coin = None ↔ tbl = ∅) ∧
  (∀ coin k v, get_random tbl pivot coin = Some (k, v) → tbl !! k = Some v) ∧
  (∀ k v, tbl !! k = Some v → get_random tbl k true = Some (k, v)) ∧
  (∀ k v, get_random tbl pivot false = Some (k, v) →
     (∀ k', is_Some (tbl !! k') → (k ≤ k')%N) ∨ (∀ k', is_Some (tbl !! k') → (k' ≤ k)%N)).
Proof.
  split_and!; intros *; [apply get_random_None|apply get_random_elem|..].
  - intros Hk. unfold get_random.
    assert (range_first (rg_from k) tbl = Some (k, v)) as ->; [|done].
    apply range_first_Some. split_and!; [done|by apply rg_from_N|]. by intros k' v' _ ?%rg_from_N.
  - unfold get_random. destruct (range_first (rg_to pivot) tbl) as [[k1 v1]|] eqn:Hf.
    + intros [= -> ->]. left. intros k' [v' Hk']. apply range_first_Some in Hf as (_ & Hp%rg_to_N & Hmin).
      destruct (decide (k' < pivot)%N) as [Hlt|]; [|lia]. by apply (Hmin k' v' Hk'), rg_to_N.
    + intros Hl. right. intros k' [v' Hk']. apply range_last_Some in Hl as (_ & _ & Hmax).
      apply (Hmax k' v' Hk'). rewrite range_first_None in Hf. specialize (Hf k' v' Hk').
      by rewrite rg_split, negb_false_iff in Hf.
Qed.

(** ** Operations *)
Section Addresses.
Context `{Crypto} `{Hashable AddressUpdate.t}.
Implicit Types (db : AddrDb) (pk : PeerPubkey) (update : Signed AddressUpdate.t).

Abbreviation timestamp_of u := (AddressUpdate.timestamp (signed_inner u)).
Abbreviation pubkey_of u := (AddressUpdate.peer_pubkey (signed_inner u)).

Definition newer update (existing : option (Signed AddressUpdate.t)) : bool :=
  match existing with
  | Some existing => negb (timestamp_of update <=? timestamp_of existing)%N
  | None => true
  end.
(** [Node::handle_address_update] *)
Definition handle_address_update db update : outcome InvalidSignatureError AddrDb :=
  let peer_pubkey := pubkey_of update in
  _ ← verify_signature (signed_inner update) peer_pubkey (sig update);
  Ok (if newer update (peer_addresses db !! peer_pubkey)
      then set_peer_addresses (<[peer_pubkey := update]> (peer_addresses db)) db
      else db).

(** [get_own_address_update], [insert_own_address_update]; [secret] is the peer
    key of a node with a root secret, [addr] the id of its endpoint. *)
Definition get_own_address_update (now : N) (secret : option N) (addr : N) : option (Signed AddressUpdate.t) :=
  (λ seckey, new_sign (AddressUpdate.mk now (ed25519_pubkey seckey) (Iroh addr)) seckey) <$> secret.
Definition insert_own_address_update (now : N) (secret : option N) (addr : N) db : outcome InvalidSignatureError AddrDb :=
  match get_own_address_update now secret addr with
  | Some update => handle_address_update db update
  | None => Ok db
  end.

(** [get_peer_addr]: an address that is missing is tracked. *)
Definition get_peer_addr pk db : option (Signed AddressUpdate.t) * AddrDb :=
  match peer_addresses db !! pk with
  | Some existing => (Some existing, db)
  | None => (None, set_we_track (<[pk := ()]> (peer_addresses_we_track db)) db)
  end.

(** [mark_peer_addr_as_needed]; [self_pubkey] is the node's own key. *)
Definition mark_peer_addr_as_needed (self_pubkey : option PeerPubkey) pk db : AddrDb :=
  if decide (Some pk = self_pubkey) then db
  else set_we_need (<[pk := ()]> (peer_addresses_we_need db)) db.

(** The random numbers that a pick draws. *)
Record Draws := MkDraws { pivot1 : PeerPubkey; coin1 : bool; pivot2 : PeerPubkey; coin2 : bool }.

(** [pick_pull_need_gossip_pair]: the address to refresh and the peer to query.
    The transaction commits whatever it returns. *)
Definition pick_pull_need_gossip_pair (r : Draws) db : option (PeerPubkey * PeerPubkey) * AddrDb :=
  match get_random (peer_addresses_we_need db) (pivot1 r) (coin1 r) with
  | None => (None, db)
  | Some (peer_pubkey_to_refresh, _) =>
      let db := set_we_need (delete peer_pubkey_to_refresh (peer_addresses_we_need db)) db in
      match get_random (peer_addresses db) (pivot2 r) (coin2 r) with
      | None => (None, db)
      | Some (peer_pubkey_to_query, _) => (Some (peer_pubkey_to_refresh, peer_pubkey_to_query), db)
      end
  end.

(** [pick_push_gossip_pair]: the peer to send to and the address to send. *)
Definition pick_push_gossip_pair (r : Draws) db : option (PeerPubkey * Signed AddressUpdate.t) :=
  match get_random (peer_addresses db) (pivot1 r) (coin1 r) with
  | None => None
  | Some (peer_pubkey_1, _) =>
      match get_random (peer_addresses db) (pivot2 r) (coin2 r) with
      | None => None
      | Some (_, v) => Some (peer_pubkey_1, v)
      end
  end.

(** One turn of [run_push_gossip]: what is sent to whom. *)
Definition run_push_gossip (self_pubkey : option PeerPubkey) (r : Draws) db : option (PeerPubkey * Signed AddressUpdate.t) :=
  '(peer_pubkey, address_update) ← pick_push_gossip_pair r db;
  if decide (Some peer_pubkey = self_pubkey) then None
  else if decide (peer_pubkey = pubkey_of address_update) then None
  else Some (peer_pubkey, address_update).

(** [rpc::get_peer_address]: the [response] to a request for the address of
    [peer_pubkey] has to be about this key, and signed by it. *)
Definition checked_address (peer_pubkey : PeerPubkey) (response : option (Signed AddressUpdate.t)) :
    outcome string (option (Signed AddressUpdate.t)) :=
  match response with
  | Some update =>
      if decide (pubkey_of update = peer_pubkey) then
        _ ← map_err (λ _, "Invalid address update signature"%string) (verify_sig_peer_pubkey update peer_pubkey);
        Ok (Some update)
      else Err "Mismatched peer_pubkey"
  | None => Ok None
  end.

(** [query_peer_address]: [connected] when the peer to ask could be reached (what
    [connect] does to the tables is a step of its own), [response] what it
    answered. *)
Definition query_peer_address (peer_pubkey_to_check : PeerPubkey) (connected : bool)
    (response : option (Signed AddressUpdate.t)) db : outcome string AddrDb :=
  if connected then
    update ← checked_address peer_pubkey_to_check response;
    match update with
    | Some update => map_err (λ _, "Invalid signature"%string) (handle_address_update db update)
    | None => Ok db
    end
  else Err "Failed to connect".
(** One turn of [run_pull_gossip]: a failed query is logged. *)
Definition run_pull_gossip (self_pubkey : option PeerPubkey) (r : Draws) (connected : bool)
    (response : option (Signed AddressUpdate.t)) db : outcome Empty_set AddrDb :=
  match pick_pull_need_gossip_pair r db with
  | (None, db) => Ok db
  | (Some (peer_pubkey_to_refresh, peer_pubkey_to_query), db) =>
      if decide (Some peer_pubkey_to_query = self_pubkey) then Ok db
      else match query_peer_address peer_pubkey_to_refresh connected response db with
           | Ok db' => Ok db'
           | Err _ => Ok db
           | Panic w => Panic w
           end
  end.

(** The handlers of the server ([rpc_server.rs]): [handle_push_peer_addr_update],
    [handle_get_peer_addr_update]. *)
Definition handle_push_peer_addr_update db update : outcome Empty_set AddrDb :=
  match handle_address_update db update with
  | Ok db' => Ok db'
  | Err _ => Ok db
  | Panic w => Panic w
  end.
Definition handle_get_peer_addr_update db (req : PeerPubkey) : option (Signed AddressUpdate.t) * AddrDb :=
  get_peer_addr req db.

(** ** Connections ([ConnectionPool::connect])

    [node_id_of] is [iroh::NodeId::from_bytes]; a pool maps endpoints to
    connections, [dial] is what [endpoint.connect] returns. *)
Section Pool.
Context {NodeId Connection : Type} `{Countable NodeId}.
Variable node_id_of : N → option NodeId.
Variable close_reason : Connection → option ().

Inductive ConnectError := IrohConnect | NodeRefGone | AddressResolve | UnknownPeer (peer_pubkey : PeerPubkey).

(** [get_peer_iroh_addr] *)
Definition get_peer_iroh_addr pk db : outcome string (option NodeId) * AddrDb :=
  match get_peer_addr pk db with
  | (None, db) => (Ok None, db)
  | (Some update, db) =>
      (match AddressUpdate.addr (signed_inner update) with
       | Iroh addr => match node_id_of addr with
                      | Some id => Ok (Some id)
                      | None => Err "Invalid iroh nodeId"
                      end
       end, db)
  end.

Definition connect (self_pubkey : option PeerPubkey) (node_alive : bool) (dial : NodeId → option Connection)
    pk (pool : gmap NodeId Connection) db : outcome ConnectError Connection * gmap NodeId Connection * AddrDb :=
  match get_peer_iroh_addr pk db with
  | (Err _, db) => (Err AddressResolve, pool, db)
  | (Panic w, db) => (Panic w, pool, db)
  | (Ok None, db) => (Err (UnknownPeer pk), pool, db)
  | (Ok (Some node_id), db) =>
      let fresh :=
        if node_alive then
          match dial node_id with
          | Some conn => (Ok conn, <[node_id := conn]> pool, db)
          | None => (Err IrohConnect, pool, mark_peer_addr_as_needed self_pubkey pk db)
          end
        else (Err NodeRefGone, pool, db) in
      match pool !! node_id with
      | Some conn => match close_reason conn with Some _ => fresh | None => (Ok conn, pool, db) end
      | None => fresh
      end
  end.
End Pool.

(** ** What the table holds *)
Definition genuine update : Prop :=
  verify_signature (signed_inner update) (pubkey_of update) (sig update) = Ok ().

Lemma handle_address_update_Ok db update db' :
  handle_address_update db update = Ok db' ↔
  genuine update ∧
  db' = (if newer update (peer_addresses db !! pubkey_of update)
         then set_peer_addresses (<[pubkey_of update := update]> (peer_addresses db)) db else db).
Proof.
  unfold handle_address_update, genuine. destruct (verify_signature _ _ _) as [[]|e|w]; cbn; naive_solver.
Qed.

(** Addresses are stored under their own key with a valid signature; the
    addresses that are needed are known, and the own one is not among them. *)
Record addr_wf (self_pubkey : option PeerPubkey) db : Prop := {
  aw_genuine : ∀ pk u, peer_addresses db !! pk = Some u → pubkey_of u = pk ∧ genuine u;
  aw_needed : ∀ pk, is_Some (peer_addresses_we_need db !! pk) → is_Some (peer_addresses db !! pk) ∧ Some pk ≠ self_pubkey;
}.

(** No address is replaced by one that is not newer. *)
Definition only_newer db db' : Prop := ∀ pk u, peer_addresses db !! pk = Some u →
  ∃ u', peer_addresses db' !! pk = Some u' ∧ (u' = u ∨ (timestamp_of u < timestamp_of u')%N).

Lemma only_newer_refl db db' : peer_addresses db' = peer_addresses db → only_newer db db'.
Proof. intros Heq pk u. rewrite Heq. eauto. Qed.
Lemma only_newer_trans db1 db2 db3 : only_newer db1 db2 → only_newer db2 db3 → only_newer db1 db3.
Proof.
  intros H12 H23 pk u Hu. destruct (H12 pk u Hu) as (u2 & Hu2 & Hlt2). destruct (H23 pk u2 Hu2) as (u3 & Hu3 & Hlt3).
  exists u3. split; [done|]. destruct Hlt2 as [->|], Hlt3 as [->|]; auto. right. lia.
Qed.

Lemma wf_handle self db update db' :
  handle_address_update db update = Ok db' → addr_wf self db → addr_wf self db' ∧ only_newer db db'.
Proof.
  intros [Hg ->]%handle_address_update_Ok [Hwf Hneed]. destruct (newer _ _) eqn:Hn; [|by split; [|apply only_newer_refl]].
  split; [split|]; cbn.
  - intros pk u [[<- <-]|[_ Hu]]%lookup_insert_Some; [done|by apply Hwf].
  - intros pk [[u Hu] Hne]%Hneed. split; [|done]. apply lookup_insert_is_Some.
    destruct (decide (pubkey_of update = pk)); [by left|right; eauto].
  - intros pk u Hu. destruct (decide (pubkey_of update = pk)) as [<-|Hne].
    + exists update. split; [apply lookup_insert_eq|right]. rewrite Hu in Hn. cbn in Hn.
      apply negb_true_iff, N.leb_gt in Hn. done.
    + exists u. cbn. rewrite lookup_insert_ne by done. auto.
Qed.

Lemma wf_same self db db' :
  peer_addresses db' = peer_addresses db → (∀ pk, is_Some (peer_addresses_we_need db' !! pk) →
    is_Some (peer_addresses_we_need db !! pk) ∨ (is_Some (peer_addresses db !! pk) ∧ Some pk ≠ self)) →
  addr_wf self db → addr_wf self db' ∧ only_newer db db'.
Proof.
  intros Heq Hneed [Hwf Hn]. split; [|by apply only_newer_refl].
  split; rewrite Heq; [done|]. intros pk [Hpk|Hpk]%Hneed; [by apply Hn|done].
Qed.

Lemma wf_get_peer_addr self pk db : addr_wf self db →
  addr_wf self (get_peer_addr pk db).2 ∧ only_newer db (get_peer_addr pk db).2.
Proof.
  unfold get_peer_addr. intros Hwf.
  destruct (peer_addresses db !! pk); apply wf_same; try done; by left.
Qed.

Lemma wf_pick self r db : addr_wf self db →
  addr_wf self (pick_pull_need_gossip_pair r db).2 ∧ only_newer db (pick_pull_need_gossip_pair r db).2.
Proof.
  intros Hwf. unfold pick_pull_need_gossip_pair.
  destruct (get_random (peer_addresses_we_need db) _ _) as [[k []]|]; [|by apply wf_same; [|left|]].
  destruct (get_random _ _ _) as [[k' v']|]; (apply wf_same; [done| |done]); cbn;
    intros pk [x [_ Hx]%lookup_delete_Some]; left; eauto.
Qed.

(** The operations on the tables. *)
Inductive astep (self_pubkey : option PeerPubkey) : AddrDb → AddrDb → Prop :=
  | AReceive db update db' : handle_push_peer_addr_update db update = Ok db' → astep self_pubkey db db'
  | AAsked db req : astep self_pubkey db (handle_get_peer_addr_update db req).2
  | AOwn db now secret addr db' :
      insert_own_address_update now secret addr db = Ok db' → astep self_pubkey db db'
  | AConnect {NodeId Connection} `{Countable NodeId} node_id_of (close_reason : Connection → option ()) alive dial pk
      (pool : gmap NodeId Connection) db :
      astep self_pubkey db (connect node_id_of close_reason self_pubkey alive dial pk pool db).2
  | APull db r connected response db' :
      run_pull_gossip self_pubkey r connected response db = Ok db' → astep self_pubkey db db'.

Lemma wf_connect {NodeId Connection} `{Countable NodeId} node_id_of (close_reason : Connection → option ())
    self alive dial pk (pool : gmap NodeId Connection) db :
  addr_wf self db →
  addr_wf self (connect node_id_of close_reason self alive dial pk pool db).2 ∧
  only_newer db (connect node_id_of close_reason self alive dial pk pool db).2.
Proof.
  intros Hwf. unfold connect, get_peer_iroh_addr. pose proof (wf_get_peer_addr self pk db Hwf) as [Hwf1 Hn1].
  assert (∀ u, (get_peer_addr pk db).1 = Some u → is_Some (peer_addresses (get_peer_addr pk db).2 !! pk)) as Hknown.
  { unfold get_peer_addr. destruct (peer_addresses db !! pk) eqn:Hpk; cbn; [|done]. rewrite Hpk. eauto. }
  destruct (get_peer_addr pk db) as [[u|] db1]; cbn [fst snd] in *; [|done].
  destruct (AddressUpdate.addr (signed_inner u)) as [addr]. destruct (node_id_of addr) as [id|]; [|done].
  cbv zeta.
  assert (∀ x : outcome ConnectError Connection * gmap NodeId Connection * AddrDb,
    x = (if alive then match dial id with
           | Some conn => (Ok conn, <[id := conn]> pool, db1)
           | None => (Err IrohConnect, pool, mark_peer_addr_as_needed self pk db1)
           end else (Err NodeRefGone, pool, db1)) →
    addr_wf self x.2 ∧ only_newer db x.2) as Hfresh.
  { intros x ->. destruct alive; [|done]. destruct (dial id); [done|]. cbn. unfold mark_peer_addr_as_needed.
    destruct (decide (Some pk = self)) as [|Hne]; [done|].
    edestruct (wf_same self db1 (set_we_need (<[pk := ()]> (peer_addresses_we_need db1)) db1)) as [Hwf2 Hn2];
      [done| |done|split; [done|by eapply only_newer_trans]].
    cbn. intros pk'. intros [x Hx]. apply lookup_insert_Some in Hx as [[<- _]|[_ Hx]]; [right|left; eauto].
    split; [by eapply Hknown|done]. }
  destruct (pool !! id) as [conn|]; [destruct (close_reason conn)|]; try done; by apply Hfresh.
Qed.

Lemma astep_wf self db db' :
  astep self db db' → addr_wf self db → addr_wf self db' ∧ only_newer db db'.
Proof.
  intros Hs Hwf. destruct Hs as [db u db' Hp|db req|db now secret addr db' Hp|NI Conn ? ? ? ? alive dial pk pool db
    |db r connected response db' Hp].
  - unfold handle_push_peer_addr_update in Hp. destruct (handle_address_update db u) as [d|e|w] eqn:Hu; [|..|done].
    + injection Hp as <-. by eapply wf_handle.
    + injection Hp as <-. by split; [|apply only_newer_refl].
  - by apply wf_get_peer_addr.
  - unfold insert_own_address_update in Hp. destruct (get_own_address_update now secret addr) as [u|].
    + by eapply wf_handle.
    + injection Hp as <-. by split; [|apply only_newer_refl].
  - by apply wf_connect.
  - unfold run_pull_gossip in Hp. pose proof (wf_pick self r db Hwf) as [Hwf1 Hn1].
    destruct (pick_pull_need_gossip_pair r db) as [[[k1 k2]|] db1]; cbn in *; [|by injection Hp as <-].
    case_decide; [by injection Hp as <-|]. unfold query_peer_address in Hp.
    destruct connected; [|by injection Hp as <-].
    destruct (checked_address k1 response) as [[u|]|e|w]; cbn in Hp; [|by injection Hp as <-..|done].
    destruct (handle_address_update db1 u) as [d|e|w] eqn:Hu; cbn in Hp; [|by injection Hp as <-|done]. injection Hp as <-.
    destruct (wf_handle self db1 u d Hu Hwf1) as [Hwf2 Hn2]. split; [done|by eapply only_newer_trans].
Qed.

(** C36: The table of addresses is well-formed, whatever other nodes send: an
    entry is an update about its own key that is validly signed by that key, and
    is only ever replaced by a newer one.  A node never needs its own address,
    and it only needs addresses that it has: those it could not connect to.  An
    address it does not know is tracked, and never asked for. *)
Theorem addresses_wf_kept self db db' :
  astep self db db' → addr_wf self db → addr_wf self db' ∧ only_newer db db'.
Proof. apply astep_wf. Qed.

(** ** Gossip *)

(** A node that gets the updates [l], in that order. *)
Definition receive db update : AddrDb :=
  match handle_push_peer_addr_update db update with Ok db' => db' | _ => db end.
Definition receive_all db (l : list (Signed AddressUpdate.t)) : AddrDb := foldl receive db l.

Definition about pk update : Prop := pubkey_of update = pk ∧ genuine update.

Lemma receive_cases db update pk :
  peer_addresses (receive db update) !! pk = peer_addresses db !! pk ∧
    (about pk update → ∃ u, peer_addresses db !! pk = Some u ∧ (timestamp_of update ≤ timestamp_of u)%N)
  ∨ about pk update ∧ peer_addresses (receive db update) !! pk = Some update ∧
    (∀ u, peer_addresses db !! pk = Some u → (timestamp_of u < timestamp_of update)%N).
Proof.
  unfold receive, handle_push_peer_addr_update.
  destruct (handle_address_update db update) as [db'|e|w] eqn:Hu.
  - apply handle_address_update_Ok in Hu as [Hg ->].
    destruct (peer_addresses db !! pubkey_of update) as [u|] eqn:Hold; unfold newer.
    + destruct (timestamp_of update <=? timestamp_of u)%N eqn:Hle; cbn.
      * apply N.leb_le in Hle. left. split; [done|]. intros [<- _]. eauto.
      * apply N.leb_gt in Hle. destruct (decide (pubkey_of update = pk)) as [<-|Hne].
        -- right. rewrite Hold, lookup_insert_eq. split_and!; [done|done|]. by intros ? [= <-].
        -- left. rewrite lookup_insert_ne by done. split; [done|]. by intros [? _].
    + cbn. destruct (decide (pubkey_of update = pk)) as [<-|Hne].
      * right. rewrite Hold, lookup_insert_eq. done.
      * left. rewrite lookup_insert_ne by done. split; [done|]. by intros [? _].
  - left. split; [done|]. intros [_ Hg]. unfold handle_address_update in Hu. by rewrite Hg in Hu.
  - left. split; [done|]. intros [_ Hg]. unfold handle_address_update in Hu. by rewrite Hg in Hu.
Qed.

(** The entry of [pk] is one of the updates, and none is newer. *)
Lemma receive_all_spec db l pk :
  let r := peer_addresses (receive_all db l) !! pk in
  (r = peer_addresses db !! pk ∨ ∃ u, u ∈ l ∧ about pk u ∧ r = Some u) ∧
  (∀ u, (u ∈ l ∧ about pk u) ∨ peer_addresses db !! pk = Some u →
     ∃ v, r = Some v ∧ (timestamp_of u ≤ timestamp_of v)%N).
Proof.
  cbv zeta. revert db. induction l as [|u l IH]; intros db.
  - split; [by left|]. intros u [[Hu _]|Hu]; [by apply not_elem_of_nil in Hu|]. exists u. done.
  - cbn [receive_all foldl] in *. destruct (IH (receive db u)) as [Hone Hnewest]. fold (receive_all (receive db u) l).
    destruct (receive_cases db u pk) as [[Heq Hold]|(Habout & Hnew & Hlt)].
    + rewrite Heq in Hone, Hnewest. split.
      * destruct Hone as [?|(v & ? & ? & ?)]; [by left|right]. exists v. split_and!; [by right|done..].
      * intros v [[[->|Hv]%elem_of_cons Ha]|Hv]; [|by apply Hnewest; left|by apply Hnewest; right].
        destruct (Hold Ha) as (v' & Hv' & Hle). destruct (Hnewest v' (or_intror Hv')) as (x & ? & ?).
        exists x. split; [done|lia].
    + rewrite Hnew in Hone, Hnewest. split.
      * right. destruct Hone as [?|(v & ? & ? & ?)]; [exists u|exists v]; (split_and!; [|done..]); [by left|by right].
      * destruct (Hnewest u (or_intror eq_refl)) as (x & Hx & Hle).
        intros v [[[->|Hv]%elem_of_cons Ha]|Hv]; [eauto|by apply Hnewest; left|]. specialize (Hlt v Hv).
        exists x. split; [done|lia].
Qed.

(** C35: Gossip converges: two nodes that got the same updates, in any order and
    any number of times, and invalid ones among them, hold the same addresses,
    provided that no peer signed two different updates with the same time. *)
Theorem gossip_converges l1 l2 :
  (∀ u, u ∈ l1 ↔ u ∈ l2) →
  (∀ pk u v, u ∈ l1 → v ∈ l1 → about pk u → about pk v → timestamp_of u = timestamp_of v → u = v) →
  peer_addresses (receive_all (MkAddrDb ∅ ∅ ∅) l1) = peer_addresses (receive_all (MkAddrDb ∅ ∅ ∅) l2).
Proof.
  intros Hsame Hdistinct. apply map_eq. intros pk.
  destruct (receive_all_spec (MkAddrDb ∅ ∅ ∅) l1 pk) as [Hone1 Hnew1].
  destruct (receive_all_spec (MkAddrDb ∅ ∅ ∅) l2 pk) as [Hone2 Hnew2].
  cbn [peer_addresses] in *. rewrite lookup_empty in *.
  destruct Hone1 as [Hr1|(u1 & Hu1 & Ha1 & Hr1)], Hone2 as [Hr2|(u2 & Hu2 & Ha2 & Hr2)]; [by rewrite Hr1, Hr2|..].
  - destruct (Hnew1 u2) as (v & Hv & _); [left; split; [by apply Hsame|done]|]. by rewrite Hr1 in Hv.
  - destruct (Hnew2 u1) as (v & Hv & _); [left; split; [by apply Hsame|done]|]. by rewrite Hr2 in Hv.
  - destruct (Hnew1 u2) as (v & Hv & Hle1); [left; split; [by apply Hsame|done]|].
    destruct (Hnew2 u1) as (v' & Hv' & Hle2); [left; split; [by apply Hsame|done]|].
    rewrite Hr1 in Hv. rewrite Hr2 in Hv'. injection Hv as <-. injection Hv' as <-. rewrite Hr1, Hr2. f_equal.
    apply (Hdistinct pk); [done|by apply Hsame|done|done|lia].
Qed.
End Addresses.

(** ** Concrete updates *)
Section Witnesses.
Local Existing Instance Toy.crypto.
Local Instance toy_address_hashable : Hashable AddressUpdate.t := λ u,
  [AddressUpdate.timestamp u; AddressUpdate.peer_pubkey u; match AddressUpdate.addr u with Iroh a => a end].

Definition toy_update (sk timestamp addr : N) : Signed AddressUpdate.t :=
  new_sign (AddressUpdate.mk timestamp (ed25519_pubkey sk) (Iroh addr)) sk.
Definition forged_update : Signed AddressUpdate.t :=
  MkSigned (AddressUpdate.mk 9 (ed25519_pubkey 3) (Iroh 66)) 1%N.

(** Node 1 learns the address of the peer of key 3, and cannot connect to it. *)
Definition learned : AddrDb := receive (MkAddrDb ∅ ∅ ∅) (toy_update 3 5 70).
Definition not_connected : AddrDb :=
  (connect (NodeId:=N) (Connection:=()) Some (λ _, None) (Some 1%N) true (λ _, None) (ed25519_pubkey 3) ∅ learned).2.

Lemma addresses_wf_kept_witness :
  peer_addresses_we_need not_connected !! ed25519_pubkey 3 = Some () ∧ addr_wf (Some 1%N) not_connected.
Proof.
  split; [vm_compute; reflexivity|].
  assert (addr_wf (Some 1%N) (MkAddrDb ∅ ∅ ∅)) as Hempty
    by (split; intros pk; cbn; rewrite lookup_empty; [discriminate|by intros [? ?]]).
  destruct (addresses_wf_kept (Some 1%N) (MkAddrDb ∅ ∅ ∅) learned) as [Hl _].
  - apply (AReceive _ _ (toy_update 3 5 70)). vm_compute. reflexivity.
  - exact Hempty.
  - destruct (addresses_wf_kept (Some 1%N) learned not_connected) as [Hn _]; [|exact Hl|exact Hn].
    exact (AConnect _ Some (λ _ : (), None) true (λ _, None) (ed25519_pubkey 3) ∅ learned).
Defined.

(** The newest valid update wins in both orders. *)
Definition updates : list (Signed AddressUpdate.t) :=
  [toy_update 3 5 70; forged_update; toy_update 3 8 71; toy_update 2 6 72].

Lemma gossip_converges_witness :
  peer_addresses (receive_all (MkAddrDb ∅ ∅ ∅) updates) !! ed25519_pubkey 3 = Some (toy_update 3 8 71) ∧
  peer_addresses (receive_all (MkAddrDb ∅ ∅ ∅) updates)
    = peer_addresses (receive_all (MkAddrDb ∅ ∅ ∅) (toy_update 3 8 71 :: reverse updates)).
Proof.
  split; [vm_compute; reflexivity|]. apply gossip_converges.
  - intros u. rewrite elem_of_cons, elem_of_reverse. split; [by right|]. intros [->|Hu]; [|exact Hu].
    right; right; left.
  - intros pk u v Hu Hv _ _ Ht. unfold updates in *.
    repeat (apply elem_of_cons in Hu as [->|Hu]); try (by apply not_elem_of_nil in Hu);
    repeat (apply elem_of_cons in Hv as [->|Hv]); try (by apply not_elem_of_nil in Hv);
      first [reflexivity|vm_compute in Ht; discriminate].
Defined.
End Witnesses.
