(* ===== verification/ConsFinal.v ===== *)
(** * The stored and the announced finality consensus

    The database keeps the finality consensus, and a watch channel announces it.
    The two differ when the consensus goes back: it is stored, and not announced
    ([recalculate_finality_consensus_tx]).  What is stored is never above what is
    announced. *)
From S2P Require Import Prelude VoteSet Peers Core Db ConsDb ConsInv Consensus ConsRound ConsSteps ConsSpec.

Section Final.
Context `{Crypto} `{Bincode}.
Implicit Types (w : Watches) (s : TxState ConsDb Hook) (c : Consensus).

Definition fin_ok w s : Prop :=
  (default 0 (cons_finality_consensus (tx_db s)) ≤ finality_consensus (foldl run_hook w (tx_hooks s)))%N.
(** Every run that succeeds keeps it. *)
Definition tracks {E A} (m : CTx E A) : Prop := ∀ w s, fin_ok w s → wp false m (λ _ s', fin_ok w s') s.

Lemma tracks_bind {E A B} (m : CTx E A) (f : A → CTx E B) :
  tracks m → (∀ a, tracks (f a)) → tracks (m ≫= f).
Proof. intros Hm Hf w s Hs. apply wp_bind. eapply wp_mono; [by apply Hm|]. intros a s' Hs'. by apply Hf. Qed.
Lemma tracks_ret {E A} (a : A) : tracks (E:=E) (mret a).
Proof. intros w s Hs. by apply wp_ret. Qed.
Lemma tracks_read {E A} (m : Rd ConsDb E A) : tracks (tx_read m).
Proof. intros w s Hs. by apply wp_read. Qed.
Lemma tracks_lift {E A} (o : outcome E A) : tracks (tx_lift o).
Proof. apply tracks_read. Qed.
Lemma tracks_fail {E A} (e : E) : tracks (tx_fail (A:=A) e).
Proof. intros w s _. apply wp_fail. Qed.
Lemma tracks_panic {E A} why : tracks (tx_panic (E:=E) (A:=A) why).
Proof. intros w s _. by apply wp_panic. Qed.
Lemma tracks_into {E E2 A} (f : E → E2) (m : CTx E A) : tracks m → tracks (tx_into f m).
Proof. intros Hm w s Hs. apply wp_into. by apply Hm. Qed.
Lemma tracks_modify {E} f :
  (∀ d, cons_finality_consensus (f d) = cons_finality_consensus d) → tracks (E:=E) (tx_modify f).
Proof. intros Hf w s Hs. apply wp_modify. unfold fin_ok. cbn. by rewrite Hf. Qed.
Lemma tracks_on_commit {E} h :
  (∀ w, finality_consensus (run_hook w h) = finality_consensus w) → tracks (E:=E) (on_commit h).
Proof. intros Hh w s Hs. apply wp_on_commit. unfold fin_ok. cbn. rewrite foldl_app. cbn. by rewrite Hh. Qed.

Create HintDb tracks discriminated.
Hint Resolve tracks_ret tracks_read tracks_lift tracks_fail tracks_panic : tracks.
Ltac tracks_step :=
  match goal with
  | |- tracks (mbind _ _) => apply tracks_bind; [|intros]
  | |- tracks (let _ := _ in _) => cbv zeta
  | |- tracks (match ?x with _ => _ end) => destruct x
  | |- tracks _ => solve [auto with tracks]
  | |- tracks (tx_into _ _) => apply tracks_into
  | |- tracks (tx_modify _) => apply tracks_modify; done
  | |- tracks (on_commit _) => apply tracks_on_commit; intros; cbn; by repeat case_match
  end.

(** The new consensus is stored; it is announced unless it is below the one
    stored before. *)
Lemma tracks_recalculate {E} k : tracks (recalculate_finality_consensus_tx (E:=E) k).
Proof.
  unfold recalculate_finality_consensus_tx, update_finality_consensus, prune_dummy_votes.
  do 4 (tracks_step; [tracks_step|]). intros w s Hs. do 4 wp_step. cbv zeta.
  unfold fin_ok in *. set (prev := default 0%N (cons_finality_consensus (tx_db s))) in *.
  assert ((if (a2 <? prev)%N then prev else a2) = N.max a2 prev) as Hmax
    by (destruct (N.ltb_spec a2 prev); lia).
  repeat first [wp_step|case_decide as Hsame; cbn in Hsame; fold prev in Hsame; rewrite Hmax in Hsame];
    cbn in *; rewrite ?foldl_app; cbn; fold prev; rewrite ?Hmax; lia.
Qed.

Lemma tracks_finality {E} k pk v : tracks (update_peer_finality_vote_round (E:=E) k pk v).
Proof.
  unfold update_peer_finality_vote_round, update_finality_vote. repeat first [apply tracks_recalculate|tracks_step].
Qed.

Lemma tracks_insert_notarized {E} r b payload : tracks (insert_notarized_block (Hk:=Hook) (E:=E) r b payload).
Proof. unfold insert_notarized_block. repeat tracks_step. Qed.

Lemma tracks_loop fuel start h k last : tracks (check_round_end_loop fuel start h k last).
Proof.
  revert k last. induction fuel as [|fuel IH]; intros k last; cbn [check_round_end_loop]; [by repeat tracks_step|].
  unfold check_pinned, check_dummy_votes.
  repeat first [apply IH|apply tracks_insert_notarized|tracks_step].
Qed.

Lemma tracks_check_round_end our k : tracks (check_round_end our k).
Proof.
  unfold check_round_end, set_current_round.
  repeat first [apply tracks_loop|apply tracks_finality|tracks_step].
Qed.

Lemma tracks_dummy_votes {E} r l : tracks (insert_dummy_votes (E:=E) r l).
Proof.
  induction l as [|[i s] l IH]; cbn [insert_dummy_votes]; unfold insert_dummy_vote;
    repeat first [apply IH|tracks_step].
Qed.
Lemma tracks_block_votes {E} r b l : tracks (insert_block_votes (E:=E) r b l).
Proof.
  induction l as [|[i s] l IH]; cbn [insert_block_votes]; unfold insert_block_vote;
    repeat first [apply IH|tracks_step].
Qed.

Lemma tracks_vote our i resp : tracks (process_vote_response_tx our i resp).
Proof.
  unfold process_vote_response_tx, process_proposal, process_vote, insert_block_proposal, insert_dummy_vote,
    insert_block_vote, notify_new_votes.
  repeat first [apply tracks_check_round_end|tracks_step].
Qed.

Lemma tracks_notarized our resp : tracks (process_notarized_block_response_tx our resp).
Proof.
  unfold process_notarized_block_response_tx, cons_insert_notarized_block, delete_notarized_block, notify_new_votes.
  repeat first [apply tracks_check_round_end|apply tracks_dummy_votes|apply tracks_block_votes
    |apply tracks_insert_notarized|tracks_step].
Qed.

(** ** Every state *)
Definition stored_le_announced c : Prop :=
  (default 0 (cons_finality_consensus (db c)) ≤ finality_consensus (watches c))%N.

Lemma write_tx_tracks {E A} c (f : CTx E A) :
  tracks f → stored_le_announced c → stored_le_announced (write_tx c f).2.
Proof.
  intros Hf Hc. pose proof (write_tx_spec false c f _ (Hf (watches c) (MkTx (db c) []) Hc)) as Hs.
  destruct (write_tx c f) as [[a|e|w] c']; cbn in *; [|by subst|by destruct Hs as [-> _]].
  destruct Hs as (hooks & Hok & Hw). unfold stored_le_announced. by rewrite Hw.
Qed.

Lemma open_tracks {E} k d our c : open_internal (E:=E) k d our = Ok c → stored_le_announced c.
Proof.
  intros Ho. unfold open_internal in Ho. destruct (open_watches (E:=E) k d) as [w| |] eqn:Hw; [|done..]. cbn in Ho.
  assert (tracks (open_internal_tx our k (finality_self_vote w))) as Ht.
  { unfold open_internal_tx. repeat first [apply tracks_finality|apply tracks_check_round_end|tracks_step]. }
  pose proof (write_tx_tracks (MkConsensus d our w) _ Ht) as Hgo.
  destruct (write_tx _ _) as [[[]|e|m] c']; [|done..]. injection Ho as <-. apply Hgo. unfold stored_le_announced. cbn.
  unfold open_watches in Hw. destruct (match prev_notarized k d with Some _ => _ | None => _ end); [|done..].
  by injection Hw as <-.
Qed.

(** A round that is stored as final is announced as final, although the stored
    value goes back at times. *)
Lemma stored_finality_announced c : reachable c → stored_le_announced c.
Proof.
  induction 1 as [params our pinned c Hwf Hi|c c' Hr IH Hs].
  - eapply open_tracks, init_is_internal, Hi.
  - pose proof (reachable_wf c Hr) as [[Hinv _ _] _].
    destruct Hs as [c i resp|c i resp Hlt|c pk resp|c round ts peers Hch|c our c' Ho].
    + by apply write_tx_tracks; [apply tracks_vote|].
    + by apply write_tx_tracks; [apply tracks_notarized|].
    + apply write_tx_tracks; [|done]. unfold process_finality_vote_update_response_tx.
      repeat first [apply tracks_finality|tracks_step].
    + apply write_tx_tracks; [|done]. unfold consensus_params_change_tx, insert_consensus_params.
      repeat tracks_step.
    + eapply open_tracks, open_is_internal, Ho. done.
Qed.

(** ** Errors

    The only error of [check_round_end] is that of a pinned block, and the first
    iteration of its loop does not look for one. *)
Lemma no_error_next {E} r : no_error (D:=ConsDb) (H:=Hook) (tx_lift (round_next_expect (E:=E) r)).
Proof. apply no_error_expect. Qed.
Lemma no_error_num_peers {E} p : no_error (D:=ConsDb) (H:=Hook) (tx_lift (num_peers (E:=E) p)).
Proof. apply no_error_lift. intros e. unfold num_peers, NumPeers.to_num_peers. by case_decide. Qed.
Lemma no_error_leader_idx {E} p r : no_error (D:=ConsDb) (H:=Hook) (tx_lift (leader_idx (E:=E) p r)).
Proof.
  apply no_error_lift. intros e. unfold leader_idx, num_peers, NumPeers.to_num_peers, block_round_leader_idx.
  case_decide; cbn; [|done]. by case_decide.
Qed.
Lemma no_error_params {E} r : no_error (H:=Hook) (tx_read (get_consensus_params (E:=E) r)).
Proof.
  apply no_error_read. intros d e.
  unfold get_consensus_params, get_consensus_params_opt, rd_get, rd_expect, expect, mbind, rd_bind.
  repeat first [done|case_match].
Qed.
Lemma no_error_proposal {E} r : no_error (H:=Hook) (tx_read (get_proposal (E:=E) r)).
Proof.
  apply no_error_read. intros d e. unfold get_proposal, rd_get, rd_lift, rassert, mbind, rd_bind.
  repeat first [done|case_match; cbn in *].
Qed.
Hint Resolve no_error_next no_error_num_peers no_error_leader_idx no_error_params no_error_proposal : keeps.

Lemma no_error_recalculate {E} k : no_error (recalculate_finality_consensus_tx (E:=E) k).
Proof.
  unfold recalculate_finality_consensus_tx, update_finality_consensus, prune_dummy_votes.
  no_error_step; [no_error_step|]. no_error_step; [no_error_step|]. no_error_step; [apply no_error_num_peers|].
  repeat no_error_step.
Qed.
Lemma no_error_finality {E} k pk v : no_error (update_peer_finality_vote_round (E:=E) k pk v).
Proof.
  unfold update_peer_finality_vote_round, update_finality_vote. repeat first [apply no_error_recalculate|no_error_step].
Qed.

Lemma no_error_dummy k p last needs :
  no_error (check_dummy_votes (λ _ _, tx_panic "loop bound of the model") k last p needs).
Proof. unfold check_dummy_votes, get_num_votes_dummy, get_vote_dummy. repeat no_error_step. Qed.

Lemma no_error_loop k h : no_error (check_round_end_loop 1%nat k h k None).
Proof.
  cbn [check_round_end_loop]. cbv zeta. unfold check_pinned. rewrite decide_True by done.
  unfold insert_notarized_block, get_num_votes_proposal.
  repeat first [apply no_error_dummy|no_error_step].
Qed.

Lemma check_round_end_no_error our k s e :
  check_round_end_fuel k (tx_db s) = 1%nat → check_round_end our k s ≠ Err e.
Proof.
  intros Hfuel. unfold check_round_end, get_prev_notarized_block.
  erewrite tx_read_run by done. erewrite tx_read_run by (unfold rd_get; by rewrite Hfuel).
  match goal with |- ?m s ≠ _ => assert (no_error m) as Hm; [|apply Hm] end.
  no_error_step; [apply no_error_loop|]. unfold set_current_round.
  repeat first [apply no_error_finality|no_error_step].
Qed.

(** A database without blocks and dummy votes can be opened. *)
Lemma open_internal_total {E} d our :
  Rest d → (cur_round_of d < u64_max)%N → cons_blocks_notarized d = ∅ → cons_blocks_proposals d = ∅ → cons_votes_dummy d = ∅ →
  ∃ c, open_internal (E:=E) (cur_round_of d) d our = Ok c.
Proof.
  intros Hrest Hlt Hn Hp Hv.
  assert (∀ k, prev_notarized k d = None) as Hprev.
  { intros k. apply prev_notarized_None. intros r b. rewrite Hn. by rewrite lookup_empty. }
  unfold open_internal, open_watches. rewrite Hprev. cbn [mbind outcome_bind].
  set (w := MkWatches _ _ _ _ _).
  pose proof (write_tx_spec true (MkConsensus d our w) _ _ (wp_open_internal_tx true our d (finality_self_vote w) Hrest (λ _, Hlt))) as Hs.
  destruct (write_tx _ _) as [[[]|e|m] c'] eqn:Hrun; cbn; [by exists c'| |by destruct Hs]. exfalso.
  assert (∀ e, open_internal_tx our (cur_round_of d) (finality_self_vote w) (MkTx d []) ≠ Err e) as Hne.
  { intros err. unfold open_internal_tx, mbind, tx_bind.
    assert (∀ d' hs, FinFrame d d' → check_round_end our (cur_round_of d) (MkTx d' hs) ≠ Err err) as Hend.
    { intros d' hs (x & y & z & -> & Hx). apply check_round_end_no_error. unfold check_round_end_fuel. cbn.
      assert (x = ∅) as -> by (apply (anti_symm (⊆)); [by rewrite <-Hv|apply map_empty_subseteq]).
      change (prev_notarized BlockRound_MAX _) with (prev_notarized BlockRound_MAX d). by rewrite Hprev, Hp. }
    destruct our as [pk|]; [|apply Hend, fin_frame_refl].
    pose proof (wp_update_peer_finality (E:=RoundInvariantError) false (cur_round_of d) pk (finality_self_vote w) (MkTx d [])
      (λ _ s', FinFrame d (tx_db s')) (rest_inv _ Hrest) (λ d' hs Hf _, Hf)) as Hwp.
    destruct (update_peer_finality_vote_round (E:=RoundInvariantError) _ _ _ _) as [[[] [d' hs]]|err'|m] eqn:Hu;
      [|by apply no_error_finality in Hu|done]. apply Hend. exact (wp_elim _ _ _ _ _ _ Hwp Hu). }
  unfold write_tx, write_with_expect_falliable, write_with_inner_falliable in Hrun. cbn [fst db watches] in Hrun.
  destruct (open_internal_tx _ _ _ _) as [[? ?]|err|m]; [done| |done]. by apply (Hne err).
Qed.

Lemma init_total params our pinned : params_wf params → ∃ c, init params empty_db our pinned = Ok c.
Proof.
  intros Hwf. rewrite init_runs. apply open_internal_total; [by apply init_db_rest|..]; by destruct pinned as [[]|].
Qed.
End Final.
