(* ===== verification/Rpc.v ===== *)
(** * Requests between nodes ([node/src/rpc_server.rs], [node/src/rpc.rs])

    The handlers of the server wait on the channels of the consensus until they
    can answer; the functions of the client check what they can of an answer.
    A handler that waits is a machine, like the delivery of blocks: between two of
    its steps the consensus may change.  The encoding of the messages and the
    connections are not modelled: a message arrives as it was sent, or not at
    all.  The handlers for addresses are in [PeerAddr]. *)
From S2P Require Import Prelude VoteSet Peers Core Db ConsDb ConsInv Consensus ConsRound ConsSteps ConsSpec ConsVotes ConsProps ConsFinal Module Ctrl NodeApp Node Network NetInv NetRun AppApi.

(** ** Messages *)
Record GetBlockRequest := MkGetBlockRequest { gb_round : BlockRound }.
Record GetBlockResponse := MkGetBlockResponse { gb_block : Notarized BlockHeader.t }.

(** What a handler does in a state of the consensus: send its answer, fail the
    request, or wait. *)
Inductive Served (A : Type) :=
  | Responds (a : A)
  | Fails (why : string)
  | Waits.
Arguments Responds {A} _.
Arguments Fails {A} _.
Arguments Waits {A}.

(** The stages of [handle_wait_vote]. *)
Inductive VoteStage :=
  (** the round of the request has to be reached *)
  | VoteOpen
  (** the loop, with the parameters of the round and our index in it *)
  | VotePoll (req_round_params : ConsensusParams.t) (peer_idx : PeerIdx)
  | VoteDone (served : Served WaitVoteResponse).

Section Rpc.
Context `{Crypto} `{Bincode} `{CItemsCodec}.
Implicit Types (c : Consensus) (self : Node) (pk : PeerPubkey).

(** ** The server *)

(** [handle_wait_vote_try], for the node with the key [peer_pubkey]; [None] while
    it waits. *)
Definition wait_vote_step (peer_pubkey : option PeerPubkey) (req : WaitVoteRequest) c (st : VoteStage) :
    outcome Empty_set (option VoteStage) :=
  let req_round := wv_round req in
  let cur_round := (current_round_with_timeout (watches c)).1 in
  match st with
  | VoteOpen =>
      match peer_pubkey with
      | None => Ok (Some (VoteDone (Fails "We have no peer pubkey")))
      | Some peer_pubkey =>
          if (req_round <=? cur_round)%N then
            req_round_params ← get_round_params c req_round;
            peer_idx ← find_peer_idx req_round_params peer_pubkey;
            match peer_idx with
            | Some peer_idx => Ok (Some (VotePoll req_round_params peer_idx))
            | None => Ok (Some (VoteDone (Fails "Not participating in this round")))
            end
          else Ok None
      end
  | VotePoll req_round_params peer_idx =>
      resp ← get_vote c req_round req_round_params peer_idx;
      let unavailable := if (req_round <? cur_round)%N then Some (VoteDone (Fails "Not available")) else None in
      match resp with
      | Some resp =>
          if negb (only_dummy req) || is_dummy (signed_inner (resp_block resp)) then Ok (Some (VoteDone (Responds resp)))
          else Ok unavailable
      | None => Ok unavailable
      end
  | VoteDone _ => Ok None
  end.

(** [handle_wait_finality_vote_try] *)
Definition handle_wait_finality_vote self (req_round : BlockRound) : outcome Empty_set (Served WaitFinalityVoteResponse) :=
  match peer_pubkey self with
  | None => Ok (Fails "We have no peer pubkey")
  | Some _ =>
      seckey ← get_peer_secret_expect self;
      let finality_self_vote := finality_self_vote (watches (node_consensus self)) in
      Ok (if (req_round <? finality_self_vote)%N
          then Responds (MkWaitFinalityVoteResponse (new_sign (MkFinalityVoteUpdate finality_self_vote) seckey))
          else Waits)
  end.

(** [handle_wait_notarized_block_try] *)
Definition handle_wait_notarized_block c (req : WaitNotarizedBlockRequest) :
    outcome Empty_set (Served WaitNotarizedBlockResponse) :=
  if (min_notarized_round req <=? (current_round_with_timeout (watches c)).1)%N then
    resp ← get_notarized_block_resp c req;
    Ok (match resp with Some resp => Responds resp | None => Waits end)
  else Ok Waits.

(** [handle_get_consensus_params_try]: the bytes that are sent, with the hash and
    the length that the requester has to know ([write_message_bao]). *)
Definition handle_get_consensus_params c (round : BlockRound) : outcome Empty_set Payload :=
  consensus_params ← get_round_params c round;
  Ok (to_raw consensus_params).

(** [handle_get_block_try]: without a block the request ends without an answer. *)
Definition handle_get_block c (req : GetBlockRequest) : outcome Empty_set (option GetBlockResponse) :=
  block ← get_finalized_block c (gb_round req);
  Ok (option_map MkGetBlockResponse block).

(** ** The client *)

(** [rpc::get_block], [rpc::get_block_hashed] *)
Definition get_block (round : BlockRound) (resp : option GetBlockResponse) : outcome Whatever (Notarized BlockHeader.t) :=
  match resp with
  | None => Err "Failed request get_block"
  | Some resp =>
      if decide (BlockHeader.round (notarized_inner (gb_block resp)) = round) then Ok (gb_block resp)
      else Err "Mismatched round block from peer"
  end.
Definition get_block_hashed (round : BlockRound) (block_hash : BlockHash) (resp : option GetBlockResponse) :
    outcome Whatever (Notarized BlockHeader.t) :=
  resp ← get_block round resp;
  if decide (hash (notarized_inner resp) = block_hash) then Ok resp
  else Err "Mismatched hash block from peer".

(** ** The handler of votes, while the consensus changes *)
Inductive vrun (peer_pubkey : option PeerPubkey) (req : WaitVoteRequest) :
    Consensus * VoteStage → Consensus * VoteStage → Prop :=
  | VRefl x : vrun peer_pubkey req x x
  | VConsensus x c c' st : vrun peer_pubkey req x (c, st) → cstep c c' → vrun peer_pubkey req x (c', st)
  | VStep x c st st' :
      vrun peer_pubkey req x (c, st) → wait_vote_step peer_pubkey req c st = Ok (Some st') →
      vrun peer_pubkey req x (c, st').

(** The answer [resp] of the peer [pk], as the tables of the consensus have it. *)
Definition good_answer pk (req : WaitVoteRequest) c (resp : WaitVoteResponse) : Prop :=
  let b := signed_inner (resp_block resp) in
  ∃ p i, params_at (db c) (wv_round req) = Some p ∧ ConsensusParams.peers p !! N.to_nat i = Some pk ∧
    BlockHeader.round b = wv_round req ∧ (only_dummy req = true → is_dummy b = true) ∧
    (is_dummy b = false → sig_ok (sign_hash b) (ConsensusParams.peers p) i (sig (resp_block resp)) = true).

Definition vote_stage_ok (peer_pubkey : option PeerPubkey) (req : WaitVoteRequest) c (st : VoteStage) : Prop :=
  match st with
  | VoteOpen => True
  | VotePoll p i => (wv_round req ≤ cur c)%N ∧ params_at (db c) (wv_round req) = Some p ∧
      ∃ pk, peer_pubkey = Some pk ∧ ConsensusParams.peers p !! N.to_nat i = Some pk
  | VoteDone (Responds resp) => (wv_round req ≤ cur c)%N ∧ ∃ pk, peer_pubkey = Some pk ∧ good_answer pk req c resp
  | VoteDone (Fails _) =>
      (wv_round req < cur c)%N ∨ peer_pubkey = None ∨
      (wv_round req ≤ cur c)%N ∧ ∃ pk p, peer_pubkey = Some pk ∧ params_at (db c) (wv_round req) = Some p ∧
        pk ∉ ConsensusParams.peers p
  | VoteDone Waits => False
  end.

Lemma vote_stage_cstep (pk : option PeerPubkey) req c c' st :
  consensus_wf c → cstep c c' → vote_stage_ok pk req c st → vote_stage_ok pk req c' st.
Proof.
  intros Hwf Hs Hok. destruct (cstep_spec _ _ Hwf Hs) as (_ & Hcur & _ & Hk).
  destruct st as [|p i|[resp|why|]]; cbn in *; [done|..|done].
  - destruct Hok as (Hle & Hp & Hpk). rewrite Hk by done. split_and!; [lia|done|done].
  - destruct Hok as (Hle & k & Hpk & p & i & Hp & Hrest). split; [lia|]. exists k. split; [done|].
    exists p, i. by rewrite Hk.
  - destruct Hok as [?|[?|(Hle & k & p & ? & Hp & ?)]]; [left; lia|auto|]. right; right. split; [lia|].
    exists k, p. by rewrite Hk.
Qed.

Lemma find_peer_idx_wf {E} p pk : params_wf p →
  (∃ i, find_peer_idx (E:=E) p pk = Ok (Some i) ∧ ConsensusParams.peers p !! N.to_nat i = Some pk) ∨
  (find_peer_idx (E:=E) p pk = Ok None ∧ pk ∉ ConsensusParams.peers p).
Proof.
  intros Hwf. unfold find_peer_idx. destruct (list_find _ _) as [[i x]|] eqn:Hf.
  - apply list_find_Some in Hf as (Hi & -> & _). left.
    pose proof (lookup_lt_Some _ _ _ Hi). pose proof (npeers_pos p Hwf). unfold npeers in *.
    unfold idx_of_nat. rewrite decide_True by (unfold u8_max; lia). eexists. split; [done|]. by rewrite Nat2N.id.
  - right. split; [done|]. apply list_find_None in Hf. rewrite Forall_forall in Hf. intros Hin. by apply (Hf pk).
Qed.

Lemma get_vote_total c r p i : reachable c → params_at (db c) r = Some p → ∃ o, get_vote c r p i = Ok o.
Proof.
  intros [Hrest _]%reachable_wf Hp. destruct (params_at_wf _ r (rest_inv _ Hrest)) as (p' & Hp' & Hwf).
  rewrite Hp in Hp'. injection Hp' as <-.
  assert (∃ o, get_vote_rd r p i (db c) = Ok o) as [o Ho]; [|exists o; by apply read_with_expect_Ok].
  unfold get_vote_rd, get_vote_dummy, get_vote_block, get_block_payload, rd_get, rd_lift, mbind, rd_bind.
  destruct (cons_votes_dummy (db c) !! (r, i)) as [s|].
  - pose proof (params_len_wf (E:=Empty_set) p Hwf) as Hl. unfold params_len in Hl.
    unfold new_dummy, hash_and_len. rewrite Hl. cbn. eauto.
  - destruct (cons_votes_block (db c) !! (r, i)) as [v|]; [|eauto]. rewrite num_peers_wf by done. cbn.
    unfold block_round_leader_idx. pose proof (npeers_pos p Hwf). rewrite decide_False by lia. cbn.
    case_decide; [|eauto]. destruct (cons_blocks_payloads (db c) !! _); eauto.
Qed.

Lemma get_vote_round c r p i resp :
  DbInv (db c) → get_vote c r p i = Ok (Some resp) → BlockHeader.round (signed_inner (resp_block resp)) = r.
Proof.
  intros Hinv Hget. pose proof (get_vote_Some _ _ _ _ _ Hget) as [Hd|Hv];
    [|by destruct (inv_votes _ Hinv _ _ _ Hv) as (? & _)].
  apply read_with_expect_Ok, rd_bind_Ok in Hget as (d & [= Hdv] & Hget). destruct d as [s|].
  - apply rd_bind_Ok in Hget as (b & Hb%rd_lift_Ok & [= <-]). unfold new_dummy in Hb.
    apply bind_Ok in Hb as (hl & _ & [= <-]). done.
  - exfalso. apply rd_bind_Ok in Hget as (block & [= Hb] & Hget). destruct block as [block|]; [|done].
    destruct (inv_votes _ Hinv _ _ _ Hb) as (_ & Hnd & _).
    apply rd_bind_Ok in Hget as (n & _ & (leader & _ & Hget)%rd_bind_Ok).
    case_decide; [|injection Hget as <-; cbn in Hd; congruence].
    apply rd_bind_Ok in Hget as (payload & _ & Hget). destruct payload as [payload|]; [|done].
    injection Hget as <-. cbn in Hd. congruence.
Qed.

Definition vote_step_ok (pk : option PeerPubkey) req c st : Prop :=
  match wait_vote_step pk req c st with
  | Ok (Some st') => vote_stage_ok pk req c st'
  | Ok None => match st with
               | VoteOpen => (cur c < wv_round req)%N
               | VotePoll _ _ => wv_round req = cur c
               | VoteDone _ => True
               end
  | Err e => match e with end
  | Panic _ => False
  end.

Lemma vote_step_spec (pk : option PeerPubkey) req c st : reachable c → vote_stage_ok pk req c st → vote_step_ok pk req c st.
Proof.
  intros Hr Hok. pose proof (reachable_wf _ Hr) as [Hrest Hcur]. pose proof (rest_inv _ Hrest) as Hinv.
  unfold vote_step_ok. destruct st as [|p i|served]; cbn [wait_vote_step]; [..|done].
  - destruct pk as [pk|]; [|by right; left]. unfold cur. rewrite Hcur.
    destruct (N.leb_spec (wv_round req) (cur_round_of (db c))) as [Hle|Hlt]; [|done].
    destruct (params_at_wf _ (wv_round req) Hinv) as (p & Hp & Hwf).
    assert (get_round_params c (wv_round req) = Ok p) as -> by (by apply read_with_expect_Ok, get_consensus_params_Ok).
    cbn. destruct (find_peer_idx_wf (E:=Empty_set) p pk Hwf) as [(i & -> & Hi)|[-> Hnot]]; cbn.
    + split_and!; [done|done|eauto].
    + right; right. split; [done|]. eauto.
  - destruct Hok as (Hle & Hp & k & -> & Hi). destruct (get_vote_total c _ p i Hr Hp) as [o Ho]. rewrite Ho. cbn.
    assert (match (if (wv_round req <? (current_round_with_timeout (watches c)).1)%N
                   then Some (VoteDone (Fails "Not available")) else None) with
            | Some st' => vote_stage_ok (Some k) req c st'
            | None => wv_round req = cur c
            end) as Hwait.
    { rewrite Hcur. fold (cur c). destruct (N.ltb_spec (wv_round req) (cur c)); [by left|]. lia. }
    destruct o as [resp|]; [|exact Hwait].
    destruct (negb (only_dummy req) || _) eqn:Hd; [|exact Hwait]. split; [done|]. exists k. split; [done|].
    exists p, i. split_and!; [done|done|by eapply get_vote_round|..].
    + intros Hod. rewrite Hod in Hd. done.
    + intros Hnd. destruct (get_vote_Some _ _ _ _ _ Ho) as [?|Hv]; [congruence|].
      destruct (inv_votes _ Hinv _ _ _ Hv) as (_ & _ & q & Hq & Hsig). rewrite Hp in Hq. by injection Hq as <-.
Qed.

Lemma wait_vote_step_stage (pk : option PeerPubkey) req c st st' :
  wait_vote_step pk req c st = Ok (Some st') → st' ≠ VoteOpen ∧ (∀ p i, st' = VotePoll p i → st = VoteOpen).
Proof.
  destruct st; cbn; intros Hs;
    repeat first [done|apply bind_Ok in Hs as (? & _ & Hs)|case_match]; by simplify_eq.
Qed.

Lemma vrun_ok (pk : option PeerPubkey) req c0 c st :
  reachable c0 → vrun pk req (c0, VoteOpen) (c, st) → reachable c ∧ vote_stage_ok pk req c st.
Proof.
  intros Hr Hrun. remember (c0, VoteOpen) as x eqn:Hx. remember (c, st) as y eqn:Hy.
  revert c st Hy. induction Hrun as [x|x c1 c2 st1 _ IH Hs|x c1 st1 st2 _ IH Hs]; intros c st Hy; simplify_eq.
  - done.
  - destruct (IH eq_refl c1 st eq_refl) as [Hc Hok]. split; [by eapply RStep|].
    eapply vote_stage_cstep; [by apply reachable_wf|done|done].
  - destruct (IH eq_refl c st1 eq_refl) as [Hc Hok]. split; [done|].
    pose proof (vote_step_spec pk req c st1 Hc Hok) as Hst. unfold vote_step_ok in Hst. by rewrite Hs in Hst.
Qed.

(** The handler of a request for a vote never panics, whatever happens to the
    consensus while it waits; it waits only until the round of the request is
    reached, and then only in that round.  Its answer is of that round and, when
    only a dummy vote is wanted, a dummy vote; a vote for a block is signed by
    this peer under its index in the round.  A request fails only when this
    node is not a peer of the round, or the round is over. *)
Theorem wait_vote_answers pk req c0 c st :
  reachable c0 → vrun (Some pk) req (c0, VoteOpen) (c, st) →
  match wait_vote_step (Some pk) req c st with
  | Ok (Some (VoteDone (Responds resp))) => good_answer pk req c resp
  | Ok (Some (VoteDone (Fails _))) => (wv_round req < cur c)%N ∨
      ∃ p, params_at (db c) (wv_round req) = Some p ∧ pk ∉ ConsensusParams.peers p
  | Ok (Some (VoteDone Waits)) | Ok (Some VoteOpen) => False
  | Ok (Some (VotePoll _ _)) => st = VoteOpen ∧ (wv_round req ≤ cur c)%N
  | Ok None => (cur c < wv_round req)%N ∧ st = VoteOpen ∨ wv_round req = cur c ∨ ∃ o, st = VoteDone o
  | Err e => match e with end
  | Panic _ => False
  end.
Proof.
  intros Hr Hrun. destruct (vrun_ok _ _ _ _ _ Hr Hrun) as [Hc Hok].
  pose proof (vote_step_spec (Some pk) req c st Hc Hok) as Hs. unfold vote_step_ok in Hs.
  destruct (wait_vote_step (Some pk) req c st) as [[st'|]|e|w] eqn:Hst; [|..|done|done].
  - destruct st' as [|p i|[resp|why|]]; cbn in Hs.
    + by apply wait_vote_step_stage in Hst as [? _].
    + apply wait_vote_step_stage in Hst as [_ Hst]. specialize (Hst p i eq_refl). by destruct Hs.
    + destruct Hs as (_ & k & [= <-] & Hg). done.
    + destruct Hs as [?|[?|(_ & k & p & [= <-] & ? & ?)]]; [by left|done|right; eauto].
    + done.
  - destruct st; eauto.
Qed.

(** ** Finality votes *)
Lemma wp_vote_stored pk resp s :
  wp false (process_finality_vote_update_response_tx pk resp)
    (λ _ s', cons_finality_votes (tx_db s') !! pk = Some (finality_vote_round (signed_inner (update resp)))) s.
Proof.
  set (P := λ d, cons_finality_votes d !! pk = Some (finality_vote_round (signed_inner (update resp)))).
  unfold process_finality_vote_update_response_tx, update_peer_finality_vote_round, update_finality_vote.
  wp_step. apply wp_read; [intros k _|done]. wp_step. apply wp_lift; [intros _ _|done].
  do 6 wp_step. cbn [tx_db].
  assert (∀ E, keeps P (recalculate_finality_consensus_tx (E:=E) k)) as Hrec.
  { intros E. unfold recalculate_finality_consensus_tx, update_finality_consensus, prune_dummy_votes. repeat keeps_step. }
  assert (P (set_cons_finality_votes (<[pk := finality_vote_round (signed_inner (update resp))]>
    (cons_finality_votes (tx_db s))) (tx_db s))) as Hd by apply lookup_insert_eq.
  repeat first [apply Hrec; exact Hd|apply wp_ret; exact Hd|case_match].
Qed.

(** C19: Finality votes get through: a peer that asks another for a finality vote
    newer than the last one it has gets, as soon as the other's own vote is newer,
    an answer that passes its checks; it is stored, and is the vote the other has
    now.  So the stored vote of a peer only grows by asking. *)
Theorem finality_vote_delivered `{!CryptoLaws} self1 self2 pk round resp :
  reachable (node_consensus self2) → peer_pubkey self1 = Some pk →
  finality_vote_request self2 pk = Ok round →
  handle_wait_finality_vote self1 round = Ok (Responds resp) →
  let own := finality_self_vote (watches (node_consensus self1)) in
  ∃ self2', peer_finality_vote_query self2 pk resp = (Ok (), self2') ∧
    cons_finality_votes (db (node_consensus self2')) !! pk = Some own ∧
    (default 0 (cons_finality_votes (db (node_consensus self2)) !! pk) < own)%N.
Proof.
  intros Hr Hpk Hreq Hresp. cbv zeta. destruct (reachable_wf _ Hr) as [Hrest _].
  unfold handle_wait_finality_vote, get_peer_secret_expect in Hresp. rewrite Hpk in Hresp.
  unfold peer_pubkey in Hpk. destruct (peer_seckey self1) as [sk|]; [|done]. injection Hpk as <-. cbn in Hresp.
  destruct (N.ltb_spec round (finality_self_vote (watches (node_consensus self1)))) as [Hlt|]; [|done].
  injection Hresp as <-.
  set (own := finality_self_vote (watches (node_consensus self1))) in *.
  unfold finality_vote_request in Hreq. apply bind_Ok in Hreq as (prev & Hprev & [= Hround]).
  apply read_with_expect_Ok in Hprev. injection Hprev as Hprev.
  assert (verify_sig_peer_pubkey (new_sign (MkFinalityVoteUpdate own) sk) (ed25519_pubkey sk) = Ok ()) as Hver.
  { unfold verify_sig_peer_pubkey, verify_signature. apply verify_hash_signature_Ok. split; [apply pubkey_is_valid|].
    apply sign_verifies. }
  set (resp := MkWaitFinalityVoteResponse (new_sign (MkFinalityVoteUpdate own) sk)) in *.
  unfold peer_finality_vote_query. change (update resp) with (new_sign (MkFinalityVoteUpdate own) sk). rewrite Hver.
  pose proof (write_tx_spec true (node_consensus self2) _ _ (wp_process_finality_tx true (db (node_consensus self2))
    (ed25519_pubkey sk) resp Hrest (λ _, pubkey_is_valid sk))) as Hpanic.
  pose proof (write_tx_spec false (node_consensus self2) _ _ (wp_vote_stored (ed25519_pubkey sk) resp
    (MkTx (db (node_consensus self2)) []))) as Hstored.
  assert (∀ e, process_finality_vote_update_response_tx (ed25519_pubkey sk) resp
    (MkTx (db (node_consensus self2)) []) ≠ Err e) as Herr.
  { unfold process_finality_vote_update_response_tx, mbind, tx_bind, tx_read, tx_lift, get_current_round, rd_get. cbn.
    unfold tx_read, rd_lift. cbn. change (update resp) with (new_sign (MkFinalityVoteUpdate own) sk). rewrite Hver.
    cbn. apply no_error_finality. }
  unfold process_finality_vote_update_response.
  destruct (write_tx (node_consensus self2) _) as [[[]|e|w] c'] eqn:Hrun.
  - eexists. split; [done|]. destruct Hstored as (hooks & Hst & _). split; [exact Hst|]. rewrite Hprev. lia.
  - exfalso. unfold write_tx, write_with_expect_falliable, write_with_inner_falliable in Hrun. cbn [fst] in Hrun.
    destruct (process_finality_vote_update_response_tx _ _ _) as [[? ?]|err|w]; [done| |done]. by apply (Herr err).
  - by destruct Hpanic.
Qed.
End Rpc.

(** ** Concrete requests *)
Section Witnesses.
Local Existing Instance Toy.bincode.
Local Existing Instance Toy.crypto.
Local Existing Instance ToyNet.codec.

Definition toy_c : Consensus := created (Some 3%N).
Lemma reachable_toy_c : reachable toy_c.
Proof. apply reachable_created; [exact ToyNet.params_ok|vm_compute; reflexivity]. Qed.

(** The leader of round 0 accepts its own proposal, and then answers node 0. *)
Definition toy_proposed : Consensus :=
  (process_vote_response toy_c 2 (Proposal (new_sign ToyNet.block 2%N) (encode_citems [CTransaction ToyNet.transaction]))).2.
Definition toy_stage : VoteStage := VotePoll toy_params 2.

Lemma wait_vote_answers_witness :
  wait_vote_step (Some 3%N) (MkWaitVoteRequest 0 false) toy_proposed toy_stage
    = Ok (Some (VoteDone (Responds (Proposal (new_sign ToyNet.block 2%N) (encode_citems [CTransaction ToyNet.transaction]))))) ∧
  good_answer 3 (MkWaitVoteRequest 0 false) toy_proposed
    (Proposal (new_sign ToyNet.block 2%N) (encode_citems [CTransaction ToyNet.transaction])).
Proof.
  assert (wait_vote_step (Some 3%N) (MkWaitVoteRequest 0 false) toy_proposed toy_stage
    = Ok (Some (VoteDone (Responds (Proposal (new_sign ToyNet.block 2%N) (encode_citems [CTransaction ToyNet.transaction]))))))
    as Hs by (vm_compute; reflexivity).
  split; [exact Hs|].
  pose proof (wait_vote_answers 3 (MkWaitVoteRequest 0 false) toy_c toy_proposed toy_stage reachable_toy_c) as Ha.
  rewrite Hs in Ha. apply Ha.
  apply (VStep _ _ _ toy_proposed VoteOpen toy_stage).
  - apply (VConsensus _ _ _ toy_c toy_proposed VoteOpen); [apply VRefl|apply CVote].
  - vm_compute. reflexivity.
Defined.

Definition toy_asked : Node := MkNode (voted_on [9%N]) (Some 0%N) 0 [] ∅ ∅ None.
Definition toy_asking : Node := MkNode (created (Some 2%N)) (Some 1%N) 0 [] ∅ ∅ None.
Definition toy_finality_answer : WaitFinalityVoteResponse :=
  MkWaitFinalityVoteResponse (new_sign (MkFinalityVoteUpdate 1) 0%N).

Lemma finality_vote_delivered_witness :
  match peer_finality_vote_query toy_asking 1 toy_finality_answer with
  | (Ok _, self2') => cons_finality_votes (db (node_consensus self2')) !! 1%N = Some 1%N
  | _ => False
  end.
Proof.
  destruct (finality_vote_delivered (H2:=ToyNet.toy_laws) toy_asked toy_asking 1 0 toy_finality_answer)
    as (self2' & Hq & Hv & _).
  - apply reachable_created; [exact ToyNet.params_ok|vm_compute; reflexivity].
  - vm_compute. reflexivity.
  - vm_compute. reflexivity.
  - vm_compute. reflexivity.
  - rewrite Hq. assert (finality_self_vote (watches (node_consensus toy_asked)) = 1%N) as Hown by (vm_compute; reflexivity).
    rewrite <-Hown at 2. exact Hv.
Defined.
End Witnesses.
