(* ===== verification/Final.v ===== *)
(** * Final blocks, across nodes

    Networks of correct nodes, from proposals to what their applications get.
    [moves] runs such a network with the answers that the nodes themselves give:
    the votes are those that the other node serves ([get_vote]), the finality
    votes those of [handle_wait_finality_vote]. *)
From S2P Require Import Prelude VoteSet Peers Core Db ConsDb ConsInv Consensus ConsRound ConsSteps ConsSpec ConsVotes ConsProps ConsChain ConsServe Module Ctrl NodeApp Node Network NetInv NetRun AppApi ConsFinal Rpc.

(** A step of a network, by what a node does; the tasks are found by what they
    do, and their events are handled at once. *)
Inductive Move :=
  | MStart (id : N)
  | MPropose (id now : N)
  | MVote (id : N)
  (** node [id] asks the node [from] for its vote *)
  | MAsk (id from : N)
  | MTimeout (id : N)
  | MEnd (id : N)
  (** node [id] asks the node [from] for its finality vote *)
  | MFinality (id from : N)
  (** node [id] asks the node [from] for a notarized block *)
  | MBlock (id from : N).

Section Moves.
Context `{Crypto} `{Bincode} `{CItemsCodec}.
Implicit Types (W : World).

Definition find_task W (id : N) (f : Task → bool) : option nat :=
  n ← nodes W !! id; run ← round_run n;
  '(j, _) ← list_find (λ t, f t = true) (run_tasks run); Some j.
Definition is_propose (t : Task) : bool := match t with GenerateProposalTask _ _ => true | _ => false end.
Definition is_vote (t : Task) : bool := match t with VoteProposalTask _ _ => true | _ => false end.
Definition is_timeout (t : Task) : bool :=
  match t with TimeoutVoteTask _ _ _ | TimeoutSleepTask _ _ _ => true | _ => false end.
Definition is_request (from : N) (t : Task) : bool :=
  match t with RequestVoteTask _ i _ _ => (i =? from)%N | _ => false end.

Definition is_request_block (from : N) (t : Task) : bool :=
  match t with RequestNotarizedTask _ i _ _ => (i =? from)%N | _ => false end.

(** The answer of the node [m] to the request of the task. *)
Definition answer_block (m : Node) (t : Task) : option WaitNotarizedBlockResponse :=
  match t with
  | RequestNotarizedTask round _ _ prev_notarized_block =>
      match notarized_request_msg round prev_notarized_block with
      | Ok req =>
          match handle_wait_notarized_block (node_consensus m) req with Ok (Responds resp) => Some resp | _ => None end
      | _ => None
      end
  | _ => None
  end.

Definition run_move W (m : Move) : option World :=
  match m with
  | MStart id => exec W (CmdStart id)
  | MPropose id now =>
      j ← find_task W id is_propose; exec_all W [CmdTask id j (InTrigger OnTransactions now); CmdHandle id 0]
  | MVote id => j ← find_task W id is_vote; exec_all W [CmdTask id j InNothing; CmdHandle id 0]
  | MAsk id from => j ← find_task W id (is_request from); exec_all W [CmdAsk id j from; CmdHandle id 0]
  | MTimeout id =>
      j ← find_task W id is_timeout; exec_all W [CmdTask id j InNothing; CmdTask id j InNothing; CmdHandle id 0]
  | MEnd id => exec W (CmdEnd id)
  | MFinality id from =>
      n ← nodes W !! id; m ← nodes W !! from; pk ← peer_pubkey m;
      if decide (pk ∈ finality_tasks n) then
        match finality_vote_request n pk with
        | Ok prev_vote =>
            match handle_wait_finality_vote m prev_vote with
            | Ok (Responds resp) => update_world W id [] (peer_finality_vote_query n pk resp).2
            | _ => None
            end
        | _ => None
        end
      else None
  | MBlock id from =>
      j ← find_task W id (is_request_block from);
      n ← nodes W !! id; run ← round_run n; t ← run_tasks run !! j; m ← nodes W !! from;
      resp ← answer_block m t; exec_all W [CmdTask id j (InNotarized resp); CmdHandle id 0]
  end.
Fixpoint run_moves W (l : list Move) : option World :=
  match l with
  | [] => Some W
  | m :: l' => W' ← run_move W m; run_moves W' l'
  end.
End Moves.

(** ** What an application gets

    A sequence of deliveries with the leaders and the items, as
    [NodeApp.process_blocks] takes them.  [circulating] holds of the payloads that
    are fetched. *)
Abbreviation Delivery := (BlockHeader.t * PeerPubkey * list CItem)%type.

Section Deliveries.
Context `{Crypto} `{Bincode} `{CItemsCodec}.
Context (circulating : Payload → Prop).
Implicit Types (c : Consensus) (l : list Delivery).

Inductive app_gets : Consensus → BlockRound → list Delivery → Consensus → Prop :=
  | GetsNil c req : app_gets c req [] c
  | GetsStep c c' req l c'' : cstep c c' → app_gets c' req l c'' → app_gets c req l c''
  | GetsBlock c req c1 payload c2 b leader citems l c' :
      arun (c, AwaitFinality req) (c1, FetchParams b payload) → circulating payload →
      arun (c1, FetchParams b payload) (c2, Delivered b leader citems) →
      app_gets c2 (BlockHeader.round b + 1) l c' → app_gets c req ((b, leader, citems) :: l) c'.

(** What is delivered for a block is determined by the parameters of its round
    and its payload. *)
Definition delivery_of c (y : Delivery) : Prop :=
  let '(b, leader, citems) := y in
  (∃ p i, params_at (db c) (BlockHeader.round b) = Some p ∧
     leader_idx p (BlockHeader.round b) (E:=Empty_set) = Ok i ∧ ConsensusParams.peers p !! N.to_nat i = Some leader) ∧
  (∃ payload, circulating payload ∧ blake3 payload = BlockHeader.payload_hash b ∧ decode_citems payload = Ok citems).

Lemma csteps_params c c' r : reachable c → csteps c c' → (r ≤ cur c)%N → params_at (db c') r = params_at (db c) r.
Proof.
  intros Hr. induction 1 as [c|c c1 c' Hs _ IH]; [done|]. intros Hle.
  destruct (cstep_spec _ _ (reachable_wf _ Hr) Hs) as (_ & Hcur & _ & Hp).
  rewrite IH; [by apply Hp|by eapply RStep|lia].
Qed.
Lemma csteps_cur c c' : reachable c → csteps c c' → (cur c ≤ cur c')%N.
Proof.
  intros Hr. induction 1 as [c|c c1 c' Hs _ IH]; [done|].
  destruct (cstep_spec _ _ (reachable_wf _ Hr) Hs) as (_ & Hcur & _). etrans; [exact Hcur|]. by eapply IH, RStep.
Qed.

(** The last stage: the parameters are read in some state, and the payload is
    decoded. *)
Lemma arun_params c1 b payload c st :
  arun (c1, FetchParams b payload) (c, st) → csteps c1 c ∧
  (st = FetchParams b payload ∨
   ∃ leader citems c4 params i, st = Delivered b leader citems ∧ csteps c1 c4 ∧ csteps c4 c ∧
     get_round_params c4 (BlockHeader.round b) = Ok params ∧
     leader_idx params (BlockHeader.round b) (E:=Empty_set) = Ok i ∧
     ConsensusParams.peers params !! N.to_nat i = Some leader ∧ decode_citems payload = Ok citems).
Proof.
  intros Hrun. remember (c1, FetchParams b payload) as x eqn:Hx. remember (c, st) as y eqn:Hy.
  revert c st Hy. induction Hrun as [x|x ca cb st1 _ IH Hs|x ca st1 st2 _ IH Hs]; intros c st Hy; simplify_eq.
  - split; [apply rtc_refl|by left].
  - destruct (IH eq_refl ca st eq_refl) as [Hc Hst]. split; [by eapply rtc_r|].
    destruct Hst as [->|(leader & citems & c4 & params & i & -> & ? & ? & ? & ? & ? & ?)]; [by left|right].
    exists leader, citems, c4, params, i. split_and!; try done. by eapply rtc_r.
  - destruct (IH eq_refl c st1 eq_refl) as [Hc [->|(? & ? & ? & ? & ? & -> & _)]]; [|done]. split; [done|right].
    cbn -[leader_idx] in Hs. apply bind_Ok in Hs as (params & Hp & Hs). apply bind_Ok in Hs as (i & Hi & Hs).
    apply bind_Ok in Hs as (leader & Hl & Hs). apply bind_Ok in Hs as (citems & Hd & [= <-]).
    exists leader, citems, c, params, i. split_and!; try done.
    + unfold expect in Hl. destruct (_ !! _); [by injection Hl as ->|done].
    + destruct (decode_citems payload) as [l|e|w]; [by injection Hd as ->|done..].
Qed.

Lemma get_round_params_at c r p : reachable c → get_round_params c r = Ok p → params_at (db c) r = Some p.
Proof.
  intros Hr Hp. destruct (reachable_wf c Hr) as [Hrest _].
  destruct (params_at_wf (db c) r (rest_inv _ Hrest)) as (p' & Hpar & _).
  assert (get_round_params c r = Ok p') as Hp' by (by apply read_with_expect_Ok, get_consensus_params_Ok).
  congruence.
Qed.

Lemma app_gets_steps c req l c' : reachable c → app_gets c req l c' → csteps c c'.
Proof.
  intros Hr Hg. induction Hg as [c req|c c' req l c'' Hs _ IH|c req c1 payload c2 b leader citems l c' Hrun _ Hrun' _ IH].
  - apply rtc_refl.
  - eapply rtc_l; [done|]. apply IH. by eapply RStep.
  - destruct (arun_ok _ _ _ _ Hr Hrun) as [Hc _]. apply arun_params in Hrun' as [Hc' _].
    do 2 (etrans; [eassumption|]). apply IH. by do 2 (eapply csteps_reachable; [|eassumption]).
Qed.

(** ** Deliveries as a list of a table

    [l] lists what the table [n] of notarized blocks holds from round [req] on,
    without a gap. *)
Inductive listed (n : gmap BlockRound BlockHeader.t) (D : Delivery → Prop) : BlockRound → list Delivery → Prop :=
  | LNil req : listed n D req []
  | LCons req y l :
      n !! BlockHeader.round y.1.1 = Some y.1.1 → (req ≤ BlockHeader.round y.1.1)%N → D y →
      (∀ q, (req ≤ q)%N → (q < BlockHeader.round y.1.1)%N → n !! q = None) →
      listed n D (BlockHeader.round y.1.1 + 1) l → listed n D req (y :: l).

Definition upto (R : BlockRound) l : Prop := Forall (λ y, BlockHeader.round y.1.1 ≤ R)%N l.

(** Tables that agree up to a round have the same lists up to it. *)
Lemma listed_prefix n1 n2 (D1 D2 : Delivery → Prop) (R : N) req l1 l2 :
  (∀ r, (r ≤ R)%N → n1 !! r = n2 !! r) →
  (∀ y1 y2, D1 y1 → D2 y2 → y1.1.1 = y2.1.1 → (BlockHeader.round y1.1.1 ≤ R)%N → y1 = y2) →
  listed n1 D1 req l1 → listed n2 D2 req l2 → upto R l1 → upto R l2 →
  l1 `prefix_of` l2 ∨ l2 `prefix_of` l1.
Proof.
  intros Hn HD Hl1. revert l2. induction Hl1 as [req|req y1 l1 Hy1 Hle1 Hd1 Hg1 _ IH]; intros l2 Hl2 Hu1 Hu2.
  - left. apply prefix_nil.
  - destruct Hl2 as [req|req y2 l2 Hy2 Hle2 Hd2 Hg2 Hl2]; [right; apply prefix_nil|].
    apply Forall_cons in Hu1 as [Hr1 Hu1], Hu2 as [Hr2 Hu2].
    assert (BlockHeader.round y1.1.1 = BlockHeader.round y2.1.1) as Heq.
    { destruct (N.lt_trichotomy (BlockHeader.round y1.1.1) (BlockHeader.round y2.1.1)) as [Hlt|[?|Hlt]]; [|done|].
      - rewrite Hn, Hg2 in Hy1 by done. done.
      - rewrite <-Hn, Hg1 in Hy2 by done. done. }
    assert (y1 = y2) as <-.
    { apply HD; [done..| |done]. rewrite Hn, Heq, Hy2 in Hy1 by done. by injection Hy1. }
    destruct (IH l2 Hl2 Hu1 Hu2) as [Hp|Hp]; [left|right]; by apply prefix_cons.
Qed.

(** The delivered blocks are still held. *)
Definition still_held l c : Prop :=
  Forall (λ y, cons_blocks_notarized (db c) !! BlockHeader.round y.1.1 = Some y.1.1) l.

Lemma app_gets_listed c req l c' :
  reachable c → app_gets c req l c' → still_held l c' → listed (cons_blocks_notarized (db c')) (delivery_of c') req l.
Proof.
  intros Hr Hg. induction Hg as [c req|c c' req l c'' Hs _ IH|c req c1 payload c2 b leader citems l c' Hrun Hcirc Hrun' Hg IH];
    intros Hh; [constructor|by apply IH; [eapply RStep|]|].
  apply Forall_cons in Hh as [Hb Hh].
  destruct (arun_ok _ _ _ _ Hr Hrun) as [Hc (((ci & Hi & Hi' & Hp) & Hgap & _) & Hpl)].
  pose proof (csteps_reachable _ _ Hr Hc) as Hr1.
  destruct (arun_params _ _ _ _ _ Hrun') as [Hc2 [|(? & ? & c4 & p & i & [= <- <-] & H4 & H4' & Hget & Hlead & Hkey & Hdec)]]; [done|].
  pose proof (csteps_reachable _ _ Hr1 Hc2) as Hr2. pose proof (app_gets_steps _ _ _ _ Hr2 Hg) as Hc'.
  pose proof (csteps_reachable _ _ Hr1 H4) as Hr4.
  assert (csteps c1 c') as H1' by (etrans; [exact Hc2|exact Hc']).
  pose proof (ngrows_gap _ _ _ _ (csteps_ngrows _ _ Hr1 H1') Hgap) as [Hle Hnone]. cbn in *.
  constructor; cbn; [exact Hb|exact Hle| | |by apply IH].
  2: { destruct Hnone as [Heq|[_ Hnone]]; [intros; lia|exact Hnone]. }
  split; [|by exists payload]. exists p, i. split_and!; [|done..].
  rewrite (csteps_params c4); [by apply get_round_params_at|done|etrans; [exact H4'|exact Hc']|].
  pose proof (csteps_reachable _ _ Hr Hi) as Hri.
  assert (BlockHeader.round b < cur ci)%N as Hlt.
  { destruct (reachable_wf _ Hri) as [Hrest _]. by eapply rb_notarized, pk_block; [apply rest_bounds|]. }
  assert (csteps ci c4) as Hi4 by (etrans; [exact Hi'|exact H4]).
  pose proof (csteps_cur _ _ Hri Hi4). lia.
Qed.

(** C5: The applications of two nodes get the same.  Whatever the two go through,
    in any order and with restarts, when their notarized blocks form chains, share
    a block, and still contain what was delivered, then one application got the
    same blocks as the other, with the same leaders and the same items in the same
    order, up to where it is.  The hashes of what circulates do not collide, and
    the parameters of the rounds are the same.  (That delivered blocks are still
    held is what the code does not ensure: [final_blocks_diverge].) *)
Theorem applications_get_the_same (P : BlockHeader.t → Prop) c1 c2 c1' c2' req l1 l2 (R : BlockRound) (x : BlockHeader.t) :
  (∀ b b', P b → P b' → hash b = hash b' → b = b') → (∀ b, P b → hash b ≠ 0%N) →
  (∀ p p', circulating p → circulating p' → blake3 p = blake3 p' → p = p') →
  reachable c1 → reachable c2 → app_gets c1 req l1 c1' → app_gets c2 req l2 c2' →
  still_held l1 c1' → still_held l2 c2' → chain (db c1') → chain (db c2') →
  (∀ r b, cons_blocks_notarized (db c1') !! r = Some b ∨ cons_blocks_notarized (db c2') !! r = Some b → P b) →
  cons_blocks_notarized (db c1') !! R = Some x → cons_blocks_notarized (db c2') !! R = Some x →
  (∀ r, (r ≤ R)%N → params_at (db c1') r = params_at (db c2') r) →
  upto R l1 → upto R l2 →
  l1 `prefix_of` l2 ∨ l2 `prefix_of` l1.
Proof.
  intros Hinj Hnz Hpay Hr1 Hr2 Hg1 Hg2 Hh1 Hh2 Hc1 Hc2 HP Hx1 Hx2 Hpar.
  assert (∀ c c' l, reachable c → app_gets c req l c' → DbInv (db c')) as Hinv.
  { intros c c' l Hr Hg. apply rest_inv, reachable_wf. eapply csteps_reachable; [done|]. by eapply app_gets_steps. }
  intros Hu1 Hu2. refine (listed_prefix _ _ _ _ R req l1 l2 _ _ (app_gets_listed c1 _ _ _ Hr1 Hg1 Hh1)
    (app_gets_listed c2 _ _ _ Hr2 Hg2 Hh2) Hu1 Hu2).
  - intros r Hle. eapply same_chain_below; eauto.
  - intros [[b lead] cs] [[b' lead'] cs'] [(p & i & Hp & Hi & Hk) (pl & Hq & Hb & Hd)]
      [(p' & i' & Hp' & Hi' & Hk') (pl' & Hq' & Hb' & Hd')] Heq Hle. cbn in Heq, Hle. subst b'.
    rewrite Hpar, Hp' in Hp by done. injection Hp as ->. rewrite Hi' in Hi. injection Hi as ->.
    assert (pl = pl') as -> by (apply Hpay; [done..|congruence]). congruence.
Qed.
End Deliveries.

(** ** Networks that run *)
Section Soundness.
Context `{Crypto} `{Bincode} `{CItemsCodec}.
Implicit Types (W : World).

Lemma exec_all_steps W l W' : exec_all W l = Some W' → rtc wstep W W'.
Proof.
  revert W. induction l as [|c l IH]; intros W; cbn [exec_all]; [intros [= <-]; apply rtc_refl|].
  intros (W1 & Hc%exec_sound & Hl)%bind_Some. eapply rtc_l; eauto.
Qed.
Lemma exec_steps W c W' : exec W c = Some W' → rtc wstep W W'.
Proof. intros Hc%exec_sound. by apply rtc_once. Qed.

Lemma run_move_steps W m W' : run_move W m = Some W' → rtc wstep W W'.
Proof.
  destruct m as [id|id now|id|id from|id|id|id from|id from]; cbn [run_move]; try apply exec_steps.
  1-4: intros (j & _ & Hs)%bind_Some; by eapply exec_all_steps.
  - intros (n & Hn & (m & Hm & (pk & Hpk & Hs)%bind_Some)%bind_Some)%bind_Some.
    case_decide as Hin; [|done]. destruct (finality_vote_request _ _); [|done..].
    destruct (handle_wait_finality_vote _ _) as [[resp| |]| |]; [|done..]. injection Hs as <-.
    apply rtc_once, (WStep W id n [] _ Hn). by apply NFinality.
  - intros (j & _ & (n & _ & (run & _ & (t & _ & (m & _ & (resp & _ & Hs)%bind_Some)%bind_Some)%bind_Some)%bind_Some)%bind_Some)%bind_Some.
    by eapply exec_all_steps.
Qed.
Lemma run_moves_steps W l W' : run_moves W l = Some W' → rtc wstep W W'.
Proof.
  revert W. induction l as [|m l IH]; intros W; cbn [run_moves]; [intros [= <-]; apply rtc_refl|].
  intros (W1 & Hm%run_move_steps & Hl)%bind_Some. etrans; [exact Hm|]. by apply IH.
Qed.

Lemma wsteps_reach W W' : wreach W → rtc wstep W W' → wreach W'.
Proof. intros Hw. induction 1 as [|W W1 W' Hs _ IH]; [done|]. apply IH. by eapply WReach. Qed.

(** What happens in a world happens to the consensus of each node. *)
Lemma wstep_node W W' id n :
  wstep W W' → nodes W !! id = Some n → ∃ n', nodes W' !! id = Some n' ∧ csteps (node_consensus n) (node_consensus n').
Proof.
  intros [id' m rel m' Hm Hs] Hn. cbn. destruct (decide (id' = id)) as [->|Hne].
  - exists m'. rewrite lookup_insert_eq. rewrite Hn in Hm. injection Hm as ->. split; [done|].
    destruct (nstep_consensus _ _ _ _ Hs) as [_ [->|Hc]]; [apply rtc_refl|by apply rtc_once].
  - exists n. rewrite lookup_insert_ne by done. split; [done|apply rtc_refl].
Qed.
Lemma wsteps_node W W' id n :
  rtc wstep W W' → nodes W !! id = Some n → ∃ n', nodes W' !! id = Some n' ∧ csteps (node_consensus n) (node_consensus n').
Proof.
  intros Hs. revert n. induction Hs as [W|W W1 W' Hs _ IH]; intros n Hn; [exists n; split; [done|apply rtc_refl]|].
  destruct (wstep_node _ _ _ _ Hs Hn) as (n1 & Hn1 & Hc). destruct (IH n1 Hn1) as (n' & Hn' & Hc').
  exists n'. split; [done|by etrans].
Qed.

Lemma gets_after circulating c c' req l c'' :
  csteps c c' → app_gets circulating c' req l c'' → app_gets circulating c req l c''.
Proof. induction 1 as [|c c1 c' Hs _ IH]; [done|]. intros Hg. eapply GetsStep; [exact Hs|]. by apply IH. Qed.
End Soundness.

(** *** Four correct nodes, and no faulty peer *)
Module Four.
Local Existing Instance Toy.bincode.
Local Existing Instance Toy.crypto.
Local Existing Instance ToyNet.codec.

(** The application of a node that asks for the block from round [req] on, while
    the consensus is [c]. *)
Definition next_delivery (c : Consensus) (req : BlockRound) : option (Payload * Delivery) :=
  match app_run 4 c (AwaitFinality req) with
  | FetchParams b payload =>
      match app_run 1 c (FetchParams b payload) with
      | Delivered b' leader citems => if decide (b = b') then Some (payload, (b', leader, citems)) else None
      | _ => None
      end
  | _ => None
  end.
Lemma next_delivery_gets (circulating : Payload → Prop) c req payload y l c' :
  next_delivery c req = Some (payload, y) → circulating payload →
  app_gets circulating c (BlockHeader.round y.1.1 + 1) l c' → app_gets circulating c req (y :: l) c'.
Proof.
  unfold next_delivery. intros Hn Hc Hl.
  pose proof (app_run_arun _ _ _ 4 (ARefl (c, AwaitFinality req))) as H1'.
  destruct (app_run 4 c _) as [| | | |b payload'|]; [done..| |done].
  pose proof (app_run_arun _ _ _ 1 (ARefl (c, FetchParams b payload'))) as H2'.
  destruct (app_run 1 c _) as [| | | | |b' leader citems]; [done..|]. case_decide as Hb; [|done]. subst b'.
  injection Hn as -> <-. eapply GetsBlock; [exact H1'|exact Hc|exact H2'|exact Hl].
Qed.

Definition start : World := MkWorld (list_to_map ((λ i, (i, ToyNet.node i)) <$> [0; 1; 2; 3]%N)) [].
(** What a world has for a node, and the world after some moves. *)
Definition at_node (W : World) (id : N) : Consensus := default (created None) (node_consensus <$> nodes W !! id).
Definition after (W : World) (l : list Move) : World := default W (run_moves W l).

Lemma reach_quiet : wreach start.
Proof.
  apply WInit.
  - intros id n Hn. assert (id ∈ [0; 1; 2; 3]%N ∧ n = ToyNet.node id) as [Hid ->].
    { apply elem_of_list_to_map_2, list_elem_of_fmap in Hn as (k & [= -> ->] & Hk). done. }
    apply ToyNet.fresh_node. repeat (apply elem_of_cons in Hid as [->|Hid]; [vm_compute; reflexivity|]).
    by apply not_elem_of_nil in Hid.
  - intros id1 id2 n1 n2 pk Hn1 Hn2 Hp1 Hp2.
    apply elem_of_list_to_map_2, list_elem_of_fmap in Hn1 as (k1 & [= -> ->] & _), Hn2 as (k2 & [= -> ->] & _).
    cbn in Hp1, Hp2. simplify_eq. lia.
Qed.
Lemma after_steps W l : rtc wstep W (after W l).
Proof.
  unfold after. destruct (run_moves W l) as [W'|] eqn:Hr; [by apply run_moves_steps in Hr|apply rtc_refl].
Qed.
Lemma after_node W l id :
  is_Some (nodes W !! id) → is_Some (nodes (after W l) !! id) ∧ csteps (at_node W id) (at_node (after W l) id).
Proof.
  intros [n Hn]. destruct (wsteps_node _ _ _ _ (after_steps W l) Hn) as (n' & Hn' & Hc).
  unfold at_node. rewrite Hn, Hn'. by split; [eexists|].
Qed.
Lemma start_nodes id : id ∈ [0; 1; 2; 3]%N → is_Some (nodes start !! id).
Proof. intros Hid. repeat (apply elem_of_cons in Hid as [->|Hid]; [by eexists|]). by apply not_elem_of_nil in Hid. Qed.

(** Round 0: the leader is node 2.  All nodes vote for its block, and node 0 gets
    the votes.  The messages to the others are late: their time is over, they vote
    for the dummy block too, and end the round with it. *)
Definition lost_votes : list Move := [
  MStart 0; MStart 1; MStart 2; MStart 3; MPropose 2 77;
  MAsk 0 2; MVote 0; MAsk 1 2; MVote 1; MAsk 0 1; MAsk 3 2; MVote 3;
  MTimeout 1; MTimeout 2; MTimeout 3;
  MAsk 1 2; MAsk 1 3; MAsk 2 1; MAsk 2 3; MAsk 3 1; MAsk 3 2;
  MEnd 0; MEnd 1; MEnd 2; MEnd 3].
(** Round 1: node 3 leads, and its block follows no block.  The three nodes vote
    for it; then the finality votes reach everyone. *)
Definition next_block : list Move := [
  MStart 0; MStart 1; MStart 2; MStart 3; MPropose 3 88;
  MAsk 1 3; MVote 1; MAsk 2 3; MVote 2; MAsk 1 2; MAsk 2 1; MAsk 3 1; MAsk 3 2;
  MFinality 1 2; MFinality 1 3; MFinality 2 1; MFinality 2 3; MFinality 3 1; MFinality 3 2;
  MFinality 0 1; MFinality 0 2; MFinality 0 3].
Definition diverged : World := after start (lost_votes ++ next_block).
(** Node 0 gets the block of round 1. *)
Definition reverted : World := after diverged [MBlock 0 1].

(** The blocks, and what is delivered for them. *)
Definition item : CItem := CTransaction ToyNet.transaction.
Definition block_at (now round : N) (prev : option BlockHeader.t) : BlockHeader.t :=
  match new (E:=Empty_set) prev now round toy_params (encode_citems [item]) with
  | Ok b => b
  | _ => BlockHeader.mk 0 0 0 0 0 0 0 0 0 0
  end.
Definition lost : Delivery := (block_at 77 0 None, 3%N, [item]).
Definition fork : Delivery := (block_at 88 1 None, 4%N, [item]).
Definition circulating (payload : Payload) : Prop := payload = encode_citems [item].

Lemma gets (W : World) (id : N) req y l c' :
  next_delivery (at_node W id) req = Some (encode_citems [item], y) →
  app_gets circulating (at_node W id) (BlockHeader.round y.1.1 + 1) l c' →
  app_gets circulating (at_node W id) req (y :: l) c'.
Proof. intros Hn. by apply (next_delivery_gets _ _ _ _ _ _ _ Hn). Qed.

(** C6: Final blocks can be taken back, and the applications of correct nodes can
    part for ever, although no peer is faulty and only messages are late.  In a
    network of four correct nodes, the application of one node gets the block of
    round 0, which is below the finality consensus and its own finality vote; the
    other three, whose finality votes these are, skipped that round.  Then all
    four go on with a block of round 1 that follows no block, and the first node
    drops the final block.  One application got two blocks, which both carry the
    same transaction, and the others only the second.  A finality vote tells only
    the round after the latest block that a peer holds, not which blocks it holds
    before. *)
Theorem final_blocks_diverge :
  (∀ pk, pk ∈ ConsensusParams.peers toy_params → correct reverted pk) ∧
  wreach diverged ∧ wreach reverted ∧ BlockHeader.round lost.1.1 ≠ BlockHeader.round fork.1.1 ∧
  (BlockHeader.round lost.1.1 < finality_consensus (watches (at_node diverged 0)))%N ∧
  cons_blocks_notarized (db (at_node diverged 0)) !! BlockHeader.round lost.1.1 = Some lost.1.1 ∧
  cons_blocks_notarized (db (at_node reverted 0)) !! BlockHeader.round lost.1.1 = None ∧
  app_gets circulating (at_node start 0) 0 [lost; fork] (at_node reverted 0) ∧
  ∀ id, id ∈ [1; 2; 3]%N → app_gets circulating (at_node start id) 0 [fork] (at_node reverted id).
Proof.
  assert (∀ id, id ∈ [0; 1; 2; 3]%N → csteps (at_node start id) (at_node diverged id) ∧
    csteps (at_node diverged id) (at_node reverted id)) as Hrun.
  { intros id Hid. destruct (after_node start (lost_votes ++ next_block) id (start_nodes id Hid)) as [Hd Hc].
    split; [exact Hc|]. exact (proj2 (after_node diverged [MBlock 0 1] id Hd)). }
  assert (wreach diverged) as Hw by (eapply wsteps_reach; [apply reach_quiet|apply after_steps]).
  split_and!; [|exact Hw|eapply wsteps_reach; [exact Hw|apply after_steps]|vm_compute; done..| |].
  - assert (forallb (correct_b reverted) (ConsensusParams.peers toy_params) = true) as Hall by (vm_compute; reflexivity).
    intros pk Hpk%list_elem_of_In. rewrite forallb_forall in Hall. by apply correct_b_spec, Hall.
  - assert (0%N ∈ [0; 1; 2; 3]%N) as Hid by (by left). destruct (Hrun 0%N Hid) as [H1 H2].
    apply (gets_after _ _ _ _ _ _ H1), gets; [vm_compute; reflexivity|].
    apply (gets_after _ _ _ _ _ _ H2), gets; [vm_compute; reflexivity|]. apply GetsNil.
  - intros id Hid. assert (id ∈ [0; 1; 2; 3]%N) as Hid' by (by right). destruct (Hrun id Hid') as [H1 H2].
    apply (gets_after _ _ _ _ _ _ H1), (gets_after _ _ _ _ _ _ H2), gets; [|apply GetsNil]. clear H1 H2 Hid'.
    repeat (apply elem_of_cons in Hid as [->|Hid]; [vm_compute; reflexivity|]). destruct (not_elem_of_nil _ Hid).
Qed.

(** When the messages are in time, the nodes go on together: the application of
    node 0 has got the block of round 0, that of node 1 the blocks of both rounds. *)
Definition round0 : list Move := [
  MStart 0; MStart 1; MStart 2; MStart 3; MPropose 2 77;
  MAsk 0 2; MVote 0; MAsk 1 2; MVote 1; MAsk 3 2; MVote 3; MAsk 0 1; MAsk 1 0; MAsk 2 0; MAsk 2 1; MAsk 3 1;
  MEnd 0; MEnd 1; MEnd 2; MEnd 3; MFinality 0 1; MFinality 0 2; MFinality 1 0; MFinality 1 2].
Definition round1 : list Move := [
  MStart 0; MStart 1; MStart 2; MStart 3; MPropose 3 88;
  MAsk 0 3; MVote 0; MAsk 1 3; MVote 1; MAsk 0 1; MAsk 1 0; MFinality 1 0; MFinality 0 1;
  MAsk 2 3; MVote 2; MAsk 2 0; MFinality 1 2].
Definition first_final : World := after start round0.
Definition both_final : World := after first_final round1.
Definition second : Delivery := (block_at 88 1 (Some lost.1.1), 4%N, [item]).

Lemma held_check (f : BlockHeader.t → bool) d :
  forallb (λ x, f x.2) (map_to_list (cons_blocks_notarized d)) = true →
  ∀ r b, cons_blocks_notarized d !! r = Some b → f b = true.
Proof.
  intros Hall r b Hb%elem_of_map_to_list%list_elem_of_In. rewrite forallb_forall in Hall. exact (Hall _ Hb).
Qed.

Lemma still_held_check l c :
  forallb (λ y : Delivery, bool_decide (cons_blocks_notarized (db c) !! BlockHeader.round y.1.1 = Some y.1.1)) l = true →
  still_held l c.
Proof. intros Hl. apply Forall_forall. intros y Hy%list_elem_of_In. rewrite forallb_forall in Hl. exact (bool_decide_eq_true_1 _ (Hl _ Hy)). Qed.

Lemma applications_get_the_same_witness :
  next_delivery (at_node both_final 0) 1 = None ∧ next_delivery (at_node both_final 1) 1 = Some (encode_citems [item], second) ∧
  ([lost] `prefix_of` [lost; second] ∨ [lost; second] `prefix_of` [lost]).
Proof.
  split; [vm_compute; reflexivity|]. split; [vm_compute; reflexivity|].
  assert (∀ id, id ∈ [0; 1; 2; 3]%N → csteps (at_node start id) (at_node first_final id) ∧
    csteps (at_node first_final id) (at_node both_final id)) as Hrun.
  { intros id Hid. destruct (after_node start round0 id (start_nodes id Hid)) as [Hd Hc].
    split; [exact Hc|]. exact (proj2 (after_node first_final round1 id Hd)). }
  destruct (Hrun 0%N) as [H01 H02]; [by left|]. destruct (Hrun 1%N) as [H11 H12]; [by right; left|].
  refine (applications_get_the_same circulating (λ b, b ∈ [lost.1.1; second.1.1])
    (at_node start 0) (at_node start 1) (at_node both_final 0) (at_node both_final 1) 0 [lost] [lost; second]
    1 second.1.1 _ _ _ _ _ _ _ _ _ _ _ _ _ _ _ _ _).
  - intros b1 b2. rewrite !elem_of_cons, !elem_of_nil.
    intros [->|[->|[]]] [->|[->|[]]] Hh; try reflexivity; vm_compute in Hh; discriminate Hh.
  - intros b. rewrite !elem_of_cons, !elem_of_nil. intros [->|[->|[]]] Hh; vm_compute in Hh; discriminate Hh.
  - intros p p' -> ->. reflexivity.
  - exact toy_created_ok.
  - apply (RInit toy_params (Some 2%N) None); [exact ToyNet.params_ok|vm_compute; reflexivity].
  - apply (gets_after _ _ _ _ _ _ H01), gets; [vm_compute; reflexivity|].
    apply (gets_after _ _ _ _ _ _ H02), GetsNil.
  - apply (gets_after _ _ _ _ _ _ H11), (gets_after _ _ _ _ _ _ H12), gets; [vm_compute; reflexivity|].
    apply gets; [vm_compute; reflexivity|apply GetsNil].
  - apply still_held_check. vm_compute. reflexivity.
  - apply still_held_check. vm_compute. reflexivity.
  - apply chain_check. vm_compute. reflexivity.
  - apply chain_check. vm_compute. reflexivity.
  - intros r b Hb. apply (bool_decide_eq_true (b ∈ [lost.1.1; second.1.1])).
    destruct Hb as [Hb|Hb]; revert r b Hb; apply (held_check (λ b, bool_decide (b ∈ [lost.1.1; second.1.1])));
      vm_compute; reflexivity.
  - vm_compute. reflexivity.
  - vm_compute. reflexivity.
  - intros r Hr. assert (r = 0 ∨ r = 1)%N as [-> | ->] by lia; vm_compute; reflexivity.
  - repeat constructor; vm_compute; discriminate.
  - repeat constructor; vm_compute; discriminate.
Defined.
End Four.
