(* ===== verification/Join.v ===== *)
(** * Creating and joining a consensus ([node/src/node.rs], [node/src/join.rs],
      [node/src/invite.rs], [invite/src/lib.rs])

    A node without a consensus creates one, or joins that of another node with an
    invite.  The invite holds the hash of the initial parameters, the round and
    hash of a recent final block, and an address; everything else the joining
    node asks the node at that address for.  The answers are arguments; the bytes
    of parameters come through [read_message_bao], which checks them against the
    length and the hash that the reader gives. *)
From S2P Require Import Prelude VoteSet Peers Core Db ConsDb ConsInv Consensus ConsRound ConsSteps ConsSpec ConsVotes ConsProps ConsServe ConsFinal Module Ctrl NodeApp Node Network NetInv NetRun PeerAddr AppApi Rpc.

(** [RpcRead::read_message_bao(len, hash)] on what was sent. *)
Class Bao := read_message_bao : N → N → list N → option (list N).
(** The documentation: what is read has the length and the hash, and what was
    written with them can be read. *)
Class BaoLaws `{Crypto} `{Bao} := {
  bao_verified : ∀ len h sent bytes,
    read_message_bao len h sent = Some bytes → blake3 bytes = h ∧ N.of_nat (length bytes) = len;
  bao_complete : ∀ sent, read_message_bao (N.of_nat (length sent)) (blake3 sent) sent = Some sent;
}.

(** [Invite] *)
Record Invite := MkInvite {
  invite_pin : option (BlockRound * BlockHash);
  invite_init_params : option (N * N);
  invite_address : PeerAddress;
}.

(** What the node at the address of the invite answers. *)
Record Inviter := MkInviter {
  params_answer : BlockRound → list N;
  block_answer : GetBlockRequest → option GetBlockResponse;
  address_answer : PeerPubkey → option (Signed AddressUpdate.t);
}.

Section Join.
Context `{Crypto} `{Bincode} `{CItemsCodec} `{Bao} `{Hashable AddressUpdate.t}.
Implicit Types (c : Consensus) (d : ConsDb) (srv : Inviter) (addrs : AddrDb).

Definition never {A B} (o : outcome Empty_set A) : outcome B A := map_err (λ e : Empty_set, match e with end) o.

(** ** Invites ([generate_invite_code]) *)
Definition generate_invite_code (consensus : option Consensus) (iroh_addr : N) : outcome Whatever Invite :=
  match consensus with
  | None => Err "Consensus not initialized"
  | Some consensus =>
      round ← never (read_tx consensus get_finality_consensus);
      block ← match round ≫= round_prev with
              | Some round => never (read_tx consensus (get_prev_notarized_block round))
              | None => Ok None
              end;
      init_params ← never (get_init_params consensus);
      hl ← hash_and_len init_params;
      Ok (MkInvite (option_map (λ b, (BlockHeader.round b, hash b)) block) (Some hl) (Iroh iroh_addr))
  end.

(** ** The requests of the joining node ([rpc.rs]) *)
Definition rpc_get_consensus_params srv (round : BlockRound) (consensus_params_hash consensus_params_len : N) :
    outcome Whatever Payload :=
  match read_message_bao consensus_params_len consensus_params_hash (params_answer srv round) with
  | Some raw => Ok raw
  | None => Err "Failed request get_consensus_params"
  end.
Definition get_peer_address srv (peer_pubkey : PeerPubkey) : outcome Whatever (option (Signed AddressUpdate.t)) :=
  checked_address peer_pubkey (address_answer srv peer_pubkey).

(** The addresses of the peers, one after the other; a failure keeps those that
    were stored before it. *)
Fixpoint fetch_addresses srv (peers : list PeerPubkey) addrs : outcome Whatever () * AddrDb :=
  match peers with
  | [] => (Ok (), addrs)
  | peer_pubkey :: peers' =>
      match get_peer_address srv peer_pubkey with
      | Ok (Some update) =>
          match handle_address_update addrs update with
          | Ok addrs' => fetch_addresses srv peers' addrs'
          | Err _ => (Err "Invalid signature"%string, addrs)
          | Panic w => (Panic w, addrs)
          end
      | Ok None => fetch_addresses srv peers' addrs
      | Err e => (Err e, addrs)
      | Panic w => (Panic w, addrs)
      end
  end.

(** The parameters of a round, and the addresses of its peers. *)
Definition fetch_params srv (round : BlockRound) (hash_and_len : N * N) addrs :
    outcome Whatever ConsensusParams.t * AddrDb :=
  match (raw ← rpc_get_consensus_params srv round hash_and_len.1 hash_and_len.2;
         map_err (λ _, "Failed to parse consensus params"%string) (from_raw raw)) with
  | Ok params =>
      match fetch_addresses srv (ConsensusParams.peers params) addrs with
      | (Ok _, addrs') => (Ok params, addrs')
      | (Err e, addrs') => (Err e, addrs')
      | (Panic w, addrs') => (Panic w, addrs')
      end
  | Err e => (Err e, addrs)
  | Panic w => (Panic w, addrs)
  end.

(** The part of [consensus_join_static_inner] for the pin of the invite. *)
Definition check_pin srv (pin : option (BlockRound * BlockHash)) addrs : outcome Whatever () * AddrDb :=
  match pin with
  | None => (Ok (), addrs)
  | Some (pin_round, pin_block_hash) =>
      match get_block_hashed pin_round pin_block_hash (block_answer srv (MkGetBlockRequest pin_round)) with
      | Ok pin_block =>
          let b := notarized_inner pin_block in
          match fetch_params srv pin_round (BlockHeader.consensus_params_hash b, BlockHeader.consensus_params_len b) addrs with
          | (Ok _, addrs') => (Ok (), addrs')
          | (Err e, addrs') => (Err e, addrs')
          | (Panic w, addrs') => (Panic w, addrs')
          end
      | Err e => (Err e, addrs)
      | Panic w => (Panic w, addrs)
      end
  end.

(** [consensus_join_static_inner], on the database [d] *)
Definition consensus_join_static_inner srv d addrs (invite : Invite) (our_peer_pubkey : option PeerPubkey) :
    outcome Whatever Consensus * AddrDb :=
  let finish (init_params : option ConsensusParams.t) addrs : outcome Whatever Consensus * AddrDb :=
    match check_pin srv (invite_pin invite) addrs with
    | (Ok _, addrs) =>
        (match init_params with
         | None => Err "Init params not available in the invite"%string
         | Some init_params =>
             map_err (λ _, "Failed to initialize consensus"%string)
               (init init_params d our_peer_pubkey (invite_pin invite))
         end, addrs)
    | (Err e, addrs) => (Err e, addrs)
    | (Panic w, addrs) => (Panic w, addrs)
    end in
  match invite_init_params invite with
  | None => finish None addrs
  | Some hash_and_len =>
      match fetch_params srv 0 hash_and_len addrs with
      | (Ok init_params, addrs) => finish (Some init_params) addrs
      | (Err e, addrs) => (Err e, addrs)
      | (Panic w, addrs) => (Panic w, addrs)
      end
  end.

(** ** The life of a node ([Node::new], [consensus_init], [consensus_join]) *)

(** The cell of the consensus, and the database of a node that has none. *)
Record Life := MkLife {
  life_consensus : option Consensus;
  life_db : ConsDb;
  life_addrs : AddrDb;
  life_secret : option N;
}.
Definition current_db (l : Life) : ConsDb :=
  match life_consensus l with Some c => db c | None => life_db l end.
Definition life_pubkey (l : Life) : option PeerPubkey := ed25519_pubkey <$> life_secret l.

Inductive NodeInitError := NoSecret | ConsensusInit (e : InitError).

(** [OnceLock::set(..).ok().expect("Can't be initialized twice")] *)
Definition set_consensus {E} c (l : Life) : outcome E Life :=
  match life_consensus l with
  | None => Ok (MkLife (Some c) (life_db l) (life_addrs l) (life_secret l))
  | Some _ => Panic "Can't be initialized twice"
  end.

(** [consensus_init_static]; a [Vec] becomes a [PeerSet] by sorting it. *)
Definition consensus_init_static d (root_secret : N) (extra_peers : list PeerPubkey)
    (init_core_module_cons_version : ConsensusVersion.t) (now : N) : outcome InitError Consensus :=
  let pubkey := ed25519_pubkey root_secret in
  let params := ConsensusParams.mk 0 init_core_module_cons_version now 0 0 None
                  (PeerSet.sort_unstable (pubkey :: extra_peers)) in
  init params d (Some pubkey) None.
Definition consensus_init (l : Life) (extra_peers : list PeerPubkey) (version : ConsensusVersion.t) (now : N) :
    outcome NodeInitError Life :=
  match life_secret l with
  | None => Err NoSecret
  | Some root_secret =>
      c ← map_err ConsensusInit (consensus_init_static (current_db l) root_secret extra_peers version now);
      set_consensus c l
  end.
(** [consensus_join]; on a failure the addresses stay. *)
Definition consensus_join srv (l : Life) (invite : Invite) : outcome Whatever () * Life :=
  match consensus_join_static_inner srv (current_db l) (life_addrs l) invite (life_pubkey l) with
  | (o, addrs) =>
      let l := MkLife (life_consensus l) (life_db l) addrs (life_secret l) in
      match (c ← o; set_consensus c l) with
      | Ok l' => (Ok (), l')
      | Err e => (Err e, l)
      | Panic w => (Panic w, l)
      end
  end.
(** [Node::new]: a node with a consensus in its database opens it. *)
Definition new_node d addrs (root_secret : option N) (now iroh_addr : N) : outcome Empty_set Life :=
  let pubkey := ed25519_pubkey <$> root_secret in
  consensus ← match open d pubkey with
              | Ok c => Ok (Some c)
              | Err NotInitialized => Ok None
              | Panic w => Panic w
              end;
  match insert_own_address_update now root_secret iroh_addr addrs with
  | Ok addrs' => Ok (MkLife consensus d addrs' root_secret)
  | Err _ => Ok (MkLife consensus d addrs root_secret)
  | Panic w => Panic w
  end.


(** ** What a join depends on *)
Lemma fetch_addresses_wf self srv peers addrs :
  addr_wf self addrs →
  addr_wf self (fetch_addresses srv peers addrs).2 ∧ only_newer addrs (fetch_addresses srv peers addrs).2.
Proof.
  revert addrs. induction peers as [|pk peers IH]; intros addrs Hwf; cbn [fetch_addresses]; [by split; [|apply only_newer_refl]|].
  destruct (get_peer_address srv pk) as [[u|]|e|w]; [|by apply IH|by split; [|apply only_newer_refl]..].
  destruct (handle_address_update addrs u) as [addrs'|e|w] eqn:Hu; [|by split; [|apply only_newer_refl]..].
  destruct (wf_handle self addrs u addrs' Hu Hwf) as [Hwf' Hn]. destruct (IH addrs' Hwf') as [? ?].
  split; [done|by eapply only_newer_trans].
Qed.

Lemma fetch_params_wf self srv round hl addrs :
  addr_wf self addrs →
  addr_wf self (fetch_params srv round hl addrs).2 ∧ only_newer addrs (fetch_params srv round hl addrs).2.
Proof.
  intros Hwf. unfold fetch_params. destruct (mbind _ _) as [p|e|w]; [|by split; [|apply only_newer_refl]..].
  pose proof (fetch_addresses_wf self srv (ConsensusParams.peers p) addrs Hwf) as Hf.
  by destruct (fetch_addresses _ _ _) as [[[]|e|w] addrs'].
Qed.

Lemma check_pin_wf self srv pin addrs :
  addr_wf self addrs → addr_wf self (check_pin srv pin addrs).2 ∧ only_newer addrs (check_pin srv pin addrs).2.
Proof.
  intros Hwf. unfold check_pin. destruct pin as [[r h]|]; [|by split; [|apply only_newer_refl]].
  destruct (get_block_hashed _ _ _) as [b|e|w]; [|by split; [|apply only_newer_refl]..].
  pose proof (fetch_params_wf self srv r (BlockHeader.consensus_params_hash (notarized_inner b),
    BlockHeader.consensus_params_len (notarized_inner b)) addrs Hwf) as Hf. cbv zeta.
  by destruct (fetch_params _ _ _ _) as [[p|e|w] addrs'].
Qed.

Lemma fetch_params_Ok `{!BaoLaws} srv round hl addrs p addrs' :
  fetch_params srv round hl addrs = (Ok p, addrs') →
  ∃ raw, blake3 raw = hl.1 ∧ N.of_nat (length raw) = hl.2 ∧ from_raw raw = Ok p.
Proof.
  unfold fetch_params, rpc_get_consensus_params. intros Hf.
  destruct (read_message_bao hl.2 hl.1 (params_answer srv round)) as [raw|] eqn:Hraw; cbn in Hf; [|done].
  destruct (from_raw raw) as [q|e|w] eqn:Hq; cbn in Hf; [|done..].
  destruct (fetch_addresses srv (ConsensusParams.peers q) addrs) as [[[]|e|w] a]; [|done..].
  injection Hf as -> ->. destruct (bao_verified _ _ _ _ Hraw) as [? ?]. eauto.
Qed.

(** The tables of a consensus that was just created. *)
Definition created_from (params : ConsensusParams.t) (pin : option (BlockRound * BlockHash)) d : Prop :=
  params_at d 0 = Some params ∧ cons_blocks_pinned d = match pin with Some (r, h) => {[r := h]} | None => ∅ end.

Lemma init_created params our pin c : init params empty_db our pin = Ok c → created_from params pin (db c).
Proof.
  intros Hi%init_is_internal. set (d := init_db params pin) in *.
  refine (open_internal_keeps (E:=InitError) (λ d, created_from params pin d) (cur_round_of d) d our c _ _ Hi).
  - intros f. apply keeps_open; done.
  - split; [|by destruct pin as [[r h]|]].
    assert (params_at d 0 = params_at (schedule_params 0 params empty_db) 0) as -> by by destruct pin as [[r h]|].
    unfold params_at. assert (range_last (rg_to_incl 0%N) (cons_params_schedule (schedule_params 0 params empty_db))
      = Some (0%N, params_hash params)) as ->.
    { apply range_last_Some. cbn. rewrite lookup_insert_eq. split_and!; [done|done|].
      intros k v [[<- _]|[_ Hk]]%lookup_insert_Some _; [done|]. by rewrite lookup_empty in Hk. }
    cbn. by rewrite lookup_insert_eq.
Qed.

Lemma join_Ok `{!BaoLaws} srv addrs invite our c addrs' :
  consensus_join_static_inner srv empty_db addrs invite our = (Ok c, addrs') →
  ∃ h len raw params, invite_init_params invite = Some (h, len) ∧
    blake3 raw = h ∧ N.of_nat (length raw) = len ∧ from_raw raw = Ok params ∧
    init params empty_db our (invite_pin invite) = Ok c.
Proof.
  unfold consensus_join_static_inner. cbv zeta. intros Hj.
  destruct (invite_init_params invite) as [[h len]|] eqn:Hi.
  - destruct (fetch_params srv 0 (h, len) addrs) as [[params|e|w] addrs1] eqn:Hf; [|done..].
    destruct (fetch_params_Ok _ _ _ _ _ _ Hf) as (raw & ? & ? & ?).
    destruct (check_pin srv (invite_pin invite) addrs1) as [[[]|e|w] addrs2]; [|done..].
    injection Hj as Hc <-. exists h, len, raw, params. split_and!; [done..|].
    destruct (init params empty_db our (invite_pin invite)); [by injection Hc as ->|done..].
  - by destruct (check_pin srv (invite_pin invite) addrs) as [[[]|e|w] addrs2].
Qed.

Lemma join_addresses self srv d addrs invite our :
  addr_wf self addrs →
  addr_wf self (consensus_join_static_inner srv d addrs invite our).2 ∧
  only_newer addrs (consensus_join_static_inner srv d addrs invite our).2.
Proof.
  intros Hwf. unfold consensus_join_static_inner. cbv zeta.
  destruct (invite_init_params invite) as [hl|].
  - destruct (fetch_params_wf self srv 0 hl addrs Hwf) as [Hwf1 Hn1].
    destruct (fetch_params srv 0 hl addrs) as [[params|e|w] addrs1]; cbn in *; [|done..].
    destruct (check_pin_wf self srv (invite_pin invite) addrs1 Hwf1) as [Hwf2 Hn2].
    destruct (check_pin srv (invite_pin invite) addrs1) as [[[]|e|w] addrs2]; cbn in *;
      (split; [done|by eapply only_newer_trans]).
  - destruct (check_pin_wf self srv (invite_pin invite) addrs Hwf) as [Hwf2 Hn2].
    by destruct (check_pin srv (invite_pin invite) addrs) as [[[]|e|w] addrs2].
Qed.

(** C29: A node that joins depends on its invite alone for what it trusts.
    Whatever the node at the address of the invite answers, a join that succeeds
    leaves the consensus with the initial parameters whose encoding has the hash
    and length in the invite, and with the block of the invite pinned; the
    addresses it got on the way are signed by their peers. *)
Theorem join_trusts_invite_only `{!BaoLaws} self srv addrs invite our c addrs' :
  consensus_join_static_inner srv empty_db addrs invite our = (Ok c, addrs') → addr_wf self addrs →
  (∃ raw params, invite_init_params invite = Some (blake3 raw, N.of_nat (length raw)) ∧
     from_raw raw = Ok params ∧ params_at (db c) 0 = Some params) ∧
  cons_blocks_pinned (db c) = match invite_pin invite with Some (r, h) => {[r := h]} | None => ∅ end ∧
  addr_wf self addrs' ∧ only_newer addrs addrs'.
Proof.
  intros Hj Hwf. pose proof (join_addresses self srv empty_db addrs invite our Hwf) as Ha. rewrite Hj in Ha.
  destruct (join_Ok _ _ _ _ _ _ Hj) as (h & len & raw & params & Hi & <- & <- & Hp & Hc).
  destruct (init_created _ _ _ _ Hc) as [Hp0 Hpin]. split_and!; [by exists raw, params|done|apply Ha..].
Qed.

(** ** Joining with the invite of a node *)

(** A node with the consensus [c] and the addresses [addrs] at the other end:
    the handlers of [rpc_server.rs]. *)
Definition serve_consensus c addrs : Inviter := {|
  params_answer := λ round, match handle_get_consensus_params c round with Ok raw => raw | _ => [] end;
  block_answer := λ req, match handle_get_block c req with Ok resp => resp | _ => None end;
  address_answer := λ peer_pubkey, (handle_get_peer_addr_update addrs peer_pubkey).1;
|}.

Lemma fetch_addresses_served self c iaddrs peers addrs :
  addr_wf self iaddrs → ∃ addrs', fetch_addresses (serve_consensus c iaddrs) peers addrs = (Ok (), addrs').
Proof.
  intros Hwf. revert addrs. induction peers as [|pk peers IH]; intros addrs; cbn [fetch_addresses]; [by eexists|].
  unfold get_peer_address, checked_address. cbn [address_answer serve_consensus]. unfold handle_get_peer_addr_update, get_peer_addr.
  destruct (peer_addresses iaddrs !! pk) as [u|] eqn:Hu; cbn [fst]; [|apply IH].
  destruct (aw_genuine _ _ Hwf pk u Hu) as [Hpk Hg]. rewrite decide_True by done.
  assert (verify_sig_peer_pubkey u pk = Ok ()) as Hver by (rewrite <-Hpk; exact Hg).
  rewrite Hver. cbn. unfold genuine in Hg. unfold handle_address_update. rewrite Hg. cbn. apply IH.
Qed.

Lemma fetch_params_served `{!BaoLaws} self c iaddrs addrs r p :
  addr_wf self iaddrs → params_at (db c) r = Some p → from_raw (to_raw p) = Ok p →
  ∃ addrs', fetch_params (serve_consensus c iaddrs) r (params_hash p, N.of_nat (length (to_raw p))) addrs = (Ok p, addrs').
Proof.
  intros Hwf Hp Hraw. unfold fetch_params, rpc_get_consensus_params. cbn [params_answer serve_consensus fst snd].
  assert (get_round_params c r = Ok p) as Hget by (by apply read_with_expect_Ok, get_consensus_params_Ok).
  unfold handle_get_consensus_params. rewrite Hget. cbn.
  change (params_hash p) with (blake3 (to_raw p)). rewrite bao_complete. cbn. rewrite Hraw. cbn.
  destruct (fetch_addresses_served self c iaddrs (ConsensusParams.peers p) addrs Hwf) as [addrs' ->]. eauto.
Qed.

(** The pin of an invite is a final block of the node that made it. *)
Lemma pin_of_invite c iroh_addr invite r h :
  DbInv (db c) → generate_invite_code (Some c) iroh_addr = Ok invite → invite_pin invite = Some (r, h) →
  ∃ b, cons_blocks_notarized (db c) !! r = Some b ∧ BlockHeader.round b = r ∧ hash b = h ∧
    (r + 1 < default 0 (cons_finality_consensus (db c)))%N.
Proof.
  intros Hinv Hg Hpin. unfold generate_invite_code in Hg.
  apply bind_Ok in Hg as (f & Hf & (blk & Hb & (ip & _ & (hl & _ & [= <-])%bind_Ok)%bind_Ok)%bind_Ok). cbn in Hpin.
  unfold never in *. cbn in Hf. injection Hf as <-.
  destruct (cons_finality_consensus (db c)) as [f|]; cbn in Hb; [|injection Hb as <-; done].
  unfold round_prev in Hb. destruct (checked_sub f 1) as [f'|] eqn:Hsub; [|injection Hb as <-; done].
  apply checked_sub_Some in Hsub as [-> Hle]. cbn in Hb. injection Hb as <-.
  destruct (prev_notarized (f - 1) (db c)) as [b|] eqn:Hp; [|done]. cbn in Hpin. injection Hpin as <- <-.
  apply prev_notarized_Some in Hp as (Hb & Hlt & _); [|done]. exists b. split_and!; [done|done|done|]. cbn. lia.
Qed.

Lemma get_block_served c b :
  reachable c → (cur c ≤ u64_max)%N → cons_blocks_notarized (db c) !! BlockHeader.round b = Some b →
  (BlockHeader.round b + 1 < default 0 (cons_finality_consensus (db c)))%N →
  ∃ sigs, get_block_hashed (BlockHeader.round b) (hash b)
    (match handle_get_block c (MkGetBlockRequest (BlockHeader.round b)) with Ok resp => resp | _ => None end) =
    Ok (notarized_new b sigs).
Proof.
  intros Hr Hmax Hb Hf. pose proof (reachable_wf c Hr) as [Hrest _].
  pose proof (stored_finality_announced c Hr) as Hann. unfold stored_le_announced in Hann.
  pose proof (rb_notarized _ _ _ _ (rest_bounds _ Hrest) _ _ Hb) as Hcur. unfold cur in Hmax.
  assert (prev_notarized (BlockHeader.round b + 1) (db c) = Some b) as Hprev.
  { apply prev_notarized_Some; [apply Hrest|]. split_and!; [done|lia|]. intros r' b' _ ?. lia. }
  unfold handle_get_block, get_finalized_block. cbn [gb_round].
  destruct (N.leb_spec (finality_consensus (watches c)) (BlockHeader.round b)); [lia|].
  assert (round_next (BlockHeader.round b) = Some (BlockHeader.round b + 1)%N) as Hnext
    by (unfold round_next, checked_add; rewrite decide_True by lia; done).
  rewrite Hnext. unfold read_tx, read_with_expect, read_with_inner_falliable, get_prev_notarized_block, get_votes_proposal,
    rd_get, mbind, rd_bind. rewrite Hprev. cbn. unfold get_block_hashed, get_block. cbn.
  eexists. rewrite decide_True by done. cbn. by rewrite decide_True.
Qed.

(** A node with a consensus gives out invites with its initial parameters. *)
Lemma invite_code_total c p iroh_addr :
  reachable c → params_at (db c) 0 = Some p →
  ∃ pin, generate_invite_code (Some c) iroh_addr =
    Ok (MkInvite pin (Some (params_hash p, N.of_nat (length (to_raw p)))) (Iroh iroh_addr)).
Proof.
  intros Hr Hp. pose proof (rest_inv _ (proj1 (reachable_wf c Hr))) as Hinv.
  destruct (params_at_wf _ 0 Hinv) as (q & Hq & Hpwf). rewrite Hp in Hq. injection Hq as <-.
  assert (get_init_params c = Ok p) as Hinit by (by apply read_with_expect_Ok, get_consensus_params_Ok).
  pose proof (params_len_wf (E:=Whatever) p Hpwf) as Hlen. unfold params_len in Hlen.
  unfold generate_invite_code. rewrite Hinit. unfold hash_and_len. cbn. rewrite Hlen.
  destruct (cons_finality_consensus (db c) ≫= round_prev) as [f|] eqn:Hf; cbn in Hf; rewrite ?Hf; cbn; eauto.
Qed.

(** C28: An invite works: a node without a consensus that joins with the invite
    code of a node, which answers as [rpc_server.rs] does and stays in the same
    state, gets a consensus, with the initial parameters of that node and with a
    block pinned that is notarized there and final.  (The parameters of the node
    are assumed to decode from their encoding.) *)
Theorem join_with_invite `{!BaoLaws} self c iaddrs iroh_addr addrs our :
  reachable c → (cur c ≤ u64_max)%N → addr_wf self iaddrs →
  (∀ r p, params_at (db c) r = Some p → from_raw (to_raw p) = Ok p) →
  ∃ invite c' addrs',
    generate_invite_code (Some c) iroh_addr = Ok invite ∧
    consensus_join_static_inner (serve_consensus c iaddrs) empty_db addrs invite our = (Ok c', addrs') ∧
    reachable c' ∧ params_at (db c') 0 = params_at (db c) 0 ∧
    (∀ r h, invite_pin invite = Some (r, h) → cons_blocks_pinned (db c') = {[r := h]} ∧
       ∃ b, cons_blocks_notarized (db c) !! r = Some b ∧ hash b = h ∧ (r < finality_consensus (watches c))%N).
Proof.
  intros Hr Hmax Hwf Hdecode. pose proof (reachable_wf c Hr) as [Hrest _]. pose proof (rest_inv _ Hrest) as Hinv.
  destruct (params_at_wf _ 0 Hinv) as (p & Hp & Hpwf).
  destruct (invite_code_total c p iroh_addr Hr Hp) as [pin Hinvite].
  set (invite := MkInvite pin _ _) in *.
  destruct (fetch_params_served self c iaddrs addrs 0 p Hwf Hp (Hdecode 0%N p Hp)) as [addrs1 Hfetch].
  assert (∃ addrs2, check_pin (serve_consensus c iaddrs) pin addrs1 = (Ok (), addrs2)) as [addrs2 Hpin].
  { destruct pin as [[r h]|]; [|by exists addrs1]. cbn [check_pin].
    destruct (pin_of_invite c iroh_addr invite r h Hinv Hinvite eq_refl) as (b & Hb & <- & <- & Hfin).
    destruct (get_block_served c b Hr Hmax Hb Hfin) as [s Hs]. cbn [block_answer serve_consensus]. rewrite Hs. cbv zeta.
    change (notarized_inner (notarized_new b s)) with b.
    destruct (proj1 (inv_notarized _ Hinv _ _ Hb)) as (_ & _ & _ & (q & Hq & Hqh & Hql) & _). rewrite Hqh, Hql.
    destruct (fetch_params_served self c iaddrs addrs1 _ q Hwf Hq (Hdecode _ _ Hq)) as [addrs3 ->]. eauto. }
  destruct (init_total p our pin Hpwf) as [c' Hc']. destruct (init_created _ _ _ _ Hc') as [Hp' Hpinned].
  exists invite, c', addrs2. split_and!; [done| |by eapply RInit|by rewrite Hp'|].
  - unfold consensus_join_static_inner. cbn [invite_init_params invite_pin invite]. rewrite Hfetch, Hpin, Hc'. done.
  - cbn [invite_pin invite]. intros r h ->. split; [done|].
    destruct (pin_of_invite c iroh_addr invite r h Hinv Hinvite eq_refl) as (b & Hb & _ & Hh & Hfin).
    exists b. split_and!; [done|done|]. pose proof (stored_finality_announced c Hr) as Hann.
    unfold stored_le_announced in Hann. lia.
Qed.

(** ** Creating a consensus *)
Lemma consensus_init_static_total sk extra version now :
  NoDup (ed25519_pubkey sk :: extra) →
  Forall (λ pk, verifying_key_ok pk = true) (ed25519_pubkey sk :: extra) → (length extra ≤ 254)%nat →
  (∀ peers, (length peers ≤ 255)%nat →
     (N.of_nat (length (to_raw (ConsensusParams.mk 0 version now 0 0 None peers))) ≤ u32_max)%N) →
  ∃ c p, consensus_init_static empty_db sk extra version now = Ok c ∧
    init p empty_db (Some (ed25519_pubkey sk)) None = Ok c ∧ params_wf p ∧
    ConsensusParams.peers p ≡ₚ ed25519_pubkey sk :: extra.
Proof.
  intros Hnd Hkeys Hlen Hraw. unfold consensus_init_static. set (peers := PeerSet.sort_unstable _).
  assert (peers ≡ₚ ed25519_pubkey sk :: extra) as Hperm by apply PeerSet.sort_unstable_perm.
  assert (params_wf (ConsensusParams.mk 0 version now 0 0 None peers)) as Hwf.
  { constructor; cbn [ConsensusParams.peers]; [rewrite Hperm; cbn; lia..|by apply PeerSet.sort_wf|by rewrite Hperm|].
    apply Hraw. rewrite Hperm. cbn. lia. }
  destruct (init_total _ (Some (ed25519_pubkey sk)) None Hwf) as [c Hc]. eexists c, _.
  split_and!; [exact Hc|exact Hc|exact Hwf|exact Hperm].
Qed.

(** Creating a consensus works for every set of other peers that are valid
    keys, distinct, and at most 254: the node is then in the first round of a
    consensus whose peers are its own key and the others.  It is done once: a
    node that has a consensus is not given another one, by creating or by
    joining. *)
Theorem consensus_is_created_once (l : Life) sk extra version now srv invite :
  life_secret l = Some sk →
  (life_consensus l = None → life_db l = empty_db → NoDup (ed25519_pubkey sk :: extra) →
   Forall (λ pk, verifying_key_ok pk = true) (ed25519_pubkey sk :: extra) → (length extra ≤ 254)%nat →
   (∀ peers, (length peers ≤ 255)%nat →
      (N.of_nat (length (to_raw (ConsensusParams.mk 0 version now 0 0 None peers))) ≤ u32_max)%N) →
   ∃ c l' p, consensus_init l extra version now = Ok l' ∧ life_consensus l' = Some c ∧ reachable c ∧
     params_at (db c) 0 = Some p ∧ ConsensusParams.peers p ≡ₚ ed25519_pubkey sk :: extra) ∧
  (∀ c, life_consensus l = Some c →
     (∀ l', consensus_init l extra version now ≠ Ok l') ∧ life_consensus (consensus_join srv l invite).2 = Some c).
Proof.
  intros Hsk. split.
  - intros Hnone Hdb Hnd Hkeys Hlen Hraw. unfold consensus_init, current_db. rewrite Hsk, Hnone, Hdb.
    destruct (consensus_init_static_total sk extra version now Hnd Hkeys Hlen Hraw) as (c & p & Hc & Hi & Hwf & Hperm).
    rewrite Hc. cbn. unfold set_consensus. rewrite Hnone. destruct (init_created _ _ _ _ Hi) as [Hp _].
    eexists c, _, _. split_and!; [done|done|by eapply RInit|exact Hp|exact Hperm].
  - intros c Hc. split.
    + intros l' Hl. unfold consensus_init in Hl. rewrite Hsk in Hl. apply bind_Ok in Hl as (c' & _ & Hl).
      unfold set_consensus in Hl. by rewrite Hc in Hl.
    + unfold consensus_join. destruct (consensus_join_static_inner _ _ _ _ _) as [o addrs].
      destruct o as [c'|e|w]; cbn; [|done..]. unfold set_consensus. cbn. by rewrite Hc.
Qed.
End Join.

(** ** A concrete invite *)
Section Witnesses.
Local Existing Instance Toy.bincode.
Local Existing Instance Toy.crypto.
Local Existing Instance ToyNet.codec.
Local Existing Instance toy_address_hashable.
Local Instance toy_bao : Bao := λ len h sent,
  if decide (N.of_nat (length sent) = len ∧ blake3 sent = h) then Some sent else None.
Local Instance toy_bao_laws : BaoLaws.
Proof.
  split.
  - intros len h sent bytes. unfold read_message_bao, toy_bao. case_decide as Hs; [|done]. intros [= <-]. by destruct Hs.
  - intros sent. unfold read_message_bao, toy_bao. by rewrite decide_True.
Qed.

(** The block of round 0 is final at the node with the key 0, which is in round 1. *)
Definition inviter : Consensus := run_finality (voted_on item_payload) [(1, 2); (2, 2); (3, 2)]%N.
Definition inviter_addrs : AddrDb := learned.
Definition no_addrs : AddrDb := MkAddrDb ∅ ∅ ∅.
Definition toy_invite : Invite :=
  MkInvite (Some (0%N, hash (app_block item_payload)))
    (Some (params_hash toy_params, N.of_nat (length (to_raw toy_params)))) (Iroh 70).

Lemma no_addrs_wf self : addr_wf self no_addrs.
Proof. split; intros pk; cbn; rewrite lookup_empty; [discriminate|by intros [? ?]]. Qed.
Lemma inviter_addrs_wf : addr_wf (Some 1%N) inviter_addrs.
Proof.
  destruct (wf_handle (Some 1%N) no_addrs (toy_update 3 5 70) learned) as [Hl _]; [vm_compute; reflexivity| |exact Hl].
  apply no_addrs_wf.
Qed.
Lemma inviter_reachable : reachable inviter.
Proof. apply reachable_finality, reachable_run, toy_created_ok. Qed.

Lemma join_with_invite_witness :
  generate_invite_code (Some inviter) 70 = Ok toy_invite ∧
  ∃ c' addrs', consensus_join_static_inner (serve_consensus inviter inviter_addrs) empty_db no_addrs toy_invite None
    = (Ok c', addrs') ∧ cons_blocks_pinned (db c') = {[0%N := hash (app_block item_payload)]}.
Proof.
  assert (generate_invite_code (Some inviter) 70 = Ok toy_invite) as Hg by (vm_compute; reflexivity).
  split; [exact Hg|].
  destruct (join_with_invite (Some 1%N) inviter inviter_addrs 70 no_addrs None) as (invite & c' & addrs' & Hi & Hj & _ & _ & Hpin).
  - exact inviter_reachable.
  - vm_compute. discriminate.
  - exact inviter_addrs_wf.
  - intros r p Hp.
    assert (map_Forall (λ _ q, q = toy_params) (cons_params (db inviter))) as Hall
      by (apply (bool_decide_unpack _); vm_compute; exact I).
    unfold params_at in Hp. destruct (range_last _ _) as [[k h]|]; [|discriminate].
    pose proof (Hall h p Hp) as Heq. cbv beta in Heq. rewrite Heq. vm_compute. reflexivity.
  - rewrite Hg in Hi. injection Hi as <-. exists c', addrs'. split; [exact Hj|].
    destruct (Hpin 0%N (hash (app_block item_payload)) eq_refl) as [Hpinned _]. exact Hpinned.
Defined.

(** An answer with other parameters than those of the invite is not accepted, and
    the right one is. *)
Lemma join_trusts_invite_only_witness :
  (consensus_join_static_inner (MkInviter (λ _, [1%N]) (λ _, None) (λ _, None)) empty_db no_addrs toy_invite None).1
    = Err "Failed request get_consensus_params"%string ∧
  ∃ c', (consensus_join_static_inner (serve_consensus inviter inviter_addrs) empty_db no_addrs toy_invite None).1 = Ok c' ∧
    cons_blocks_pinned (db c') = {[0%N := hash (app_block item_payload)]}.
Proof.
  split; [vm_compute; reflexivity|].
  destruct (consensus_join_static_inner (serve_consensus inviter inviter_addrs) empty_db no_addrs toy_invite None)
    as [[c'|e|w] addrs'] eqn:Hj; [|vm_compute in Hj; discriminate..].
  exists c'. split; [reflexivity|].
  destruct (join_trusts_invite_only (Some 1%N) _ _ _ _ _ _ Hj (no_addrs_wf _)) as (_ & Hpin & _). exact Hpin.
Defined.

Definition toy_life : Life := MkLife None empty_db no_addrs (Some 4%N).

Lemma consensus_is_created_once_witness :
  ∃ c l', consensus_init toy_life [2%N; 9%N] (ConsensusVersion.mk 0 0) 77 = Ok l' ∧ life_consensus l' = Some c ∧ reachable c.
Proof.
  destruct (consensus_is_created_once toy_life 4 [2%N; 9%N] (ConsensusVersion.mk 0 0) 77
    (MkInviter (λ _, []) (λ _, None) (λ _, None)) toy_invite eq_refl) as [Hinit _].
  destruct Hinit as (c & l' & p & Hl & Hc & Hr & _).
  - reflexivity.
  - reflexivity.
  - apply (bool_decide_unpack _). vm_compute. exact I.
  - repeat constructor.
  - cbn. lia.
  - intros peers Hlen. unfold to_raw, encode_consensus_params, Toy.bincode, Toy.encode_params. cbn -[N.of_nat].
    unfold u32_max. lia.
  - exists c, l'. split; [exact Hl|]. split; [exact Hc|exact Hr].
Defined.
End Witnesses.
