(* ===== verification/Wake.v ===== *)
(** * Who is woken, and when ([node/src/rpc_server.rs], [node/src/run_consensus.rs],
      [db/src/lib.rs])

    Tasks of a node wait for the consensus with one pattern: a loop that reads the
    tables, ends when it finds what it waits for, and sleeps until something is sent
    on a channel.  A write transaction first commits and then runs its hooks, one
    after the other, and what sends on the channels are hooks.  Readers do not take
    the lock that keeps writers apart; so here the commit, every hook and every
    step of a task are steps of their own, where the other files take a transaction
    with its hooks as one step.  The loops in question are those of the handlers of
    requests for votes and for notarized blocks, and of the task that votes for the
    proposal. *)
From S2P Require Import Prelude VoteSet Peers Core Db ConsDb ConsInv Consensus ConsRound ConsSteps ConsSpec ConsVotes ConsProps ConsServe ConsFinal ConsChain Rpc.

(** ** Channels

    The values, and how often the channel of the round was sent:
    [send_if_modified] sends when the value changes, and a channel of [()] has no
    value but counts already. *)
Record Channels := MkChannels { values : Watches; rounds_sent : N }.
Definition run_hook_on (ch : Channels) (h : Hook) : Channels :=
  let w := run_hook (values ch) h in
  MkChannels w (if decide (current_round_with_timeout w = current_round_with_timeout (values ch))
                then rounds_sent ch else rounds_sent ch + 1)%N.

(** A process: the committed tables, the channels, and the hooks of the latest
    transaction that have not run yet. *)
Record Process := MkProcess { tables : ConsDb; channels : Channels; unrun : list Hook }.
Definition settled (p : Process) : Channels := foldl run_hook_on (channels p) (unrun p).

(** ** The loops

    [answer] is what a read of the tables gives, [gives_up] a second exit that
    looks at a channel, [sent] how often the channel that wakes the loop was sent.
    A receiver remembers how much of it it has [seen]: [changed] waits for more. *)
Record WaitLoop (A : Type) := MkWaitLoop {
  answer : ConsDb → outcome Empty_set (option A);
  gives_up : Watches → bool;
  sent : Channels → N;
}.
Arguments MkWaitLoop {A}.
Arguments answer {A}.
Arguments gives_up {A}.
Arguments sent {A}.
Inductive LoopStage (A : Type) :=
  | LoopRead (seen : N)
  | LoopCheck (seen : N)
  | LoopSleep (seen : N)
  | LoopEnd (result : option A).
Arguments LoopRead {A}.
Arguments LoopCheck {A}.
Arguments LoopSleep {A}.
Arguments LoopEnd {A}.

Inductive loop_step {A} (L : WaitLoop A) (p : Process) : LoopStage A → LoopStage A → Prop :=
  | loop_found seen a : answer L (tables p) = Ok (Some a) → loop_step L p (LoopRead seen) (LoopEnd (Some a))
  | loop_nothing seen : answer L (tables p) = Ok None → loop_step L p (LoopRead seen) (LoopCheck seen)
  | loop_gives_up seen : gives_up L (values (channels p)) = true → loop_step L p (LoopCheck seen) (LoopEnd None)
  | loop_sleeps seen : gives_up L (values (channels p)) = false → loop_step L p (LoopCheck seen) (LoopSleep seen)
  | loop_woken seen : sent L (channels p) ≠ seen → loop_step L p (LoopSleep seen) (LoopRead (sent L (channels p))).

Section Loops.
Context `{Crypto} `{Bincode}.

(** The loop of [handle_wait_vote_try]. *)
Definition vote_loop (req : WaitVoteRequest) (req_round_params : ConsensusParams.t) (peer_idx : PeerIdx) :
    WaitLoop WaitVoteResponse := {|
  answer d := resp ← read_with_expect (get_vote_rd (wv_round req) req_round_params peer_idx) d;
    Ok match resp with
       | Some resp => if negb (only_dummy req) || is_dummy (signed_inner (resp_block resp)) then Some resp else None
       | None => None
       end;
  gives_up w := (wv_round req <? (current_round_with_timeout w).1)%N;
  sent ch := new_votes (values ch);
|}.
(** The loop of [handle_wait_notarized_block_try]. *)
Definition notarized_loop (req : WaitNotarizedBlockRequest) : WaitLoop WaitNotarizedBlockResponse := {|
  answer := read_with_expect (get_notarized_block_resp_rd req);
  gives_up _ := false;
  sent := rounds_sent;
|}.
(** The loop of [run_consensus_round_spawn_vote_proposal_task]. *)
Definition proposal_loop (round : BlockRound) : WaitLoop BlockHeader.t := {|
  answer := read_with_expect (get_proposal round);
  gives_up _ := false;
  sent ch := new_proposal (values ch);
|}.

(** ** The writers

    The transactions that commit while the node runs, with the tables and the
    hooks that they leave. *)
Inductive commits (c : Consensus) : TxState ConsDb Hook → Prop :=
  | CommitVote i resp s :
      process_vote_response_tx (our_peer_pubkey c) i resp (MkTx (db c) []) = Ok ((), s) → commits c s
  | CommitNotarized resp s :
      (BlockHeader.round (notarized_inner (resp_notarized resp)) < u64_max)%N →
      process_notarized_block_response_tx (our_peer_pubkey c) resp (MkTx (db c) []) = Ok ((), s) → commits c s
  | CommitFinality pk resp s :
      process_finality_vote_update_response_tx pk resp (MkTx (db c) []) = Ok ((), s) → commits c s
  | CommitParams round ts peers s :
      change_ok c round ts peers →
      consensus_params_change_tx (E:=Empty_set) (current_round_with_timeout (watches c)).1 round ts peers
        (MkTx (db c) []) = Ok ((), s) → commits c s.

Variable our : option PeerPubkey.
Definition now (p : Process) : Consensus := MkConsensus (tables p) our (values (channels p)).
(** The consensus once the hooks have run, which is what the other files see. *)
Definition after_hooks (p : Process) : Consensus := MkConsensus (tables p) our (values (settled p)).

(** One writer at a time, with its hooks ([commit_hook_order_lock]).  The next
    transaction may begin while the hooks of the last one run; but what it does
    depends on the tables only, apart from a check of new parameters, which is
    made here when it commits.  [ok] limits the commits that are considered. *)
Inductive process_step (ok : Consensus → TxState ConsDb Hook → Prop) : Process → Process → Prop :=
  | process_commit d ch s :
      let p := MkProcess d ch [] in
      commits (now p) s → ok (now p) s → process_step ok p (MkProcess (tx_db s) ch (tx_hooks s))
  | process_hook d ch h hs : process_step ok (MkProcess d ch (h :: hs)) (MkProcess d (run_hook_on ch h) hs).

Inductive loop_run {A} (L : WaitLoop A) ok : Process * LoopStage A → Process * LoopStage A → Prop :=
  | RunRefl x : loop_run L ok x x
  | RunProcess x p p' st : loop_run L ok x (p, st) → process_step ok p p' → loop_run L ok x (p', st)
  | RunLoop x p st st' : loop_run L ok x (p, st) → loop_step L p st st' → loop_run L ok x (p, st').
Definition any_commit (c : Consensus) (s : TxState ConsDb Hook) : Prop := True.

(** ** Small steps and whole transactions *)
Lemma values_foldl ch hs : values (foldl run_hook_on ch hs) = foldl run_hook (values ch) hs.
Proof. revert ch. induction hs as [|h hs IH]; intros ch; [done|]. cbn. by rewrite IH. Qed.

Lemma write_tx_Ok {E A} c (f : CTx E A) a s :
  f (MkTx (db c) []) = Ok (a, s) → write_tx c f = (Ok a, MkConsensus (tx_db s) (our_peer_pubkey c) (foldl run_hook (watches c) (tx_hooks s))).
Proof.
  intros Hf. unfold write_tx, write_with_expect_falliable, write_with_inner_falliable. cbn [fst snd]. by rewrite Hf.
Qed.
Lemma commits_cstep c s :
  commits c s → cstep c (MkConsensus (tx_db s) (our_peer_pubkey c) (foldl run_hook (watches c) (tx_hooks s))).
Proof.
  intros Hc. destruct Hc as [i resp s Hs|resp s Hr Hs|pk resp s Hs|round ts peers s Hok Hs]; apply write_tx_Ok in Hs.
  - pose proof (CVote c i resp) as Hstep. unfold process_vote_response in Hstep. by rewrite Hs in Hstep.
  - pose proof (CNotarized c 0%N resp Hr) as Hstep. unfold process_notarized_block_response in Hstep. by rewrite Hs in Hstep.
  - pose proof (CFinality c pk resp) as Hstep. unfold process_finality_vote_update_response in Hstep. by rewrite Hs in Hstep.
  - pose proof (CParams c round ts peers Hok) as Hstep. by rewrite Hs in Hstep.
Qed.

(** At every moment the tables, and the channels as they will be, are those of a
    consensus that takes whole transactions. *)
Lemma process_step_reachable ok p p' :
  reachable (after_hooks p) → process_step ok p p' → reachable (after_hooks p').
Proof.
  intros Hr Hs. destruct Hs as [d ch s p Hc _|d ch h hs]; [|exact Hr].
  unfold after_hooks, settled. cbn [tables channels unrun]. rewrite values_foldl.
  eapply RStep; [exact Hr|]. exact (commits_cstep _ _ Hc).
Qed.
End Loops.

(** ** What makes a loop end *)

(** [L] sleeps on the right channel: whatever commits, when the tables get an answer
    then the channel is sent. *)
Class Announced `{Crypto} `{Bincode} {A} (L : WaitLoop A) (our : option PeerPubkey)
    (ok : Consensus → TxState ConsDb Hook → Prop) : Prop := {
  sent_grows ch h : (sent L ch ≤ sent L (run_hook_on ch h))%N;
  sent_answer d ch s : let c := MkConsensus d our (values ch) in
    reachable c → commits c s → ok c s → answer L d = Ok None →
    answer L (tx_db s) = Ok None ∨ (sent L ch < sent L (foldl run_hook_on ch (tx_hooks s)))%N;
}.

Section Awake.
Context `{Crypto} `{Bincode} {A : Type} (L : WaitLoop A) (our : option PeerPubkey)
  (ok : Consensus → TxState ConsDb Hook → Prop) `{!Announced L our ok}.

(** What a loop knows: since it read that there is no answer there still is none,
    or the channel was sent or will be. *)
Definition loop_ok (p : Process) (st : LoopStage A) : Prop :=
  match st with
  | LoopRead seen => (seen ≤ sent L (channels p))%N
  | LoopCheck seen | LoopSleep seen => (seen ≤ sent L (channels p))%N ∧
      (answer L (tables p) = Ok None ∨ (seen < sent L (settled p))%N)
  | LoopEnd _ => True
  end.

Lemma sent_settles ch hs : (sent L ch ≤ sent L (foldl run_hook_on ch hs))%N.
Proof.
  revert ch. induction hs as [|h hs IH]; intros ch; [done|]. cbn. pose proof (sent_grows ch h). specialize (IH (run_hook_on ch h)). lia.
Qed.

Lemma process_step_loop p p' st :
  reachable (after_hooks our p) → process_step our ok p p' → loop_ok p st → loop_ok p' st.
Proof.
  intros Hr Hs Hst. destruct Hs as [d ch s p Hc Hok|d ch h hs].
  - pose proof (sent_settles ch (tx_hooks s)) as Hle.
    assert (∀ seen, (seen ≤ sent L ch)%N → answer L d = Ok None ∨ (seen < sent L ch)%N →
      answer L (tx_db s) = Ok None ∨ (seen < sent L (foldl run_hook_on ch (tx_hooks s)))%N) as Hgo.
    { intros seen Hseen [Hn|Hlt]; [|right; lia].
      destruct (sent_answer d ch s Hr Hc Hok Hn) as [?|Hlt]; [by left|right; lia]. }
    destruct st; cbn in *; [done|split; [by apply Hst|]; apply Hgo; by apply Hst..|done].
  - pose proof (sent_grows ch h) as Hle. destruct st; cbn in *; [lia|split; [lia|]; by apply Hst..|done].
Qed.
Lemma loop_step_ok p st st' : loop_step L p st st' → loop_ok p st → loop_ok p st'.
Proof. intros Hs Hst. destruct Hs; cbn in *; try done; [by split; [|left]]. Qed.

Lemma loop_run_ok p0 seen0 p st :
  reachable (after_hooks our p0) → (seen0 ≤ sent L (channels p0))%N →
  loop_run our L ok (p0, LoopRead seen0) (p, st) → reachable (after_hooks our p) ∧ loop_ok p st.
Proof.
  intros Hr Hseen Hrun. remember (p0, LoopRead seen0) as x eqn:Hx. remember (p, st) as y eqn:Hy. revert p st Hy.
  induction Hrun as [x|x p1 p2 st1 _ IH Hs|x p1 st1 st2 _ IH Hs]; intros p st Hy; simplify_eq; [done|..].
  - destruct (IH eq_refl p1 st eq_refl) as [Hr1 Hok]. split; [by eapply process_step_reachable|by eapply process_step_loop].
  - destruct (IH eq_refl p st1 eq_refl) as [Hr1 Hok]. split; [done|by eapply loop_step_ok].
Qed.

(** The loop ends by its own steps: with the answer, or because it gives up. *)
Definition ends_by_itself (p : Process) (a : A) (st : LoopStage A) : Prop :=
  match st with
  | LoopEnd _ => True
  | _ => ∃ result, rtc (loop_step L p) st (LoopEnd result) ∧
      (result = Some a ∨ result = None ∧ gives_up L (values (channels p)) = true)
  end.

Lemma answer_ends_loop p0 seen0 p st a :
  reachable (after_hooks our p0) → (seen0 ≤ sent L (channels p0))%N →
  loop_run our L ok (p0, LoopRead seen0) (p, st) →
  unrun p = [] → answer L (tables p) = Ok (Some a) → ends_by_itself p a st.
Proof.
  intros Hr Hseen Hrun Hdone Ha. destruct (loop_run_ok _ _ _ _ Hr Hseen Hrun) as [_ Hok].
  assert (∀ seen, rtc (loop_step L p) (LoopRead seen) (LoopEnd (Some a))) as Hread.
  { intros seen. apply rtc_once. by apply loop_found. }
  assert (∀ seen, loop_ok p (LoopSleep seen) → rtc (loop_step L p) (LoopSleep seen) (LoopEnd (Some a))) as Hsleep.
  { intros seen [_ [Hn|Hlt]]; [congruence|]. unfold settled in Hlt. rewrite Hdone in Hlt. cbn in Hlt.
    eapply rtc_l; [apply loop_woken; lia|apply Hread]. }
  destruct st as [seen|seen|seen|result]; cbn; [| | |done].
  - eexists. split; [apply Hread|by left].
  - destruct (gives_up L (values (channels p))) eqn:Hg.
    + exists None. split; [by apply rtc_once, loop_gives_up|by right].
    + exists (Some a). split; [|by left]. eapply rtc_l; [by apply loop_sleeps|]. by apply Hsleep.
  - eexists. split; [by apply Hsleep|by left].
Qed.
End Awake.

(** ** The channels *)
Section Sent.
Lemma hook_sends (f : Watches → N) h0 (w : Watches) hs :
  (∀ w h, (f w ≤ f (run_hook w h))%N) → (∀ w, (f w < f (run_hook w h0))%N) → h0 ∈ hs →
  (f w < f (foldl run_hook w hs))%N.
Proof.
  intros Hle Hlt. assert (∀ hs w, (f w ≤ f (foldl run_hook w hs))%N) as Hfold.
  { intros hs'. induction hs' as [|h hs' IH]; intros w'; [done|]. cbn. specialize (Hle w' h). specialize (IH (run_hook w' h)). lia. }
  revert w. induction hs as [|h hs IH]; intros w Hin; [by apply not_elem_of_nil in Hin|]. cbn.
  apply elem_of_cons in Hin as [<-|Hin].
  - specialize (Hlt w). specialize (Hfold hs (run_hook w h0)). lia.
  - specialize (Hle w h). specialize (IH (run_hook w h) Hin). lia.
Qed.
Lemma new_votes_grow w h : (new_votes w ≤ new_votes (run_hook w h))%N.
Proof. destruct h; cbn; try lia. case_match; cbn; lia. Qed.
Lemma new_proposal_grow w h : (new_proposal w ≤ new_proposal (run_hook w h))%N.
Proof. destruct h; cbn; try lia. case_match; cbn; lia. Qed.
Lemma votes_told ch hs : NewVotesHook ∈ hs → (new_votes (values ch) < new_votes (values (foldl run_hook_on ch hs)))%N.
Proof. rewrite values_foldl. apply hook_sends; [apply new_votes_grow|]. intros w. cbn. lia. Qed.
Lemma proposal_told ch hs :
  NewProposalHook ∈ hs → (new_proposal (values ch) < new_proposal (values (foldl run_hook_on ch hs)))%N.
Proof. rewrite values_foldl. apply hook_sends; [apply new_proposal_grow|]. intros w. cbn. lia. Qed.

Lemma rounds_grow ch h : (rounds_sent ch ≤ rounds_sent (run_hook_on ch h))%N.
Proof. unfold run_hook_on. cbn. case_decide; lia. Qed.
(** A value that differs in the end was sent. *)
Lemma round_told ch hs :
  current_round_with_timeout (values (foldl run_hook_on ch hs)) ≠ current_round_with_timeout (values ch) →
  (rounds_sent ch < rounds_sent (foldl run_hook_on ch hs))%N.
Proof.
  enough ((rounds_sent ch ≤ rounds_sent (foldl run_hook_on ch hs))%N ∧
    (rounds_sent (foldl run_hook_on ch hs) = rounds_sent ch →
     current_round_with_timeout (values (foldl run_hook_on ch hs)) = current_round_with_timeout (values ch))) as [Hle Hsame].
  { intros Hne. destruct (N.lt_ge_cases (rounds_sent ch) (rounds_sent (foldl run_hook_on ch hs))) as [|Hge]; [done|].
    destruct Hne. apply Hsame. lia. }
  revert ch. induction hs as [|h hs IH]; intros ch; [done|]. cbn. destruct (IH (run_hook_on ch h)) as [Hle Hsame].
  pose proof (rounds_grow ch h) as Hh. split; [lia|]. intros Heq. rewrite Hsame by lia.
  unfold run_hook_on in *. cbn in *. case_decide; [done|lia].
Qed.
End Sent.

(** ** What the transactions tell *)
Section Told.
Context `{Crypto} `{Bincode}.
Implicit Types (d : ConsDb) (h : Hook).

Lemma tells_finality {E} h c pk v : tells h (update_peer_finality_vote_round (E:=E) c pk v).
Proof.
  unfold update_peer_finality_vote_round, update_finality_vote, recalculate_finality_consensus_tx,
    update_finality_consensus, prune_dummy_votes.
  repeat tells_step.
Qed.
Lemma tells_insert_notarized {E} h r b payload : tells h (insert_notarized_block (E:=E) r b payload).
Proof. unfold insert_notarized_block. repeat tells_step. Qed.
Lemma tells_loop h fuel start k c last : tells h (check_round_end_loop fuel start k c last).
Proof.
  revert c last. induction fuel as [|fuel IH]; intros c last; cbn [check_round_end_loop]; [by repeat tells_step|].
  unfold check_pinned, check_dummy_votes. repeat first [apply IH|apply tells_insert_notarized|tells_step].
Qed.
Lemma tells_check_round_end h our c : tells h (check_round_end our c).
Proof. unfold check_round_end, set_current_round. repeat first [apply tells_loop|apply tells_finality|tells_step]. Qed.

(** A vote that is handled is always announced, and so is a new proposal. *)
Lemma wp_vote_told our c i p k l vote s :
  wp false (process_vote our c i p k l vote) (λ _ s', NewVotesHook ∈ tx_hooks s') s.
Proof.
  unfold process_vote, notify_new_votes. apply wp_bind_any. intros _ s1. apply wp_bind_any. intros o s2.
  apply wp_told. intros _. repeat first [apply tells_check_round_end|tells_step].
Qed.
Lemma tells_process_vote h our c i p k l vote : tells h (process_vote our c i p k l vote).
Proof.
  unfold process_vote, insert_dummy_vote, insert_block_vote, notify_new_votes.
  repeat first [apply tells_check_round_end|tells_step].
Qed.
Lemma wp_proposal_told c i p k l block payload s :
  wp false (process_proposal c i p k l block payload)
    (λ v s', v = None ∧ tx_db s' = tx_db s ∨ is_Some v ∧ NewProposalHook ∈ tx_hooks s') s.
Proof.
  unfold process_proposal, insert_block_proposal, get_prev_notarized_block.
  do 6 (wp_step; apply wp_read; [intros ? _|done]).
  wp_step. wp_step. apply wp_lift; [intros _ _|done]. wp_step. wp_step. destruct (_ !! _) as [existing|].
  - wp_step. case_decide; wp_step. by left.
  - repeat wp_step. right. split; [done|]. cbn. apply elem_of_app. right. by apply list_elem_of_singleton.
Qed.
Lemma wp_response_told our i resp d :
  wp false (process_vote_response_tx our i resp)
    (λ _ s', NewVotesHook ∈ tx_hooks s' ∨ tx_db s' = d) (MkTx d []).
Proof.
  unfold process_vote_response_tx. do 4 (wp_step; apply wp_read; [intros ? _|done]). wp_step.
  assert (∀ vote s, vote = None ∧ tx_db s = d ∨ is_Some vote →
    wp false (match vote with
              | Some vote => process_vote our a i a1 (params_hash a1) a2 vote
              | None => mret ()
              end) (λ _ s', NewVotesHook ∈ tx_hooks s' ∨ tx_db s' = d) s) as Hgo.
  { intros [vote|] s Hs; [|wp_step; right; by destruct Hs as [[_ ?]|[? ?]]].
    eapply wp_mono; [apply wp_vote_told|]. by left. }
  destruct resp as [block payload|block].
  - eapply wp_mono; [apply wp_proposal_told|]. intros vote s' [Hd|[Hv _]]; apply Hgo; [by left|by right].
  - wp_step. apply (Hgo (Some block)). by right.
Qed.
(** A proposal is stored with its hook. *)
Lemma wp_response_proposal our i resp d :
  wp false (process_vote_response_tx our i resp)
    (λ _ s', NewProposalHook ∈ tx_hooks s' ∨ cons_blocks_proposals (tx_db s') = cons_blocks_proposals d) (MkTx d []).
Proof.
  unfold process_vote_response_tx. do 4 (wp_step; apply wp_read; [intros ? _|done]). wp_step.
  assert (∀ vote s, NewProposalHook ∈ tx_hooks s ∨ cons_blocks_proposals (tx_db s) = cons_blocks_proposals d →
    wp false (match vote with
              | Some vote => process_vote our a i a1 (params_hash a1) a2 vote
              | None => mret ()
              end) (λ _ s', NewProposalHook ∈ tx_hooks s' ∨ cons_blocks_proposals (tx_db s') = cons_blocks_proposals d) s) as Hgo.
  { intros [vote|] s Hs; [|by wp_step]. destruct Hs as [Hin|Heq].
    - eapply wp_mono; [by apply tells_process_vote|]. by left.
    - eapply wp_mono; [apply (keeps_process_vote (λ d', cons_blocks_proposals d' = cons_blocks_proposals d)); done|]. by right. }
  destruct resp as [block payload|block].
  - eapply wp_mono; [apply wp_proposal_told|]. intros vote s' Hs'. apply Hgo.
    destruct Hs' as [[_ ->]|[_ ?]]; [by right|by left].
  - wp_step. apply (Hgo (Some block)). by right.
Qed.

Lemma wp_notarized_told our resp d :
  wp false (process_notarized_block_response_tx our resp)
    (λ _ s', NewVotesHook ∈ tx_hooks s' ∨ tx_db s' = d) (MkTx d []).
Proof.
  assert (∀ k s, NewVotesHook ∈ tx_hooks s → wp false (tx_into PnRoundInvariant (check_round_end our k))
    (λ _ s', NewVotesHook ∈ tx_hooks s' ∨ tx_db s' = d) s) as Hend.
  { intros k s Hs. wp_step. eapply wp_mono; [by apply tells_check_round_end|]. by left. }
  assert (∀ k s, wp (E:=ProcessNotarizedBlockError) false
    (cons_insert_notarized_block (resp_notarized resp) (resp_payload resp)) (λ _ s', wp false
      (tx_into PnRoundInvariant (check_round_end our k)) (λ _ s', NewVotesHook ∈ tx_hooks s' ∨ tx_db s' = d) s') s) as Hstore.
  { intros k s. unfold cons_insert_notarized_block, notify_new_votes. do 2 (apply wp_bind_any; intros ? ?). wp_step.
    apply Hend. apply elem_of_app. right. by apply list_elem_of_singleton. }
  unfold process_notarized_block_response_tx. cbv zeta. do 5 (wp_step; apply wp_read; [intros ? _|done]).
  destruct (is_dummy _).
  - do 2 (apply wp_bind_any; intros ? ?). unfold notify_new_votes. wp_step. wp_step.
    apply Hend. apply elem_of_app. right. by apply list_elem_of_singleton.
  - wp_step. apply wp_read; [intros latest _|done].
    assert (∀ s, wp false
      (_ ← (if does_directly_extend (notarized_inner (resp_notarized resp)) latest then
              cons_insert_notarized_block (E:=ProcessNotarizedBlockError) (resp_notarized resp) (resp_payload resp)
            else
              latest_round ← tx_lift (expect "Must have latest notarized" (BlockHeader.round <$> latest));
              second ← tx_read (get_prev_notarized_block latest_round);
              _ ← tx_lift (fail_if (negb (does_directly_extend (notarized_inner (resp_notarized resp)) second)) WrongParent);
              _ ← delete_notarized_block latest_round;
              cons_insert_notarized_block (resp_notarized resp) (resp_payload resp));
       tx_into PnRoundInvariant (check_round_end our a))
      (λ _ s', NewVotesHook ∈ tx_hooks s' ∨ tx_db s' = d) s) as Hcont.
    { intros s. wp_step. destruct (does_directly_extend _ _); [apply Hstore|].
      do 4 (apply wp_bind_any; intros ? ?). apply Hstore. }
    destruct latest as [latest|]; [|exact (Hcont _)].
    case_decide; [case_decide; [wp_step; by right|by apply wp_panic]|]. destruct (_ <=? _)%N; [by wp_step|exact (Hcont _)].
Qed.
End Told.

(** ** The three loops *)
Section Instances.
Context `{Crypto} `{Bincode}.
Implicit Types (c : Consensus) (d : ConsDb) (s : TxState ConsDb Hook).

(** Finality votes and new parameters touch none of the tables of blocks. *)
Record BlocksKept d d' : Prop := {
  bk_votes : cons_votes_block d' = cons_votes_block d;
  bk_dummy : cons_votes_dummy d' ⊆ cons_votes_dummy d;
  bk_payloads : cons_blocks_payloads d' = cons_blocks_payloads d;
  bk_proposals : cons_blocks_proposals d' = cons_blocks_proposals d;
  bk_notarized : cons_blocks_notarized d' = cons_blocks_notarized d;
}.
Lemma commits_cases c s (P : Prop) :
  reachable c →
  (∀ i resp, process_vote_response_tx (our_peer_pubkey c) i resp (MkTx (db c) []) = Ok ((), s) → P) →
  (∀ resp, (BlockHeader.round (notarized_inner (resp_notarized resp)) < u64_max)%N →
     process_notarized_block_response_tx (our_peer_pubkey c) resp (MkTx (db c) []) = Ok ((), s) → P) →
  (BlocksKept (db c) (tx_db s) → P) → commits c s → P.
Proof.
  intros Hr Hvote Hnot Hkept Hc. pose proof (reachable_wf c Hr) as Hwf. pose proof (proj1 Hwf) as Hrest.
  destruct Hc as [i resp s Hs|resp s Hlt Hs|pk resp s Hs|round ts peers s Hch Hs];
    [by eapply Hvote|by eapply Hnot|apply Hkept..].
  - pose proof (wp_elim _ _ _ _ _ _ (wp_process_finality_tx false (db c) pk resp Hrest ltac:(done)) Hs)
      as [(x & y & z & -> & Hx) _]. by split.
  - pose proof (params_spec c round ts peers Hwf Hch) as [_ Hp]. rewrite (write_tx_Ok _ _ _ _ Hs) in Hp. cbn in Hp.
    destruct Hp as [Heq|(p' & _ & -> & _)]; [|by split]. apply (f_equal db) in Heq. cbn in Heq. by rewrite Heq.
Qed.

#[export] Instance vote_loop_announced our req p i : Announced (vote_loop req p i) our any_commit.
Proof.
  split; [intros ch h; apply new_votes_grow|]. intros d ch s c Hr Hc _ Hn.
  revert Hc. apply commits_cases; [exact Hr|..].
  - intros j resp Hs. destruct (wp_elim _ _ _ _ _ _ (wp_response_told _ j resp d) Hs) as [Hin|Hd]; [right|left].
    + by apply votes_told.
    + by rewrite Hd.
  - intros resp _ Hs. destruct (wp_elim _ _ _ _ _ _ (wp_notarized_told _ resp d) Hs) as [Hin|Hd]; [right|left].
    + by apply votes_told.
    + by rewrite Hd.
  - intros [Hv Hd Hp _ _]. left. cbn [db c] in *. cbn [answer vote_loop] in *.
    revert Hn. unfold read_with_expect, read_with_inner_falliable, get_vote_rd, get_vote_dummy, get_vote_block,
      get_block_payload, rd_get, rd_lift, mbind, rd_bind.
    destruct (cons_votes_dummy d !! (wv_round req, i)) as [sg|] eqn:Hold.
    + destruct (new_dummy _ p) as [b|e|] eqn:Hb; cbn; [|done..]. intros Hn.
      assert (is_dummy b = true) as Hdb; [|by rewrite Hdb, orb_true_r in Hn].
      unfold new_dummy in Hb. apply bind_Ok in Hb as (hl & _ & [= <-]). reflexivity.
    + destruct (cons_votes_dummy (tx_db s) !! (wv_round req, i)) as [sg|] eqn:Hnew.
      { eapply lookup_weaken in Hnew; [|exact Hd]. congruence. }
      rewrite Hv. destruct (cons_votes_block d !! _) as [v|]; [|done].
      destruct (num_peers p) as [n|e|]; cbn; [|done..]. destruct (block_round_leader_idx _ n) as [k|e|]; cbn; [|done..].
      destruct (decide (i = k)); [rewrite Hp; destruct (cons_blocks_payloads d !! _)|]; intros Hn; exact Hn.
Qed.
#[export] Instance proposal_loop_announced our round : Announced (proposal_loop round) our any_commit.
Proof.
  split; [intros ch h; apply new_proposal_grow|]. intros d ch s c Hr Hc _ Hn.
  assert (cons_blocks_proposals (tx_db s) = cons_blocks_proposals d → answer (proposal_loop round) (tx_db s) = Ok None) as Hsame.
  { intros Heq. revert Hn. cbn. unfold read_with_expect, read_with_inner_falliable, get_proposal, rd_get, mbind, rd_bind.
    rewrite Heq. by destruct (_ !! _). }
  revert Hc. apply commits_cases; [exact Hr|..].
  - intros j resp Hs. destruct (wp_elim _ _ _ _ _ _ (wp_response_proposal _ j resp d) Hs) as [Hin|Hd]; [right|left].
    + by apply proposal_told.
    + by apply Hsame.
  - intros resp Hlt Hs. left. apply Hsame.
    exact (ns_proposals _ _ _ (proj1 (wp_elim _ _ _ _ _ _
      (wp_process_notarized_tx false _ d resp (proj1 (reachable_wf _ Hr)) Hlt ltac:(done)) Hs))).
  - intros Hk. left. apply Hsame, Hk.
Qed.

(** *** Dummy votes *)
Lemma num_votes_dummy_mono r d d' :
  (∀ i g, cons_votes_dummy d' !! (r, i) = Some g → is_Some (cons_votes_dummy d !! (r, i))) →
  (num_votes_dummy r d' ≤ num_votes_dummy r d)%N.
Proof.
  intros Hsub. unfold num_votes_dummy.
  enough (length (range (round_votes r) (cons_votes_dummy d')) ≤ length (range (round_votes r) (cons_votes_dummy d)))%nat by lia.
  rewrite <-(length_fmap fst (range (round_votes r) (cons_votes_dummy d'))). apply range_length_ge; [apply range_NoDup|].
  intros k ([k' g] & -> & [Hg Hp]%elem_of_range)%list_elem_of_fmap. split; [done|].
  pose proof Hp as [Hk _]%round_votes_spec. destruct k' as [r' i]. cbn in *. subst. by eapply Hsub.
Qed.

(** While the node stays in round [c], dummy votes of other rounds are only
    dropped, and those of the round are no quorum, or none was added. *)
Record StillOpen (c : N) d d' : Prop := {
  so_other : ∀ k g, k.1 ≠ c → cons_votes_dummy d' !! k = Some g → cons_votes_dummy d !! k = Some g;
  so_round : ¬ dummy_quorum c d' ∨ cons_votes_dummy d' ⊆ cons_votes_dummy d;
}.
Lemma still_open_shrunk (c : N) d d' : cons_votes_dummy d' ⊆ cons_votes_dummy d → StillOpen c d d'.
Proof. intros Hsub. split; [|by right]. intros k g _ Hg. by eapply lookup_weaken. Qed.

Lemma wp_end_still_open our (c : N) d d1 hs :
  Current c d1 → cur_round_of d1 = c → moves c c hs → (∀ k, k.1 ≠ c → cons_votes_dummy d1 !! k = cons_votes_dummy d !! k) →
  wp false (check_round_end our c) (λ _ s', cur_round_of (tx_db s') = c → StillOpen c d (tx_db s')) (MkTx d1 hs).
Proof.
  intros Hc Hcur Hm Hk. apply wp_check_round_end; [by apply current_start|done..|].
  intros c' last needs d2 d' hs' Hres (x & y & z & -> & Hx) _ _ Hc' _ Hstay. cbn [tx_db] in *. rewrite Hstay in Hc'. subst c'.
  inversion Hres as [r b Hcr Hb _|b|Hlow Hno Hq|needs' Hlow Hno Hnd]; subst; [|lia..|].
  { destruct Hc as (_ & Hbd & _). apply (rb_notarized _ _ _ _ Hbd) in Hb. lia. }
  unfold advance_to in Hx. rewrite decide_True in Hx by done. split.
  - intros k g Hne Hg. rewrite <-Hk by done. by eapply lookup_weaken.
  - left. intros (p & Hp & Hle). apply Hnd. exists p. split.
    + rewrite <-Hp. unfold advance_to. rewrite decide_True by done. reflexivity.
    + etrans; [exact Hle|]. apply num_votes_dummy_mono. intros i g Hg. exists g. by eapply lookup_weaken.
Qed.

Definition shrinks (D : gmap (N * N) Signature) d : Prop := cons_votes_dummy d ⊆ D.
Lemma shrinks_refl d : shrinks (cons_votes_dummy d) d.
Proof. by unfold shrinks. Qed.
Lemma shrinks_finality {E} D (c : N) pk v : keeps (shrinks D) (update_peer_finality_vote_round (E:=E) c pk v).
Proof.
  unfold update_peer_finality_vote_round, update_finality_vote, recalculate_finality_consensus_tx,
    update_finality_consensus, prune_dummy_votes.
  repeat keeps_step; intros d Hd; unfold shrinks; cbn; (etrans; [|exact Hd]); apply map_filter_subseteq.
Qed.
Lemma shrinks_round_end D our (c : N) : keeps (shrinks D) (check_round_end our c).
Proof.
  unfold check_round_end, set_current_round.
  repeat first [apply keeps_loop; done|apply shrinks_finality|keeps_step].
Qed.
Lemma shrinks_store {E} D (block : Notarized BlockHeader.t) payload :
  keeps (shrinks D) (cons_insert_notarized_block (E:=E) block payload).
Proof.
  assert (∀ r b l, keeps (H:=Hook) (E:=E) (shrinks D) (insert_block_votes r b l)) as Hvotes.
  { intros r b l. induction l as [|[i s] l IH]; cbn [insert_block_votes]; unfold insert_block_vote;
      repeat first [apply IH|keeps_step]. }
  unfold cons_insert_notarized_block, notify_new_votes.
  repeat first [apply Hvotes|apply keeps_insert_notarized; done|keeps_step].
Qed.
Lemma wp_shrinks {E A} (m : CTx E A) (c : N) d s :
  keeps (shrinks (cons_votes_dummy d)) m → shrinks (cons_votes_dummy d) (tx_db s) →
  wp false m (λ _ s', cur_round_of (tx_db s') = c → StillOpen c d (tx_db s')) s.
Proof. intros Hm Hs. eapply wp_mono; [by apply Hm|]. intros a s' Hs' _. by apply still_open_shrunk. Qed.

Lemma wp_dummy_still_open our i p vote d1 :
  Rest d1 → params_at d1 (cur_round_of d1) = Some p → params_wf p →
  BlockHeader.round (signed_inner vote) = cur_round_of d1 → is_dummy (signed_inner vote) = true →
  wp false (process_vote our (cur_round_of d1) i p (params_hash p) (N.of_nat (length (to_raw p))) vote)
    (λ _ s', cur_round_of (tx_db s') = cur_round_of d1 → StillOpen (cur_round_of d1) d1 (tx_db s')) (MkTx d1 []).
Proof.
  intros Hrest Hp Hwf Hround Hd. pose proof (proj1 (rest_current d1) Hrest) as Hcur. pose proof Hcur as (Hinv & _ & _).
  unfold process_vote. rewrite Hd. wp_step. apply wp_lift_map_err; [|done]. intros [] Hsig%verify_sig_peer_idx_Ok.
  wp_step. wp_step. apply wp_lift_map_err; [|done]. intros [] (_ & _ & _ & Hh & _)%verify_with_content_Ok.
  apply wp_insert_dummy_vote. wp_step. unfold notify_new_votes. wp_step.
  destruct (cons_votes_dummy d1 !! _) as [g|] eqn:Hg; cbn [tx_db tx_hooks].
  - case_decide as Hsame; wp_step. intros _. subst g. apply still_open_shrunk. cbn. by rewrite insert_id.
  - wp_step. apply wp_end_still_open; [|done|by apply moves_keeps; [apply moves_nil|]|].
    + apply current_insert_dummy; [done|]. by exists (signed_inner vote), p.
    + intros k Hk. cbn. apply lookup_insert_ne. by intros <-.
Qed.
Lemma shrinks_vote our (c : N) i p k l vote D :
  is_dummy (signed_inner vote) = false → keeps (shrinks D) (process_vote our c i p k l vote).
Proof.
  intros Hd. unfold process_vote, insert_block_vote, notify_new_votes. rewrite Hd.
  repeat first [apply shrinks_round_end|keeps_step].
Qed.
Lemma wp_vote_still_open our i resp d :
  Rest d → wp false (process_vote_response_tx our i resp)
    (λ _ s', cur_round_of (tx_db s') = cur_round_of d → StillOpen (cur_round_of d) d (tx_db s')) (MkTx d []).
Proof.
  intros Hrest. pose proof (rest_inv _ Hrest) as Hinv.
  unfold process_vote_response_tx. wp_step. apply wp_get_current_round. cbv zeta. cbn [tx_db].
  wp_step. apply wp_fail_if. intros Hr%bool_decide_eq_false%dec_stable.
  wp_step. apply wp_get_params; [done|]. cbn [tx_db]. intros p Hp Hwf.
  wp_step. rewrite params_len_wf by done. apply wp_lift; [|done]. intros _ [= <-]. wp_step.
  destruct resp as [block payload|block]; cbn in Hr.
  - destruct (is_dummy (signed_inner block)) eqn:Hd.
    { unfold process_proposal. do 2 (wp_step; apply wp_read; [intros ? _|done]). wp_step. apply wp_fail_if. congruence. }
    eapply wp_mono.
    { apply wp_conj; [apply (process_proposal_result (cur_round_of d) i p)|].
      apply (keeps_process_proposal (shrinks (cons_votes_dummy d))); try done. apply shrinks_refl. }
    intros [vote|] s' [Hv Hs']; [|wp_step; intros _; by apply still_open_shrunk].
    rewrite (Hv vote eq_refl). apply wp_shrinks; [by apply shrinks_vote|done].
  - wp_step. destruct (is_dummy (signed_inner block)) eqn:Hd.
    + by apply wp_dummy_still_open.
    + apply wp_shrinks; [by apply shrinks_vote|apply shrinks_refl].
Qed.

Lemma wp_notarized_still_open our resp d :
  Rest d → wp false (process_notarized_block_response_tx our resp)
    (λ _ s', cur_round_of (tx_db s') = cur_round_of d → StillOpen (cur_round_of d) d (tx_db s')) (MkTx d []).
Proof.
  intros Hrest. pose proof (rest_inv _ Hrest) as Hinv. pose proof (proj1 (rest_current d) Hrest) as Hcur.
  unfold process_notarized_block_response_tx. cbv zeta. wp_step. apply wp_get_current_round. cbn [tx_db].
  wp_step. apply wp_get_params; [done|]. cbn [tx_db]. intros p Hp Hwf.
  wp_step. rewrite params_len_wf by done. apply wp_lift; [|done]. intros _ [= <-].
  wp_step. apply wp_lift_map_err; [|done]. intros [] Hsigs. wp_step. apply wp_lift_map_err; [|done]. intros [] Hver.
  destruct (is_dummy _) eqn:Hd.
  - wp_step. apply wp_fail_if. intros Hr%bool_decide_eq_false%dec_stable. wp_step. apply wp_insert_dummy_votes; [done| |].
    + intros i s Hin. rewrite entries_perm, elem_of_map_to_list in Hin.
      apply verify_sigs_Ok in Hsigs as (_ & _ & Hall). apply verify_with_content_Ok in Hver as (_ & _ & _ & Hh & _).
      exists (notarized_inner (resp_notarized resp)), p. split_and!; [done|done|by rewrite <-Hr|done|by apply Hall].
    + intros x Hx Hk. wp_step. unfold notify_new_votes. wp_step. wp_step. cbn [tx_db tx_hooks].
      apply wp_end_still_open; [done|done|by apply moves_keeps; [apply moves_nil|]|exact Hk].
  - apply wp_shrinks; [|apply shrinks_refl]. unfold delete_notarized_block.
    repeat first [apply shrinks_store|apply shrinks_round_end|keeps_step].
Qed.
Lemma commits_still_open c s :
  reachable c → commits c s → cur_round_of (tx_db s) = cur c → StillOpen (cur c) (db c) (tx_db s).
Proof.
  intros Hr Hc. pose proof (proj1 (reachable_wf c Hr)) as Hrest. apply (commits_cases c s); [done|..|exact Hc].
  - intros i resp Hs. exact (wp_elim _ _ _ _ _ _ (wp_vote_still_open _ i resp _ Hrest) Hs).
  - intros resp _ Hs. exact (wp_elim _ _ _ _ _ _ (wp_notarized_still_open _ resp _ Hrest) Hs).
  - intros [_ Hsub _ _ _] _. by apply still_open_shrunk.
Qed.

(** *** Notarized blocks *)
(** No block of a round that is over comes in. *)
Definition in_time c s : Prop :=
  ∀ k b, (k < cur c)%N → cons_blocks_notarized (tx_db s) !! k = Some b → cons_blocks_notarized (db c) !! k = Some b.

Lemma notarized_answer_None req d :
  DbInv d → answer (notarized_loop req) d = Ok None ↔
  (∀ k, is_Some (cons_blocks_notarized d !! k) → (k < min_notarized_round req)%N) ∧ ¬ dummy_quorum (wn_cur_round req) d.
Proof.
  intros Hinv. cbn. unfold read_with_expect, read_with_inner_falliable, get_notarized_block_resp_rd, rd_get, rd_expect, rd_lift,
    mbind, rd_bind.
  destruct (range_first (rg_from (min_notarized_round req)) (cons_blocks_notarized d)) as [[k b]|] eqn:Hf; cbn [fmap option_fmap option_map snd].
  - apply range_first_Some in Hf as (Hb & Hge & _). apply rg_from_N in Hge.
    destruct (notarized_served _ _ _ Hinv Hb) as (<- & payload & p & Hpay & _). rewrite Hpay. cbn.
    split; [done|]. intros [Hall _]. specialize (Hall _ (ex_intro _ b Hb)). lia.
  - rewrite range_first_None in Hf.
    destruct (get_consensus_params_inv (E:=Empty_set) d (wn_cur_round req) Hinv) as (p & -> & Hp & Hwf). cbn.
    rewrite num_peers_wf by done. cbn. rewrite length_fmap.
    assert (∀ k, is_Some (cons_blocks_notarized d !! k) → (k < min_notarized_round req)%N) as Hall.
    { intros k [b Hb]. specialize (Hf _ _ Hb). destruct (N.lt_ge_cases k (min_notarized_round req)) as [|Hge]; [done|].
      apply rg_from_N in Hge. congruence. }
    change (N.of_nat (length (range (round_votes (wn_cur_round req)) (cons_votes_dummy d))))
      with (num_votes_dummy (wn_cur_round req) d).
    destruct (N.leb_spec (NumPeers.threshold (npeers p)) (num_votes_dummy (wn_cur_round req) d)) as [Hle|Hlt].
    + pose proof (params_len_wf (E:=Empty_set) p Hwf) as Hl. unfold params_len in Hl.
      unfold new_dummy, hash_and_len. rewrite Hl. cbn. split; [done|]. intros [_ Hno]. destruct Hno. by exists p.
    + split; [|done]. intros _. split; [done|]. intros (q & Hq & Hle). rewrite Hp in Hq. injection Hq as <-. lia.
Qed.

#[export] Instance notarized_loop_announced our req : Announced (notarized_loop req) our in_time.
Proof.
  split; [intros ch h; apply rounds_grow|]. intros d ch s c Hr Hc Hin Hn. pose proof (commits_cstep _ _ Hc) as Hstep.
  set (c' := MkConsensus (tx_db s) our (foldl run_hook (values ch) (tx_hooks s))) in *.
  change (cstep c c') in Hstep.
  assert (reachable c') as Hr' by (by eapply RStep).
  pose proof (reachable_wf c Hr) as Hwf. pose proof (reachable_wf c' Hr') as Hwf'.
  destruct (cstep_spec _ _ Hwf Hstep) as (_ & _ & _ & Hkept).
  assert (∀ r, (r ≤ cur c)%N → params_at (tx_db s) r = params_at d r) as Hpar by exact Hkept.
  destruct Hwf as [Hrest Hcur], Hwf' as [Hrest' Hcur']. cbn [db c c'] in Hrest, Hrest'.
  destruct (decide (cur c' = cur c)) as [Hsame|Hne].
  2: { right. apply round_told. rewrite values_foldl. intros Heq. apply Hne. unfold cur. rewrite <-Hcur, <-Hcur'. cbn. by rewrite Heq. }
  left. apply notarized_answer_None in Hn as [Hnone Hno]; [|apply Hrest]. apply notarized_answer_None; [apply Hrest'|]. split.
  - intros k [b Hb]. pose proof (rb_notarized _ _ _ _ (rest_bounds _ Hrest') _ _ Hb) as Hlt.
    apply Hnone. exists b. apply Hin; [|exact Hb]. unfold cur in *. cbn [db c c'] in *. lia.
  - pose proof (commits_still_open c s Hr Hc Hsame) as [Hother Hround]. cbn [db c] in *.
    intros (p & Hp & Hle). destruct (decide (wn_cur_round req = cur c)) as [Heq|Hne].
    + destruct Hround as [Hnq|Hsub]; [apply Hnq; rewrite <-Heq; by exists p|]. apply Hno. exists p. split.
      * rewrite <-(Hpar (wn_cur_round req)); [done|lia].
      * etrans; [exact Hle|]. apply num_votes_dummy_mono. intros i g Hg. exists g. by eapply lookup_weaken.
    + destruct (N.lt_ge_cases (wn_cur_round req) (cur c)) as [Hlt|Hge].
      * apply Hno. exists p. split; [rewrite <-(Hpar (wn_cur_round req)); [done|lia]|].
        etrans; [exact Hle|]. apply num_votes_dummy_mono. intros i g Hg. exists g. by apply Hother.
      * rewrite num_votes_dummy_0 in Hle.
        -- destruct (params_at_wf _ (wn_cur_round req) (rest_inv _ Hrest')) as (q & Hq & Hwfq). cbn in Hq, Hp.
           rewrite Hp in Hq. injection Hq as <-. pose proof (NumPeers.threshold_pos _ (proj1 (npeers_pos p Hwfq))). lia.
        -- intros i g Hg. pose proof (rb_dummy _ _ _ _ (rest_bounds _ Hrest') _ _ _ Hg). unfold cur in *. cbn [db c c'] in *. lia.
Qed.
End Instances.

(** The loop over votes is the handler of [Rpc], whose steps read the tables and
    the channel at once. *)
Lemma vote_loop_is_handler `{Crypto} `{Bincode} `{CItemsCodec} (pk : PeerPubkey) (req : WaitVoteRequest) (c : Consensus)
    (p : ConsensusParams.t) (i : PeerIdx) :
  wait_vote_step (Some pk) req c (VotePoll p i) =
  (o ← answer (vote_loop req p i) (db c);
   Ok match o with
      | Some resp => Some (VoteDone (Responds resp))
      | None => if gives_up (vote_loop req p i) (watches c) then Some (VoteDone (Fails "Not available")) else None
      end).
Proof.
  cbn. unfold get_vote, read_tx. destruct (read_with_expect _ _) as [[resp|]|e|w]; cbn; [|done..]. by destruct (_ || _).
Qed.

(** C21: nobody sleeps through what it waits for.  Transactions commit, hooks run and
    tasks read in any order; whenever the hooks of the latest transaction have run
    and the tables have an answer for a task, the task ends by its own steps, with
    this answer: the handler of a request for a vote (unless it is about to give up
    because its round is over), the task that votes for the proposal, and the
    handler of a request for a notarized block, when no block of a round that is
    over comes in.  The answer may have come at any time: before the task looked,
    while it looked, or while it slept. *)
Theorem waiting_tasks_woken `{Crypto} `{Bincode} (our : option PeerPubkey) (p0 p : Process) :
  reachable (after_hooks our p0) → unrun p = [] →
  (∀ req params i st resp, answer (vote_loop req params i) (tables p) = Ok (Some resp) →
     loop_run our (vote_loop req params i) any_commit (p0, LoopRead 0) (p, st) →
     ends_by_itself (vote_loop req params i) p resp st) ∧
  (∀ round st block, answer (proposal_loop round) (tables p) = Ok (Some block) →
     loop_run our (proposal_loop round) any_commit (p0, LoopRead 0) (p, st) →
     ends_by_itself (proposal_loop round) p block st) ∧
  (∀ req st resp, answer (notarized_loop req) (tables p) = Ok (Some resp) →
     loop_run our (notarized_loop req) in_time (p0, LoopRead (rounds_sent (channels p0))) (p, st) →
     ends_by_itself (notarized_loop req) p resp st).
Proof.
  intros Hr Hdone. split_and!; intros *; intros Ha Hrun.
  - eapply (answer_ends_loop _ our any_commit p0); [done| |done..]. apply N.le_0_l.
  - eapply (answer_ends_loop _ our any_commit p0); [done| |done..]. apply N.le_0_l.
  - eapply (answer_ends_loop _ our in_time p0); [done| |done..]. apply N.le_refl.
Qed.

(** ** Concrete runs *)
Section WakeRuns.
Local Existing Instance Toy.crypto.
Local Existing Instance Toy.bincode.

Definition at_rest (c : Consensus) : Process := MkProcess (db c) (MkChannels (watches c) 0) [].
Definition tx_state {E A} (o : outcome E (A * TxState ConsDb Hook)) : TxState ConsDb Hook :=
  match o with Ok (_, s) => s | _ => MkTx empty_db [] end.
Fixpoint run_hooks (p : nat) (x : Process) : Process :=
  match p, unrun x with
  | S p, h :: hs => run_hooks p (MkProcess (tables x) (run_hook_on (channels x) h) hs)
  | _, _ => x
  end.
Lemma hooks_run {A} (L : WaitLoop A) our ok x n p st :
  loop_run our L ok x (p, st) → loop_run our L ok x (run_hooks n p, st).
Proof.
  revert p. induction n as [|n IH]; intros p Hrun; [done|]. cbn. destruct p as [d ch [|h hs]]; cbn; [done|].
  apply IH. eapply RunProcess; [exact Hrun|apply process_hook].
Qed.

Lemma goes_to_sleep {A} (L : WaitLoop A) our ok x p seen :
  answer L (tables p) = Ok None → gives_up L (values (channels p)) = false →
  loop_run our L ok x (p, LoopRead seen) → loop_run our L ok x (p, LoopSleep seen).
Proof. intros Ha Hg Hrun. eapply RunLoop; [eapply RunLoop; [exact Hrun|by apply loop_nothing]|by apply loop_sleeps]. Qed.
Definition commit_state (p : Process) (s : TxState ConsDb Hook) : Process := MkProcess (tx_db s) (channels p) (tx_hooks s).
Lemma commit_run {A} (L : WaitLoop A) our x p s st :
  unrun p = [] → commits (now our p) s →
  loop_run our L any_commit x (p, st) → loop_run our L any_commit x (commit_state p s, st).
Proof.
  intros Hu Hc Hrun. eapply RunProcess; [exact Hrun|]. destruct p as [d ch hs]. cbn in Hu. subst hs. by apply process_commit.
Qed.

(** A peer asks for the notarized block from round 1 on while this node is in
    round 2, and then the block of round 1 arrives. *)
Definition late_request : WaitNotarizedBlockRequest := MkWaitNotarizedBlockRequest 1 2.
Definition before_late : Process := at_rest before_late_block.
Definition late_commit : TxState ConsDb Hook :=
  tx_state (process_notarized_block_response_tx (Some 1%N) late_response1 (MkTx (tables before_late) [])).
Definition after_late : Process := run_hooks 9 (commit_state before_late late_commit).

(** The handler of a request for a notarized block sleeps although the block is
    there: a block of a round that is over does not change the current round, and
    this is what the handler waits for. *)
Theorem late_block_not_announced :
  reachable (after_hooks (Some 1%N) before_late) ∧
  loop_run (Some 1%N) (notarized_loop late_request) any_commit (before_late, LoopRead 0) (after_late, LoopSleep 0) ∧
  unrun after_late = [] ∧ (∃ resp, answer (notarized_loop late_request) (tables after_late) = Ok (Some resp)) ∧
  ∀ st, ¬ loop_step (notarized_loop late_request) after_late (LoopSleep 0) st.
Proof.
  split; [|split; [|split; [vm_compute; reflexivity|split]]].
  - assert (after_hooks (Some 1%N) before_late = before_late_block) as -> by (vm_compute; reflexivity).
    apply reachable_run, toy_created_reachable.
  - apply hooks_run, commit_run; [reflexivity| |apply goes_to_sleep; [vm_compute; reflexivity|reflexivity|apply RunRefl]].
    apply (CommitNotarized _ late_response1); [reflexivity|vm_compute; reflexivity].
  - eexists. vm_compute. reflexivity.
  - intros st Hs. inversion Hs as [| | | |seen Hne]. apply Hne. vm_compute. reflexivity.
Qed.

(** Two votes are there, and with its own the node notarizes the block of round 0. *)
Definition before_vote : Process :=
  at_rest (run_votes (created (Some 1)) ((2, Proposal (new_sign late_block0 2) [1]) :: votes_of late_block0 [0]))%N.
Definition own_vote : WaitVoteResponse := Vote (new_sign late_block0 1%N).
Definition vote_commit : TxState ConsDb Hook :=
  tx_state (process_vote_response_tx (Some 1%N) 1 own_vote (MkTx (tables before_vote) [])).
Definition vote_committed : Process := commit_state before_vote vote_commit.
Lemma before_vote_reachable : reachable (after_hooks (Some 1%N) before_vote).
Proof.
  assert (after_hooks (Some 1%N) before_vote =
    run_votes (created (Some 1)) ((2, Proposal (new_sign late_block0 2) [1]) :: votes_of late_block0 [0]))%N as ->
    by (vm_compute; reflexivity).
  apply reachable_run, toy_created_reachable.
Qed.
Lemma own_vote_commits : commits (now (Some 1%N) before_vote) vote_commit.
Proof. apply (CommitVote _ 1 own_vote). vm_compute. reflexivity. Qed.

(** A request for a dummy vote of round 0, which can not be had once the round is
    over.  The handler would give up then; but the hooks send the new vote before
    the new round, and when the handler looks between the two, it goes to sleep
    and is not woken by the end of the round. *)
Definition dummy_request : WaitVoteRequest := MkWaitVoteRequest 0 true.
Definition between_hooks : Process := run_hooks 1 vote_committed.
Definition round_over : Process := run_hooks 9 between_hooks.
Theorem end_of_round_missed :
  let L := vote_loop dummy_request toy_params 1 in
  loop_run (Some 1%N) L any_commit (before_vote, LoopRead 0) (round_over, LoopSleep 3) ∧
  unrun round_over = [] ∧ gives_up L (values (channels round_over)) = true ∧
  ∀ st, ¬ loop_step L round_over (LoopSleep 3) st.
Proof.
  cbv zeta. split; [|split; [vm_compute; reflexivity|split; [vm_compute; reflexivity|]]].
  - apply hooks_run, goes_to_sleep; [vm_compute; reflexivity|vm_compute; reflexivity|].
    assert (LoopRead 3 = LoopRead (sent (vote_loop dummy_request toy_params 1) (channels between_hooks)) :> LoopStage WaitVoteResponse)
      as -> by (vm_compute; reflexivity).
    eapply RunLoop; [|apply (loop_woken _ _ 0%N); vm_compute; discriminate].
    apply hooks_run, commit_run; [reflexivity|exact own_vote_commits|].
    apply goes_to_sleep; [vm_compute; reflexivity|vm_compute; reflexivity|apply RunRefl].
  - intros st Hs. inversion Hs as [| | | |seen Hne]. apply Hne. vm_compute. reflexivity.
Qed.

(** A request for any vote of this node: its handler sleeps when the vote comes. *)
Definition any_vote_request : WaitVoteRequest := MkWaitVoteRequest 0 false.
Definition vote_answered : Process := run_hooks 9 vote_committed.
Lemma waiting_tasks_woken_witness :
  answer (vote_loop any_vote_request toy_params 1) (tables before_vote) = Ok None ∧
  ends_by_itself (vote_loop any_vote_request toy_params 1) vote_answered own_vote (LoopSleep 0).
Proof.
  split; [vm_compute; reflexivity|].
  refine (proj1 (waiting_tasks_woken (Some 1%N) before_vote vote_answered before_vote_reachable _)
    any_vote_request toy_params 1%N (LoopSleep 0) own_vote _ _).
  - vm_compute. reflexivity.
  - vm_compute. reflexivity.
  - apply hooks_run, commit_run; [reflexivity|exact own_vote_commits|].
    apply goes_to_sleep; [vm_compute; reflexivity|vm_compute; reflexivity|apply RunRefl].
Defined.
End WakeRuns.
