(* ===== verification/RpcServer.v ===== *)
(** * The server of a node ([node/src/rpc_server.rs], [node/src/rpc.rs],
      [node/src/handle.rs])

    A request has an id, by which the router finds its handler; the handler reads
    the message, waits for what it needs, and sends an answer or fails, which is
    logged and ends the stream.  The node goes on while handlers wait: it gets or
    changes its consensus, and other handlers write addresses.  This file puts the
    handlers of [Rpc] and [PeerAddr] together and states what the server promises
    for every request. *)
From S2P Require Import Prelude VoteSet Peers Core Db ConsDb ConsInv Consensus ConsRound ConsSteps ConsSpec ConsVotes ConsProps ConsServe ConsFinal Module Ctrl NodeApp Node Network NetInv NetRun PeerAddr AppApi Rpc Join.

(** ** Ids and handlers *)
Definition RPC_ID_HELLO : N := 0x00.
Definition RPC_ID_WAIT_VOTE : N := 0x11.
Definition RPC_ID_WAIT_NOTARIZED_BLOCK : N := 0x12.
Definition RPC_ID_WAIT_FINALITY_VOTE : N := 0x13.
Definition RPC_ID_PUSH_PEER_ADDR_UPDATE : N := 0x20.
Definition RPC_ID_GET_PEER_ADDR_UPDATE : N := 0x21.
Definition RPC_ID_GET_BLOCK : N := 0x23.
Definition RPC_ID_GET_CONSENSUS_PARAMS : N := 0x24.

Inductive Handler :=
  | HandleHello | HandleWaitVote | HandleWaitFinalityVote | HandleWaitNotarizedBlock | HandlePushPeerAddrUpdate
  | HandleGetPeerAddrUpdate | HandleGetConsensusParams | HandleGetBlock.
Definition into_iroh_protocol_handler : list (N * Handler) :=
  [ (RPC_ID_HELLO, HandleHello); (RPC_ID_WAIT_VOTE, HandleWaitVote); (RPC_ID_WAIT_FINALITY_VOTE, HandleWaitFinalityVote);
    (RPC_ID_WAIT_NOTARIZED_BLOCK, HandleWaitNotarizedBlock); (RPC_ID_PUSH_PEER_ADDR_UPDATE, HandlePushPeerAddrUpdate);
    (RPC_ID_GET_PEER_ADDR_UPDATE, HandleGetPeerAddrUpdate); (RPC_ID_GET_CONSENSUS_PARAMS, HandleGetConsensusParams);
    (RPC_ID_GET_BLOCK, HandleGetBlock) ].

(** The requests that the functions of the client send, each with its id.
    Messages that are records of one field are encoded as the field:
    [GetConsensusParamsRequest] is read as [GetConsensusVersionRequest]. *)
Inductive RpcRequest :=
  | Hello (msg : list N)
  | WaitVote (req : WaitVoteRequest)
  | WaitFinalityVote (round : BlockRound)
  | WaitNotarizedBlock (req : WaitNotarizedBlockRequest)
  | PushPeerAddrUpdate (update : Signed AddressUpdate.t)
  | GetPeerAddrUpdate (peer_pubkey : PeerPubkey)
  | GetConsensusParams (round : BlockRound)
  | GetBlock (req : GetBlockRequest).
Definition request_id (req : RpcRequest) : N :=
  match req with
  | Hello _ => RPC_ID_HELLO
  | WaitVote _ => RPC_ID_WAIT_VOTE
  | WaitFinalityVote _ => RPC_ID_WAIT_FINALITY_VOTE
  | WaitNotarizedBlock _ => RPC_ID_WAIT_NOTARIZED_BLOCK
  | PushPeerAddrUpdate _ => RPC_ID_PUSH_PEER_ADDR_UPDATE
  | GetPeerAddrUpdate _ => RPC_ID_GET_PEER_ADDR_UPDATE
  | GetConsensusParams _ => RPC_ID_GET_CONSENSUS_PARAMS
  | GetBlock _ => RPC_ID_GET_BLOCK
  end.
(** What is sent back; [NoAnswer] ends the stream without a message. *)
Inductive RpcAnswer :=
  | AnHello (msg : list N)
  | AnVote (resp : WaitVoteResponse)
  | AnFinalityVote (resp : WaitFinalityVoteResponse)
  | AnNotarized (resp : WaitNotarizedBlockResponse)
  | AnAddr (update : option (Signed AddressUpdate.t))
  | AnParams (raw : Payload)
  | AnBlock (resp : GetBlockResponse)
  | NoAnswer.

Section RpcServer.
Context `{Crypto} `{Bincode} `{CItemsCodec} `{Hashable AddressUpdate.t}.
Implicit Types (l : Life) (c : Consensus) (req : RpcRequest) (st : VoteStage).

(** [NodeHandle::node_ref]; [None] is a node that is gone. *)
Definition node_ref (handle : option Life) : outcome Whatever Life :=
  match handle with Some l => Ok l | None => Err "Client gone" end.

(** [consensus_wait]: a handler waits until there is a consensus. *)
Definition consensus_wait {A} l (f : Consensus → outcome Empty_set (Served A)) : outcome Empty_set (Served A) :=
  match life_consensus l with Some c => f c | None => Ok Waits end.
Definition answers {A B} (f : A → B) (s : Served A) : Served B :=
  match s with Responds a => Responds (f a) | Fails why => Fails why | Waits => Waits end.

(** The part of the node that [handle_wait_finality_vote] reads. *)
Definition as_node l c : Node := MkNode c (life_secret l) 0 [] ∅ ∅ None.

(** ** The handlers

    One step of a handler on the node [l]: what it does, its stage after it (only
    the handler of votes has stages), and the addresses.  [Fails] is what a handler
    logs before its stream ends. *)
Abbreviation Step := (outcome Empty_set (Served RpcAnswer * VoteStage * AddrDb)) (only parsing).
Definition reads l st (o : outcome Empty_set (Served RpcAnswer)) : Step := s ← o; Ok (s, st, life_addrs l).

Definition handle_hello l st (msg : list N) : Step := reads l st (Ok (Responds (AnHello msg))).
Definition handle_wait_vote l st (r : WaitVoteRequest) : Step :=
  match life_pubkey l, life_consensus l with
  | None, _ => Ok (Fails "We have no peer pubkey", st, life_addrs l)
  | Some _, None => Ok (Waits, st, life_addrs l)
  | Some pk, Some c =>
      o ← wait_vote_step (Some pk) r c st;
      Ok match o with
         | None => (Waits, st, life_addrs l)
         | Some (VoteDone served) => (answers AnVote served, VoteDone served, life_addrs l)
         | Some st' => (Waits, st', life_addrs l)
         end
  end.
Definition serve_finality_vote l st (round : BlockRound) : Step :=
  match life_pubkey l with
  | None => Ok (Fails "We have no peer pubkey", st, life_addrs l)
  | Some _ =>
      reads l st (consensus_wait l (λ c, s ← handle_wait_finality_vote (as_node l c) round; Ok (answers AnFinalityVote s)))
  end.
Definition serve_notarized_block l st (r : WaitNotarizedBlockRequest) : Step :=
  reads l st (consensus_wait l (λ c, s ← handle_wait_notarized_block c r; Ok (answers AnNotarized s))).
Definition serve_push_peer_addr_update l st (update : Signed AddressUpdate.t) : Step :=
  match handle_address_update (life_addrs l) update with
  | Ok addrs => Ok (Responds NoAnswer, st, addrs)
  | Err _ => Ok (Fails "Invalid signature", st, life_addrs l)
  | Panic why => Panic why
  end.
Definition serve_get_peer_addr_update l st (peer_pubkey : PeerPubkey) : Step :=
  let '(update, addrs) := handle_get_peer_addr_update (life_addrs l) peer_pubkey in
  Ok (Responds (AnAddr update), st, addrs).
Definition serve_get_consensus_params l st (round : BlockRound) : Step :=
  reads l st (consensus_wait l (λ c, raw ← handle_get_consensus_params c round; Ok (Responds (AnParams raw)))).
Definition serve_get_block l st (r : GetBlockRequest) : Step :=
  reads l st (consensus_wait l (λ c, resp ← handle_get_block c r;
    Ok (Responds (match resp with Some resp => AnBlock resp | None => NoAnswer end)))).

Definition handler_step (h : Handler) l req st : Step :=
  match h, req with
  | HandleHello, Hello msg => handle_hello l st msg
  | HandleWaitVote, WaitVote r => handle_wait_vote l st r
  | HandleWaitFinalityVote, WaitFinalityVote round => serve_finality_vote l st round
  | HandleWaitNotarizedBlock, WaitNotarizedBlock r => serve_notarized_block l st r
  | HandlePushPeerAddrUpdate, PushPeerAddrUpdate update => serve_push_peer_addr_update l st update
  | HandleGetPeerAddrUpdate, GetPeerAddrUpdate peer_pubkey => serve_get_peer_addr_update l st peer_pubkey
  | HandleGetConsensusParams, GetConsensusParams round => serve_get_consensus_params l st round
  | HandleGetBlock, GetBlock r => serve_get_block l st r
  | _, _ => Ok (Fails "Failed to read request", st, life_addrs l)
  end.
(** The router. *)
Definition serve_request l req st : outcome Empty_set (Served RpcAnswer * VoteStage * AddrDb) :=
  match (list_to_map into_iroh_protocol_handler : gmap N Handler) !! request_id req with
  | Some h => handler_step h l req st
  | None => Ok (Fails "No handler", st, life_addrs l)
  end.
(** The start of a handler, with the handle of the server: the node must be
    there, but for a greeting. *)
Definition first_step (handle : option Life) req : outcome Empty_set (Served RpcAnswer * VoteStage * option AddrDb) :=
  match req with
  | Hello msg => Ok (Responds (AnHello msg), VoteOpen, life_addrs <$> handle)
  | _ =>
      match node_ref handle with
      | Ok l => r ← serve_request l req VoteOpen; Ok (r.1, Some r.2)
      | Err why => Ok (Fails why, VoteOpen, None)
      | Panic why => Panic why
      end
  end.
End RpcServer.

(** ** The contract *)
Section RpcServerProps.
Context `{Crypto} `{Bincode} `{CItemsCodec} `{Hashable AddressUpdate.t}.
Implicit Types (l : Life) (c : Consensus) (req : RpcRequest) (st : VoteStage).

(** Every request of a client reaches the handler that reads it. *)
Lemma request_handler req :
  ∃ h, (list_to_map into_iroh_protocol_handler : gmap N Handler) !! request_id req = Some h ∧
  ∀ l st, serve_request l req st = handler_step h l req st.
Proof. unfold serve_request. destruct req; (eexists; split; [vm_compute; reflexivity|reflexivity]). Qed.

Definition has_consensus l (P : Consensus → Prop) : Prop := ∃ c, life_consensus l = Some c ∧ P c.

(** The stored signatures of a round, by peer. *)
Definition vote_sigs c (r : BlockRound) (m : gmap PeerIdx Signature) : Prop := ∀ i s,
  m !! i = Some s ↔ ∃ v, cons_votes_block (db c) !! (r, i) = Some v ∧ sig v = s.
Definition dummy_sigs c (r : BlockRound) (m : gmap PeerIdx Signature) : Prop := ∀ i s,
  m !! i = Some s ↔ cons_votes_dummy (db c) !! (r, i) = Some s.
(** A notarized block of the node with the signatures that are stored for it, which
    are a quorum and verify. *)
Definition certified c (n : Notarized BlockHeader.t) : Prop :=
  let b := notarized_inner n in
  cons_blocks_notarized (db c) !! BlockHeader.round b = Some b ∧ vote_sigs c (BlockHeader.round b) (sigs n) ∧
  ∃ p, params_at (db c) (BlockHeader.round b) = Some p ∧ verify_sigs n p = Ok ().
(** The answer to a request for a notarized block: the first one from the round on,
    with its payload; and, if there is none, the dummy block of the round of the
    asker, with a quorum of stored dummy votes. *)
Definition notarized_answer c (r : WaitNotarizedBlockRequest) (resp : WaitNotarizedBlockResponse) : Prop :=
  let b := notarized_inner (resp_notarized resp) in
  (certified c (resp_notarized resp) ∧ (min_notarized_round r ≤ BlockHeader.round b)%N ∧
     (∀ k, is_Some (cons_blocks_notarized (db c) !! k) → (min_notarized_round r ≤ k)%N → (BlockHeader.round b ≤ k)%N) ∧
     cons_blocks_payloads (db c) !! BlockHeader.payload_hash b = Some (resp_payload resp) ∧
     blake3 (resp_payload resp) = BlockHeader.payload_hash b) ∨
  ((∀ k, is_Some (cons_blocks_notarized (db c) !! k) → (k < min_notarized_round r)%N) ∧
     dummy_sigs c (wn_cur_round r) (sigs (resp_notarized resp)) ∧ resp_payload resp = [] ∧
     ∃ p, params_at (db c) (wn_cur_round r) = Some p ∧ new_dummy (E:=Empty_set) (wn_cur_round r) p = Ok b ∧
       (NumPeers.threshold (npeers p) ≤ N.of_nat (size (sigs (resp_notarized resp))))%N).
(** The latest notarized block up to a round. *)
Definition last_block c (r : BlockRound) (n : Notarized BlockHeader.t) : Prop :=
  let b := notarized_inner n in
  certified c n ∧ (BlockHeader.round b ≤ r)%N ∧
  ∀ k, is_Some (cons_blocks_notarized (db c) !! k) → (k ≤ r)%N → (k ≤ BlockHeader.round b)%N.

(** An answer that keeps its promise, from the node as it is then. *)
Definition answer_ok l req (a : RpcAnswer) : Prop :=
  match req, a with
  | Hello msg, AnHello msg' => msg' = msg
  | WaitVote r, AnVote resp => has_consensus l (λ c, ∃ pk, life_pubkey l = Some pk ∧ good_answer pk r c resp)
  | WaitFinalityVote round, AnFinalityVote resp => has_consensus l (λ c, ∃ sk, life_secret l = Some sk ∧
      (round < finality_self_vote (watches c))%N ∧
      update resp = new_sign (MkFinalityVoteUpdate (finality_self_vote (watches c))) sk)
  | WaitNotarizedBlock r, AnNotarized resp => has_consensus l (λ c, notarized_answer c r resp)
  | PushPeerAddrUpdate u, NoAnswer => genuine u
  | GetPeerAddrUpdate pk, AnAddr u => u = peer_addresses (life_addrs l) !! pk
  | GetConsensusParams round, AnParams raw => has_consensus l (λ c, ∃ p, params_at (db c) round = Some p ∧ raw = to_raw p)
  | GetBlock r, AnBlock resp => has_consensus l (λ c,
      (gb_round r < finality_consensus (watches c))%N ∧ last_block c (gb_round r) (gb_block resp))
  | GetBlock r, NoAnswer => has_consensus l (λ c,
      (finality_consensus (watches c) ≤ gb_round r)%N ∨ (u64_max ≤ gb_round r)%N ∨
      ∀ k, is_Some (cons_blocks_notarized (db c) !! k) → (gb_round r < k)%N)
  | _, _ => False
  end.
(** Why a request may fail, and why it may wait. *)
Definition failure_ok l req : Prop :=
  match req with
  | WaitVote r => life_pubkey l = None ∨ has_consensus l (λ c, (wv_round r < cur c)%N ∨
      ∃ pk p, life_pubkey l = Some pk ∧ params_at (db c) (wv_round r) = Some p ∧ pk ∉ ConsensusParams.peers p)
  | WaitFinalityVote _ => life_pubkey l = None
  | PushPeerAddrUpdate u => ¬ genuine u
  | _ => False
  end.
Definition wait_ok l req st : Prop :=
  match req with
  | WaitVote r => life_consensus l = None ∨ has_consensus l (λ c,
      (cur c < wv_round r)%N ∨ st = VoteOpen ∨ wv_round r = cur c ∨ ∃ o, st = VoteDone o)
  | WaitFinalityVote round => life_consensus l = None ∨ has_consensus l (λ c, (finality_self_vote (watches c) ≤ round)%N)
  | WaitNotarizedBlock r => life_consensus l = None ∨ has_consensus l (λ c,
      (cur c < min_notarized_round r)%N ∨
      ∀ k, is_Some (cons_blocks_notarized (db c) !! k) → (k < min_notarized_round r)%N)
  | GetConsensusParams _ | GetBlock _ => life_consensus l = None
  | _ => False
  end.
(** The stage of the request, for the node as it is. *)
Definition stage_ok l req st : Prop :=
  match req with
  | WaitVote r => match life_consensus l with
                  | Some c => vote_stage_ok (life_pubkey l) r c st
                  | None => st = VoteOpen
                  end
  | _ => True
  end.

(** ** The node goes on *)
Definition node_ok l : Prop :=
  (∀ c, life_consensus l = Some c → reachable c) ∧ addr_wf (life_pubkey l) (life_addrs l).
Record life_change l l' : Prop := {
  lc_secret : life_secret l' = life_secret l;
  lc_consensus : match life_consensus l, life_consensus l' with
                 | Some c, Some c' => c' = c ∨ cstep c c'
                 | Some _, None => False
                 | None, Some c' => reachable c'
                 | None, None => True
                 end;
  lc_addrs : life_addrs l' = life_addrs l ∨ astep (life_pubkey l) (life_addrs l) (life_addrs l');
}.
Definition set_life_addrs (addrs : AddrDb) l : Life := MkLife (life_consensus l) (life_db l) addrs (life_secret l).
Inductive served_run req : Life * VoteStage → Life * VoteStage → Prop :=
  | SRefl x : served_run req x x
  | SOther x l l' st : served_run req x (l, st) → life_change l l' → served_run req x (l', st)
  | SStep x l st st' served addrs :
      served_run req x (l, st) → serve_request l req st = Ok (served, st', addrs) →
      served_run req x (set_life_addrs addrs l, st').

Lemma life_change_ok l l' req st :
  node_ok l → stage_ok l req st → life_change l l' → node_ok l' ∧ stage_ok l' req st.
Proof.
  intros [Hc Ha] Hst [Hsec Hcons Haddrs].
  assert (life_pubkey l' = life_pubkey l) as Hpk by (unfold life_pubkey; by rewrite Hsec). split; [split|].
  - intros c' Hc'. rewrite Hc' in Hcons. destruct (life_consensus l) as [c|]; [|done].
    destruct Hcons as [->|Hs]; [by apply Hc|]. eapply RStep; [by apply Hc|done].
  - rewrite Hpk. destruct Haddrs as [->|Hs]; [done|]. by eapply astep_wf.
  - destruct req as [|r| | | | | |]; try done. cbn in *. rewrite Hpk.
    destruct (life_consensus l) as [c|], (life_consensus l') as [c'|]; [| |by rewrite Hst|done]; [|done].
    destruct Hcons as [->|Hs]; [done|]. eapply vote_stage_cstep; [by apply reachable_wf, Hc|done|done].
Qed.

(** *** What the handlers of blocks and parameters find *)
Lemma served_by_peer {V} (f : V → Signature) (T : Type) (b : T) (r : BlockRound) (m : gmap (BlockRound * PeerIdx) V) :
  (∀ i v, m !! (r, i) = Some v → (i ≤ 255)%N) →
  let votes := (λ kv : N * N * V, (kv.1.2, f kv.2)) <$> range (round_votes r) m in
  (∀ i s, sigs (notarized_new b votes) !! i = Some s ↔ ∃ v, m !! (r, i) = Some v ∧ f v = s) ∧
  size (sigs (notarized_new b votes)) = length votes.
Proof.
  intros Hlt votes. pose proof (round_sigs_NoDup f r m) as Hnd.
  assert (sigs (notarized_new b votes) = list_to_map votes) as ->.
  { unfold notarized_new. cbn [sigs]. rewrite foldl_insert_map by (try exact Hnd; intros; apply lookup_empty).
    by rewrite map_union_empty. }
  split; [|by apply map_size_list_to_map]. intros i s. rewrite <-elem_of_list_to_map by exact Hnd.
  unfold votes. rewrite list_elem_of_fmap. split.
  - intros ([[r' j] v] & [= -> ->] & [Hv [Hr _]%round_votes_spec]%elem_of_range). cbn in Hr. subst. eauto.
  - intros (v & Hv & <-). exists (r, i, v). split; [done|]. apply elem_of_range. split; [done|].
    apply round_votes_spec. split; [done|]. by eapply Hlt.
Qed.
Lemma vote_index d r i v : DbInv d → cons_votes_block d !! (r, i) = Some v → (i ≤ 255)%N.
Proof.
  intros Hinv Hv. destruct (inv_votes d Hinv r i v Hv) as (_ & _ & p & Hp & Hi%sig_ok_lt).
  destruct (params_at_wf d r Hinv) as (p' & Hp' & Hwf). rewrite Hp in Hp'. injection Hp' as <-.
  pose proof (npeers_pos p Hwf). lia.
Qed.
Lemma dummy_index d r i s : DbInv d → cons_votes_dummy d !! (r, i) = Some s → (i ≤ 255)%N.
Proof.
  intros Hinv Hv. destruct (inv_dummy d Hinv r i s Hv) as (hdr & p & _ & _ & Hp & _ & Hi%sig_ok_lt).
  destruct (params_at_wf d r Hinv) as (p' & Hp' & Hwf). rewrite Hp in Hp'. injection Hp' as <-.
  pose proof (npeers_pos p Hwf). lia.
Qed.
(** What is served for a notarized block. *)
Lemma served_certified c r b :
  DbInv (db c) → cons_blocks_notarized (db c) !! r = Some b →
  let n := notarized_new b ((λ kv : N * N * SignedVote, (kv.1.2, sig kv.2)) <$>
    range (round_votes (BlockHeader.round b)) (cons_votes_block (db c))) in
  BlockHeader.round b = r ∧ certified c n ∧
  ∃ payload, cons_blocks_payloads (db c) !! BlockHeader.payload_hash b = Some payload ∧
    blake3 payload = BlockHeader.payload_hash b.
Proof.
  intros Hinv Hb n. destruct (notarized_served _ _ _ Hinv Hb) as (<- & payload & p & Hpay & Hp & Hsigs & _).
  split_and!; [done| |exists payload; split; [done|by apply (inv_payloads _ Hinv)]].
  split_and!; [done| |by exists p].
  refine (proj1 (served_by_peer sig _ b _ _ _)). intros i v. by apply vote_index.
Qed.

Lemma notarized_resp_spec c (r : WaitNotarizedBlockRequest) :
  reachable c → ∃ o, get_notarized_block_resp c r = Ok o ∧
  match o with
  | Some resp => notarized_answer c r resp
  | None => ∀ k, is_Some (cons_blocks_notarized (db c) !! k) → (k < min_notarized_round r)%N
  end.
Proof.
  intros [[Hinv _ _] _]%reachable_wf.
  unfold get_notarized_block_resp, read_tx, read_with_expect, read_with_inner_falliable, get_notarized_block_resp_rd,
    mbind, rd_bind, rd_get, rd_expect, rd_lift.
  destruct (range_first (rg_from (min_notarized_round r)) (cons_blocks_notarized (db c))) as [[k b]|] eqn:Hf; cbn [fmap option_fmap option_map snd].
  - apply range_first_Some in Hf as (Hb & Hge & Hmin). apply rg_from_N in Hge.
    destruct (served_certified c _ _ Hinv Hb) as (<- & Hcert & payload & Hpay & Hh). rewrite Hpay. cbn.
    eexists. split; [reflexivity|]. left. cbn [resp_notarized resp_payload]. split_and!; [exact Hcert|exact Hge| |exact Hpay|exact Hh].
    intros k [b' Hk] Hk'%rg_from_N. by apply (Hmin k b').
  - rewrite range_first_None in Hf.
    assert (∀ k, is_Some (cons_blocks_notarized (db c) !! k) → (k < min_notarized_round r)%N) as Hnone.
    { intros k [b Hb]. specialize (Hf _ _ Hb).
      destruct (N.lt_ge_cases k (min_notarized_round r)) as [|Hge]; [done|]. apply rg_from_N in Hge. congruence. }
    destruct (get_consensus_params_inv (E:=Empty_set) (db c) (wn_cur_round r) Hinv) as (p & -> & Hp & Hwf). cbn.
    rewrite num_peers_wf by done. cbn. destruct (N.leb_spec (NumPeers.threshold (npeers p))
      (N.of_nat (length ((λ kv, (kv.1.2, kv.2)) <$> range (round_votes (wn_cur_round r)) (cons_votes_dummy (db c)))))) as [Hq|Hq];
      [|by eexists].
    destruct (new_dummy (E:=Empty_set) (wn_cur_round r) p) as [d| |] eqn:Hd.
    2-3: exfalso; pose proof (params_len_wf (E:=Empty_set) p Hwf) as Hl; unfold params_len in Hl;
      unfold new_dummy, hash_and_len in Hd; rewrite Hl in Hd; done.
    destruct (served_by_peer (λ s : Signature, s) _ d (wn_cur_round r) (cons_votes_dummy (db c))
      (λ i s, dummy_index (db c) (wn_cur_round r) i s Hinv)) as [Hs Hsz]. cbv beta in Hs, Hsz.
    eexists. split; [reflexivity|]. right. split_and!; [done| |done|].
    + intros i s. rewrite Hs. naive_solver.
    + exists p. split_and!; [done|done|]. cbn [resp_notarized]. rewrite Hsz. exact Hq.
Qed.
Lemma finalized_block_spec c (r : BlockRound) :
  reachable c → ∃ o, get_finalized_block c r = Ok o ∧
  match o with
  | Some resp => (r < finality_consensus (watches c))%N ∧ last_block c r resp
  | None => (finality_consensus (watches c) ≤ r)%N ∨ (u64_max ≤ r)%N ∨
      ∀ k, is_Some (cons_blocks_notarized (db c) !! k) → (r < k)%N
  end.
Proof.
  intros [[Hinv _ _] _]%reachable_wf. unfold get_finalized_block.
  destruct (N.leb_spec (finality_consensus (watches c)) r) as [Hle|Hlt]; [by exists None; auto|].
  unfold round_next. destruct (checked_add u64_max r 1) as [r1|] eqn:Hr1.
  - apply checked_add_Some in Hr1 as [-> Hmx].
    unfold read_tx, read_with_expect, read_with_inner_falliable, get_prev_notarized_block, prev_notarized, get_votes_proposal,
      mbind, rd_bind, rd_get.
    destruct (range_last (rg_to (r + 1)%N) (cons_blocks_notarized (db c))) as [[k b]|] eqn:Hl; cbn [fmap option_fmap option_map snd].
    + apply range_last_Some in Hl as (Hb & Hk & Hmax). apply rg_to_N in Hk.
      destruct (served_certified c _ _ Hinv Hb) as (<- & Hcert & _). eexists. split; [reflexivity|]. split; [done|].
      split_and!; [exact Hcert|cbn; lia|]. intros k [b' Hb'] Hle. apply (Hmax k b' Hb'). apply rg_to_N. lia.
    + exists None. split; [reflexivity|]. right; right. intros k [b Hb]. rewrite range_last_None in Hl. specialize (Hl _ _ Hb).
      destruct (N.lt_ge_cases r k) as [|Hge]; [done|]. assert (k < r + 1)%N as Hk by lia. apply rg_to_N in Hk. congruence.
  - exists None. split; [done|]. right; left. unfold checked_add in Hr1. case_decide; [done|]. lia.
Qed.

(** *** Every handler *)
Definition served_ok l req st (o : outcome Empty_set (Served RpcAnswer * VoteStage * AddrDb)) : Prop :=
  match o with
  | Ok (served, st', addrs) =>
      addr_wf (life_pubkey l) addrs ∧ only_newer (life_addrs l) addrs ∧ stage_ok l req st' ∧
      match served with
      | Responds a => answer_ok l req a
      | Fails _ => failure_ok l req
      | Waits => wait_ok l req st
      end
  | Err e => match e with end
  | Panic _ => ∃ u, req = PushPeerAddrUpdate u ∧ verifying_key_ok (AddressUpdate.peer_pubkey (signed_inner u)) = false
  end.
(** The addresses as they were, and no stage. *)
Lemma served_read l req st served :
  node_ok l → stage_ok l req st →
  match served with Responds a => answer_ok l req a | Fails _ => failure_ok l req | Waits => wait_ok l req st end →
  served_ok l req st (Ok (served, st, life_addrs l)).
Proof. intros [_ Ha] Hst Hs. split_and!; [done|by apply only_newer_refl|done|done]. Qed.

Lemma vote_request_ok l (r : WaitVoteRequest) st :
  node_ok l → stage_ok l (WaitVote r) st → served_ok l (WaitVote r) st (handler_step HandleWaitVote l (WaitVote r) st).
Proof.
  intros Hl Hst. cbn [handler_step]. unfold handle_wait_vote. destruct (life_pubkey l) as [pk|] eqn:Hpk; [|apply served_read; [done..|by left]].
  destruct (life_consensus l) as [c|] eqn:Hc; [|apply served_read; [done..|by left]].
  pose proof Hl as [Hreach Ha]. specialize (Hreach c Hc). rewrite Hpk in Ha. cbn in Hst. rewrite Hc, Hpk in Hst.
  pose proof (vote_step_spec (Some pk) r c st Hreach Hst) as Hs. unfold vote_step_ok in Hs.
  assert (∀ st', vote_stage_ok (Some pk) r c st' → stage_ok l (WaitVote r) st') as Hstage by (intros st'; cbn; by rewrite Hc, Hpk).
  destruct (wait_vote_step (Some pk) r c st) as [[st'|]|e|w] eqn:Hstep; [| |done..]; cbn [mbind outcome_bind].
  - destruct (wait_vote_step_stage _ _ _ _ _ Hstep) as [Hopen Hpoll].
    destruct st' as [|p i|[resp|why|]]; cbn in Hs; [done| | | |done];
      (split_and!; [by rewrite Hpk|by apply only_newer_refl|by apply Hstage|]).
    + right. exists c. split; [done|]. right; left. by eapply Hpoll.
    + exists c. split; [done|]. destruct Hs as (_ & k & [= <-] & Hg). by exists pk.
    + right. exists c. split; [done|]. destruct Hs as [?|[?|(_ & k & p & [= <-] & ? & ?)]]; [by left|done|].
      right. by exists pk, p.
  - apply served_read; [done|by apply Hstage|]. right. exists c. split; [done|].
    destruct st as [|p i|o]; [by left|by right; right; left|by right; right; right; eexists].
Qed.
Lemma finality_request_ok l (round : BlockRound) st : node_ok l →
  served_ok l (WaitFinalityVote round) st (handler_step HandleWaitFinalityVote l (WaitFinalityVote round) st).
Proof.
  intros Hl. cbn [handler_step]. unfold serve_finality_vote, reads. destruct (life_pubkey l) as [pk|] eqn:Hpk; [|by apply served_read].
  pose proof Hpk as Hsk. unfold life_pubkey in Hsk. destruct (life_secret l) as [sk|] eqn:Hsec; [|done]. injection Hsk as <-.
  unfold consensus_wait. destruct (life_consensus l) as [c|] eqn:Hc; [|apply served_read; [done..|by left]].
  assert (handle_wait_finality_vote (as_node l c) round =
    Ok (if (round <? finality_self_vote (watches c))%N
        then Responds (MkWaitFinalityVoteResponse (new_sign (MkFinalityVoteUpdate (finality_self_vote (watches c))) sk))
        else Waits)) as ->.
  { unfold handle_wait_finality_vote, peer_pubkey, as_node, get_peer_secret_expect. cbn. by rewrite Hsec. }
  cbn [mbind outcome_bind].
  destruct (N.ltb_spec round (finality_self_vote (watches c))) as [Hlt|Hle]; cbn [answers]; apply served_read; try done.
  - exists c. split; [done|]. by exists sk.
  - right. by exists c.
Qed.
Lemma block_requests_ok l st : node_ok l →
  (∀ r, served_ok l (WaitNotarizedBlock r) st (handler_step HandleWaitNotarizedBlock l (WaitNotarizedBlock r) st)) ∧
  (∀ r, served_ok l (GetConsensusParams r) st (handler_step HandleGetConsensusParams l (GetConsensusParams r) st)) ∧
  (∀ r, served_ok l (GetBlock r) st (handler_step HandleGetBlock l (GetBlock r) st)).
Proof.
  intros Hl. unfold handler_step, serve_notarized_block, serve_get_consensus_params, serve_get_block, reads, consensus_wait.
  destruct (life_consensus l) as [c|] eqn:Hc; [|split_and!; intros r; apply served_read; try done; by left].
  pose proof (proj1 Hl c Hc) as Hreach. pose proof (reachable_wf c Hreach) as [[Hinv _ _] Hcur]. split_and!; intros r.
  - unfold handle_wait_notarized_block. rewrite Hcur. fold (cur c).
    destruct (N.leb_spec (min_notarized_round r) (cur c)) as [Hle|Hlt]; cbn [mbind outcome_bind mret outcome_ret answers].
    + destruct (notarized_resp_spec c r Hreach) as (o & -> & Ho). cbn [mbind outcome_bind].
      destruct o as [resp|]; apply served_read; try done; [by exists c|]. right. exists c. split; [done|]. by right.
    + apply served_read; try done. right. exists c. split; [done|]. by left.
  - unfold handle_get_consensus_params.
    destruct (params_at_wf _ r Hinv) as (p & Hp & Hwf).
    assert (get_round_params c r = Ok p) as -> by (by apply read_with_expect_Ok, get_consensus_params_Ok).
    cbn [mbind outcome_bind]. apply served_read; try done. exists c. split; [done|]. by exists p.
  - unfold handle_get_block. destruct (finalized_block_spec c (gb_round r) Hreach) as (o & -> & Ho). cbn [mbind outcome_bind].
    destruct o as [resp|]; apply served_read; try done; exists c; by split.
Qed.
Lemma push_request_ok l u st : node_ok l →
  served_ok l (PushPeerAddrUpdate u) st (handler_step HandlePushPeerAddrUpdate l (PushPeerAddrUpdate u) st).
Proof.
  intros Hl. cbn [handler_step]. unfold serve_push_peer_addr_update. destruct (handle_address_update (life_addrs l) u) as [addrs|e|w] eqn:Hu.
  - destruct (wf_handle _ _ _ _ Hu (proj2 Hl)) as [Hwf Hnew]. split_and!; [done..|].
    by apply handle_address_update_Ok in Hu as [? _].
  - apply served_read; [done..|]. intros Hg. revert Hu. unfold handle_address_update, genuine in *. by rewrite Hg.
  - exists u. split; [done|]. revert Hu. unfold handle_address_update, verify_signature, verify_hash_signature.
    destruct (verifying_key_ok _); [|done]. by destruct (verify_strict _ _ _).
Qed.
Lemma address_request_ok l pk st : node_ok l →
  served_ok l (GetPeerAddrUpdate pk) st (handler_step HandleGetPeerAddrUpdate l (GetPeerAddrUpdate pk) st).
Proof.
  intros Hl. cbn [handler_step]. unfold serve_get_peer_addr_update, handle_get_peer_addr_update.
  destruct (wf_get_peer_addr (life_pubkey l) pk (life_addrs l) (proj2 Hl)) as [Hwf Hnew].
  destruct (get_peer_addr pk (life_addrs l)) as [update addrs] eqn:Hget. cbn in *. split_and!; [done..|].
  unfold get_peer_addr in Hget. destruct (peer_addresses (life_addrs l) !! pk); by injection Hget as <- _.
Qed.
Lemma serve_request_ok l req st : node_ok l → stage_ok l req st → served_ok l req st (serve_request l req st).
Proof.
  intros Hl Hst. destruct (request_handler req) as (h & Hh & ->). destruct (block_requests_ok l st Hl) as (Hn & Hp & Hb).
  destruct req; vm_compute in Hh; injection Hh as <-.
  - by apply served_read.
  - by apply vote_request_ok.
  - by apply finality_request_ok.
  - apply Hn.
  - by apply push_request_ok.
  - by apply address_request_ok.
  - apply Hp.
  - apply Hb.
Qed.

Lemma served_run_ok req l0 l st :
  node_ok l0 → served_run req (l0, VoteOpen) (l, st) → node_ok l ∧ stage_ok l req st.
Proof.
  intros Hl0 Hrun. remember (l0, VoteOpen) as x eqn:Hx. remember (l, st) as y eqn:Hy. revert l st Hy.
  induction Hrun as [x|x l1 l2 st1 _ IH Hch|x l1 st1 st2 served addrs _ IH Hs]; intros l st Hy; simplify_eq.
  - split; [done|]. destruct req as [|r| | | | | |]; try done. cbn. by destruct (life_consensus l).
  - destruct (IH eq_refl l1 st eq_refl) as [Hl Hst]. by eapply life_change_ok.
  - destruct (IH eq_refl l1 st1 eq_refl) as [Hl Hst]. pose proof (serve_request_ok l1 req st1 Hl Hst) as Hok.
    rewrite Hs in Hok. destruct Hok as (Hwf & _ & Hstage & _). split; [|exact Hstage]. by split; [apply Hl|].
Qed.
End RpcServerProps.

(** C20: what the server promises.  Whatever request arrives, and whatever happens to
    the node while the request is open (it gets a consensus, handles messages,
    writes addresses), the handler that the id of the request finds reads it and
    - answers with what was asked for, from the node as it is then: a vote of the
      round under the index of this node, its newest finality vote with its
      signature, the first notarized block from the round on with its payload (or,
      when there is none, the dummy block of the asker's round with a quorum of
      stored dummy votes), the parameters, the last notarized block up to a round
      that is final, or the address; notarized blocks come with all the stored
      signatures of theirs, which are a quorum and verify;
    - fails only without a key, for a round that is over or without this node, or
      for an address that is not signed by its owner;
    - waits only while there is no consensus or the answer is not there yet;
    and it panics for one kind of request only, a pushed address whose key is no
    valid point.  It changes nothing but the addresses, which stay well-formed and
    are only replaced by newer ones. *)
Theorem requests_answered `{Crypto} `{Bincode} `{CItemsCodec} `{Hashable AddressUpdate.t}
    (req : RpcRequest) (l0 l : Life) (st : VoteStage) :
  node_ok l0 → served_run req (l0, VoteOpen) (l, st) →
  match serve_request l req st with
  | Ok (served, st', addrs) =>
      addr_wf (life_pubkey l) addrs ∧ only_newer (life_addrs l) addrs ∧
      match served with
      | Responds a => answer_ok l req a
      | Fails _ => failure_ok l req
      | Waits => wait_ok l req st
      end
  | Err e => match e with end
  | Panic _ => ∃ u, req = PushPeerAddrUpdate u ∧ verifying_key_ok (AddressUpdate.peer_pubkey (signed_inner u)) = false
  end.
Proof.
  intros Hl0 [Hl Hst]%served_run_ok; [|done]. pose proof (serve_request_ok l req st Hl Hst) as Hok.
  destruct (serve_request l req st) as [[[served st'] addrs]|e|w]; [|done..]. destruct Hok as (? & ? & _ & ?). done.
Qed.

(** The leader of round 0 is asked for its vote, first without a consensus. *)
Section RpcServerWitnesses.
Local Existing Instance Toy.bincode.
Local Existing Instance Toy.crypto.
Local Existing Instance ToyNet.codec.
Local Existing Instance toy_address_hashable.

Definition waiting_node : Life := MkLife None empty_db (MkAddrDb ∅ ∅ ∅) (Some 2%N).
Definition started_node : Life := MkLife (Some toy_proposed) empty_db (MkAddrDb ∅ ∅ ∅) (Some 2%N).
Definition vote_asked : RpcRequest := WaitVote (MkWaitVoteRequest 0 false).
Definition vote_answer : WaitVoteResponse :=
  Proposal (new_sign ToyNet.block 2%N) (encode_citems [CTransaction ToyNet.transaction]).
Lemma requests_answered_witness :
  (∃ st, serve_request started_node vote_asked (VotePoll toy_params 2) = Ok (Responds (AnVote vote_answer), st, MkAddrDb ∅ ∅ ∅)) ∧
  answer_ok started_node vote_asked (AnVote vote_answer).
Proof.
  assert (∃ st, serve_request started_node vote_asked (VotePoll toy_params 2)
    = Ok (Responds (AnVote vote_answer), st, MkAddrDb ∅ ∅ ∅)) as [st Hs] by (eexists; vm_compute; reflexivity).
  split; [exists st; exact Hs|].
  pose proof (requests_answered vote_asked waiting_node started_node (VotePoll toy_params 2)) as Ha.
  rewrite Hs in Ha. apply Ha.
  - split; [intros c Hc; discriminate Hc|]. split; [intros pk u Hu; discriminate Hu|].
    intros pk [x Hx]. discriminate Hx.
  - apply (SStep _ _ started_node VoteOpen _ Waits (MkAddrDb ∅ ∅ ∅)).
    + apply (SOther _ _ waiting_node started_node); [apply SRefl|]. split; [reflexivity| |by left].
      cbn. eapply RStep; [exact reachable_toy_c|apply CVote].
    + vm_compute. reflexivity.
Defined.
End RpcServerWitnesses.
