(* ===== verification/Secret.v ===== *)
(** * The secret of a node, and the password of its interface
      ([derive-secret/src/lib.rs], [node/src/derive_secret_ext.rs], [node/src/pass.rs])

    A node has one root secret, from which the key of the peer and the key of the
    endpoint are derived, and which is written down as a mnemonic. *)
From S2P Require Import Prelude Peers Core.

(** HKDF and BIP 39. *)
Class SecretLibs := {
  (** [Hkdf::new(salt, ikm).expand(info)], 32 bytes *)
  hkdf : list N → list N → list N → list N;
  (** [Mnemonic::from_entropy(..).to_string()] and [Mnemonic::from_str(..).to_entropy()] *)
  mnemonic_of : list N → string;
  entropy_of : string → option (list N);
}.
(** What their documentation says. *)
Class SecretLibsLaws `{SecretLibs} := {
  hkdf_length : ∀ salt ikm info, length (hkdf salt ikm info) = 32%nat;
  mnemonic_entropy : ∀ bytes, length bytes = 32%nat → entropy_of (mnemonic_of bytes) = Some bytes;
}.

Record LevelError := MkLevelError { required : N; actual : N }.
Record DeriveableSecret := MkSecret { secret_bytes : list N; level : N }.

Section Secret.
Context `{SecretLibs}.
Implicit Types (s : DeriveableSecret).

Definition generate (random : list N) : DeriveableSecret := MkSecret random 0.
Definition is_root s : bool := (level s =? 0)%N.
Definition ensure_level s (l : N) : outcome LevelError () :=
  if decide (level s = l) then Ok () else Err (MkLevelError l (level s)).
Definition reveal_bytes s : list N := secret_bytes s.
(** [leaf.0.to_be_bytes()] *)
Definition child_id_bytes (leaf : N) : list N :=
  [N.shiftr leaf 24 `mod` 256; N.shiftr leaf 16 `mod` 256; N.shiftr leaf 8 `mod` 256; leaf `mod` 256]%N.
(** "bfte" *)
Definition hkdf_salt : list N := [98; 102; 116; 101]%N.
Definition derive {E} s (leaf : N) : outcome E DeriveableSecret :=
  let bytes := hkdf hkdf_salt (secret_bytes s) (child_id_bytes leaf) in
  level ← expect "Can't overflow level" (checked_add u32_max (level s) 1);
  Ok (MkSecret bytes level).

(** [reveal_display] and [FromStr] *)
Definition reveal_display s : string := mnemonic_of (secret_bytes s).
Definition from_str (str : string) : outcome string DeriveableSecret :=
  match entropy_of str with
  | None => Err "Mnemonic deserialization error"%string
  | Some bytes => if decide (length bytes = 32%nat) then Ok (MkSecret bytes 0) else Err "Invalid length"%string
  end.

(** [get_peer_seckey], [get_iroh_secret] *)
Definition PEER_SECKEY_CHILD_ID : N := 0.
Definition IROH_SECRET_CHILD_ID : N := 1.
Definition get_peer_seckey s : outcome LevelError (list N) :=
  _ ← ensure_level s 0;
  child ← derive s PEER_SECKEY_CHILD_ID;
  Ok (reveal_bytes child).
Definition get_iroh_secret s : outcome LevelError (list N) :=
  _ ← ensure_level s 0;
  child ← derive s IROH_SECRET_CHILD_ID;
  Ok (reveal_bytes child).

Lemma ensure_level_Ok s l : ensure_level s l = Ok () ↔ level s = l.
Proof. unfold ensure_level. case_decide; naive_solver. Qed.

(** A secret that was written down can be read back, and gives the same keys.
    Keys are derived from a root secret only: a secret that was derived itself
    is refused, with the level that is required and the level that it has. *)
Theorem secret_roundtrip `{!SecretLibsLaws} s :
  length (secret_bytes s) = 32%nat → is_root s = true →
  from_str (reveal_display s) = Ok s ∧
  (∃ peer iroh, get_peer_seckey s = Ok peer ∧ get_iroh_secret s = Ok iroh ∧ length peer = 32%nat ∧ length iroh = 32%nat) ∧
  ∀ leaf child, derive (E:=LevelError) s leaf = Ok child →
    get_peer_seckey child = Err (MkLevelError 0 1) ∧ get_iroh_secret child = Err (MkLevelError 0 1).
Proof.
  destruct s as [bytes l]. unfold is_root. cbn. intros Hlen ->%N.eqb_eq. split_and!.
  - unfold from_str, reveal_display. cbn. rewrite mnemonic_entropy by done. by rewrite decide_True.
  - eexists _, _. split_and!; [reflexivity|reflexivity|apply hkdf_length..].
  - intros leaf child. intros [= <-]. done.
Qed.
End Secret.

(** ** The password of the user interface *)
Section Password.
Context `{Crypto}.

(** The table [ui_pass_hash], and what the node keeps of it. *)
Record UiPass := MkUiPass { ui_pass_hash_table : option N; ui_pass_hash : N; ui_pass_is_temporary : bool }.

Definition load_ui_pass_hash (table : option N) : option N := table.
Definition change_ui_pass_db_static (pass : list N) : option N := Some (blake3 pass).
Definition change_ui_pass (pass : list N) (u : UiPass) : UiPass :=
  MkUiPass (change_ui_pass_db_static pass) (blake3 pass) false.
(** The part of [Node::new]: a forced password is stored first, and without a
    stored password a random one is used until the node ends. *)
Definition open_ui_pass (table : option N) (force : option (list N)) (random : list N) : UiPass :=
  let table := match force with Some pass => change_ui_pass_db_static pass | None => table end in
  match load_ui_pass_hash table with
  | Some h => MkUiPass table h false
  | None => MkUiPass table (blake3 random) true
  end.

(** A password that was set, or forced, is the one after a restart; the random
    password of a node is not. *)
Lemma password_after_restart (u : UiPass) pass random random' :
  open_ui_pass (ui_pass_hash_table (change_ui_pass pass u)) None random = change_ui_pass pass u ∧
  open_ui_pass (ui_pass_hash_table (open_ui_pass None (Some pass) random)) None random'
    = open_ui_pass None (Some pass) random ∧
  ui_pass_hash_table (open_ui_pass None None random) = None ∧
  ui_pass_is_temporary (open_ui_pass None None random) = true.
Proof. done. Qed.
End Password.

(** ** A concrete secret, with a binary numeral as the mnemonic *)
Section Witnesses.
Fixpoint pos_string (p : positive) : string :=
  match p with xH => EmptyString | xO p => String Ascii.zero (pos_string p) | xI p => String Ascii.one (pos_string p) end.
Fixpoint string_pos (s : string) : positive :=
  match s with
  | EmptyString => xH
  | String c s => if decide (c = Ascii.zero) then xO (string_pos s) else xI (string_pos s)
  end.
Lemma string_pos_string p : string_pos (pos_string p) = p.
Proof. induction p as [p IH|p IH|]; cbn; by rewrite ?IH. Qed.

Local Instance toy_libs : SecretLibs := {|
  hkdf := λ salt ikm info, replicate 32 (foldl N.add 0 (salt ++ ikm ++ info) `mod` 256)%N;
  mnemonic_of := λ bytes, pos_string (countable.encode bytes);
  entropy_of := λ s, countable.decode (string_pos s);
|}.
Local Instance toy_libs_laws : SecretLibsLaws.
Proof.
  split.
  - intros salt ikm info. apply length_replicate.
  - intros bytes _. cbn. by rewrite string_pos_string, countable.decode_encode.
Qed.

Definition toy_secret : DeriveableSecret := generate (replicate 32 7%N).
Lemma secret_roundtrip_witness :
  is_root toy_secret = true ∧ from_str (reveal_display toy_secret) = Ok toy_secret.
Proof. split; [reflexivity|]. apply (secret_roundtrip toy_secret); reflexivity. Defined.
End Witnesses.
