(* ===== verification/Text.v ===== *)
(** * The texts of the web forms ([node-ui-axum/src/routes/module.rs],
      [routes/module/consensus_ctrl.rs], [routes/module/meta.rs])

    A Rust string is the list of its characters here (Unicode scalar values);
    [as_bytes] is its encoding in UTF-8.  The functions of the standard library
    that the forms use are written out; the hex digits of the crate [hex] are a
    parameter. *)
From S2P Require Import Prelude Peers Core Module Ctrl Meta.

Abbreviation RString := (list N).

(** ** The standard library *)

(** [u8::from_str] and its wider siblings, of a type with maximum [mx]. *)
Definition is_digit (c : N) : bool := (48 <=? c)%N && (c <=? 57)%N.
Fixpoint parse_digits (mx acc : N) (s : RString) : option N :=
  match s with
  | [] => Some acc
  | c :: s' =>
      if is_digit c then
        let v := (acc * 10 + (c - 48))%N in
        if (v <=? mx)%N then parse_digits mx v s' else None
      else None
  end.
Definition parse_uint (mx : N) (s : RString) : option N :=
  match s with
  | [] => None
  | c :: s' =>
      if (c =? 43)%N then match s' with [] => None | _ :: _ => parse_digits mx 0 s' end
      else parse_digits mx 0 s
  end.

(** [Display] of an unsigned integer of at most 64 bits, which has at most 20
    digits. *)
Fixpoint dec_go (fuel : nat) (n : N) (acc : RString) : RString :=
  match fuel with
  | O => acc
  | S fuel =>
      let acc := (48 + n mod 10)%N :: acc in
      if (n / 10 =? 0)%N then acc else dec_go fuel (n / 10)%N acc
  end.
Definition display (n : N) : RString := dec_go 20 n [].

Global Arguments display : simpl never.

(** [str::split(c).collect()] *)
Fixpoint split_on (c : N) (s : RString) : list RString :=
  match s with
  | [] => [[]]
  | x :: s' =>
      if (x =? c)%N then [] :: split_on c s'
      else match split_on c s' with
           | part :: parts => (x :: part) :: parts
           | [] => [[x]]
           end
  end.

(** [char::is_whitespace], [str::trim] *)
Definition is_whitespace (c : N) : bool :=
  (9 <=? c)%N && (c <=? 13)%N || bool_decide (c ∈ [32; 133; 160; 5760; 8232; 8233; 8239; 8287; 12288]%N)
  || (8192 <=? c)%N && (c <=? 8202)%N.
Fixpoint trim_start (s : RString) : RString :=
  match s with
  | [] => []
  | c :: s' => if is_whitespace c then trim_start s' else s
  end.
Definition trim (s : RString) : RString := reverse (trim_start (reverse (trim_start s))).

(** UTF-8 *)
Definition is_char (c : N) : bool := (c <? 55296)%N || (57344 <=? c)%N && (c <? 1114112)%N.
Definition utf8_char (c : N) : list N :=
  if (c <? 128)%N then [c]
  else if (c <? 2048)%N then [192 + c / 64; 128 + c mod 64]%N
  else if (c <? 65536)%N then [224 + c / 4096; 128 + c / 64 mod 64; 128 + c mod 64]%N
  else [240 + c / 262144; 128 + c / 4096 mod 64; 128 + c / 64 mod 64; 128 + c mod 64]%N.
Definition as_bytes (s : RString) : list N := flat_map utf8_char s.

Definition within (lo hi b : N) : bool := (lo <=? b)%N && (b <=? hi)%N.
(** The bytes that may follow the first byte of three, and of four. *)
Definition second_of_three (b0 b1 : N) : bool :=
  if (b0 =? 224)%N then within 160 191 b1 else if (b0 =? 237)%N then within 128 159 b1 else within 128 191 b1.
Definition second_of_four (b0 b1 : N) : bool :=
  if (b0 =? 240)%N then within 144 191 b1 else if (b0 =? 244)%N then within 128 143 b1 else within 128 191 b1.
(** [str::from_utf8] *)
Fixpoint from_utf8 (l : list N) : option RString :=
  match l with
  | [] => Some []
  | b0 :: l0 =>
      if (b0 <? 128)%N then cons b0 <$> from_utf8 l0
      else match l0 with
      | [] => None
      | b1 :: l1 =>
          if within 194 223 b0 then
            if within 128 191 b1 then cons ((b0 - 192) * 64 + (b1 - 128))%N <$> from_utf8 l1 else None
          else match l1 with
          | [] => None
          | b2 :: l2 =>
              if within 224 239 b0 then
                if second_of_three b0 b1 && within 128 191 b2 then
                  cons ((b0 - 224) * 4096 + (b1 - 128) * 64 + (b2 - 128))%N <$> from_utf8 l2
                else None
              else match l2 with
              | [] => None
              | b3 :: l3 =>
                  if within 240 244 b0 && second_of_four b0 b1 && within 128 191 b2 && within 128 191 b3 then
                    cons ((b0 - 240) * 262144 + (b1 - 128) * 4096 + (b2 - 128) * 64 + (b3 - 128))%N <$> from_utf8 l3
                  else None
              end
          end
      end
  end.

(** ** The crate [hex] *)
Class HexLib := {
  hex_encode : list N → RString;
  hex_decode : RString → option (list N);
}.
Class HexLaws `{HexLib} := {
  hex_decode_encode : ∀ b, Forall (λ x, x < 256)%N b → hex_decode (hex_encode b) = Some b;
  hex_decode_length : ∀ s b, hex_decode s = Some b → length s = (2 * length b)%nat;
}.

(** ** Forms *)

(** [ModuleKindVersion] and its [Deserialize] *)
Record ModuleKindVersion := MkModuleKindVersion { mkv_kind : ModuleKind; mkv_version : ConsensusVersion.t }.
Definition parse_module_kind_version (s : RString) : outcome string ModuleKindVersion :=
  match split_on 58 s with
  | [part0; part1] =>
      match parse_uint u32_max part0 with
      | None => Err "Failed to parse module kind"
      | Some module_kind =>
          match split_on 46 part1 with
          | [version0; version1] =>
              match parse_uint u16_max version0 with
              | None => Err "Failed to parse major version"
              | Some major =>
                  match parse_uint u16_max version1 with
                  | None => Err "Failed to parse minor version"
                  | Some minor => Ok (MkModuleKindVersion module_kind (ConsensusVersion.mk major minor))
                  end
              end
          | _ => Err "Invalid version format"
          end
      end
  | _ => Err "Invalid module_kind format"
  end.

(** [render_add_module_form]: what can be added, and the [value] of its option *)
Definition offered_version (sv : gmap N N) : option (N * N) :=
  (λ mm : N * N, (default 0%N (parse_uint u16_max (display mm.1)), default 0%N (parse_uint u16_max (display mm.2))))
    <$> last (entries sv).
Definition available_kinds (modules_inits : gmap ModuleKind IModuleInit)
    (existing_modules : list (ModuleId * ModuleConfig.t)) : list (ModuleKind * (N * N)) :=
  let existing_kinds := (λ mc : ModuleId * ModuleConfig.t, ModuleConfig.kind mc.2) <$> existing_modules in
  omap (λ ki : ModuleKind * IModuleInit,
    if singleton ki.2 && bool_decide (ki.1 ∈ existing_kinds) then None
    else pair ki.1 <$> offered_version (supported_versions ki.2)) (entries modules_inits).
Definition option_value (o : ModuleKind * (N * N)) : RString :=
  display o.1 ++ [58]%N ++ display o.2.1 ++ [46]%N ++ display o.2.2.

Section MetaForms.
Context `{HexLib}.
(** [s.starts_with("0x") || s.starts_with("0X")] *)
Definition has_hex_prefix (s : RString) : bool :=
  match s with c0 :: c1 :: _ => (c0 =? 48)%N && ((c1 =? 120)%N || (c1 =? 88)%N) | _ => false end.
(** [MetaValue] and its [Deserialize] *)
Definition parse_meta_value (s : RString) : outcome string (list N) :=
  if has_hex_prefix s then
    match hex_decode (drop 2 s) with
    | Some bytes => Ok bytes
    | None => Err "Invalid hex value"
    end
  else Ok (as_bytes s).
(** The text that the pages show for a value, which the form that approves a vote
    sends back. *)
Definition render_meta_value (value : list N) : RString :=
  match from_utf8 value with
  | Some s => s
  | None => [48; 120]%N ++ hex_encode value
  end.
End MetaForms.

(** ** Numbers *)
Lemma digit_char d : (d < 10)%N → is_digit (48 + d) = true ∧ (48 + d - 48 = d)%N.
Proof. intros Hd. unfold is_digit. rewrite andb_true_iff, !N.leb_le. lia. Qed.
Lemma parse_digit mx acc n s :
  (acc * 10 + n mod 10 ≤ mx)%N →
  parse_digits mx acc ((48 + n mod 10)%N :: s) = parse_digits mx (acc * 10 + n mod 10) s.
Proof.
  intros Hle. destruct (digit_char (n mod 10)) as [Hd He]; [by apply N.mod_upper_bound|].
  cbn [parse_digits]. by rewrite Hd, He, (proj2 (N.leb_le _ _) Hle).
Qed.

Lemma parse_dec_go mx fuel n acc :
  (n < 10 ^ N.of_nat fuel)%N → (n ≤ mx)%N →
  (0 < fuel)%nat → parse_digits mx 0 (dec_go fuel n acc) = parse_digits mx n acc.
Proof.
  revert n acc. induction fuel as [|fuel IH]; intros n acc Hn Hmx Hf; [lia|].
  pose proof (N.div_mod n 10 ltac:(done)) as Hdm.
  assert (n < 10 → n / 10 = 0)%N as Hsmall by apply N.div_small.
  assert (n < 10 * 10 ^ N.of_nat fuel → n / 10 < 10 ^ N.of_nat fuel)%N as Hq by apply N.Div0.div_lt_upper_bound.
  rewrite Nat2N.inj_succ, N.pow_succ_r' in Hn. specialize (Hq Hn). cbn [dec_go].
  pose proof (λ acc s, parse_digit mx acc n s) as Hd.
  generalize dependent (n / 10)%N. generalize dependent (n mod 10)%N. intros d Hd q Hdm Hsmall Hq.
  destruct (N.eqb_spec q 0) as [->|Hz].
  - rewrite Hd by lia. f_equal. lia.
  - destruct fuel as [|fuel]; [cbn in Hq; lia|]. rewrite IH by lia. rewrite Hd by lia. f_equal. lia.
Qed.

Lemma dec_go_digits fuel n acc :
  Forall (λ c, is_digit c = true) acc → Forall (λ c, is_digit c = true) (dec_go fuel n acc).
Proof.
  revert n acc. induction fuel as [|fuel IH]; intros n acc Hacc; [done|]. cbn [dec_go].
  assert (Forall (λ c, is_digit c = true) ((48 + n mod 10)%N :: acc)) as Hd.
  { constructor; [|done]. by apply digit_char, N.mod_upper_bound. }
  destruct (n / 10 =? 0)%N; [done|]. by apply IH.
Qed.
Lemma display_digits n : Forall (λ c, is_digit c = true) (display n).
Proof. by apply dec_go_digits. Qed.

Lemma dec_go_nonempty fuel n acc : acc ≠ [] → dec_go fuel n acc ≠ [].
Proof.
  revert n acc. induction fuel as [|fuel IH]; intros n acc Hacc; [done|]. cbn [dec_go].
  destruct (n / 10 =? 0)%N; [done|]. by apply IH.
Qed.
Lemma display_nonempty n : display n ≠ [].
Proof.
  unfold display. generalize 19%nat as fuel. intros fuel. cbn [dec_go].
  destruct (n / 10 =? 0)%N; [done|]. by apply dec_go_nonempty.
Qed.

Lemma parse_display mx n : (n < 10 ^ 20)%N → (n ≤ mx)%N → parse_uint mx (display n) = Some n.
Proof.
  intros Hn Hmx. assert (parse_digits mx 0 (display n) = Some n) as Hp by by (unfold display; rewrite parse_dec_go; [done|exact Hn|done|lia]).
  pose proof (display_digits n) as Hd. pose proof (display_nonempty n) as Hne.
  unfold parse_uint. destruct (display n) as [|c s]; [done|].
  inversion Hd as [|? ? Hc _]; subst. destruct (N.eqb_spec c 43) as [->|_]; [done|exact Hp].
Qed.

(** A text without [c] is not split, and the first [c] ends the first part. *)
Lemma split_on_none c s : c ∉ s → split_on c s = [s].
Proof.
  induction s as [|x s IH]; [done|]. intros [Hx Hs]%not_elem_of_cons. cbn [split_on].
  rewrite (proj2 (N.eqb_neq x c)) by congruence. by rewrite IH.
Qed.
Lemma split_on_app c s1 s2 : c ∉ s1 → split_on c (s1 ++ [c] ++ s2) = s1 :: split_on c s2.
Proof.
  induction s1 as [|x s1 IH]; cbn [split_on app]; [by rewrite N.eqb_refl|].
  intros [Hx Hs]%not_elem_of_cons. rewrite (proj2 (N.eqb_neq x c)) by congruence. cbn in IH. by rewrite IH.
Qed.
Lemma not_digit_display c n : is_digit c = false → c ∉ display n.
Proof.
  intros Hc Hin. pose proof (display_digits n) as Hd. rewrite Forall_forall in Hd. rewrite Hd in Hc; done.
Qed.

(** The value of an option of the form for modules is read as what it offers. *)
Lemma parse_option_value kind major minor :
  (kind ≤ u32_max)%N → (major ≤ u16_max)%N → (minor ≤ u16_max)%N →
  parse_module_kind_version (option_value (kind, (major, minor)))
    = Ok (MkModuleKindVersion kind (ConsensusVersion.mk major minor)).
Proof.
  unfold u32_max, u16_max. intros Hk Ha Hi. unfold parse_module_kind_version, option_value. cbn [fst snd].
  rewrite split_on_app by by apply not_digit_display.
  rewrite split_on_none.
  2: { rewrite !elem_of_app, list_elem_of_singleton. intros [?|[?|?]]; [|done|];
       by eapply (not_digit_display 58). }
  rewrite parse_display by (unfold u32_max; lia).
  rewrite split_on_app by by apply not_digit_display. rewrite split_on_none by by apply not_digit_display.
  by rewrite !parse_display by (unfold u16_max; lia).
Qed.

(** ** UTF-8 *)
Lemma div_mod_64 a b : (b < 64)%N → ((a * 64 + b) / 64 = a ∧ (a * 64 + b) mod 64 = b)%N.
Proof.
  intros Hb. rewrite N.div_add_l, N.div_small, N.add_0_r by done. split; [done|].
  rewrite N.add_comm, N.Div0.mod_add. by apply N.mod_small.
Qed.
Lemma within_spec lo hi b : within lo hi b = true ↔ (lo ≤ b ≤ hi)%N.
Proof. unfold within. rewrite andb_true_iff, !N.leb_le. done. Qed.
Lemma utf8_char_wide n c : (n ≤ c)%N → (c <? n)%N = false.
Proof. intros. by apply N.ltb_ge. Qed.

Lemma utf8_two x y : (2 ≤ x < 32)%N → (y < 64)%N → utf8_char (x * 64 + y) = [192 + x; 128 + y]%N.
Proof.
  intros Hx Hy. destruct (div_mod_64 x y Hy) as [Hd Hm]. unfold utf8_char.
  rewrite utf8_char_wide, (proj2 (N.ltb_lt _ 2048)) by lia. by rewrite Hd, Hm.
Qed.
Lemma utf8_three x y z :
  (x < 16)%N → (y < 64)%N → (z < 64)%N → (2048 ≤ x * 4096 + y * 64 + z)%N →
  utf8_char (x * 4096 + y * 64 + z) = [224 + x; 128 + y; 128 + z]%N.
Proof.
  intros Hx Hy Hz Hge. unfold utf8_char.
  rewrite !utf8_char_wide, (proj2 (N.ltb_lt _ 65536)) by lia.
  replace (x * 4096 + y * 64 + z)%N with ((x * 64 + y) * 64 + z)%N by lia.
  replace 4096%N with (64 * 64)%N by done. rewrite <- N.Div0.div_div.
  destruct (div_mod_64 (x * 64 + y) z Hz) as [-> ->]. by destruct (div_mod_64 x y Hy) as [-> ->].
Qed.
Lemma utf8_four w x y z :
  (w < 8)%N → (x < 64)%N → (y < 64)%N → (z < 64)%N → (65536 ≤ w * 262144 + x * 4096 + y * 64 + z)%N →
  utf8_char (w * 262144 + x * 4096 + y * 64 + z) = [240 + w; 128 + x; 128 + y; 128 + z]%N.
Proof.
  intros Hw Hx Hy Hz Hge. unfold utf8_char. rewrite !utf8_char_wide by lia.
  replace (w * 262144 + x * 4096 + y * 64 + z)%N with (((w * 64 + x) * 64 + y) * 64 + z)%N by lia.
  replace 262144%N with (64 * 64 * 64)%N by done. replace 4096%N with (64 * 64)%N by done.
  rewrite <- !N.Div0.div_div. destruct (div_mod_64 ((w * 64 + x) * 64 + y) z Hz) as [-> ->].
  destruct (div_mod_64 (w * 64 + x) y Hy) as [-> ->]. by destruct (div_mod_64 w x Hx) as [-> ->].
Qed.

Lemma second_of_three_spec b0 b1 :
  second_of_three b0 b1 = true → (128 ≤ b1 ≤ 191)%N ∧ (b0 = 224 → 160 ≤ b1)%N.
Proof.
  unfold second_of_three. destruct (N.eqb_spec b0 224); [|destruct (N.eqb_spec b0 237)]; rewrite within_spec; lia.
Qed.
Lemma second_of_four_spec b0 b1 :
  second_of_four b0 b1 = true → (128 ≤ b1 ≤ 191)%N ∧ (b0 = 240 → 144 ≤ b1)%N.
Proof.
  unfold second_of_four. destruct (N.eqb_spec b0 240); [|destruct (N.eqb_spec b0 244)]; rewrite within_spec; lia.
Qed.

(** The bytes of a text that was read from bytes are those bytes. *)
Lemma from_utf8_as_bytes l s : from_utf8 l = Some s → as_bytes s = l.
Proof.
  revert s. induction l as [l IH] using (induction_ltof1 _ (@length N)). unfold ltof in IH. intros s Hs.
  destruct l as [|b0 l0]; [by injection Hs as <-|]. cbn [from_utf8] in Hs.
  destruct (N.ltb_spec b0 128) as [H0|H0].
  { apply fmap_Some in Hs as (s' & Hs' & ->). cbn. unfold utf8_char at 1.
    rewrite (proj2 (N.ltb_lt _ 128)) by done. cbn. f_equal. apply IH; [cbn; lia|done]. }
  destruct l0 as [|b1 l1]; [done|]. destruct (within 194 223 b0) eqn:Hw2.
  { destruct (within 128 191 b1) eqn:H1; [|done]. apply within_spec in Hw2, H1.
    apply fmap_Some in Hs as (s' & Hs' & ->). cbn. rewrite utf8_two by lia. cbn.
    rewrite (IH l1) by (cbn; first [lia|done]). repeat f_equal; lia. }
  destruct l1 as [|b2 l2]; [done|]. destruct (within 224 239 b0) eqn:Hw3.
  { destruct (second_of_three b0 b1 && within 128 191 b2) eqn:H1; [|done]. apply andb_true_iff in H1 as [H1 H2].
    apply second_of_three_spec in H1 as [H1 Hge]. apply within_spec in Hw3, H2.
    apply fmap_Some in Hs as (s' & Hs' & ->). cbn. rewrite utf8_three by lia. cbn.
    rewrite (IH l2) by (cbn; first [lia|done]). repeat f_equal; lia. }
  destruct l2 as [|b3 l3]; [done|].
  destruct (within 240 244 b0 && second_of_four b0 b1 && within 128 191 b2 && within 128 191 b3) eqn:H1; [|done].
  rewrite !andb_true_iff in H1. destruct H1 as (((Hw4 & H1) & H2) & H3).
  apply second_of_four_spec in H1 as [H1 Hge]. apply within_spec in Hw4, H2, H3.
  apply fmap_Some in Hs as (s' & Hs' & ->). cbn. rewrite utf8_four by lia. cbn.
  rewrite (IH l3) by (cbn; first [lia|done]). repeat f_equal; lia.
Qed.

Lemma within_true lo hi b : (lo ≤ b ≤ hi)%N → within lo hi b = true.
Proof. apply within_spec. Qed.
Lemma within_false lo hi b : (b < lo ∨ hi < b)%N → within lo hi b = false.
Proof. intros Hb. destruct (within lo hi b) eqn:Hw; [apply within_spec in Hw; lia|done]. Qed.
Lemma digits_64 c : ∃ x y, (c = x * 64 + y)%N ∧ (y < 64)%N.
Proof.
  exists (c / 64)%N, (c mod 64)%N. split; [|by apply N.mod_upper_bound].
  rewrite N.mul_comm. by apply N.div_mod.
Qed.

(** The bytes of a text are read as the text. *)
Lemma from_utf8_char c l : is_char c = true → from_utf8 (utf8_char c ++ l) = cons c <$> from_utf8 l.
Proof.
  unfold is_char. intros Hc. assert ((c < 55296 ∨ 57344 ≤ c) ∧ c < 1114112)%N as [Hsur Hmax].
  { apply orb_true_iff in Hc as [Hc%N.ltb_lt|[Hc%N.leb_le Hc'%N.ltb_lt]%andb_true_iff]; lia. }
  clear Hc. destruct (decide (c < 128)%N) as [H1|H1].
  { unfold utf8_char. rewrite (proj2 (N.ltb_lt c 128) H1). cbn. by rewrite (proj2 (N.ltb_lt c 128) H1). }
  destruct (digits_64 c) as (m & z & -> & Hz). destruct (decide (m < 32)%N) as [H2|H2].
  { rewrite utf8_two by lia. cbn [app from_utf8]. rewrite utf8_char_wide, !within_true by lia.
    repeat f_equal; lia. }
  destruct (digits_64 m) as (v & y & -> & Hy). destruct (decide (v < 16)%N) as [H3|H3].
  { replace ((v * 64 + y) * 64 + z)%N with (v * 4096 + y * 64 + z)%N by lia.
    rewrite utf8_three by lia. cbn [app from_utf8].
    rewrite utf8_char_wide, (within_false 194 223), (within_true 224 239), (within_true 128 191 (128 + z)) by lia.
    assert (second_of_three (224 + v) (128 + y) = true) as ->.
    { unfold second_of_three. destruct (N.eqb_spec (224 + v) 224); [|destruct (N.eqb_spec (224 + v) 237)];
        apply within_true; lia. }
    cbn [andb]. repeat f_equal; lia. }
  destruct (digits_64 v) as (u & x & -> & Hx).
  replace (((u * 64 + x) * 64 + y) * 64 + z)%N with (u * 262144 + x * 4096 + y * 64 + z)%N by lia.
  rewrite utf8_four by lia. cbn [app from_utf8].
  rewrite utf8_char_wide, (within_false 194 223), (within_false 224 239), (within_true 240 244),
    (within_true 128 191 (128 + z)), (within_true 128 191 (128 + y)) by lia.
  assert (second_of_four (240 + u) (128 + x) = true) as ->.
  { unfold second_of_four. destruct (N.eqb_spec (240 + u) 240); [|destruct (N.eqb_spec (240 + u) 244)];
      apply within_true; lia. }
  cbn [andb]. repeat f_equal; lia.
Qed.
Lemma as_bytes_from_utf8 s : Forall (λ c, is_char c = true) s → from_utf8 (as_bytes s) = Some s.
Proof.
  induction 1 as [|c s Hc _ IH]; [done|]. cbn. rewrite from_utf8_char by done. fold (as_bytes s). by rewrite IH.
Qed.

Lemma as_bytes_length s : (length s ≤ length (as_bytes s))%nat.
Proof.
  induction s as [|c s IH]; [done|]. cbn. rewrite length_app.
  assert (1 ≤ length (utf8_char c))%nat by (unfold utf8_char; repeat case_match; cbn; lia). fold (as_bytes s). lia.
Qed.

(** ** [trim] *)
Lemma trim_start_idem s : trim_start (trim_start s) = trim_start s.
Proof.
  induction s as [|c s IH]; [done|]. cbn. destruct (is_whitespace c) eqn:Hc; [done|]. cbn. by rewrite Hc.
Qed.
Lemma trim_start_suffix s : ∃ l, s = l ++ trim_start s.
Proof.
  induction s as [|c s [l IH]]; [by exists []|]. cbn. destruct (is_whitespace c); [|by exists []].
  exists (c :: l). cbn. by rewrite <- IH.
Qed.
Lemma trim_start_head s : trim_start s = s ↔ ∀ c s', s = c :: s' → is_whitespace c = false.
Proof.
  destruct s as [|c s]; [by split|]. split.
  - cbn. intros Heq c' s' [= <- <-]. destruct (is_whitespace c) eqn:Hc; [|done].
    destruct (trim_start_suffix s) as [l Hl]. apply (f_equal length) in Hl, Heq. rewrite length_app in Hl.
    cbn in Heq. lia.
  - intros Hc. cbn. by rewrite (Hc c s eq_refl).
Qed.
Lemma trim_idem s : trim (trim s) = trim s.
Proof.
  unfold trim. set (t := trim_start s). assert (trim_start t = t) as Ht by apply trim_start_idem. clearbody t.
  destruct (trim_start_suffix (reverse t)) as [l Hl]. set (r := trim_start (reverse t)) in *.
  assert (trim_start (reverse r) = reverse r) as ->.
  { apply trim_start_head. intros c s' Hr. apply (proj1 (trim_start_head t) Ht c (s' ++ reverse l)).
    rewrite <- (reverse_involutive t), Hl, reverse_app, Hr. done. }
  rewrite reverse_involutive. unfold r. by rewrite trim_start_idem.
Qed.

(** ** The forms of the meta module *)

(** A value that is shown as a text which starts like a hex number. *)
Definition hex_text (value : list N) : bool :=
  match from_utf8 value with Some s => has_hex_prefix s | None => false end.

(** Approving a vote votes for the same value, except for one kind of values.
    The page of a key has a form for every vote, which sends the shown text of the
    value back; it is read as the value again, whatever its bytes are, unless the
    value is a text that starts with 0x or 0X: such a form is refused, or votes
    for another value. *)
Theorem approved_value_read_back `{HexLaws} (value : list N) :
  Forall (λ b, b < 256)%N value →
  (parse_meta_value (render_meta_value value) = Ok value ↔ hex_text value = false) ∧
  ∀ other, hex_text value = true → parse_meta_value (render_meta_value value) = Ok other → other ≠ value.
Proof.
  intros Hb. unfold hex_text, render_meta_value, parse_meta_value.
  destruct (from_utf8 value) as [s|] eqn:Hs.
  - pose proof (from_utf8_as_bytes value s Hs) as <-. destruct (has_hex_prefix s) eqn:Hp.
    + assert (∀ other, match hex_decode (drop 2 s) with Some bytes => Ok bytes | None => Err "Invalid hex value" end
        = Ok (E:=string) other → other ≠ as_bytes s) as Hne.
      { intros other Hother ->. destruct (hex_decode (drop 2 s)) as [b|] eqn:Hd; [|done]. injection Hother as ->.
        apply hex_decode_length in Hd. rewrite length_drop in Hd. pose proof (as_bytes_length s).
        destruct s as [|c [|c' s]]; [done|done|]. cbn [length] in *. lia. }
      split; [split; [|done]|].
      * intros Heq. by destruct (Hne _ Heq).
      * intros other _. apply Hne.
    + by split.
  - rewrite (eq_refl : has_hex_prefix ([48; 120]%N ++ hex_encode value) = true).
    change (drop 2 ([48; 120]%N ++ hex_encode value)) with (hex_encode value). by rewrite hex_decode_encode.
Qed.

(** ** Hex digits, and examples *)
Module ToyHex.
Definition hex_char (d : N) : N := if (d <? 10)%N then (48 + d)%N else (87 + d)%N.
Definition hex_val (c : N) : option N :=
  if within 48 57 c then Some (c - 48)%N
  else if within 97 102 c then Some (c - 87)%N
  else if within 65 70 c then Some (c - 55)%N
  else None.
Fixpoint decode (s : RString) : option (list N) :=
  match s with
  | [] => Some []
  | [_] => None
  | c0 :: c1 :: s' => hi ← hex_val c0; lo ← hex_val c1; cons (hi * 16 + lo)%N <$> decode s'
  end.
Definition encode (b : list N) : RString := flat_map (λ x, [hex_char (x / 16); hex_char (x mod 16)]) b.

Lemma hex_val_char d : (d < 16)%N → hex_val (hex_char d) = Some d.
Proof.
  intros Hd. unfold hex_val, hex_char. destruct (N.ltb_spec d 10).
  - rewrite (proj2 (within_spec 48 57 (48 + d))) by lia. f_equal. lia.
  - destruct (within 48 57 (87 + d)) eqn:Hw; [apply within_spec in Hw; lia|].
    rewrite (proj2 (within_spec 97 102 (87 + d))) by lia. f_equal. lia.
Qed.

Global Instance hex : HexLib := {| hex_encode := encode; hex_decode := decode |}.
Global Instance laws : HexLaws.
Proof.
  split; cbn.
  - intros b. induction b as [|x b IH]; [done|]. intros [Hx Hb]%Forall_cons. cbn.
    rewrite !hex_val_char by first [by apply N.mod_upper_bound|by apply N.Div0.div_lt_upper_bound].
    cbn. fold (encode b). rewrite IH by done. cbn. rewrite (N.mul_comm _ 16), <- N.div_mod by done. done.
  - intros s. induction s as [s IH] using (induction_ltof1 _ (@length N)). unfold ltof in IH. intros b.
    destruct s as [|c0 [|c1 s]]; [by intros [= <-]|done|]. cbn.
    destruct (hex_val c0); [|done]. destruct (hex_val c1); [|done]. cbn.
    intros (b' & Hb' & ->)%fmap_Some. apply IH in Hb'; cbn in *; lia.
Qed.

(** "0xff" is the value [255], and a value of the bytes of that text is voted for
    as [255]; "0xzz" is refused. *)
Example hex_read : parse_meta_value [48; 120; 102; 102]%N = Ok [255]%N.
Proof. reflexivity. Qed.
Example hex_confused : parse_meta_value (render_meta_value [48; 120; 102; 102]%N) = Ok [255]%N.
Proof. reflexivity. Qed.
Example hex_refused : parse_meta_value (render_meta_value [48; 120; 122; 122]%N) = Err "Invalid hex value".
Proof. reflexivity. Qed.
(** An e with an acute accent, the byte 255, and numbers that are not read. *)
Example text_read : parse_meta_value (render_meta_value [195; 169]%N) = Ok [195; 169]%N ∧
  render_meta_value [195; 169]%N = [233]%N ∧ render_meta_value [255]%N = [48; 120; 102; 102]%N.
Proof. done. Qed.
Example numbers_read : parse_uint 255 [43; 48; 55]%N = Some 7%N ∧ parse_uint 255 [50; 53; 54]%N = None ∧
  parse_uint 255 [43]%N = None ∧ parse_uint 255 [45; 48]%N = None.
Proof. done. Qed.
End ToyHex.

Lemma approved_value_read_back_witness :
  parse_meta_value (render_meta_value [195; 169; 255]%N) = Ok [195; 169; 255]%N.
Proof. apply (approved_value_read_back [195; 169; 255]%N); [repeat constructor|reflexivity]. Defined.
