(* ===== verification/Names.v ===== *)
(** * The texts and encodings of keys, hashes, addresses and invites
      ([util-array-type/src/lib.rs], [consensus-core/src/peer.rs],
      [consensus-core/src/bincode.rs], [consensus-core/src/citem.rs],
      [invite/src/lib.rs], [node/src/peer_address.rs])

    Keys, hashes and signatures are byte arrays of a fixed length, with a text in
    base32 that people copy: they type peers as options and in forms, and invites
    too.  [serde] gives formats for people the text, and other formats the bytes;
    the numbers of [array_type_fixed_size_define!] are numbers in both.  The
    library of the base encodings and CBOR are parameters. *)
From S2P Require Import Prelude ArrayType Peers Core Module Ctrl NodeApp Node PeerAddr Rpc Join Text.

(** ** The crate [data_encoding] *)
Record Encoding := MkEncoding { be_encode : list N → RString; be_decode : list N → option (list N) }.
Class DataEncoding := { BASE32_DNSCURVE : Encoding; BASE32_NOPAD : Encoding; BASE64_URL : Encoding }.
(** What is encoded decodes, and the alphabets are ASCII. *)
Definition encoding_ok (e : Encoding) : Prop :=
  ∀ bytes, Forall (λ b, b < 256)%N bytes → be_decode e (as_bytes (be_encode e bytes)) = Some bytes.
Class DataEncodingLaws `{DataEncoding} := {
  dnscurve_ok : encoding_ok BASE32_DNSCURVE;
  nopad_ok : encoding_ok BASE32_NOPAD;
  base64_ok : encoding_ok BASE64_URL;
}.

(** [DecodeError]: what the library finds, and the wrong length that the code adds. *)
Inductive DecodeError := Undecodable | DecodeLength.

(** ** Byte arrays *)
Section Arrays.
Context `{DataEncoding}.
Implicit Types (a v : list N) (s : RString) (e : Encoding).

(** [TryFrom<Vec<u8>>] for [\[u8; LEN\]] *)
Definition try_into_array (LEN : nat) v : option (list N) := if decide (length v = LEN) then Some v else None.

(** [array_type_impl_base32_str!], [array_type_impl_base64_str!] *)
Definition array_fmt e a : RString := be_encode e a.
Definition array_from_str (LEN : nat) e s : outcome DecodeError (list N) :=
  match be_decode e (as_bytes s) with
  | None => Err Undecodable
  | Some v => match try_into_array LEN v with Some a => Ok a | None => Err DecodeLength end
  end.
Definition base32_fmt a : RString := array_fmt BASE32_DNSCURVE a.
Definition base32_from_str (LEN : nat) s : outcome DecodeError (list N) := array_from_str LEN BASE32_DNSCURVE s.
Definition base64_fmt a : RString := array_fmt BASE64_URL a.
Definition base64_from_str (LEN : nat) s : outcome DecodeError (list N) := array_from_str LEN BASE64_URL s.
(** [array_type_impl_debug_as_display!] *)
Definition array_debug a : RString := base32_fmt a.
(** [array_type_impl_zero_default!] *)
Definition array_default (LEN : nat) : list N := ZERO LEN.

(** *** [serde]

    What a type gives to a serializer, and gets from a deserializer. *)
Inductive SerdeValue := SerdeStr (s : RString) | SerdeBytes (v : list N) | SerdeNumber (n : N).
Definition array_serialize (is_human_readable : bool) a : SerdeValue :=
  if is_human_readable then SerdeStr (base32_fmt a) else SerdeBytes a.
Definition array_deserialize (LEN : nat) (is_human_readable : bool) (value : SerdeValue) : option (list N) :=
  if is_human_readable then
    match value with
    | SerdeStr s => match base32_from_str LEN s with Ok a => Some a | _ => None end
    | _ => None
    end
  else
    match value with
    | SerdeBytes v => try_into_array LEN v
    | _ => None
    end.
(** [array_type_fixed_size_impl_serde!]; a deserializer refuses numbers that the
    type cannot hold. *)
Definition number_serialize a : SerdeValue := SerdeNumber (to_number a).
Definition number_deserialize (LEN : nat) (value : SerdeValue) : option (list N) :=
  match value with
  | SerdeNumber n => if (n <=? num_max LEN)%N then Some (from_number LEN n) else None
  | _ => None
  end.
(** [Display] of the numbers *)
Definition number_fmt a : RString := display (to_number a).

(** ** Peers ([peer.rs])

    [PeerPubkey] is a number in the rest of the library: that of its 32 bytes. *)
Definition PUBKEY_LEN : nat := 32.
Definition pubkey_fmt (pk : PeerPubkey) : RString := base32_fmt (from_number PUBKEY_LEN pk).
Definition pubkey_from_str s : option PeerPubkey :=
  match base32_from_str PUBKEY_LEN s with Ok a => Some (to_number a) | _ => None end.
(** [PeerPubkeyShort] *)
Definition to_short_fmt (pk : PeerPubkey) : RString :=
  let bytes := from_number PUBKEY_LEN pk in
  be_encode BASE32_DNSCURVE (take 4 bytes) ++ [46; 46; 46]%N ++ be_encode BASE32_DNSCURVE (take 4 (drop 28 bytes)).
Definition peer_idx_fmt (idx : N) : RString := display idx.

End Arrays.

(** ** Items of modules ([citem.rs])

    [ModuleDyn]: the id of the module, then the item.  An encoder appends what it
    writes; a decoder gives what it has read and the rest. *)
Section ModuleDyns.
Context {Inner : Type} (encode_id : ModuleId → list N) (encode_inner : Inner → list N).
Context (decode_id : list N → option (ModuleId * list N)) (decode_inner : list N → option (Inner * list N)).
Definition encode_module_dyn (m : ModuleId * Inner) : list N := encode_id m.1 ++ encode_inner m.2.
Definition decode_module_dyn (src : list N) : option ((ModuleId * Inner) * list N) :=
  '(module_id, rest) ← decode_id src;
  '(inner, rest) ← decode_inner rest;
  Some ((module_id, inner), rest).
Lemma module_dyn_roundtrip m rest :
  (∀ id r, decode_id (encode_id id ++ r) = Some (id, r)) →
  (∀ i r, decode_inner (encode_inner i ++ r) = Some (i, r)) →
  decode_module_dyn (encode_module_dyn m ++ rest) = Some (m, rest).
Proof.
  intros Hid Hin. unfold decode_module_dyn, encode_module_dyn. rewrite <-app_assoc, Hid. cbn. rewrite Hin. by destruct m.
Qed.
End ModuleDyns.

(** ** Invites and addresses *)

(** [cbor4ii] for invites; [bincode] for addresses, with what it has consumed. *)
Class InviteCbor := { cbor_to_vec : Invite → list N; cbor_from_slice : list N → option Invite }.
Class InviteCborLaws `{InviteCbor} := {
  cbor_from_to : ∀ invite, cbor_from_slice (cbor_to_vec invite) = Some invite;
  cbor_bytes : ∀ invite, Forall (λ b, b < 256)%N (cbor_to_vec invite);
}.
Class AddressBincode `{Hashable AddressUpdate.t} := bincode_decode_address : list N → option (AddressUpdate.t * nat).
Class AddressBincodeLaws `{AddressBincode} := {
  address_decode_encode : ∀ u, bincode_decode_address (encode u) = Some (u, length (encode u));
  address_bytes : ∀ u : AddressUpdate.t, Forall (λ b, b < 256)%N (encode u);
}.

Inductive InviteParseError := InviteBase32 | InviteCborError.

Section Texts.
Context `{DataEncoding} `{InviteCbor} `{AddressBincode}.
Implicit Types (s : RString) (invite : Invite).

(** [Display] and [FromStr] of [Invite]; [InviteString] is the text in [serde]. *)
Definition invite_fmt invite : RString := be_encode BASE32_DNSCURVE (cbor_to_vec invite).
Definition invite_from_str s : outcome InviteParseError Invite :=
  match be_decode BASE32_DNSCURVE (as_bytes s) with
  | None => Err InviteBase32
  | Some bytes => match cbor_from_slice bytes with Some invite => Ok invite | None => Err InviteCborError end
  end.
Definition invite_string_serialize invite : SerdeValue := SerdeStr (invite_fmt invite).
Definition invite_string_deserialize (value : SerdeValue) : option Invite :=
  match value with
  | SerdeStr s => match invite_from_str s with Ok invite => Some invite | _ => None end
  | _ => None
  end.

(** [Display] and [FromStr] of [AddressUpdate] *)
Definition address_update_fmt (u : AddressUpdate.t) : RString := be_encode BASE32_NOPAD (encode u).
Definition address_update_from_str s : outcome Whatever AddressUpdate.t :=
  match be_decode BASE32_NOPAD (as_bytes s) with
  | None => Err "Failed to decode base32"
  | Some bytes =>
      match decode_whole bincode_decode_address bytes with
      | Some u => Ok u
      | None => Err "Failed to decode bincode"
      end
  end.
End Texts.

(** ** What is shown is read back *)
Section Roundtrips.
Context `{DataEncoding} `{!DataEncodingLaws}.

Lemma array_text LEN e a : encoding_ok e → array_wf LEN a → array_from_str LEN e (array_fmt e a) = Ok a.
Proof.
  intros He [Hlen Ha]. unfold array_from_str, array_fmt, try_into_array. rewrite He by done. by rewrite decide_True.
Qed.
(** Whatever text is read, the array has its length. *)
Lemma array_from_str_length LEN e s a : array_from_str LEN e s = Ok a → length a = LEN.
Proof.
  unfold array_from_str, try_into_array. destruct (be_decode _ _) as [v|]; [|done].
  case_decide; [by intros [= <-]|done].
Qed.
Lemma pubkey_text pk : (pk ≤ num_max PUBKEY_LEN)%N → pubkey_from_str (pubkey_fmt pk) = Some pk.
Proof.
  intros Hpk. unfold pubkey_from_str, pubkey_fmt, base32_from_str, base32_fmt.
  rewrite array_text; [by rewrite to_from_number|apply dnscurve_ok|apply to_be_bytes_wf].
Qed.
(** Both forms of an array, and the form of a number, are read back, and nothing
    else of the wrong length or size is. *)
Lemma array_serde LEN human a : array_wf LEN a → array_deserialize LEN human (array_serialize human a) = Some a.
Proof.
  intros Ha. unfold array_deserialize, array_serialize. destruct human.
  - unfold base32_from_str, base32_fmt. rewrite array_text; [done|apply dnscurve_ok|done].
  - unfold try_into_array. by rewrite decide_True by apply Ha.
Qed.
Lemma array_deserialize_length LEN human value a : array_deserialize LEN human value = Some a → length a = LEN.
Proof.
  unfold array_deserialize. destruct human, value as [s|v|n]; try done.
  - destruct (base32_from_str LEN s) eqn:Hs; [|done..]. intros [= <-]. by eapply array_from_str_length.
  - unfold try_into_array. case_decide; [by intros [= <-]|done].
Qed.
Lemma number_serde LEN a : array_wf LEN a → number_deserialize LEN (number_serialize a) = Some a.
Proof.
  intros Ha. unfold number_deserialize, number_serialize.
  rewrite (proj2 (N.leb_le _ _) (to_number_le _ _ Ha)). by rewrite from_to_number.
Qed.
Lemma number_deserialize_wf LEN value a : number_deserialize LEN value = Some a → array_wf LEN a.
Proof.
  destruct value as [s|v|n]; [done..|]. cbn. destruct (_ <=? _)%N; [|done]. intros [= <-]. apply to_be_bytes_wf.
Qed.

Context `{InviteCbor} `{!InviteCborLaws} `{AddressBincode} `{!AddressBincodeLaws}.
Lemma invite_text invite : invite_from_str (invite_fmt invite) = Ok invite.
Proof. unfold invite_from_str, invite_fmt. rewrite dnscurve_ok by apply cbor_bytes. by rewrite cbor_from_to. Qed.
Lemma invite_string_serde invite : invite_string_deserialize (invite_string_serialize invite) = Some invite.
Proof. unfold invite_string_deserialize, invite_string_serialize. by rewrite invite_text. Qed.
Lemma address_update_text u : address_update_from_str (address_update_fmt u) = Ok u.
Proof.
  unfold address_update_from_str, address_update_fmt. rewrite nopad_ok by apply address_bytes.
  unfold decode_whole. rewrite address_decode_encode. by rewrite decide_True.
Qed.
End Roundtrips.
