(* ===== verification/Ui.v ===== *)
(** * The web interface of a node ([node-ui-axum/src], [node/src/ui_api.rs])

    A request passes the layers of [middleware.rs], from the outside in:
    [cache_control], [require_auth], [consensus_init], [hypermedia_errors]; then
    the router gives it to its handler.  Pages are kept as the data they show.

    Sessions, and whether a request has one, are those of [tower-sessions]: [sid]
    is the session that the cookie of the request names, or a new one, and the
    store is the set of the sessions that have the key [SESSION_KEY].  The fields
    of a form or query arrive decoded; public keys and invites in them are read by
    [UiTexts].  The files that are served without a session are left out. *)
From S2P Require Import Prelude Peers Core Db ConsDb Consensus Module Ctrl Meta NodeApp Node PeerAddr Join Secret Text.

(** The base32 of [PeerPubkey] and of [InviteString]. *)
Class UiTexts := {
  parse_pubkey : RString → option PeerPubkey;
  parse_invite : RString → option Invite;
}.

Definition str (s : string) : RString := Ascii.N_of_ascii <$> String.list_ascii_of_string s.

Global Arguments str : simpl never.

(** ** The state *)
Abbreviation SessionId := N.

(** The instance of a module, as [downcast_ref] finds it, with its tables and
    its channel of proposals. *)
Inductive ModuleInstance :=
  | CtrlInstance (self : ConsensusCtrlModule) (st : CtrlDb * list CItemRaw)
  | MetaInstance (self : MetaModule) (st : MetaDb * list CItemRaw)
  | OtherInstance.
Record UiModule := MkUiModule { ui_config : ModuleConfig.t; ui_inner : ModuleInstance }.

Record UiNode := MkUiNode {
  ui_life : Life;
  ui_pass : UiPass;
  ui_is_ephemeral : bool;
  ui_iroh_addr : N;
  ui_ack : BlockRound;
  ui_init_version : ConsensusVersion.t;
}.

(** [UiState] and the sessions.  The interface holds weak references: without a
    node it is shutting down, and without modules a request for one waits. *)
Record Ui := MkUi {
  node_api : option UiNode;
  modules : option (gmap ModuleId UiModule);
  ui_modules_inits : gmap ModuleKind IModuleInit;
  sessions : gset SessionId;
}.
Definition set_node_api x (w : Ui) : Ui := MkUi x (modules w) (ui_modules_inits w) (sessions w).
Definition set_modules x (w : Ui) : Ui := MkUi (node_api w) x (ui_modules_inits w) (sessions w).
Definition set_sessions x (w : Ui) : Ui := MkUi (node_api w) (modules w) (ui_modules_inits w) x.
Definition set_ui_life x (n : UiNode) : UiNode :=
  MkUiNode x (ui_pass n) (ui_is_ephemeral n) (ui_iroh_addr n) (ui_ack n) (ui_init_version n).
Definition set_ui_pass x (n : UiNode) : UiNode :=
  MkUiNode (ui_life n) x (ui_is_ephemeral n) (ui_iroh_addr n) (ui_ack n) (ui_init_version n).

(** ** Requests and responses *)
Inductive Method := GET | HEAD | POST | OtherMethod.
Record Request := MkRequest {
  method : Method;
  path : RString;
  (** the path of the [Referer] header, when it is a URL *)
  referer_path : option RString;
  (** the query of a GET or a HEAD, the form of a POST *)
  fields : gmap string RString;
}.

Abbreviation HistoryEntry := (BlockRound * option BlockHeader.t * list PeerPubkey)%type.
Inductive Page :=
  | PageLogin (redirect : option RString) (pass_is_temporary : bool)
  | PageInit (has_secret is_db_ephemeral : bool)
  | PageStatus (peer_set : list PeerPubkey) (own : option PeerPubkey) (is_ephemeral : bool)
  | PageExplorer (history : list HistoryEntry)
  | PageInvite (invite : option Invite)
  | PageNoModule
  | PageUnrecognized (kind : ModuleKind)
  | PageGeneric (kind : ModuleKind)
  | PageCtrl (configs : list (ModuleId * ModuleConfig.t)) (peer_set : list PeerPubkey)
      (add_votes remove_votes : list (PeerPubkey * PeerPubkey))
      (module_votes : list (PeerPubkey * (ModuleKind * ConsensusVersion.t))) (available : list (ModuleKind * (N * N)))
  | PageMeta (values : list (N * RString))
  | PageMetaKey (key : N) (current : option RString) (votes : list (PeerPubkey * RString))
  | PageError (msg : string).

Inductive Body :=
  | Html (page : Page)
  | Json (message : string)
  | PlainText
  | EventStream (round_and_timeout : BlockRound * bool) (finality_consensus finality_self node_app_ack : BlockRound)
  | NoBody.
Definition content_type (b : Body) : option string :=
  match b with
  | Html _ => Some "text/html; charset=utf-8"
  | Json _ => Some "application/json"
  | PlainText => Some "text/plain; charset=utf-8"
  | EventStream _ _ _ _ => Some "text/event-stream"
  | NoBody => None
  end%string.

(** Where a response redirects to; [ToLogin] is [login_redirect_path]. *)
Inductive Target :=
  | ToPath (p : RString)
  | ToLogin (redirect : option RString).
Record Response := MkResponse {
  status : N;
  location : option Target;
  body : Body;
  max_age : option N;
}.
Definition html (page : Page) : Response := MkResponse 200 None (Html page) None.
(** [Redirect::to] *)
Definition redirect_to (t : Target) : Response := MkResponse 303 (Some t) NoBody None.
(** The rejection of a request by the router or by an extractor. *)
Definition rejected (status : N) : Response := MkResponse status None PlainText None.

(** *** [error.rs] *)
Inductive UserRequestError :=
  | SomethingNotFound | InvalidData | WrongPassword
  | ConsensusCreate (source : Whatever) | ConsensusJoin (source : Whatever) | Other (source : Whatever).
Inductive RequestError :=
  | InternalServerError (msg : string)
  | ShuttingDown (source : Whatever)
  | LoginRequired (path : option RString)
  | User (source : UserRequestError).

Definition user_error_msg (e : UserRequestError) : string :=
  match e with
  | SomethingNotFound => "SomethingNotFound"
  | InvalidData => "InvalidData"
  | WrongPassword => "Wrong Password"
  | ConsensusCreate source => "Failed to create consensus: " +:+ source
  | ConsensusJoin source => "Failed to join consensus: " +:+ source
  | Other source => "Other: " +:+ source
  end%string.
Definition user_into_response (e : UserRequestError) : Response :=
  MkResponse match e with SomethingNotFound => 404 | _ => 400 end None (Html (PageError (user_error_msg e))) None.
Definition into_response (e : RequestError) : Response :=
  match e with
  | LoginRequired path => redirect_to (ToLogin path)
  | User source => user_into_response source
  | InternalServerError _ | ShuttingDown _ => MkResponse 500 None (Json "Internal Service Error") None
  end.

(** ** Handlers as computations

    A handler changes the state and ends with a result, an error or a panic, or
    it waits for good ([None]). *)
Definition UiM (A : Type) : Type := Ui → outcome RequestError (option A) * Ui.
Global Instance ui_ret : MRet UiM := λ A a w, (Ok (Some a), w).
Global Instance ui_bind : MBind UiM := λ A B f m w,
  match m w with
  | (Ok (Some a), w') => f a w'
  | (Ok None, w') => (Ok None, w')
  | (Err e, w') => (Err e, w')
  | (Panic why, w') => (Panic why, w')
  end.
Definition ui_get : UiM Ui := λ w, (Ok (Some w), w).
Definition ui_fail {A} (e : RequestError) : UiM A := λ w, (Err e, w).
Definition ui_hang {A} : UiM A := λ w, (Ok None, w).
Definition ui_lift {A} (o : outcome RequestError A) : UiM A := λ w,
  match o with Ok a => (Ok (Some a), w) | Err e => (Err e, w) | Panic why => (Panic why, w) end.
Definition ui_put (w : Ui) : UiM () := λ _, (Ok (Some ()), w).
(** [unwrap_or(a)] *)
Definition ui_or {A} (m : UiM A) (a : A) : UiM A := λ w,
  match m w with (Err _, w') => (Ok (Some a), w') | r => r end.
(** An error becomes its response ([IntoResponse]). *)
Definition responds (m : UiM Response) : UiM Response := λ w,
  match m w with (Err e, w') => (Ok (Some (into_response e)), w') | r => r end.

(** ** The router ([routes.rs]) *)
Inductive Endpoint :=
  | EpRoot | EpStatus | EpExplorer | EpInvite | EpUpdates | EpLoginGet | EpLoginPost | EpInitGet | EpInitPost
  | EpModule (id : ModuleId) | EpAddPeerVote (id : ModuleId) | EpRemovePeerVote (id : ModuleId)
  | EpAddModuleVote (id : ModuleId) | EpMetaKeyRedirect (id : ModuleId)
  | EpMetaKey (id : ModuleId) (key : N) | EpMetaVote (id : ModuleId) (key : N).
Inductive Routed := Found (ep : Endpoint) | NotFound | MethodNotAllowed | BadPath.

Definition ROUTE_UI : RString := str "/ui".
Definition ROUTE_LOGIN : RString := str "/ui/login".
Definition ROUTE_INIT_CONSENSUS : RString := str "/ui/init".
Definition route_module (id : ModuleId) : RString := str "/ui/module/" ++ display id.
Definition route_meta_key (id : ModuleId) (key : N) : RString := route_module id ++ str "/meta_key/" ++ display key.

(** What is routed for GET answers HEAD too; the server leaves the body of that
    response out when it sends it. *)
Definition get (m : Method) (r : Routed) : Routed := match m with GET | HEAD => r | _ => MethodNotAllowed end.
Definition post (m : Method) (r : Routed) : Routed := match m with POST => r | _ => MethodNotAllowed end.
Definition get_post (m : Method) (g p : Endpoint) : Routed :=
  match m with GET | HEAD => Found g | POST => Found p | OtherMethod => MethodNotAllowed end.
(** The extractor [Path]: a number of the type with maximum [mx]. *)
Definition path_number (mx : N) (segment : RString) (f : N → Routed) : Routed :=
  match parse_uint mx segment with Some n => f n | None => BadPath end.

Definition make_router (m : Method) (p : RString) : Routed :=
  match split_on 47 p with
  | [[]; a] =>
      if decide (a = []) then get m (Found EpRoot)
      else if decide (a = str "ui") then get m (Found EpStatus)
      else NotFound
  | [[]; a; b] =>
      if decide (a = str "ui") then
        if decide (b = str "explorer") then get m (Found EpExplorer)
        else if decide (b = str "login") then get_post m EpLoginGet EpLoginPost
        else if decide (b = str "init") then get_post m EpInitGet EpInitPost
        else if decide (b = str "invite") then get m (Found EpInvite)
        else NotFound
      else if decide (a = str "datastar" ∧ b = str "current-round") then get m (Found EpUpdates)
      else NotFound
  | [] :: a :: b :: id :: rest =>
      if decide (a = str "ui" ∧ b = str "module" ∧ id ≠ []) then
        match rest with
        | [] => get m (path_number u32_max id (λ id, Found (EpModule id)))
        | [d] =>
            if decide (d = str "add_peer_vote") then
              post m (path_number u32_max id (λ id, Found (EpAddPeerVote id)))
            else if decide (d = str "remove_peer_vote") then
              post m (path_number u32_max id (λ id, Found (EpRemovePeerVote id)))
            else if decide (d = str "add_module_vote") then
              post m (path_number u32_max id (λ id, Found (EpAddModuleVote id)))
            else if decide (d = str "meta_key_redirect") then
              get m (path_number u32_max id (λ id, Found (EpMetaKeyRedirect id)))
            else NotFound
        | d :: key :: rest' =>
            if decide (d = str "meta_key" ∧ key ≠ []) then
              match rest' with
              | [] => get m (path_number u32_max id (λ id, path_number u8_max key (λ key, Found (EpMetaKey id key))))
              | [f] =>
                  if decide (f = str "vote") then
                    post m (path_number u32_max id (λ id, path_number u8_max key (λ key, Found (EpMetaVote id key))))
                  else NotFound
              | _ => NotFound
              end
            else NotFound
        end
      else NotFound
  | _ => NotFound
  end.

Section Ui.
Context `{Crypto} `{Bincode} `{CItemsCodec} `{Bao} `{Hashable AddressUpdate.t} `{CtrlCodecs} `{MetaCodecs}.
Context `{HexLib} `{UiTexts}.
(** What the node at the address of an invite answers, and the clock. *)
Context (srv : Inviter) (now : N).
Implicit Types (w : Ui) (n : UiNode) (id : ModuleId) (req : Request) (sid : SessionId).

(** ** What the node offers ([ui_api.rs])

    Every method fails when the node is gone; [ctx] is the error that the caller
    makes of the failure. *)
Definition node_ref (ctx : Whatever → RequestError) : UiM UiNode :=
  w ← ui_get;
  match node_api w with
  | Some n => mret n
  | None => ui_fail (ctx "Node shutting down"%string)
  end.
Definition node_put n : UiM () := w ← ui_get; ui_put (set_node_api (Some n) w).
Definition user_other (source : Whatever) : RequestError := User (Other source).
Definition from_never {A} (o : outcome Empty_set A) : UiM A := ui_lift (never o).

Definition is_ui_password_temporary (ctx : Whatever → RequestError) : UiM bool :=
  n ← node_ref ctx; mret (ui_pass_is_temporary (ui_pass n)).
Definition get_ui_password_hash (ctx : Whatever → RequestError) : UiM N :=
  n ← node_ref ctx; mret (ui_pass_hash (ui_pass n)).
Definition change_ui_password (ctx : Whatever → RequestError) (pass : RString) : UiM () :=
  n ← node_ref ctx;
  node_put (set_ui_pass (change_ui_pass (as_bytes pass) (ui_pass n)) n).
Definition has_root_secret (ctx : Whatever → RequestError) : UiM bool :=
  n ← node_ref ctx; mret (bool_decide (is_Some (life_secret (ui_life n)))).
Definition is_database_ephemeral (ctx : Whatever → RequestError) : UiM bool :=
  n ← node_ref ctx; mret (ui_is_ephemeral n).
Definition get_peer_pubkey (ctx : Whatever → RequestError) : UiM (option PeerPubkey) :=
  n ← node_ref ctx; mret (life_pubkey (ui_life n)).
Definition is_consensus_initialized (ctx : Whatever → RequestError) : UiM bool :=
  n ← node_ref ctx; mret (bool_decide (is_Some (life_consensus (ui_life n)))).
Definition get_consensus (ctx : Whatever → RequestError) : UiM Consensus :=
  n ← node_ref ctx;
  match life_consensus (ui_life n) with
  | Some c => mret c
  | None => ui_fail (ctx "Consensus not initialized"%string)
  end.
Definition ui_consensus_init (ctx : Whatever → RequestError) (extra_peers : list PeerPubkey) : UiM () :=
  n ← node_ref ctx;
  match consensus_init (ui_life n) extra_peers (ui_init_version n) now with
  | Ok l => node_put (set_ui_life l n)
  | Err _ => ui_fail (ctx "Failed to init consensus"%string)
  | Panic why => ui_lift (Panic why)
  end.
Definition ui_consensus_join (ctx : Whatever → RequestError) (invite : Invite) : UiM () :=
  n ← node_ref ctx;
  match consensus_join srv (ui_life n) invite with
  | (o, l) =>
      _ ← node_put (set_ui_life l n);
      ui_lift (map_err (λ _, ctx "Failed to join consensus"%string) o)
  end.
Definition ui_generate_invite_code (ctx : Whatever → RequestError) : UiM Invite :=
  n ← node_ref ctx;
  ui_lift (map_err ctx (generate_invite_code (life_consensus (ui_life n)) (ui_iroh_addr n))).
Definition ui_consensus_history (ctx : Whatever → RequestError) (limit : N) : UiM (list HistoryEntry) :=
  c ← get_consensus ctx;
  from_never (get_consensus_history c limit).

(** [WeakSharedModules::get_module] and [get_modules_kinds]; without the owner of
    the modules they wait ([upgrade_or_hang]). *)
Definition upgrade_or_hang : UiM (gmap ModuleId UiModule) :=
  w ← ui_get;
  match modules w with Some ms => mret ms | None => ui_hang end.
Definition get_module id : UiM (option UiModule) := ms ← upgrade_or_hang; mret (ms !! id).
Definition put_instance id (m : UiModule) (i : ModuleInstance) : UiM () :=
  w ← ui_get;
  ui_put (set_modules (option_map (<[id := MkUiModule (ui_config m) i]>) (modules w)) w).

(** [render_html_page] ([page.rs]) with and without the bar of the modules; a
    module without its constructor is a panic. *)
Definition render_page_navbar : UiM () :=
  ms ← upgrade_or_hang;
  w ← ui_get;
  ui_lift (rassert "Missing module init for the module?!"
    (forallb (λ m : ModuleId * UiModule,
       bool_decide (is_Some (ui_modules_inits w !! ModuleConfig.kind (ui_config m.2)))) (map_to_list ms))).
Definition page_with_navbar (content : Page) : UiM Response := _ ← render_page_navbar; mret (html content).

(** ** The handlers *)

(** [init.rs]; the join has thirty seconds, after which an answer that has not
    come is a failure of [srv]. *)
Definition init_get : UiM Response :=
  has_secret ← has_root_secret user_other;
  is_db_ephemeral ← is_database_ephemeral user_other;
  mret (html (PageInit has_secret is_db_ephemeral)).
Definition init_post (form : gmap string RString) : UiM Response :=
  match form !! "invite"%string with
  | None =>
      _ ← ui_consensus_init (λ e, User (ConsensusCreate e)) [];
      mret (redirect_to (ToPath ROUTE_UI))
  | Some text =>
      match parse_invite text with
      | None => mret (rejected 422)
      | Some invite =>
          _ ← ui_consensus_join (λ e, User (ConsensusJoin e)) invite;
          mret (redirect_to (ToPath ROUTE_UI))
      end
  end.

(** [login.rs] *)
Definition login_get (query : gmap string RString) : UiM Response :=
  pass_is_temporary ← is_ui_password_temporary user_other;
  mret (html (PageLogin (query !! "redirect"%string) pass_is_temporary)).
Definition login_post sid (form : gmap string RString) : UiM Response :=
  match form !! "password"%string with
  | None => mret (rejected 422)
  | Some password =>
      cur_pass_is_temporary ← is_ui_password_temporary ShuttingDown;
      _ ← (if cur_pass_is_temporary : bool then
             match form !! "temp_password"%string with
             | None => ui_fail (user_other "temporary password missing"%string)
             | Some temp_pass =>
                 hash ← get_ui_password_hash user_other;
                 if decide (blake3 (as_bytes (trim temp_pass)) = hash)
                 then change_ui_password user_other password
                 else ui_fail (LoginRequired (form !! "redirect"%string))
             end
           else
             hash ← get_ui_password_hash user_other;
             if decide (blake3 (as_bytes (trim password)) = hash) then mret ()
             else ui_fail (User WrongPassword));
      w ← ui_get;
      _ ← ui_put (set_sessions ({[sid]} ∪ sessions w) w);
      mret (redirect_to (ToPath (default ROUTE_UI (form !! "redirect"%string))))
  end.

(** [explorer.rs], [invite.rs], [consensus_status.rs] *)
Definition explorer_get : UiM Response :=
  history ← ui_consensus_history user_other 1000;
  page_with_navbar (PageExplorer history).
Definition invite_get : UiM Response :=
  invite ← ui_or (i ← ui_generate_invite_code user_other; mret (Some i)) None;
  page_with_navbar (PageInvite invite).
Definition status_peer_set : UiM (list PeerPubkey) :=
  module ← get_module 0%N;
  match module with
  | None => ui_fail (user_other "Missing ConsensusCtrl module"%string)
  | Some module =>
      match ui_inner module with
      | CtrlInstance _ st => from_never (Ctrl.get_peer_set st)
      | _ => ui_fail (user_other "ConsensusCtrl module of the wrong kind"%string)
      end
  end.
Definition status_get : UiM Response :=
  peer_set ← ui_or status_peer_set [];
  own ← ui_or (get_peer_pubkey user_other) None;
  is_ephemeral ← ui_or (is_database_ephemeral user_other) false;
  page_with_navbar (PageStatus peer_set own is_ephemeral).
(** The first event of the stream. *)
Definition updates : UiM Response :=
  c ← get_consensus user_other;
  n ← node_ref user_other;
  mret (MkResponse 200 None
    (EventStream (current_round_with_timeout (watches c)) (finality_consensus (watches c))
       (finality_self_vote (watches c)) (ui_ack n)) None).

(** [module.rs]: the votes of the control module.  A module that is missing, of
    another kind, or not an instance of the type, is passed over in silence. *)
Definition ctrl_vote (vote : ConsensusCtrlModule → CtrlDb * list CItemRaw → outcome Whatever () * (CtrlDb * list CItemRaw))
    id : UiM Response :=
  let back := mret (redirect_to (ToPath (route_module id))) in
  module ← get_module id;
  match module with
  | None => back
  | Some module =>
      if decide (ModuleConfig.kind (ui_config module) = CTRL_KIND) then
        match ui_inner module with
        | CtrlInstance self st =>
            match vote self st with
            | (o, st') =>
                _ ← put_instance id module (CtrlInstance self st');
                _ ← ui_lift (map_err user_other o);
                back
            end
        | _ => back
        end
      else back
  end.
Definition post_add_peer_vote id (form : gmap string RString) : UiM Response :=
  match form !! "peer_pubkey"%string ≫= parse_pubkey with
  | None => mret (rejected 422)
  | Some peer_pubkey => ctrl_vote (λ self, set_pending_add_peer_vote self peer_pubkey) id
  end.
Definition post_remove_peer_vote id (form : gmap string RString) : UiM Response :=
  match form !! "peer_pubkey"%string ≫= parse_pubkey with
  | None => mret (rejected 422)
  | Some peer_pubkey => ctrl_vote (λ self, set_pending_remove_peer_vote self peer_pubkey) id
  end.
Definition post_add_module_vote id (form : gmap string RString) : UiM Response :=
  match parse_module_kind_version <$> form !! "module_kind"%string with
  | Some (Ok kv) => ctrl_vote (λ self, set_pending_add_module_vote self (mkv_kind kv) (mkv_version kv)) id
  | _ => mret (rejected 422)
  end.
Definition post_meta_vote id (key : N) (form : gmap string RString) : UiM Response :=
  match parse_meta_value <$> form !! "value"%string with
  | Some (Ok value) =>
      let back := mret (redirect_to (ToPath (route_meta_key id key))) in
      module ← get_module id;
      match module with
      | None => back
      | Some module =>
          if decide (ModuleConfig.kind (ui_config module) = META_KIND) then
            match ui_inner module with
            | MetaInstance self st =>
                match propose_key_value self key value st with
                | (o, st') =>
                    _ ← put_instance id module (MetaInstance self st');
                    _ ← from_never o;
                    back
                end
            | _ => back
            end
          else back
      end
  | _ => mret (rejected 422)
  end.

(** The pages of the modules *)
Definition render_consensus_module_page (st : CtrlDb * list CItemRaw) : UiM Page :=
  module_configs ← from_never (get_modules_configs st);
  peer_set ← from_never (Ctrl.get_peer_set st);
  add_peer_votes ← from_never (get_add_peer_votes st);
  remove_peer_votes ← from_never (get_remove_peer_votes st);
  add_module_votes ← from_never (get_add_module_votes st);
  w ← ui_get;
  mret (PageCtrl module_configs peer_set add_peer_votes remove_peer_votes add_module_votes
          (available_kinds (ui_modules_inits w) module_configs)).
Definition render_meta_module_page (st : MetaDb * list CItemRaw) : UiM Page :=
  consensus_values ← from_never (get_consensus_values st);
  mret (PageMeta ((λ kv : N * list N, (kv.1, render_meta_value kv.2)) <$> consensus_values)).
Definition render_meta_key_voting_page (key : N) (st : MetaDb * list CItemRaw) : UiM Page :=
  votes ← from_never (get_votes_for_key key st);
  consensus_values ← from_never (get_consensus_values st);
  let current_value := (list_to_map consensus_values : gmap N (list N)) !! key in
  mret (PageMetaKey key (render_meta_value <$> current_value)
          ((λ kv : PeerPubkey * list N, (kv.1, render_meta_value kv.2)) <$> votes)).
Definition render_module_page id : UiM Page :=
  module ← get_module id;
  match module with
  | None => mret PageNoModule
  | Some module =>
      let kind := ModuleConfig.kind (ui_config module) in
      if decide (kind = CTRL_KIND) then
        match ui_inner module with
        | CtrlInstance _ st => render_consensus_module_page st
        | _ => mret (PageUnrecognized kind)
        end
      else if decide (kind = META_KIND) then
        match ui_inner module with
        | MetaInstance _ st => render_meta_module_page st
        | _ => mret (PageUnrecognized kind)
        end
      else mret (PageGeneric kind)
  end.
Definition module_page id : UiM Response :=
  content ← render_module_page id;
  page_with_navbar content.
Definition get_meta_key id (key : N) : UiM Response :=
  let back := mret (redirect_to (ToPath (route_module id))) in
  module ← get_module id;
  match module with
  | None => back
  | Some module =>
      if decide (ModuleConfig.kind (ui_config module) = META_KIND) then
        match ui_inner module with
        | MetaInstance _ st => content ← render_meta_key_voting_page key st; page_with_navbar content
        | _ => back
        end
      else back
  end.
Definition get_meta_key_redirect id (query : gmap string RString) : UiM Response :=
  match query !! "key"%string ≫= parse_uint u8_max with
  | Some key => mret (redirect_to (ToPath (route_meta_key id key)))
  | None => mret (rejected 400)
  end.

Definition endpoint sid (ep : Endpoint) (fields : gmap string RString) : UiM Response :=
  match ep with
  | EpRoot => mret (MkResponse 308 (Some (ToPath ROUTE_UI)) NoBody None)
  | EpStatus => status_get
  | EpExplorer => explorer_get
  | EpInvite => invite_get
  | EpUpdates => updates
  | EpLoginGet => login_get fields
  | EpLoginPost => login_post sid fields
  | EpInitGet => init_get
  | EpInitPost => init_post fields
  | EpModule id => module_page id
  | EpAddPeerVote id => post_add_peer_vote id fields
  | EpRemovePeerVote id => post_remove_peer_vote id fields
  | EpAddModuleVote id => post_add_module_vote id fields
  | EpMetaKeyRedirect id => get_meta_key_redirect id fields
  | EpMetaKey id key => get_meta_key id key
  | EpMetaVote id key => post_meta_vote id key fields
  end.
Definition route sid req : UiM Response :=
  responds match make_router (method req) (path req) with
           | Found ep => endpoint sid ep (fields req)
           | NotFound => mret (MkResponse 404 None NoBody None)
           | MethodNotAllowed => mret (MkResponse 405 None NoBody None)
           | BadPath => mret (rejected 400)
           end.

(** ** The layers ([middleware.rs]) *)
Definition hypermedia_errors (next : UiM Response) : UiM Response :=
  resp ← next;
  let is_error := (400 <=? status resp)%N && (status resp <? 600)%N in
  let other_content := match body resp with Html _ | NoBody => false | _ => true end in
  if is_error && other_content then
    let msg := if (status resp <? 500)%N then "Invalid Data"%string else "Server Error"%string in
    mret (MkResponse (status resp) None (Html (PageError msg)) None)
  else mret resp.
Definition consensus_init_layer req (next : UiM Response) : UiM Response :=
  responds
    (initialized ← is_consensus_initialized user_other;
     if initialized : bool then
       if decide (path req = ROUTE_INIT_CONSENSUS) then mret (redirect_to (ToPath ROUTE_UI)) else next
     else if decide (path req = ROUTE_INIT_CONSENSUS ∨ path req = ROUTE_LOGIN) then next
     else mret (redirect_to (ToPath ROUTE_INIT_CONSENSUS))).
Definition require_auth sid req (next : UiM Response) : UiM Response :=
  responds
    (if decide (path req = ROUTE_LOGIN) then next
     else
       w ← ui_get;
       if decide (sid ∈ sessions w) then next
       else ui_fail (LoginRequired match method req with GET => Some (path req) | _ => referer_path req end)).
Definition cache_control (next : UiM Response) : UiM Response :=
  resp ← next;
  mret match body resp with
       | Html _ | NoBody => resp
       | _ => MkResponse (status resp) (location resp) (body resp) (Some 3600%N)
       end.

Definition serve sid req : UiM Response :=
  cache_control (require_auth sid req (consensus_init_layer req (hypermedia_errors (route sid req)))).
End Ui.
