(* ===== verification/UiProps.v ===== *)
(** * What the web interface guarantees

    Nobody changes a node without its password; what the pages offer is accepted;
    and the one way in which the first password locks its owner out. *)
From S2P Require Import Prelude Peers Core Db ConsDb Consensus Module Ctrl CtrlSpec Meta NodeApp Node NetRun PeerAddr Join Secret Text Ui.

Section UiProps.
Context `{Crypto} `{Bincode} `{CItemsCodec} `{Bao} `{Hashable AddressUpdate.t} `{CtrlCodecs} `{MetaCodecs}.
Context `{HexLib} `{UiTexts}.
Implicit Types (w : Ui) (n : UiNode) (id : ModuleId) (req : Request) (sid : SessionId) (srv : Inviter).

(** ** Running a computation *)
Lemma ui_bind_run {A B} (m : UiM A) (f : A → UiM B) w :
  (m ≫= f) w = match m w with
               | (Ok (Some a), w') => f a w'
               | (Ok None, w') => (Ok None, w')
               | (Err e, w') => (Err e, w')
               | (Panic why, w') => (Panic why, w')
               end.
Proof. done. Qed.
Lemma node_ref_run ctx w :
  node_ref ctx w = match node_api w with
                   | Some n => (Ok (Some n), w)
                   | None => (Err (ctx "Node shutting down"%string), w)
                   end.
Proof. unfold node_ref. rewrite ui_bind_run. cbn. by destruct (node_api w). Qed.
Ltac ui_reduce := cbn [ui_get ui_put ui_fail ui_hang ui_lift mret ui_ret fst snd].
Ltac ui_step := repeat (ui_reduce; first [rewrite ui_bind_run | rewrite node_ref_run]); ui_reduce.

(** ** Computations that change nothing *)
Definition pure_ui {A} (m : UiM A) : Prop := ∀ w, (m w).2 = w.

Lemma pure_ret {A} (a : A) : pure_ui (mret a).
Proof. done. Qed.
Lemma pure_fail {A} e : pure_ui (ui_fail (A:=A) e).
Proof. done. Qed.
Lemma pure_get : pure_ui ui_get.
Proof. done. Qed.
Lemma pure_bind {A B} (m : UiM A) (f : A → UiM B) : pure_ui m → (∀ a, pure_ui (f a)) → pure_ui (m ≫= f).
Proof.
  intros Hm Hf w. change ((ui_bind A B f m w).2 = w). unfold ui_bind. specialize (Hm w).
  destruct (m w) as [[[a|]|e|why] w']; cbn in Hm; subst w'; [|done..]. apply Hf.
Qed.
Lemma pure_node_ref ctx : pure_ui (node_ref ctx).
Proof. apply pure_bind; [apply pure_get|]. intros w. by destruct (node_api w). Qed.

(** ** Logging in *)

(** The form of the request shows that its author knows the password. *)
Definition shown_password (u : UiPass) (form : gmap string RString) : option RString :=
  if ui_pass_is_temporary u then form !! "temp_password"%string else form !! "password"%string.
Definition presents (u : UiPass) (form : gmap string RString) : Prop :=
  ∃ p, shown_password u form = Some p ∧ blake3 (as_bytes (trim p)) = ui_pass_hash u.
Definition blind w req : Prop := ∀ n, node_api w = Some n → ¬ presents (ui_pass n) (fields req).

Lemma login_post_blind sid (form : gmap string RString) w :
  (∀ n, node_api w = Some n → ¬ presents (ui_pass n) form) → (login_post sid form w).2 = w.
Proof.
  intros Hblind. unfold login_post. destruct (form !! "password"%string) as [password|] eqn:Hpw; [|done].
  unfold is_ui_password_temporary, get_ui_password_hash. ui_step.
  destruct (node_api w) as [n|] eqn:Hn; [|done]. specialize (Hblind n eq_refl). ui_step.
  unfold presents, shown_password in Hblind. destruct (ui_pass_is_temporary (ui_pass n)) eqn:Ht.
  - destruct (form !! "temp_password"%string) as [t|] eqn:Htp; [|done]. ui_step. rewrite Hn. ui_reduce.
    case_decide as Hd; [|done]. destruct Hblind. by exists t.
  - ui_step. rewrite Hn. ui_reduce. case_decide as Hd; [|done]. destruct Hblind. by exists password.
Qed.

Lemma router_login m :
  make_router m ROUTE_LOGIN = Found EpLoginGet ∨ make_router m ROUTE_LOGIN = Found EpLoginPost
  ∨ make_router m ROUTE_LOGIN = MethodNotAllowed.
Proof. destruct m; [by left..|by right; left|by right; right]. Qed.

(** The layers pass on what the handler did to the state. *)
Lemma responds_state (m : UiM Response) w : (responds m w).2 = (m w).2.
Proof. unfold responds. by destruct (m w) as [[[a|]|e|why] w']. Qed.
Lemma cache_control_state (next : UiM Response) w : (cache_control next w).2 = (next w).2.
Proof. unfold cache_control. ui_step. by destruct (next w) as [[[a|]|e|why] w']. Qed.
Lemma hypermedia_state (next : UiM Response) w : (hypermedia_errors next w).2 = (next w).2.
Proof.
  unfold hypermedia_errors. ui_step. destruct (next w) as [[[a|]|e|why] w']; [|done..]. by destruct (_ && _).
Qed.
Lemma consensus_init_state req (next : UiM Response) w :
  (consensus_init_layer req next w).2 = w ∨ (consensus_init_layer req next w).2 = (next w).2.
Proof.
  unfold consensus_init_layer. rewrite responds_state. unfold is_consensus_initialized. ui_step.
  destruct (node_api w) as [n|]; [|by left]. ui_reduce. destruct (bool_decide _); case_decide; by (left + right).
Qed.
Lemma consensus_init_login req (next : UiM Response) w n :
  path req = ROUTE_LOGIN → node_api w = Some n → (consensus_init_layer req next w).2 = (next w).2.
Proof.
  intros Hp Hn. unfold consensus_init_layer. rewrite responds_state. unfold is_consensus_initialized. ui_step.
  rewrite Hn, Hp. ui_reduce. destruct (bool_decide _); case_decide as Hd; try done. by destruct Hd; right.
Qed.
Lemma require_auth_login sid req (next : UiM Response) w :
  path req = ROUTE_LOGIN → (require_auth sid req next w).2 = (next w).2.
Proof. intros Hp. unfold require_auth. rewrite responds_state. by rewrite decide_True. Qed.

(** A request without a session and without the password changes nothing; apart
    from the page to log in, it is answered with a redirect to that page. *)
Lemma unauthenticated_request srv now sid req w :
  sid ∉ sessions w → blind w req →
  (serve srv now sid req w).2 = w ∧
  (path req ≠ ROUTE_LOGIN → ∃ p, (serve srv now sid req w).1 = Ok (Some (redirect_to (ToLogin p)))).
Proof.
  intros Hs Hblind. destruct (decide (path req = ROUTE_LOGIN)) as [Hp|Hp].
  - split; [|done]. unfold serve. rewrite cache_control_state, require_auth_login by done.
    destruct (consensus_init_state req (hypermedia_errors (route srv now sid req)) w) as [->| ->]; [done|].
    rewrite hypermedia_state. unfold route. rewrite responds_state, Hp.
    destruct (router_login (method req)) as [-> | [-> | ->]]; [|by apply login_post_blind|done].
    change (endpoint srv now sid EpLoginGet (fields req) w) with (login_get (fields req) w).
    unfold login_get, is_ui_password_temporary. apply pure_bind; [|done].
    apply pure_bind; [apply pure_node_ref|done].
  - unfold serve, cache_control, require_auth, responds. rewrite decide_False by done. ui_step.
    rewrite decide_False by done. ui_reduce. split; [done|]. intros _. eauto.
Qed.
(** The life of the interface: requests, sessions that end, and the node, which
    does what it does without touching sessions and the password. *)
Definition node_runs w w' : Prop :=
  sessions w' = sessions w ∧
  ∀ n', node_api w' = Some n' → ∃ n, node_api w = Some n ∧ ui_pass n' = ui_pass n.
Inductive blind_step w : Ui → Prop :=
  | blind_request srv now sid req : blind w req → blind_step w (serve srv now sid req w).2
  | blind_expires sid : blind_step w (set_sessions (sessions w ∖ {[sid]}) w)
  | blind_runs w' : node_runs w w' → blind_step w w'.

(** C31: nobody gets in without the password.  While no session is open, any
    number of requests whose authors do not know the password, of any kind and
    in any order, change nothing: wherever the interface gets, it gets there by
    the doing of the node alone.  A request needs to show a text with the hash of
    the password (the temporary one, while there is no other). *)
Theorem no_entry_without_password w w' :
  sessions w = ∅ → rtc blind_step w w' → sessions w' = ∅ ∧ rtc node_runs w w'.
Proof.
  intros Hs Hr. induction Hr as [w|w w1 w2 Hstep _ IH]; [done|].
  destruct Hstep as [srv now sid req Hblind|sid|w1 Hrun].
  - destruct (unauthenticated_request srv now sid req w) as [Heq _]; [rewrite Hs; set_solver|done|].
    rewrite Heq in IH. by apply IH.
  - replace (set_sessions (sessions w ∖ {[sid]}) w) with w in IH; [by apply IH|].
    rewrite Hs. destruct w as [a b c d]. cbn in *. subst d. unfold set_sessions. cbn. f_equal. set_solver.
  - destruct IH as [? ?]; [destruct Hrun as [-> _]; done|]. split; [done|]. by eapply rtc_l.
Qed.

(** *** The first password *)
Definition login_form (temp : option RString) (password : RString) : gmap string RString :=
  <["password"%string := password]> match temp with Some t => {["temp_password"%string := t]} | None => ∅ end.
Definition login (form : gmap string RString) : Request := MkRequest POST ROUTE_LOGIN None form.

Lemma serve_login srv now sid form w n :
  node_api w = Some n → (serve srv now sid (login form) w).2 = (login_post sid form w).2.
Proof.
  intros Hn. unfold serve. rewrite cache_control_state, require_auth_login by done.
  rewrite (consensus_init_login _ _ _ n), hypermedia_state by done. unfold route. by rewrite responds_state.
Qed.

Lemma login_post_password sid (form : gmap string RString) password w n :
  node_api w = Some n → form !! "password"%string = Some password → ui_pass_is_temporary (ui_pass n) = false →
  (login_post sid form w).2 =
  if decide (blake3 (as_bytes (trim password)) = ui_pass_hash (ui_pass n))
  then set_sessions ({[sid]} ∪ sessions w) w else w.
Proof.
  intros Hn Hp Ht. unfold login_post. rewrite Hp. unfold is_ui_password_temporary, get_ui_password_hash.
  ui_step. rewrite Hn. ui_step. rewrite Ht. ui_step. rewrite Hn. ui_reduce. by case_decide.
Qed.
Lemma login_post_temporary sid (form : gmap string RString) temp password w n :
  node_api w = Some n → form !! "password"%string = Some password → form !! "temp_password"%string = Some temp →
  ui_pass_is_temporary (ui_pass n) = true → blake3 (as_bytes (trim temp)) = ui_pass_hash (ui_pass n) →
  (login_post sid form w).2 =
  set_sessions ({[sid]} ∪ sessions w)
    (set_node_api (Some (set_ui_pass (change_ui_pass (as_bytes password) (ui_pass n)) n)) w).
Proof.
  intros Hn Hp Htp Ht Hh. unfold login_post. rewrite Hp, Htp. unfold is_ui_password_temporary, get_ui_password_hash.
  ui_step. rewrite Hn. ui_step. rewrite Ht. ui_step. rewrite Hn. ui_reduce. rewrite decide_True by done.
  unfold change_ui_password, node_put. ui_step. by rewrite Hn.
Qed.

(** The first login sets the password, and loses it when it has white space at
    an end.  After a first login with the temporary password, which sets the
    password [p], a later login opens a session exactly when the hash of what is
    typed, without the white space at its ends, is the hash of [p] as it was
    typed.  So [p] lets its owner in when it has no such white space; otherwise no
    text does, unless it gives a collision of blake3. *)
Theorem first_password srv now w n sid sid' (temp p q : RString) :
  node_api w = Some n → ui_pass_is_temporary (ui_pass n) = true →
  blake3 (as_bytes (trim temp)) = ui_pass_hash (ui_pass n) →
  Forall (λ c, is_char c = true) p → Forall (λ c, is_char c = true) (trim q) →
  let w1 := (serve srv now sid (login (login_form (Some temp) p)) w).2 in
  let w2 := (serve srv now sid' (login (login_form None q)) w1).2 in
  sid ∈ sessions w1 ∧
  (sid' ∉ sessions w1 → sid' ∈ sessions w2 ↔ blake3 (as_bytes (trim q)) = blake3 (as_bytes p)) ∧
  (trim p = p → q = p → sid' ∈ sessions w2) ∧
  (trim p ≠ p → sid' ∉ sessions w1 → sid' ∈ sessions w2 →
   as_bytes (trim q) ≠ as_bytes p ∧ blake3 (as_bytes (trim q)) = blake3 (as_bytes p)).
Proof.
  intros Hn Ht Hh Hp Hq. cbv zeta.
  rewrite (serve_login srv now sid _ w n), (login_post_temporary sid _ temp p w n) by done.
  set (n' := set_ui_pass _ n). set (w1 := set_sessions _ _).
  rewrite (serve_login srv now sid' _ w1 n'), (login_post_password sid' _ q w1 n') by done.
  change (ui_pass_hash (ui_pass n')) with (blake3 (as_bytes p)).
  assert (sid ∈ sessions w1) as Hs by (cbn; set_solver).
  assert (sid' ∉ sessions w1 → sid' ∈ sessions (if decide (blake3 (as_bytes (trim q)) = blake3 (as_bytes p))
    then set_sessions ({[sid']} ∪ sessions w1) w1 else w1) ↔ blake3 (as_bytes (trim q)) = blake3 (as_bytes p)) as Hiff.
  { intros Hs'. case_decide; cbn; set_solver. }
  split_and!; [done|done| |].
  - intros Htrim ->. rewrite Htrim, decide_True by done. cbn. set_solver.
  - intros Htrim Hs' Hin%Hiff; [|done]. split; [|done]. intros Heq. apply Htrim.
    assert (trim q = p) as <- by (apply (inj Some); by rewrite <- !as_bytes_from_utf8, Heq).
    apply trim_idem.
Qed.
(** ** The page of the control module *)

(** A request with a session, to a node with a consensus, reaches its handler. *)
Definition initialized w : Prop := ∃ n, node_api w = Some n ∧ is_Some (life_consensus (ui_life n)).
Lemma serve_session srv now w sid req ep r w' :
  sid ∈ sessions w → initialized w → path req ≠ ROUTE_INIT_CONSENSUS →
  make_router (method req) (path req) = Found ep → endpoint srv now sid ep (fields req) w = (Ok (Some r), w') →
  (status r < 400)%N → match body r with Html _ | NoBody => True | _ => False end →
  serve srv now sid req w = (Ok (Some r), w').
Proof.
  intros Hs (n & Hn & Hc) Hpath Hroute Hep Hst Hb.
  assert (hypermedia_errors (route srv now sid req) w = (Ok (Some r), w')) as Hh.
  { unfold hypermedia_errors. ui_step. unfold route, responds. rewrite Hroute, Hep.
    rewrite (proj2 (N.leb_gt 400 _)) by done. done. }
  assert (consensus_init_layer req (hypermedia_errors (route srv now sid req)) w = (Ok (Some r), w')) as Hi.
  { unfold consensus_init_layer, responds, is_consensus_initialized. ui_step. rewrite Hn. ui_reduce.
    rewrite bool_decide_true by done. rewrite decide_False by done. by rewrite Hh. }
  unfold serve, cache_control. ui_step. unfold require_auth, responds.
  assert ((if decide (path req = ROUTE_LOGIN)
    then consensus_init_layer req (hypermedia_errors (route srv now sid req))
    else w0 ← ui_get; if decide (sid ∈ sessions w0) then consensus_init_layer req (hypermedia_errors (route srv now sid req))
         else ui_fail (LoginRequired match method req with GET => Some (path req) | _ => referer_path req end)) w
    = (Ok (Some r), w')) as ->.
  { case_decide; [done|]. ui_step. by rewrite decide_True. }
  ui_reduce. by destruct (body r).
Qed.

Lemma route_module_not_init id rest : route_module id ++ rest ≠ ROUTE_INIT_CONSENSUS.
Proof. done. Qed.
Lemma split_module id rest :
  (rest = [] ∨ ∃ r, rest = 47%N :: r) →
  split_on 47 (route_module id ++ rest) =
    [] :: str "ui" :: str "module" :: display id :: match rest with [] => [] | _ :: r => split_on 47 r end.
Proof.
  intros Hrest. unfold route_module.
  change (str "/ui/module/") with ([47] ++ str "ui" ++ [47] ++ str "module" ++ [47])%N. rewrite <- !app_assoc.
  change ([47] ++ str "ui" ++ ?l)%N with ([] ++ [47] ++ str "ui" ++ l)%N.
  assert (47%N ∉ display id) as Hd by by apply not_digit_display.
  rewrite !split_on_app by first [by apply not_elem_of_nil|vm_compute; set_solver]. do 3 f_equal.
  destruct Hrest as [->|[r ->]]; [by rewrite app_nil_r, split_on_none|by apply (split_on_app 47 (display id) r)].
Qed.
Lemma path_number_display mx (k : N) f : (k < 10 ^ 20)%N → (k ≤ mx)%N → path_number mx (display k) f = f k.
Proof. intros Hn Hmx. unfold path_number. by rewrite parse_display. Qed.
(** The routes below that of a module *)
Lemma router_below m id rest :
  (id ≤ u32_max)%N → (rest = [] ∨ ∃ r, rest = 47%N :: r) →
  make_router m (route_module id ++ rest) =
    match match rest with [] => [] | _ :: r => split_on 47 r end with
    | [] => get m (Found (EpModule id))
    | [d] =>
        if decide (d = str "add_peer_vote") then post m (Found (EpAddPeerVote id))
        else if decide (d = str "remove_peer_vote") then post m (Found (EpRemovePeerVote id))
        else if decide (d = str "add_module_vote") then post m (Found (EpAddModuleVote id))
        else if decide (d = str "meta_key_redirect") then get m (Found (EpMetaKeyRedirect id))
        else NotFound
    | d :: key :: rest' =>
        if decide (d = str "meta_key" ∧ key ≠ []) then
          match rest' with
          | [] => get m (path_number u8_max key (λ key, Found (EpMetaKey id key)))
          | [f] => if decide (f = str "vote") then post m (path_number u8_max key (λ key, Found (EpMetaVote id key)))
                   else NotFound
          | _ => NotFound
          end
        else NotFound
    end.
Proof.
  intros Hid Hrest. unfold make_router. rewrite split_module by done.
  rewrite decide_True by (split_and!; [done..|apply display_nonempty]).
  rewrite !path_number_display by first [done|unfold u32_max in *; lia].
  destruct (match rest with [] => [] | _ :: r => split_on 47 r end) as [|d [|key [|f [|? ?]]]]; try done;
    rewrite ?path_number_display by first [done|unfold u32_max in *; lia]; done.
Qed.
Lemma router_module m id rest :
  (id ≤ u32_max)%N → (rest = [] ∨ rest = str "/add_module_vote") →
  make_router m (route_module id ++ rest) =
  if decide (rest = []) then get m (Found (EpModule id)) else post m (Found (EpAddModuleVote id)).
Proof. intros Hid [->| ->]; by rewrite router_below by first [done|by left|by right; eexists]. Qed.

(** What a module init supports has the widths of the source. *)
Definition inits_wf (inits : gmap ModuleKind IModuleInit) : Prop :=
  ∀ kind init, inits !! kind = Some init →
    (kind ≤ u32_max)%N ∧ ∀ major minor, supported_versions init !! major = Some minor →
      (major ≤ u16_max)%N ∧ (minor ≤ u16_max)%N.

Lemma available_kind inits configs kind major minor :
  inits_wf inits → (kind, (major, minor)) ∈ available_kinds inits configs →
  ∃ init, inits !! kind = Some init ∧ supported_versions init !! major = Some minor ∧
    (singleton init = true → kind ∉ (λ mc : ModuleId * ModuleConfig.t, ModuleConfig.kind mc.2) <$> configs).
Proof.
  intros Hwf Hin. unfold available_kinds in Hin. apply list_elem_of_omap in Hin as ([k init] & Hk & Ho).
  apply entries_elem in Hk. cbn in Ho. destruct (singleton init && bool_decide _) eqn:Hs; [done|].
  apply fmap_Some in Ho as (mm & Ho & [= -> <-]). unfold offered_version in Ho.
  apply fmap_Some in Ho as ([a b] & Hl & [= -> ->]). cbn [fst snd].
  assert (supported_versions init !! a = Some b) as Hab by by apply entries_elem, last_Some_elem_of.
  destruct (Hwf k init Hk) as [_ Hv]. destruct (Hv a b Hab) as [Ha Hb]. unfold u16_max in *.
  rewrite !parse_display by (unfold u16_max; lia). exists init. split_and!; [done|done|].
  intros Hsing. rewrite Hsing in Hs. by apply bool_decide_eq_false in Hs.
Qed.

Lemma ctrl_page_run st w :
  render_consensus_module_page st w =
  (Ok (Some (PageCtrl (entries (modules_configs st.1)) (peers_of st.1) (entries (add_peer_votes st.1))
     (entries (remove_peer_votes st.1)) (entries (add_module_votes st.1))
     (available_kinds (ui_modules_inits w) (entries (modules_configs st.1))))), w).
Proof. done. Qed.
Lemma page_with_navbar_run page w ms :
  modules w = Some ms →
  (∀ i m, ms !! i = Some m → is_Some (ui_modules_inits w !! ModuleConfig.kind (ui_config m))) →
  page_with_navbar page w = (Ok (Some (html page)), w).
Proof.
  intros Hms Hinits. unfold page_with_navbar, render_page_navbar, upgrade_or_hang. ui_step. rewrite Hms. ui_step.
  rewrite (proj2 (forallb_forall _ _)); [done|]. intros [i m] Him%list_elem_of_In%elem_of_map_to_list.
  apply bool_decide_eq_true. by apply (Hinits i).
Qed.
Lemma set_pending_add_module_run self me k v init d props :
  Ctrl.peer_pubkey self = Some me → Ctrl.modules_inits self !! k = Some init →
  (singleton init = true → kind_exists k d = false) →
  ∃ proposals, set_pending_add_module_vote self k v (d, props)
    = (Ok (), (set_pending_add_module_vote_tbl (Some (k, v)) d, proposals)).
Proof.
  intros Hme Hk Hs. unfold set_pending_add_module_vote. rewrite Hme, Hk.
  assert (singleton init && kind_exists k d = false) as Hex by (destruct (singleton init); [by apply Hs|done]).
  change (fst (d, props)) with d. rewrite Hex.
  unfold write_then_refresh, refresh_consensus_proposals, ctrl_write, module_write,
    write_with_expect_falliable, write_with_inner_falliable. simpl.
  unfold mtx_with_table, module_read, read_with_expect, read_with_inner_falliable. simpl.
  rewrite refresh_read. eauto.
Qed.

(** What the page offers is accepted.  The page of the control module lists
    the modules that can be added; the form of each of them, sent back by
    someone who is logged in, leaves a pending vote for that kind in a version
    which its constructor supports, if the node is a peer. *)
Theorem offered_modules_accepted srv now w sid id m self st ms :
  sid ∈ sessions w → initialized w → (id ≤ u32_max)%N →
  modules w = Some ms → ms !! id = Some m → ui_inner m = CtrlInstance self st →
  ModuleConfig.kind (ui_config m) = CTRL_KIND → is_Some (Ctrl.peer_pubkey self) →
  Ctrl.modules_inits self = ui_modules_inits w → inits_wf (ui_modules_inits w) →
  (∀ i m', ms !! i = Some m' → is_Some (ui_modules_inits w !! ModuleConfig.kind (ui_config m'))) →
  ∃ configs peer_set adds removes votes options,
    serve srv now sid (MkRequest GET (route_module id) None ∅) w
      = (Ok (Some (html (PageCtrl configs peer_set adds removes votes options))), w) ∧
    ∀ o, o ∈ options → ∃ kind major minor init d' proposals,
      o = (kind, (major, minor)) ∧
      serve srv now sid
        (MkRequest POST (route_module id ++ str "/add_module_vote") None {["module_kind"%string := option_value o]}) w
        = (Ok (Some (redirect_to (ToPath (route_module id)))),
           set_modules (Some (<[id := MkUiModule (ui_config m) (CtrlInstance self (d', proposals))]> ms)) w) ∧
      pending_add_module_vote d' = Some (kind, ConsensusVersion.mk major minor) ∧
      ui_modules_inits w !! kind = Some init ∧ supported_versions init !! major = Some minor.
Proof.
  intros Hsid Hi Hid Hms Hm Hinner Hkind [me Hme] Hinits Hwf Hnav.
  destruct st as [d props]. eexists _, _, _, _, _, _. split.
  - eapply serve_session with (ep := EpModule id); [done|done| | | |done|done].
    + rewrite <- (app_nil_r (route_module id)). apply route_module_not_init.
    + cbn [method path]. rewrite <- (app_nil_r (route_module id)). by rewrite router_module by first [done|by left].
    + cbn [endpoint fields]. unfold module_page, render_module_page, get_module, upgrade_or_hang. ui_step.
      rewrite Hms. ui_step. rewrite Hm. rewrite decide_True, Hinner by done.
      rewrite ctrl_page_run. ui_reduce. by apply (page_with_navbar_run _ _ ms).
  - intros [kind [major minor]] Ho.
    destruct (available_kind _ _ _ _ _ Hwf Ho) as (init & Hinit & Hv & Hs).
    destruct (Hwf kind init Hinit) as [Hk Hmm]. destruct (Hmm major minor Hv) as [Ha Hb].
    destruct (set_pending_add_module_run self me kind (ConsensusVersion.mk major minor) init d props)
      as [proposals Hset]; [done|by rewrite Hinits| |].
    { intros Hsing. apply not_true_iff_false. intros (i & c & Hc & Hck)%kind_exists_spec.
      apply (Hs Hsing), list_elem_of_fmap. exists (i, c). by split; [|apply entries_elem]. }
    exists kind, major, minor, init, (set_pending_add_module_vote_tbl (Some (kind, ConsensusVersion.mk major minor)) d), proposals.
    split_and!; [done| |done..].
    eapply serve_session with (ep := EpAddModuleVote id); [done|done| | | |done|done].
    + apply route_module_not_init.
    + cbn [method path]. by rewrite router_module by first [done|by right].
    + cbn [endpoint fields]. unfold post_add_module_vote. rewrite lookup_singleton_eq. cbn [fmap option_fmap option_map].
      rewrite parse_option_value by done. cbn [mkv_kind mkv_version]. unfold ctrl_vote, get_module, upgrade_or_hang.
      ui_step. rewrite Hms. ui_step. rewrite Hm, decide_True, Hinner by done. rewrite Hset. unfold put_instance. ui_step.
      rewrite Hms. done.
Qed.
End UiProps.

(** ** A concrete interface *)
Section Witnesses.
Local Existing Instance Toy.bincode.
Local Existing Instance Toy.crypto.
Local Existing Instance ToyNet.codec.
Local Existing Instance toy_address_hashable.
Local Existing Instance toy_bao.
Local Existing Instance ToyMeta.codecs.
Local Existing Instance ToyMeta.ctrl_codecs.
Local Existing Instance ToyHex.hex.
Local Instance toy_texts : UiTexts := {| parse_pubkey := parse_uint u64_max; parse_invite := λ _, Some toy_invite |}.

Definition no_answers : Inviter := MkInviter (λ _, []) (λ _, None) (λ _, None).
Definition toy_inits : gmap ModuleKind IModuleInit :=
  {[CTRL_KIND := MkModuleInit CTRL_KIND true {[0%N := 1%N]}; META_KIND := meta_module_init]}.
Definition toy_ctrl_db : CtrlDb :=
  set_modules_configs {[0%N := ModuleConfig.mk CTRL_KIND (ConsensusVersion.mk 0 1)]} empty_ctrl.
Definition toy_instance : UiModule :=
  MkUiModule (ModuleConfig.mk CTRL_KIND (ConsensusVersion.mk 0 1))
    (CtrlInstance (MkCtrlModule (ConsensusVersion.mk 0 1) (Some 3%N) toy_inits) (toy_ctrl_db, [])).
Definition toy_ui_node : UiNode :=
  MkUiNode toy_life (MkUiPass None (blake3 (as_bytes (str "4711"))) true) false 70 0 (ConsensusVersion.mk 0 0).
Definition toy_ui : Ui := MkUi (Some toy_ui_node) (Some {[0%N := toy_instance]}) toy_inits ∅.
(** The same with a consensus and a session. *)
Definition running_ui : Ui :=
  MkUi (Some (set_ui_life (MkLife (Some inviter) empty_db no_addrs (Some 4%N)) toy_ui_node))
    (Some {[0%N := toy_instance]}) toy_inits {[5%N]}.

Lemma no_entry_without_password_witness :
  sessions (serve no_answers 77 1
    (login (login_form (Some (str "4712")) (str "mine"))) toy_ui).2 = ∅.
Proof.
  apply (no_entry_without_password toy_ui); [reflexivity|].
  apply rtc_once, blind_request. intros n [= <-] (p & Hp & Hh). revert Hh. injection Hp as <-. vm_compute. discriminate.
Defined.

Lemma first_password_witness :
  let w1 := (serve no_answers 77 1 (login (login_form (Some (str " 4711")) (str "mine"))) toy_ui).2 in
  1%N ∈ sessions w1 ∧ 2%N ∈ sessions (serve no_answers 77 2 (login (login_form None (str "mine"))) w1).2.
Proof.
  cbv zeta.
  destruct (first_password no_answers 77 toy_ui toy_ui_node 1 2 (str " 4711") (str "mine") (str "mine"))
    as (Hs & _ & Hin & _).
  - reflexivity.
  - reflexivity.
  - vm_compute. reflexivity.
  - repeat constructor.
  - repeat constructor.
  - split; [exact Hs|]. apply Hin; vm_compute; reflexivity.
Defined.
(** With a blank at the end the password does not open a session any more. *)
Example first_password_lost :
  let w1 := (serve no_answers 77 1 (login (login_form (Some (str "4711")) (str "mine "))) toy_ui).2 in
  sessions w1 = {[1%N]} ∧
  sessions (serve no_answers 77 2 (login (login_form None (str "mine "))) w1).2 = {[1%N]} ∧
  sessions (serve no_answers 77 2 (login (login_form None (str "mine"))) w1).2 = {[1%N]}.
Proof. cbv zeta. split_and!; apply (bool_decide_unpack _); vm_compute; exact I. Qed.

Lemma offered_modules_accepted_witness :
  ∃ kind major minor d' proposals,
    str "1:0.0" = option_value (kind, (major, minor)) ∧
    (serve no_answers 77 5 (MkRequest POST (route_module 0 ++ str "/add_module_vote") None
       {["module_kind"%string := str "1:0.0"]}) running_ui).2
      = set_modules (Some (<[0%N := MkUiModule (ui_config toy_instance)
          (CtrlInstance (MkCtrlModule (ConsensusVersion.mk 0 1) (Some 3%N) toy_inits) (d', proposals))]>
          {[0%N := toy_instance]})) running_ui ∧
    pending_add_module_vote d' = Some (kind, ConsensusVersion.mk major minor).
Proof.
  destruct (offered_modules_accepted no_answers 77 running_ui 5 0 toy_instance
    (MkCtrlModule (ConsensusVersion.mk 0 1) (Some 3%N) toy_inits) (toy_ctrl_db, []) {[0%N := toy_instance]})
    as (configs & ps & adds & removes & votes & options & Hpage & Hoptions).
  - set_solver.
  - eexists. split; [reflexivity|]. by eexists.
  - unfold u32_max. lia.
  - reflexivity.
  - reflexivity.
  - reflexivity.
  - reflexivity.
  - by eexists.
  - reflexivity.
  - intros kind init Hi. unfold ui_modules_inits, running_ui, toy_inits in Hi.
    apply lookup_insert_Some in Hi as [[<- <-]|[_ Hi]]; [|apply lookup_singleton_Some in Hi as [<- <-]];
      (split; [unfold u32_max; vm_compute; discriminate|]); intros major minor Hm; cbn in Hm;
      apply lookup_singleton_Some in Hm as [<- <-]; unfold u16_max; split; vm_compute; discriminate.
  - intros i m' [<- <-]%lookup_singleton_Some. by eexists.
  - assert (options = [(1, (0, 0))]%N) as ->.
    { assert ((serve no_answers 77 5 (MkRequest GET (route_module 0) None ∅) running_ui).1
        = Ok (Some (html (PageCtrl [(0%N, ModuleConfig.mk CTRL_KIND (ConsensusVersion.mk 0 1))] [] [] [] []
            [(1, (0, 0))]%N)))) as Heq by (vm_compute; reflexivity).
      rewrite Hpage in Heq. injection Heq. congruence. }
    destruct (Hoptions (1, (0, 0))%N) as (kind & major & minor & init & d' & proposals & Ho & Hserve & Hpend & _); [by left|].
    assert (option_value (1, (0, 0))%N = str "1:0.0") as Hov by (vm_compute; reflexivity).
    rewrite Hov in Hserve. exists kind, major, minor, d', proposals. rewrite Hserve, <-Ho. split; [by rewrite Hov|].
    split; [reflexivity|exact Hpend].
Defined.
End Witnesses.
