(* ===== verification/Pages.v ===== *)
(** * The pages of the web interface ([node-ui-axum/src/page.rs],
      [fragments.rs], [assets.rs], [routes/*.rs])

    [Ui.v] gives the data of a page; this file gives its HTML, element by element
    as the templates have it, and shows that its links and forms lead to routes
    of the interface.  Text and attribute values are escaped when a tree is
    printed, by [maud]; the printing is not modelled.  Dates are a parameter. *)
From S2P Require Import Prelude ArrayType Peers Core Db ConsDb Consensus Module Ctrl Meta NodeApp Node PeerAddr Rpc Join Secret Text Names Ui UiProps.

(** ** HTML *)
Inductive Markup :=
  | Txt (s : RString)
  | El (tag : string) (attrs : list (string * RString)) (children : list Markup).
Abbreviation Template := (list Markup) (only parsing).

Definition text (s : string) : Markup := Txt (str s).
(** [name=\[value\]] *)
Definition opt_attr (name : string) (value : option RString) : list (string * RString) :=
  match value with Some v => [(name, v)] | None => [] end.
(** [name\[cond\]]: an attribute without a value *)
Definition flag (name : string) (cond : bool) : list (string * RString) := if cond then [(name, [])] else [].
Definition sattr (name value : string) : string * RString := (name, str value).

(** ** Dates

    [UtcDateTime::from_unix_timestamp_nanos] and its text; both can fail. *)
Class DateTimes := {
  DateTime : Type;
  from_unix_timestamp_nanos : N → option DateTime;
  rfc3339 : DateTime → option RString;
}.
(** [Timestamp::to_datetime]: the product is one of [u64], as it is in a release. *)
Definition to_datetime `{DateTimes} (timestamp : N) : option DateTime :=
  from_unix_timestamp_nanos (timestamp * 1000 mod (u64_max + 1))%N.

(** ** The addresses ([lib.rs], [assets.rs]) *)
Definition ROUTE_EXPLORER : RString := str "/ui/explorer".
Definition ROUTE_INVITE : RString := str "/ui/invite".
Definition ROUTE_DS_CURRENT_ROUND : RString := str "/datastar/current-round".
Definition ROUTE_DATASTAR_JS : RString := str "/assets/datastar/datastar-1-0-0-rc-11.js".
Definition ROUTE_DATASTAR_JS_MAP : RString := str "/assets/datastar/datastar-1-0-0-rc-11.js.map".
Definition ROUTE_ALPINEJS_JS : RString := str "/assets/alpine/alpinejs-3.18.8.js".
Definition ROUTE_ALPINEAJAX_JS : RString := str "/assets/alpine/alpine-ajax-0.12.2.js".
Definition ROUTE_PICO_CSS : RString := str "/assets/pico@2.indigo.min.css".
Definition ROUTE_STYLE_CSS : RString := str "/assets/style.css".
Definition ROUTE_LOGO_SVG : RString := str "/assets/logo.svg".

(** [with_static_routes]: the path and the content type of each file.  They are
    around the layers of the router, so they need no session. *)
Definition get_static_css : string := "text/css".
Definition get_static_js : string := "application/javascript".
Definition get_static_json : string := "application/json".
Definition get_static_svg : string := "image/svg+xml".
Definition with_static_routes : list (RString * string) :=
  [ (ROUTE_DATASTAR_JS, get_static_js); (ROUTE_DATASTAR_JS_MAP, get_static_json); (ROUTE_ALPINEJS_JS, get_static_js);
    (ROUTE_ALPINEAJAX_JS, get_static_js); (ROUTE_STYLE_CSS, get_static_css); (ROUTE_PICO_CSS, get_static_css);
    (ROUTE_LOGO_SVG, get_static_svg) ].
Definition static_asset (m : Method) (p : RString) : option string :=
  match m with GET | HEAD => (list_to_map with_static_routes : gmap RString string) !! p | _ => None end.

(** ** Fragments ([fragments.rs]) *)
Definition labeled_input (name label type : string) (placeholder : option string) (required : bool) : Template :=
  [ El "label" [sattr "for" name] [text label];
    El "input" ([sattr "type" type; sattr "id" name; sattr "name" name] ++ opt_attr "placeholder" (str <$> placeholder)
                  ++ flag "required" required) [] ].
Definition labeled_textarea (name label : string) (placeholder : option string) (required : bool) : Template :=
  [ El "label" [sattr "for" name] [text label];
    El "textarea" ([sattr "id" name; sattr "name" name] ++ opt_attr "placeholder" (str <$> placeholder)
                     ++ flag "required" required) [] ].

(** ** Names of modules ([consensus_ctrl.rs], the [display_name] of each module)

    [other] are the names of modules that are not in the repository. *)
Definition get_module_kind_name (kind : ModuleKind) : option RString :=
  if decide (kind = CTRL_KIND) then Some (str "Consensus Control")
  else if decide (kind = META_KIND) then Some (str "Meta")
  else None.
Definition display_name (other : ModuleKind → RString) (kind : ModuleKind) : RString :=
  if decide (kind = CTRL_KIND) then str "Consensus Ctrl"
  else if decide (kind = META_KIND) then str "Meta"
  else other kind.
Definition version_fmt (v : ConsensusVersion.t) : RString :=
  display (ConsensusVersion.major v) ++ [46]%N ++ display (ConsensusVersion.minor v).

Section Templates.
Context `{Crypto} `{Bincode} `{DataEncoding} `{InviteCbor} `{DateTimes} (other_name : ModuleKind → RString).
Implicit Types (module_id : ModuleId) (votes : list (PeerPubkey * PeerPubkey)).

(** ** The frame of a page ([page.rs]) *)
Inductive NavbarSelector := General | Explorer | Module (id : ModuleId).
Global Instance NavbarSelector_eq_dec : EqDecision NavbarSelector.
Proof. solve_decision. Defined.
Definition is_general (s : NavbarSelector) : bool := match s with General => true | _ => false end.
Definition is_explorer (s : NavbarSelector) : bool := match s with Explorer => true | _ => false end.
Definition is_module (s : NavbarSelector) : bool := match s with Module _ => true | _ => false end.
Definition is_module_id (s : NavbarSelector) module_id : bool := bool_decide (s = Module module_id).
(** [aria-current=\[cond.then_some(value)\]] *)
Definition aria_current (cond : bool) (value : string) : list (string * RString) :=
  opt_attr "aria-current" (if cond then Some (str value) else None).

Definition render_html_head (page_title : RString) : Markup :=
  El "head" []
    [ El "meta" [sattr "charset" "utf-8"] [];
      El "meta" [sattr "name" "viewport"; sattr "content" "width=device-width, initial-scale=1"] [];
      El "meta" [sattr "name" "color-scheme"; sattr "content" "light dark"] [];
      El "title" [] [Txt page_title];
      El "link" [sattr "rel" "stylesheet"; sattr "type" "text/css"; ("href", ROUTE_PICO_CSS)] [];
      El "link" [sattr "rel" "stylesheet"; sattr "type" "text/css"; ("href", ROUTE_STYLE_CSS)] [];
      El "link" [sattr "rel" "icon"; sattr "type" "image/svg+xml"; ("href", ROUTE_LOGO_SVG)] [];
      El "script" (flag "defer" true ++ [sattr "type" "module"; ("src", ROUTE_DATASTAR_JS)]) [];
      El "script" (flag "defer" true ++ [("src", ROUTE_ALPINEAJAX_JS)]) [];
      El "script" (flag "defer" true ++ [("src", ROUTE_ALPINEJS_JS)]) [] ].

(** The entry of a module in the bar. *)
Definition navbar_module (active : NavbarSelector) (m : ModuleId * ModuleKind) : Markup :=
  El "li" []
    [ El "a" ([sattr "class" "secondary"; sattr "data-discover" "true"] ++ aria_current (is_module_id active m.1) "true"
                ++ [("href", route_module m.1)])
        [Txt (display m.1 ++ str ". " ++ display_name other_name m.2)] ].
Definition navbar (active : NavbarSelector) (kinds : list (ModuleId * ModuleKind)) : Markup :=
  El "aside" []
    [ El "nav"
        [ sattr "data-signals__ifmissing" "{ nav: { openTabs: { general: true, modules: false, }}}";
          sattr "data-persist" "$nav.openTabs.*" ]
        [ El "h1" []
            [ El "a" [ sattr "href" "https://app.radicle.xyz/nodes/radicle.dpc.pw/rad:zii8qFzZhN3vigh8BuxGCuEEp6z4";
                       sattr "target" "_blank" ] [text "BFTE"] ];
          El "div" []
            [ El "details" [sattr "data-attr" "{ open: $nav.openTabs.general}"]
                [ El "summary" (aria_current (is_general active) "true" ++
                                [sattr "data-on-click__prevent" "$nav.openTabs.general = !$nav.openTabs.general"])
                    [text "Consensus"];
                  El "ul" []
                    [ El "li" []
                        [ El "a" ([sattr "class" "secondary"; sattr "data-discover" "true"; ("href", ROUTE_UI)]
                                    ++ aria_current (is_general active) "page") [text "Overview"] ];
                      El "li" []
                        [ El "a" [sattr "class" "secondary"; sattr "data-discover" "true"; ("href", ROUTE_INVITE)]
                            [text "Invite Code"] ];
                      El "li" []
                        [ El "a" ([sattr "class" "secondary"; sattr "data-discover" "true"; ("href", ROUTE_EXPLORER)]
                                    ++ aria_current (is_explorer active) "page") [text "Explorer"] ] ] ];
              El "details" [sattr "data-attr" "{ open: $nav.openTabs.modules }"]
                [ El "summary" (sattr "data-on-click__prevent" "$nav.openTabs.modules = !$nav.openTabs.modules"
                                  :: aria_current (is_module active) "true") [text "Modules"];
                  El "ul" [] (navbar_module active <$> kinds) ] ] ] ].
(** The document; [active_navbar] comes with the modules that the bar shows. *)
Definition html_page (active_navbar : option (NavbarSelector * list (ModuleId * ModuleKind))) (title : RString)
    (main_content : Template) : Markup :=
  El "html" [sattr "lang" "en"]
    [ render_html_head title;
      El "body" []
        [ El "header" [] (match active_navbar with Some (active, kinds) => [navbar active kinds] | None => [] end);
          El "main" [sattr "class" "container"] [El "div" [sattr "class" "main-content"] main_content] ] ].

(** ** Signing in and the set-up ([login.rs], [init.rs]) *)
Definition login_content (redirect : option RString) (pass_is_temporary : bool) : Template :=
  [ El "section" [sattr "class" "login-form"]
      [ El "header" [] [El "h2" [] [text "Sign in"]];
        El "div" [sattr "role" "status"] [El "p" (flag "x-sync" true ++ [sattr "id" "error-response"]) []];
        El "form" [sattr "x-target" "_none"; sattr "x-target.away" "_top"; sattr "method" "post"; ("action", ROUTE_LOGIN)]
          (match redirect with
           | Some redirect_url => [El "input" [sattr "type" "hidden"; sattr "name" "redirect"; ("value", redirect_url)] []]
           | None => []
           end ++
           (if pass_is_temporary then
              labeled_input "temp_password" "Temporary Password" "password"
                (Some "Enter temporary password (check logs)"%string) true
            else []) ++
           labeled_input "password" (if pass_is_temporary then "Set Password" else "Password") "password"
             (Some (if pass_is_temporary then "Enter new password" else "Enter your password")%string) true ++
           [El "button" [] [text "Sign in"]]) ] ].

Definition init_form (target : string) (content : Template) : Template :=
  [ El "div" [sattr "role" "status"] [El "p" [sattr "id" target] []];
    El "form" [ sattr "method" "post"; ("action", ROUTE_INIT_CONSENSUS); sattr "x-target" "_top";
                ("x-target.error", str target ++ str ":error-response") ] content ].
Definition init_content (has_secret is_db_ephemeral : bool) : Template :=
  let can_create_consensus := has_secret && negb is_db_ephemeral in
  [ El "section" [sattr "class" "init-consensus-form"]
      [ El "div" [sattr "class" "grid"]
          [ El "div" []
              [ El "article" []
                  (El "header" [] [El "h2" [] [text "Create new consensus"]] ::
                   init_form "error-response-form-create"
                     ([ El "p" [] [text "Start a new consensus network as the first node."];
                        El "button" (sattr "type" "submit" :: flag "disabled" (negb can_create_consensus)) [text "Create"] ] ++
                      (if negb has_secret then
                         [El "p" [] [text "Must have a root secret set with"; El "code" [] [text "--secret-path"]; text "."]]
                       else []) ++
                      (if is_db_ephemeral then
                         [El "p" [] [ text "Must set location for a persistent database set with";
                                      El "code" [] [text "--data-dir"]; text "."]]
                       else []))) ];
            El "div" []
              [ El "article" []
                  (El "header" [] [El "h2" [] [text "Join existing consensus"]] ::
                   init_form "error-response-form-join"
                     (labeled_textarea "invite" "Join an existing consensus as a non-voting node with an invite code" None true ++
                      [El "button" [sattr "type" "submit"] [text "Join"]])) ] ] ] ].

(** ** Status, invite, history ([consensus_status.rs], [invite.rs], [explorer.rs]) *)
Definition status_row (label signal : string) : Markup :=
  El "div" [] [text label; El "span" [sattr "data-text" signal] [text "Loading..."]].
Definition status_content (peer_set : list PeerPubkey) (own : option PeerPubkey) (is_ephemeral : bool) : Template :=
  [ El "div" []
      [ El "h2" [] [text "Overview"];
        El "section" []
          [ El "h3" [] [text "Status"];
            El "div" [ sattr "data-signals" "{ round_and_timeout: '', finality_consensus: '', finality_self: '', node_app_ack: '' }";
                       ("data-on-load", str "@get('" ++ ROUTE_DS_CURRENT_ROUND ++ str "')") ]
              [ status_row "Current Round: " "$round_and_timeout"; status_row "Finality Vote: " "$finality_self";
                status_row "Finality Consensus: " "$finality_consensus"; status_row "Node App Ack: " "$node_app_ack" ] ];
        El "section" []
          [ El "h3" [] [text "Peers"];
            match peer_set with
            | [] => El "p" [] [text "No peers connected."]
            | _ :: _ => El "ul" [] ((λ peer, El "li" [] [Txt (pubkey_fmt peer)]) <$> peer_set)
            end ];
        El "section" []
          [ El "h3" [] [text "Node Information"];
            El "p" [] [ text "Own peer public key: ";
                        El "code" [sattr "style" "word-break: break-all;"]
                          [Txt match own with Some pubkey => pubkey_fmt pubkey | None => str "Not available" end] ];
            El "p" [] [ text "Database: ";
                        if is_ephemeral
                        then El "span" [sattr "style" "color: red; font-weight: bold;"] [text "In-memory (ephemeral)"]
                        else El "span" [] [text "Persistent"] ] ] ] ].
Definition invite_content (invite : option Invite) : Template :=
  [ El "div" []
      [ El "h2" [] [text "Invite Code"];
        El "section" []
          [ El "p" [] [text "Share this code with others to invite them to join the consensus:"];
            El "code" [sattr "style" "display: block; padding: 1em; background: var(--pico-code-background-color); word-break: break-all; margin: 1em 0;"]
              [Txt match invite with Some i => invite_fmt i | None => str "Not available" end];
            El "p" [sattr "class" "text-muted"]
              [text "Note: This invite code allows other nodes to join your consensus network. Keep it secure and only share with trusted parties."] ] ] ].
Definition short_list (peers : list PeerPubkey) : RString :=
  match to_short_fmt <$> peers with
  | [] => []
  | first :: rest => first ++ flat_map (λ s, str ", " ++ s) rest
  end.
Definition history_timestamp (block_header : option BlockHeader.t) : RString :=
  match block_header with
  | Some header =>
      match to_datetime (BlockHeader.timestamp header) with
      | Some datetime => default (str "Invalid") (rfc3339 datetime)
      | None => str "Invalid timestamp"
      end
  | None => []
  end.
Definition history_row (entry : HistoryEntry) : Markup :=
  let '(round, block_header, signatory_peers) := entry in
  El "tr" []
    [ El "td" []
        [ match block_header with
          | Some header =>
              El "em" [("data-tooltip", base32_fmt (from_number 32 (hash header))); sattr "data-placement" "right"]
                [Txt (display round)]
          | None => Txt (display round)
          end ];
      El "td" [] [Txt (history_timestamp block_header)];
      El "td" []
        [Txt match block_header with
             | Some header =>
                 if is_dummy header then [] else display (BlockHeader.payload_len header) ++ str " bytes"
             | None => []
             end];
      El "td" []
        [ match signatory_peers with
          | [] => Txt []
          | _ :: _ =>
              El "em" [("data-tooltip", short_list signatory_peers); sattr "data-placement" "left"]
                [Txt (display (N.of_nat (length signatory_peers)))]
          end ] ].
Definition table (headings : list string) (rows : Template) : Markup :=
  El "table" [] [El "thead" [] [El "tr" [] ((λ h, El "th" [] [text h]) <$> headings)]; El "tbody" [] rows].
Definition explorer_content (history : list HistoryEntry) : Template :=
  [ El "div" []
      [ El "h2" [] [text "Consensus Explorer"];
        El "p" [] [text "Showing the last "; Txt (display (N.of_nat (length history))); text " consensus rounds"];
        El "section" []
          [ El "h3" [] [text "Consensus History"];
            match history with
            | [] => El "p" [] [text "No consensus history available."]
            | _ :: _ => table ["Round"; "Timestamp"; "Payload Size"; "Signatures"]%string (history_row <$> history)
            end ] ] ].

(** ** The control module ([consensus_ctrl.rs]) *)
Definition module_path module_id (rest : string) : RString := route_module module_id ++ str rest.
Definition arrow : RString := [32; 8594; 32]%N.
Definition vote_list (items : list RString) : Template :=
  match items with
  | [] => []
  | _ :: _ => [El "h4" [] [text "Pending Votes:"]; El "ul" [] ((λ s, El "li" [] [Txt s]) <$> items)]
  end.
Definition peer_vote_fmt (vote : PeerPubkey * PeerPubkey) : RString := to_short_fmt vote.1 ++ arrow ++ pubkey_fmt vote.2.
Definition peer_vote_form (target : string) (action : RString) (submit : string) : Template :=
  [ El "div" [sattr "role" "status"] [El "p" [sattr "id" target] []];
    El "form" [ sattr "method" "post"; sattr "x-target" "_none"; ("x-target.error", str target ++ str ":error-response");
                sattr "x-target.away" "_top"; ("action", action) ]
      [ El "fieldset" [sattr "role" "group"]
          [ El "input" ([sattr "type" "text"; sattr "name" "peer_pubkey"; sattr "placeholder" "Peer's public key"]
                          ++ flag "required" true) [];
            El "input" [sattr "type" "submit"; sattr "value" submit] [] ] ] ].
Definition kind_name (kind : ModuleKind) : RString := default (str "Unknown") (get_module_kind_name kind).
Definition module_vote_fmt (vote : PeerPubkey * (ModuleKind * ConsensusVersion.t)) : RString :=
  to_short_fmt vote.1 ++ arrow ++ kind_name vote.2.1 ++ str " (v" ++ version_fmt vote.2.2 ++ str ")".
(** [render_add_module_form]; the options are those of [available_kinds]. *)
Definition add_module_form module_id (available : list (ModuleKind * (N * N))) : Markup :=
  match available with
  | [] => El "p" [] [text "No modules available to add."]
  | _ :: _ =>
      El "form" [sattr "method" "post"; ("action", module_path module_id "/add_module_vote")]
        [ El "fieldset" [sattr "role" "group"]
            [ El "select" (sattr "name" "module_kind" :: flag "required" true)
                (El "option" [sattr "value" ""] [text "Select module to add..."] ::
                 ((λ o, El "option" [("value", option_value o)]
                          [Txt (kind_name o.1 ++ str " (v" ++ display o.2.1 ++ [46]%N ++ display o.2.2 ++ str ")")])
                    <$> available));
              El "input" [sattr "type" "submit"; sattr "value" "Add Module"] [] ] ]
  end.
Definition config_row (mc : ModuleId * ModuleConfig.t) : Markup :=
  El "tr" []
    [ El "td" [] [Txt (display mc.1)];
      El "td" [] [Txt (default (display (ModuleConfig.kind mc.2)) (get_module_kind_name (ModuleConfig.kind mc.2)))];
      El "td" [] [Txt (version_fmt (ModuleConfig.version mc.2))] ].
Definition ctrl_content module_id (configs : list (ModuleId * ModuleConfig.t)) (peer_set : list PeerPubkey)
    (add_votes remove_votes : list (PeerPubkey * PeerPubkey))
    (module_votes : list (PeerPubkey * (ModuleKind * ConsensusVersion.t))) (available : list (ModuleKind * (N * N))) : Template :=
  [ El "header" [] [El "h1" [] [text "Consensus Ctrl"]];
    El "h2" [] [text "Membership"];
    El "section" []
      [El "h3" [] [text "Current Peers"]; El "ul" [] ((λ peer, El "li" [] [Txt (pubkey_fmt peer)]) <$> peer_set)];
    El "section" []
      (El "h3" [] [text "Add Peer"] :: vote_list (peer_vote_fmt <$> add_votes) ++
       peer_vote_form "error-response-form-add" (module_path module_id "/add_peer_vote") "Add");
    El "section" []
      (El "h3" [] [text "Remove Peer"] :: vote_list (peer_vote_fmt <$> remove_votes) ++
       peer_vote_form "error-response-form-remove" (module_path module_id "/remove_peer_vote") "Remove");
    El "h2" [] [text "Modules"];
    El "section" []
      [ El "h3" [] [text "Active modules"];
        table ["Module ID"; "Module Kind"; "Consensus Version"]%string (config_row <$> configs) ];
    El "section" []
      (El "h3" [] [text "Add Module"] :: vote_list (module_vote_fmt <$> module_votes) ++
       [add_module_form module_id available]) ].

(** ** The meta module ([meta.rs]); a value is what [render_meta_value] shows *)
Definition value_row (kv : N * RString) : Markup :=
  El "tr" [] [El "td" [] [Txt (display kv.1)]; El "td" [] [Txt kv.2]].
Definition key_option (key : nat) : Markup :=
  El "option" [("value", display (N.of_nat key))] [Txt (str "Key " ++ display (N.of_nat key))].
Definition meta_content module_id (values : list (N * RString)) : Template :=
  [ El "header" []
      [El "h1" [] [text "Meta Module"]; El "p" [] [text "Manage key-value consensus for meta information"]];
    El "section" []
      [ El "h2" [] [text "Current Consensus Values"];
        match values with
        | [] => El "p" [] [text "No consensus values set yet."]
        | _ :: _ => table ["Key"; "Value"]%string (value_row <$> values)
        end ];
    El "section" []
      [ El "h2" [] [text "Vote on Meta Keys"];
        El "p" [] [text "Select a key to vote on:"];
        El "form" [sattr "method" "get"; ("action", module_path module_id "/meta_key_redirect")]
          [ El "fieldset" []
              [ El "label" [sattr "for" "key"] [text "Key:"];
                El "select" ([sattr "name" "key"; sattr "id" "key"] ++ flag "required" true) (key_option <$> seq 0 256);
                El "input" [sattr "type" "submit"; sattr "value" "Go to Key"] [] ] ] ] ].
Definition vote_action module_id (key : N) : RString := route_meta_key module_id key ++ str "/vote".
Definition vote_row module_id (key : N) (vote : PeerPubkey * RString) : Markup :=
  El "tr" []
    [ El "td" []
        [ El "div" [] [Txt (to_short_fmt vote.1)];
          El "form" [sattr "method" "post"; ("action", vote_action module_id key)]
            [ El "input" [sattr "type" "hidden"; sattr "name" "value"; ("value", vote.2)] [];
              El "input" [sattr "type" "submit"; sattr "value" "Approve"] [] ] ];
      El "td" [] [Txt vote.2] ].
Definition meta_key_content module_id (key : N) (current : option RString) (votes : list (PeerPubkey * RString)) : Template :=
  [ El "header" []
      [ El "h5" [] [El "a" [("href", route_module module_id)] [Txt (8592%N :: str " Back to Meta Module")]];
        El "h1" [] [text "Meta Key "; Txt (display key); text " Voting"] ] ] ++
  match current with
  | Some current_value =>
      [ El "section" []
          [ El "h2" [] [text "Current Consensus Value"];
            El "div" [sattr "class" "callout"] [El "strong" [] [text "Value: "]; Txt current_value] ] ]
  | None => []
  end ++
  [ El "section" []
      [ El "h2" [] [text "Current Votes"];
        match votes with
        | [] => El "p" [] [text "No votes cast yet for this key."]
        | _ :: _ => table ["Voter"; "Voted Value"]%string (vote_row module_id key <$> votes)
        end ];
    El "section" []
      [ El "h2" [] [text "Submit Your Vote"];
        El "form" [sattr "method" "post"; ("action", vote_action module_id key)]
          [ El "fieldset" []
              [ El "label" [sattr "for" "value"] [text "Value to vote for:"];
                El "input" ([ sattr "type" "text"; sattr "name" "value"; sattr "id" "value";
                              sattr "placeholder" "Enter value (text or hex with 0x prefix)" ] ++ flag "required" true) [];
                El "small" [] [text "You can enter plain text or hex values (prefix with 0x)"] ];
            El "input" [sattr "type" "submit"; sattr "value" "Submit Vote"] [] ] ] ].

(** ** The document of a page

    [ep] is what was asked for, [page] the data that it answered with, [kinds] the
    modules of the bar. *)
Definition error_fragment (msg : string) : Template := [El "p" [sattr "id" "error-response"] [text msg]].
Definition document (ep : Endpoint) (page : Page) (kinds : list (ModuleId * ModuleKind)) : Template :=
  let with_navbar active title content := [html_page (Some (active, kinds)) title content] in
  let module_content module_id :=
    match page with
    | PageNoModule => [text "Module instance does not exist"]
    | PageUnrecognized kind =>
        [text (if decide (kind = CTRL_KIND) then "Module instance is not a recognized consensus module"
               else "Module instance is not a recognized meta module")]
    | PageGeneric kind => [Txt (str "TBD. Generic handling of module " ++ display module_id ++ str " of kind " ++ display kind)]
    | PageCtrl configs peer_set add_votes remove_votes module_votes available =>
        ctrl_content module_id configs peer_set add_votes remove_votes module_votes available
    | PageMeta values => meta_content module_id values
    | _ => []
    end in
  match page with
  | PageError msg => error_fragment msg
  | PageLogin redirect pass_is_temporary => [html_page None (str "Sign in") (login_content redirect pass_is_temporary)]
  | PageInit has_secret is_db_ephemeral =>
      [html_page None (str "Initialize Consensus") (init_content has_secret is_db_ephemeral)]
  | PageStatus peer_set own is_ephemeral =>
      with_navbar General (str "Consensus Status") (status_content peer_set own is_ephemeral)
  | PageExplorer history => with_navbar Explorer (str "Consensus Explorer") (explorer_content history)
  | PageInvite invite => with_navbar General (str "Invite Code") (invite_content invite)
  | PageMetaKey _ current votes =>
      match ep with
      | EpMetaKey module_id key =>
          with_navbar (Module module_id) (str "Meta Key " ++ display key) (meta_key_content module_id key current votes)
      | _ => []
      end
  | _ =>
      match ep with
      | EpModule module_id => with_navbar (Module module_id) (str "Hello!") (module_content module_id)
      | _ => []
      end
  end.

(** ** What the handlers need of a form

    The fields of the [Input], [AddPeerVoteForm], [RemovePeerVoteForm],
    [AddModuleVoteForm], [MetaVoteForm] and [MetaKeyRedirectForm] that are not
    optional. *)
Definition required_fields (pass_is_temporary : bool) (ep : Endpoint) : list string :=
  match ep with
  | EpLoginPost => "password" :: if pass_is_temporary then ["temp_password"] else []
  | EpAddPeerVote _ | EpRemovePeerVote _ => ["peer_pubkey"]
  | EpAddModuleVote _ => ["module_kind"]
  | EpMetaVote _ _ => ["value"]
  | EpMetaKeyRedirect _ => ["key"]
  | _ => []
  end%string.

(** The texts of the forms are those of the pages. *)
Definition form_texts : UiTexts :=
  {| parse_pubkey := pubkey_from_str; parse_invite := λ s, invite_string_deserialize (SerdeStr s) |}.
End Templates.

(** What a page shows of a peer or an invite can be typed in a form. *)
Lemma shown_peer_typed `{DataEncoding} `{InviteCbor} `{!DataEncodingLaws} pk :
  (pk ≤ num_max PUBKEY_LEN)%N → parse_pubkey (UiTexts := form_texts) (pubkey_fmt pk) = Some pk.
Proof. apply pubkey_text. Qed.
Lemma shown_invite_typed `{DataEncoding} `{InviteCbor} `{!DataEncodingLaws} `{!InviteCborLaws} invite :
  parse_invite (UiTexts := form_texts) (invite_fmt invite) = Some invite.
Proof. apply invite_string_serde. Qed.

(** ** Elements, links and controls *)
Fixpoint attr (name : string) (attrs : list (string * RString)) : option RString :=
  match attrs with
  | [] => None
  | (n, v) :: rest => if String.eqb n name then Some v else attr name rest
  end.
(** What holds of every element of a template. *)
Fixpoint every (P : string → list (string * RString) → list Markup → Prop) (m : Markup) : Prop :=
  match m with
  | Txt _ => True
  | El tag attrs children =>
      P tag attrs children ∧
      (fix go (l : list Markup) : Prop := match l with [] => True | k :: l' => every P k ∧ go l' end) children
  end.
(** The names of the controls inside an element. *)
Fixpoint controls (m : Markup) : list RString :=
  match m with
  | Txt _ => []
  | El tag attrs children =>
      (match tag with
       | "input" | "select" | "textarea" => match attr "name" attrs with Some name => [name] | None => [] end
       | _ => []
       end%string) ++
      (fix go (l : list Markup) : list RString := match l with [] => [] | k :: l' => controls k ++ go l' end) children
  end.
(** The request that an element makes when it is loaded, followed or submitted. *)
Definition form_method (attrs : list (string * RString)) : Method :=
  if decide (attr "method" attrs = Some (str "post")) then POST else GET.
(** [@get('...')] *)
Definition strip_get (v : RString) : option RString :=
  if decide (take 6 v = str "@get('") then Some (take (length v - 8) (drop 6 v)) else None.
Definition element_links (tag : string) (attrs : list (string * RString)) : list (Method * RString) :=
  match tag with
  | "a" | "link" => match attr "href" attrs with Some p => [(GET, p)] | None => [] end
  | "script" => match attr "src" attrs with Some p => [(GET, p)] | None => [] end
  | "form" => match attr "action" attrs with Some p => [(form_method attrs, p)] | None => [] end
  | _ => match attr "data-on-load" attrs ≫= strip_get with Some p => [(GET, p)] | None => [] end
  end%string.

(** Where a request of a page ends up: at a handler, at a file, or elsewhere on
    the web. *)
Definition external (p : RString) : Prop := take 8 p = str "https://".
Definition leads (l : Method * RString) : Prop :=
  (∃ ep, make_router l.1 l.2 = Found ep) ∨ is_Some (static_asset l.1 l.2) ∨ external l.2.
(** An element whose requests lead somewhere, and that, when it is a form, has the
    controls that its handler needs. *)
Definition sound (pass_is_temporary : bool) (tag : string) (attrs : list (string * RString)) (children : list Markup) : Prop :=
  Forall leads (element_links tag attrs) ∧
  (tag = "form"%string → ∃ action ep, attr "action" attrs = Some action ∧
     make_router (form_method attrs) action = Found ep ∧
     ∀ f, f ∈ required_fields pass_is_temporary ep → str f ∈ flat_map controls children).
Definition asks_temporary (page : Page) : bool := match page with PageLogin _ t => t | _ => false end.

Section PageProps.
Context `{Crypto} `{Bincode} `{DataEncoding} `{InviteCbor} `{DateTimes} (other_name : ModuleKind → RString).
Implicit Types (module_id : ModuleId) (temp : bool).

Lemma every_El P tag attrs children : every P (El tag attrs children) ↔ P tag attrs children ∧ Forall (every P) children.
Proof.
  cbn [every]. apply and_iff_compat_l. induction children as [|k children IH]; [by rewrite Forall_nil|].
  by rewrite Forall_cons, IH.
Qed.
Lemma sound_plain temp tag attrs children :
  element_links tag attrs = [] → tag ≠ "form"%string → sound temp tag attrs children.
Proof. intros Hl Ht. split; [by rewrite Hl|done]. Qed.
Lemma sound_link temp tag attrs children l :
  element_links tag attrs = [l] → leads l → tag ≠ "form"%string → sound temp tag attrs children.
Proof. intros Hl Hleads Ht. split; [by rewrite Hl; constructor|done]. Qed.
Lemma sound_form temp attrs children action ep :
  attr "action" attrs = Some action → make_router (form_method attrs) action = Found ep →
  Forall (λ f, str f ∈ flat_map controls children) (required_fields temp ep) → sound temp "form" attrs children.
Proof.
  intros Ha Hr Hf. split.
  - cbn. rewrite Ha. constructor; [|done]. left. by exists ep.
  - intros _. exists action, ep. split_and!; [done..|]. by apply Forall_forall.
Qed.
Lemma leads_route m p ep : make_router m p = Found ep → leads (m, p).
Proof. intros Hr. left. by exists ep. Qed.
Lemma leads_module module_id : (module_id ≤ u32_max)%N → leads (GET, route_module module_id).
Proof. intros Hid. eapply leads_route. rewrite <-(app_nil_r (route_module module_id)). rewrite router_below by auto. reflexivity. Qed.

(** Elements, down to those that make requests. *)
Ltac elements :=
  repeat match goal with
  | |- Forall _ [] => apply Forall_nil; exact I
  | |- Forall _ (_ :: _) => apply Forall_cons; split
  | |- Forall _ (_ ++ _) => apply Forall_app; split
  | |- Forall _ (_ <$> _) => apply Forall_fmap, Forall_forall; intros ? ?; unfold compose
  | |- every _ (Txt _) => exact I
  | |- every _ (text _) => exact I
  | |- every _ (El _ _ _) => apply every_El; split
  | |- sound _ _ _ _ => apply sound_plain; [reflexivity|discriminate]
  end.

(** A link whose address is a constant. *)
Ltac fixed_link :=
  eapply sound_link; [reflexivity| |discriminate];
  first [eapply leads_route; vm_compute; reflexivity | right; left; vm_compute; by eexists | right; right; reflexivity].

Lemma head_sound temp title : every (sound temp) (render_html_head title).
Proof. unfold render_html_head. elements; fixed_link. Qed.
Lemma navbar_module_sound temp active (k : ModuleId * ModuleKind) :
  (k.1 ≤ u32_max)%N → every (sound temp) (navbar_module other_name active k).
Proof.
  intros Hk. unfold navbar_module.
  destruct (is_module_id active k.1); elements; (eapply sound_link; [reflexivity|by apply leads_module|discriminate]).
Qed.
Lemma navbar_sound temp active kinds :
  Forall (λ k : ModuleId * ModuleKind, k.1 ≤ u32_max)%N kinds → every (sound temp) (navbar other_name active kinds).
Proof.
  intros Hk. rewrite Forall_forall in Hk. unfold navbar.
  destruct (is_general active), (is_explorer active), (is_module active); elements;
    first [by apply navbar_module_sound, Hk|fixed_link].
Qed.
Lemma html_page_sound temp active title content :
  (∀ a kinds, active = Some (a, kinds) → Forall (λ k : ModuleId * ModuleKind, k.1 ≤ u32_max)%N kinds) →
  Forall (every (sound temp)) content → every (sound temp) (html_page other_name active title content).
Proof.
  intros Hk Hc. unfold html_page. elements; [apply head_sound| |done].
  destruct active as [[a kinds]|]; elements. eapply navbar_sound, Hk. reflexivity.
Qed.

(** Templates without requests *)
Lemma text_sound temp (s : RString) : Forall (every (sound temp)) [Txt s].
Proof. elements. Qed.
Lemma error_sound temp msg : Forall (every (sound temp)) (error_fragment msg).
Proof. unfold error_fragment. elements. Qed.
Lemma table_sound temp headings rows : Forall (every (sound temp)) rows → every (sound temp) (table headings rows).
Proof. intros Hr. unfold table. elements. done. Qed.
Lemma vote_list_sound temp items : Forall (every (sound temp)) (vote_list items).
Proof. destruct items; unfold vote_list; elements. Qed.

Lemma login_content_sound temp redirect : Forall (every (sound temp)) (login_content redirect temp).
Proof.
  unfold login_content, labeled_input.
  destruct redirect, temp; elements;
    (eapply sound_form; [reflexivity|vm_compute; reflexivity|]); repeat constructor.
Qed.
Lemma init_form_sound temp target content :
  Forall (every (sound temp)) content → Forall (every (sound temp)) (init_form target content).
Proof.
  intros Hc. unfold init_form. elements; [|done]. eapply sound_form; [reflexivity|vm_compute; reflexivity|constructor].
Qed.
Lemma init_content_sound temp has_secret ephemeral : Forall (every (sound temp)) (init_content has_secret ephemeral).
Proof.
  unfold init_content, labeled_textarea. elements; apply init_form_sound;
    destruct has_secret, ephemeral; cbn [negb andb]; elements.
Qed.
Lemma status_content_sound temp peer_set own ephemeral : Forall (every (sound temp)) (status_content peer_set own ephemeral).
Proof. unfold status_content, status_row. destruct peer_set, ephemeral; elements; fixed_link. Qed.
Lemma invite_content_sound temp invite : Forall (every (sound temp)) (invite_content invite).
Proof. unfold invite_content. elements. Qed.
Lemma explorer_content_sound temp history : Forall (every (sound temp)) (explorer_content history).
Proof.
  unfold explorer_content. elements. destruct history as [|e history]; [elements|]. apply table_sound. elements.
  destruct x as [[round [header|]] [|peer peers]]; unfold history_row; elements.
Qed.

(** The forms of the modules *)
Lemma route_add_peer module_id : (module_id ≤ u32_max)%N →
  make_router POST (module_path module_id "/add_peer_vote") = Found (EpAddPeerVote module_id) ∧
  make_router POST (module_path module_id "/remove_peer_vote") = Found (EpRemovePeerVote module_id) ∧
  make_router POST (module_path module_id "/add_module_vote") = Found (EpAddModuleVote module_id) ∧
  make_router GET (module_path module_id "/meta_key_redirect") = Found (EpMetaKeyRedirect module_id).
Proof. intros Hid. unfold module_path. split_and!; (rewrite router_below; [reflexivity|done|right; by eexists]). Qed.
Lemma route_meta_vote module_id key : (module_id ≤ u32_max)%N → (key ≤ u8_max)%N →
  make_router POST (vote_action module_id key) = Found (EpMetaVote module_id key).
Proof.
  intros Hid Hk. unfold vote_action, route_meta_key. rewrite <-!app_assoc. rewrite router_below; [|done|right; by eexists].
  assert (split_on 47 (str "meta_key" ++ [47%N] ++ display key ++ [47%N] ++ str "vote") = [str "meta_key"; display key; str "vote"]) as Hs.
  { rewrite split_on_app by (vm_compute; set_solver). rewrite split_on_app by by apply not_digit_display. reflexivity. }
  change (match str "/meta_key/" ++ display key ++ str "/vote" with [] => [] | _ :: r => split_on 47 r end)
    with (split_on 47 (str "meta_key" ++ [47%N] ++ display key ++ [47%N] ++ str "vote")).
  rewrite Hs. rewrite decide_True by (split; [done|apply display_nonempty]). rewrite decide_True by done.
  cbn [post]. by rewrite path_number_display by (unfold u8_max in *; lia).
Qed.
Lemma ctrl_content_sound temp module_id configs peer_set adds removes votes available :
  (module_id ≤ u32_max)%N →
  Forall (every (sound temp)) (ctrl_content module_id configs peer_set adds removes votes available).
Proof.
  intros Hid. destruct (route_add_peer _ Hid) as (Hadd & Hremove & Hmodule & _).
  unfold ctrl_content, peer_vote_form, add_module_form, config_row.
  destruct available as [|o available]; elements; try apply vote_list_sound; try (apply table_sound; elements);
    (eapply sound_form; [reflexivity|eassumption|]); repeat constructor.
Qed.
Lemma meta_content_sound temp module_id values : (module_id ≤ u32_max)%N → Forall (every (sound temp)) (meta_content module_id values).
Proof.
  intros Hid. destruct (route_add_peer _ Hid) as (_ & _ & _ & Hredirect). unfold meta_content, key_option, value_row.
  destruct values; elements; try (apply table_sound; elements); (eapply sound_form; [reflexivity|eassumption|]).
  all: repeat constructor.
Qed.
Lemma meta_key_content_sound temp module_id key current votes :
  (module_id ≤ u32_max)%N → (key ≤ u8_max)%N → Forall (every (sound temp)) (meta_key_content module_id key current votes).
Proof.
  intros Hid Hk. pose proof (route_meta_vote _ _ Hid Hk) as Hvote. unfold meta_key_content, vote_row.
  destruct current, votes; elements; try (apply table_sound; elements);
    first [eapply sound_link; [reflexivity|by apply leads_module|discriminate]
          |eapply sound_form; [reflexivity|exact Hvote|repeat constructor]].
Qed.
End PageProps.

(** ** The requests that the router takes *)
Definition endpoint_wf (ep : Endpoint) : Prop :=
  match ep with
  | EpModule id | EpAddPeerVote id | EpRemovePeerVote id | EpAddModuleVote id | EpMetaKeyRedirect id => id ≤ u32_max
  | EpMetaKey id key | EpMetaVote id key => id ≤ u32_max ∧ key ≤ u8_max
  | _ => True
  end%N.
Lemma parse_digits_le mx acc s n : (acc ≤ mx)%N → parse_digits mx acc s = Some n → (n ≤ mx)%N.
Proof.
  revert acc. induction s as [|c s IH]; intros acc Hacc; cbn; [by intros [= <-]|].
  destruct (is_digit c); [|done]. destruct (N.leb_spec (acc * 10 + (c - 48)) mx); [by apply IH|done].
Qed.
Lemma path_number_found mx segment f ep :
  path_number mx segment f = Found ep → ∃ k, (k ≤ mx)%N ∧ f k = Found ep.
Proof.
  unfold path_number. destruct (parse_uint mx segment) as [k|] eqn:Hk; [|done]. intros Hf. exists k. split; [|done].
  unfold parse_uint in Hk. destruct segment as [|c s]; [done|].
  destruct (c =? 43)%N; [destruct s; [done|]|]; by eapply parse_digits_le, Hk; apply N.le_0_l.
Qed.
Lemma router_wf m p ep : make_router m p = Found ep → endpoint_wf ep.
Proof.
  unfold make_router, get, post, get_post. intros Hr.
  repeat first
    [ progress (destruct m; try done)
    | match type of Hr with
      | path_number _ _ _ = _ => apply path_number_found in Hr as (? & ? & Hr)
      | match ?x with _ => _ end = _ => destruct x; try done
      | (if ?x then _ else _) = _ => destruct x; try done
      end ];
    by injection Hr as <-.
Qed.

(** What [required_fields] says is so: without the field the handler refuses the
    form and does nothing. *)
Lemma required_field_missing `{Crypto} `{Bincode} `{CItemsCodec} `{Bao} `{Hashable AddressUpdate.t} `{CtrlCodecs} `{MetaCodecs}
    `{HexLib} `{UiTexts} srv now sid ep f (fields : gmap string RString) w :
  f ∈ required_fields false ep → fields !! f = None →
  ∃ status, endpoint srv now sid ep fields w = (Ok (Some (rejected status)), w).
Proof.
  intros Hf Hn. destruct ep; cbn in Hf; try (by apply not_elem_of_nil in Hf);
    apply list_elem_of_singleton in Hf as ->; cbn [endpoint];
    unfold login_post, post_add_peer_vote, post_remove_peer_vote, post_add_module_vote, get_meta_key_redirect, post_meta_vote;
    rewrite Hn; by eexists.
Qed.

(** C34: the pages lead somewhere, and their forms suffice.  Whatever page the
    interface answers a request with, and whatever modules the bar shows: every
    link, file and event stream of the page is at a route of the interface or at a
    file that it serves (or elsewhere on the web), with the method of the route;
    and every form goes to a handler and has a control for each field that this
    handler needs, the temporary password included when there is one. *)
Theorem pages_lead_to_routes `{Crypto} `{Bincode} `{DataEncoding} `{InviteCbor} `{DateTimes} (other_name : ModuleKind → RString)
    (m : Method) (p : RString) (ep : Endpoint) (page : Page) (kinds : list (ModuleId * ModuleKind)) :
  make_router m p = Found ep → Forall (λ k : ModuleId * ModuleKind, k.1 ≤ u32_max)%N kinds →
  Forall (every (sound (asks_temporary page))) (document other_name ep page kinds).
Proof.
  intros Hr%router_wf Hk.
  assert (∀ temp active title content, Forall (every (sound temp)) content →
    Forall (every (sound temp)) [html_page other_name (Some (active, kinds)) title content]) as Hnav.
  { intros temp active title content Hc. constructor; [|constructor]. apply html_page_sound; [|done]. by intros ? ? [= <- <-]. }
  assert (∀ temp title content, Forall (every (sound temp)) content →
    Forall (every (sound temp)) [html_page other_name None title content]) as Hplain.
  { intros temp title content Hc. constructor; [|constructor]. by apply html_page_sound. }
  unfold document. destruct page; cbn [asks_temporary].
  - apply Hplain, login_content_sound.
  - apply Hplain, init_content_sound.
  - apply Hnav, status_content_sound.
  - apply Hnav, explorer_content_sound.
  - apply Hnav, invite_content_sound.
  - destruct ep; try (apply Forall_nil; exact I). apply Hnav, text_sound.
  - destruct ep; try (apply Forall_nil; exact I). apply Hnav, text_sound.
  - destruct ep; try (apply Forall_nil; exact I). apply Hnav, text_sound.
  - destruct ep; try (apply Forall_nil; exact I). by apply Hnav, ctrl_content_sound.
  - destruct ep; try (apply Forall_nil; exact I). by apply Hnav, meta_content_sound.
  - destruct ep; try (apply Forall_nil; exact I). destruct Hr. by apply Hnav, meta_key_content_sound.
  - apply error_sound.
Qed.

(** The page of a peer that votes on a key of the meta module *)
Section PageWitnesses.
Local Existing Instance Toy.crypto.
Local Existing Instance Toy.bincode.
Local Instance plain_encoding : DataEncoding :=
  {| BASE32_DNSCURVE := MkEncoding id Some; BASE32_NOPAD := MkEncoding id Some; BASE64_URL := MkEncoding id Some |}.
Local Instance toy_cbor : InviteCbor := {| cbor_to_vec := λ _, [1]%N; cbor_from_slice := λ _, None |}.
Local Instance toy_dates : DateTimes :=
  {| DateTime := N; from_unix_timestamp_nanos := Some; rfc3339 := λ t, Some (display t) |}.

Definition key_page : Page := PageMetaKey 7 (Some (str "old")) [(3%N, str "new")].
Definition key_document : Template := document (λ _, []) (EpMetaKey 1 7) key_page [(0, CTRL_KIND); (1, META_KIND)]%N.
Lemma pages_lead_to_routes_witness :
  make_router GET (str "/ui/module/1/meta_key/7") = Found (EpMetaKey 1 7) ∧
  Forall (every (sound false)) key_document ∧
  str "value" ∈ flat_map controls key_document.
Proof.
  split; [reflexivity|]. split.
  - apply (pages_lead_to_routes (λ _, []) GET (str "/ui/module/1/meta_key/7") (EpMetaKey 1 7) key_page
      [(0, CTRL_KIND); (1, META_KIND)]%N).
    + reflexivity.
    + repeat constructor; vm_compute; discriminate.
  - apply (bool_decide_unpack _). vm_compute. exact I.
Defined.

(** The timestamp of a block is the leader's word.  A later one than the year 2554
    is shown as a date at the beginning of the count, not as invalid. *)
Example far_timestamp_shown_as_1970 : to_datetime 18446744073709552 = Some 384%N.
Proof. reflexivity. Qed.
End PageWitnesses.
