(* ===== verification/Shared.v ===== *)
(** * The lock around the modules ([node-shared-modules/src/lib.rs])

    [SharedModules] is a map of modules behind a read-write lock of tokio.  The
    application layer owns it; the web interface and the consensus tasks read it
    through weak references.  What each of them does with the lock is a program
    of [Acquire]s and [Release]s here, and the tasks of a node run their programs
    at the same time.

    The lock itself is tokio's.  [RwLock] has what its documentation says: writers
    are alone; requests are queued first-in, first-out; and a read lock is not
    given out until all write lock requests that were queued before it have been
    acquired and released. *)
From S2P Require Import Prelude.

Inductive Mode := Shared | Exclusive.
Global Instance Mode_eq_dec : EqDecision Mode.
Proof. solve_decision. Defined.
Inductive LockOp := Acquire (m : Mode) | Release.
Global Instance LockOp_eq_dec : EqDecision LockOp.
Proof. solve_decision. Defined.

Abbreviation TaskId := N.
(** Who holds the lock, and who waits for it, in the order of asking. *)
Record LockState := MkLockState {
  holders : list (TaskId * Mode);
  queue : list (TaskId * Mode);
}.
Definition compatible (l : LockState) (m : Mode) : bool :=
  match m with
  | Shared => forallb (λ h, bool_decide (h.2 = Shared)) (holders l)
  | Exclusive => bool_decide (holders l = [])
  end.

(** Which waiting request may be granted now. *)
Class RwLock := may_grant : LockState → TaskId * Mode → bool.
Class RwLockLaws `{RwLock} := {
  grant_compatible : ∀ l x, may_grant l x = true → compatible l x.2 = true;
  grant_fair : ∀ l x, may_grant l x = true →
    ∃ before after, queue l = before ++ x :: after ∧ ∀ y, y ∈ before → y.2 = Shared ∧ x.2 = Shared;
  grant_first : ∀ l x rest, queue l = x :: rest → compatible l x.2 = true → may_grant l x = true;
}.

(** ** What the parts of a node do with the lock *)
Definition read_once : list LockOp := [Acquire Shared; Release].
Definition write_once : list LockOp := [Acquire Exclusive; Release].

(** [wait_consensus_proposal], and [get_modules_kinds] for the bar of a page *)
Definition wait_consensus_proposal_lock : list LockOp := read_once.
Definition get_modules_kinds_lock : list LockOp := read_once.
(** A handler that votes keeps the module while it calls it ([post_add_peer_vote]). *)
Definition module_vote_lock : list LockOp := read_once.
(** The page of a module, and the overview, give the module back before the page
    is rendered with its bar. *)
Definition module_page_lock : list LockOp := read_once ++ get_modules_kinds_lock.
(** [get_meta_key] renders the page while it keeps the module. *)
Definition meta_key_lock : list LockOp := Acquire Shared :: get_modules_kinds_lock ++ [Release].
(** [NodeApp::run] before its loop, [reload_invalidated_copies], [process_citem_try] *)
Definition app_start_lock : list LockOp := write_once ++ write_once ++ read_once.
Definition app_reload_lock (peer_set_is_none modules_configs_is_none : bool) : list LockOp :=
  (if peer_set_is_none then read_once else []) ++
  (if modules_configs_is_none then read_once ++ write_once else []).
Definition app_item_lock : list LockOp := read_once.

Inductive LockUse :=
  | UseProposals | UseNavbar | UseModuleVote | UseModulePage | UseMetaKey
  | AppStart | AppReload (peer_set_is_none modules_configs_is_none : bool) | AppItem.
Definition lock_ops (u : LockUse) : list LockOp :=
  match u with
  | UseProposals => wait_consensus_proposal_lock
  | UseNavbar => get_modules_kinds_lock
  | UseModuleVote => module_vote_lock
  | UseModulePage => module_page_lock
  | UseMetaKey => meta_key_lock
  | AppStart => app_start_lock
  | AppReload peer_set_is_none modules_configs_is_none => app_reload_lock peer_set_is_none modules_configs_is_none
  | AppItem => app_item_lock
  end.

(** ** Tasks that run at the same time *)
Record LockWorld := MkLockWorld { lock : LockState; programs : gmap TaskId (list LockOp) }.

Fixpoint remove_first {A} `{EqDecision A} (x : A) (l : list A) : list A :=
  match l with [] => [] | y :: l' => if decide (x = y) then l' else y :: remove_first x l' end.
Definition asks t m (w : LockWorld) : LockWorld :=
  MkLockWorld (MkLockState (holders (lock w)) (queue (lock w) ++ [(t, m)])) (programs w).
Definition gets t m p (w : LockWorld) : LockWorld :=
  MkLockWorld (MkLockState ((t, m) :: holders (lock w)) (remove_first (t, m) (queue (lock w))))
    (<[t := p]> (programs w)).
Definition drops t m p (w : LockWorld) : LockWorld :=
  MkLockWorld (MkLockState (remove_first (t, m) (holders (lock w))) (queue (lock w))) (<[t := p]> (programs w)).

Section Lock.
Context `{RwLock}.
Implicit Types (w : LockWorld) (t : TaskId) (p : list LockOp).

Inductive lock_step w : LockWorld → Prop :=
  | step_ask t m p : programs w !! t = Some (Acquire m :: p) → (∀ m', (t, m') ∉ queue (lock w)) →
      lock_step w (asks t m w)
  | step_grant t m p : programs w !! t = Some (Acquire m :: p) → (t, m) ∈ queue (lock w) →
      may_grant (lock w) (t, m) = true → lock_step w (gets t m p w)
  | step_release t m p : programs w !! t = Some (Release :: p) → (t, m) ∈ holders (lock w) →
      lock_step w (drops t m p w).
(** A task begins another use of the lock when it has ended the one before. *)
Inductive spawn_step (allowed : LockUse → Prop) w : LockWorld → Prop :=
  | step_spawn t u : default [] (programs w !! t) = [] → allowed u →
      spawn_step allowed w (MkLockWorld (lock w) (<[t := lock_ops u]> (programs w))).
Definition any_step (allowed : LockUse → Prop) w w' : Prop := lock_step w w' ∨ spawn_step allowed w w'.
End Lock.
Definition idle : LockWorld := MkLockWorld (MkLockState [] []) ∅.

Lemma elem_of_remove_first {A} `{EqDecision A} (x y : A) l : x ≠ y → y ∈ remove_first x l ↔ y ∈ l.
Proof.
  intros Hne. induction l as [|z l IH]; [done|]. cbn. case_decide as Hz.
  - subst z. rewrite elem_of_cons. naive_solver.
  - by rewrite !elem_of_cons, IH.
Qed.
Lemma remove_first_incl {A} `{EqDecision A} (x y : A) l : y ∈ remove_first x l → y ∈ l.
Proof.
  induction l as [|z l IH]; [done|]. cbn. case_decide; [by right|]. rewrite !elem_of_cons. naive_solver.
Qed.
Lemma NoDup_remove_first (x : TaskId * Mode) l :
  NoDup l.*1 → NoDup (remove_first x l).*1 ∧ ∀ m, x ∈ l → (x.1, m) ∉ remove_first x l.
Proof.
  induction l as [|z l IH]; [by split; [constructor|intros ? ?%not_elem_of_nil]|]. cbn.
  intros [Hz Hnd]%NoDup_cons. destruct (IH Hnd) as [Hnd' Hx]. case_decide as Heq.
  - subst z. split; [done|]. intros m _ Hin. by apply Hz, list_elem_of_fmap_2' with (x := (x.1, m)).
  - split.
    + cbn. constructor; [|done]. intros ([t m] & Ht & Hin%remove_first_incl)%list_elem_of_fmap.
      apply Hz, list_elem_of_fmap. by exists (t, m).
    + intros m [->|Hin]%elem_of_cons; [done|]. rewrite elem_of_cons. intros [<-|Hm]; [|by eapply Hx].
      apply Hz, list_elem_of_fmap. by exists x.
Qed.

(** ** A deadlock

    Task [u] renders the page of a key and keeps the module; task [a] is the
    application, which waits to change the modules; and [u] asks for the lock
    again, behind [a]. *)
Definition ahead (a u : TaskId) (q : list (TaskId * Mode)) : Prop :=
  ∃ before after, q = before ++ (a, Exclusive) :: after ∧ ∀ m, (u, m) ∉ before.
Definition blocked (a u : TaskId) (w : LockWorld) : Prop :=
  programs w !! u = Some [Acquire Shared; Release; Release] ∧
  programs w !! a = Some [Acquire Exclusive; Release] ∧
  (u, Shared) ∈ holders (lock w) ∧ ahead a u (queue (lock w)).

Lemma ahead_remove_first a u x q : x ≠ (a, Exclusive) → ahead a u q → ahead a u (remove_first x q).
Proof.
  intros Hx (before & after & -> & Hb).
  induction before as [|y before IH]; cbn.
  - rewrite decide_False by done. exists [], (remove_first x after). by split.
  - case_decide as Hy; [exists before, after; split; [done|]; intros m Hm; apply (Hb m); by right|].
    destruct IH as (b' & a' & Heq & Hb'); [intros m Hm; apply (Hb m); by right|].
    exists (y :: b'), a'. rewrite Heq. split; [done|]. intros m [<-|Hm]%elem_of_cons; [|by apply (Hb' m)].
    apply (Hb m). by left.
Qed.
Lemma ahead_asks a u x q : ahead a u q → ahead a u (q ++ [x]).
Proof. intros (before & after & -> & Hb). exists before, (after ++ [x]). by rewrite <- app_assoc. Qed.
(** A request behind that of a writer is not granted. *)
Lemma ahead_in_front a u x before after :
  ahead a u (before ++ x :: after) → x.1 = u → x ≠ (a, Exclusive) → (a, Exclusive) ∈ before.
Proof.
  intros (b & a' & Heq & Hb) Hx Hne. revert b Heq Hb. induction before as [|y before IH]; intros [|z b] [= Hy Heq] Hb.
  - done.
  - subst z. destruct x as [t m]. cbn in Hx. subst t. destruct (Hb m). by left.
  - subst y. by left.
  - right. apply (IH b Heq). intros m Hm. apply (Hb m). by right.
Qed.

Section Deadlock.
Context `{RwLockLaws}.

Lemma blocked_step allowed a u w w' : a ≠ u → any_step allowed w w' → blocked a u w → blocked a u w'.
Proof.
  intros Hau Hstep (Hu & Ha & Hh & Hq). destruct Hstep as [[t m p Ht Hnew|t m p Ht Hin Hg|t m p Ht Hin]|[t use Hdone _]].
  - split_and!; [done..|]. by apply ahead_asks.
  - destruct (decide (t = a)) as [->|Hta].
    { rewrite Ha in Ht. injection Ht as <- <-. apply grant_compatible in Hg. cbn in Hg.
      apply bool_decide_eq_true in Hg. rewrite Hg in Hh. by apply not_elem_of_nil in Hh. }
    destruct (decide (t = u)) as [->|Htu].
    { rewrite Hu in Ht. injection Ht as <- <-. destruct (grant_fair _ _ Hg) as (before & after & Heq & Hbefore).
      rewrite Heq in Hq. apply ahead_in_front in Hq; [|done|naive_solver]. by destruct (Hbefore _ Hq). }
    split_and!; cbn; [by rewrite lookup_insert_ne..|by right|]. apply ahead_remove_first; [naive_solver|done].
  - assert (t ≠ u) as Htu by (intros ->; rewrite Hu in Ht; done).
    assert (t ≠ a) as Hta by (intros ->; rewrite Ha in Ht; done).
    split_and!; cbn; [by rewrite lookup_insert_ne..| |done]. apply elem_of_remove_first; [naive_solver|done].
  - assert (t ≠ u) as Htu by (intros ->; rewrite Hu in Hdone; done).
    assert (t ≠ a) as Hta by (intros ->; rewrite Ha in Hdone; done).
    split_and!; cbn; [by rewrite lookup_insert_ne..|done|done].
Qed.

(** C33: the page of a key can stop a node for good.  A page of a key of the meta
    module and a change of the modules can come to a state from which neither
    of them makes a step again, whatever the other tasks of the node do. *)
Theorem meta_key_page_deadlocks :
  ∃ w, rtc (any_step (λ u, u = UseMetaKey ∨ u = AppReload false true)) idle w ∧
    ∀ w', rtc (any_step (λ _, True)) w w' →
      programs w' !! 1%N = Some [Acquire Shared; Release; Release] ∧
      programs w' !! 2%N = Some [Acquire Exclusive; Release].
Proof.
  eexists. split.
  - eapply rtc_l; [right; apply (step_spawn _ _ 1%N UseMetaKey); [done|by left]|].
    eapply rtc_l; [left; eapply (step_ask _ 1%N); [reflexivity|intros m; apply not_elem_of_nil]|].
    eapply rtc_l; [left; eapply (step_grant _ 1%N); [reflexivity|by left|by eapply grant_first]|].
    eapply rtc_l; [right; apply (step_spawn _ _ 2%N (AppReload false true)); [done|by right]|].
    eapply rtc_l; [left; eapply (step_ask _ 2%N); [reflexivity|intros m; apply not_elem_of_nil]|].
    eapply rtc_l; [left; eapply (step_grant _ 2%N); [reflexivity|by left|by eapply grant_first]|].
    eapply rtc_l; [left; eapply (step_release _ 2%N Shared); [reflexivity|by left]|].
    eapply rtc_l; [left; eapply (step_ask _ 2%N); [reflexivity|intros m; apply not_elem_of_nil]|].
    eapply rtc_l; [left; eapply (step_ask _ 1%N); [reflexivity|]|apply rtc_refl].
    cbn. intros m Hm. apply list_elem_of_singleton in Hm. done.
  - intros w' Hr. assert (blocked 2%N 1%N w') as (Hu & Ha & _); [|done].
    match type of Hr with rtc _ ?w _ => assert (blocked 2%N 1%N w) as Hb end.
    { split_and!; [done|done|by left|]. exists [], [(1%N, Shared)]. split; [done|]. intros m. apply not_elem_of_nil. }
    induction Hr as [|w w1 w2 Hstep _ IH]; [done|]. by eapply IH, blocked_step.
Qed.
End Deadlock.

(** ** Without that page there is no deadlock

    All other parts give the lock back before they ask for it again. *)
Fixpoint flat (p : list LockOp) : bool :=
  match p with
  | [] => true
  | Acquire _ :: Release :: p' => flat p'
  | _ => false
  end.
Lemma lock_ops_flat u : u ≠ UseMetaKey → flat (lock_ops u) = true.
Proof. by destruct u as [| | | | | |[] []|]. Qed.

Record lock_inv (w : LockWorld) : Prop := {
  li_holders : NoDup (holders (lock w)).*1;
  li_holds : ∀ t m, (t, m) ∈ holders (lock w) → ∃ p, programs w !! t = Some (Release :: p);
  li_waits : ∀ t m, (t, m) ∈ queue (lock w) → ∃ p, programs w !! t = Some (Acquire m :: p);
  li_programs : ∀ t p, programs w !! t = Some p →
    flat p = true ∨ ∃ p', p = Release :: p' ∧ flat p' = true ∧ ∃ m, (t, m) ∈ holders (lock w);
  li_queue : NoDup (queue (lock w)).*1;
}.

Section NoDeadlock.
Context `{RwLockLaws}.

Lemma lock_inv_idle : lock_inv idle.
Proof.
  split; cbn; [constructor|by intros ? ? ?%not_elem_of_nil|by intros ? ? ?%not_elem_of_nil| |constructor].
  intros t p. by rewrite lookup_empty.
Qed.

Lemma not_holding w t p : lock_inv w → programs w !! t = Some p → flat p = true → ∀ m, (t, m) ∉ holders (lock w).
Proof. intros Hw Hp Hf m Hm. destruct (li_holds _ Hw t m Hm) as [q Hq]. rewrite Hp in Hq. injection Hq as ->. done. Qed.

Lemma lock_inv_ask w t m p :
  programs w !! t = Some (Acquire m :: p) → (∀ m', (t, m') ∉ queue (lock w)) → lock_inv w → lock_inv (asks t m w).
Proof.
  intros Ht Hnew Hw. split; cbn; [by apply Hw|by apply Hw| |by apply Hw|].
  - intros t' m' [Hin|Heq%list_elem_of_singleton]%elem_of_app; [by apply Hw|]. injection Heq as -> ->. eauto.
  - rewrite fmap_app. apply NoDup_app. split_and!; [by apply Hw| |apply NoDup_singleton].
    intros t' ([t'' m'] & -> & Hin)%list_elem_of_fmap Ht'%list_elem_of_singleton. cbn in Ht'. subst t''. by apply (Hnew m').
Qed.

Lemma lock_inv_grant w t m p :
  programs w !! t = Some (Acquire m :: p) → (t, m) ∈ queue (lock w) → lock_inv w → lock_inv (gets t m p w).
Proof.
  intros Ht Hin Hw. assert (flat (Acquire m :: p) = true) as Hf.
  { destruct (li_programs _ Hw _ _ Ht) as [?|(p' & [=] & _)]. done. }
  pose proof (not_holding _ _ _ Hw Ht Hf) as Hfree. destruct p as [|[|] p]; [done|done|].
  destruct (NoDup_remove_first (t, m) (queue (lock w)) (li_queue _ Hw)) as [Hnd Hout]. split; cbn.
  - constructor; [|by apply Hw]. intros ([t' m'] & Heq & Hin')%list_elem_of_fmap. cbn in Heq. subst t'.
    by apply (Hfree m').
  - intros t' m' [[= -> ->]|Hh]%elem_of_cons; [rewrite lookup_insert_eq; eauto|].
    rewrite lookup_insert_ne; [by eapply Hw|]. intros ->. by apply (Hfree m').
  - intros t' m' Hq. destruct (decide (t' = t)) as [->|Hne]; [by destruct (Hout m')|].
    rewrite lookup_insert_ne by done. by eapply li_waits, remove_first_incl.
  - intros t' p' [[<- <-]|[Hne Hp']]%lookup_insert_Some.
    + right. exists p. split_and!; [done|done|]. exists m. by left.
    + destruct (li_programs _ Hw _ _ Hp') as [?|(p'' & ? & ? & m' & ?)]; [by left|right].
      exists p''. split_and!; [done..|]. exists m'. by right.
  - done.
Qed.

Lemma lock_inv_release w t m p :
  programs w !! t = Some (Release :: p) → (t, m) ∈ holders (lock w) → lock_inv w → lock_inv (drops t m p w).
Proof.
  intros Ht Hin Hw. destruct (li_programs _ Hw _ _ Ht) as [Hf|(p' & [= <-] & Hf & _)]; [done|].
  destruct (NoDup_remove_first (t, m) (holders (lock w)) (li_holders _ Hw)) as [Hnd Hout]. split; cbn.
  - done.
  - intros t' m' Hh. destruct (decide (t' = t)) as [->|Hne]; [by destruct (Hout m')|].
    rewrite lookup_insert_ne by done. by eapply li_holds, remove_first_incl.
  - intros t' m' Hq. destruct (li_waits _ Hw t' m' Hq) as [q Hq']. rewrite lookup_insert_ne; [eauto|].
    intros ->. rewrite Ht in Hq'. done.
  - intros t' p' [[<- <-]|[Hne Hp']]%lookup_insert_Some; [by left|].
    destruct (li_programs _ Hw _ _ Hp') as [?|(p'' & ? & ? & m' & ?)]; [by left|right].
    exists p''. split_and!; [done..|]. exists m'. apply elem_of_remove_first; [naive_solver|done].
  - by apply Hw.
Qed.

Lemma lock_inv_spawn w t u :
  default [] (programs w !! t) = [] → u ≠ UseMetaKey → lock_inv w →
  lock_inv (MkLockWorld (lock w) (<[t := lock_ops u]> (programs w))).
Proof.
  intros Hdone Huse Hw. assert (∀ m, (t, m) ∉ holders (lock w)) as Hfree.
  { intros m Hm. destruct (li_holds _ Hw t m Hm) as [q Hq]. rewrite Hq in Hdone. done. }
  split; cbn; [by apply Hw| | | |by apply Hw].
  - intros t' m' Hh. rewrite lookup_insert_ne; [by eapply Hw|]. intros ->. by apply (Hfree m').
  - intros t' m' Hq. destruct (li_waits _ Hw t' m' Hq) as [q Hq']. rewrite lookup_insert_ne; [eauto|].
    intros ->. rewrite Hq' in Hdone. done.
  - intros t' p' [[<- <-]|[Hne Hp']]%lookup_insert_Some; [left; by apply lock_ops_flat|by apply Hw].
Qed.

Lemma lock_inv_step w w' : any_step (λ u, u ≠ UseMetaKey) w w' → lock_inv w → lock_inv w'.
Proof.
  intros [[t m p Ht Hnew|t m p Ht Hin _|t m p Ht Hin]|[t u Hdone Hu]] Hw.
  - by eapply lock_inv_ask.
  - by eapply lock_inv_grant.
  - by eapply lock_inv_release.
  - by apply lock_inv_spawn.
Qed.

(** C32: the rest of the node never blocks itself.  As long as no page of a key is
    rendered, some task that is not at its end can always make a step: whatever
    the application, the consensus tasks and the other pages do with the lock, in
    any order, none of them can wait for each other in a circle. *)
Theorem modules_lock_no_deadlock w :
  rtc (any_step (λ u, u ≠ UseMetaKey)) idle w → (∃ t p, programs w !! t = Some p ∧ p ≠ []) →
  ∃ w', lock_step w w'.
Proof.
  intros Hr (t & p & Hp & Hne).
  assert (lock_inv w) as Hw.
  { pose proof lock_inv_idle as Hi. induction Hr as [|? ? ? Hstep _ IH]; [done|]. by eapply IH, lock_inv_step. }
  destruct (queue (lock w)) as [|[t' m'] q] eqn:Hq.
  - destruct (li_programs _ Hw t p Hp) as [Hf|(p' & -> & _ & m & Hm)].
    + destruct p as [|[m|] p]; [done| |done]. eexists. eapply step_ask; [exact Hp|].
      intros m'. rewrite Hq. apply not_elem_of_nil.
    + eexists. by eapply step_release.
  - assert ((t', m') ∈ queue (lock w)) as Hin by (rewrite Hq; by left).
    destruct (li_waits _ Hw t' m' Hin) as [p' Hp'].
    destruct (compatible (lock w) m') eqn:Hc.
    + eexists. eapply step_grant; [exact Hp'|exact Hin|]. by eapply grant_first.
    + assert (∃ h, h ∈ holders (lock w)) as [[h mh] Hh].
      { destruct (holders (lock w)) as [|h l] eqn:Hh; [|exists h; by left].
        unfold compatible in Hc. rewrite Hh in Hc. by destruct m'. }
      destruct (li_holds _ Hw h mh Hh) as [q' Hq']. eexists. by eapply step_release.
Qed.
End NoDeadlock.

(** ** A concrete lock: a queue *)
Section Witnesses.
Local Instance fifo_lock : RwLock := λ l x,
  compatible l x.2 && match queue l with y :: _ => bool_decide (y = x) | [] => false end.
Local Instance fifo_lock_laws : RwLockLaws.
Proof.
  split; unfold may_grant, fifo_lock; intros l x.
  - by intros [? _]%andb_true_iff.
  - intros [_ Hq]%andb_true_iff. destruct (queue l) as [|y q]; [done|]. apply bool_decide_eq_true in Hq as ->.
    exists [], q. split; [done|]. by intros y ?%not_elem_of_nil.
  - intros rest -> ->. by rewrite bool_decide_true.
Qed.

Lemma meta_key_page_deadlocks_witness :
  ∃ w, rtc (any_step (λ u, u = UseMetaKey ∨ u = AppReload false true)) idle w ∧
    programs w !! 2%N = Some [Acquire Exclusive; Release].
Proof.
  destruct meta_key_page_deadlocks as (w & Hr & Hstuck). exists w. split; [exact Hr|].
  apply (Hstuck w). apply rtc_refl.
Defined.
Lemma modules_lock_no_deadlock_witness :
  ∃ w', lock_step (MkLockWorld (lock idle) (<[7%N := lock_ops AppItem]> (programs idle))) w'.
Proof.
  apply modules_lock_no_deadlock.
  - eapply rtc_l; [right; apply (step_spawn _ _ 7%N AppItem); [reflexivity|discriminate]|apply rtc_refl].
  - exists 7%N, read_once. split; [reflexivity|discriminate].
Defined.
End Witnesses.
