(* ===== verification/Proposals.v ===== *)
(** * What a node proposes, and when ([node-shared-modules/src/lib.rs],
      [node/src/run_consensus.rs])

    The leader of a round waits for a reason to propose a block.  Most of the
    time this is an item that one of the modules wants voted on.  The modules are
    owned by the application layer, which replaces them while others read them;
    so the wait ([wait_fresh_consensus_proposal]) subscribes to the channels of
    the modules, gives the lock back, and starts again when the modules change.

    Tasks and the rest of the node run at the same time: every read of a channel
    is a step of its own, and anything may happen between two steps. *)
From S2P Require Import Prelude Peers Core Module Ctrl NodeApp.

(** ** The shared state that the wait reads *)
Abbreviation ChanId := N (only parsing).
Record Shown := MkShown {
  shown_ack : BlockRound;
  shown_finality : BlockRound;
  (** how often [finality_consensus] was sent *)
  shown_finality_version : N;
  (** the loaded modules, each with the channel of its proposed items *)
  shown_modules : gmap ModuleId ChanId;
  shown_chans : gmap ChanId (list CItemRaw);
  (** how often [send_changed] was called *)
  shown_updates : N;
}.
Definition proposed (e : Shown) (c : ChanId) : list CItemRaw := default [] (shown_chans e !! c).
Definition nothing (items : list CItemRaw) : bool := match items with [] => true | _ => false end.

(** [CItem::PeerCItem(ModuleDyn::new(module_id, citem.clone()))] *)
Definition to_citems (module_id : ModuleId) (items : list CItemRaw) : list CItem := PeerCItem module_id <$> items.

(** ** [wait_fresh_consensus_proposal]

    [FreshAck]: waiting for the application to acknowledge the finality;
    [FreshLock]: waiting for the read lock; [FreshPoll]: in the loop over the
    modules, under the lock, with the streams so far; [FreshStreams]: waiting for
    one of the streams.  [seen] is what [mark_unchanged] has marked. *)
Inductive FreshStage :=
  | FreshAck
  | FreshLock (seen : N)
  | FreshPoll (seen : N) (rest streams : list (ModuleId * ChanId))
  | FreshStreams (seen : N) (streams : list (ModuleId * ChanId))
  | FreshDone (citems : list CItem).

Inductive fresh_step (e : Shown) : FreshStage → FreshStage → Prop :=
  | fresh_ack : shown_ack e = shown_finality e → fresh_step e FreshAck (FreshLock (shown_updates e))
  | fresh_lock seen : fresh_step e (FreshLock seen) (FreshPoll seen (entries (shown_modules e)) [])
  | fresh_poll_found seen module_id c rest streams :
      nothing (proposed e c) = false →
      fresh_step e (FreshPoll seen ((module_id, c) :: rest) streams) (FreshDone (to_citems module_id (proposed e c)))
  | fresh_poll_next seen module_id c rest streams :
      nothing (proposed e c) = true →
      fresh_step e (FreshPoll seen ((module_id, c) :: rest) streams) (FreshPoll seen rest (streams ++ [(module_id, c)]))
  | fresh_poll_end seen streams : fresh_step e (FreshPoll seen [] streams) (FreshStreams seen streams)
  | fresh_stream seen streams module_id c :
      (module_id, c) ∈ streams → nothing (proposed e c) = false →
      fresh_step e (FreshStreams seen streams) (FreshDone (to_citems module_id (proposed e c)))
  (** the other branch of the [select!], at the points where the first waits *)
  | fresh_changed_lock seen : shown_updates e ≠ seen → fresh_step e (FreshLock seen) FreshAck
  | fresh_changed seen streams : shown_updates e ≠ seen → fresh_step e (FreshStreams seen streams) FreshAck.

Definition reading (s : FreshStage) : Prop := match s with FreshPoll _ _ _ => True | _ => False end.

(** ** Access to the modules by others

    The owner's map, or nothing when the owner is gone ([Weak::upgrade]).  A
    method that would wait for a map that is gone never answers. *)
Section Access.
Context {Y : Type}.
Implicit Types (inner : option (gmap ModuleId (DynModule (Y:=Y)))).

Inductive ModuleGetError := ShuttingDown.
Definition weak_get inner (id : ModuleId) : outcome ModuleGetError (option (DynModule (Y:=Y))) :=
  match inner with
  | Some modules => Ok (modules !! id)
  | None => Err ShuttingDown
  end.
Definition upgrade_or_hang inner : option (gmap ModuleId (DynModule (Y:=Y))) := inner.
Definition get_module inner (module_id : ModuleId) : option (option (DynModule (Y:=Y))) :=
  tree ← upgrade_or_hang inner; Some (tree !! module_id).
Definition get_modules_ids inner : option (list ModuleId) :=
  read ← upgrade_or_hang inner; Some (entries read).*1.
Definition get_modules_kinds inner : option (list (ModuleId * ModuleKind)) :=
  read ← upgrade_or_hang inner; Some ((λ kv, (kv.1, ModuleConfig.kind (config kv.2))) <$> entries read).
End Access.

(** ** [generate_proposal_round_task]

    The task of the leader, for [cur_round].  [GenTop] is the top of the loop,
    [GenSelect] the [select!] with the wait for items inside it, [GenBuild] the
    end of the loop with the items of the modules, [GenDone] what the block is
    built from.  The receivers have seen the finality and the transactions up to
    [fin_seen] and [pend_seen].  A delay takes any time.  Another thread can write
    to a channel between the checks of two branches, so the order of the checks is
    not part of the steps. *)
Record Leader := MkLeader {
  view : Shown;
  pending : list Transaction;
  (** how often [pending_transactions] was sent *)
  pending_version : N;
  self_vote : BlockRound;
  (** [has_pending_consensus_params_change(cur_round)] *)
  params_pending : bool;
}.
Inductive GenStage :=
  | GenTop (pend_seen : N)
  | GenSelect (fin_seen pend_seen : N) (wait : FreshStage)
  | GenBuild (pending_citems : list CItem)
  | GenDone (citems : list CItem).

Inductive gen_step (cur_round : BlockRound) (l : Leader) : GenStage → GenStage → Prop :=
  | gen_top_pending ps : pending l ≠ [] → gen_step cur_round l (GenTop ps) (GenBuild [])
  | gen_top_wait ps : pending l = [] →
      gen_step cur_round l (GenTop ps) (GenSelect (shown_finality_version (view l)) ps FreshAck)
  | gen_finality fs ps w : shown_finality_version (view l) ≠ fs → gen_step cur_round l (GenSelect fs ps w) (GenTop ps)
  | gen_wait fs ps w w' : fresh_step (view l) w w' → gen_step cur_round l (GenSelect fs ps w) (GenSelect fs ps w')
  | gen_citems fs ps citems : citems ≠ [] → gen_step cur_round l (GenSelect fs ps (FreshDone citems)) (GenBuild citems)
  | gen_no_citems fs ps : gen_step cur_round l (GenSelect fs ps (FreshDone [])) (GenTop ps)
  | gen_pending fs ps w : pending_version l ≠ ps → pending l ≠ [] → gen_step cur_round l (GenSelect fs ps w) (GenBuild [])
  | gen_no_pending fs ps w : pending_version l ≠ ps → pending l = [] →
      gen_step cur_round l (GenSelect fs ps w) (GenTop (pending_version l))
  | gen_self_vote fs ps w : (self_vote l < cur_round)%N → gen_step cur_round l (GenSelect fs ps w) (GenBuild [])
  | gen_params fs ps w : params_pending l = true → gen_step cur_round l (GenSelect fs ps w) (GenBuild [])
  | gen_build citems : gen_step cur_round l (GenBuild citems) (GenDone (citems ++ (CTransaction <$> pending l))).

(** ** The rest of the node

    The modules are replaced only while nobody holds the lock for reading, and
    the replacement is announced after it; [told] says that all replacements have
    been announced.  Everything else may change at any time. *)
Definition holds_lock (g : GenStage) : Prop := match g with GenSelect _ _ w => reading w | _ => False end.
Record GenWorld := MkGenWorld { leader : Leader; told : bool; gen : GenStage }.
Inductive world_step (cur_round : BlockRound) : GenWorld → GenWorld → Prop :=
  | world_task l t g g' : gen_step cur_round l g g' → world_step cur_round (MkGenWorld l t g) (MkGenWorld l t g')
  | world_other l l' t g :
      shown_modules (view l') = shown_modules (view l) → (shown_updates (view l) ≤ shown_updates (view l'))%N →
      world_step cur_round (MkGenWorld l t g) (MkGenWorld l' t g)
  | world_replace l l' t g :
      ¬ holds_lock g → shown_updates (view l') = shown_updates (view l) →
      world_step cur_round (MkGenWorld l t g) (MkGenWorld l' false g)
  | world_announce l l' g :
      shown_modules (view l') = shown_modules (view l) → (shown_updates (view l) < shown_updates (view l'))%N →
      world_step cur_round (MkGenWorld l false g) (MkGenWorld l' true g).

(** The history of a task, the latest world first. *)
Inductive history (cur_round : BlockRound) : list GenWorld → Prop :=
  | history_start l t ps : history cur_round [MkGenWorld l t (GenTop ps)]
  | history_step w w' ws : history cur_round (w :: ws) → world_step cur_round w w' → history cur_round (w' :: w :: ws).

(** ** What was the case when *)
Implicit Types (ws : list GenWorld) (w : GenWorld) (l : Leader).

(** The application had acknowledged the finality; the modules had the channels
    [streams]; there was something to propose besides items of modules. *)
Definition acknowledged w : Prop := shown_ack (view (leader w)) = shown_finality (view (leader w)).
Definition had_modules (streams : list (ModuleId * ChanId)) w : Prop :=
  ∀ x, x ∈ streams → shown_modules (view (leader w)) !! x.1 = Some x.2.
Definition has_reason (cur_round : BlockRound) w : Prop :=
  pending (leader w) ≠ [] ∨ (self_vote (leader w) < cur_round)%N ∨ params_pending (leader w) = true.
Definition ever (P : GenWorld → Prop) ws : Prop := ∃ w, w ∈ ws ∧ P w.
(** [P] was the case, and then or before it [Q]. *)
Definition since (Q P : GenWorld → Prop) ws : Prop := ∃ i w, ws !! i = Some w ∧ P w ∧ ever Q (drop i ws).
(** The items were in the channel of a module, after the module had been found
    among the modules, after the application had acknowledged the finality. *)
Definition were_proposed (citems : list CItem) ws : Prop :=
  ∃ k w module_id c, ws !! k = Some w ∧ citems = to_citems module_id (proposed (view (leader w)) c) ∧ citems ≠ [] ∧
    since acknowledged (had_modules [(module_id, c)]) (drop k ws).

Section History.
Lemma ever_here (P : GenWorld → Prop) w ws : P w → ever P (w :: ws).
Proof. intros HP. exists w. split; [left|done]. Qed.
Lemma ever_cons (P : GenWorld → Prop) w ws : ever P ws → ever P (w :: ws).
Proof. intros (w' & Hin & HP). exists w'. split; [by right|done]. Qed.
Lemma since_cons (Q P : GenWorld → Prop) w ws : since Q P ws → since Q P (w :: ws).
Proof. intros (i & w' & Hi & HP & HQ). by exists (S i), w'. Qed.
Lemma since_here (Q P : GenWorld → Prop) w ws : P w → ever Q (w :: ws) → since Q P (w :: ws).
Proof. intros HP HQ. by exists 0, w. Qed.
Lemma since_mono (Q P P' : GenWorld → Prop) ws : (∀ w, P w → P' w) → since Q P ws → since Q P' ws.
Proof. intros Himp (i & w & Hi & HP & HQ). exists i, w. auto. Qed.
Lemma proposed_cons citems w ws : were_proposed citems ws → were_proposed citems (w :: ws).
Proof. intros (k & w' & m & c & Hk & Hrest). by exists (S k), w', m, c. Qed.
Lemma proposed_here w ws module_id c streams :
  nothing (proposed (view (leader w)) c) = false → (module_id, c) ∈ streams →
  since acknowledged (had_modules streams) (w :: ws) →
  were_proposed (to_citems module_id (proposed (view (leader w)) c)) (w :: ws).
Proof.
  intros Hn Hin Hs. exists 0, w, module_id, c. split_and!; [done|done| |].
  - unfold to_citems. by destruct (proposed _ c).
  - eapply since_mono; [|exact Hs]. intros w' Hw x ->%list_elem_of_singleton. by apply Hw.
Qed.

(** What the history of a task tells, by its stage. *)
Definition wait_told (s : FreshStage) ws : Prop :=
  match s with
  | FreshAck => True
  | FreshLock _ => ever acknowledged ws
  | FreshPoll _ rest streams => since acknowledged (had_modules (streams ++ rest)) ws
  | FreshStreams _ streams => since acknowledged (had_modules streams) ws
  | FreshDone citems => were_proposed citems ws
  end.
Definition gen_told (cur_round : BlockRound) (g : GenStage) ws : Prop :=
  match g with
  | GenTop _ => True
  | GenSelect _ _ s => wait_told s ws
  | GenBuild citems => (citems = [] ∧ ever (has_reason cur_round) ws) ∨ were_proposed citems ws
  | GenDone citems => ∃ items w, citems = items ++ (CTransaction <$> pending (leader w)) ∧ w ∈ ws ∧
      ((items = [] ∧ ever (has_reason cur_round) ws) ∨ were_proposed items ws)
  end.

Lemma wait_told_cons s w ws : wait_told s ws → wait_told s (w :: ws).
Proof. destruct s; simpl; auto using ever_cons, since_cons, proposed_cons. Qed.
Lemma gen_told_cons cur_round g w ws : gen_told cur_round g ws → gen_told cur_round g (w :: ws).
Proof.
  destruct g as [ps|fs ps s|citems|citems]; simpl; [done|apply wait_told_cons| |].
  - intros [[-> He]|Hp]; [left; auto using ever_cons|right; by apply proposed_cons].
  - intros (items & w' & -> & Hin & Hr). exists items, w'. split_and!; [done|by right|].
    destruct Hr as [[-> He]|Hp]; [left; auto using ever_cons|right; by apply proposed_cons].
Qed.

Lemma wait_told_step w ws s s' : wait_told s (w :: ws) → fresh_step (view (leader w)) s s' → wait_told s' (w :: ws).
Proof.
  intros Ht Hs. destruct Hs as [Ha|seen|seen m c rest streams Hn|seen m c rest streams _|seen streams|seen streams m c Hin Hn|seen _|seen streams _];
    simpl in *.
  - by apply ever_here.
  - apply since_here; [|done]. intros [m c] Hx. rewrite entries_perm in Hx. by apply elem_of_map_to_list in Hx.
  - eapply proposed_here; [done| |exact Ht]. apply elem_of_app. right. left.
  - by rewrite <-app_assoc.
  - by rewrite app_nil_r in Ht.
  - by eapply proposed_here.
  - done.
  - done.
Qed.
Lemma gen_told_step cur_round w ws g g' :
  gen_told cur_round g (w :: ws) → gen_step cur_round (leader w) g g' → gen_told cur_round g' (w :: ws).
Proof.
  intros Ht Hs. destruct Hs; simpl in *; try done.
  - left. split; [done|]. apply ever_here. by left.
  - by eapply wait_told_step.
  - by right.
  - left. split; [done|]. apply ever_here. by left.
  - left. split; [done|]. apply ever_here. by right; left.
  - left. split; [done|]. apply ever_here. by right; right.
  - exists citems, w. split_and!; [done|left|done].
Qed.
Lemma history_told cur_round w ws : history cur_round (w :: ws) → gen_told cur_round (gen w) (w :: ws).
Proof.
  remember (w :: ws) as h eqn:Hh. intros Hist. revert w ws Hh.
  induction Hist as [l t ps|w1 w2 ws1 _ IH Hstep]; intros w ws Heq; injection Heq as <- <-; [done|].
  specialize (IH w1 ws1 eq_refl). destruct Hstep; simpl in *; try by apply gen_told_cons.
  eapply (gen_told_step _ (MkGenWorld l t g')); [|done].
  (* the world of the step, with the stage after it *)
  by apply gen_told_cons.
Qed.
End History.

(** ** The wait does not hang on modules that are gone *)
Section Live.
Context (cur_round : BlockRound).

(** The streams are those of the loaded modules, or a change of the modules is
    still to be announced or seen. *)
Definition wait_current (e : Shown) (t : bool) (s : FreshStage) : Prop :=
  match s with
  | FreshAck => True
  | FreshLock seen => (seen ≤ shown_updates e)%N
  | FreshPoll seen rest streams => (seen ≤ shown_updates e)%N ∧ streams ++ rest = entries (shown_modules e)
  | FreshStreams seen streams =>
      (seen ≤ shown_updates e)%N ∧ (t = true → seen = shown_updates e → streams = entries (shown_modules e))
  | FreshDone citems => citems ≠ []
  end.
Definition gen_current l (t : bool) (g : GenStage) : Prop :=
  match g with GenSelect _ _ s => wait_current (view l) t s | _ => True end.

Lemma wait_current_step e t s s' : wait_current e t s → fresh_step e s s' → wait_current e t s'.
Proof.
  intros Hc Hs. destruct Hs as [_|seen|seen m c rest streams Hn|seen m c rest streams _|seen streams|seen streams m c _ Hn|seen _|seen streams _];
    simpl in *; try done; try lia.
  - unfold to_citems. by destruct (proposed e c).
  - by rewrite <-app_assoc.
  - rewrite app_nil_r in Hc. naive_solver.
  - unfold to_citems. by destruct (proposed e c).
Qed.
Lemma gen_current_step l t g g' : gen_current l t g → gen_step cur_round l g g' → gen_current l t g'.
Proof. intros Hc Hs. destruct Hs; simpl in *; try done. by eapply wait_current_step. Qed.
Lemma history_current w ws : history cur_round (w :: ws) → gen_current (leader w) (told w) (gen w).
Proof.
  remember (w :: ws) as h eqn:Hh. intros Hist. revert w ws Hh.
  induction Hist as [l t ps|w1 w2 ws1 _ IH Hstep]; intros w ws Heq; injection Heq as <- <-; [done|].
  specialize (IH w1 ws1 eq_refl).
  destruct Hstep as [l t g g' Hg|l l' t g Hm Hu|l l' t g Hno Hu|l l' g Hm Hu]; simpl in *; [by eapply gen_current_step|..];
    destruct g as [|fs ps s| |]; try done; destruct s; simpl in *; try done; rewrite ?Hm, ?Hu in *; try lia.
  - destruct IH. split; [lia|done].
  - destruct IH as [? Hst]. split; [lia|]. intros Ht Heq. apply Hst; [done|]. lia.
  - destruct IH. split; [lia|done].
Qed.

(** [P] is reached whatever steps the task makes. *)
Inductive comes_to (l : Leader) (P : GenStage → Prop) : GenStage → Prop :=
  | comes_now g : P g → comes_to l P g
  | comes_next g : (∃ g', gen_step cur_round l g g') → (∀ g', gen_step cur_round l g g' → comes_to l P g') → comes_to l P g.

(** What is left to do while nothing else changes. *)
Definition stale (a b : N) (n : nat) : nat := if decide (a = b) then 0 else n.
Definition wait_left (e : Shown) (s : FreshStage) : nat :=
  let n := length (entries (shown_modules e)) in
  match s with
  | FreshDone _ => 0
  | FreshStreams seen _ => 1 + stale seen (shown_updates e) (4 + n)
  | FreshPoll seen rest _ => 2 + length rest + stale seen (shown_updates e) (4 + n)
  | FreshLock seen => 3 + n + stale seen (shown_updates e) (4 + n)
  | FreshAck => 4 + n
  end.
Definition gen_left l (g : GenStage) : nat :=
  let n := length (entries (shown_modules (view l))) in
  match g with
  | GenDone _ => 0
  | GenBuild _ => 1
  | GenSelect fs ps s =>
      2 + wait_left (view l) s + stale fs (shown_finality_version (view l)) (6 + n) + stale ps (pending_version l) (6 + n)
  | GenTop ps => 7 + n + stale ps (pending_version l) (6 + n)
  end.
Lemma wait_left_step e s s' : fresh_step e s s' → wait_left e s' < wait_left e s.
Proof.
  intros Hs. destruct Hs; simpl; unfold stale; repeat case_decide; try done; try lia.
Qed.
Lemma gen_left_step l t g g' : gen_current l t g → gen_step cur_round l g g' → gen_left l g' < gen_left l g.
Proof.
  intros Hc Hs. destruct Hs as [ps Hp|ps Hp|fs ps s Hf|fs ps s s' Hs|fs ps citems Hne|fs ps|fs ps s Hv Hp|fs ps s Hv Hp|fs ps s Hr|fs ps s Hr|citems];
    simpl in *; try lia; try done.
  - unfold stale. repeat case_decide; try done; lia.
  - unfold stale in *. repeat case_decide; try done; lia.
  - apply wait_left_step in Hs. lia.
  - unfold stale. repeat case_decide; try done; lia.
Qed.

(** A task in the middle of its work, with something to propose. *)
Definition may_propose l : Prop :=
  shown_ack (view l) = shown_finality (view l) ∧
  ∃ module_id c, shown_modules (view l) !! module_id = Some c ∧ nothing (proposed (view l) c) = false.
Lemma gen_progress l g :
  gen_current l true g → may_propose l → (∀ citems, g ≠ GenDone citems) → ∃ g', gen_step cur_round l g g'.
Proof.
  intros Hc (Hack & m & c & Hm & Hn) Hnd.
  destruct g as [ps|fs ps s|citems|citems]; [| |eexists; apply gen_build|by destruct (Hnd citems)].
  - destruct (pending l) eqn:Hp; eexists; [by apply gen_top_wait|apply gen_top_pending; by rewrite Hp].
  - assert ((∃ s', fresh_step (view l) s s') ∨ ∃ citems, s = FreshDone citems) as [[s' Hs]|[citems ->]];
      [|eexists; by apply gen_wait|eexists; by apply gen_citems].
    destruct s as [|seen|seen [|[m' c'] rest] streams|seen streams|citems]; [left|left|left|left|left|right; by eexists].
    + eexists. by apply fresh_ack.
    + eexists. apply fresh_lock.
    + eexists. apply fresh_poll_end.
    + destruct (nothing (proposed (view l) c')) eqn:Hn'; eexists; [by apply fresh_poll_next|by apply fresh_poll_found].
    + destruct Hc as [Hle Hst]. destruct (decide (seen = shown_updates (view l))) as [Heq|Hne].
      * eexists. apply (fresh_stream _ _ _ m c); [|done]. rewrite (Hst eq_refl Heq).
        rewrite entries_perm. by apply elem_of_map_to_list.
      * eexists. by apply fresh_changed.
Qed.
(** What is known of the stage is kept, and holds at the end. *)
Lemma comes_to_done l (K : GenStage → Prop) g :
  (∀ g g', K g → gen_step cur_round l g g' → K g') →
  gen_current l true g → may_propose l → K g → comes_to l (λ g, K g ∧ ∃ citems, g = GenDone citems) g.
Proof.
  intros Hstep Hc Hp. remember (gen_left l g) as n eqn:Hn. revert g Hc Hn.
  induction (lt_wf n) as [n _ IH]. intros g Hc -> Hk.
  destruct g as [ps|fs ps s|citems|citems]; [| | |apply comes_now; split; [done|by eexists]];
    (apply comes_next; [by apply gen_progress|]; intros g' Hg;
     apply (IH (gen_left l g')); [by eapply gen_left_step|by eapply gen_current_step|done|by eapply Hstep]).
Qed.
Lemma comes_to_mono l (P Q : GenStage → Prop) g : (∀ g, P g → Q g) → comes_to l P g → comes_to l Q g.
Proof. intros HPQ Hg. induction Hg as [g HP|g Hex _ IH]; [apply comes_now; by apply HPQ|by apply comes_next]. Qed.
End Live.

(** ** What the block is built from

    [txs] are the pending transactions.  A task that has not decided yet builds
    from items that some module proposed, or from transactions alone when there
    are some, or from whatever transactions there are when the round before was a
    dummy for this node or new parameters are scheduled; once it has decided on
    items, it builds from these. *)
Section Block.
Context (cur_round : BlockRound) (l : Leader) (ws : list GenWorld).
Let txs : list CItem := CTransaction <$> pending l.
Definition chosen (items : list CItem) : Prop :=
  (items ≠ [] ∧ were_proposed items ws) ∨
  (items = [] ∧ (pending l ≠ [] ∨ (self_vote l < cur_round)%N ∨ params_pending l = true)).
Definition block_of (g0 : GenStage) (citems : list CItem) : Prop :=
  match g0 with
  | GenTop _ | GenSelect _ _ _ => ∃ items, citems = items ++ txs ∧ chosen items
  | GenBuild items => citems = items ++ txs
  | GenDone citems0 => citems = citems0
  end.
(** On the way there from the stage [g0]. *)
Definition on_the_way (g0 g : GenStage) : Prop :=
  match g with
  | GenTop _ => match g0 with GenTop _ | GenSelect _ _ _ => True | _ => False end
  | GenSelect _ _ s => match g0 with GenTop _ | GenSelect _ _ _ => wait_told s ws | _ => False end
  | GenBuild items => match g0 with GenTop _ | GenSelect _ _ _ => chosen items | _ => g0 = GenBuild items end
  | GenDone citems => block_of g0 citems
  end.
Lemma on_the_way_step g0 g g' w ws' :
  ws = w :: ws' → leader w = l → on_the_way g0 g → gen_step cur_round l g g' → on_the_way g0 g'.
Proof.
  intros Hws Hl Ho Hs.
  destruct Hs as [ps Hp|ps Hp|fs ps s Hf|fs ps s s' Hs|fs ps citems Hne|fs ps|fs ps s Hv Hp|fs ps s Hv Hp|fs ps s Hr|fs ps s Hr|citems];
    cbn in *; destruct g0 as [ps0|fs0 ps0 s0|items0|citems0]; try done; try (right; by auto).
  1-2: rewrite Hws in *; rewrite <-Hl in Hs; by eapply wait_told_step.
  1-2: left; by split.
  1-2: by exists citems.
  by injection Ho as ->.
Qed.
End Block.

(** C11: a leader proposes what the modules want.  Whatever has happened since the
    task of the leader was spawned: when the application has acknowledged the
    finality, every replacement of modules has been announced and one of the
    loaded modules proposes something, the task comes to its block whichever
    branches it takes from there, while nothing else changes.  As long as it has
    not decided, the block is made of items that a module proposed, followed by
    the pending transactions; it is made of the transactions alone only if there
    are some, or the round before was a dummy for this node, or new parameters are
    scheduled; so without these reasons it has an item of a module. *)
Theorem leader_proposes (cur_round : BlockRound) (w : GenWorld) (ws : list GenWorld) :
  history cur_round (w :: ws) → told w = true → may_propose (leader w) →
  comes_to cur_round (leader w)
    (λ g, ∃ citems, g = GenDone citems ∧ block_of cur_round (leader w) (w :: ws) (gen w) citems) (gen w).
Proof.
  intros Hh Ht Hp. pose proof (history_current _ _ _ Hh) as Hc. rewrite Ht in Hc. pose proof (history_told _ _ _ Hh) as Htold.
  eapply comes_to_mono; [|apply (comes_to_done _ _ (on_the_way cur_round (leader w) (w :: ws) (gen w))); [|done|done|]].
  - intros g [Hk [citems ->]]. by exists citems.
  - intros g g'. by eapply on_the_way_step.
  - by destruct (gen w).
Qed.

(** C12: a leader proposes for a reason, and its items are fresh.  What a leader
    builds its block from is the items of at most one module, followed by the
    pending transactions of some moment since the task was spawned.  Items were
    in the channel of the module at a moment before which the module was loaded
    with this channel, and before that the application had acknowledged the
    finality.  Without items there were transactions, or the round before was a
    dummy for this node, or new parameters were scheduled. *)
Theorem proposal_has_reason (cur_round : BlockRound) (w : GenWorld) (ws : list GenWorld) (citems : list CItem) :
  history cur_round (w :: ws) → gen w = GenDone citems →
  ∃ items w', citems = items ++ (CTransaction <$> pending (leader w')) ∧ w' ∈ w :: ws ∧
    ((items = [] ∧ ever (has_reason cur_round) (w :: ws)) ∨ were_proposed items (w :: ws)).
Proof. intros Hh%history_told Hg. by rewrite Hg in Hh. Qed.

(** ** A concrete task *)
Section ProposalWitnesses.

(** The modules 0 and 1 have the channels 7 and 9; the module 1 proposes an item. *)
Definition the_shown : Shown := MkShown 3 3 5 (<[0 := 7]> {[1 := 9]})%N {[9%N := [[42%N]]]} 2.
Definition the_leader : Leader := MkLeader the_shown [] 0 4 false.
Definition the_item : CItem := PeerCItem 1 [42%N].
Definition at_stage (g : GenStage) : GenWorld := MkGenWorld the_leader true g.
(** The stages of a task in which nothing else happens, the latest first. *)
Definition the_stages : list GenStage :=
  [GenDone [the_item]; GenBuild [the_item]; GenSelect 5 0 (FreshDone [the_item]);
   GenSelect 5 0 (FreshPoll 2 [(1, 9)] [(0, 7)])%N; GenSelect 5 0 (FreshPoll 2 [(0, 7); (1, 9)] [])%N;
   GenSelect 5 0 (FreshLock 2); GenSelect 5 0 FreshAck; GenTop 0].

Definition the_worlds : list GenWorld := at_stage <$> the_stages.

Lemma the_history : history 4 the_worlds.
Proof.
  repeat (eapply history_step; [|apply world_task]); [apply history_start|..].
  - exact (gen_top_wait 4 the_leader 0 eq_refl).
  - apply gen_wait. exact (fresh_ack the_shown eq_refl).
  - apply gen_wait. exact (fresh_lock the_shown 2).
  - apply gen_wait. exact (fresh_poll_next the_shown 2 0 7 [(1, 9)]%N [] eq_refl).
  - apply gen_wait. exact (fresh_poll_found the_shown 2 1 9 [] [(0, 7)]%N eq_refl).
  - by apply gen_citems.
  - exact (gen_build 4 the_leader [the_item]).
Qed.

Lemma leader_proposes_witness :
  may_propose the_leader ∧
  comes_to 4 the_leader (λ g, ∃ citems, g = GenDone citems ∧
    block_of 4 the_leader [at_stage (GenTop 0)] (GenTop 0) citems) (GenTop 0).
Proof.
  assert (may_propose the_leader) as Hp by (split; [reflexivity|exists 1%N, 9%N; split; reflexivity]).
  split; [exact Hp|]. exact (leader_proposes 4 (at_stage (GenTop 0)) [] (history_start 4 the_leader true 0) eq_refl Hp).
Defined.

Lemma proposal_has_reason_witness :
  ∃ items w', [the_item] = items ++ (CTransaction <$> pending (leader w')) ∧ w' ∈ the_worlds ∧
    ((items = [] ∧ ever (has_reason 4) (the_worlds)) ∨ were_proposed items (the_worlds)).
Proof.
  exact (proposal_has_reason 4 (at_stage (GenDone [the_item])) (tail the_worlds) [the_item] the_history eq_refl).
Defined.
End ProposalWitnesses.
