(* ===== verification/Startup.v ===== *)
(** * Starting a node, and the commands of the executable
      ([node/src/node.rs], [bfte/src/lib.rs], [bfte/src/opts.rs])

    The executable reads its options, does what the command asks for, and ends or
    runs a node.  What it finds and leaves on the machine is a [Host]: text files,
    and the databases of the data directories.  What it gets from elsewhere
    (random numbers, the time, sockets, the node at an address) is in
    [Surroundings]. *)
From Stdlib Require Import Ascii String.
From S2P Require Import Prelude VoteSet Peers Core Db ConsDb ConsInv Consensus ConsRound ConsSteps ConsSpec ConsProps ConsFinal Module Ctrl Meta NodeApp Node Network NetInv NetRun PeerAddr Rpc Join Secret Text.

(** ** Texts of files *)

(** The characters of an ASCII text, and the bytes of a text. *)
Definition chars (s : string) : RString := N_of_ascii <$> list_ascii_of_string s.
Definition utf8_string (s : RString) : string := string_of_list_ascii (ascii_of_N <$> as_bytes s).

(** A mnemonic is lower-case words of ASCII letters with single spaces in
    between. *)
Class MnemonicText `{SecretLibs} := {
  mnemonic_ascii : ∀ bytes, Forall (λ c, (c < 128)%N) (chars (mnemonic_of bytes));
  mnemonic_trimmed : ∀ bytes, length bytes = 32%nat →
    ∃ a z, head (chars (mnemonic_of bytes)) = Some a ∧ is_whitespace a = false ∧
           last (chars (mnemonic_of bytes)) = Some z ∧ is_whitespace z = false;
}.

(** ** What the executable works on *)

(** The tables that the commands use; those of the application are opened by the
    application. *)
Record NodeDb := MkNodeDb { nd_consensus : ConsDb; nd_addrs : AddrDb; nd_ui_pass : option N }.
Definition new_database : NodeDb := MkNodeDb empty_db (MkAddrDb ∅ ∅ ∅) None.
Record Host := MkHost {
  text_files : gmap string RString;
  (** [bfte.redb] in each data directory *)
  databases : gmap string NodeDb;
}.

Record Surroundings := MkSurroundings {
  logging_starts : bool;
  (** [create_dir_all], and [redb::Database::create] (one process at a time) *)
  can_create_dir : string → bool;
  can_open : string → bool;
  random_secret : list N;
  random_pass : RString;
  now : N;
  (** the endpoint binds; the id of an endpoint with a key, and of one without *)
  can_bind : bool;
  node_id_of : list N → N;
  other_node_id : N;
  (** connecting to the node of an address; bytes that are no node id have no
      connection either *)
  connect_to : PeerAddress → option Inviter;
}.

Inductive Commands :=
  | GenSecret
  | InitCommand (run : bool) (extra_peers : list PeerPubkey)
  | JoinCommand (run : bool) (invite : Invite)
  | RunCommand.
(** [Opts], but for the socket of the web interface. *)
Record Opts := MkOpts {
  data_dir : option string;
  force_ui_password : option RString;
  secret_path : option string;
  command : Commands;
}.

(** What a run of the executable comes to; a node goes on running, and [Running]
    is how far the start took it.  [NodeTask]: the tasks of [Node::run]. *)
Inductive NodeTask := RunConsensus | RunPushGossip | RunPullGossip.
Inductive NodeRun := WaitingForInit | RunningTasks (invite : Invite) (tasks : list NodeTask).
Record StartedNode := MkStarted { started_life : Life; started_pass : UiPass; started_ephemeral : bool }.
Inductive Ended :=
  | Printed (peer_id : PeerPubkey) (stdout : RString)
  | Finished
  | Running (node : StartedNode) (state : NodeRun).

Section Startup.
Context `{Crypto} `{Bincode} `{CItemsCodec} `{Bao} `{Hashable AddressUpdate.t} `{SecretLibs} (sur : Surroundings).
Implicit Types (host : Host) (opts : Opts) (d : NodeDb).

(** ** [Node] *)

(** [PeerSeckey::from]: the 32 bytes, as a number. *)
Definition seckey_of (bytes : list N) : N := foldl (λ n b, n * 256 + b)%N 0%N bytes.
Definition peer_seckey {E} (root : DeriveableSecret) : outcome E N :=
  match get_peer_seckey root with
  | Ok bytes => Ok (seckey_of bytes)
  | _ => Panic "Just created, must be root"
  end.

(** [Node::open_db] *)
Definition open_db (db_path : option string) host : outcome Whatever NodeDb :=
  match db_path with
  | Some path =>
      if can_open sur path then Ok (default new_database (databases host !! path))
      else Err "Failed to open database"
  | None => Ok new_database
  end.
(** What was committed to an open database is in its file. *)
Definition persist (db_path : option string) d host : Host :=
  match db_path with
  | Some path => MkHost (text_files host) (<[path := d]> (databases host))
  | None => host
  end.

(** [make_iroh_endpoint]: the id of the endpoint. *)
Definition make_iroh_endpoint (secret : option (list N)) : outcome Whatever N :=
  if can_bind sur then Ok match secret with Some bytes => node_id_of sur bytes | None => other_node_id sur end
  else Err "IrohEndpoint".

(** [consensus_join_static] *)
Definition consensus_join_static (d : NodeDb) (invite : Invite) (our_peer_pubkey : option PeerPubkey) :
    outcome Whatever Consensus * AddrDb :=
  match make_iroh_endpoint None with
  | Ok _ =>
      match connect_to sur (invite_address invite) with
      | Some conn => consensus_join_static_inner conn (nd_consensus d) (nd_addrs d) invite our_peer_pubkey
      | None => (Err "IrohConnection", nd_addrs d)
      end
  | Err e => (Err e, nd_addrs d)
  | Panic w => (Panic w, nd_addrs d)
  end.

(** [Node::new]; the keys are derived before the endpoint is bound. *)
Definition node_new (root_secret : option DeriveableSecret) (ephemeral : bool) (force : option RString) d :
    outcome Whatever (StartedNode * NodeDb) :=
  keys ← match root_secret with
         | Some root =>
             match get_peer_seckey root, get_iroh_secret root with
             | Ok peer, Ok iroh => Ok (Some (seckey_of peer), Some iroh)
             | Panic w, _ | _, Panic w => Panic w
             | _, _ => Err "Secret"
             end
         | None => Ok (None, None)
         end;
  iroh_addr ← make_iroh_endpoint keys.2;
  let pass := open_ui_pass (nd_ui_pass d) (as_bytes <$> force) (as_bytes (random_pass sur)) in
  life ← never (new_node (nd_consensus d) (nd_addrs d) keys.1 (now sur) iroh_addr);
  Ok (MkStarted life pass ephemeral, MkNodeDb (current_db life) (life_addrs life) (ui_pass_hash_table pass)).

(** [Node::run]: a node with a consensus spawns its tasks; one without waits for
    the web interface to create or join one. *)
Definition node_run (node : StartedNode) (iroh_addr : N) : outcome Whatever NodeRun :=
  match life_consensus (started_life node) with
  | None => Ok WaitingForInit
  | Some c =>
      invite ← generate_invite_code (Some c) iroh_addr;
      Ok (RunningTasks invite [RunConsensus; RunPushGossip; RunPullGossip])
  end.

(** ** [Bfte] *)

(** [with_module_init], and the insertion of the control module. *)
Definition with_module_init (module_init : IModuleInit) (modules_inits : gmap ModuleKind IModuleInit) :
    outcome Whatever (gmap ModuleKind IModuleInit) :=
  if modules_inits !! init_kind module_init is Some _ then Panic "Multiple module inits of the same kind"
  else Ok (<[init_kind module_init := module_init]> modules_inits).
Definition add_consensus_ctrl (modules_inits : gmap ModuleKind IModuleInit) : outcome Whatever (gmap ModuleKind IModuleInit) :=
  if modules_inits !! CTRL_KIND is Some _ then Panic "Bfte has a redundant ConsensusCtrlModuleInit already inserted"
  else Ok (<[CTRL_KIND := ctrl_module_init]> modules_inits).

(** The secret of the options. *)
Definition read_secret opts host : outcome Whatever (option DeriveableSecret) :=
  match secret_path opts with
  | Some path =>
      match text_files host !! path with
      | Some content =>
          match from_str (utf8_string (trim content)) with
          | Ok secret => Ok (Some secret)
          | Err _ => Err "Failed to parse secret"
          | Panic w => Panic w
          end
      | None => Err "Failed to read secret file"
      end
  | None => Ok None
  end.
Definition create_data_dir opts : outcome Whatever () :=
  match data_dir opts with
  | Some dir => if can_create_dir sur dir then Ok () else Err "Failed to create/open data dir"
  | None => Ok ()
  end.

(** Building and running the node, on the database [d]. *)
Definition build_and_run opts (secret : option DeriveableSecret) d host : outcome Whatever Ended * Host :=
  match node_new secret (if data_dir opts is Some _ then false else true) (force_ui_password opts) d with
  | Ok (node, d') =>
      let host' := persist (data_dir opts) d' host in
      let iroh := match secret with
                  | Some root => match get_iroh_secret root with Ok bytes => node_id_of sur bytes | _ => 0%N end
                  | None => other_node_id sur
                  end in
      match node_run node iroh with
      | Ok state => (Ok (Running node state), host')
      | Err _ => (Err "Failed to run node", host')
      | Panic w => (Panic w, host')
      end
  | Err _ => (Err "Failed to build node", host)
  | Panic w => (Panic w, host)
  end.

(** The commands; [version] is the version of the control module. *)
Definition run_command opts (secret : option DeriveableSecret) (peer_key : option N) (version : ConsensusVersion.t) host :
    outcome Whatever Ended * Host :=
  match command opts with
  | GenSecret =>
      let root := generate (random_secret sur) in
      (seckey ← peer_seckey root;
       Ok (Printed (ed25519_pubkey seckey) (chars (reveal_display root) ++ [10%N])), host)
  | JoinCommand run invite =>
      match open_db (data_dir opts) host with
      | Ok d =>
          match consensus_join_static d invite (ed25519_pubkey <$> peer_key) with
          | (Ok c, addrs) =>
              let d' := MkNodeDb (db c) addrs (nd_ui_pass d) in
              let host' := persist (data_dir opts) d' host in
              if run then build_and_run opts secret d' host' else (Ok Finished, host')
          | (Err _, addrs) =>
              (Err "Failed to join consensus", persist (data_dir opts) (MkNodeDb (nd_consensus d) addrs (nd_ui_pass d)) host)
          | (Panic w, addrs) => (Panic w, persist (data_dir opts) (MkNodeDb (nd_consensus d) addrs (nd_ui_pass d)) host)
          end
      | Err e => (Err e, host)
      | Panic w => (Panic w, host)
      end
  | InitCommand run extra_peers =>
      match open_db (data_dir opts) host with
      | Ok d =>
          let host := persist (data_dir opts) d host in
          match peer_key with
          | None => (Err "Secret must be provided to create a new federation", host)
          | Some key =>
              match consensus_init_static (nd_consensus d) key extra_peers version (now sur) with
              | Ok c =>
                  let d' := MkNodeDb (db c) (nd_addrs d) (nd_ui_pass d) in
                  let host' := persist (data_dir opts) d' host in
                  if run then build_and_run opts secret d' host' else (Ok Finished, host')
              | Err _ => (Err "Failed to create consensus", host)
              | Panic w => (Panic w, host)
              end
          end
      | Err e => (Err e, host)
      | Panic w => (Panic w, host)
      end
  | RunCommand =>
      match open_db (data_dir opts) host with
      | Ok d => build_and_run opts secret d (persist (data_dir opts) d host)
      | Err e => (Err e, host)
      | Panic w => (Panic w, host)
      end
  end.

(** [Bfte::build]: everything before the commands only reads. *)
Definition bfte (modules_inits : gmap ModuleKind IModuleInit) opts host : outcome Whatever Ended * Host :=
  let prepared : outcome Whatever (option DeriveableSecret * option N * ConsensusVersion.t) :=
    inits ← add_consensus_ctrl modules_inits;
    _ ← fail_if (negb (logging_starts sur)) "Failed to initialize logging"%string;
    secret ← read_secret opts host;
    peer_key ← match secret with
               | Some root => key ← peer_seckey root; Ok (Some key)
               | None => Ok None
               end;
    _ ← create_data_dir opts;
    ctrl ← expect "Must have ConsensusCtrlModuleInit" (inits !! CTRL_KIND);
    version ← latest_version ctrl;
    Ok (secret, peer_key, version) in
  match prepared with
  | Ok (secret, peer_key, version) => run_command opts secret peer_key version host
  | Err e => (Err e, host)
  | Panic w => (Panic w, host)
  end.
End Startup.

(** [main]: the executable of the repository adds the meta module. *)
Definition main_inits : outcome Whatever (gmap ModuleKind IModuleInit) := with_module_init meta_module_init ∅.

(** ** Texts *)
Lemma as_bytes_ascii s : Forall (λ c, (c < 128)%N) s → as_bytes s = s.
Proof.
  induction 1 as [|c s Hc _ IH]; [done|]. unfold as_bytes in *. cbn [flat_map]. rewrite IH. unfold utf8_char.
  rewrite (proj2 (N.ltb_lt _ _)) by done. done.
Qed.
Lemma utf8_string_chars s : Forall (λ c, (c < 128)%N) (chars s) → utf8_string (chars s) = s.
Proof.
  intros Hs. unfold utf8_string. rewrite as_bytes_ascii by done. unfold chars. rewrite <-list_fmap_compose.
  transitivity (string_of_list_ascii (list_ascii_of_string s)); [|apply string_of_list_ascii_of_string].
  f_equal. transitivity (id <$> list_ascii_of_string s); [|apply list_fmap_id].
  apply list_fmap_ext. intros i c _. apply ascii_N_embedding.
Qed.
Lemma trim_start_spaces pre s : Forall (λ c, is_whitespace c = true) pre → trim_start (pre ++ s) = trim_start s.
Proof. induction 1 as [|c pre Hc _ IH]; [done|]. cbn. by rewrite Hc. Qed.
Lemma trim_spaces pre post s a z :
  Forall (λ c, is_whitespace c = true) pre → Forall (λ c, is_whitespace c = true) post →
  head s = Some a → is_whitespace a = false → last s = Some z → is_whitespace z = false →
  trim (pre ++ s ++ post) = s.
Proof.
  intros Hpre Hpost Ha Hwa Hz Hwz. unfold trim. rewrite trim_start_spaces by done.
  assert (trim_start (s ++ post) = s ++ post) as ->.
  { destruct s as [|c s]; [done|]. injection Ha as ->. cbn. by rewrite Hwa. }
  rewrite reverse_app, trim_start_spaces by (by rewrite reverse_Permutation).
  rewrite <-head_reverse in Hz. destruct (reverse s) as [|c l] eqn:Hs; [done|]. injection Hz as ->.
  cbn [trim_start]. rewrite Hwz, <-Hs. apply reverse_involutive.
Qed.

Section StartupProps.
Context `{Crypto} `{Bincode} `{CItemsCodec} `{Bao} `{Hashable AddressUpdate.t} `{SecretLibs}.
Implicit Types (sur : Surroundings) (host : Host) (opts : Opts) (d : NodeDb).

(** ** The secret *)
Definition key_of (root : DeriveableSecret) : option N :=
  match get_peer_seckey root with Ok bytes => Some (seckey_of bytes) | _ => None end.

Lemma new_node_secret cd addrs secret t addr life : new_node cd addrs secret t addr = Ok life → life_secret life = secret.
Proof.
  unfold new_node. intros (c & _ & Hn)%bind_Ok.
  destruct (insert_own_address_update _ _ _ _); [by injection Hn as <-..|done].
Qed.
Lemma node_new_secret sur root ephemeral force d node d' :
  node_new sur root ephemeral force d = Ok (node, d') → life_secret (started_life node) = root ≫= key_of.
Proof.
  unfold node_new. intros ([k1 k2] & Hk & Hn)%bind_Ok. apply bind_Ok in Hn as (addr & _ & Hn).
  apply bind_Ok in Hn as (life & Hl & [= <- _]). cbn.
  unfold never in Hl. destruct (new_node _ _ _ _ _) as [l|[]|] eqn:Hnew; [|done]. injection Hl as ->.
  apply new_node_secret in Hnew. rewrite Hnew. destruct root as [root|]; [|by injection Hk as <- _].
  cbn. unfold key_of. destruct (get_peer_seckey root), (get_iroh_secret root); try done. by injection Hk as <- _.
Qed.
Lemma build_and_run_secret sur opts secret d host node state host' :
  build_and_run sur opts secret d host = (Ok (Running node state), host') →
  life_secret (started_life node) = secret ≫= key_of.
Proof.
  unfold build_and_run. destruct (node_new _ _ _ _ _) as [[n d']| |] eqn:Hn; [|done..]. apply node_new_secret in Hn.
  destruct (node_run _ _); [|done..]. by intros [= <- _ _].
Qed.
(** A node has the key of the secret in the file. *)
Lemma bfte_secret sur inits opts host node state host' :
  bfte sur inits opts host = (Ok (Running node state), host') →
  ∃ secret, read_secret opts host = Ok secret ∧ life_secret (started_life node) = secret ≫= key_of.
Proof.
  unfold bfte. cbv zeta. destruct (mbind _ _) as [[[secret key] version]| |] eqn:Hp; [|done..].
  apply bind_Ok in Hp as (i & _ & Hp). apply bind_Ok in Hp as (u & _ & Hp). apply bind_Ok in Hp as (s & Hs & Hp).
  apply bind_Ok in Hp as (k & _ & Hp). apply bind_Ok in Hp as (u' & _ & Hp). apply bind_Ok in Hp as (m & _ & Hp).
  apply bind_Ok in Hp as (v & _ & [= -> -> ->]).
  intros Hrun. exists secret. split; [done|]. revert Hrun. unfold run_command.
  destruct (command opts) as [|run extra|run invite|].
  - cbv zeta. by destruct (peer_seckey (generate (random_secret sur))).
  - destruct (open_db _ _ _); [|done..]. destruct key; [|done]. destruct (consensus_init_static _ _ _ _ _); [|done..].
    destruct run; [|done]. apply build_and_run_secret.
  - destruct (open_db _ _ _); [|done..]. destruct (consensus_join_static _ _ _ _) as [[c|e|w] addrs]; [|done..].
    destruct run; [|done]. apply build_and_run_secret.
  - destruct (open_db _ _ _); [|done..]. apply build_and_run_secret.
Qed.

(** ** The databases *)

(** A consensus that was just created can be opened again. *)
Lemma reopen_created params our pin c our2 :
  params_wf params → init params empty_db our pin = Ok c →
  ∃ c', open (db c) our2 = Ok c' ∧ reachable c' ∧ params_at (db c') 0 = Some params.
Proof.
  intros Hwf Hi. pose proof (init_created _ _ _ _ Hi) as [Hp _]. pose proof (init_is_internal _ _ _ _ Hi) as Hint.
  destruct (open_internal_spec (E:=InitError) _ _ _ (init_db_rest _ _ Hwf) Hint) as ([Hrest _] & Hos & _).
  set (d0 := init_db params pin) in *.
  assert (cons_blocks_notarized d0 = ∅ ∧ cons_blocks_proposals d0 = ∅ ∧ cons_votes_dummy d0 = ∅ ∧ cur_round_of d0 = 0%N)
    as (Hn0 & Hp0 & Hd0 & Hc0) by (unfold d0, init_db; by destruct pin as [[]|]).
  assert (cons_blocks_notarized (db c) = ∅) as Hn.
  { destruct (os_notarized _ _ Hos) as [->|(b & Hb & _)]; [done|]. by rewrite Hp0, lookup_empty in Hb. }
  pose proof (os_next _ _ Hos Hn0) as Hnext.
  destruct (open_internal_total (E:=OpenError) (db c) our2 Hrest) as [c' Hc'].
  { rewrite Hc0 in Hnext. unfold u64_max. lia. }
  { done. }
  { by rewrite (os_proposals _ _ Hos). }
  { apply (anti_symm (⊆)); [rewrite <-Hd0; apply Hos|apply map_empty_subseteq]. }
  assert (open (db c) our2 = Ok c') as Ho.
  { unfold open.
    assert (write_with_expect_falliable run_hook open_tx (db c, MkWatches (0%N, false) 0 0 0 0)
      = (Ok (cur_round_of (db c)), (db c, MkWatches (0%N, false) 0 0 0 0))) as ->; [|done].
    unfold write_with_expect_falliable, write_with_inner_falliable, open_tx, mbind, tx_bind, tx_read. cbn [fst tx_db].
    destruct (get_consensus_params_inv (E:=OpenError) (db c) 0 (rest_inv _ Hrest)) as (p & Hg & _).
    unfold get_consensus_params, mbind, rd_bind in Hg.
    by destruct (get_consensus_params_opt 0%N (db c)) as [[q|]| |]. }
  exists c'. split_and!; [done| |].
  - eapply RStep; [by eapply RInit|]. by eapply CReopen.
  - destruct (open_spec _ _ _ Hrest Ho) as (_ & Hos' & _).
    rewrite <-Hp. unfold params_at. by rewrite (os_schedule _ _ Hos'), (os_params _ _ Hos').
Qed.

(** The parameters of an existing consensus stay. *)
Definition same_params (c c' : ConsDb) : Prop :=
  cons_params_schedule c' = cons_params_schedule c ∧ cons_params c' = cons_params c.
Lemma open_same_params c our self : Rest c → open c our = Ok self → same_params c (db self).
Proof. intros Hr Ho. destruct (open_spec _ _ _ Hr Ho) as (_ & Hos & _). split; apply Hos. Qed.
Lemma init_same_params c params our pin self : Rest c → init params c our pin = Ok self → Rest (db self) ∧ same_params c (db self).
Proof.
  intros Hrest. pose proof (rest_inv _ Hrest) as Hinv. destruct (inv_params0 _ Hinv) as [h Hh].
  set (c' := match pin with Some (r, h) => set_cons_blocks_pinned (<[r := h]> (cons_blocks_pinned c)) c | None => c end).
  assert (Rest c') as Hrest'.
  { unfold c'. destruct pin as [[r x]|]; [|done]. destruct Hrest as [? [] ?]. constructor; [by apply inv_set_pinned|by constructor|done]. }
  assert (init params c our pin = Err AlreadyInitialized ∨
    init params c our pin = open_internal (cur_round_of c') c' our) as [->| ->]; [|done|].
  { unfold init, write_with_expect_falliable, write_with_inner_falliable, init_tx, insert_consensus_params,
      mbind, tx_bind, tx_read, rd_get, tx_modify. cbn [fst tx_db tx_hooks]. rewrite Hh. cbn [mret tx_ret].
    destruct (decide (h = params_hash params)) as [<-|Hne]; [right|left].
    - rewrite bool_decide_eq_false_2 by naive_solver. unfold tx_lift, tx_read, rd_lift. cbn.
      assert (set_cons_params_schedule (<[0%N:=h]> (cons_params_schedule c)) c = c) as ->
        by (unfold set_cons_params_schedule; rewrite insert_id by done; by destruct c).
      by destruct pin as [[r x]|].
    - by rewrite bool_decide_eq_true_2 by done. }
  intros Ho. destruct (open_internal_spec (E:=InitError) _ _ _ Hrest' Ho) as ([Hself _] & Hos & _). split; [done|].
  split; [rewrite (os_schedule _ _ Hos)|rewrite (os_params _ _ Hos)]; unfold c'; by destruct pin as [[r x]|].
Qed.

(** The data directories whose database has a consensus keep its parameters. *)
Definition keeps_params (dir : option string) host host' : Prop :=
  ∀ path d, databases host !! path = Some d → Rest (nd_consensus d) →
    ∃ d', databases host' !! path = Some d' ∧ same_params (nd_consensus d) (nd_consensus d') ∧ (dir ≠ Some path → d' = d).

Lemma keeps_params_refl dir host : keeps_params dir host host.
Proof. intros path d Hd _. by exists d. Qed.
(** The command works on the database of its data directory only. *)
Lemma persist_keeps_params path d d' host :
  (default new_database (path ≫= λ p, databases host !! p) = d) →
  (Rest (nd_consensus d) → same_params (nd_consensus d) (nd_consensus d')) → keeps_params path host (persist path d' host).
Proof.
  intros Hd Hsame p x Hx Hrest. destruct path as [q|]; cbn; [|by exists x].
  destruct (decide (q = p)) as [->|Hne].
  - rewrite lookup_insert_eq. cbn in Hd. rewrite Hx in Hd. cbn in Hd. subst d. exists d'. split_and!; [done|by apply Hsame|done].
  - rewrite lookup_insert_ne by done. by exists x.
Qed.
Lemma open_db_Ok sur path host d : open_db sur path host = Ok d → default new_database (path ≫= λ p, databases host !! p) = d.
Proof. unfold open_db. destruct path as [p|]; cbn; [|by intros [= <-]]. destruct (can_open sur p); [by intros [= <-]|done]. Qed.
Lemma persist_persist path d d' host : persist path d' (persist path d host) = persist path d' host.
Proof. destruct path as [p|]; [|done]. cbn. by rewrite insert_insert_eq. Qed.

Lemma node_new_same_params sur root ephemeral force d node d' :
  Rest (nd_consensus d) → node_new sur root ephemeral force d = Ok (node, d') → same_params (nd_consensus d) (nd_consensus d').
Proof.
  intros Hrest. unfold node_new. intros (k & _ & Hn)%bind_Ok. apply bind_Ok in Hn as (addr & _ & Hn).
  apply bind_Ok in Hn as (life & Hl & [= _ <-]). cbn. unfold never in Hl.
  destruct (new_node _ _ _ _ _) as [l|[]|] eqn:Hnew; [|done]. injection Hl as ->.
  unfold new_node in Hnew. apply bind_Ok in Hnew as (c & Hc & Hnew).
  assert (current_db life = match c with Some c => db c | None => nd_consensus d end) as ->
    by (destruct (insert_own_address_update _ _ _ _); [by injection Hnew as <-..|done]).
  destruct (open _ _) as [c'|[]|] eqn:Ho; [|by injection Hc as <-|done]. injection Hc as <-. by eapply open_same_params.
Qed.
Lemma build_and_run_keeps sur opts secret d0 d host :
  default new_database (data_dir opts ≫= λ p, databases host !! p) = d0 →
  (Rest (nd_consensus d0) → Rest (nd_consensus d) ∧ same_params (nd_consensus d0) (nd_consensus d)) →
  keeps_params (data_dir opts) host (build_and_run sur opts secret d (persist (data_dir opts) d host)).2.
Proof.
  intros Hd0 Hsame. unfold build_and_run.
  assert (keeps_params (data_dir opts) host (persist (data_dir opts) d host)) as Hk by (eapply persist_keeps_params; [done|]; intros Hr; by apply Hsame).
  destruct (node_new _ _ _ _ _) as [[node d']| |] eqn:Hn; cbn [snd]; [|done..]. rewrite persist_persist.
  assert (keeps_params (data_dir opts) host (persist (data_dir opts) d' host)) as Hk'.
  { eapply persist_keeps_params; [done|]. intros Hr. destruct (Hsame Hr) as [Hr' [H1' H2']].
    destruct (node_new_same_params _ _ _ _ _ _ _ Hr' Hn). by split; etrans. }
  by destruct (node_run _ _).
Qed.
Lemma join_inner_init srv c addrs invite our self addrs' :
  consensus_join_static_inner srv c addrs invite our = (Ok self, addrs') → ∃ p, init p c our (invite_pin invite) = Ok self.
Proof.
  unfold consensus_join_static_inner. cbv zeta.
  destruct (match invite_init_params invite with Some _ => _ | None => _ end) eqn:Hm. intros [= -> ->]. revert Hm.
  destruct (invite_init_params invite) as [hl|].
  - destruct (fetch_params srv 0 hl addrs) as [[p| |] a1]; [|done..]. destruct (check_pin _ _ _) as [[[]| |] a2]; [|done..].
    destruct (init p c our (invite_pin invite)) as [x| |] eqn:Hi; [|done..]. intros [= -> _]. by exists p.
  - by destruct (check_pin _ _ _) as [[[]| |] a2].
Qed.
Lemma run_command_keeps sur opts secret key version host :
  keeps_params (data_dir opts) host (run_command sur opts secret key version host).2.
Proof.
  unfold run_command. destruct (command opts) as [|run extra|run invite|]; [apply keeps_params_refl|..];
    (destruct (open_db sur (data_dir opts) host) as [d| |] eqn:Hd; [apply open_db_Ok in Hd|apply keeps_params_refl..]).
  - assert (keeps_params (data_dir opts) host (persist (data_dir opts) d host)) as Hk by (by eapply persist_keeps_params).
    cbv zeta. destruct key as [k|]; [|done].
    destruct (consensus_init_static _ _ _ _ _) as [c| |] eqn:Hc; [|done..]. rewrite persist_persist.
    assert (Rest (nd_consensus d) → Rest (db c) ∧ same_params (nd_consensus d) (db c)) as Hsame.
    { intros Hr. unfold consensus_init_static in Hc. by eapply init_same_params. }
    destruct run; [by apply (build_and_run_keeps _ _ _ d)|]. eapply persist_keeps_params; [done|]. by apply Hsame.
  - unfold consensus_join_static. destruct (make_iroh_endpoint _ _); [|by eapply persist_keeps_params..].
    destruct (connect_to _ _) as [srv|]; [|by eapply persist_keeps_params].
    destruct (consensus_join_static_inner _ _ _ _ _) as [[c| |] addrs] eqn:Hj; [|by eapply persist_keeps_params..].
    apply join_inner_init in Hj as [p Hj].
    assert (Rest (nd_consensus d) → Rest (db c) ∧ same_params (nd_consensus d) (db c)) as Hsame
      by (intros Hr; by eapply init_same_params).
    cbv zeta. destruct run; [by apply (build_and_run_keeps _ _ _ d)|]. eapply persist_keeps_params; [done|]. by apply Hsame.
  - by apply (build_and_run_keeps _ _ _ d).
Qed.

(** ** What a start needs *)
Lemma bfte_prepared sur inits opts host root key :
  inits !! CTRL_KIND = None → logging_starts sur = true →
  (∀ dir, data_dir opts = Some dir → can_create_dir sur dir = true) →
  read_secret opts host = Ok (Some root) → key_of root = Some key →
  bfte sur inits opts host = run_command sur opts (Some root) (Some key) (ConsensusVersion.mk 0 1) host.
Proof.
  intros Hctrl Hlog Hdir Hread Hkey. unfold bfte, add_consensus_ctrl. rewrite Hctrl, Hlog, Hread. cbn.
  unfold peer_seckey, create_data_dir. unfold key_of in Hkey. destruct (get_peer_seckey root); [|done..].
  injection Hkey as ->. cbn. rewrite lookup_insert_eq.
  destruct (data_dir opts) as [dir|]; [rewrite (Hdir dir) by done|]; reflexivity.
Qed.
Lemma node_new_total sur root key ephemeral force d c :
  can_bind sur = true → is_root root = true → key_of root = Some key →
  verifying_key_ok (ed25519_pubkey key) = true → open (nd_consensus d) (Some (ed25519_pubkey key)) = Ok c →
  ∃ node d', node_new sur (Some root) ephemeral force d = Ok (node, d') ∧
    life_consensus (started_life node) = Some c ∧ life_pubkey (started_life node) = Some (ed25519_pubkey key).
Proof.
  intros Hbind Hroot%N.eqb_eq Hkey Hok Ho. unfold node_new, make_iroh_endpoint. rewrite Hbind.
  assert (∃ iroh, get_iroh_secret root = Ok iroh) as [iroh ->]
    by (unfold get_iroh_secret, ensure_level, derive; rewrite Hroot; eexists; reflexivity).
  unfold key_of in Hkey. destruct (get_peer_seckey root) as [peer| |]; [|done..]. injection Hkey as <-.
  cbn [mbind outcome_bind fst snd]. set (addr := node_id_of sur iroh).
  assert (∃ life, new_node (nd_consensus d) (nd_addrs d) (Some (seckey_of peer)) (now sur) addr = Ok life ∧
    life_consensus life = Some c ∧ life_secret life = Some (seckey_of peer)) as (life & -> & Hc & Hs).
  { unfold new_node. cbn [fmap option_fmap option_map]. rewrite Ho. cbn [mbind outcome_bind].
    destruct (insert_own_address_update _ _ _ _) as [addrs| |w] eqn:Hi; [by eexists..|].
    revert Hi. unfold insert_own_address_update, get_own_address_update, handle_address_update. cbn.
    unfold verify_signature, verify_hash_signature. rewrite Hok. by destruct (verify_strict _ _ _). }
  cbn [never map_err mbind outcome_bind]. eexists _, _. split; [reflexivity|]. cbn. unfold life_pubkey. by rewrite Hs.
Qed.
End StartupProps.

(** The printed secret is the node's.  What [gen-secret] prints can be kept in a
    file: every node that is started later with that file, whatever white space is
    around the words, whatever else the command does, has the identity that was
    printed with it.  The command changes nothing on the machine. *)
Theorem gen_secret_names_node `{Crypto} `{Bincode} `{CItemsCodec} `{Bao} `{Hashable AddressUpdate.t} `{SecretLibs}
    `{!SecretLibsLaws} `{!MnemonicText} (sur : Surroundings) (inits : gmap ModuleKind IModuleInit) (opts : Opts)
    (host host' : Host) (ended : Ended) :
  length (random_secret sur) = 32%nat → command opts = GenSecret →
  bfte sur inits opts host = (Ok ended, host') →
  ∃ id out, ended = Printed id out ∧ host' = host ∧
    ∀ sur2 inits2 opts2 host2 path pre post node state host3,
      secret_path opts2 = Some path → text_files host2 !! path = Some (pre ++ out ++ post) →
      Forall (λ c, is_whitespace c = true) pre → Forall (λ c, is_whitespace c = true) post →
      bfte sur2 inits2 opts2 host2 = (Ok (Running node state), host3) →
      life_pubkey (started_life node) = Some id.
Proof.
  intros Hlen Hcmd Hrun. unfold bfte in Hrun. cbv zeta in Hrun.
  destruct (mbind _ _) as [[[secret key] version]| |]; [|done..].
  unfold run_command in Hrun. rewrite Hcmd in Hrun. cbv zeta in Hrun.
  set (root := generate (random_secret sur)) in *.
  destruct (secret_roundtrip root Hlen eq_refl) as (Hread & (peer & iroh & Hpeer & _) & _).
  unfold peer_seckey in Hrun. rewrite Hpeer in Hrun. cbn [mbind outcome_bind] in Hrun. injection Hrun as <- <-.
  eexists _, _. split_and!; [reflexivity|reflexivity|].
  intros sur2 inits2 opts2 host2 path pre post node state host3 Hpath Hfile Hpre Hpost Hnode.
  destruct (bfte_secret _ _ _ _ _ _ _ Hnode) as (s2 & Hs2 & Hkey). unfold read_secret in Hs2. rewrite Hpath, Hfile in Hs2.
  destruct (mnemonic_trimmed (random_secret sur) Hlen) as (a & z & Ha & Hwa & Hz & Hwz).
  assert (trim (pre ++ (chars (reveal_display root) ++ [10%N]) ++ post) = chars (reveal_display root)) as Ht.
  { rewrite <-app_assoc. eapply trim_spaces; [done|by constructor|exact Ha|done|exact Hz|done]. }
  rewrite Ht, utf8_string_chars in Hs2 by apply mnemonic_ascii. rewrite Hread in Hs2. injection Hs2 as <-.
  unfold life_pubkey. rewrite Hkey. cbn. unfold key_of. by rewrite Hpeer.
Qed.

(** No command changes an existing consensus.  Whatever the options, the
    answers of other nodes and the outcome are, every database with a consensus
    keeps its parameters and their schedule: creating or joining another one is
    refused, and no other data directory is touched. *)
Theorem existing_consensus_kept `{Crypto} `{Bincode} `{CItemsCodec} `{Bao} `{Hashable AddressUpdate.t} `{SecretLibs}
    (sur : Surroundings) (inits : gmap ModuleKind IModuleInit) (opts : Opts) (host : Host) (path : string) (d : NodeDb) :
  databases host !! path = Some d → Rest (nd_consensus d) →
  ∃ d', databases (bfte sur inits opts host).2 !! path = Some d' ∧
    same_params (nd_consensus d) (nd_consensus d') ∧ (data_dir opts ≠ Some path → d' = d).
Proof.
  intros Hd Hrest. unfold bfte. cbv zeta.
  destruct (mbind _ _) as [[[secret key] version]| |]; [|by exists d..]. by apply run_command_keeps.
Qed.

(** C30: what [init] creates, [run] runs.  On a machine whose data directory is
    empty, [init] with a secret succeeds when the keys are valid and distinct and
    at most 254; a later start with [run] and the same options reaches the tasks
    of the node, with a consensus whose initial parameters name the peer of the
    secret and the extra peers, with the identity of the secret, and with an
    invite to this consensus. *)
Theorem init_then_run `{Crypto} `{Bincode} `{CItemsCodec} `{Bao} `{Hashable AddressUpdate.t} `{SecretLibs}
    (sur1 sur2 : Surroundings) (inits : gmap ModuleKind IModuleInit) (dir : string) (secret : option string)
    (pass1 pass2 : option RString) (extra : list PeerPubkey) (host : Host) (root : DeriveableSecret) (key : N) :
  inits !! CTRL_KIND = None → databases host !! dir = None →
  logging_starts sur1 = true → can_create_dir sur1 dir = true → can_open sur1 dir = true →
  logging_starts sur2 = true → can_create_dir sur2 dir = true → can_open sur2 dir = true → can_bind sur2 = true →
  let init_opts := MkOpts (Some dir) pass1 secret (InitCommand false extra) in
  let run_opts := MkOpts (Some dir) pass2 secret RunCommand in
  read_secret init_opts host = Ok (Some root) → is_root root = true → key_of root = Some key →
  let me := ed25519_pubkey key in
  NoDup (me :: extra) → Forall (λ pk, verifying_key_ok pk = true) (me :: extra) → (length extra ≤ 254)%nat →
  (∀ peers t, (length peers ≤ 255)%nat →
     (N.of_nat (length (to_raw (ConsensusParams.mk 0 (ConsensusVersion.mk 0 1) t 0 0 None peers))) ≤ u32_max)%N) →
  ∃ host1, bfte sur1 inits init_opts host = (Ok Finished, host1) ∧
  ∃ node invite host2 c p, bfte sur2 inits run_opts host1 =
      (Ok (Running node (RunningTasks invite [RunConsensus; RunPushGossip; RunPullGossip])), host2) ∧
    life_consensus (started_life node) = Some c ∧ reachable c ∧ life_pubkey (started_life node) = Some me ∧ our_peer_pubkey c = Some me ∧
    params_at (db c) 0 = Some p ∧ ConsensusParams.peers p ≡ₚ me :: extra ∧
    invite_init_params invite = Some (params_hash p, N.of_nat (length (to_raw p))).
Proof.
  intros Hctrl Hnew Hlog1 Hdir1 Hopen1 Hlog2 Hdir2 Hopen2 Hbind init_opts run_opts Hread Hroot Hkey me Hnd Hkeys Hlen Hraw.
  destruct (consensus_init_static_total key extra (ConsensusVersion.mk 0 1) (now sur1) Hnd Hkeys Hlen) as (c & p & Hc & Hi & Hwf & Hperm).
  { intros peers. apply Hraw. }
  destruct (reopen_created p (Some me) None c (Some me) Hwf Hi) as (c' & Ho & Hr & Hp).
  destruct (open_spec _ _ _ (proj1 (reachable_wf c (RInit _ _ _ _ Hwf Hi))) Ho) as (_ & _ & Hour).
  eexists. split.
  { rewrite (bfte_prepared _ _ _ _ root key); [|done|done|by intros ? [= <-]|done|done]. unfold run_command. cbn [command data_dir init_opts]. unfold open_db.
    rewrite Hopen1, Hnew. cbn [default new_database nd_consensus]. rewrite Hc. reflexivity. }
  rewrite (bfte_prepared _ _ _ _ root key); [|done|done|by intros ? [= <-]|done|done]. unfold run_command. cbn [command data_dir run_opts]. unfold open_db.
  rewrite Hopen2. cbn [persist databases]. rewrite lookup_insert_eq. cbn [default].
  match goal with |- context [build_and_run _ _ _ ?d _] =>
    destruct (node_new_total sur2 root key false pass2 d c') as (node & d' & Hnode & Hlife & Hpub);
      [done|done|done| |exact Ho|] end.
  { by apply Forall_cons in Hkeys as [? _]. }
  unfold build_and_run. cbn [data_dir force_ui_password run_opts]. rewrite Hnode. unfold node_run. rewrite Hlife.
  match goal with |- context [generate_invite_code _ ?addr] => destruct (invite_code_total c' p addr Hr Hp) as [pin Hinvite] end.
  rewrite Hinvite. cbn [mbind outcome_bind].
  eexists node, _, _, c', p. split_and!; [reflexivity|done|done|done|done|done|done|done].
Qed.

(** ** Concrete machines *)
Section StartupWitnesses.
Local Existing Instance Toy.bincode.
Local Existing Instance Toy.crypto.
Local Existing Instance ToyNet.codec.
Local Existing Instance toy_address_hashable.
Local Existing Instance toy_bao.

(** A mnemonic of one word: the letter m and the bits of the secret. *)
Local Instance toy_words : SecretLibs := {|
  hkdf := λ salt ikm info, replicate 32 (foldl N.add 0 (salt ++ ikm ++ info) `mod` 256)%N;
  mnemonic_of := λ bytes, String "m" (pos_string (countable.encode bytes));
  entropy_of := λ s, match s with String _ s' => countable.decode (string_pos s') | EmptyString => None end;
|}.
Local Instance toy_words_laws : SecretLibsLaws.
Proof.
  split.
  - intros salt ikm info. apply length_replicate.
  - intros bytes _. cbn. by rewrite string_pos_string, countable.decode_encode.
Qed.
Lemma pos_string_binary p : Forall (λ c, c = 0%N ∨ c = 1%N) (chars (pos_string p)).
Proof.
  induction p as [p IH|p IH|]; [..|constructor]; (constructor; [vm_compute; by auto|exact IH]).
Qed.
Local Instance toy_words_text : MnemonicText.
Proof.
  assert (∀ bytes : list N, Forall (λ c, (c < 128)%N ∧ is_whitespace c = false) (chars (mnemonic_of bytes))) as Hall.
  { intros bytes. constructor; [by split|]. eapply Forall_impl; [apply pos_string_binary|]. by intros c [->| ->]. }
  split.
  - intros bytes. eapply Forall_impl; [apply Hall|]. by intros c [? _].
  - intros bytes _. specialize (Hall bytes). destruct (last (chars (mnemonic_of bytes))) as [z|] eqn:Hz.
    + exists 109%N, z. split_and!; try done. apply last_Some in Hz as [l Hl]. rewrite Hl in Hall.
      apply Forall_app in Hall as [_ Hall]. by apply Forall_cons in Hall as [[_ ?] _].
    + by apply last_None in Hz.
Qed.

Definition a_day (secret : list N) : Surroundings :=
  MkSurroundings true (λ _, true) (λ _, true) secret [112; 119]%N 77 true (λ _, 70%N) 71 (λ _, None).
Definition the_secret : list N := replicate 32 7%N.
Definition the_words : RString := chars (reveal_display (generate the_secret)).
(** The words, with spaces around them, are in a file. *)
Definition the_machine : Host := MkHost {["secret"%string := [32%N] ++ (the_words ++ [10%N]) ++ [10%N]]} ∅.
Definition gen_opts : Opts := MkOpts None None None GenSecret.
Definition init_opts : Opts := MkOpts (Some "data"%string) None (Some "secret"%string) (InitCommand false [2; 9]%N).
Definition run_opts : Opts := MkOpts (Some "data"%string) None (Some "secret"%string) RunCommand.
Definition initialised : Host := (bfte (a_day []) ∅ init_opts the_machine).2.
Definition the_key : N := default 0%N (key_of (generate the_secret)).

Lemma init_then_run_witness :
  (bfte (a_day []) ∅ init_opts the_machine).1 = Ok Finished ∧
  ∃ node invite host2 c p, bfte (a_day []) ∅ run_opts initialised =
      (Ok (Running node (RunningTasks invite [RunConsensus; RunPushGossip; RunPullGossip])), host2) ∧
    life_consensus (started_life node) = Some c ∧ params_at (db c) 0 = Some p ∧
    ConsensusParams.peers p ≡ₚ [ed25519_pubkey the_key; 2; 9]%N.
Proof.
  destruct (init_then_run (a_day []) (a_day []) ∅ "data" (Some "secret"%string) None None [2; 9]%N the_machine
    (generate the_secret) the_key) as (host1 & Hinit & node & invite & host2 & c & p & Hrun & Hc & _ & _ & _ & Hp & Hperm & _).
  - reflexivity.
  - reflexivity.
  - reflexivity.
  - reflexivity.
  - reflexivity.
  - reflexivity.
  - reflexivity.
  - reflexivity.
  - reflexivity.
  - vm_compute. reflexivity.
  - reflexivity.
  - vm_compute. reflexivity.
  - apply (bool_decide_unpack _). vm_compute. exact I.
  - apply (bool_decide_unpack _). vm_compute. exact I.
  - cbn. lia.
  - intros peers t Hlen. unfold to_raw, encode_consensus_params, Toy.bincode, Toy.encode_params.
    cbn -[N.of_nat]. unfold u32_max. lia.
  - unfold initialised. change (bfte (a_day []) ∅ init_opts the_machine = (Ok Finished, host1)) in Hinit.
    rewrite Hinit. split; [reflexivity|]. exists node, invite, host2, c, p. split; [exact Hrun|]. split; [exact Hc|].
    split; [exact Hp|exact Hperm].
Defined.

(** A node that is started with the words that were printed has the printed
    identity. *)
Lemma gen_secret_names_node_witness :
  ∃ id node state host3,
    (bfte (a_day the_secret) ∅ gen_opts (MkHost ∅ ∅)).1 = Ok (Printed id (the_words ++ [10%N])) ∧
    bfte (a_day []) ∅ run_opts the_machine = (Ok (Running node state), host3) ∧ life_pubkey (started_life node) = Some id.
Proof.
  destruct (gen_secret_names_node (a_day the_secret) ∅ gen_opts (MkHost ∅ ∅) (MkHost ∅ ∅)
    (Printed (ed25519_pubkey the_key) (the_words ++ [10%N]))) as (id & out & Hended & _ & Hnode).
  - reflexivity.
  - reflexivity.
  - vm_compute. reflexivity.
  - assert (ed25519_pubkey the_key = id ∧ the_words ++ [10%N] = out) as [<- <-] by (split; congruence).
    destruct (bfte (a_day []) ∅ run_opts the_machine) as [[ended| |] host3] eqn:Hrun; [|vm_compute in Hrun; discriminate..].
    destruct ended as [| |node state]; [vm_compute in Hrun; discriminate..|].
    exists (ed25519_pubkey the_key), node, state, host3. split; [vm_compute; reflexivity|]. split; [reflexivity|].
    refine (Hnode (a_day []) ∅ run_opts the_machine "secret"%string [32%N] [10%N] node state host3 eq_refl eq_refl _ _ Hrun);
      repeat constructor.
Defined.

(** [init] where there is a consensus. *)
Definition the_db : NodeDb := MkNodeDb (db toy_c) (MkAddrDb ∅ ∅ ∅) None.
Definition with_consensus : Host := MkHost (text_files the_machine) {["data"%string := the_db]}.
Lemma existing_consensus_kept_witness :
  (bfte (a_day []) ∅ init_opts with_consensus).1 = Err "Failed to create consensus"%string ∧
  ∃ d', databases (bfte (a_day []) ∅ init_opts with_consensus).2 !! "data"%string = Some d' ∧
    same_params (db toy_c) (nd_consensus d').
Proof.
  destruct (existing_consensus_kept (a_day []) ∅ init_opts with_consensus "data"%string the_db) as (d' & Hd' & Hsame & _).
  - reflexivity.
  - apply (reachable_wf toy_c). apply reachable_toy_c.
  - split; [vm_compute; reflexivity|]. exists d'. split; [exact Hd'|exact Hsame].
Defined.
End StartupWitnesses.
