(* ===== verification/Values.v ===== *)
(** * Small values: payloads, sets of peers, keys, versions and error messages
      ([consensus-core/src/bincode.rs], [peer_set.rs], [peer.rs], [ver.rs],
      [module.rs], [block.rs], [derive-secret/src/lib.rs], [util-error/src/fmt.rs],
      [util-fmt-opt/src/lib.rs], [module/src/kinds.rs])

    The conversions between the types of the other files and the plain values of
    Rust, and how values are printed. *)
From Stdlib Require Import Ascii String.
From S2P Require Import Prelude ArrayType Peers Core Module Ctrl Secret Text Startup.

(** ** Payloads ([framed_payload_define!])

    A payload is its bytes.  Its slice type is a view of the bytes that bincode
    writes as they are, without a length in front. *)
Module Framed.
Definition as_inner_slice (p : Payload) : Payload := p.
Definition empty : Payload := [].
(** [From] in both directions, for [Arc<\[u8\]>] and [Vec<u8>] *)
Definition from_bytes (bytes : list N) : Payload := bytes.
Definition into_bytes (p : Payload) : list N := p.
(** [Encode] of the slice type *)
Definition encode_slice (slice : list N) : list N := slice.
(** [Hashable] of the slice type, and [hash] of the payload type *)
Definition hash_slice `{Crypto} (slice : list N) : N := blake3 (encode_slice slice).
End Framed.

(** A payload holds the bytes it was made of, and is hashed without its length:
    the hash of a payload is the hash of the bytes, and two payloads of the same
    bytes are one. *)
Theorem framed_payload `{Crypto} (bytes : list N) :
  Framed.into_bytes (Framed.from_bytes bytes) = bytes ∧
  Framed.hash_slice (Framed.as_inner_slice (Framed.from_bytes bytes)) = payload_hash_of bytes ∧
  Framed.hash_slice (Framed.as_inner_slice Framed.empty) = blake3 [].
Proof. done. Qed.

(** ** Sets of peers *)
Module PeerSets.
(** [From<\[PeerPubkey; N\]>], [From<Vec<PeerPubkey>>] *)
Definition from_array (value : list PeerPubkey) : list PeerPubkey := PeerSet.sort_unstable value.
Definition from_vec (value : list PeerPubkey) : list PeerPubkey := PeerSet.sort_unstable value.
(** [IntoIterator] by value and by reference, [Deref] and [as_slice] *)
Definition into_iter (s : list PeerPubkey) : list PeerPubkey := s.
Definition as_slice (s : list PeerPubkey) : list PeerPubkey := s.
(** [ToNumPeers] *)
Definition peer_set_to_num_peers {E} (s : list PeerPubkey) : outcome E N := NumPeers.to_num_peers (as_slice s).
(** What [insert] makes of the same keys, one after the other. *)
Definition insert_all (l : list PeerPubkey) : list PeerPubkey := foldl (λ s pk, (PeerSet.insert s pk).2) PeerSet.new l.
End PeerSets.

Lemma insert_all_go l s :
  PeerSet.wf s → let s' := foldl (λ s pk, (PeerSet.insert s pk).2) s l in PeerSet.wf s' ∧ ∀ x, x ∈ s' ↔ x ∈ s ∨ x ∈ l.
Proof.
  revert s. induction l as [|pk l IH]; intros s Hs; cbn [foldl].
  - split; [done|]. intros x. rewrite elem_of_nil. tauto.
  - destruct (IH _ (PeerSet.peer_insert_wf s pk Hs)) as [Hwf Hel]. split; [exact Hwf|].
    intros x. rewrite Hel, PeerSet.elem_of_insert, elem_of_cons by done. tauto.
Qed.

(** A set of peers made of a vector has the keys of the vector, sorted, with
    their repetitions; so it is the set that [insert] builds exactly when no key
    is repeated. *)
Theorem peer_set_from_vec (l : list PeerPubkey) :
  PeerSets.from_vec l ≡ₚ l ∧ StronglySorted N.le (PeerSets.from_vec l) ∧
  (PeerSets.from_vec l = PeerSets.insert_all l ↔ NoDup l) ∧
  PeerSets.from_vec (PeerSets.into_iter (PeerSets.from_vec l)) = PeerSets.from_vec l.
Proof.
  unfold PeerSets.from_vec, PeerSets.into_iter, PeerSets.insert_all.
  assert (PeerSet.wf PeerSet.new) as Hnew by (split; constructor).
  destruct (insert_all_go l PeerSet.new Hnew) as [[Hs Hnd] Hel]. split_and!.
  - apply PeerSet.sort_unstable_perm.
  - apply PeerSet.sort_unstable_sorted.
  - split.
    + intros Heq. rewrite <-(PeerSet.sort_unstable_perm l), Heq. exact Hnd.
    + intros Hl. apply (StronglySorted_unique N.le); [apply PeerSet.sort_unstable_sorted|done|].
      rewrite PeerSet.sort_unstable_perm. apply NoDup_Permutation; [done..|]. intros x. rewrite Hel.
      unfold PeerSet.new. rewrite elem_of_nil. tauto.
  - apply (StronglySorted_unique N.le); [apply PeerSet.sort_unstable_sorted..|apply PeerSet.sort_unstable_perm].
Qed.

(** ** Indices, keys, versions and ids *)
Definition PeerIdx_new (i : N) : PeerIdx := i.
Definition peer_idx_as_usize (i : PeerIdx) : N := i.

(** [TryFrom<PeerPubkey> for VerifyingKey] *)
Definition try_verifying_key `{Crypto} (pk : PeerPubkey) : option PeerPubkey :=
  if verifying_key_ok pk then Some pk else None.
(** [PeerSeckey::generate] from 32 random bytes, and [pubkey] *)
Definition peer_seckey_generate (random : list N) : N := seckey_of random.
Definition peer_seckey_pubkey `{Crypto} (sk : N) : PeerPubkey := ed25519_pubkey sk.

Definition version_new (major minor : N) : ConsensusVersion.t := ConsensusVersion.mk major minor.
Definition version_major (v : ConsensusVersion.t) : N := ConsensusVersion.major v.
Definition version_minor (v : ConsensusVersion.t) : N := ConsensusVersion.minor v.

(** [ModuleId::new], [ModuleKind::new], and the kinds of the repository *)
Definition ModuleId_new (id : N) : ModuleId := id.
Definition ModuleKind_new (id : N) : ModuleKind := id.
Definition MODULE_KIND_CONSENSUS_CTRL : ModuleKind := ModuleKind_new 0.
Definition MODULE_KIND_META : ModuleKind := ModuleKind_new 1.

(** [From<blake3::Hash>] of the hash types, and back *)
Definition hash_to_array (h : N) : list N := hash_bytes h.
Definition array_to_hash (a : list N) : N := from_be_bytes a.

(** A generated key can be used: its public key is a point, signatures under it
    verify.  A hash in a header is the digest of the library. *)
Theorem keys_and_hashes `{Crypto} `{!CryptoLaws} (random m : list N) :
  let sk := peer_seckey_generate random in
  try_verifying_key (peer_seckey_pubkey sk) = Some (peer_seckey_pubkey sk) ∧
  verify_strict (peer_seckey_pubkey sk) m (ed25519_sign sk m) = true ∧
  array_to_hash (hash_to_array (blake3 m)) = blake3 m.
Proof.
  intros sk. subst sk. unfold try_verifying_key, peer_seckey_pubkey. rewrite pubkey_is_valid. split; [done|].
  split; [apply sign_verifies|]. unfold array_to_hash, hash_to_array, hash_bytes.
  rewrite from_to_mod. apply N.mod_small, blake3_size.
Qed.

(** ** Secrets in print *)
Definition ChildId_new (v : N) : N := v.
(** [Debug], and [Display] of what [reveal_display] gives *)
Definition secret_debug (s : DeriveableSecret) : RString :=
  chars "DeriveableSecret { level: " ++ display (level s) ++ chars " }".
Definition display_secret_fmt `{SecretLibs} (s : DeriveableSecret) : RString := chars (reveal_display s).
(** [DeriveableSecretError] *)
Definition secret_error_from (msg : RString) : RString := msg.
Definition secret_error_as_ref (e : RString) : RString := e.
Definition secret_error_fmt (e : RString) : RString := chars "SecretKey error: " ++ secret_error_as_ref e.

(** Printing a secret for debugging tells its level, and nothing of its bytes;
    what is printed on purpose is read back. *)
Theorem secret_in_print `{SecretLibsLaws} (s t : DeriveableSecret) :
  (level s = level t → secret_debug s = secret_debug t) ∧
  (length (secret_bytes s) = 32%nat →
     from_str (string_of_list_ascii (ascii_of_N <$> display_secret_fmt s)) = Ok (MkSecret (secret_bytes s) 0)).
Proof.
  split; [by unfold secret_debug; intros ->|]. intros Hlen.
  assert (string_of_list_ascii (ascii_of_N <$> display_secret_fmt s) = mnemonic_of (secret_bytes s)) as ->.
  { unfold display_secret_fmt, chars, reveal_display. rewrite <-list_fmap_compose.
    rewrite (list_fmap_ext _ id); [by rewrite list_fmap_id, string_of_list_ascii_of_string|].
    intros i x _. apply ascii_N_embedding. }
  unfold from_str. rewrite mnemonic_entropy by done. by rewrite decide_True.
Qed.

(** ** Messages of errors ([util-error/src/fmt.rs]) *)

(** An error, and one with a [source] that caused it. *)
Inductive StdError := RootError (message : RString) | CausedError (message : RString) (source : StdError).
(** [FmtCompactError]: the loop over the sources. *)
Fixpoint fmt_compact_error (error : StdError) : RString :=
  match error with
  | RootError message => message
  | CausedError message source => message ++ chars ": " ++ fmt_compact_error source
  end.
(** [FmtCompactResult], and [FmtOption] of [util-fmt-opt] *)
Definition fmt_compact_result {O} (fmt : O → RString) (r : outcome StdError O) : outcome Empty_set RString :=
  match r with Ok o => Ok (fmt o) | Err e => Ok (fmt_compact_error e) | Panic w => Panic w end.
Definition fmt_option {O} (fmt : O → RString) (o : option O) : RString :=
  match o with Some o => fmt o | None => chars "-" end.

Fixpoint error_chain (e : StdError) : list RString :=
  match e with RootError message => [message] | CausedError message source => message :: error_chain source end.
Fixpoint join (sep : RString) (l : list RString) : RString :=
  match l with
  | [] => []
  | [x] => x
  | x :: l => x ++ sep ++ join sep l
  end.

(** A compact message is the messages of the whole chain of causes, from the
    error down to its root, with a colon between them: none is left out, and none
    is printed twice. *)
Theorem fmt_compact_chain (e : StdError) : fmt_compact_error e = join (chars ": ") (error_chain e).
Proof.
  induction e as [message|message source IH]; [done|]. cbn [fmt_compact_error error_chain join].
  rewrite IH. by destruct source.
Qed.
