(* ===== verification/Runtime.v ===== *)
(** * What a node runs ([node/src/run_consensus.rs], [finality_vote_query_task.rs],
      [peer_address.rs], [app_api.rs], [handle.rs], [node-app/src/lib.rs],
      [node-ui-axum/src/lib.rs])

    The loops around the rounds, the queries and the gossip, the tasks of the
    application and of the web interface, and the socket of the web interface.
    What the network, the environment and the operating system answer is an
    argument: [Attempt]s for a query, [ListenSystem] for sockets. *)
From Stdlib Require Import Ascii String.
From S2P Require Import Prelude VoteSet Peers Core Db ConsDb ConsInv Consensus ConsSteps ConsSpec ConsProps Module Ctrl NodeApp Node Network NetInv Sim Replica PeerAddr Rpc Join Text Startup Values.

(** ** The loop over the rounds ([Node::run_consensus]) *)

(** The pause after a round: [BFTE_TEST_ROUND_DELAY] in milliseconds. *)
Definition BFTE_TEST_ROUND_DELAY : RString := chars "BFTE_TEST_ROUND_DELAY".
Definition round_delay (env : option RString) : outcome Empty_set (option N) :=
  match env with
  | None => Ok None
  | Some delay =>
      match parse_uint u64_max delay with
      | Some delay => Ok (Some delay)
      | None => Panic "Invalid BFTE_TEST_ROUND_DELAY"
      end
  end.
(** One turn of the loop; [round] is what [run_consensus_round] came to. *)
Definition run_consensus_turn (env : option RString) (round : outcome Whatever ()) : outcome Empty_set (option N) :=
  match round with
  | Ok _ => round_delay env
  | Err _ => Panic "Consensus failure"
  | Panic w => Panic w
  end.

(** ** Queries for finality votes ([run_peer_finality_vote_query_task]) *)

(** What comes of one attempt: no connection, a request that fails, or an answer. *)
Inductive Attempt := NoConnection | RequestFails | Answers (resp : WaitFinalityVoteResponse).

Section Queries.
Context `{Crypto} `{Bincode} `{CItemsCodec}.
Implicit Types (self : Node) (pk : PeerPubkey).

(** [peer_finality_vote_query]: the round of the request is read before the
    connection is made. *)
Definition finality_attempt self pk (a : Attempt) : outcome Whatever () * Node :=
  match finality_vote_request self pk with
  | Ok _ =>
      match a with
      | NoConnection => (Err "Failed to connect to peer", self)
      | RequestFails => (Err "Failed request", self)
      | Answers resp => peer_finality_vote_query self pk resp
      end
  | Err e => match e with end
  | Panic w => (Panic w, self)
  end.
(** The task: attempts that fail are made again, without an end ([RPC_BACKOFF]
    has no limit); one that succeeds starts the next query.  A node does not ask
    itself. *)
Fixpoint query_attempts self pk (attempts : list Attempt) : outcome Empty_set Node :=
  match attempts with
  | [] => Ok self
  | a :: attempts =>
      match finality_attempt self pk a with
      | (Panic w, _) => Panic w
      | (_, self') => query_attempts self' pk attempts
      end
  end.
Definition run_peer_finality_vote_query_task self pk (attempts : list Attempt) : outcome Empty_set Node :=
  if decide (peer_pubkey self = Some pk) then Ok self else query_attempts self pk attempts.

Definition answers_of (attempts : list Attempt) : list WaitFinalityVoteResponse :=
  omap (λ a, match a with Answers resp => Some resp | _ => None end) attempts.
(** The answers alone, one after the other. *)
Fixpoint take_answers self pk (resps : list WaitFinalityVoteResponse) : outcome Empty_set Node :=
  match resps with
  | [] => Ok self
  | resp :: resps =>
      match peer_finality_vote_query self pk resp with
      | (Panic w, _) => Panic w
      | (_, self') => take_answers self' pk resps
      end
  end.

Lemma finality_request_total self pk : ∃ r, finality_vote_request self pk = Ok r.
Proof. by eexists. Qed.

Lemma query_attempts_answers self pk attempts : query_attempts self pk attempts = take_answers self pk (answers_of attempts).
Proof.
  revert self. induction attempts as [|a attempts IH]; intros self; [done|]. cbn [query_attempts].
  unfold finality_attempt. destruct (finality_request_total self pk) as [r ->].
  destruct a as [| |resp]; cbn; [apply IH..|]. destruct (peer_finality_vote_query self pk resp) as [[[]|e|w] self']; [apply IH..|done].
Qed.

(** The queries only take in what is answered: attempts that fail, however many
    and in whatever order, change nothing and end nothing, and the own key is never
    asked; so what a peer's task does to the node is what its answers do, in their
    order, each one step of the consensus, or the end of the process. *)
Theorem failed_queries_change_nothing self pk (attempts : list Attempt) :
  (peer_pubkey self = Some pk → run_peer_finality_vote_query_task self pk attempts = Ok self) ∧
  (peer_pubkey self ≠ Some pk →
     run_peer_finality_vote_query_task self pk attempts = take_answers self pk (answers_of attempts)) ∧
  ∀ self', run_peer_finality_vote_query_task self pk attempts = Ok self' →
    rtc cstep (node_consensus self) (node_consensus self') ∧ peer_pubkey self' = peer_pubkey self ∧
    round_run self' = round_run self.
Proof.
  unfold run_peer_finality_vote_query_task. split; [|split].
  - intros Hpk. by rewrite decide_True.
  - intros Hpk. rewrite decide_False by done. apply query_attempts_answers.
  - intros self'. case_decide as Hpk; [intros [= <-]; split_and!; [apply rtc_refl|done..]|].
    rewrite query_attempts_answers. clear Hpk. revert self. induction (answers_of attempts) as [|resp resps IH]; intros self; cbn.
    { intros [= <-]. split_and!; [apply rtc_refl|done..]. }
    assert (∀ o self1, peer_finality_vote_query self pk resp = (o, self1) →
      rtc cstep (node_consensus self) (node_consensus self1) ∧ peer_pubkey self1 = peer_pubkey self ∧
      round_run self1 = round_run self) as Hone.
    { unfold peer_finality_vote_query. intros o self1.
      destruct (verify_sig_peer_pubkey _ _); [|by intros [= _ <-]; split_and!; [apply rtc_refl|..]..].
      destruct (process_finality_vote_update_response _ _ _) as [r c'] eqn:Hp. intros Hq.
      assert (self1 = set_node_consensus c' self) as -> by (destruct r; by injection Hq as _ <-).
      split_and!; [|done..]. apply rtc_once. rewrite <-(f_equal snd Hp : _ = c'). apply CFinality. }
    destruct (peer_finality_vote_query self pk resp) as [o self1] eqn:Hq. destruct (Hone _ _ eq_refl) as (Hc & Hk & Hr).
    assert (take_answers self1 pk resps = Ok self' → rtc cstep (node_consensus self) (node_consensus self') ∧
      peer_pubkey self' = peer_pubkey self ∧ round_run self' = round_run self) as Hrest.
    { intros (Hc' & Hk' & Hr')%IH. split_and!; [by etrans|congruence|congruence]. }
    by destruct o.
Qed.
End Queries.

(** ** Pushing an address ([send_push_gossip]) *)
Section Push.
Context `{Crypto} `{Hashable AddressUpdate.t} {NodeId Connection : Type} `{Countable NodeId}.
Variable node_id_of : N → option NodeId.
Variable close_reason : Connection → option ().
(** What [endpoint.connect] returns, and whether the request goes through. *)
Variable dial : NodeId → option Connection.
Variable delivers : Connection → Signed AddressUpdate.t → bool.
Implicit Types (pool : gmap NodeId Connection) (db : AddrDb).

(** The messages that were sent, with the pool and the tables. *)
Definition send_push_gossip (self_pubkey : option PeerPubkey) (node_alive : bool) (dst_peer : PeerPubkey)
    (update : Signed AddressUpdate.t) pool db :
    outcome Whatever () * list (PeerPubkey * Signed AddressUpdate.t) * gmap NodeId Connection * AddrDb :=
  if decide (Some dst_peer = self_pubkey) then (Ok (), [], pool, db)
  else
    match connect node_id_of close_reason self_pubkey node_alive dial dst_peer pool db with
    | (Ok conn, pool, db) =>
        if delivers conn update then (Ok (), [(dst_peer, update)], pool, db) else (Err "RPC failed", [], pool, db)
    | (Err _, pool, db) => (Err "Failed to connect", [], pool, db)
    | (Panic w, pool, db) => (Panic w, [], pool, db)
    end.
(** One turn of [run_push_gossip]: a failure is logged. *)
Definition push_gossip_turn (self_pubkey : option PeerPubkey) (node_alive : bool) (r : Draws) pool db :
    outcome Empty_set () * list (PeerPubkey * Signed AddressUpdate.t) * gmap NodeId Connection * AddrDb :=
  match run_push_gossip self_pubkey r db with
  | None => (Ok (), [], pool, db)
  | Some (peer_pubkey, address_update) =>
      match send_push_gossip self_pubkey node_alive peer_pubkey address_update pool db with
      | (Ok _, sent, pool, db) | (Err _, sent, pool, db) => (Ok (), sent, pool, db)
      | (Panic w, sent, pool, db) => (Panic w, sent, pool, db)
      end
  end.

(** A push only tells what is stored: it sends at most one message, to another
    peer that has an address in the tables, with an address of a third peer as it
    is stored; it changes no address; and it never ends the process. *)
Theorem push_tells_stored self_pubkey node_alive r pool db :
  let '(o, sent, _, db') := push_gossip_turn self_pubkey node_alive r pool db in
  o = Ok () ∧ peer_addresses db' = peer_addresses db ∧ (length sent ≤ 1)%nat ∧
  ∀ dst u, (dst, u) ∈ sent → Some dst ≠ self_pubkey ∧ is_Some (peer_addresses db !! dst) ∧
    ∃ pk, peer_addresses db !! pk = Some u ∧ dst ≠ AddressUpdate.peer_pubkey (signed_inner u).
Proof.
  unfold push_gossip_turn. destruct (run_push_gossip self_pubkey r db) as [[dst u]|] eqn:Hr; [|split_and!; [done|done|cbn; lia|by intros ?? ?%not_elem_of_nil]].
  assert (Some dst ≠ self_pubkey ∧ is_Some (peer_addresses db !! dst) ∧
    ∃ pk, peer_addresses db !! pk = Some u ∧ dst ≠ AddressUpdate.peer_pubkey (signed_inner u)) as Hpick.
  { unfold run_push_gossip in Hr. apply bind_Some in Hr as ([dst' u'] & Hp & Hr).
    case_decide as Hs; [done|]. case_decide as Ho; [done|]. injection Hr as -> ->. unfold pick_push_gossip_pair in Hp.
    destruct (get_random (peer_addresses db) (pivot1 r) (coin1 r)) as [[p1 v1]|] eqn:H1'; [|done].
    destruct (get_random (peer_addresses db) (pivot2 r) (coin2 r)) as [[p2 v2]|] eqn:H2'; [|done]. injection Hp as -> ->.
    apply get_random_elem in H1', H2'. split_and!; eauto. }
  unfold send_push_gossip. case_decide; [naive_solver|].
  assert (∀ o pool' db', connect node_id_of close_reason self_pubkey node_alive dial dst pool db = (o, pool', db') →
    peer_addresses db' = peer_addresses db ∧ ∀ w, o ≠ Panic w) as Hconn.
  { unfold connect, get_peer_iroh_addr, get_peer_addr, mark_peer_addr_as_needed. intros o pool' db'.
    repeat (case_match; simplify_eq/=; try by intros [= <- <- <-]). }
  destruct (connect _ _ _ _ _ _ _ _) as [[[conn|e|w] pool'] db'] eqn:Hc; destruct (Hconn _ _ _ eq_refl) as [Hd Hp].
  - destruct (delivers conn u); (split_and!; [done|done|cbn; lia|]).
    + intros dst' u' Hin%list_elem_of_singleton. by injection Hin as -> ->.
    + by intros ?? ?%not_elem_of_nil.
  - split_and!; [done|done|cbn; lia|]. by intros ?? ?%not_elem_of_nil.
  - by destruct (Hp w).
Qed.
End Push.

(** ** Handles, and what the application asks the node for ([handle.rs], [app_api.rs]) *)

(** [Weak::upgrade], [NodeHandle::db] *)
Definition handle_db {D} (node : option D) : outcome () D :=
  match node with Some db => Ok db | None => Err () end.
(** [node_ref_wait]: without a node the application waits for ever. *)
Definition node_ref_wait (node : option Life) : option Life := node.
(** [NodeAppApi::get_consensus], [get_peer_pubkey], [get_consensus_params]; [None]
    while they wait. *)
Definition app_get_consensus (node : option Life) : option Consensus := n ← node_ref_wait node; life_consensus n.
Definition app_get_peer_pubkey `{Crypto} (node : option Life) : option (option PeerPubkey) :=
  n ← node_ref_wait node; Some (life_pubkey n).
Definition app_get_consensus_params (node : option Life) (round : BlockRound) : option (outcome Empty_set ConsensusParams.t) :=
  c ← app_get_consensus node; Some (get_round_params c round).

(** [Node::consensus], [consensus_expect] *)
Definition node_consensus_opt (l : Life) : option Consensus := life_consensus l.
Definition consensus_expect (l : Life) : outcome Empty_set Consensus :=
  expect "Must be called only when consensus is running" (life_consensus l).

(** [spawn_app_task]: an error of the application ends the process; there is no
    other end ([Infallible]). *)
Definition app_task_ends (result : StdError) : outcome Empty_set Empty_set :=
  Panic (string_of_list_ascii (ascii_of_N <$> (chars "Node app level processing failed: " ++ fmt_compact_error result))).

(** The router of a node ([make_iroh_router]): one protocol. *)
Definition ALPN_BFTE_V0 : list N := chars "bfte-p2p-v0".
Definition accepts_protocol (alpn : list N) : bool := bool_decide (alpn = ALPN_BFTE_V0).

(** *** [NodeApp::new] *)
Section NewApp.
Context `{Crypto} `{Bincode} `{CtrlCodecs} `{MetaCodecs} {Y : Type}.

(** The application on the tables that are there; nothing is loaded yet.
    [None] while there is no node or no consensus. *)
Definition node_app_new (inits : gmap ModuleKind IModuleInit) (node : option Life) (db : AppDb (Y:=Y)) :
    outcome Empty_set (option (option PeerPubkey * NodeApp (Y:=Y))) :=
  match inits !! CTRL_KIND with
  | None => Panic "modules_inits must have ConsensusCtrlModuleInit"
  | Some _ =>
      match app_get_peer_pubkey node, app_get_consensus node with
      | Some peer_pubkey, Some c =>
          Ok (Some (peer_pubkey, MkNodeApp db (watches c) ∅ ∅ None None))
      | _, _ => Ok None
      end
  end.

(** On an empty database it is the application that [Replica] starts with. *)
Theorem node_app_new_fresh inits (l : Life) (c : Consensus) (db : AppDb (Y:=Y)) peer_pubkey a :
  app_cur_round db = None → app_modules db = ∅ →
  node_app_new inits (Some l) db = Ok (Some (peer_pubkey, a)) →
  peer_pubkey = life_pubkey l ∧ is_Some (life_consensus l) ∧ app_db a = db ∧ fresh_node a.
Proof.
  unfold node_app_new, app_get_peer_pubkey, app_get_consensus, node_ref_wait. intros Hr Hm.
  destruct (inits !! CTRL_KIND); [|done]. cbn. destruct (life_consensus l) as [c'|]; [|done]. cbn.
  intros [= <- <-]. split_and!; [done|by eexists|done..].
Qed.
End NewApp.

(** ** The socket of the web interface ([node-ui-axum/src/lib.rs]) *)

Inductive SocketAddr := V4 (ip : N) (port : N) | V6 (ip : N) (port : N).
Definition is_ipv4 (a : SocketAddr) : bool := match a with V4 _ _ => true | V6 _ _ => false end.
(** A socket with what was set on it, and where it is bound. *)
Record Socket := MkSocket { is_v4 : bool; reuse_port : bool; no_delay : bool; bound : option SocketAddr }.
(** A listener: the one that the process was started with, made non-blocking, or
    a socket that listens. *)
Inductive Listener := Inherited (fd : N) | Listening (socket : Socket) (backlog : N).

(** What the system and [ListenFd] answer: the listener of the environment, and
    whether the calls succeed. *)
Record ListenSystem := MkListenSystem {
  take_tcp_listener : outcome () (option N);
  set_nonblocking_ok : N → bool;
  from_std_ok : N → bool;
  new_socket_ok : bool → bool;
  set_reuseport_ok : bool;
  set_nodelay_ok : bool;
  bind_ok : SocketAddr → bool;
  listen_ok : bool;
}.

Definition check (ok : bool) (msg : string) : outcome Whatever () := if ok then Ok () else Err msg.
Definition get_listener (os : ListenSystem) (bind_ui : SocketAddr) (reuseport : bool) : outcome Whatever Listener :=
  inherited ← map_err (λ _, "Failed to take listenfd tcp listener"%string) (take_tcp_listener os);
  match inherited with
  | Some fd =>
      _ ← check (set_nonblocking_ok os fd) "Failed to set socket to non-blocking";
      _ ← check (from_std_ok os fd) "Failed to convert listenfd listener";
      Ok (Inherited fd)
  | None =>
      let v4 := is_ipv4 bind_ui in
      _ ← check (new_socket_ok os v4) (if v4 then "Failed to get tcpv4 socket" else "Failed to get tcpv6 socket");
      _ ← (if reuseport then check (set_reuseport_ok os) "Failed to set reuseport" else Ok ());
      _ ← check (set_nodelay_ok os) "Failed to set nodelay";
      _ ← check (bind_ok os bind_ui) "Failed to bind";
      _ ← check (listen_ok os) "Failed to listen on socket";
      Ok (Listening (MkSocket v4 reuseport true (Some bind_ui)) 1024)
  end.

(** [run]: the settings of the server; a server that ends gives an error, or
    meets a [todo!()]. *)
Definition SESSION_INACTIVITY_MINUTES : N := 2 * 24 * 60.
Definition COMPRESS_ABOVE : N := 512.
Definition ui_run (os : ListenSystem) (bind_ui : SocketAddr) (local_addr_ok serve_ok : bool) :
    outcome Whatever Empty_set :=
  _ ← get_listener os bind_ui true;
  _ ← check local_addr_ok "Failed to get local addr";
  _ ← check serve_ok "Failed to run axum server";
  Panic "not yet implemented".

(** The interface listens where it was told: on the listener that the process was
    started with, if there is one, whatever the address of the option says, and
    else on exactly that address, on a socket of its family.  Getting the listener
    never ends the process. *)
Theorem listener_is_the_one_asked_for os bind_ui reuseport :
  match get_listener os bind_ui reuseport with
  | Ok (Inherited fd) => take_tcp_listener os = Ok (Some fd) ∧
      ∀ other reuse, get_listener os other reuse = Ok (Inherited fd)
  | Ok (Listening socket _) => take_tcp_listener os = Ok None ∧
      bound socket = Some bind_ui ∧ is_v4 socket = is_ipv4 bind_ui ∧ reuse_port socket = reuseport ∧ no_delay socket = true
  | Err _ => True
  | Panic why => take_tcp_listener os = Panic why
  end.
Proof.
  unfold get_listener, check. destruct (take_tcp_listener os) as [[fd|]|[]|w]; cbn; [..|done|done].
  - destruct (set_nonblocking_ok os fd), (from_std_ok os fd); cbn; done.
  - destruct (new_socket_ok os (is_ipv4 bind_ui)), reuseport, (set_reuseport_ok os), (set_nodelay_ok os),
      (bind_ok os bind_ui), (listen_ok os); cbn; done.
Qed.
