(* ===== verification/Stream.v ===== *)
(** * The status stream of the web interface
      ([node-ui-axum/src/routes/consensus_status.rs])

    The page with the status subscribes to four watch channels: the round with its
    timeout, the finality consensus, the finality vote and the acknowledgement of
    the application.  The stream reads them, sends what it read (twice, a
    workaround), and sleeps until something is sent on one of them.  Every read and
    everything that is sent is a step of its own.  The second part is about the
    lock inside the channel of the round. *)
From S2P Require Import Prelude Core Consensus ConsSteps Shared Ui.

(** ** Watch channels

    A channel holds its latest value, counts what was sent, and is closed when its
    sender is gone.  A receiver remembers how much it has [seen]. *)
Inductive Cell := CellRound (round : BlockRound * bool) | CellNumber (round : BlockRound).
Record Watch := MkWatch { current : Cell; version : N; alive : bool }.
Inductive Changed := ChangedOk | ChangedErr | ChangedWaits.
(** [Receiver::changed]: what was sent comes before the end. *)
Definition changed (ch : Watch) (seen : N) : Changed :=
  if decide (seen = version ch) then if alive ch then ChangedWaits else ChangedErr else ChangedOk.

(** ** The stream *)
Inductive Stage := Reading (got : list Cell) | Waiting | Ended.
Record Stream := MkStream { stage : Stage; seen : list N; events : list (list Cell) }.
Abbreviation World := (list Watch * Stream)%type.

Inductive updates_step (chans : list Watch) : Stream → Stream → Prop :=
  | updates_borrow got sn evs ch : chans !! length got = Some ch →
      updates_step chans (MkStream (Reading got) sn evs) (MkStream (Reading (got ++ [current ch])) sn evs)
  | updates_yield out sn evs : length out = length chans →
      updates_step chans (MkStream (Reading out) sn evs) (MkStream Waiting sn (evs ++ [out; out]))
  | updates_woken i ch v sn evs : chans !! i = Some ch → sn !! i = Some v → changed ch v = ChangedOk →
      updates_step chans (MkStream Waiting sn evs) (MkStream (Reading []) (<[i := version ch]> sn) evs)
  | updates_break i ch v sn evs : chans !! i = Some ch → sn !! i = Some v → changed ch v = ChangedErr →
      updates_step chans (MkStream Waiting sn evs) (MkStream Ended sn evs).
(** What the node does with the channels. *)
Inductive sender_step (chans : list Watch) : list Watch → Prop :=
  | sender_send i ch a : chans !! i = Some ch → alive ch = true →
      sender_step chans (<[i := MkWatch a (version ch + 1) true]> chans)
  | sender_gone i ch : chans !! i = Some ch →
      sender_step chans (<[i := MkWatch (current ch) (version ch) false]> chans).
Inductive stream_step : World → World → Prop :=
  | step_stream chans s s' : updates_step chans s s' → stream_step (chans, s) (chans, s')
  | step_sender chans chans' s : sender_step chans chans' → stream_step (chans, s) (chans', s).
Definition subscribed (sn : list N) : Stream := MkStream (Reading []) sn [].

(** The four channels of a node. *)
Definition current_round_with_timeout_rx (c : Consensus) : Cell := CellRound (current_round_with_timeout (watches c)).
Definition finality_consensus_rx (c : Consensus) : Cell := CellNumber (finality_consensus (watches c)).
Definition finality_self_vote_rx (c : Consensus) : Cell := CellNumber (finality_self_vote (watches c)).
Definition node_app_ack_rx (ack : BlockRound) : Cell := CellNumber ack.
Definition status_values (c : Consensus) (ack : BlockRound) : list Cell :=
  [current_round_with_timeout_rx c; finality_consensus_rx c; finality_self_vote_rx c; node_app_ack_rx ack].
Definition status_channels (c : Consensus) (ack : BlockRound) (sent : list N) : list Watch :=
  zip_with (λ a n, MkWatch a n true) (status_values c ack) sent.

(** *** What the page shows *)
Fixpoint sumN (l : list N) : N := match l with [] => 0 | x :: l => x + sumN l end.
Record stream_inv (sn0 : list N) (w : World) : Prop := {
  si_length : length (seen w.2) = length w.1;
  si_le i ch v : w.1 !! i = Some ch → seen w.2 !! i = Some v → (v ≤ version ch)%N;
  si_shown i ch : w.1 !! i = Some ch → seen w.2 !! i = Some (version ch) →
    match stage w.2 with
    | Reading got => ∀ x, got !! i = Some x → x = current ch
    | Waiting => ∃ e, last (events w.2) = Some e ∧ e !! i = Some (current ch)
    | Ended => True
    end;
  si_last : stage w.2 = Waiting → ∃ e, last (events w.2) = Some e ∧ length e = length w.1;
  si_got got : stage w.2 = Reading got → (length got ≤ length w.1)%nat;
  si_end : stage w.2 = Ended → ∃ i ch, w.1 !! i = Some ch ∧ alive ch = false;
  si_count : (N.of_nat (length (events w.2)) + 2 * sumN sn0 ≤ 2 * sumN (seen w.2) +
    match stage w.2 with Reading _ => 0 | _ => 2 end)%N;
}.

Lemma sumN_insert (sn : list N) i v v' : sn !! i = Some v → (sumN (<[i := v']> sn) + v = sumN sn + v')%N.
Proof.
  revert i. induction sn as [|x sn IH]; intros [|i]; [done..| |].
  - cbn. intros [= ->]. lia.
  - intros Hi%IH. change (x + sumN (<[i := v']> sn) + v = x + sumN sn + v')%N. lia.
Qed.
Lemma sumN_le (a b : list N) : length a = length b → (∀ i x y, a !! i = Some x → b !! i = Some y → (x ≤ y)%N) → (sumN a ≤ sumN b)%N.
Proof.
  revert b. induction a as [|x a IH]; intros [|y b] [=] Hle; [done|]. cbn.
  pose proof (Hle 0%nat x y eq_refl eq_refl) as Hxy. pose proof (IH b ltac:(done) (λ i, Hle (S i))) as Hab. lia.
Qed.

Lemma si_init (chans : list Watch) (sn0 : list N) :
  length sn0 = length chans → (∀ i ch v, chans !! i = Some ch → sn0 !! i = Some v → (v ≤ version ch)%N) →
  stream_inv sn0 (chans, subscribed sn0).
Proof.
  intros Hlen Hle. split; cbn; [done|done| |done|intros got [= <-]; cbn; lia|done|lia].
  intros i ch _ _ x Hx. rewrite lookup_nil in Hx. done.
Qed.
Lemma si_sender sn0 chans chans' s : sender_step chans chans' → stream_inv sn0 (chans, s) → stream_inv sn0 (chans', s).
Proof.
  intros Hs [Hlen Hle Hsh Hla Hgot He Hct]; cbn in *. destruct Hs as [i ch a Hi Hal|i ch Hi]; split; cbn; rewrite ?length_insert; try done.
  - intros j ch' v [(<- & <- & _)|[_ Hj]]%list_lookup_insert_Some Hv; [|by eapply Hle]. cbn.
    specialize (Hle i ch v Hi Hv). lia.
  - intros j ch' [(<- & <- & _)|[_ Hj]]%list_lookup_insert_Some Hv; [|by apply Hsh]. cbn in Hv.
    specialize (Hle i ch _ Hi Hv). lia.
  - intros (j & ch' & Hj & Hd)%He. assert (i ≠ j) as Hij by (intros ->; congruence).
    exists j, ch'. by rewrite list_lookup_insert_ne.
  - intros j ch' v [(<- & <- & _)|[_ Hj]]%list_lookup_insert_Some Hv; [exact (Hle i ch v Hi Hv)|by eapply Hle].
  - intros j ch' [(<- & <- & _)|[_ Hj]]%list_lookup_insert_Some Hv; [exact (Hsh i ch Hi Hv)|by apply Hsh].
  - intros (j & ch' & Hj & Hd)%He. destruct (decide (i = j)) as [<-|Hij].
    + exists i, (MkWatch (current ch) (version ch) false). split; [|done]. apply list_lookup_insert_eq. by eapply lookup_lt_Some.
    + exists j, ch'. by rewrite list_lookup_insert_ne.
Qed.
Lemma si_updates sn0 chans s s' : updates_step chans s s' → stream_inv sn0 (chans, s) → stream_inv sn0 (chans, s').
Proof.
  intros Hs [Hlen Hle Hsh Hla Hgot He Hct]; cbn in *.
  destruct Hs as [got sn evs ch Hch|out sn evs Hout|i ch v sn evs Hi Hv Hc|i ch v sn evs Hi Hv Hc]; cbn in *; (split; cbn; try done).
  - intros i ch' Hi Hup x [Hx|[Hl Hx]]%lookup_app_Some; [by apply (Hsh i)|].
    apply list_lookup_singleton_Some in Hx as [Hl0 <-]. assert (i = length got) as -> by lia. congruence.
  - intros got' [= <-]. rewrite length_app. cbn. apply lookup_lt_Some in Hch. lia.
  - intros i ch' Hi Hup. exists out. split; [by rewrite last_app|].
    destruct (lookup_lt_is_Some_2 out i) as [x Hx]; [rewrite Hout; by eapply lookup_lt_Some|].
    by rewrite Hx, (Hsh i ch' Hi Hup x Hx).
  - intros _. exists out. by rewrite last_app.
  - rewrite length_app. cbn. lia.
  - by rewrite length_insert.
  - intros j ch' v' Hj [(<- & <- & _)|[_ Hj']]%list_lookup_insert_Some; [|by eapply Hle].
    rewrite Hi in Hj. injection Hj as ->. done.
  - intros got [= <-]. cbn. lia.
  - unfold changed in Hc. case_decide as Hne; [by destruct (alive ch)|].
    specialize (Hle i ch v Hi Hv). pose proof (sumN_insert sn i v (version ch) Hv). lia.
  - intros _. exists i, ch. split; [done|]. unfold changed in Hc. case_decide; [by destruct (alive ch)|done].
Qed.
Lemma stream_inv_reach sn0 w w' : rtc stream_step w w' → stream_inv sn0 w → stream_inv sn0 w'.
Proof.
  induction 1 as [w|w w1 w2 Hs _ IH]; [done|]. intros Hi. apply IH.
  destruct Hs as [chans s s' Hs|chans chans' s Hs]; [by eapply si_updates|by eapply si_sender].
Qed.

Lemma sum_seen_le sn0 w : stream_inv sn0 w → (sumN (seen w.2) ≤ sumN (version <$> w.1))%N.
Proof.
  intros Hi. apply sumN_le; [rewrite length_fmap; by apply (si_length _ _ Hi)|].
  intros i x y Hx Hy. rewrite list_lookup_fmap in Hy. destruct (w.1 !! i) as [ch|] eqn:Hch; [|done].
  injection Hy as <-. by apply (si_le _ _ Hi i ch).
Qed.

(** *** The stream comes to rest *)
Lemma updates_to_yield chans got sn evs :
  (length got ≤ length chans)%nat → ∃ evs', rtc (updates_step chans) (MkStream (Reading got) sn evs) (MkStream Waiting sn evs').
Proof.
  remember (length chans - length got)%nat as n eqn:Hn. revert got Hn. induction n as [|n IH]; intros got Hn Hle.
  - eexists. apply rtc_once, updates_yield. lia.
  - destruct (lookup_lt_is_Some_2 chans (length got)) as [ch Hch]; [lia|].
    destruct (IH (got ++ [current ch])) as [evs' Hr]; [rewrite length_app; cbn; lia..|].
    exists evs'. by eapply rtc_l; [apply updates_borrow|].
Qed.
(** Every receiver waits. *)
Definition asleep (chans : list Watch) (s : Stream) : Prop :=
  stage s = Waiting ∧ ∀ i ch v, chans !! i = Some ch → seen s !! i = Some v → changed ch v = ChangedWaits.
Lemma asleep_or_not (chans : list Watch) (sn : list N) :
  (∀ i ch v, chans !! i = Some ch → sn !! i = Some v → changed ch v = ChangedWaits) ∨
  ∃ i ch v, chans !! i = Some ch ∧ sn !! i = Some v ∧ changed ch v ≠ ChangedWaits.
Proof.
  revert sn. induction chans as [|ch chans IH]; intros [|v sn]; [by left; intros [|?]..|].
  destruct (changed ch v) eqn:Hc; [right; exists 0%nat, ch, v; by rewrite Hc..|].
  destruct (IH sn) as [Hall|(i & ch' & v' & Hi)]; [|right; by exists (S i), ch', v'].
  left. intros [|i] ch' v'; cbn; [by intros [= ->] [= ->]|apply Hall].
Qed.
Lemma stream_rests sn0 chans s :
  stream_inv sn0 (chans, s) → ∃ s', rtc (updates_step chans) s s' ∧ (stage s' = Ended ∨ asleep chans s').
Proof.
  remember (N.to_nat (sumN (version <$> chans) - sumN (seen s))) as n eqn:Hn.
  revert s Hn. induction n as [n IH] using lt_wf_ind. intros [st sn evs] Hn Hinv.
  assert (∃ evs' st', rtc (updates_step chans) (MkStream st sn evs) (MkStream st' sn evs') ∧ ∀ got, st' ≠ Reading got)
    as (evs1 & st1 & Hr1 & Hst1).
  { destruct st as [got| |]; [|by exists evs, Waiting..|by exists evs, Ended].
    destruct (updates_to_yield chans got sn evs) as [evs' Hr]; [by apply (si_got _ _ Hinv)|]. by exists evs', Waiting. }
  destruct st1 as [got| |]; [by destruct (Hst1 got)| |by exists (MkStream Ended sn evs1); split; [|left]].
  destruct (asleep_or_not chans sn) as [Hall|(i & ch & v & Hi & Hv & Hc)].
  { exists (MkStream Waiting sn evs1). split; [done|right]. by split. }
  destruct (changed ch v) eqn:Hch; [| |done].
  2: { exists (MkStream Ended sn evs1). split; [|by left]. eapply rtc_r; [done|by eapply updates_break]. }
  assert (updates_step chans (MkStream Waiting sn evs1) (MkStream (Reading []) (<[i := version ch]> sn) evs1)) as Hw
    by by eapply updates_woken.
  assert (stream_inv sn0 (chans, MkStream (Reading []) (<[i := version ch]> sn) evs1)) as Hinv'.
  { eapply si_updates; [exact Hw|]. clear -Hinv Hr1.
    assert (rtc stream_step (chans, MkStream st sn evs) (chans, MkStream Waiting sn evs1)) as Hr.
    { eapply (rtc_congruence (λ s, (chans, s))); [|exact Hr1]. by constructor. }
    by eapply stream_inv_reach. }
  assert (v < version ch)%N as Hlt.
  { unfold changed in Hch. pose proof (si_le _ _ Hinv i ch v Hi Hv). case_decide; [by destruct (alive ch)|lia]. }
  assert (sumN (<[i := version ch]> sn) ≤ sumN (version <$> chans))%N as Hle by (by apply (sum_seen_le sn0 (chans, MkStream (Reading []) _ evs1))).
  pose proof (sumN_insert sn i v (version ch) Hv) as Hsum. cbn [seen] in *.
  destruct (IH (N.to_nat (sumN (version <$> chans) - sumN (<[i := version ch]> sn))) ltac:(lia) (MkStream (Reading []) (<[i := version ch]> sn) evs1) eq_refl Hinv') as (s' & Hr' & Hs').
  exists s'. split; [|done]. etrans; [exact Hr1|]. by eapply rtc_l.
Qed.

(** The page settles on the truth, whatever the node sends and however its
    sending and the reads of the stream interleave.  From every state the stream
    comes by its own steps to an end, which takes a channel whose sender is gone, or to
    sleep; whenever it sleeps, the latest event shows the current values of all
    channels; and there are at most two events for the page itself and two for
    each message that was sent since the receivers were made. *)
Theorem status_page_settles (chans0 chans : list Watch) (sn0 : list N) (s : Stream) :
  length sn0 = length chans0 → (∀ i ch v, chans0 !! i = Some ch → sn0 !! i = Some v → (v ≤ version ch)%N) →
  rtc stream_step (chans0, subscribed sn0) (chans, s) →
  (∃ s', rtc (updates_step chans) s s' ∧ (stage s' = Ended ∨ asleep chans s')) ∧
  (asleep chans s → last (events s) = Some (current <$> chans)) ∧
  (stage s = Ended → ∃ i ch, chans !! i = Some ch ∧ alive ch = false) ∧
  (N.of_nat (length (events s)) ≤ 2 + 2 * (sumN (version <$> chans) - sumN sn0))%N.
Proof.
  intros Hlen Hle Hr. pose proof (stream_inv_reach _ _ _ Hr (si_init _ _ Hlen Hle)) as Hi. split_and!.
  - by eapply stream_rests.
  - intros [Hst Hsl]. destruct (si_last _ _ Hi Hst) as (e & He & Hel). cbn in *. rewrite He. f_equal.
    apply list_eq. intros i. rewrite list_lookup_fmap. destruct (chans !! i) as [ch|] eqn:Hch; cbn; [|apply lookup_ge_None; rewrite Hel; by apply lookup_ge_None].
    destruct (lookup_lt_is_Some_2 (seen s) i) as [v Hv]; [pose proof (si_length _ _ Hi) as Hl; cbn in Hl; rewrite Hl; by eapply lookup_lt_Some|].
    specialize (Hsl i ch v Hch Hv). unfold changed in Hsl. case_decide as Hve; [|done]. subst v.
    pose proof (si_shown _ _ Hi i ch Hch Hv) as Hsh. cbn in Hsh. rewrite Hst in Hsh. naive_solver.
  - apply (si_end _ _ Hi).
  - pose proof (sum_seen_le _ _ Hi) as Hs. pose proof (si_count _ _ Hi) as Hc. cbn in *. destruct (stage s); lia.
Qed.

(** ** The lock of a channel

    A watch channel keeps its value behind a read-write lock, which [borrow] takes
    and gives back when the reference is dropped; the lock blocks the thread.  It
    has what the documentation says of it: writers are alone; a request for
    reading is not granted while a writer waits; and apart from that a
    request that is compatible with the holders can be granted. *)
Class WatchLockLaws `{RwLock} := {
  watch_compatible : ∀ l x, may_grant l x = true → compatible l x.2 = true;
  watch_writers_first : ∀ l t t', may_grant l (t, Shared) = true → (t', Exclusive) ∉ queue l;
  watch_reads : ∀ l t, compatible l Shared = true → (∀ t', (t', Exclusive) ∉ queue l) → may_grant l (t, Shared) = true;
}.

(** What is done with the channel of the round: tasks borrow the round, the hook
    of a transaction sends a new one, and the status stream formats one value with
    two borrows, whose references live until the text is made. *)
Definition borrow_round_lock : list LockOp := read_once.
Definition send_round_lock : list LockOp := write_once.
Definition format_round_lock : list LockOp := [Acquire Shared; Acquire Shared; Release; Release].
Inductive RoundUse := BorrowRound | SendRound | FormatRound.
Definition round_ops (u : RoundUse) : list LockOp :=
  match u with
  | BorrowRound => borrow_round_lock
  | SendRound => send_round_lock
  | FormatRound => format_round_lock
  end.

Section RoundLock.
Context `{WatchLockLaws}.
Implicit Types (w : LockWorld) (t : TaskId).

Inductive round_step w : LockWorld → Prop :=
  | round_lock_step w' : lock_step w w' → round_step w w'
  | round_spawn t u : default [] (programs w !! t) = [] →
      round_step w (MkLockWorld (lock w) (<[t := round_ops u]> (programs w))).

(** The stream [u] holds the lock and asks for it again; the hook [a] waits. *)
Definition stuck (a u : TaskId) w : Prop :=
  programs w !! u = Some [Acquire Shared; Release; Release] ∧
  programs w !! a = Some [Acquire Exclusive; Release] ∧
  (u, Shared) ∈ holders (lock w) ∧ (a, Exclusive) ∈ queue (lock w).

Lemma stuck_no_grant a u w x : stuck a u w → may_grant (lock w) x = false.
Proof.
  intros (_ & _ & Hu & Ha). destruct (may_grant (lock w) x) eqn:Hg; [|done]. destruct x as [t [|]].
  - by destruct (watch_writers_first _ _ a Hg).
  - apply watch_compatible in Hg. cbn in Hg. apply bool_decide_eq_true in Hg. rewrite Hg in Hu. by apply not_elem_of_nil in Hu.
Qed.
Lemma stuck_step a u w w' : round_step w w' → stuck a u w → stuck a u w'.
Proof.
  intros Hstep Hw. pose proof (λ x, stuck_no_grant a u w x Hw) as Hng. destruct Hw as (Hu & Ha & Hh & Hq).
  destruct Hstep as [w' [t m p Ht Hnew|t m p Ht Hin Hg|t m p Ht Hin]|t use Hdone].
  - split_and!; [done..|]. cbn. rewrite elem_of_app. by left.
  - by rewrite Hng in Hg.
  - assert (t ≠ u) as Htu by (intros ->; rewrite Hu in Ht; done).
    assert (t ≠ a) as Hta by (intros ->; rewrite Ha in Ht; done).
    split_and!; cbn; [by rewrite lookup_insert_ne..| |done]. apply elem_of_remove_first; [naive_solver|done].
  - assert (t ≠ u) as Htu by (intros ->; rewrite Hu in Hdone; done).
    assert (t ≠ a) as Hta by (intros ->; rewrite Ha in Hdone; done).
    split_and!; cbn; [by rewrite lookup_insert_ne..|done|done].
Qed.

(** The status page can stop a node for good.  One event of the stream and one
    new round can come to a state from which nobody ever gets the lock of the
    round's channel again, whatever tasks there are and whatever they do: the
    stream waits for the hook behind its own borrow, and the hook, which runs inside
    the commit of a transaction, waits for the stream.  So no round is announced
    any more, and no task reads the round. *)
Theorem status_page_stops_node :
  ∃ w, rtc round_step idle w ∧
    ∀ w', rtc round_step w w' →
      programs w' !! 1%N = Some [Acquire Shared; Release; Release] ∧
      programs w' !! 2%N = Some (round_ops SendRound) ∧
      ∀ x, may_grant (lock w') x = false.
Proof.
  eexists. split.
  - eapply rtc_l; [apply (round_spawn _ 1%N FormatRound); done|].
    eapply rtc_l; [apply round_lock_step; eapply (step_ask _ 1%N Shared); [reflexivity|intros m; apply not_elem_of_nil]|].
    eapply rtc_l; [apply round_lock_step; eapply (step_grant _ 1%N Shared); [reflexivity|by left|]|].
    { apply watch_reads; [done|]. cbn. intros t' Hin%list_elem_of_singleton. done. }
    eapply rtc_l; [apply (round_spawn _ 2%N SendRound); done|].
    eapply rtc_l; [apply round_lock_step; eapply (step_ask _ 2%N Exclusive); [reflexivity|intros m; apply not_elem_of_nil]|].
    apply rtc_refl.
  - intros w' Hr. assert (stuck 2%N 1%N w') as Hs; [|split; [apply Hs|split; [apply Hs|intros x; by eapply stuck_no_grant]]].
    match type of Hr with rtc _ ?w _ => assert (stuck 2%N 1%N w) as Hb end.
    { split_and!; [done|done|by left|by left]. }
    induction Hr as [|w w1 w2 Hstep _ IH]; [done|]. by eapply IH, stuck_step.
Qed.
End RoundLock.

(** ** Concrete inputs *)
Section Witnesses.
Local Instance writers_first_lock : RwLock := λ l x,
  compatible l x.2 &&
  match x.2 with Shared => forallb (λ y, bool_decide (y.2 = Shared)) (queue l) | Exclusive => true end.
Local Instance writers_first_laws : WatchLockLaws.
Proof.
  split; unfold may_grant, writers_first_lock.
  - by intros l x [? _]%andb_true_iff.
  - intros l t t' [_ Hq]%andb_true_iff Hin. cbn in Hq. rewrite forallb_forall in Hq.
    by specialize (Hq _ (proj1 (list_elem_of_In _ _) Hin)).
  - intros l t Hc Hq. apply andb_true_iff. split; [exact Hc|]. cbn. apply forallb_forall. intros [t' m] Hin%list_elem_of_In.
    apply bool_decide_eq_true. destruct m; [done|by destruct (Hq t')].
Qed.
Example round_lock_stuck : ∃ w, programs w !! 2%N = Some (round_ops SendRound) ∧ ∀ x, may_grant (lock w) x = false.
Proof.
  destruct status_page_stops_node as (w & _ & Hw). exists w. destruct (Hw w) as (_ & H2' & Hg); [apply rtc_refl|]. by split.
Qed.

(** A page that subscribes after five rounds shows the four values, twice. *)
Example first_event (c : Consensus) (ack : BlockRound) :
  rtc (updates_step (status_channels c ack [5; 2; 3; 1]%N)) (subscribed [5; 2; 3; 1]%N)
    (MkStream Waiting [5; 2; 3; 1]%N [status_values c ack; status_values c ack]) ∧
  asleep (status_channels c ack [5; 2; 3; 1]%N)
    (MkStream Waiting [5; 2; 3; 1]%N [status_values c ack; status_values c ack]).
Proof.
  split.
  - do 4 (eapply rtc_l; [by eapply updates_borrow|]). cbn. apply rtc_once. by apply (updates_yield _ (status_values c ack) _ []).
  - split; [done|]. intros i ch v Hi Hv. do 4 (destruct i as [|i]; [by injection Hi as <-; injection Hv as <-|]). done.
Qed.
End Witnesses.
